(* ===== verification/_CoqProject ===== *)
-Q . S2P
Prelude.v
CMonad.v
Mem.v
Heap.v
Queue.v
QueueSpec.v
Stdio.v
Checkpoint.v
Wire.v
Tree.v
Split.v
State.v
Mpi.v
Sends.v
Blocks.v
Transfer.v
TransferSpec.v
Barrier.v
Term.v
Abort.v
Token.v
Network.v
SendModes.v
Proc.v
Api.v
Reduce.v
Quiet.v
Shelf.v
Ranks.v
Ledger.v
TermSpec.v
TermInv.v
WaitSpec.v
ReduceSum.v
Worker.v
QuietWorker.v
LocalState.v
TermCode.v
LedgerCode.v
RingSpec.v
TermSafe.v
NoAbort.v
WaitCode.v
AbortAgree.v
AbortEnds.v
Progress.v
BarrierSafe.v
Conserve.v
RingSafe.v
TokenHang.v
TokenUnsafe.v
Own.v
OwnSends.v
OwnQueue.v
OwnTransfer.v
OwnWorker.v
Lib.v
MemSafe.v
