(* ===== verification/Prelude.v ===== *)
(** * A verification of libcircle

    libcircle is a C library on MPI.  Every rank keeps a queue of strings, the
    work items; user callbacks put items in ([create], [process]) and take
    items out ([process]); idle ranks ask others for items; the library
    detects that no items are left anywhere, and all ranks leave together.
    An abort ends the work early and the queues are saved in checkpoint
    files.  The core is src/libcircle/{queue,token,worker,lib}.c, and that is
    what the development models, function by function and under the names of
    the source.

    ** How the code is modelled

    A C function is a [prog] ([CMonad]): a tree of calls to what is not
    libcircle (allocator, stdio, rand_r, MPI, the data user code reads), with
    a branch for every answer, ending in a result or in a [stop]: undefined
    behaviour, [exit], [MPI_Abort], or [NoFuel].  Structures the code changes
    through pointers are passed in and returned.  A signed operation is
    checked ([i32]); unsigned ones wrap ([u32], [u64]); a malloc'd array
    ([Mem]) is a capacity and the cells written so far, so an access outside
    of it or to a cell that was never written is undefined; NULL is [None].

    Programs are judged in three ways.  [wp P t Q E] quantifies over all
    answers that a protocol [P] allows, and demands that each call is allowed:
    [Heap] is the C library's contract (blocks that are allocated, free of a
    block at most once), [Stdio] adds files, [Mpi] adds requests with the
    buffers they read and messages.  [run] evaluates a program in one
    environment, for the examples and for theorems about particular answers.
    [Network] interleaves the programs of n ranks at their calls: messages of
    one sender, receiver and tag stay in order, those of different ones may
    overtake each other, MPI_Iprobe may miss a message that is there, rand_r
    answers 0 or more, and every other call (allocation, clock, the completion
    of requests) may answer anything.  There MPI_Send returns at once; in
    [SendModes] MPI decides for each message whether its MPI_Send returns at
    once or waits until the message is received.  The states of a job are the
    same or fewer then ([modes_reachable]), so what the theorems over
    [Network] say of all states holds for either; that a job can go on is
    claimed over [SendModes].  [Quiet] says which calls a function makes at all,
    once, for all protocols.  [Own] is [wp] once more, as a linear separation
    logic whose assertions say which blocks and requests a piece of the state
    owns; it is used with the proof mode of Iris.

    ** The parts

    - Queue, QueueSpec: queue.c.  Checkpoint over Stdio: its two file
      functions.  [queue_rep] relates the two arrays to a stack of strings.
    - Wire, State: the constants and CIRCLE_state_st of token.h and
      libcircle.h, one record per group of fields.
    - Tree: CIRCLE_tree_init and _free; Ranks: the tree of all ranks as an
      interface ([IsTree]), against which the tree algorithms are proved.
    - Split: spread_counts and the sizes in CIRCLE_send_work_to_many.
    - Sends: CIRCLE_worksend_*; Blocks: the memory invariant of a process.
    - Transfer, TransferSpec: CIRCLE_workreq_check, CIRCLE_send_*,
      CIRCLE_request_work, CIRCLE_work_receive, CIRCLE_workreceipt_check,
      CIRCLE_extend_offsets, CIRCLE_get_next_proc.
    - Barrier, Term, Abort, Token, Reduce: the rest of token.c - cleanup
      barrier, termination allreduce, abort broadcast and allreduce, token
      ring, reductions.
    - Proc, Api, Lib: the globals, the user's callbacks as a tree of API calls
      ([user], a parameter of everything that runs them), and lib.c.
    - Worker: worker.c - local state, main loop, cleanup loop, CIRCLE_worker;
      QuietWorker and LocalState: what it calls and what it initialises.
    - Shelf: what can be read from a queue, also after a failed realloc;
      Ledger, LedgerCode, Conserve: the items of all ranks as accounts.
    - TermSpec, TermInv, TermCode, TermSafe: tree termination as an abstract
      protocol, its invariant, and that the worker keeps to it.
    - RingSpec, RingSafe: the token of ring termination as a protocol.
    - WaitSpec, WaitCode, Progress: who waits in MPI_Recv for which message, as
      a protocol; that the worker keeps to it; and that its ranks never wait
      so in a circle.
    - Own, OwnSends, OwnQueue, OwnTransfer, OwnWorker, MemSafe: which blocks and
      requests every function owns, from CIRCLE_init to CIRCLE_finalize.
    - NoAbort, AbortAgree, AbortEnds, ReduceSum, BarrierSafe, TokenHang, TokenUnsafe: the
      other theorems about jobs.

    ** What the theorems show

    - Whole jobs, on all interleavings, at least two ranks, any [process] and
      [create] callback: with tree termination a rank leaves its main loop
      only when no work is left or under way ([tree_termination_safe]); no
      string is taken out of the queues more often than it was put in, and if
      user code does not abort, exactly as often ([items_never_duplicated],
      [every_item_handed_out_once], for any class of strings); an
      abort that user code did not ask for does not happen
      ([no_spurious_abort]); nobody returns before all have left their main
      loops ([barrier_separates]);
      the final allreduce gives all ranks the same abort flag and ends, also
      when sends wait ([abort_reduce_agrees], [abort_reduce_terminates]); the
      final reduction
      counts every rank once ([reduce_sync_total]); there is never more than
      one token, and ring termination ends in order ([one_token],
      [ring_ends_in_order]); without reductions the ranks never wait in
      MPI_Recv for each other in a circle ([receives_never_deadlock]).  They
      are about steps that were taken: a rank that stops with an error takes
      no more steps.
    - One process, from CIRCLE_init to CIRCLE_finalize, whatever the others
      send: it gives back, reallocates and sends only blocks that are its own
      and that no request reads, completes only pending requests, gives back
      no block and completes no request of the rest of the program, and frees
      all it allocated ([session_heap_discipline]).  It may still stop at an
      access outside of an array when peers send more requests than libcircle
      does ([requestors_overrun]).
    - Ring termination has two defects, each shown by a job: work can be lost
      ([token_termination_loses_work]), and an abort can hang
      ([ring_abort_never_ends]).
    - The queue is a stack ([queue_refines_stack]) that leaks nothing; a
      checkpoint restores what it saved ([checkpoint_roundtrip],
      [checkpoint_write], [checkpoint_read]) unless an item has a newline or
      the maximal length, or the queue was empty (the three [checkpoint_] error
      theorems).
    - A transfer delivers its items, in order, and both queues stay well formed
      ([work_transfer_roundtrip]); send buffers are freed exactly once and
      never while MPI reads them ([worksend_*]); the division of a queue
      conserves it and keeps one item ([split_sizes_conserves],
      [spread_counts_fair]).
    - The state of a worker is well formed from the start and released as a
      whole ([init_local_state_wf], [finalize_frees_all],
      [init_finalize_balanced]); the local trees of all ranks agree
      ([tree_init_rep], [tree_edges_agree]).
    - Where the code can go wrong, the theorem says how: overflow of the
      offset counter ([grow_str_count_rounds_up]), a string whose length is
      truncated before it is checked ([push_length_truncated]), unchecked
      allocations, an unchecked tree width, reduction data that is withdrawn
      and sent all the same ([withdrawn_data_sent]).

    ** Bounds and fuel

    Loops over arrays recurse on the number of elements left.  Loops that
    wait for other ranks, the draws of CIRCLE_get_next_proc and user code take
    [fuel], a bound of the rounds; [NoFuel] is then one more stop.  The
    theorems about jobs hold for every fuel, since a run of the code that
    makes fewer rounds is a run of the model; the loops whose termination is
    claimed ([grow_str_count], [back_off], the reading of C strings,
    CIRCLE_get_next_proc) have a lemma that enough fuel gives a result.

    ** What is assumed

    The size of the job fits the code's ints (the hypotheses with INT32_MAX).
    The reduction callbacks of a job must not touch the queue ([tame]) where a
    theorem is about the queue.  Conservation is about user code that reports
    what it puts in and takes out ([reporting]), puts in no string of 4 GiB
    (see [push_length_truncated]) and neither checkpoints nor restarts, since
    these move items to files.  The struct of a worker starts with arbitrary
    contents.

    ** What is not modelled

    Logging (LOG, CIRCLE_internal_queue_dump, CIRCLE_print_offsets change no
    state); the handling of MPI errors beyond the handler libcircle installs
    (MPI calls succeed); the communicator, of which there is one;
    src/experimental/flex_queue, which does not compile and is not used.

    ** Plan

    That a job without work is able to end, that the reductions keep the ranks
    from waiting for each other, too, and which of the worker's blocking sends
    rely on MPI buffering them: the report of CIRCLE_barrier_test to the parent
    does, since the parent may first need an answer to its work request. *)
From stdpp Require Export base tactics option list gmap numbers strings pretty.
From Stdlib Require Export ZArith Lia.
From Stdlib Require Import Strings.Byte.

#[global] Open Scope Z_scope.

(** ** Machine integers

    A C integer is a [Z]; an operation that can leave the type's range
    says what the type does there: an unsigned type wraps, a signed
    addition is undefined (see [CMonad.i32]). *)
Definition INT32_MIN : Z := -2147483648.
Definition INT32_MAX : Z := 2147483647.
Definition UINT32_MOD : Z := 4294967296.
Definition SIZE_MOD : Z := 18446744073709551616.

Definition u32 (z : Z) : Z := z mod UINT32_MOD.
Definition u64 (z : Z) : Z := z mod SIZE_MOD.
(** Conversion to a narrower signed type, as gcc and clang define it. *)
Definition to_i32 (z : Z) : Z := (z - INT32_MIN) mod UINT32_MOD + INT32_MIN.
Definition to_i8 (z : Z) : Z := (z + 128) mod 256 - 128.
Definition in_i32 (z : Z) : bool := (INT32_MIN <=? z) && (z <=? INT32_MAX).

(** Truth value of a C flag. *)
Definition truth (z : Z) : bool := negb (z =? 0).
Definition flag (b : bool) : Z := if b then 1 else 0.

Lemma u32_small z : 0 ≤ z < UINT32_MOD → u32 z = z.
Proof. intros. by apply Z.mod_small. Qed.
Lemma u64_small z : 0 ≤ z < SIZE_MOD → u64 z = z.
Proof. intros. by apply Z.mod_small. Qed.
Lemma to_i32_small z : INT32_MIN ≤ z ≤ INT32_MAX → to_i32 z = z.
Proof.
  intros. unfold to_i32. rewrite Z.mod_small; [lia|].
  unfold INT32_MIN, INT32_MAX, UINT32_MOD in *; lia.
Qed.
Lemma u32_range z : 0 ≤ u32 z < UINT32_MOD.
Proof. by apply Z.mod_pos_bound. Qed.
Lemma u64_range z : 0 ≤ u64 z < SIZE_MOD.
Proof. by apply Z.mod_pos_bound. Qed.
Lemma in_i32_iff z : in_i32 z = true ↔ INT32_MIN ≤ z ≤ INT32_MAX.
Proof. unfold in_i32. rewrite andb_true_iff, !Z.leb_le. done. Qed.

(** ** Bytes and C strings

    [cstr l] is the C string held by a character array that starts with
    the bytes [l]: what stands before the first NUL. *)
Abbreviation byte := Byte.byte.
Abbreviation NUL := Byte.x00.
Abbreviation LF := Byte.x0a.

#[global] Instance byte_eq_decision : EqDecision byte := Byte.byte_eq_dec.

(** The characters of a string literal. *)
Definition chars (s : string) : list byte := String.list_byte_of_string s.

Fixpoint cstr (l : list byte) : list byte :=
  match l with
  | [] => []
  | b :: l => if decide (b = NUL) then [] else b :: cstr l
  end.

Definition nonul (l : list byte) : Prop := NUL ∉ l.
#[global] Instance nonul_dec l : Decision (nonul l).
Proof. unfold nonul. apply _. Defined.

Definition strlen (l : list byte) : Z := Z.of_nat (length (cstr l)).

Lemma cstr_nonul l : nonul (cstr l).
Proof.
  unfold nonul. induction l as [|b l IH]; simpl; [set_solver|].
  case_decide; [set_solver|]. rewrite elem_of_cons. intros [?|?]; [congruence|done].
Qed.
Lemma cstr_id l : nonul l → cstr l = l.
Proof.
  unfold nonul. induction l as [|b l IH]; simpl; [done|]. rewrite elem_of_cons.
  intros Hn. rewrite decide_False by (intros ->; tauto). rewrite IH by tauto. done.
Qed.
Lemma cstr_app_nul l l' : nonul l → cstr (l ++ NUL :: l') = l.
Proof.
  unfold nonul. induction l as [|b l IH]; simpl; [done|]. rewrite elem_of_cons. intros Hn.
  rewrite decide_False by (intros ->; tauto). rewrite IH by tauto. done.
Qed.
Lemma replicate_nonul n c : c ≠ NUL → nonul (replicate n c).
Proof. intros Hc. unfold nonul. rewrite elem_of_replicate. naive_solver. Qed.

Lemma strlen_replicate n c : c ≠ NUL → 0 ≤ n → strlen (replicate (Z.to_nat n) c) = n.
Proof.
  intros. unfold strlen. rewrite cstr_id by by apply replicate_nonul.
  rewrite length_replicate. lia.
Qed.

Lemma strlen_nonneg l : 0 ≤ strlen l.
Proof. unfold strlen. lia. Qed.

(** ** Automation

    [c_arith] unfolds the integer widths and closes linear goals; [zify_bool]
    turns the boolean tests of the code into propositions. *)
Ltac unfold_widths :=
  unfold INT32_MIN, INT32_MAX, UINT32_MOD, SIZE_MOD in *.
Ltac c_arith := unfold_widths; lia.

Ltac bool_props :=
  repeat match goal with
  | H : (_ <=? _) = true |- _ => apply Z.leb_le in H
  | H : (_ <=? _) = false |- _ => apply Z.leb_gt in H
  | H : (_ <? _) = true |- _ => apply Z.ltb_lt in H
  | H : (_ <? _) = false |- _ => apply Z.ltb_ge in H
  | H : (_ =? _) = true |- _ => apply Z.eqb_eq in H
  | H : (_ =? _) = false |- _ => apply Z.eqb_neq in H
  | H : _ && _ = true |- _ => apply andb_true_iff in H as [? ?]
  | H : _ || _ = false |- _ => apply orb_false_iff in H as [? ?]
  | H : negb _ = true |- _ => apply negb_true_iff in H
  | H : negb _ = false |- _ => apply negb_false_iff in H
  end.

(** Tests of the code on operands the context bounds. *)
Ltac test_true := rewrite (proj2 (Z.ltb_lt _ _)) by c_arith.
Ltac test_false := rewrite (proj2 (Z.ltb_ge _ _)) by c_arith.

(** A closed decidable goal, by evaluation. *)
Ltac decided := apply (bool_decide_unpack _); vm_compute; done.

Create HintDb circle.
Create Rewrite HintDb circle.
#[export] Hint Rewrite u32_small u64_small to_i32_small using c_arith : circle.
#[export] Hint Resolve strlen_nonneg u32_range u64_range cstr_nonul : circle.
