(* ===== verification/CMonad.v ===== *)
(** * C programs over an environment

    A function of libcircle is a [prog]: a finite tree of calls to code
    that is not part of libcircle ([op]: the allocator, stdio, rand_r, MPI,
    the data that a user callback reads), each with a continuation for every
    answer the environment may give, ending in a result or in an abnormal
    [stop].  Structures that a function changes are passed in and returned.

    [wp] quantifies over all answers a [protocol] allows; [run] evaluates a
    program against a concrete environment. *)
From S2P Require Import Prelude.
From Stdlib Require Import Floats.SpecFloat.

(** ** Calls to the environment *)

(** Message contents.  [MPI_BYTE]/[MPI_CHAR], [MPI_INT] and [MPI_LONG_LONG]
    are the datatypes libcircle sends; a zero-length message is [Bytes []]. *)
Inductive payload : Type :=
  | Bytes (l : list byte)
  | Ints (l : list Z)
  | Longs (l : list Z).

Definition payload_count (p : payload) : Z :=
  match p with
  | Bytes l => Z.of_nat (length l)
  | Ints l | Longs l => Z.of_nat (length l)
  end.

(** Pointers to malloc'd blocks; [None] is NULL. *)
Abbreviation ptr := (option Z).
(** MPI request handles; [None] is MPI_REQUEST_NULL. *)
Abbreviation request := (option Z).
Abbreviation MPI_REQUEST_NULL := (@None Z).
(** IEEE binary64 values, as the C double. *)
Abbreviation double := spec_float.

Definition MPI_PROC_NULL : Z := -2.
Definition MPI_ANY_SOURCE : Z := -1.
Definition MPI_SUCCESS : Z := 0.

Inductive op : Type :=
  | OMalloc (size : Z)
  | ORealloc (old : ptr) (size : Z)
  | OFree (p : Z)
  | OPagesize
  | ORand (seed : Z)
  | OFopen (name : string) (write : bool)
  | OFgets (h : Z) (n : Z)
  | OFputs (h : Z) (s : list byte)
  | OFclose (h : Z)
  | OIprobe (src tag : Z)
  | ORecv (src tag count : Z)
  | OSend (dst tag : Z) (p : payload)
  | OIsend (dst tag : Z) (p : payload) (buf : ptr)
  | OIssend (dst tag : Z) (p : payload)
  | OIrecv (src tag : Z)
  | OTest (r : Z)
  | OTestall (rs : list request)
  | OWait (r : Z)
  | OWaitall (rs : list request)
  | OWtime
  | OMpiInitialized
  | OMpiInit
  | OMpiFinalize
  | OCommDup
  | OCommFree
  | OCommRank
  | OCommSize
  | OGather (v : Z)
  | OReduceSum (v : Z)
  | OExternal (n : Z).

(** The answer each call returns: a pointer for the allocator, value and
    next seed for rand_r, the source and the element count of a pending
    message for MPI_Iprobe. *)
Definition ans (o : op) : Type :=
  match o with
  | OMalloc _ | ORealloc _ _ => ptr
  | OFree _ => unit
  | OPagesize => Z
  | ORand _ => Z * Z
  | OFopen _ _ => option Z
  | OFgets _ _ => option (list byte)
  | OFputs _ _ => Z
  | OFclose _ => Z
  | OIprobe _ _ => option (Z * Z)
  | ORecv _ _ _ => payload
  | OSend _ _ _ => unit
  | OIsend _ _ _ _ | OIssend _ _ _ | OIrecv _ _ => Z
  | OTest _ | OTestall _ => bool
  | OWait _ | OWaitall _ => unit
  | OWtime => double
  | OMpiInitialized => Z * bool
  | OMpiInit => Z
  | OMpiFinalize => unit
  | OCommDup | OCommFree => unit
  | OCommRank | OCommSize => Z
  | OGather _ => list Z
  | OReduceSum _ => Z
  | OExternal _ => Z
  end.

(** ** Programs *)

(** Abnormal ends: undefined behaviour, [exit], [MPI_Abort], and a loop
    that used up the iterations it was given. *)
Inductive stop : Type :=
  | UB
  | Exit (code : Z)
  | MPI_Aborted (code : Z)
  | NoFuel.

Inductive prog (A : Type) : Type :=
  | Ret (a : A)
  | Stop (e : stop)
  | Vis (o : op) (k : ans o → prog A).
Arguments Ret {A} a.
Arguments Stop {A} e.
Arguments Vis {A} o k.

Fixpoint prog_bind {A B} (f : A → prog B) (t : prog A) : prog B :=
  match t with
  | Ret a => f a
  | Stop e => Stop e
  | Vis o k => Vis o (λ r, prog_bind f (k r))
  end.

#[export] Instance prog_mret : MRet prog := @Ret.
#[export] Instance prog_mbind : MBind prog := @prog_bind.

Definition call (o : op) : prog (ans o) := Vis o Ret.

(** A value of type int that a signed operation computed: out of range is
    undefined. *)
Definition i32 (z : Z) : prog Z := if in_i32 z then Ret z else Stop UB.

(** Use of a pointer or an array cell that may not be there. *)
Definition deref {A} (o : option A) : prog A :=
  match o with Some a => Ret a | None => Stop UB end.

(** ** All-paths semantics

    A protocol says which calls the environment expects in a ghost state
    and which answers, with which next ghost state, it may give. *)
Record protocol : Type := Protocol {
  ghost : Type;
  pre : ghost → op → Prop;
  post : ghost → ∀ o : op, ans o → ghost → Prop;
}.

Fixpoint wp (P : protocol) {A} (t : prog A)
    (Q : ghost P → A → Prop) (E : ghost P → stop → Prop) (g : ghost P) : Prop :=
  match t with
  | Ret a => Q g a
  | Stop e => E g e
  | Vis o k => pre P g o ∧ ∀ r g', post P g o r g' → wp P (k r) Q E g'
  end.

(** ** One run against an environment *)
Inductive outcome (A : Type) : Type :=
  | Done (a : A)
  | Stopped (e : stop)
  | Blocked (o : op).
Arguments Done {A} a.
Arguments Stopped {A} e.
Arguments Blocked {A} o.

Definition env (S : Type) : Type := S → ∀ o : op, option (ans o * S).

Fixpoint run {S A} (h : env S) (s : S) (t : prog A) : S * outcome A :=
  match t with
  | Ret a => (s, Done a)
  | Stop e => (s, Stopped e)
  | Vis o k =>
      match h s o with
      | Some (r, s') => run h s' (k r)
      | None => (s, Blocked o)
      end
  end.

(** ** Laws *)

Lemma bind_ret {A B} (f : A → prog B) a : (mret a : prog A) ≫= f = f a.
Proof. done. Qed.

(** Equality of programs up to the extension of their continuations. *)
Inductive prog_equiv {A} : Equiv (prog A) :=
  | ret_equiv a : Ret a ≡ Ret a
  | stop_equiv e : Stop e ≡ Stop e
  | vis_equiv o (k k' : ans o → prog A) : (∀ r, k r ≡ k' r) → Vis o k ≡ Vis o k'.
#[export] Existing Instance prog_equiv.

Lemma prog_equiv_inv {A} (t t' : prog A) :
  t ≡ t' →
  match t with
  | Ret a => t' = Ret a
  | Stop e => t' = Stop e
  | Vis o k => ∃ k', t' = Vis o k' ∧ ∀ r, k r ≡ k' r
  end.
Proof. intros []; eauto. Qed.

#[export] Instance prog_equivalence {A} : Equivalence (≡@{prog A}).
Proof.
  split.
  - intros t. induction t; by constructor.
  - intros t t' H. induction H; by constructor.
  - intros t1 t2 t3 H. revert t3. induction H as [| |o k k' _ IH]; intros t3 H3; [done..|].
    destruct (prog_equiv_inv _ _ H3) as (k3 & -> & Hk). constructor. auto.
Qed.

#[export] Instance prog_bind_proper {A B} :
  Proper (pointwise_relation A (≡) ==> (≡) ==> (≡)) (@prog_bind A B).
Proof.
  intros f f' Hf t t' Ht. induction Ht; simpl; [by apply Hf|by constructor|by constructor].
Qed.

Lemma bind_assoc {A B C} (t : prog A) (f : A → prog B) (h : B → prog C) :
  prog_bind h (prog_bind f t) ≡ prog_bind (λ a, prog_bind h (f a)) t.
Proof. induction t; simpl; [done|done|by constructor]. Qed.

Section wp.
Context (P : protocol).

Lemma wp_bind {A B} (t : prog A) (f : A → prog B) Q E g :
  wp P (t ≫= f) Q E g ↔ wp P t (λ g a, wp P (f a) Q E g) E g.
Proof.
  revert g. induction t as [a|e|o k IH]; intros g; simpl; [done..|].
  split; intros [Hp Hk]; (split; [done|]); intros r g' Hr; apply IH; auto.
Qed.

Lemma wp_seq {A B} (t : prog A) (f : A → prog B) Q E g :
  wp P t (λ g a, wp P (f a) Q E g) E g → wp P (prog_bind f t) Q E g.
Proof. apply wp_bind. Qed.

Lemma wp_mono {A} (t : prog A) (Q Q' : ghost P → A → Prop) (E E' : ghost P → stop → Prop) g :
  (∀ g a, Q g a → Q' g a) → (∀ g e, E g e → E' g e) →
  wp P t Q E g → wp P t Q' E' g.
Proof.
  intros HQ HE. revert g. induction t as [a|e|o k IH]; intros g; simpl; [auto..|].
  intros [Hp Hk]. split; [done|]. intros r g' Hr. apply IH; auto.
Qed.

Lemma wp_post {A} (t : prog A) (Q Q' : ghost P → A → Prop) E g :
  (∀ g a, Q g a → Q' g a) → wp P t Q E g → wp P t Q' E g.
Proof. intros HQ. apply wp_mono; auto. Qed.

Lemma wp_call o (Q : ghost P → ans o → Prop) E g :
  wp P (call o) Q E g ↔ pre P g o ∧ ∀ r g', post P g o r g' → Q g' r.
Proof. done. Qed.

(** Programs that differ only inside their continuations mean the same. *)
Lemma wp_equiv {A} (t t' : prog A) Q E g : t ≡ t' → wp P t Q E g → wp P t' Q E g.
Proof.
  intros H. revert g. induction H as [a|e|o k k' _ IH]; intros g; simpl; [done..|].
  intros [Hp Hk]. split; [done|]. intros r g' Hr. by apply IH, Hk.
Qed.

(** A run whose environment keeps to the protocol ends as [wp] says. *)
Lemma wp_run {S A} (h : env S) (R : S → ghost P → Prop) (t : prog A) Q E :
  (∀ s g o r s', R s g → pre P g o → h s o = Some (r, s') →
     ∃ g', post P g o r g' ∧ R s' g') →
  ∀ s g, R s g → wp P t Q E g →
  match run h s t with
  | (s', Done a) => ∃ g', R s' g' ∧ Q g' a
  | (s', Stopped e) => ∃ g', R s' g' ∧ E g' e
  | (_, Blocked _) => True
  end.
Proof.
  intros Hh. induction t as [a|e|o k IH]; intros s g HR; simpl; [eauto..|].
  intros [Hp Hk]. destruct (h s o) as [[r s']|] eqn:Ho; [|done].
  destruct (Hh s g o r s' HR Hp Ho) as (g' & Hg' & HR').
  apply (IH r s' g' HR'), Hk, Hg'.
Qed.
End wp.

(** A program that keeps to protocol [P] keeps to any [P'] that expects
    less of the caller and answers within [P]. *)
Lemma wp_lift P P' (R : ghost P → ghost P' → Prop) {A} (t : prog A) Q E :
  (∀ g g' o, R g g' → pre P g o → pre P' g' o ∧
     ∀ r g1', post P' g' o r g1' → ∃ g1, post P g o r g1 ∧ R g1 g1') →
  ∀ g g', R g g' → wp P t Q E g →
  wp P' t (λ g' a, ∃ g, R g g' ∧ Q g a) (λ g' e, ∃ g, R g g' ∧ E g e) g'.
Proof.
  intros HR. induction t as [a|e|o k IH]; intros g g' Hg; simpl; [eauto..|].
  intros [Hp Hk]. destruct (HR g g' o Hg Hp) as [Hp' Hpost]. split; [done|].
  intros r g1' Hr. destruct (Hpost r g1' Hr) as (g1 & Hr1 & Hg1). eauto.
Qed.

Lemma run_bind {S A B} (h : env S) s (t : prog A) (f : A → prog B) :
  run h s (t ≫= f) =
  match run h s t with
  | (s', Done a) => run h s' (f a)
  | (s', Stopped e) => (s', Stopped e)
  | (s', Blocked o) => (s', Blocked o)
  end.
Proof.
  revert s. induction t as [a|e|o k IH]; intros s; simpl; [done..|].
  destruct (h s o) as [[r s']|]; [apply IH|done].
Qed.

(** ** Symbolic execution

    [wp_i32] discharges a signed operation whose result is in range;
    [wp_call] opens a call to the environment. *)
Lemma i32_ok z : INT32_MIN ≤ z ≤ INT32_MAX → i32 z = mret z.
Proof. intros Hz. unfold i32. by rewrite (proj2 (in_i32_iff z) Hz). Qed.

Lemma i32_ub z : ¬ (INT32_MIN ≤ z ≤ INT32_MAX) → i32 z = Stop UB.
Proof.
  intros Hz. unfold i32. destruct (in_i32 z) eqn:Hb; [|done].
  by apply in_i32_iff in Hb.
Qed.

Ltac wp_i32 := rewrite i32_ok by c_arith; cbn [mbind mret prog_mbind prog_mret prog_bind].
Ltac wp_ret := cbn [mbind mret prog_mbind prog_mret prog_bind wp deref].
