(* ===== verification/Mem.v ===== *)
(** * malloc'd arrays

    An array the program obtained from the allocator: its address, its
    capacity in elements and the cells written so far.  A cell that was
    never written holds an indeterminate value, so reading it is an error,
    as is any access outside the capacity. *)
From S2P Require Import Prelude CMonad.

Record block (A : Type) : Type := Block {
  addr : Z;
  cap : Z;
  cells : gmap Z A;
}.
Arguments Block {A} addr cap cells.
Arguments addr {A} b.
Arguments cap {A} b.
Arguments cells {A} b.

Section block.
Context {A : Type}.
Implicit Types b : block A.

Definition in_block b (off n : Z) : bool := (0 <=? off) && (off + n <=? cap b).

Definition load b (i : Z) : option A :=
  if in_block b i 1 then cells b !! i else None.

Fixpoint blit (m : gmap Z A) (off : Z) (l : list A) : gmap Z A :=
  match l with
  | [] => m
  | x :: l => <[off := x]> (blit m (off + 1) l)
  end.

(** Copy [l] to offset [off]. *)
Definition store_list b (off : Z) (l : list A) : option (block A) :=
  if in_block b off (Z.of_nat (length l))
  then Some (Block (addr b) (cap b) (blit (cells b) off l))
  else None.

Definition store b (i : Z) (x : A) : option (block A) := store_list b i [x].

(** The [n] cells from [off] on. *)
Fixpoint read_cells (m : gmap Z A) (off : Z) (n : nat) : option (list A) :=
  match n with
  | O => Some []
  | S n =>
      match m !! off, read_cells m (off + 1) n with
      | Some x, Some l => Some (x :: l)
      | _, _ => None
      end
  end.

Definition load_list b (off n : Z) : option (list A) :=
  if in_block b off n then read_cells (cells b) off (Z.to_nat n) else None.

(** What realloc leaves of the old contents when the block grows. *)
Definition regrow (old : option (block A)) (p n : Z) : block A :=
  Block p n (match old with Some b => cells b | None => ∅ end).

(** ** Lemmas *)

Lemma blit_lookup m off l i :
  blit m off l !! i =
  if decide (off ≤ i < off + Z.of_nat (length l)) then l !! Z.to_nat (i - off)
  else m !! i.
Proof.
  revert off. induction l as [|x l IH]; intros off; simpl.
  - rewrite decide_False by lia. done.
  - rewrite lookup_insert. case_decide as Hi.
    + subst. rewrite decide_True by lia. by rewrite Z.sub_diag.
    + rewrite IH. case_decide; [rewrite decide_True by lia|rewrite decide_False by lia; done].
      replace (Z.to_nat (i - off)) with (S (Z.to_nat (i - (off + 1)))) by lia. done.
Qed.

Lemma read_cells_length m off n l : read_cells m off n = Some l → length l = n.
Proof.
  revert off l. induction n as [|n IH]; intros off l; simpl; [by intros [= <-]|].
  destruct (m !! off); [|done]. destruct (read_cells m (off + 1) n) eqn:Hr; [|done].
  intros [= <-]. simpl. f_equal. eauto.
Qed.

Lemma read_cells_lookup m off n l i :
  read_cells m off n = Some l → (i < n)%nat → m !! (off + Z.of_nat i) = l !! i.
Proof.
  revert off l i. induction n as [|n IH]; intros off l i; simpl; [lia|].
  destruct (m !! off) eqn:Hm; [|done]. destruct (read_cells m (off + 1) n) eqn:Hr; [|done].
  intros [= <-] Hi. destruct i as [|i]; simpl; [by rewrite Z.add_0_r|].
  rewrite <-(IH (off + 1) _ i Hr) by lia. f_equal. lia.
Qed.

Lemma read_cells_intro m off l :
  (∀ i x, l !! i = Some x → m !! (off + Z.of_nat i) = Some x) →
  read_cells m off (length l) = Some l.
Proof.
  revert off. induction l as [|x l IH]; intros off H; simpl; [done|].
  pose proof (H 0%nat x eq_refl) as H0. rewrite Z.add_0_r in H0. rewrite H0.
  rewrite IH; [done|]. intros i y Hi. rewrite <-(H (S i) y Hi). f_equal. lia.
Qed.

Lemma read_cells_ext m m' off n :
  (∀ i, off ≤ i < off + Z.of_nat n → m !! i = m' !! i) →
  read_cells m off n = read_cells m' off n.
Proof.
  revert off. induction n as [|n IH]; intros off H; simpl; [done|].
  rewrite (H off), (IH (off + 1)); [done|intros; apply H; lia|lia].
Qed.

Lemma read_cells_blit_same m off l :
  read_cells (blit m off l) off (length l) = Some l.
Proof.
  apply read_cells_intro. intros i x Hi. rewrite blit_lookup.
  apply lookup_lt_Some in Hi as Hl. rewrite decide_True by lia.
  rewrite <-Hi. f_equal. lia.
Qed.

Lemma read_cells_total m off n :
  (∀ i, off ≤ i < off + Z.of_nat n → is_Some (m !! i)) →
  is_Some (read_cells m off n).
Proof.
  revert off. induction n as [|n IH]; intros off H; simpl; [eauto|].
  destruct (H off) as [x ->]; [lia|].
  destruct (IH (off + 1)) as [l ->]; [intros; apply H; lia|]. eauto.
Qed.

(** Consecutive initialised cells are at most as many as the map has. *)
Lemma read_cells_size m off n l : read_cells m off n = Some l → (n ≤ size m)%nat.
Proof.
  intros Hr.
  assert (NoDup (map (λ i, off + Z.of_nat i) (seq 0 n))) as Hnd.
  { apply NoDup_fmap; [intros ?? ?; lia|apply NoDup_seq]. }
  assert (n = size (list_to_set (C := gset Z) (map (λ i, off + Z.of_nat i) (seq 0 n)))) as ->.
  { rewrite size_list_to_set by done. by rewrite length_map, length_seq. }
  rewrite <-size_dom. apply subseteq_size. intros z.
  rewrite elem_of_list_to_set, list_elem_of_fmap. intros (i & -> & Hi).
  apply elem_of_seq in Hi. apply elem_of_dom.
  rewrite (read_cells_lookup m off n l i Hr) by lia.
  apply lookup_lt_is_Some. erewrite read_cells_length by done. lia.
Qed.

End block.

(** ** C strings in a block *)

(** The C string at [off]: the bytes up to the first NUL, which has to be
    reached inside the block through initialised cells. *)
Fixpoint read_cstr (m : gmap Z byte) (off : Z) (fuel : nat) : option (list byte) :=
  match fuel with
  | O => None
  | S fuel =>
      match m !! off with
      | None => None
      | Some c =>
          if decide (c = NUL) then Some []
          else match read_cstr m (off + 1) fuel with
               | Some l => Some (c :: l)
               | None => None
               end
      end
  end.

(** Any run of initialised cells is at most [size] long, so the fuel is
    never what stops the reading ([load_cstr_spec]). *)
Definition load_cstr (b : block byte) (off : Z) : option (list byte) :=
  match read_cstr (cells b) off (S (size (cells b))) with
  | Some l => if in_block b off (Z.of_nat (length l) + 1) then Some l else None
  | None => None
  end.

(** [s] stands NUL-terminated at [off]. *)
Definition cstr_at (b : block byte) (off : Z) (s : list byte) : Prop :=
  nonul s ∧ 0 ≤ off ∧ off + Z.of_nat (length s) + 1 ≤ cap b ∧
  read_cells (cells b) off (S (length s)) = Some (s ++ [NUL]).

Lemma read_cells_cons {A} (m : gmap Z A) off n x l :
  read_cells m off (S n) = Some (x :: l) ↔ m !! off = Some x ∧ read_cells m (off + 1) n = Some l.
Proof.
  simpl. destruct (m !! off); [|naive_solver].
  destruct (read_cells m (off + 1) n); naive_solver.
Qed.

Lemma read_cstr_spec m off s fuel :
  nonul s → read_cells m off (S (length s)) = Some (s ++ [NUL]) →
  (length s < fuel)%nat → read_cstr m off fuel = Some s.
Proof.
  unfold nonul. revert off fuel. induction s as [|c s IH]; intros off fuel Hs Hr Hf;
    (destruct fuel as [|fuel]; [simpl in Hf; lia|]).
  - apply read_cells_cons in Hr as [Hr _]. simpl. rewrite Hr. done.
  - simpl length in Hr, Hf. rewrite <-app_comm_cons in Hr.
    apply read_cells_cons in Hr as [Hc Hr]. simpl. rewrite Hc.
    rewrite elem_of_cons in Hs. rewrite decide_False by (intros ->; tauto).
    rewrite (IH (off + 1) fuel); [done|tauto|done|lia].
Qed.

Lemma load_cstr_spec b off s : cstr_at b off s → load_cstr b off = Some s.
Proof.
  intros (Hs & Hoff & Hcap & Hr). unfold load_cstr.
  rewrite (read_cstr_spec _ _ s); [|done|done|].
  - unfold in_block. rewrite (proj2 (Z.leb_le 0 off)) by lia. simpl.
    rewrite (proj2 (Z.leb_le _ _)) by lia. done.
  - pose proof (read_cells_size _ _ _ _ Hr). lia.
Qed.

Lemma cstr_at_ext b b' off s :
  cap b ≤ cap b' →
  (∀ i, off ≤ i < off + Z.of_nat (length s) + 1 → cells b !! i = cells b' !! i) →
  cstr_at b off s → cstr_at b' off s.
Proof.
  intros Hcap H (Hs & Hoff & Hc & Hr). split; [done|]. split; [lia|]. split; [lia|].
  rewrite <-Hr. symmetry. apply read_cells_ext. intros i Hi. apply H. lia.
Qed.

Lemma store_list_past {A} (b : block A) off l :
  cap b < off + Z.of_nat (length l) → store_list b off l = None.
Proof.
  intros. unfold store_list, in_block.
  by rewrite (proj2 (Z.leb_gt _ (cap b))), andb_false_r by lia.
Qed.

Lemma store_list_ok {A} (b : block A) off l :
  0 ≤ off → off + Z.of_nat (length l) ≤ cap b →
  store_list b off l = Some (Block (addr b) (cap b) (blit (cells b) off l)).
Proof.
  intros. unfold store_list, in_block.
  by rewrite (proj2 (Z.leb_le 0 off)), (proj2 (Z.leb_le _ (cap b))) by lia.
Qed.

Lemma load_ok {A} (b : block A) i x :
  0 ≤ i < cap b → cells b !! i = Some x → load b i = Some x.
Proof.
  intros ? Hx. unfold load, in_block.
  by rewrite (proj2 (Z.leb_le 0 i)), (proj2 (Z.leb_le _ (cap b))) by lia.
Qed.
