(* ===== verification/Heap.v ===== *)
(** * The C library's contract

    The calls to the allocator, to sysconf and to rand_r as a protocol: the ghost state is
    the set of blocks that are allocated.  free and realloc may only be
    given an allocated block; a successful call returns a block that is not
    in use.  [oom] says whether an allocation may fail. *)
From S2P Require Import Prelude CMonad.

(** Largest object malloc returns. *)
Definition PTRDIFF_MAX : Z := 9223372036854775807.

Definition heap_pre (g : gset Z) (o : op) : Prop :=
  match o with
  | OFree p => p ∈ g
  | ORealloc (Some p) _ => p ∈ g
  | OMalloc _ | ORealloc None _ | OPagesize | ORand _ => True
  | _ => False
  end.

(** What is left of the heap once realloc has given up the old block. *)
Definition without (p : ptr) (g : gset Z) : gset Z :=
  match p with Some p => g ∖ {[ p ]} | None => g end.

Lemma elem_of_without o s p : p ∈ without o s ↔ p ∈ s ∧ o ≠ Some p.
Proof. destruct o as [q|]; simpl; [|naive_solver]. rewrite elem_of_difference, elem_of_singleton. naive_solver. Qed.

Definition fresh_block (oom : bool) (g0 g : gset Z) (size : Z) (r : ptr) (g' : gset Z) : Prop :=
  match r with
  | Some p => p ∉ g ∧ g' = {[p]} ∪ g ∧ size ≤ PTRDIFF_MAX
  | None => oom = true ∧ g' = g0
  end.

Definition heap_post (oom : bool) (g : gset Z) (o : op) : ans o → gset Z → Prop :=
  match o return ans o → gset Z → Prop with
  | OMalloc size => λ r g', fresh_block oom g g size r g'
  | ORealloc old size => λ r g', fresh_block oom g (without old g) size r g'
  | OFree p => λ _ g', g' = g ∖ {[p]}
  | OPagesize => λ r g', g' = g ∧ 1 ≤ r ≤ 1073741824
  | ORand _ => λ r g', g' = g ∧ 0 ≤ fst r ≤ INT32_MAX ∧ 0 ≤ snd r < UINT32_MOD
  | _ => λ _ g', g' = g
  end.

Definition heap (oom : bool) : protocol := {|
  ghost := gset Z;
  pre := heap_pre;
  post := heap_post oom;
|}.

(** A concrete allocator that keeps to the contract: the block numbers are
    handed out in order and requests above [limit] fail. *)
Definition bump (limit : Z) : env Z := λ next o,
  match o return option (ans o * Z) with
  | OMalloc n => if n <=? limit then Some (Some next, next + 1) else Some (None, next)
  | ORealloc _ n => if n <=? limit then Some (Some next, next + 1) else Some (None, next)
  | OFree _ => Some (tt, next)
  | OPagesize => Some (4096, next)
  | ORand s => Some ((u32 (s * 1103515245 + 12345) mod (INT32_MAX + 1),
                      u32 (s * 1103515245 + 12345)), next)
  | _ => None
  end.
