(* ===== verification/Queue.v ===== *)
(** * The local work queue (src/libcircle/queue.c, queue.h)

    A queue is a pool of NUL-terminated strings ([q_base], [q_bytes] bytes)
    and an array of offsets into the pool ([q_strings], [q_str_count]
    entries, the first [q_count] of them in use); [q_head] is the pool
    offset the next string is written to.  Both arrays grow by realloc.

    [queue_rep qp stk]: the queue holds the stack [stk] of strings, the top
    (the string that was pushed last) first. *)
From S2P Require Import Prelude CMonad Mem Heap.

(** PATH_MAX on Linux, and the fallback of libcircle.h. *)
Definition CIRCLE_MAX_STRING_LEN : Z := 4096.
Definition CIRCLE_INITIAL_INTERNAL_QUEUE_SIZE : Z := 4096.
Definition sizeof_uintptr_t : Z := 8.
Definition sizeof_queue_t : Z := 40.

Record CIRCLE_internal_queue_t : Type := mkQueue {
  q_addr : Z;                       (* the struct's own block *)
  q_base : option (block byte);     (* NULL after a failed realloc *)
  q_bytes : Z;                      (* size_t *)
  q_head : Z;                       (* uintptr_t *)
  q_strings : option (block Z);
  q_str_count : Z;                  (* int32_t *)
  q_count : Z;                      (* int32_t *)
}.

Definition with_base (b : option (block byte)) (qp : CIRCLE_internal_queue_t) :=
  mkQueue (q_addr qp) b (q_bytes qp) (q_head qp) (q_strings qp) (q_str_count qp) (q_count qp).
Definition with_bytes (n : Z) (qp : CIRCLE_internal_queue_t) :=
  mkQueue (q_addr qp) (q_base qp) n (q_head qp) (q_strings qp) (q_str_count qp) (q_count qp).
Definition with_head (h : Z) (qp : CIRCLE_internal_queue_t) :=
  mkQueue (q_addr qp) (q_base qp) (q_bytes qp) h (q_strings qp) (q_str_count qp) (q_count qp).
Definition with_strings (m : option (block Z)) (qp : CIRCLE_internal_queue_t) :=
  mkQueue (q_addr qp) (q_base qp) (q_bytes qp) (q_head qp) m (q_str_count qp) (q_count qp).
Definition with_str_count (n : Z) (qp : CIRCLE_internal_queue_t) :=
  mkQueue (q_addr qp) (q_base qp) (q_bytes qp) (q_head qp) (q_strings qp) n (q_count qp).
Definition with_count (n : Z) (qp : CIRCLE_internal_queue_t) :=
  mkQueue (q_addr qp) (q_base qp) (q_bytes qp) (q_head qp) (q_strings qp) (q_str_count qp) n.

(** ** Operations *)

(** [free(p)] of a pointer that was tested against NULL. *)
Definition free_opt (p : ptr) : prog unit :=
  match p with Some p => call (OFree p) | None => mret tt end.

Definition CIRCLE_internal_queue_free (qp : option CIRCLE_internal_queue_t) : prog Z :=
  match qp with
  | None => mret (-1)
  | Some qp =>
      _ ← free_opt (addr <$> q_strings qp);
      _ ← free_opt (addr <$> q_base qp);
      _ ← call (OFree (q_addr qp));
      mret 1
  end.

(** The part of the initialisation after the struct was allocated at [a]. *)
Definition queue_init_fields (a : Z) : prog (option CIRCLE_internal_queue_t) :=
  let str_count := CIRCLE_INITIAL_INTERNAL_QUEUE_SIZE in
  let bytes := u64 (CIRCLE_MAX_STRING_LEN * str_count) in
  base ← call (OMalloc bytes);
  strings ← call (OMalloc (u64 (sizeof_uintptr_t * str_count)));
  let qp := mkQueue a ((λ p, Block p bytes ∅) <$> base) bytes 0
              ((λ p, Block p str_count ∅) <$> strings) (to_i32 str_count) 0 in
  match base, strings with
  | Some _, Some _ => mret (Some qp)
  | _, _ => _ ← CIRCLE_internal_queue_free (Some qp); mret None
  end.

(** The struct is written to before its pointer is tested. *)
Definition CIRCLE_internal_queue_init : prog (option CIRCLE_internal_queue_t) :=
  qp ← call (OMalloc sizeof_queue_t);
  a ← deref qp;
  queue_init_fields a.

(** [while(qp->str_count < new_size) qp->str_count += 4096]; the signed
    addition overflows into undefined behaviour. *)
Fixpoint grow_str_count (fuel : nat) (str_count new_size : Z) : prog Z :=
  if str_count <? new_size then
    match fuel with
    | O => Stop NoFuel
    | S fuel => n ← i32 (str_count + 4096); grow_str_count fuel n new_size
    end
  else mret str_count.

(** Rounds the loops that add 4096 (or more) need to get from [a] to [b]. *)
Definition grow_fuel (a b : Z) : nat := Z.to_nat ((b - a) / 4096 + 1).

Definition CIRCLE_internal_queue_str_extend (qp : CIRCLE_internal_queue_t) (new_size : Z)
    : prog (Z * CIRCLE_internal_queue_t) :=
  n ← grow_str_count (grow_fuel (q_str_count qp) new_size) (q_str_count qp) new_size;
  let qp := with_str_count n qp in
  let size := u64 (u64 n * sizeof_uintptr_t) in
  p ← call (ORealloc (addr <$> q_strings qp) size);
  let qp := with_strings ((λ p, regrow (q_strings qp) p n) <$> p) qp in
  mret (match p with None => -1 | Some _ => 0 end, qp).

(** [while(current < new_size) current += sysconf(_SC_PAGESIZE) * 4096];
    the unsigned addition wraps. *)
Fixpoint grow_bytes (fuel : nat) (current new_size : Z) : prog Z :=
  if current <? new_size then
    match fuel with
    | O => Stop NoFuel
    | S fuel =>
        page ← call OPagesize;
        grow_bytes fuel (u64 (current + u64 (u64 page * 4096))) new_size
    end
  else mret current.

Definition CIRCLE_internal_queue_extend (qp : CIRCLE_internal_queue_t) (new_size : Z)
    : prog (Z * CIRCLE_internal_queue_t) :=
  current ← grow_bytes (grow_fuel (q_bytes qp) new_size) (q_bytes qp) new_size;
  p ← call (ORealloc (addr <$> q_base qp) current);
  match p with
  | None => mret (-1, with_base None qp)
  | Some p => mret (0, with_bytes current (with_base (Some (regrow (q_base qp) p current)) qp))
  end.

(** [str] is NULL or the C string a character array holds. *)
Definition CIRCLE_internal_queue_push (qp : CIRCLE_internal_queue_t) (str : option (list byte))
    : prog (Z * CIRCLE_internal_queue_t) :=
  match str with
  | None => mret (-1, qp)
  | Some str =>
      let real_len := u64 (strlen str + 1) in
      let len := u32 real_len in
      if len <=? 0 then mret (-1, qp)
      else if CIRCLE_MAX_STRING_LEN <? len then mret (-1, qp)
      else
        n ← i32 (q_count qp + 1);
        '(rc, qp) ← (if q_str_count qp <? n then CIRCLE_internal_queue_str_extend qp n
                     else mret (0, qp));
        if rc <? 0 then mret (-1, qp)
        else
          let new_bytes := u64 (q_head qp + len) in
          '(rc, qp) ← (if q_bytes qp <? new_bytes then CIRCLE_internal_queue_extend qp new_bytes
                       else mret (0, qp));
          if rc <? 0 then mret (-1, qp)
          else
            strings ← deref (q_strings qp);
            strings ← deref (store strings (q_count qp) (q_head qp));
            base ← deref (q_base qp);
            base ← deref (store_list base (q_head qp) (cstr str ++ [NUL]));
            n ← i32 (q_count qp + 1);
            mret (0, with_count n (with_head (u64 (q_head qp + len))
                       (with_strings (Some strings) (with_base (Some base) qp))))
  end.

(** [str] is NULL or a caller's buffer of that many bytes; the string
    copied to it is returned. *)
Definition CIRCLE_internal_queue_pop (qp : option CIRCLE_internal_queue_t) (str : option Z)
    : prog (Z * option CIRCLE_internal_queue_t * option (list byte)) :=
  match qp with
  | None => mret (-1, None, None)
  | Some q =>
      if q_count q <? 1 then mret (-1, qp, None)
      else
        match str with
        | None => mret (-1, qp, None)
        | Some room =>
            i ← i32 (q_count q - 1);
            strings ← deref (q_strings q);
            current ← deref (load strings i);
            base ← deref (q_base q);
            s ← deref (load_cstr base current);
            if room <? Z.of_nat (length s) + 1 then Stop UB
            else mret (0, Some (with_count i (with_head current q)), Some s)
        end
  end.

#[global] Arguments queue_init_fields : simpl never.
#[global] Arguments CIRCLE_internal_queue_free : simpl never.
#[global] Arguments CIRCLE_internal_queue_push : simpl never.
#[global] Arguments CIRCLE_internal_queue_pop : simpl never.
#[global] Arguments CIRCLE_internal_queue_extend : simpl never.
#[global] Arguments CIRCLE_internal_queue_str_extend : simpl never.

(** The loop of the pretty-printer: the strings it logs, from the bottom. *)
Fixpoint queue_strings (n : nat) (i : Z) (qp : CIRCLE_internal_queue_t) : prog (list (list byte)) :=
  match n with
  | O => mret []
  | S n =>
      strings ← deref (q_strings qp);
      off ← deref (load strings i);
      base ← deref (q_base qp);
      s ← deref (load_cstr base off);
      rest ← queue_strings n (i + 1) qp;
      mret (s :: rest)
  end.

Definition CIRCLE_internal_queue_print (qp : CIRCLE_internal_queue_t) : prog (list (list byte)) :=
  queue_strings (Z.to_nat (q_count qp)) 0 qp.

(** ** What a queue holds *)

(** The strings of [stk], top first, stand one below the other: entry
    [length rest] of the offset array points to the top one, which ends
    below [top]. *)
Fixpoint layout (b : block byte) (m : block Z) (stk : list (list byte)) (top : Z) : Prop :=
  match stk with
  | [] => True
  | s :: rest =>
      ∃ off, cells m !! Z.of_nat (length rest) = Some off ∧ cstr_at b off s ∧
        off + Z.of_nat (length s) + 1 ≤ top ∧ layout b m rest off
  end.

Record queue_blocks (qp : CIRCLE_internal_queue_t) (b : block byte) (m : block Z)
    (stk : list (list byte)) : Prop := QueueBlocks {
  qb_base : q_base qp = Some b;
  qb_strings : q_strings qp = Some m;
  qb_cap : cap b = q_bytes qp;
  qb_str_cap : cap m = q_str_count qp;
  qb_count : q_count qp = Z.of_nat (length stk);
  qb_count_max : q_count qp ≤ q_str_count qp ≤ INT32_MAX;
  qb_head : 0 ≤ q_head qp ≤ q_bytes qp;
  qb_bytes_max : q_bytes qp ≤ PTRDIFF_MAX;
  qb_init : ∀ i, 0 ≤ i < q_head qp → is_Some (cells b !! i);
  qb_layout : layout b m stk (q_head qp);
}.

Definition queue_rep (qp : CIRCLE_internal_queue_t) (stk : list (list byte)) : Prop :=
  ∃ b m, queue_blocks qp b m stk.

(** The blocks a queue owns. *)
Definition queue_owned (qp : CIRCLE_internal_queue_t) : list Z :=
  q_addr qp :: (default [] ((λ b, [addr b]) <$> q_base qp)) ++
  (default [] ((λ b, [addr b]) <$> q_strings qp)).

Definition owns (g : gset Z) (qp : CIRCLE_internal_queue_t) : Prop :=
  NoDup (queue_owned qp) ∧ (∀ p, p ∈ queue_owned qp → p ∈ g).

(** ** The layout under updates of the arrays *)

Lemma layout_mono b m stk top top' :
  top ≤ top' → layout b m stk top → layout b m stk top'.
Proof. destruct stk; simpl; [done|]. intros ? (off & ? & ? & ? & ?). exists off. auto with lia. Qed.

Lemma layout_ext b b' m m' stk top :
  cap b ≤ cap b' →
  (∀ i, i < top → cells b !! i = cells b' !! i) →
  (∀ i, i < Z.of_nat (length stk) → cells m !! i = cells m' !! i) →
  layout b m stk top → layout b' m' stk top.
Proof.
  intros Hcap. revert top. induction stk as [|s stk IH]; intros top Hb Hm; simpl; [done|].
  intros (off & Hoff & Hs & Htop & Hl). exists off.
  split; [rewrite <-Hm by (simpl; lia); done|].
  split; [eapply cstr_at_ext; [done| |done]; intros; apply Hb; lia|].
  split; [done|]. destruct Hs as (_ & _ & _ & _).
  apply IH; [intros; apply Hb; lia|intros; apply Hm; simpl; lia|done].
Qed.

Lemma owns_some g qp b m :
  q_base qp = Some b → q_strings qp = Some m →
  owns g qp ↔ (q_addr qp ≠ addr b ∧ q_addr qp ≠ addr m ∧ addr b ≠ addr m) ∧
              q_addr qp ∈ g ∧ addr b ∈ g ∧ addr m ∈ g.
Proof.
  intros Hb Hm. unfold owns, queue_owned. rewrite Hb, Hm. simpl.
  rewrite !NoDup_cons. setoid_rewrite elem_of_cons. setoid_rewrite elem_of_cons.
  setoid_rewrite elem_of_cons. setoid_rewrite elem_of_nil.
  pose proof (NoDup_nil_2 (A := Z)). naive_solver.
Qed.

Lemma queue_rep_count qp stk : queue_rep qp stk → q_count qp = Z.of_nat (length stk).
Proof. intros (b & m & Hq). apply Hq. Qed.

(** ** The growth loops *)

Lemma grow_str_count_ok fuel c n :
  0 ≤ c → n + 4095 ≤ INT32_MAX → n ≤ c + 4096 * Z.of_nat fuel →
  ∃ r, grow_str_count fuel c n = mret r ∧ c ≤ r ∧ n ≤ r ∧ (r ≤ c ∨ r ≤ n + 4095).
Proof.
  revert c. induction fuel as [|fuel IH]; intros c Hc Hn Hf; simpl.
  - rewrite (proj2 (Z.ltb_ge c n)) by lia. exists c. auto with lia.
  - destruct (Z.ltb_spec c n); [|exists c; auto with lia].
    wp_i32. destruct (IH (c + 4096)) as (r & Hr & ?); [lia..|].
    exists r. split; [done|]. lia.
Qed.

Lemma grow_fuel_enough a b k : 4096 ≤ k → b ≤ a + k * Z.of_nat (grow_fuel a b).
Proof.
  intros Hk. unfold grow_fuel.
  pose proof (Z_div_mod_eq_full (b - a) 4096). pose proof (Z.mod_pos_bound (b - a) 4096).
  destruct (Z.le_gt_cases 0 ((b - a) / 4096 + 1)); [rewrite Z2Nat.id by lia; nia|].
  destruct (Z.to_nat _) eqn:?; nia.
Qed.

Lemma grow_bytes_wp oom fuel c n g Q E :
  0 ≤ c → n ≤ PTRDIFF_MAX + 4096 → n ≤ c + 4096 * Z.of_nat fuel →
  (∀ r, c ≤ r → n ≤ r < SIZE_MOD ∨ r = c → n ≤ r → Q g r) →
  wp (heap oom) (grow_bytes fuel c n) Q E g.
Proof.
  revert c. induction fuel as [|fuel IH]; intros c Hc Hn Hf HQ; simpl.
  - rewrite (proj2 (Z.ltb_ge c n)) by lia. apply HQ; lia.
  - destruct (Z.ltb_spec c n); [|apply HQ; lia].
    split; [done|]. intros page g' [-> Hpage]. unfold PTRDIFF_MAX in Hn.
    rewrite (u64_small page) by c_arith. rewrite (u64_small (page * 4096)) by c_arith.
    rewrite u64_small by c_arith. apply IH; [unfold PTRDIFF_MAX; lia..|].
    intros r Hr Hr' Hn'. apply HQ; [lia| |lia].
    destruct Hr' as [ | -> ]; [lia|]. left. c_arith.
Qed.

(** ** Specifications of the growing operations *)

Lemma str_extend_wp oom qp b m stk n g :
  queue_blocks qp b m stk → owns g qp → q_str_count qp < n → n + 4095 ≤ INT32_MAX →
  wp (heap oom) (CIRCLE_internal_queue_str_extend qp n)
    (λ g' '(rc, qp'),
       (rc = 0 ∧ (∃ m', queue_blocks qp' b m' stk) ∧ owns g' qp' ∧ n ≤ q_str_count qp' ∧
        q_head qp' = q_head qp ∧ q_bytes qp' = q_bytes qp) ∨ (oom = true ∧ rc = -1))
    (λ _ _, False) g.
Proof.
  intros Hq Ho Hlt Hn. destruct Hq. unfold CIRCLE_internal_queue_str_extend.
  destruct (grow_str_count_ok (grow_fuel (q_str_count qp) n) (q_str_count qp) n)
    as (r & -> & Hr); [lia|lia|apply grow_fuel_enough; lia|].
  cbn. rewrite qb_strings0. cbn.
  apply (owns_some g qp b m) in Ho as (Hne & Ha & Hb & Hm); [|done..].
  split; [done|]. intros [p|] g'; simpl; [|by intros [-> ->]; right].
  intros (Hp & -> & Hsz). left. split; [done|]. split; [|split].
  - eexists. split; simpl; eauto; try lia. by apply (layout_ext b b m).
  - apply (owns_some _ _ b (regrow (Some m) p r)); simpl; [done..|]. set_solver.
  - simpl. auto with lia.
Qed.

Lemma extend_wp oom qp b m stk n g :
  queue_blocks qp b m stk → owns g qp → q_bytes qp < n → n ≤ PTRDIFF_MAX + 4096 →
  wp (heap oom) (CIRCLE_internal_queue_extend qp n)
    (λ g' '(rc, qp'),
       (rc = 0 ∧ (∃ b', queue_blocks qp' b' m stk) ∧ owns g' qp' ∧ n ≤ q_bytes qp' ∧
        q_head qp' = q_head qp ∧ q_str_count qp' = q_str_count qp) ∨ (oom = true ∧ rc = -1))
    (λ _ _, False) g.
Proof.
  intros Hq Ho Hlt Hn. destruct Hq. unfold CIRCLE_internal_queue_extend.
  apply wp_seq, grow_bytes_wp; [lia|lia|apply grow_fuel_enough; lia|].
  intros r Hr _ Hnr. cbn. rewrite qb_base0. cbn.
  apply (owns_some g qp b m) in Ho as (Hne & Ha & Hb & Hm); [|done..].
  split; [done|]. intros [p|] g'; simpl; [|by intros [-> ->]; right].
  intros (Hp & -> & Hsz). left. split; [done|]. split; [|split].
  - exists (regrow (Some b) p r). split; simpl; eauto; try lia.
    eapply (layout_ext b _ m m); simpl; auto; lia.
  - apply (owns_some _ _ (regrow (Some b) p r) m); simpl; [done..|]. set_solver.
  - simpl. auto with lia.
Qed.

(** The write at the end of push: string and offset go above what is there. *)
Lemma queue_blocks_write qp b m stk s :
  queue_blocks qp b m stk → nonul s →
  q_count qp + 1 ≤ q_str_count qp → q_head qp + (Z.of_nat (length s) + 1) ≤ q_bytes qp →
  let len := Z.of_nat (length s) + 1 in
  let b' := Block (addr b) (cap b) (blit (cells b) (q_head qp) (s ++ [NUL])) in
  let m' := Block (addr m) (cap m) (blit (cells m) (q_count qp) [q_head qp]) in
  queue_blocks (with_count (q_count qp + 1) (with_head (q_head qp + len)
     (with_strings (Some m') (with_base (Some b') qp)))) b' m' (s :: stk).
Proof.
  intros [] Hs Hc Hh len b' m'. split; simpl; try done; try lia.
  - intros i Hi. rewrite blit_lookup. case_decide as Hd; [|apply qb_init0].
    + apply lookup_lt_is_Some. lia.
    + rewrite length_app in Hd. simpl in Hd. lia.
  - exists (q_head qp). rewrite <-qb_count0. split; [apply lookup_insert_eq|].
    split; [|split; [lia|]].
    + split; [done|]. simpl. split; [lia|]. split; [lia|].
      pose proof (read_cells_blit_same (cells b) (q_head qp) (s ++ [NUL])) as Hr.
      rewrite length_app, Nat.add_1_r in Hr. exact Hr.
    + eapply (layout_ext b b' m m'); simpl; [done| | |done].
      * intros i Hi. rewrite blit_lookup, decide_False by lia. done.
      * intros i Hi. rewrite lookup_insert_ne by lia. done.
Qed.

(** A string the queue accepts: its length fits the length limit. *)
Definition valid_item (s : list byte) : Prop :=
  nonul s ∧ Z.of_nat (length s) + 1 ≤ CIRCLE_MAX_STRING_LEN.
#[global] Instance valid_item_dec s : Decision (valid_item s).
Proof. unfold valid_item. apply _. Defined.

Lemma push_write_wp P qp b m stk s g (Q : ghost P → Z * CIRCLE_internal_queue_t → Prop) E :
  queue_blocks qp b m stk → nonul s →
  q_count qp + 1 ≤ q_str_count qp →
  let len := Z.of_nat (length s) + 1 in
  q_head qp + len ≤ q_bytes qp →
  (∀ qp', queue_rep qp' (s :: stk) → queue_owned qp' = queue_owned qp → Q g (0, qp')) →
  wp P (strings ← deref (q_strings qp);
        strings ← deref (store strings (q_count qp) (q_head qp));
        base ← deref (q_base qp);
        base ← deref (store_list base (q_head qp) (s ++ [NUL]));
        n ← i32 (q_count qp + 1);
        mret (0, with_count n (with_head (u64 (q_head qp + len))
                   (with_strings (Some strings) (with_base (Some base) qp))))) Q E g.
Proof.
  intros Hq Hs Hc len Hh HQ. pose proof (queue_blocks_write _ _ _ _ _ Hq Hs Hc Hh) as Hw.
  destruct Hq. rewrite qb_strings0. wp_ret. unfold store. rewrite store_list_ok by (simpl; lia).
  wp_ret. rewrite qb_base0. wp_ret.
  rewrite store_list_ok by (rewrite ?length_app; simpl; lia). wp_ret. wp_i32. wp_ret.
  unfold PTRDIFF_MAX in *. rewrite u64_small by (subst len; c_arith).
  apply HQ; [by eexists _, _|].
  unfold queue_owned. simpl. rewrite qb_base0, qb_strings0. done.
Qed.

(** [queue_rep] through the intermediate records of push. *)
Theorem push_wp oom qp stk s g :
  queue_rep qp stk → owns g qp → valid_item s → q_count qp + 4096 ≤ INT32_MAX →
  wp (heap oom) (CIRCLE_internal_queue_push qp (Some s))
    (λ g' '(rc, qp'), (rc = 0 ∧ queue_rep qp' (s :: stk) ∧ owns g' qp') ∨ (oom = true ∧ rc = -1))
    (λ _ _, False) g.
Proof.
  intros (b & m & Hq) Ho [Hs Hlen] Hmax. unfold CIRCLE_MAX_STRING_LEN in Hlen.
  pose proof Hq as []. unfold PTRDIFF_MAX in *.
  unfold CIRCLE_internal_queue_push, strlen. rewrite cstr_id by done.
  rewrite u64_small, u32_small by c_arith.
  rewrite (proj2 (Z.leb_gt _ _)) by lia. unfold CIRCLE_MAX_STRING_LEN. test_false. wp_i32.
  apply wp_seq.
  eapply (wp_post (heap oom) _ (λ g' '(rc, qp'),
       (rc = 0 ∧ (∃ m', queue_blocks qp' b m' stk) ∧ owns g' qp' ∧ q_count qp + 1 ≤ q_str_count qp' ∧
        q_head qp' = q_head qp ∧ q_bytes qp' = q_bytes qp) ∨ (oom = true ∧ rc = -1)));
    [|].
  2: { destruct (Z.ltb_spec (q_str_count qp) (q_count qp + 1)).
       - eapply str_extend_wp; [done|done|lia|lia].
       - left. split; [done|]. eauto 10 with lia. }
  intros g1 [rc qp1] [(-> & (m1 & Hq1) & Ho1 & Hc1 & Hh1 & Hb1)|[-> ->]]; [|by right].
  cbn [Z.ltb Z.compare]. rewrite Hh1, u64_small by c_arith.
  apply wp_seq. eapply (wp_post (heap oom) _ (λ g' '(rc, qp'),
       (rc = 0 ∧ (∃ b', queue_blocks qp' b' m1 stk) ∧ owns g' qp' ∧
        q_head qp + (Z.of_nat (length s) + 1) ≤ q_bytes qp' ∧
        q_head qp' = q_head qp1 ∧ q_str_count qp' = q_str_count qp1) ∨ (oom = true ∧ rc = -1)));
    [|].
  2: { rewrite Hb1. destruct (Z.ltb_spec (q_bytes qp) (q_head qp + (Z.of_nat (length s) + 1))).
       - eapply extend_wp; [done|done|lia|unfold PTRDIFF_MAX; lia].
       - left. split; [done|]. eauto 10 with lia. }
  intros g2 [rc qp2] [(-> & (b2 & Hq2) & Ho2 & Hbytes & Hh2 & Hc2)|[-> ->]]; [|by right].
  cbn [Z.ltb Z.compare]. pose proof (qb_count _ _ _ _ Hq2).
  eapply push_write_wp; [done|done|lia|lia|].
  intros qp' Hr' Ho'. left. split; [done|]. split; [done|]. unfold owns. by rewrite Ho'.
Qed.

(** Pop takes the top string and leaves everything below in place. *)
Theorem pop_top qp s stk room :
  queue_rep qp (s :: stk) → Z.of_nat (length s) < room →
  ∃ qp', CIRCLE_internal_queue_pop (Some qp) (Some room) = mret (0, Some qp', Some s) ∧
    queue_rep qp' stk ∧ queue_owned qp' = queue_owned qp.
Proof.
  intros (b & m & []) Hroom. simpl in *. destruct qb_layout0 as (off & Hoff & Hs & Htop & Hl).
  unfold CIRCLE_internal_queue_pop. test_false. wp_i32.
  rewrite qb_strings0. wp_ret. rewrite (load_ok _ _ off); [|lia|].
  2: { by replace (q_count qp - 1) with (Z.of_nat (length stk)) by lia. }
  wp_ret. rewrite qb_base0. wp_ret. rewrite (load_cstr_spec _ _ s Hs). wp_ret.
  test_false. eexists. split; [done|]. split; [|done].
  destruct Hs as (_ & H0 & Hcap & _). exists b, m.
  split; simpl; try done; try lia. intros i Hi. apply qb_init0. lia.
Qed.

Lemma pop_empty qp room :
  queue_rep qp [] → CIRCLE_internal_queue_pop (Some qp) room = mret (-1, Some qp, None).
Proof.
  intros (b & m & []). unfold CIRCLE_internal_queue_pop. simpl in *. by rewrite qb_count0.
Qed.

Lemma push_null qp : CIRCLE_internal_queue_push qp None = mret (-1, qp).
Proof. done. Qed.

(** Strings of [CIRCLE_MAX_STRING_LEN] bytes and more are refused. *)
Lemma push_too_long qp s :
  CIRCLE_MAX_STRING_LEN < strlen s + 1 < UINT32_MOD →
  CIRCLE_internal_queue_push qp (Some s) = mret (-1, qp).
Proof.
  intros. pose proof (strlen_nonneg s). unfold CIRCLE_internal_queue_push.
  rewrite u64_small, u32_small by c_arith. rewrite (proj2 (Z.leb_gt _ _)) by lia.
  by rewrite (proj2 (Z.ltb_lt _ _)) by lia.
Qed.

(** ** Creating and destroying a queue *)

Theorem queue_init_fields_wp oom a g :
  a ∈ g →
  wp (heap oom) (queue_init_fields a)
    (λ g' r, match r with
             | Some qp => queue_rep qp [] ∧ owns g' qp ∧ q_addr qp = a ∧
                          g' = g ∪ list_to_set (queue_owned qp) ∧
                          (∀ p, p ∈ queue_owned qp → p ∈ g → p = a)
             | None => oom = true ∧ g' = g ∖ {[a]}
             end)
    (λ _ _, False) g.
Proof.
  intros Ha. unfold queue_init_fields, CIRCLE_internal_queue_free. cbn.
  split; [done|]. intros [p|] g1 H1; cbn in H1; cbn; (split; [done|]); intros [m|] g2 H2;
    cbn in H2; cbn.
  - destruct H1 as (Hp & -> & _), H2 as (Hm & -> & _). split; [|split; [|split; [done|split]]].
    + exists (Block p 16777216 ∅), (Block m 4096 ∅). split; simpl; try done. lia.
    + apply (owns_some _ _ (Block p 16777216 ∅) (Block m 4096 ∅)); [done..|]. simpl. set_solver.
    + unfold queue_owned. simpl. set_solver.
    + unfold queue_owned. simpl. set_solver.
  - destruct H1 as (Hp & -> & _), H2 as (-> & ->). split; [set_solver|].
    intros [] g3 ->. split; [set_solver|]. intros [] g4 ->. split; [done|]. set_solver.
  - destruct H1 as (-> & ->), H2 as (Hm & -> & _). split; [set_solver|].
    intros [] g3 ->. split; [set_solver|]. intros [] g4 ->. split; [done|]. set_solver.
  - destruct H1 as (-> & ->), H2 as (_ & ->). split; [done|].
    intros [] g4 ->. done.
Qed.

Lemma queue_free_wp oom qp g :
  owns g qp →
  wp (heap oom) (CIRCLE_internal_queue_free (Some qp))
    (λ g' rc, rc = 1 ∧ g' = g ∖ list_to_set (queue_owned qp)) (λ _ _, False) g.
Proof.
  unfold owns, queue_owned, CIRCLE_internal_queue_free. intros [Hnd Hin].
  destruct (q_strings qp) as [m|], (q_base qp) as [b|]; cbn in *;
    rewrite ?NoDup_cons, ?elem_of_cons in Hnd.
  - split; [apply Hin; set_solver|]. intros [] g1 ->. cbn. split; [set_solver|].
    intros [] g2 ->. cbn. split; [set_solver|]. intros [] g3 ->. split; [done|]. set_solver.
  - split; [set_solver|]. intros [] g1 ->. cbn. split; [set_solver|].
    intros [] g2 ->. split; [done|]. set_solver.
  - split; [set_solver|]. intros [] g1 ->. cbn. split; [set_solver|].
    intros [] g2 ->. split; [done|]. set_solver.
  - split; [set_solver|]. intros [] g1 ->. split; [done|]. set_solver.
Qed.

(** ** Looking into the layout *)

Lemma layout_app b m l1 l2 top :
  layout b m (l1 ++ l2) top → ∃ top', top' ≤ top ∧ layout b m l2 top'.
Proof.
  revert top. induction l1 as [|s l1 IH]; intros top; simpl; [intros; exists top; auto with lia|].
  intros (off & _ & (_ & ? & _) & ? & Hl). destruct (IH _ Hl) as (top' & ? & ?).
  exists top'. auto with lia.
Qed.

Lemma layout_lookup b m l1 s l2 top :
  layout b m (l1 ++ s :: l2) top →
  ∃ off, cells m !! Z.of_nat (length l2) = Some off ∧ cstr_at b off s ∧
    off + Z.of_nat (length s) + 1 ≤ top ∧ layout b m l2 off.
Proof.
  intros (top' & ? & Hl)%layout_app. simpl in Hl. destruct Hl as (off & ? & ? & ? & ?).
  exists off. auto with lia.
Qed.

Lemma queue_strings_ok qp b m l1 l2 :
  queue_blocks qp b m (l1 ++ l2) →
  queue_strings (length l1) (Z.of_nat (length l2)) qp = mret (rev l1).
Proof.
  revert l2. induction l1 as [|s l1 IH] using rev_ind; intros l2 Hq; [done|].
  rewrite length_app, Nat.add_1_r. simpl.
  rewrite <-app_assoc in Hq. pose proof Hq as [].
  destruct (layout_lookup _ _ _ _ _ _ qb_layout0) as (off & Hoff & Hs & _).
  rewrite qb_strings0. rewrite length_app in qb_count0. simpl in qb_count0.
  cbn. rewrite (load_ok _ _ off); [|lia|done]. cbn.
  rewrite qb_base0. cbn. rewrite (load_cstr_spec _ _ s) by done. cbn.
  replace (Z.of_nat (length l2) + 1) with (Z.of_nat (length (s :: l2))) by (simpl; lia).
  rewrite IH by done. cbn. by rewrite rev_app_distr.
Qed.
