(* ===== verification/QueueSpec.v ===== *)
(** * The work queue refines a stack

    The contract of the queue: any sequence of pushes and pops, as a user
    callback makes them through the handle, answers like a stack of
    strings.  Also the edges of the contract: what overflow and a failed
    allocation do to the queue. *)
From S2P Require Import Prelude CMonad Mem Heap Queue.

Inductive qcmd : Type :=
  | CPush (s : list byte)
  | CPop.

Inductive qanswer : Type :=
  | APushed (rc : Z)
  | APopped (rc : Z) (s : option (list byte)).

(** The abstract machine. *)
Definition stack_step (c : qcmd) (stk : list (list byte)) : qanswer * list (list byte) :=
  match c, stk with
  | CPush s, _ => if decide (Z.of_nat (length s) + 1 ≤ CIRCLE_MAX_STRING_LEN)
                  then (APushed 0, s :: stk) else (APushed (-1), stk)
  | CPop, [] => (APopped (-1) None, [])
  | CPop, s :: stk => (APopped 0 (Some s), stk)
  end.

Fixpoint stack_run (l : list qcmd) (stk : list (list byte)) : list qanswer * list (list byte) :=
  match l with
  | [] => ([], stk)
  | c :: l => let '(a, stk) := stack_step c stk in
              let '(outs, stk) := stack_run l stk in (a :: outs, stk)
  end.

(** The same commands on a queue, popping into buffers of the size the
    library asks its users to provide. *)
Definition queue_step (c : qcmd) (qp : CIRCLE_internal_queue_t)
    : prog (qanswer * CIRCLE_internal_queue_t) :=
  match c with
  | CPush s =>
      '(rc, qp) ← CIRCLE_internal_queue_push qp (Some s);
      mret (APushed rc, qp)
  | CPop =>
      '(rc, qp', s) ← CIRCLE_internal_queue_pop (Some qp) (Some CIRCLE_MAX_STRING_LEN);
      mret (APopped rc s, default qp qp')
  end.

Fixpoint queue_run (l : list qcmd) (qp : CIRCLE_internal_queue_t)
    : prog (list qanswer * CIRCLE_internal_queue_t) :=
  match l with
  | [] => mret ([], qp)
  | c :: l => '(a, qp) ← queue_step c qp;
              '(outs, qp) ← queue_run l qp;
              mret (a :: outs, qp)
  end.

(** A string a caller can hand over: NUL-terminated, shorter than 4 GiB. *)
Definition qcmd_ok (c : qcmd) : Prop :=
  match c with
  | CPush s => nonul s ∧ Z.of_nat (length s) + 1 < UINT32_MOD
  | CPop => True
  end.

Definition stack_ok (stk : list (list byte)) : Prop := Forall valid_item stk.

Lemma stack_step_ok c stk :
  qcmd_ok c → stack_ok stk →
  stack_ok (snd (stack_step c stk)) ∧ (length (snd (stack_step c stk)) ≤ S (length stk))%nat.
Proof.
  intros Hc Hs. destruct c as [s|]; simpl.
  - case_decide; simpl; [|auto]. split; [|lia]. constructor; [|done]. by destruct Hc.
  - destruct stk; simpl; [auto|]. inversion Hs; subst. auto.
Qed.

Lemma queue_step_wp c qp stk g :
  queue_rep qp stk → owns g qp → stack_ok stk → qcmd_ok c →
  Z.of_nat (length stk) + 4096 ≤ INT32_MAX →
  wp (heap false) (queue_step c qp)
    (λ g' '(a, qp'), a = fst (stack_step c stk) ∧ queue_rep qp' (snd (stack_step c stk)) ∧
                     owns g' qp') (λ _ _, False) g.
Proof.
  intros Hr Ho Hs Hc Hmax. destruct c as [s|]; simpl.
  - destruct Hc as [Hnul Hlen]. apply wp_seq. case_decide as Hd; simpl.
    + eapply wp_post, push_wp; [|done..|].
      * intros g' [rc qp'] [(-> & ? & ?)|[? _]]; [|done]. simpl. auto.
      * destruct Hr as (b & m & []). lia.
    + rewrite push_too_long; [simpl; auto|]. unfold strlen. rewrite cstr_id by done. lia.
  - apply wp_seq. destruct stk as [|s stk]; simpl.
    + rewrite (pop_empty qp _ Hr). simpl. auto.
    + inversion Hs as [|? ? [_ Hlen] _]; subst.
      destruct (pop_top qp s stk CIRCLE_MAX_STRING_LEN) as (qp' & -> & Hr' & Ho');
        [done|lia|]. simpl. unfold owns. rewrite Ho'. auto.
Qed.

(** C15 The work queue is a stack: on any sequence of pushes and pops of
    strings, the return codes and the strings popped are those of an
    abstract stack that refuses strings longer than
    CIRCLE_MAX_STRING_LEN - 1, no undefined behaviour is met, and the final
    queue holds the final stack. *)
Theorem queue_refines_stack l qp stk g :
  queue_rep qp stk → owns g qp → stack_ok stk → Forall qcmd_ok l →
  Z.of_nat (length stk + length l) + 4096 ≤ INT32_MAX →
  wp (heap false) (queue_run l qp)
    (λ g' '(outs, qp'), outs = fst (stack_run l stk) ∧ queue_rep qp' (snd (stack_run l stk)) ∧
                        owns g' qp') (λ _ _, False) g.
Proof.
  revert qp stk g. induction l as [|c l IH]; intros qp stk g Hr Ho Hs Hl Hmax; simpl; [auto|].
  inversion Hl as [|? ? Hc Hl']; subst. simpl in Hmax.
  apply wp_seq. eapply wp_post, queue_step_wp; [|done..|lia].
  intros g' [a qp'] (-> & Hr' & Ho'). apply wp_seq.
  destruct (stack_step_ok c stk Hc Hs) as [Hs' Hlen].
  destruct (stack_step c stk) as [a stk'] eqn:Hstep. simpl in *.
  eapply wp_post, (IH qp' stk'); [|done..|lia].
  intros g2 [outs qp2]. destruct (stack_run l stk') as [outs' stk2]. simpl.
  intros (-> & ? & ?). auto.
Qed.

(** A queue as CIRCLE_internal_queue_init leaves it on the allocator
    [bump]. *)
Definition queue0 : CIRCLE_internal_queue_t :=
  mkQueue 1 (Some (Block 2 16777216 ∅)) 16777216 0 (Some (Block 3 4096 ∅)) 4096 0.

Example queue0_init :
  run (bump PTRDIFF_MAX) 1 CIRCLE_internal_queue_init = (4, Done (Some queue0)).
Proof. vm_compute. reflexivity. Qed.

Lemma queue0_rep : queue_rep queue0 [].
Proof.
  eexists _, _. split; simpl; try done. intros i Hi. lia.
Qed.

Lemma queue0_owns : owns {[1; 2; 3]} queue0.
Proof. apply (owns_some _ _ (Block 2 16777216 ∅) (Block 3 4096 ∅)); [done..|]. simpl. set_solver. Qed.

Definition demo_cmds : list qcmd :=
  [CPush (chars "ab"); CPush []; CPop; CPush (chars "c"); CPop; CPop; CPop].

Lemma queue_refines_stack_witness :
  fst (stack_run demo_cmds []) =
    [APushed 0; APushed 0; APopped 0 (Some []); APushed 0; APopped 0 (Some (chars "c"));
     APopped 0 (Some (chars "ab")); APopped (-1) None] ∧
  wp (heap false) (queue_run demo_cmds queue0)
    (λ g' '(outs, qp'), outs = fst (stack_run demo_cmds []) ∧
       queue_rep qp' (snd (stack_run demo_cmds [])) ∧ owns g' qp') (λ _ _, False) {[1; 2; 3]}.
Proof.
  split; [reflexivity|].
  apply (queue_refines_stack demo_cmds queue0 [] {[1; 2; 3]}).
  - apply queue0_rep.
  - apply queue0_owns.
  - constructor.
  - repeat constructor; try done; apply (bool_decide_unpack _); vm_compute; done.
  - vm_compute. intros H. discriminate H.
Defined.

(** The pretty-printer logs exactly the queued strings, oldest first. *)
Theorem queue_print_strings qp stk :
  queue_rep qp stk → CIRCLE_internal_queue_print qp = mret (rev stk).
Proof.
  intros (b & m & Hq). unfold CIRCLE_internal_queue_print.
  rewrite (qb_count _ _ _ _ Hq), Nat2Z.id.
  apply (queue_strings_ok qp b m stk []). by rewrite app_nil_r.
Qed.

Lemma queue_print_strings_witness :
  CIRCLE_internal_queue_print queue0 = mret [].
Proof. apply (queue_print_strings queue0 []). apply queue0_rep. Defined.

(** Creating a queue and freeing it again leaves the heap as it was:
    every block the constructor allocates is freed exactly once. *)
Theorem queue_init_free_no_leak g :
  wp (heap false)
    (qp ← CIRCLE_internal_queue_init; CIRCLE_internal_queue_free qp)
    (λ g' rc, rc = 1 ∧ g' = g) (λ _ _, False) g.
Proof.
  unfold CIRCLE_internal_queue_init. cbn. split; [done|].
  intros [p|] g1; cbn; [|by intros [? _]]. intros (Hp & -> & _).
  apply wp_seq. eapply wp_post, queue_init_fields_wp; [|set_solver].
  intros g2 [qp|]; [|by intros [? _]]. intros (Hr & [Hnd Hin] & Ha & Hg2 & Hnew).
  eapply wp_post, queue_free_wp; [|by split]. simpl. intros g3 rc [-> ->]. split; [done|].
  assert (p ∈ queue_owned qp) by (rewrite <-Ha; unfold queue_owned; set_solver).
  apply set_eq. intros x. subst g2.
  rewrite elem_of_difference, elem_of_union, elem_of_list_to_set.
  pose proof (Hnew x). destruct (decide (x = p)); set_solver.
Qed.

(** ** Where the contract ends *)

(** The constructor dereferences the struct before it tests the pointer:
    when the first allocation fails, initialisation is undefined behaviour
    instead of returning NULL. *)
Theorem queue_init_null_deref {S} (h : env S) s s' :
  h s (OMalloc sizeof_queue_t) = Some (None, s') →
  run h s CIRCLE_internal_queue_init = (s', Stopped UB).
Proof. intros Hh. unfold CIRCLE_internal_queue_init. cbn. by rewrite Hh. Qed.

Lemma queue_init_null_deref_witness :
  run (bump 0) 1 CIRCLE_internal_queue_init = (1, Stopped UB).
Proof. apply (queue_init_null_deref (bump 0) 1 1). reflexivity. Defined.

(** C34 A failed growth of the offset array loses the array: push reports the
    failure, but the queue it leaves has no offset array and a raised
    capacity, so the next push of a string that fits the pool writes through
    NULL. *)
Theorem push_after_failed_realloc qp stk s s' :
  queue_rep qp stk → q_count qp = q_str_count qp → q_count qp + 4096 ≤ INT32_MAX →
  valid_item s → valid_item s' → q_head qp + strlen s' + 1 ≤ q_bytes qp →
  ∃ size k qp', CIRCLE_internal_queue_push qp (Some s) =
      Vis (ORealloc (addr <$> q_strings qp) size) k ∧
    k None = mret (-1, qp') ∧ q_strings qp' = None ∧
    CIRCLE_internal_queue_push qp' (Some s') = Stop UB.
Proof.
  intros (b & m & []) Hfull Hmax [Hs Hlen] [Hs' Hlen']. unfold CIRCLE_MAX_STRING_LEN in *.
  unfold strlen. rewrite (cstr_id s') by done. intros Hroom.
  unfold CIRCLE_internal_queue_push at 1. unfold strlen. rewrite (cstr_id s) by done.
  rewrite u64_small, u32_small by c_arith. rewrite (proj2 (Z.leb_gt _ _)) by lia.
  unfold CIRCLE_MAX_STRING_LEN. test_false. wp_i32. test_true.
  unfold CIRCLE_internal_queue_str_extend.
  destruct (grow_str_count_ok (grow_fuel (q_str_count qp) (q_count qp + 1)) (q_str_count qp)
              (q_count qp + 1)) as (r & -> & Hr); [lia|lia|apply grow_fuel_enough; lia|].
  eexists _, _, _. split; [cbn; reflexivity|]. split; [cbn; reflexivity|]. split; [done|].
  unfold CIRCLE_internal_queue_push, strlen. rewrite cstr_id by done. unfold PTRDIFF_MAX in *.
  rewrite u64_small, u32_small by c_arith. rewrite (proj2 (Z.leb_gt _ _)) by lia.
  unfold CIRCLE_MAX_STRING_LEN. test_false. cbn [q_count with_strings with_str_count].
  wp_i32. cbn [q_str_count with_strings with_str_count]. test_false. cbn.
  rewrite u64_small by c_arith. test_false. reflexivity.
Qed.

(** C35 The length of a string is cut to 32 bits before it is compared with
    CIRCLE_MAX_STRING_LEN: a string of 2^32 bytes and a few (1 to 4096, the
    terminator included) is not refused but counted as those few, and strcpy
    then writes it past the end of a pool that has room for the few. *)
Theorem push_length_truncated qp stk s r :
  queue_rep qp stk → q_count qp < q_str_count qp →
  nonul s → strlen s + 1 = UINT32_MOD + r → 1 ≤ r ≤ CIRCLE_MAX_STRING_LEN →
  q_head qp + r ≤ q_bytes qp < q_head qp + strlen s + 1 →
  CIRCLE_internal_queue_push qp (Some s) = Stop UB.
Proof.
  intros (b & m & []) Hslots Hs Hlen Hr [Hroom Hpast].
  unfold strlen in *. rewrite (cstr_id s) in * by done.
  unfold CIRCLE_MAX_STRING_LEN, PTRDIFF_MAX in *.
  unfold CIRCLE_internal_queue_push, strlen. rewrite (cstr_id s) by done.
  rewrite u64_small by c_arith.
  assert (u32 (Z.of_nat (length s) + 1) = r) as ->.
  { rewrite Hlen. unfold u32. rewrite <- Z.add_mod_idemp_l, Z.mod_same by done.
    apply u32_small. c_arith. }
  rewrite (proj2 (Z.leb_gt _ _)) by lia. unfold CIRCLE_MAX_STRING_LEN. test_false.
  wp_i32. test_false. cbn [mbind mret prog_mbind prog_mret prog_bind].
  change (0 <? 0) with false. cbv iota.
  rewrite u64_small by c_arith. test_false. cbn [mbind mret prog_mbind prog_mret prog_bind].
  change (0 <? 0) with false. cbv iota.
  rewrite qb_strings, qb_base. cbn [deref mbind prog_mbind prog_bind].
  unfold store. rewrite (store_list_ok m) by (simpl; lia). cbn [deref mbind prog_mbind prog_bind].
  by rewrite store_list_past by (rewrite length_app; simpl; lia).
Qed.

(** 2^32 letters "a" and the terminator, for the new queue of 16 MiB. *)
Lemma push_length_truncated_witness :
  CIRCLE_internal_queue_push queue0 (Some (replicate (Z.to_nat UINT32_MOD) Byte.x61)) = Stop UB.
Proof.
  pose proof (replicate_nonul (Z.to_nat UINT32_MOD) Byte.x61 ltac:(done)) as Hs.
  pose proof (strlen_replicate UINT32_MOD Byte.x61 ltac:(done) ltac:(done)) as Hlen.
  revert Hs Hlen. generalize (replicate (Z.to_nat UINT32_MOD) Byte.x61). intros s Hs Hlen.
  apply (push_length_truncated queue0 [] s 1 queue0_rep); [done|exact Hs| |done|];
    rewrite Hlen; done.
Defined.

(** A full queue: one (empty) string in an offset array of one entry. *)
Definition queue_full : CIRCLE_internal_queue_t :=
  mkQueue 1 (Some (Block 2 64 {[0 := NUL]})) 64 1 (Some (Block 3 1 {[0 := 0]})) 1 1.

Lemma queue_full_rep : queue_rep queue_full [[]].
Proof.
  eexists _, _. split; simpl; try done.
  - intros i Hi. assert (i = 0) as -> by lia. eexists. reflexivity.
  - exists 0. repeat split; try done. unfold nonul. set_solver.
Qed.

Lemma push_after_failed_realloc_witness :
  ∃ size k qp', CIRCLE_internal_queue_push queue_full (Some []) =
      Vis (ORealloc (addr <$> q_strings queue_full) size) k ∧
    k None = mret (-1, qp') ∧ q_strings qp' = None ∧
    CIRCLE_internal_queue_push qp' (Some (chars "x")) = Stop UB.
Proof.
  apply (push_after_failed_realloc queue_full [[]]).
  - apply queue_full_rep.
  - reflexivity.
  - vm_compute. intros H; discriminate H.
  - apply (bool_decide_unpack _). vm_compute. done.
  - apply (bool_decide_unpack _). vm_compute. done.
  - vm_compute. intros H; discriminate H.
Defined.

(** ** The growth loop in closed form *)

(** The least [c + 4096 * i] that is at least [n]. *)
Definition round_up (c n : Z) : Z := c + 4096 * Z.max 0 ((n - c + 4095) / 4096).

Lemma round_up_step c n : c < n → round_up (c + 4096) n = round_up c n.
Proof.
  intros H. unfold round_up. replace (n - c + 4095) with (n - (c + 4096) + 4095 + 1 * 4096) by lia.
  rewrite Z.div_add by lia. pose proof (Z.div_le_mono (-4096) (n - (c + 4096) + 4095) 4096 ltac:(lia) ltac:(lia)).
  change (-4096 / 4096) with (-1) in *.
  pose proof (Z_div_mod_eq_full (n - (c + 4096) + 4095) 4096).
  pose proof (Z.mod_pos_bound (n - (c + 4096) + 4095) 4096 ltac:(lia)). lia.
Qed.

Lemma round_up_done c n : n ≤ c → round_up c n = c.
Proof.
  intros H. unfold round_up. pose proof (Z.div_lt_upper_bound (n - c + 4095) 4096 1). lia.
Qed.

Lemma round_up_above c n : c < n → c + 4096 ≤ round_up c n.
Proof.
  intros H. unfold round_up. pose proof (Z.div_le_lower_bound (n - c + 4095) 4096 1). lia.
Qed.

(** C24 The loop that adds 4096 to the size of an offset array until it is
    large enough (in push, in work_receive and in extend_offsets) is the same
    as one rounding step: it always ends, and it is undefined exactly when the
    rounded size does not fit an int. *)
Theorem grow_str_count_rounds_up c n :
  0 ≤ c ≤ INT32_MAX → n ≤ INT32_MAX →
  grow_str_count (grow_fuel c n) c n = i32 (round_up c n).
Proof.
  intros Hc Hn. pose proof (grow_fuel_enough c n 4096 ltac:(lia)) as Hf.
  revert Hc Hf. generalize (grow_fuel c n) as fuel. intros fuel. revert c.
  induction fuel as [|fuel IH]; intros c Hc Hf; cbn [grow_str_count];
    (destruct (Z.ltb_spec c n); [|by rewrite round_up_done, i32_ok by c_arith]); [lia|].
  rewrite <-round_up_step by done. destruct (decide (c + 4096 ≤ INT32_MAX)).
  - rewrite (i32_ok (c + 4096)) by c_arith. apply IH; lia.
  - rewrite !i32_ub; [done| |lia]. rewrite round_up_step by done. pose proof (round_up_above c n). lia.
Qed.

Lemma grow_str_count_rounds_up_witness : grow_str_count (grow_fuel 8 5000) 8 5000 = i32 8200.
Proof. apply (grow_str_count_rounds_up 8 5000); c_arith. Defined.
