(* ===== verification/Stdio.v ===== *)
(** * Files

    The stdio calls of the checkpoint code as a protocol over the contents
    of the files, together with the heap.  [fgets_split n l] is what
    [fgets(buf, n + 1, f)] takes from the unread rest [l] of a file. *)
From S2P Require Import Prelude CMonad Heap.

Fixpoint fgets_split (n : nat) (l : list byte) : list byte * list byte :=
  match n, l with
  | S n, c :: l =>
      if decide (c = LF) then ([c], l)
      else let '(a, r) := fgets_split n l in (c :: a, r)
  | _, _ => ([], l)
  end.

Inductive file_mode : Type :=
  | Reading (rest : list byte)
  | Writing (name : string).

Record io : Type := Io {
  io_heap : gset Z;
  io_files : gmap string (list byte);
  io_open : gmap Z file_mode;
}.

Definition io_pre (g : io) (o : op) : Prop :=
  match o with
  | OFopen _ _ => True
  | OFgets h n => (∃ rest, io_open g !! h = Some (Reading rest)) ∧ 1 < n
  | OFputs h _ => ∃ name, io_open g !! h = Some (Writing name)
  | OFclose h => is_Some (io_open g !! h)
  | _ => heap_pre (io_heap g) o
  end.

Definition heap_step (oom : bool) (g : io) (o : op) (r : ans o) (g' : io) : Prop :=
  heap_post oom (io_heap g) o r (io_heap g') ∧
  io_files g' = io_files g ∧ io_open g' = io_open g.

(** Reading a file that exists and writing any file succeed; allocations
    may fail when [oom] is set. *)
Definition io_post (oom : bool) (g : io) (o : op) : ans o → io → Prop :=
  match o return ans o → io → Prop with
  | OFopen name true => λ r g', ∃ h, r = Some h ∧ io_open g !! h = None ∧
      g' = Io (io_heap g) (<[name := []]> (io_files g)) (<[h := Writing name]> (io_open g))
  | OFopen name false => λ r g',
      match io_files g !! name with
      | Some c => ∃ h, r = Some h ∧ io_open g !! h = None ∧
                  g' = Io (io_heap g) (io_files g) (<[h := Reading c]> (io_open g))
      | None => r = None ∧ g' = g
      end
  | OFgets h n => λ r g', ∃ rest, io_open g !! h = Some (Reading rest) ∧
      match fgets_split (Z.to_nat (n - 1)) rest with
      | ([], _) => r = None ∧ g' = g
      | (l, rest') => r = Some l ∧
          g' = Io (io_heap g) (io_files g) (<[h := Reading rest']> (io_open g))
      end
  | OFputs h s => λ r g', ∃ name c, io_open g !! h = Some (Writing name) ∧
      io_files g !! name = Some c ∧ r = Z.of_nat (length s) ∧
      g' = Io (io_heap g) (<[name := c ++ s]> (io_files g)) (io_open g)
  | OFclose h => λ r g', r = 0 ∧ g' = Io (io_heap g) (io_files g) (delete h (io_open g))
  | OMalloc n => heap_step oom g (OMalloc n)
  | ORealloc p n => heap_step oom g (ORealloc p n)
  | OFree p => heap_step oom g (OFree p)
  | OPagesize => heap_step oom g OPagesize
  | ORand s => heap_step oom g (ORand s)
  | _ => λ _ _, False
  end.

Definition stdio (oom : bool) : protocol := {|
  ghost := io;
  pre := io_pre;
  post := io_post oom;
|}.

(** Heap-only code, run among files, leaves the files alone. *)
Lemma wp_stdio oom {A} (t : prog A) Q (g : io) :
  wp (heap oom) t Q (λ _ _, False) (io_heap g) →
  wp (stdio oom) t
    (λ g' a, Q (io_heap g') a ∧ io_files g' = io_files g ∧ io_open g' = io_open g)
    (λ _ _, False) g.
Proof.
  intros H. eapply wp_mono; [| |eapply (wp_lift (heap oom) (stdio oom)
    (λ h g', io_heap g' = h ∧ io_files g' = io_files g ∧ io_open g' = io_open g)), H].
  - intros g' a (h & (<- & Hf & Ho) & HQ). auto.
  - intros g' e (h & _ & []).
  - intros h g1 o (<- & Hf & Ho) Hp. destruct o; simpl in Hp; try done; simpl.
    all: split; [done|]; intros r g2 (? & Hf2 & Ho2); eexists; split; [done|];
      rewrite Hf2, Ho2; auto.
  - auto.
Qed.

(** ** fgets *)

Lemma fgets_split_line n l rest :
  LF ∉ l → (length l < n)%nat → fgets_split n (l ++ LF :: rest) = (l ++ [LF], rest).
Proof.
  revert n. induction l as [|c l IH]; intros n Hl Hn; (destruct n as [|n]; [simpl in *; lia|]); simpl.
  - done.
  - rewrite elem_of_cons in Hl. rewrite decide_False by (intros ->; tauto).
    rewrite IH; [done|tauto|simpl in Hn; lia].
Qed.

Lemma fgets_split_long n l rest :
  LF ∉ l → length l = n → fgets_split n (l ++ rest) = (l, rest).
Proof.
  revert n. induction l as [|c l IH]; intros n Hl Hn; simpl in Hn; subst n; simpl; [done|].
  rewrite elem_of_cons in Hl. rewrite decide_False by (intros ->; tauto).
  rewrite IH; [done|tauto|done].
Qed.

Lemma fgets_split_all n l : LF ∉ l → (length l ≤ n)%nat → fgets_split n l = (l, []).
Proof.
  revert n. induction l as [|c l IH]; intros n Hl Hn; (destruct n as [|n]; [simpl in *; done || lia|]); simpl; [done|].
  rewrite elem_of_cons in Hl. rewrite decide_False by (intros ->; tauto).
  rewrite IH; [done|tauto|simpl in Hn; lia].
Qed.

Lemma fgets_split_app n l a r : fgets_split n l = (a, r) → l = a ++ r.
Proof.
  revert l a r. induction n as [|n IH]; intros [|c l] a r; simpl; try (by intros [= <- <-]).
  case_decide; [by intros [= <- <-]|]. destruct (fgets_split n l) as [a' r'] eqn:Hs.
  intros [= <- <-]. simpl. f_equal. eauto.
Qed.
