(* ===== verification/Checkpoint.v ===== *)
(** * Checkpoint files (CIRCLE_internal_queue_read and _write of
    src/libcircle/queue.c)

    Writing pops every item and prints it on a line of its own; reading
    pushes what fgets returns, less its last character.  [restored c] is the
    list of items that reading a file with contents [c] pushes, in order. *)
From S2P Require Import Prelude CMonad Mem Heap Stdio Queue.

Definition checkpoint_name (rank : Z) : string := "circle" +:+ pretty rank +:+ ".txt".

(** The loop over the lines of the file.  [fuel] bounds the calls of fgets:
    one more than the file has bytes is enough ([read_loop_wp]). *)
Fixpoint queue_read_loop (fuel : nat) (qp : CIRCLE_internal_queue_t) (h : Z)
    : prog CIRCLE_internal_queue_t :=
  match fuel with
  | O => Stop NoFuel
  | S fuel =>
      line ← call (OFgets h CIRCLE_MAX_STRING_LEN);
      match line with
      | None => mret qp
      | Some str =>
          let real_len := strlen str in
          let len := u32 real_len in
          if 0 <? len then
            '(rc, qp) ← CIRCLE_internal_queue_push qp
                          (Some (take (Z.to_nat (len - 1)) (cstr str)));
            queue_read_loop fuel qp h
          else queue_read_loop fuel qp h
      end
  end.

Definition CIRCLE_internal_queue_read (fuel : nat) (qp : option CIRCLE_internal_queue_t) (rank : Z)
    : prog (Z * option CIRCLE_internal_queue_t) :=
  match qp with
  | None => mret (-1, None)
  | Some q =>
      checkpoint_file ← call (OFopen (checkpoint_name rank) false);
      match checkpoint_file with
      | None => mret (-1, qp)
      | Some h =>
          q ← queue_read_loop fuel q h;
          fclose_rc ← call (OFclose h);
          mret (to_i8 fclose_rc, Some q)
      end
  end.

(** The loop of the writer, at most [q_count] rounds. *)
Fixpoint queue_write_loop (fuel : nat) (qp : CIRCLE_internal_queue_t) (h : Z)
    : prog (Z * CIRCLE_internal_queue_t) :=
  if 0 <? q_count qp then
    match fuel with
    | O => Stop NoFuel
    | S fuel =>
        '(rc, qp', str) ← CIRCLE_internal_queue_pop (Some qp) (Some CIRCLE_MAX_STRING_LEN);
        let qp := default qp qp' in
        if rc <? 0 then mret (-1, qp)
        else
          n ← call (OFputs h (default [] str ++ [LF]));
          if n <? 0 then mret (-1, qp) else queue_write_loop fuel qp h
    end
  else mret (0, qp).

Definition CIRCLE_internal_queue_write (qp : CIRCLE_internal_queue_t) (rank : Z)
    : prog (Z * CIRCLE_internal_queue_t) :=
  if q_count qp =? 0 then mret (0, qp)
  else
    checkpoint_file ← call (OFopen (checkpoint_name rank) true);
    match checkpoint_file with
    | None => mret (-1, qp)
    | Some h =>
        '(rc, qp) ← queue_write_loop (Z.to_nat (q_count qp)) qp h;
        if rc <? 0 then mret (-1, qp)
        else
          fclose_rc ← call (OFclose h);
          mret (to_i8 fclose_rc, qp)
    end.

#[global] Arguments CIRCLE_internal_queue_read : simpl never.
#[global] Arguments CIRCLE_internal_queue_write : simpl never.

(** ** Abstract reading and writing *)

Definition checkpoint_text (stk : list (list byte)) : list byte :=
  concat (map (λ s, s ++ [LF]) stk).

Fixpoint restored (fuel : nat) (c : list byte) : list (list byte) :=
  match fuel with
  | O => []
  | S fuel =>
      let '(a, r) := fgets_split (Z.to_nat (CIRCLE_MAX_STRING_LEN - 1)) c in
      match a with
      | [] => []
      | _ => match cstr a with
             | [] => restored fuel r
             | s => take (length s - 1) s :: restored fuel r
             end
      end
  end.

(** An item that survives the round trip: no newline, and short enough for
    fgets to return it together with its newline. *)
Definition checkpointable (s : list byte) : Prop :=
  nonul s ∧ LF ∉ s ∧ Z.of_nat (length s) + 2 ≤ CIRCLE_MAX_STRING_LEN.
#[global] Instance checkpointable_dec s : Decision (checkpointable s).
Proof. unfold checkpointable. apply _. Defined.

Lemma checkpointable_valid s : checkpointable s → valid_item s.
Proof. intros (? & _ & ?). split; [done|lia]. Qed.

Lemma fgets_split_length n l a r : fgets_split n l = (a, r) → (length a ≤ n)%nat.
Proof.
  revert l a r. induction n as [|n IH]; intros [|c l] a r; simpl; try (intros [= <- <-]; simpl; lia).
  case_decide; [intros [= <- <-]; simpl; lia|]. destruct (fgets_split n l) as [a' r'] eqn:Hs.
  intros [= <- <-]. simpl. specialize (IH _ _ _ Hs). lia.
Qed.

Lemma cstr_length l : (length (cstr l) ≤ length l)%nat.
Proof. induction l; simpl; [done|]. case_decide; simpl; lia. Qed.

Lemma nonul_take n s : nonul s → nonul (take n s).
Proof. unfold nonul. intros Hs Hin. apply Hs. rewrite <-(take_drop n s), elem_of_app. by left. Qed.

(** What is pushed for a last line without a newline: it loses a character. *)
Definition last_piece (last : list byte) : list (list byte) :=
  match last with [] => [] | _ => [take (length last - 1) last] end.

(** Reading is the inverse of writing lines; a piece without a newline loses
    its last character. *)
Lemma restored_lines fuel stk last :
  Forall checkpointable stk → checkpointable last → (length (checkpoint_text stk ++ last) < fuel)%nat →
  restored fuel (checkpoint_text stk ++ last) = stk ++ last_piece last.
Proof.
  intros Hs (Hn & Hlf & Hlen). unfold CIRCLE_MAX_STRING_LEN in Hlen. revert fuel.
  induction Hs as [|s stk (Hns & Hlfs & Hlens) _ IH]; intros fuel Hf; (destruct fuel as [|fuel]; [simpl in Hf; lia|]).
  - cbn [checkpoint_text map concat app] in *. cbn [restored].
    assert (fgets_split (Z.to_nat (CIRCLE_MAX_STRING_LEN - 1)) last = (last, [])) as ->
      by (apply fgets_split_all; [done|unfold CIRCLE_MAX_STRING_LEN; lia]).
    rewrite cstr_id by done. destruct last as [|ch last]; [done|]. cbn [last_piece]. f_equal.
    by destruct fuel; [simpl in Hf; lia|].
  - unfold CIRCLE_MAX_STRING_LEN in Hlens. unfold checkpoint_text in *. cbn [map concat] in *.
    rewrite <-!app_assoc in *. cbn [app] in *. rewrite length_app in Hf. cbn [length] in Hf. cbn [restored].
    rewrite fgets_split_line; [|done|unfold CIRCLE_MAX_STRING_LEN; lia]. rewrite cstr_id.
    + destruct (s ++ [LF]) eqn:He; [by destruct s|]. rewrite <-He.
      rewrite length_app. cbn [length]. rewrite Nat.add_sub, take_app_length.
      by rewrite IH by lia.
    + unfold nonul. rewrite elem_of_app. set_solver.
Qed.

Lemma checkpointable_nil : checkpointable [].
Proof. decided. Qed.

Lemma restored_text fuel stk :
  Forall checkpointable stk → (length (checkpoint_text stk) < fuel)%nat →
  restored fuel (checkpoint_text stk) = stk.
Proof.
  intros Hs Hf. pose proof (restored_lines fuel stk [] Hs checkpointable_nil) as H.
  rewrite !app_nil_r in H. by apply H.
Qed.

(** ** The loops *)

Lemma write_loop_wp oom fuel qp stk h name c (g : io) :
  queue_rep qp stk → Forall valid_item stk → fuel = length stk →
  io_open g !! h = Some (Writing name) → io_files g !! name = Some c →
  wp (stdio oom) (queue_write_loop fuel qp h)
    (λ g' '(rc, qp'), rc = 0 ∧ queue_rep qp' [] ∧ queue_owned qp' = queue_owned qp ∧
       g' = Io (io_heap g) (<[name := c ++ checkpoint_text stk]> (io_files g)) (io_open g))
    (λ _ _, False) g.
Proof.
  revert fuel qp c g. induction stk as [|s stk IH]; intros fuel qp c g Hr Hv Hf Ho Hc; subst fuel.
  - simpl. rewrite (queue_rep_count _ _ Hr). simpl. split; [done|].
    split; [done|]. split; [done|]. rewrite app_nil_r, insert_id by done. by destruct g.
  - inversion Hv as [|? ? [_ Hlen] Hv']; subst. unfold CIRCLE_MAX_STRING_LEN in Hlen.
    cbn [length queue_write_loop]. rewrite (queue_rep_count _ _ Hr). cbn [length Z.of_nat Z.ltb Z.compare].
    destruct (pop_top qp s stk CIRCLE_MAX_STRING_LEN) as (qp1 & Hpop & Hr1 & Ho1);
      [done|unfold CIRCLE_MAX_STRING_LEN; lia|].
    rewrite Hpop. cbn. split; [by exists name|].
    intros r g' (name' & c' & Ho' & Hc' & -> & ->).
    rewrite Ho in Ho'. injection Ho' as <-. rewrite Hc in Hc'. injection Hc' as <-.
    rewrite (proj2 (Z.ltb_ge _ 0)) by lia.
    eapply wp_post, IH; [|done|done|done|simpl; done|simpl; apply lookup_insert_eq].
    simpl. intros g2 [rc qp2] (-> & ? & Hown & ->). split; [done|]. split; [done|].
    split; [by etrans|]. f_equal. rewrite insert_insert_eq. f_equal.
    unfold checkpoint_text. simpl. by rewrite <-!app_assoc.
Qed.

Lemma restored_item_valid n c a r :
  fgets_split (Z.to_nat (CIRCLE_MAX_STRING_LEN - 1)) c = (a, r) →
  valid_item (take n (cstr a)).
Proof.
  intros Hs. apply fgets_split_length in Hs. pose proof (cstr_length a).
  unfold CIRCLE_MAX_STRING_LEN in Hs. split; [apply nonul_take, cstr_nonul|].
  rewrite length_take. unfold CIRCLE_MAX_STRING_LEN. lia.
Qed.

Lemma read_loop_wp fuel qp stk h c (g : io) :
  queue_rep qp stk → owns (io_heap g) qp → (length c < fuel)%nat →
  Z.of_nat (length stk + length (restored fuel c)) + 4096 ≤ INT32_MAX →
  io_open g !! h = Some (Reading c) →
  wp (stdio false) (queue_read_loop fuel qp h)
    (λ g' qp', queue_rep qp' (rev (restored fuel c) ++ stk) ∧ owns (io_heap g') qp' ∧
       io_files g' = io_files g ∧
       ∃ rest, io_open g' = <[h := Reading rest]> (io_open g))
    (λ _ _, False) g.
Proof.
  revert qp stk c g. induction fuel as [|fuel IH]; intros qp stk c g Hr Ho Hf Hmax Hh; [lia|].
  cbn [queue_read_loop]. cbn. split; [split; [by eexists|done]|]. intros line g1 (rest & Hh' & Hg).
  rewrite Hh in Hh'. injection Hh' as <-.
  change (Pos.to_nat 4095) with (Z.to_nat (CIRCLE_MAX_STRING_LEN - 1)) in *.
  destruct (fgets_split (Z.to_nat (CIRCLE_MAX_STRING_LEN - 1)) c) as [a r] eqn:Hs.
  cbn [restored] in *. rewrite Hs in *. pose proof (fgets_split_app _ _ _ _ Hs) as Hcat.
  destruct a as [|ch a]; cbn beta iota zeta in *.
  - destruct Hg as [-> ->]. cbn. split; [done|]. split; [done|]. split; [done|].
    eexists. by rewrite insert_id.
  - destruct Hg as [-> ->].
    assert (length r < fuel)%nat by (subst c; rewrite length_app in Hf; simpl in Hf; lia).
    assert (strlen (ch :: a) < UINT32_MOD) as Hlen.
    { pose proof (fgets_split_length _ _ _ _ Hs). pose proof (cstr_length (ch :: a)).
      unfold strlen, CIRCLE_MAX_STRING_LEN in *. c_arith. }
    rewrite u32_small by (pose proof (strlen_nonneg (ch :: a)); lia).
    unfold strlen in *. destruct (cstr (ch :: a)) as [|ch' s] eqn:Hcs; rewrite ?Hcs in *; cbn iota in *.
    + cbn [length Z.of_nat Z.ltb Z.compare]. eapply wp_post, (IH qp stk r); [|done..|].
      * intros g' qp' (? & ? & ? & rest' & Ho'). split; [done|]. split; [done|]. split; [done|].
        exists rest'. rewrite Ho'. simpl. by rewrite insert_insert_eq.
      * simpl. apply lookup_insert_eq.
    + rewrite (proj2 (Z.ltb_lt 0 _)) by (simpl; lia). apply wp_seq.
      set (s0 := take _ _). eapply wp_post, (wp_stdio false), (push_wp false qp stk s0).
      * intros g2 [rc qp2] ([(_ & Hr2 & Ho2)|[? _]] & Hf2 & Hop2); [|done].
        eapply wp_post, (IH qp2 (s0 :: stk) r); [|done..| |].
        -- intros g' qp' (Hr' & ? & Hf' & rest' & Ho'). split; [|split; [done|split; [by rewrite Hf', Hf2|]]].
           ++ cbn [rev]. rewrite <-app_assoc. cbn [app].
              replace (take (length s - 0) (ch' :: s)) with s0; [done|].
              subst s0. f_equal. simpl. lia.
           ++ exists rest'. rewrite Ho', Hop2. simpl. by rewrite insert_insert_eq.
        -- simpl in Hmax |- *. lia.
        -- rewrite Hop2. simpl. apply lookup_insert_eq.
      * done.
      * done.
      * subst s0. rewrite <-Hcs. by eapply restored_item_valid.
      * rewrite (queue_rep_count _ _ Hr). simpl in Hmax. lia.
Qed.

(** ** The functions *)

Lemma write_wp oom qp stk rank (g : io) :
  queue_rep qp stk → Forall valid_item stk → stk ≠ [] →
  wp (stdio oom) (CIRCLE_internal_queue_write qp rank)
    (λ g' '(rc, qp'), rc = 0 ∧ queue_rep qp' [] ∧ queue_owned qp' = queue_owned qp ∧
       io_heap g' = io_heap g ∧ io_open g' = io_open g ∧
       io_files g' = <[checkpoint_name rank := checkpoint_text stk]> (io_files g))
    (λ _ _, False) g.
Proof.
  intros Hr Hv Hne. unfold CIRCLE_internal_queue_write. rewrite (queue_rep_count _ _ Hr).
  rewrite (proj2 (Z.eqb_neq _ 0)) by (destruct stk; simpl; done || lia).
  cbn. split; [done|]. intros r g' (h & -> & Hfresh & ->). apply wp_seq.
  eapply wp_post, (write_loop_wp oom _ qp stk h (checkpoint_name rank) []); simpl; try done; try lia.
  2: by rewrite lookup_insert_eq. 2: by rewrite lookup_insert_eq.
  intros g2 [rc qp2] (-> & Hr2 & Ho2 & ->). cbn. rewrite lookup_insert_eq.
  split; [by eexists|]. intros rc' g3 (-> & ->). cbn. split; [done|]. split; [done|].
  split; [done|]. split; [done|]. rewrite delete_insert_eq, insert_insert_eq.
  by rewrite delete_id.
Qed.

Lemma read_wp fuel qp stk rank (g : io) c :
  queue_rep qp stk → owns (io_heap g) qp →
  io_files g !! checkpoint_name rank = Some c → (length c < fuel)%nat →
  Z.of_nat (length stk + length (restored fuel c)) + 4096 ≤ INT32_MAX →
  wp (stdio false) (CIRCLE_internal_queue_read fuel (Some qp) rank)
    (λ g' '(rc, r), rc = 0 ∧ io_files g' = io_files g ∧ io_open g' = io_open g ∧
       ∃ qp', r = Some qp' ∧ queue_rep qp' (rev (restored fuel c) ++ stk) ∧
              owns (io_heap g') qp')
    (λ _ _, False) g.
Proof.
  intros Hr Ho Hc Hf Hmax. unfold CIRCLE_internal_queue_read. cbn. rewrite Hc.
  split; [done|]. intros r g' (h & -> & Hfresh & ->). apply wp_seq.
  eapply wp_post, (read_loop_wp fuel qp stk h c); simpl; try done.
  2: by rewrite lookup_insert_eq.
  intros g2 qp2 (Hr2 & Ho2 & Hf2 & rest & Hop2). cbn. rewrite Hop2.
  split; [by rewrite lookup_insert_eq; eexists|]. intros rc' g3 (-> & ->). cbn.
  split; [done|]. split; [done|]. split; [|eauto].
  rewrite insert_insert_eq, delete_insert_eq. by rewrite delete_id.
Qed.

Lemma read_missing fuel qp rank (g : io) :
  io_files g !! checkpoint_name rank = None →
  wp (stdio false) (CIRCLE_internal_queue_read fuel (Some qp) rank)
    (λ g' '(rc, r), rc = -1 ∧ r = Some qp ∧ g' = g) (λ _ _, False) g.
Proof.
  intros Hc. unfold CIRCLE_internal_queue_read. cbn. rewrite Hc. split; [done|]. by intros r g' [-> ->].
Qed.

(** ** What a checkpoint promises *)

(** C29 Writing a checkpoint empties the queue into the rank's file: one line
    per item, the item that was pushed last first. *)
Theorem checkpoint_write oom qp stk rank (g : io) :
  queue_rep qp stk → Forall valid_item stk → stk ≠ [] →
  wp (stdio oom) (CIRCLE_internal_queue_write qp rank)
    (λ g' '(rc, qp'), rc = 0 ∧ queue_rep qp' [] ∧ queue_owned qp' = queue_owned qp ∧
       io_heap g' = io_heap g ∧ io_open g' = io_open g ∧
       io_files g' = <[checkpoint_name rank := checkpoint_text stk]> (io_files g))
    (λ _ _, False) g.
Proof. apply write_wp. Qed.

(** C30 Reading a checkpoint file pushes its lines, in the order of the file,
    on top of what the queue holds, and leaves files and descriptors as they
    were.  A line is text without NUL that fits fgets' buffer together with its
    newline; a last line that lacks the newline loses its last character.  If
    the file is missing, the function returns -1 and changes nothing. *)
Theorem checkpoint_read fuel qp stk rank (g : io) lines last :
  queue_rep qp stk → owns (io_heap g) qp →
  Forall checkpointable lines → checkpointable last →
  (∀ c, io_files g !! checkpoint_name rank = Some c →
     c = concat (map (λ l, l ++ [LF]) lines) ++ last ∧ (length c < fuel)%nat) →
  Z.of_nat (length stk + length lines) + 4097 ≤ INT32_MAX →
  wp (stdio false) (CIRCLE_internal_queue_read fuel (Some qp) rank)
    (λ g' '(rc, r), io_files g' = io_files g ∧ io_open g' = io_open g ∧
       ∃ qp', r = Some qp' ∧ owns (io_heap g') qp' ∧
         if decide (io_files g !! checkpoint_name rank = None) then rc = -1 ∧ qp' = qp ∧ g' = g
         else rc = 0 ∧ queue_rep qp' (rev (lines ++ last_piece last) ++ stk))
    (λ _ _, False) g.
Proof.
  intros Hr Ho Hl Hlast Hc Hmax. destruct (io_files g !! checkpoint_name rank) as [c|] eqn:Hf.
  - destruct (Hc c eq_refl) as [-> Hfuel].
    pose proof (restored_lines fuel lines last Hl Hlast Hfuel) as Hres. unfold checkpoint_text in Hres.
    eapply wp_post, (read_wp fuel qp stk rank g); [|done|done|exact Hf|done|].
    + intros g' [rc r] (-> & H1 & H2 & qp' & -> & Hr' & Ho'). rewrite Hres in Hr'.
      split; [done|]. split; [done|]. exists qp'. rewrite decide_False by done. auto.
    + rewrite Hres, length_app.
      assert (length (last_piece last) ≤ 1)%nat by (destruct last; simpl; lia). lia.
  - eapply wp_post, read_missing, Hf. intros g' [rc r] (-> & -> & ->).
    split; [done|]. split; [done|]. exists qp. by rewrite decide_True by done.
Qed.

(** Write a checkpoint, then read it into the emptied queue, as a restart
    does. *)
Definition checkpoint_restart (fuel : nat) (qp : CIRCLE_internal_queue_t) (rank : Z)
    : prog (Z * Z * option CIRCLE_internal_queue_t) :=
  '(rc1, qp) ← CIRCLE_internal_queue_write qp rank;
  '(rc2, qp) ← CIRCLE_internal_queue_read fuel (Some qp) rank;
  mret (rc1, rc2, qp).

Lemma restart_wp fuel qp stk rank (g : io) :
  queue_rep qp stk → owns (io_heap g) qp → stk ≠ [] → Forall valid_item stk →
  (length (checkpoint_text stk) < fuel)%nat →
  Z.of_nat (length (restored fuel (checkpoint_text stk))) + 4096 ≤ INT32_MAX →
  wp (stdio false) (checkpoint_restart fuel qp rank)
    (λ g' '(rc1, rc2, r), rc1 = 0 ∧ rc2 = 0 ∧
       ∃ qp', r = Some qp' ∧ queue_rep qp' (rev (restored fuel (checkpoint_text stk))) ∧
              owns (io_heap g') qp')
    (λ _ _, False) g.
Proof.
  intros Hr Ho Hne Hs Hf Hmax. unfold checkpoint_restart. apply wp_seq.
  eapply wp_post, write_wp; [|done..].
  intros g1 [rc1 qp1] (-> & Hr1 & Ho1 & Hh1 & Hop1 & Hf1). cbn beta iota. apply wp_seq.
  eapply wp_post, (read_wp fuel qp1 [] rank g1 (checkpoint_text stk)); [|done|..].
  - intros g2 [rc2 r] (-> & _ & _ & qp2 & -> & Hr2 & Ho2). cbn.
    split; [done|]. split; [done|]. exists qp2. split; [done|].
    by rewrite app_nil_r in Hr2.
  - unfold owns. rewrite Ho1, Hh1. exact Ho.
  - rewrite Hf1. apply lookup_insert_eq.
  - done.
  - done.
Qed.

(** C18 Round trip: when no item contains a newline and every item is at most
    CIRCLE_MAX_STRING_LEN - 2 bytes long, restarting from a checkpoint brings
    back exactly the checkpointed items, in reverse order (the item at the
    bottom of the old queue is on top of the new one). *)
Theorem checkpoint_roundtrip fuel qp stk rank (g : io) :
  queue_rep qp stk → owns (io_heap g) qp → stk ≠ [] → Forall checkpointable stk →
  (length (checkpoint_text stk) < fuel)%nat → Z.of_nat (length stk) + 4096 ≤ INT32_MAX →
  wp (stdio false) (checkpoint_restart fuel qp rank)
    (λ g' '(rc1, rc2, r), rc1 = 0 ∧ rc2 = 0 ∧
       ∃ qp', r = Some qp' ∧ queue_rep qp' (rev stk) ∧ owns (io_heap g') qp')
    (λ _ _, False) g.
Proof.
  intros Hr Ho Hne Hs Hf Hmax. pose proof (restored_text fuel stk Hs Hf) as Ht.
  pose proof (restart_wp fuel qp stk rank g Hr Ho Hne) as Hw. rewrite Ht in Hw.
  apply Hw; [by eapply Forall_impl, checkpointable_valid|done|done].
Qed.

Lemma restored_truncated fuel s :
  nonul s → LF ∉ s → Z.of_nat (length s) + 1 = CIRCLE_MAX_STRING_LEN → (2 < fuel)%nat →
  restored fuel (checkpoint_text [s]) = [take (length s - 1) s; []].
Proof.
  intros Hn Hlf Hlen Hf. unfold CIRCLE_MAX_STRING_LEN in Hlen.
  destruct fuel as [|[|fuel]]; [lia|lia|].
  unfold checkpoint_text. cbn [map concat]. rewrite app_nil_r. cbn [restored].
  rewrite fgets_split_long by (done || (unfold CIRCLE_MAX_STRING_LEN; lia)).
  rewrite (cstr_id s) by done. destruct s as [|ch s]; [simpl in Hlen; lia|].
  cbn beta iota. f_equal. destruct fuel; reflexivity.
Qed.

(** C36 An item of the maximal length the queue accepts does not survive a
    restart: fgets returns it without its newline, the reader cuts off its
    last character, and the newline that is left becomes an empty item. *)
Theorem checkpoint_truncates fuel qp s rank (g : io) :
  queue_rep qp [s] → owns (io_heap g) qp →
  nonul s → LF ∉ s → Z.of_nat (length s) + 1 = CIRCLE_MAX_STRING_LEN → (4096 < fuel)%nat →
  wp (stdio false) (checkpoint_restart fuel qp rank)
    (λ g' '(rc1, rc2, r), rc1 = 0 ∧ rc2 = 0 ∧
       ∃ qp', r = Some qp' ∧ queue_rep qp' [[]; take (length s - 1) s] ∧ owns (io_heap g') qp')
    (λ _ _, False) g.
Proof.
  intros Hr Ho Hn Hlf Hlen Hf.
  pose proof (restart_wp fuel qp [s] rank g Hr Ho) as Hw.
  rewrite restored_truncated in Hw by (done || lia). apply Hw; [done| | |done].
  - constructor; [|done]. split; [done|lia].
  - unfold checkpoint_text. simpl. rewrite app_nil_r, length_app. simpl.
    unfold CIRCLE_MAX_STRING_LEN in Hlen. lia.
Qed.

(** C37 An item with an embedded newline comes back as two items. *)
Theorem checkpoint_splits_newline fuel qp a b rank (g : io) :
  queue_rep qp [a ++ LF :: b] → owns (io_heap g) qp →
  nonul a → nonul b → LF ∉ a → LF ∉ b →
  Z.of_nat (length a + length b) + 3 ≤ CIRCLE_MAX_STRING_LEN → (4096 < fuel)%nat →
  wp (stdio false) (checkpoint_restart fuel qp rank)
    (λ g' '(rc1, rc2, r), rc1 = 0 ∧ rc2 = 0 ∧
       ∃ qp', r = Some qp' ∧ queue_rep qp' [b; a] ∧ owns (io_heap g') qp')
    (λ _ _, False) g.
Proof.
  intros Hr Ho Ha Hb Hla Hlb Hn Hf. unfold CIRCLE_MAX_STRING_LEN in Hn.
  pose proof (restart_wp fuel qp [a ++ LF :: b] rank g Hr Ho) as Hw.
  replace (checkpoint_text [a ++ LF :: b]) with (checkpoint_text [a; b]) in Hw
    by (unfold checkpoint_text; simpl; by rewrite !app_nil_r, <-!app_assoc).
  assert (length (checkpoint_text [a; b]) < fuel)%nat as Hlen.
  { unfold checkpoint_text. simpl. rewrite app_nil_r, !length_app. simpl. lia. }
  rewrite restored_text in Hw; [|repeat constructor; unfold CIRCLE_MAX_STRING_LEN; done || lia|done].
  apply Hw; [done| |done|done].
  constructor; [|done]. split.
  - unfold nonul in *. rewrite elem_of_app, elem_of_cons. intros [?|[?|?]]; done.
  - rewrite length_app. simpl. unfold CIRCLE_MAX_STRING_LEN. lia.
Qed.

(** C38 Checkpointing an empty queue does not touch the file system: a stale
    checkpoint file of the rank stays and a restart would reload it. *)
Theorem checkpoint_empty_keeps_stale_file qp rank :
  queue_rep qp [] → CIRCLE_internal_queue_write qp rank = mret (0, qp).
Proof.
  intros Hr. unfold CIRCLE_internal_queue_write. by rewrite (queue_rep_count _ _ Hr).
Qed.

(** ** Witnesses *)

(** A queue that holds two items, "ab" on top of "c". *)
Definition queue_two : CIRCLE_internal_queue_t :=
  mkQueue 1 (Some (Block 2 64 (list_to_map [(0, Byte.x63); (1, NUL); (2, Byte.x61); (3, Byte.x62); (4, NUL)])))
    64 5 (Some (Block 3 8 {[0 := 0; 1 := 2]})) 8 2.

Definition two_items : list (list byte) := [chars "ab"; chars "c"].

Lemma queue_two_rep : queue_rep queue_two two_items.
Proof.
  eexists _, _. split; simpl; try done.
  - intros i Hi.
    assert (i = 0 ∨ i = 1 ∨ i = 2 ∨ i = 3 ∨ i = 4) as [->|[->|[->|[->| ->]]]] by lia; by eexists.
  - exists 2. split; [done|]. split; [|split; [done|]].
    + split; [apply (bool_decide_unpack _); vm_compute; done|]. done.
    + exists 0. split; [done|]. split; [|done].
      split; [apply (bool_decide_unpack _); vm_compute; done|]. done.
Qed.

Lemma queue_two_owns : owns {[1; 2; 3]} queue_two.
Proof. eapply owns_some; [reflexivity..|]. simpl. set_solver. Qed.

Definition io0 : io := Io {[1; 2; 3]} ∅ ∅.

Lemma checkpoint_write_witness :
  wp (stdio true) (CIRCLE_internal_queue_write queue_two 7)
    (λ g' '(rc, qp'), rc = 0 ∧ queue_rep qp' [] ∧ queue_owned qp' = queue_owned queue_two ∧
       io_heap g' = io_heap io0 ∧ io_open g' = io_open io0 ∧
       io_files g' = <["circle7.txt" := chars "ab" ++ [LF] ++ chars "c" ++ [LF]]> (io_files io0))
    (λ _ _, False) io0.
Proof.
  apply (checkpoint_write true queue_two two_items 7 io0);
    [apply queue_two_rep|decided|discriminate].
Defined.

(** A file whose last line was cut short. *)
Definition io1 : io :=
  Io {[1; 2; 3]} {["circle7.txt" := chars "ab" ++ [LF] ++ chars "c" ++ [LF] ++ chars "xyz"]} ∅.

(** The file of rank 7, and rank 8 without one. *)
Lemma checkpoint_read_witness :
  wp (stdio false) (CIRCLE_internal_queue_read 20 (Some queue_two) 7)
    (λ g' '(rc, r), io_files g' = io_files io1 ∧ io_open g' = io_open io1 ∧
       ∃ qp', r = Some qp' ∧ owns (io_heap g') qp' ∧
         rc = 0 ∧ queue_rep qp' (rev (two_items ++ [chars "xy"]) ++ two_items))
    (λ _ _, False) io1 ∧
  wp (stdio false) (CIRCLE_internal_queue_read 20 (Some queue_two) 8)
    (λ g' '(rc, r), io_files g' = io_files io1 ∧ io_open g' = io_open io1 ∧
       ∃ qp', r = Some qp' ∧ owns (io_heap g') qp' ∧ rc = -1 ∧ qp' = queue_two ∧ g' = io1)
    (λ _ _, False) io1.
Proof.
  split.
  - apply (checkpoint_read 20 queue_two two_items 7 io1 two_items (chars "xyz")); [| |decided..| |decided].
    + apply queue_two_rep.
    + apply queue_two_owns.
    + intros c Hc. vm_compute in Hc. injection Hc as <-. decided.
  - apply (checkpoint_read 20 queue_two two_items 8 io1 two_items (chars "xyz")); [| |decided..| |decided].
    + apply queue_two_rep.
    + apply queue_two_owns.
    + intros c Hc. vm_compute in Hc. discriminate Hc.
Defined.

Lemma checkpoint_roundtrip_witness :
  wp (stdio false) (checkpoint_restart 10 queue_two 7)
    (λ g' '(rc1, rc2, r), rc1 = 0 ∧ rc2 = 0 ∧
       ∃ qp', r = Some qp' ∧ queue_rep qp' (rev two_items) ∧ owns (io_heap g') qp')
    (λ _ _, False) io0.
Proof.
  apply (checkpoint_roundtrip 10 queue_two two_items 7 io0).
  - apply queue_two_rep.
  - apply queue_two_owns.
  - discriminate.
  - decided.
  - decided.
  - decided.
Defined.

Definition longest_item : list byte := replicate 4095 Byte.x61.

(** A queue holding one item [s]. *)
Definition queue_one (s : list byte) : CIRCLE_internal_queue_t :=
  mkQueue 1 (Some (Block 2 8192 (blit ∅ 0 (s ++ [NUL])))) 8192 (Z.of_nat (length s) + 1)
    (Some (Block 3 1 {[0 := 0]})) 1 1.

Lemma queue_one_rep s : valid_item s → queue_rep (queue_one s) [s].
Proof.
  intros [Hs Hlen]. unfold CIRCLE_MAX_STRING_LEN in Hlen.
  assert (read_cells (blit ∅ 0 (s ++ [NUL])) 0 (S (length s)) = Some (s ++ [NUL])) as Hr.
  { pose proof (read_cells_blit_same ∅ 0 (s ++ [NUL])) as Hr.
    by rewrite length_app, Nat.add_1_r in Hr. }
  eexists _, _. split; simpl; try done; try lia.
  - intros i Hi. change (is_Some (blit ∅ 0 (s ++ [NUL]) !! i)).
    rewrite blit_lookup, length_app. simpl. rewrite decide_True by lia.
    apply lookup_lt_is_Some. rewrite length_app. simpl. lia.
  - exists 0. split; [done|]. split; [|split; [lia|done]].
    split; [done|]. split; [done|]. simpl. split; [lia|done].
Qed.

Lemma checkpoint_truncates_witness :
  wp (stdio false) (checkpoint_restart (Z.to_nat 5000) (queue_one longest_item) 7)
    (λ g' '(rc1, rc2, r), rc1 = 0 ∧ rc2 = 0 ∧
       ∃ qp', r = Some qp' ∧ queue_rep qp' [[]; take (length longest_item - 1) longest_item] ∧
              owns (io_heap g') qp')
    (λ _ _, False) io0.
Proof.
  apply (checkpoint_truncates (Z.to_nat 5000) (queue_one longest_item) longest_item 7 io0).
  - apply queue_one_rep. decided.
  - eapply owns_some; [reflexivity..|]. simpl. set_solver.
  - decided.
  - decided.
  - decided.
  - lia.
Defined.

Lemma checkpoint_splits_newline_witness :
  wp (stdio false) (checkpoint_restart (Z.to_nat 5000) (queue_one (chars "a" ++ LF :: chars "b")) 7)
    (λ g' '(rc1, rc2, r), rc1 = 0 ∧ rc2 = 0 ∧
       ∃ qp', r = Some qp' ∧ queue_rep qp' [chars "b"; chars "a"] ∧ owns (io_heap g') qp')
    (λ _ _, False) io0.
Proof.
  apply (checkpoint_splits_newline (Z.to_nat 5000) _ (chars "a") (chars "b") 7 io0); try decided.
  - apply queue_one_rep. decided.
  - eapply owns_some; [reflexivity..|]. simpl. set_solver.
Defined.

Lemma checkpoint_empty_keeps_stale_file_witness :
  CIRCLE_internal_queue_write
    (mkQueue 1 (Some (Block 2 64 ∅)) 64 0 (Some (Block 3 1 ∅)) 1 0) 0 =
  mret (0, mkQueue 1 (Some (Block 2 64 ∅)) 64 0 (Some (Block 3 1 ∅)) 1 0).
Proof.
  apply checkpoint_empty_keeps_stale_file. eexists _, _. split; simpl; try done.
  intros i Hi. lia.
Defined.
