(* ===== verification/Wire.v ===== *)
(** * Constants of the protocols (src/libcircle/token.h, libcircle.h, worker.h)

    The one enum of token.h holds the token colours, the message tags and
    the values carried by some messages.  Enumerators without a value count
    on from the one before them, so the tags start again at 0 after
    [TERMINATE = -1]. *)
From S2P Require Import Prelude.

Definition WHITE : Z := 0.
Definition BLACK : Z := 1.
Definition TERMINATE : Z := -1.
Definition CIRCLE_TAG_WORK_REQUEST : Z := TERMINATE + 1.
Definition CIRCLE_TAG_WORK_REPLY : Z := TERMINATE + 2.
Definition CIRCLE_TAG_WORK_RECEIPT : Z := TERMINATE + 3.
Definition CIRCLE_TAG_TOKEN : Z := TERMINATE + 4.
Definition CIRCLE_TAG_REDUCE : Z := TERMINATE + 5.
Definition CIRCLE_TAG_BARRIER : Z := TERMINATE + 6.
Definition CIRCLE_TAG_TERM : Z := TERMINATE + 7.
Definition CIRCLE_TAG_ABORT_REQUEST : Z := TERMINATE + 8.
Definition CIRCLE_TAG_ABORT_REPLY : Z := TERMINATE + 9.
Definition CIRCLE_TAG_ABORT_REDUCE : Z := TERMINATE + 10.
Definition MSG_VALID : Z := TERMINATE + 11.
Definition MSG_INVALID : Z := TERMINATE + 12.
Definition PAYLOAD_ABORT : Z := -32.

(** worker.h *)
Definition LIBCIRCLE_MPI_ERROR : Z := 32.

(** Run time flags of libcircle.h. *)
Definition CIRCLE_SPLIT_RANDOM : Z := Z.shiftl 1 0.
Definition CIRCLE_SPLIT_EQUAL : Z := Z.shiftl 1 1.
Definition CIRCLE_CREATE_GLOBAL : Z := Z.shiftl 1 2.
Definition CIRCLE_TERM_TREE : Z := Z.shiftl 1 3.
Definition CIRCLE_DEFAULT_FLAGS : Z := CIRCLE_SPLIT_EQUAL.

Definition message_tags : list Z :=
  [CIRCLE_TAG_WORK_REQUEST; CIRCLE_TAG_WORK_REPLY; CIRCLE_TAG_WORK_RECEIPT; CIRCLE_TAG_TOKEN;
   CIRCLE_TAG_REDUCE; CIRCLE_TAG_BARRIER; CIRCLE_TAG_TERM; CIRCLE_TAG_ABORT_REQUEST;
   CIRCLE_TAG_ABORT_REPLY; CIRCLE_TAG_ABORT_REDUCE].

(** The protocols share one communicator: they do not meet because their
    tags differ. *)
Lemma message_tags_distinct : NoDup message_tags.
Proof. apply (bool_decide_unpack _). vm_compute. done. Qed.
