(* ===== verification/Tree.v ===== *)
(** * The communication tree (CIRCLE_tree_init of src/libcircle/token.c)

    The ranks form a k-ary tree rooted at rank 0, used by the reduction, the
    barrier, the termination allreduce and the abort broadcast. *)
From S2P Require Import Prelude CMonad Mem Heap Wire.

Record CIRCLE_tree_state_st : Type := mkTree {
  t_rank : Z;
  t_ranks : Z;
  parent_rank : Z;
  children : Z;
  child_ranks : option (block Z);
}.

Definition sizeof_int : Z := 4.

(** [for(i = i0; i < i0 + n; i++) b[i] = f(i)] *)
Fixpoint fill (n : nat) (i : Z) (f : Z → Z) (b : option (block Z)) : prog (option (block Z)) :=
  match n with
  | O => mret b
  | S n =>
      a ← deref b;
      a ← deref (store a i (f i));
      fill n (i + 1) f (Some a)
  end.

Definition CIRCLE_tree_init (rank ranks k : Z) : prog CIRCLE_tree_state_st :=
  let max_children := k in
  child_ranks ← (if 0 <? max_children then
                   p ← call (OMalloc (u64 (max_children * sizeof_int)));
                   match p with
                   | None => Stop (MPI_Aborted LIBCIRCLE_MPI_ERROR)
                   | Some p => mret (Some (Block p max_children ∅))
                   end
                 else mret None);
  child_ranks ← fill (Z.to_nat max_children) 0 (λ _, MPI_PROC_NULL) child_ranks;
  parent_rank ← (if 0 <? rank then
                   if k =? 0 then Stop UB else mret (Z.quot (rank - 1) k)
                 else mret MPI_PROC_NULL);
  m ← i32 (rank * k);
  left ← i32 (m + 1);
  right ← i32 (m + k);
  if left <? ranks then
    let right := if ranks <=? right then ranks - 1 else right in
    children ← i32 (right - left + 1);
    child_ranks ← fill (Z.to_nat children) 0 (λ i, left + i) child_ranks;
    mret (mkTree rank ranks parent_rank children child_ranks)
  else mret (mkTree rank ranks parent_rank 0 child_ranks).

Definition CIRCLE_tree_free (t : CIRCLE_tree_state_st) : prog CIRCLE_tree_state_st :=
  match child_ranks t with
  | Some b => _ ← call (OFree (addr b));
              mret (mkTree (t_rank t) (t_ranks t) (parent_rank t) (children t) None)
  | None => mret t
  end.

(** The i-th child, as the loops over [child_ranks] read it. *)
Definition child (t : CIRCLE_tree_state_st) (i : Z) : prog Z :=
  b ← deref (child_ranks t); deref (load b i).

(** ** The tree as a mathematical object *)

Definition tree_parent (k rank : Z) : Z := (rank - 1) / k.

Definition tree_child_count (ranks k rank : Z) : Z :=
  Z.max 0 (Z.min (rank * k + k) (ranks - 1) - (rank * k + 1) + 1).

Definition tree_children (ranks k rank : Z) : list Z :=
  map (λ i, rank * k + 1 + i) (seqZ 0 (tree_child_count ranks k rank)).

(** What tree_init stores. *)
Definition tree_rep (t : CIRCLE_tree_state_st) (ranks k rank : Z) : Prop :=
  t_rank t = rank ∧ t_ranks t = ranks ∧
  parent_rank t = (if decide (rank = 0) then MPI_PROC_NULL else tree_parent k rank) ∧
  children t = Z.of_nat (length (tree_children ranks k rank)) ∧
  ∃ b, child_ranks t = Some b ∧
    ∀ i c, tree_children ranks k rank !! i = Some c → load b (Z.of_nat i) = Some c.

Lemma fill_ok n i f b :
  0 ≤ i → i + Z.of_nat n ≤ cap b →
  ∃ b', fill n i f (Some b) = mret (Some b') ∧ addr b' = addr b ∧ cap b' = cap b ∧
    ∀ j, cells b' !! j = if decide (i ≤ j < i + Z.of_nat n) then Some (f j) else cells b !! j.
Proof.
  revert i b. induction n as [|n IH]; intros i b Hi Hn; cbn [fill].
  - exists b. repeat split; try done. intros j. rewrite decide_False by lia. done.
  - cbn. unfold store. rewrite store_list_ok by (simpl; lia). cbn.
    destruct (IH (i + 1) (Block (addr b) (cap b) (<[i:=f i]> (cells b)))) as (b' & -> & Ha & Hc & Hl);
      [lia|simpl; lia|].
    exists b'. repeat split; [done|done|]. intros j. rewrite Hl. simpl. rewrite lookup_insert.
    repeat case_decide; subst; try done; lia.
Qed.

Lemma tree_children_length ranks k rank :
  Z.of_nat (length (tree_children ranks k rank)) = tree_child_count ranks k rank.
Proof.
  unfold tree_children. rewrite length_map, length_seqZ. unfold tree_child_count. lia.
Qed.

Lemma tree_children_lookup ranks k rank i c :
  tree_children ranks k rank !! i = Some c ↔
  c = rank * k + 1 + Z.of_nat i ∧ Z.of_nat i < tree_child_count ranks k rank.
Proof.
  unfold tree_children. rewrite list_lookup_fmap, fmap_Some. setoid_rewrite lookup_seqZ.
  split; [intros (j & (-> & ?) & ->); lia|]. intros [-> ?]. exists (Z.of_nat i). lia.
Qed.

(** The only call is the allocation of the child list. *)
Lemma tree_init_shape rank ranks k :
  0 ≤ rank < ranks → 1 ≤ k → rank * k + k ≤ INT32_MAX →
  ∃ rest, CIRCLE_tree_init rank ranks k = Vis (OMalloc (u64 (k * sizeof_int))) rest ∧
    rest None = Stop (MPI_Aborted LIBCIRCLE_MPI_ERROR) ∧
    ∀ p, ∃ t, rest (Some p) = mret t ∧ tree_rep t ranks k rank ∧ addr <$> child_ranks t = Some p.
Proof.
  intros Hr Hk Hmax. unfold CIRCLE_tree_init. rewrite (proj2 (Z.ltb_lt 0 k)) by lia.
  eexists. split; [reflexivity|]. split; [done|]. intros p. cbn.
  destruct (fill_ok (Z.to_nat k) 0 (λ _, MPI_PROC_NULL) (Block p k ∅)) as (b & -> & Ha & Hc & Hb);
    [lia|simpl; lia|]. cbn.
  assert ((if 0 <? rank then if k =? 0 then Stop UB else mret (Z.quot (rank - 1) k)
           else mret MPI_PROC_NULL) =
          (mret (if decide (rank = 0) then MPI_PROC_NULL else tree_parent k rank) : prog Z)) as ->.
  { destruct (Z.ltb_spec 0 rank).
    - rewrite (proj2 (Z.eqb_neq k 0)), decide_False by lia. unfold tree_parent.
      by rewrite Z.quot_div_nonneg by lia.
    - by rewrite decide_True by lia. }
  cbn. rewrite (i32_ok (rank * k)) by c_arith. cbn. rewrite (i32_ok (rank * k + 1)) by c_arith.
  cbn. rewrite (i32_ok (rank * k + k)) by c_arith. cbn.
  assert ((if ranks <=? rank * k + k then ranks - 1 else rank * k + k) =
          Z.min (rank * k + k) (ranks - 1)) as ->.
  { destruct (Z.leb_spec ranks (rank * k + k)); lia. }
  pose proof (tree_children_length ranks k rank) as Hlen. unfold tree_child_count in Hlen.
  destruct (Z.ltb_spec (rank * k + 1) ranks).
  - rewrite i32_ok by c_arith. cbn.
    destruct (fill_ok (Z.to_nat (Z.min (rank * k + k) (ranks - 1) - (rank * k + 1) + 1)) 0
                (λ i, rank * k + 1 + i) b) as (b' & -> & Ha' & Hc' & Hb'); [lia|simpl in *; lia|].
    cbn. eexists. split; [done|]. split; [|cbn; by rewrite Ha', Ha].
    repeat split; [simpl; lia|]. exists b'. split; [done|].
    intros i c [-> Hi]%tree_children_lookup. unfold tree_child_count in Hi. simpl in Hc.
    apply load_ok; [lia|]. rewrite Hb', decide_True by lia. done.
  - cbn. eexists. split; [done|]. split; [|cbn; by rewrite Ha].
    repeat split; [simpl; lia|]. exists b. split; [done|].
    intros i c [-> Hi]%tree_children_lookup. unfold tree_child_count in Hi. lia.
Qed.

(** C22 CIRCLE_tree_init computes the k-ary tree: the parent of a rank r > 0
    is (r - 1) / k, the root has none, and the child list holds, in ascending
    order, the ranks whose parent the rank is. *)
Theorem tree_init_rep oom rank ranks k g :
  0 ≤ rank < ranks → 1 ≤ k → rank * k + k ≤ INT32_MAX →
  wp (heap oom) (CIRCLE_tree_init rank ranks k)
    (λ _ t, tree_rep t ranks k rank)
    (λ _ e, oom = true ∧ e = MPI_Aborted LIBCIRCLE_MPI_ERROR) g.
Proof.
  intros Hr Hk Hmax. destruct (tree_init_shape rank ranks k Hr Hk Hmax) as (rest & -> & Hn & Hs).
  split; [done|]. intros [p|] g' Hp.
  - by destruct (Hs p) as (t & -> & Ht & _).
  - rewrite Hn. by destruct Hp.
Qed.

(** ** The trees of the ranks fit together *)

(** The child ranks a tree structure lists, as the code's loops see them. *)
Definition listed_child (t : CIRCLE_tree_state_st) (c : Z) : Prop :=
  ∃ i, 0 ≤ i < children t ∧ child t i = mret c.

Lemma tree_children_elem ranks k rank c :
  1 ≤ k → 0 ≤ rank → c ∈ tree_children ranks k rank ↔ 0 < c < ranks ∧ tree_parent k c = rank.
Proof.
  intros Hk Hr. rewrite list_elem_of_lookup. setoid_rewrite tree_children_lookup.
  unfold tree_child_count, tree_parent. split.
  - intros (i & -> & Hi). split; [nia|].
    replace (rank * k + 1 + Z.of_nat i - 1) with (rank * k + Z.of_nat i) by lia.
    rewrite Z.div_add_l by lia. rewrite Z.div_small; lia.
  - intros [Hc Hp]. pose proof (Z_div_mod_eq_full (c - 1) k). pose proof (Z.mod_pos_bound (c - 1) k).
    exists (Z.to_nat (c - 1 - k * rank)). nia.
Qed.

Lemma tree_rep_listed t ranks k rank c :
  tree_rep t ranks k rank → listed_child t c ↔ c ∈ tree_children ranks k rank.
Proof.
  intros (_ & _ & _ & Hn & b & Hb & Hl). unfold listed_child, child. rewrite Hn, Hb. cbn.
  rewrite list_elem_of_lookup. split.
  - intros (i & Hi & Hload). exists (Z.to_nat i).
    destruct (lookup_lt_is_Some_2 (tree_children ranks k rank) (Z.to_nat i)) as [c' Hc']; [lia|].
    rewrite Hc'. apply Hl in Hc'. rewrite Z2Nat.id in Hc' by lia. rewrite Hc' in Hload.
    cbn in Hload. by injection Hload as ->.
  - intros (i & Hi). exists (Z.of_nat i). apply lookup_lt_Some in Hi as Hlt.
    split; [lia|]. by rewrite (Hl _ _ Hi).
Qed.

(** What CIRCLE_tree_init can return, whatever the allocator answers. *)
Inductive may_return {A} : prog A → A → Prop :=
  | may_return_ret a : may_return (Ret a) a
  | may_return_call o k r a : may_return (k r) a → may_return (Vis o k) a.

Lemma may_return_inv {A} (t : prog A) a :
  may_return t a →
  match t with Ret b => a = b | Stop _ => False | Vis o k => ∃ r, may_return (k r) a end.
Proof. intros []; eauto. Qed.

Lemma tree_init_returns rank ranks k t :
  0 ≤ rank < ranks → 1 ≤ k → rank * k + k ≤ INT32_MAX →
  may_return (CIRCLE_tree_init rank ranks k) t → tree_rep t ranks k rank.
Proof.
  intros Hr Hk Hmax. destruct (tree_init_shape rank ranks k Hr Hk Hmax) as (rest & -> & Hn & Hs).
  intros [[p|] Ht]%may_return_inv.
  - destruct (Hs p) as (t' & Heq & Hrep & _). rewrite Heq in Ht. by apply may_return_inv in Ht as ->.
  - rewrite Hn in Ht. by apply may_return_inv in Ht.
Qed.

Lemma tree_reps_agree ranks k p c tp tc :
  1 ≤ k → 0 ≤ p < ranks → 0 ≤ c < ranks →
  tree_rep tp ranks k p → tree_rep tc ranks k c →
  (listed_child tp c ↔ parent_rank tc = p) ∧
  (0 < c → 0 ≤ parent_rank tc < c) ∧ (c = 0 → parent_rank tc = MPI_PROC_NULL).
Proof.
  intros Hk Hp Hc Htp (_ & _ & Hpar & _). rewrite (tree_rep_listed _ _ _ _ _ Htp), Hpar.
  rewrite tree_children_elem by lia. split; [|split].
  - case_decide; [|naive_solver lia]. subst. unfold MPI_PROC_NULL. lia.
  - intros H0. rewrite decide_False by lia. unfold tree_parent.
    split; [apply Z.div_pos; lia|]. apply Z.div_lt_upper_bound; nia.
  - intros ->. by rewrite decide_True.
Qed.

(** C23 The trees that CIRCLE_tree_init computes on two ranks p and c agree,
    whatever the allocators answer: p lists c among its children exactly if
    c's parent is p; a parent has a smaller rank than its child, so every
    rank is connected to rank 0, which has no parent. *)
Theorem tree_edges_agree ranks k p c tp tc :
  1 ≤ k → ranks * k ≤ INT32_MAX → 0 ≤ p < ranks → 0 ≤ c < ranks →
  may_return (CIRCLE_tree_init p ranks k) tp → may_return (CIRCLE_tree_init c ranks k) tc →
  (listed_child tp c ↔ parent_rank tc = p) ∧
  (0 < c → 0 ≤ parent_rank tc < c) ∧ (c = 0 → parent_rank tc = MPI_PROC_NULL).
Proof.
  intros Hk Hmax Hp Hc Htp Htc. apply (tree_reps_agree ranks k); [done..| |]; apply tree_init_returns; (done || nia).
Qed.

(** The tree of [rank] on an allocator that never fails. *)
Definition tree_of (rank ranks k : Z) : CIRCLE_tree_state_st :=
  match run (bump PTRDIFF_MAX) 1 (CIRCLE_tree_init rank ranks k) with
  | (_, Done t) => t
  | _ => mkTree rank ranks MPI_PROC_NULL 0 None
  end.

Lemma tree_init_rep_witness :
  wp (heap false) (CIRCLE_tree_init 1 7 2) (λ _ t, tree_rep t 7 2 1)
    (λ _ e, false = true ∧ e = MPI_Aborted LIBCIRCLE_MPI_ERROR) ∅ ∧
  tree_children 7 2 1 = [3; 4].
Proof. split; [apply (tree_init_rep false 1 7 2 ∅); decided|vm_compute; done]. Defined.

Lemma tree_of_rep rank ranks k :
  0 ≤ rank < ranks → 1 ≤ k → rank * k + k ≤ INT32_MAX → u64 (k * sizeof_int) ≤ PTRDIFF_MAX →
  tree_rep (tree_of rank ranks k) ranks k rank.
Proof.
  intros Hr Hk Hm Hs. unfold tree_of.
  destruct (tree_init_shape rank ranks k Hr Hk Hm) as (rest & -> & _ & Hok).
  cbn [run bump]. rewrite (proj2 (Z.leb_le _ _)) by done.
  destruct (Hok 1) as (t & -> & Ht & _). exact Ht.
Qed.

(** A run that ends shows what may be returned. *)
Lemma run_may_return {S A} (h : env S) (t : prog A) s s' a : run h s t = (s', Done a) → may_return t a.
Proof.
  revert s. induction t as [b|e|o k IH]; intros s; cbn; [intros [= _ ->]; constructor|done|].
  destruct (h s o) as [[r s1]|]; [|done]. intros Hr. econstructor. by eapply IH.
Qed.

Lemma tree_edges_agree_witness :
  (listed_child (tree_of 1 7 2) 4 ↔ parent_rank (tree_of 4 7 2) = 1) ∧
  (0 < 4 → 0 ≤ parent_rank (tree_of 4 7 2) < 4) ∧
  (4 = 0 → parent_rank (tree_of 4 7 2) = MPI_PROC_NULL).
Proof.
  apply (tree_edges_agree 7 2 1 4); [lia|c_arith|lia|lia|..];
    eapply (run_may_return (bump PTRDIFF_MAX) _ 1 2); vm_compute; reflexivity.
Defined.

(** C39 The tree width is not validated: with width 0 every rank but the
    root divides by zero, and a negative width gives the root a negative
    number of children (no message count can then equal it). *)
Theorem tree_width_unchecked rank ranks k :
  (0 < rank → CIRCLE_tree_init rank ranks 0 = Stop UB) ∧
  (INT32_MIN ≤ k < 0 → 1 < ranks →
   CIRCLE_tree_init 0 ranks k = mret (mkTree 0 ranks MPI_PROC_NULL k None)).
Proof.
  split; intros Hr; unfold CIRCLE_tree_init.
  - cbn. by rewrite (proj2 (Z.ltb_lt 0 rank)) by lia.
  - intros Hn. rewrite (proj2 (Z.ltb_ge 0 k)) by lia. cbn.
    rewrite Z2Nat.nonpos by lia. cbn. change (i32 (0 * k)) with (mret 0 : prog Z). cbn.
    change (i32 (0 + 1)) with (mret 1 : prog Z). cbn.
    rewrite i32_ok by c_arith. cbn.
    rewrite (proj2 (Z.ltb_lt 1 ranks)) by lia. rewrite (proj2 (Z.leb_gt ranks (0 + k))) by lia.
    rewrite i32_ok by c_arith. cbn -[Z.add]. replace (0 + k - 1 + 1) with k by lia.
    by rewrite Z2Nat.nonpos by lia.
Qed.

Lemma tree_width_unchecked_witness :
  CIRCLE_tree_init 1 4 0 = Stop UB ∧
  CIRCLE_tree_init 0 4 (-2) = mret (mkTree 0 4 MPI_PROC_NULL (-2) None).
Proof.
  split; [apply (tree_width_unchecked 1 4 (-2)); lia|apply (tree_width_unchecked 0 4 (-2)); c_arith].
Defined.
