(* ===== verification/Split.v ===== *)
(** * Dividing the queue among requestors (spread_counts and the sizes of
    CIRCLE_send_work_to_many, src/libcircle/token.c) *)
From S2P Require Import Prelude CMonad Mem Heap Wire Tree.

(** [spread_counts(&sizes[start], ranks, count)] *)
Definition spread_counts (sizes : option (block Z)) (start ranks count : Z)
    : prog (option (block Z)) :=
  base ← (if ranks =? 0 then Stop UB else i32 (Z.quot count ranks));
  m ← i32 (base * ranks);
  extra ← i32 (count - m);
  sizes ← fill (Z.to_nat extra) start (λ _, base + 1) sizes;
  let i := Z.max 0 extra in
  fill (Z.to_nat (ranks - i)) (start + i) (λ _, base) sizes.

(** The array of amounts: entry 0 is what the process keeps, the others go
    to the [rcount] requestors.  Returns the array and the next seed. *)
Definition split_sizes (options seed q_count rcount : Z) : prog (option (block Z) * Z) :=
  num_ranks ← i32 (rcount + 1);
  p ← call (OMalloc (u64 (num_ranks * sizeof_int)));
  match p with
  | None => Stop (MPI_Aborted LIBCIRCLE_MPI_ERROR)
  | Some p =>
      let sizes := Some (Block p num_ranks ∅) in
      if truth (Z.land options CIRCLE_SPLIT_EQUAL) then
        sizes ← spread_counts sizes 0 num_ranks q_count;
        mret (sizes, seed)
      else
        '(v, seed) ← call (ORand seed);
        r ← (if q_count =? 0 then Stop UB else mret (Z.rem v q_count));
        send_count ← i32 (r + 1);
        let send_count := if send_count =? q_count then send_count - 1 else send_count in
        keep ← i32 (q_count - send_count);
        sizes ← fill 1 0 (λ _, keep) sizes;
        sizes ← spread_counts sizes 1 rcount send_count;
        mret (sizes, seed)
  end.

(** ** What is computed *)

Definition spread (ranks count : Z) : list Z :=
  replicate (Z.to_nat (count mod ranks)) (count / ranks + 1) ++
  replicate (Z.to_nat (ranks - count mod ranks)) (count / ranks).

Definition sum_Z (l : list Z) : Z := foldr Z.add 0 l.

Lemma sum_Z_app l l' : sum_Z (l ++ l') = sum_Z l + sum_Z l'.
Proof. induction l; simpl; lia. Qed.

Lemma sum_Z_replicate n x : sum_Z (replicate n x) = Z.of_nat n * x.
Proof.
  induction n as [|n IH]; [done|].
  change (x + sum_Z (replicate n x) = Z.of_nat (S n) * x). rewrite IH. nia.
Qed.

Lemma spread_length ranks count : 0 < ranks → Z.of_nat (length (spread ranks count)) = ranks.
Proof.
  intros. unfold spread. rewrite length_app, !length_replicate.
  pose proof (Z.mod_pos_bound count ranks). lia.
Qed.

Lemma spread_sum ranks count : 0 < ranks → sum_Z (spread ranks count) = count.
Proof.
  intros. unfold spread. rewrite sum_Z_app, !sum_Z_replicate.
  pose proof (Z.mod_pos_bound count ranks). pose proof (Z_div_mod_eq_full count ranks).
  rewrite !Z2Nat.id by lia. lia.
Qed.

Lemma spread_balanced ranks count x :
  x ∈ spread ranks count → count / ranks ≤ x ≤ count / ranks + 1.
Proof. unfold spread. rewrite elem_of_app, !elem_of_replicate. lia. Qed.

(** The cells of [b] from [start] on hold [l]. *)
Definition holds (b : block Z) (start : Z) (l : list Z) : Prop :=
  ∀ i x, l !! i = Some x → cells b !! (start + Z.of_nat i) = Some x.

Lemma holds_cons b start x l : holds b start (x :: l) ↔ cells b !! start = Some x ∧ holds b (start + 1) l.
Proof.
  unfold holds. split.
  - intros H. split; [rewrite <-(Z.add_0_r start); by apply (H 0%nat)|].
    intros i y Hi. rewrite <-(H (S i) y Hi). f_equal. lia.
  - intros [H0 H] [|i] y Hi; simpl in Hi; [injection Hi as <-; by rewrite Z.add_0_r|].
    rewrite <-(H i y Hi). f_equal. lia.
Qed.

Lemma spread_counts_ok b start ranks count :
  0 < ranks → 0 ≤ count ≤ INT32_MAX → ranks ≤ INT32_MAX → 0 ≤ start → start + ranks ≤ cap b →
  ∃ b', spread_counts (Some b) start ranks count = mret (Some b') ∧
    addr b' = addr b ∧ cap b' = cap b ∧ holds b' start (spread ranks count) ∧
    ∀ j, j < start → cells b' !! j = cells b !! j.
Proof.
  intros Hr Hc Hm Hs Hcap. unfold spread_counts. rewrite (proj2 (Z.eqb_neq ranks 0)) by lia.
  rewrite Z.quot_div_nonneg by lia.
  pose proof (Z.mod_pos_bound count ranks). pose proof (Z_div_mod_eq_full count ranks) as Hdm.
  assert (0 ≤ count / ranks ≤ count) by (split; [apply Z.div_pos; lia|apply Z.div_le_upper_bound; nia]).
  rewrite i32_ok by c_arith. cbn. rewrite i32_ok by c_arith. cbn.
  replace (count - count / ranks * ranks) with (count mod ranks) by lia.
  rewrite i32_ok by c_arith. cbn.
  destruct (fill_ok (Z.to_nat (count mod ranks)) start (λ _, count / ranks + 1) b)
    as (b1 & -> & Ha1 & Hc1 & Hl1); [lia|lia|]. cbn.
  rewrite Z.max_r by lia.
  destruct (fill_ok (Z.to_nat (ranks - count mod ranks)) (start + count mod ranks)
    (λ _, count / ranks) b1) as (b2 & -> & Ha2 & Hc2 & Hl2); [lia|lia|].
  exists b2. split; [done|]. split; [congruence|]. split; [congruence|]. split.
  - intros i x Hx. unfold spread in Hx. rewrite Hl2, Hl1. apply lookup_app_Some in Hx.
    rewrite !lookup_replicate, length_replicate in Hx.
    destruct Hx as [[-> Hi]|[Hi1 [-> Hi2]]].
    + rewrite decide_False, decide_True by lia. done.
    + rewrite decide_True by lia. done.
  - intros j Hj. rewrite Hl2, Hl1, !decide_False by lia. done.
Qed.

(** C33 spread_counts divides [count] among [ranks] slots: the amounts add
    up to [count] and any two differ by at most one. *)
Theorem spread_counts_fair b start ranks count :
  0 < ranks → 0 ≤ count ≤ INT32_MAX → ranks ≤ INT32_MAX → 0 ≤ start → start + ranks ≤ cap b →
  ∃ b' l, spread_counts (Some b) start ranks count = mret (Some b') ∧
    holds b' start l ∧ Z.of_nat (length l) = ranks ∧ sum_Z l = count ∧
    ∀ x y, x ∈ l → y ∈ l → x ≤ y + 1.
Proof.
  intros Hr Hc Hm Hs Hcap.
  destruct (spread_counts_ok b start ranks count) as (b' & Heq & _ & _ & Hh & _); [done..|].
  exists b', (spread ranks count). split; [done|]. split; [done|].
  split; [by apply spread_length|]. split; [by apply spread_sum|].
  intros x y Hx%spread_balanced Hy%spread_balanced. lia.
Qed.

Lemma spread_counts_fair_witness :
  ∃ b' l, spread_counts (Some (Block 9 4 ∅)) 1 3 11 = mret (Some b') ∧
    holds b' 1 l ∧ Z.of_nat (length l) = 3 ∧ sum_Z l = 11 ∧
    ∀ x y, x ∈ l → y ∈ l → x ≤ y + 1.
Proof. apply (spread_counts_fair (Block 9 4 ∅) 1 3 11); decided. Defined.

(** What [split_sizes] promises: entry 0 is kept, the rest are sent. *)
Definition good_split (sizes : option (block Z)) (rcount q_count : Z) : Prop :=
  ∃ b keep l, sizes = Some b ∧ holds b 0 (keep :: l) ∧ cap b = rcount + 1 ∧
    Z.of_nat (length l) = rcount ∧ keep + sum_Z l = q_count ∧ 1 ≤ keep ∧ Forall (λ x, 0 ≤ x) l.

Lemma spread_nonneg ranks count : 0 < ranks → 0 ≤ count → Forall (λ x, 0 ≤ x) (spread ranks count).
Proof.
  intros Hr Hc. apply Forall_forall. intros x Hx.
  apply spread_balanced in Hx. pose proof (Z.div_pos count ranks). lia.
Qed.

(** The first slot gets its share of the remainder. *)
Lemma spread_head ranks count :
  0 < ranks → 1 ≤ count → ∃ keep l, spread ranks count = keep :: l ∧ 1 ≤ keep.
Proof.
  intros Hr Hc. unfold spread.
  pose proof (Z.mod_pos_bound count ranks). pose proof (Z_div_mod_eq_full count ranks).
  pose proof (Z.div_pos count ranks).
  destruct (Z.to_nat (count mod ranks)) eqn:He.
  - destruct (Z.to_nat (ranks - count mod ranks)) eqn:He'; [lia|].
    eexists _, _. split; [reflexivity|]. nia.
  - eexists _, _. split; [reflexivity|]. lia.
Qed.

(** C21 However the queue is split (equally or at a random amount), the
    process keeps at least one item, no requestor gets a negative amount,
    and the amounts add up to what the queue holds. *)
Theorem split_sizes_conserves oom options seed q_count rcount g :
  1 ≤ q_count ≤ INT32_MAX → 1 ≤ rcount < INT32_MAX →
  wp (heap oom) (split_sizes options seed q_count rcount)
    (λ _ '(sizes, _), good_split sizes rcount q_count)
    (λ _ e, oom = true ∧ e = MPI_Aborted LIBCIRCLE_MPI_ERROR) g.
Proof.
  intros Hq Hr. unfold split_sizes. wp_i32. cbn. split; [done|].
  intros [p|] g' Hp; cbn in Hp; [|by destruct Hp]. cbn. clear Hp.
  destruct (truth (Z.land options CIRCLE_SPLIT_EQUAL)).
  - destruct (spread_counts_ok (Block p (rcount + 1) ∅) 0 (rcount + 1) q_count)
      as (b & -> & Ha & Hc & Hh & _); [lia|lia|lia|lia|simpl; lia|].
    cbn. destruct (spread_head (rcount + 1) q_count) as (keep & l & Hl & Hk); [lia|lia|].
    pose proof (spread_length (rcount + 1) q_count ltac:(lia)) as Hlen.
    pose proof (spread_sum (rcount + 1) q_count ltac:(lia)) as Hsum.
    pose proof (spread_nonneg (rcount + 1) q_count ltac:(lia) ltac:(lia)) as Hpos.
    rewrite Hl in *. cbn [length sum_Z foldr] in *.
    apply Forall_cons_1 in Hpos as [_ Hpos].
    exists b, keep, l. split; [done|]. split; [done|]. split; [done|].
    split; [lia|]. split; [unfold sum_Z in *; lia|]. split; [lia|done].
  - cbn. split; [done|]. intros [v seed'] g2 [-> [Hv _]]. cbn in Hv.
    rewrite (proj2 (Z.eqb_neq q_count 0)) by lia. cbn.
    pose proof (Z.rem_bound_pos v q_count).
    rewrite i32_ok by c_arith. cbn.
    set (sc := if Z.rem v q_count + 1 =? q_count then _ else _).
    assert (0 ≤ sc < q_count) as Hsc.
    { subst sc. destruct (Z.eqb_spec (Z.rem v q_count + 1) q_count); lia. }
    rewrite i32_ok by c_arith. cbn. unfold store. rewrite store_list_ok by (simpl; lia). cbn.
    destruct (spread_counts_ok (Block p (rcount + 1) (<[0:=q_count - sc]> ∅)) 1 rcount sc)
      as (b & -> & Ha & Hc & Hh & Hlow); [lia|lia|lia|lia|simpl; lia|].
    cbn. exists b, (q_count - sc), (spread rcount sc). split; [done|]. split.
    { apply holds_cons. split; [|done]. rewrite Hlow by lia. apply lookup_insert_eq. }
    rewrite spread_sum by lia. rewrite spread_length by lia.
    split; [done|]. repeat split; try lia. apply spread_nonneg; lia.
Qed.

Lemma split_sizes_conserves_witness :
  wp (heap false) (split_sizes CIRCLE_DEFAULT_FLAGS 5 10 3)
    (λ _ '(sizes, _), good_split sizes 3 10)
    (λ _ e, false = true ∧ e = MPI_Aborted LIBCIRCLE_MPI_ERROR) ∅ ∧
  wp (heap false) (split_sizes CIRCLE_SPLIT_RANDOM 5 1 1)
    (λ _ '(sizes, _), good_split sizes 1 1)
    (λ _ e, false = true ∧ e = MPI_Aborted LIBCIRCLE_MPI_ERROR) ∅.
Proof. split; apply split_sizes_conserves; decided. Defined.
