(* ===== verification/State.v ===== *)
(** * The state of a worker (CIRCLE_state_st of src/libcircle/token.h)

    The struct's fields, with their names, grouped as the comments of the
    header group them: one record per group, and [CIRCLE_state_st] holding
    the groups.  [set_f v r] is the assignment [r->f = v]. *)
From S2P Require Import Prelude CMonad Mem Tree.

(** Tracks state of token *)
Record token_st : Type := mk_token_st {
  token_is_local : Z;
  token_proc : Z;
  token_buf : Z;
  token_src : Z;
  token_dest : Z;
  token_send_req : request;
}.
Definition set_token_is_local (v : Z) (r : token_st) : token_st :=
  mk_token_st v (token_proc r) (token_buf r) (token_src r) (token_dest r) (token_send_req r).
Definition set_token_proc (v : Z) (r : token_st) : token_st :=
  mk_token_st (token_is_local r) v (token_buf r) (token_src r) (token_dest r) (token_send_req r).
Definition set_token_buf (v : Z) (r : token_st) : token_st :=
  mk_token_st (token_is_local r) (token_proc r) v (token_src r) (token_dest r) (token_send_req r).
Definition set_token_src (v : Z) (r : token_st) : token_st :=
  mk_token_st (token_is_local r) (token_proc r) (token_buf r) v (token_dest r) (token_send_req r).
Definition set_token_dest (v : Z) (r : token_st) : token_st :=
  mk_token_st (token_is_local r) (token_proc r) (token_buf r) (token_src r) v (token_send_req r).
Definition set_token_send_req (v : request) (r : token_st) : token_st :=
  mk_token_st (token_is_local r) (token_proc r) (token_buf r) (token_src r) (token_dest r) v.

(** Transfers the offsets of items when receiving work *)
Record offsets_st : Type := mk_offsets_st {
  offsets_count : Z;
  offsets_recv_buf : option (block Z);
}.
Definition set_offsets_count (v : Z) (r : offsets_st) : offsets_st :=
  mk_offsets_st v (offsets_recv_buf r).
Definition set_offsets_recv_buf (v : option (block Z)) (r : offsets_st) : offsets_st :=
  mk_offsets_st (offsets_count r) v.

(** Manages requests for work to other processes *)
Record request_st : Type := mk_request_st {
  work_requested : Z;
  work_requested_rank : Z;
  work_request_req : request;
}.
Definition set_work_requested (v : Z) (r : request_st) : request_st :=
  mk_request_st v (work_requested_rank r) (work_request_req r).
Definition set_work_requested_rank (v : Z) (r : request_st) : request_st :=
  mk_request_st (work_requested r) v (work_request_req r).
Definition set_work_request_req (v : request) (r : request_st) : request_st :=
  mk_request_st (work_requested r) (work_requested_rank r) v.

(** Outstanding non-blocking sends with their buffers *)
Record send_st : Type := mk_send_st {
  send_count : Z;
  send_capacity : Z;
  send_reqs : option (block request);
  send_bufs : option (block ptr);
}.
Definition set_send_count (v : Z) (r : send_st) : send_st :=
  mk_send_st v (send_capacity r) (send_reqs r) (send_bufs r).
Definition set_send_capacity (v : Z) (r : send_st) : send_st :=
  mk_send_st (send_count r) v (send_reqs r) (send_bufs r).
Definition set_send_reqs (v : option (block request)) (r : send_st) : send_st :=
  mk_send_st (send_count r) (send_capacity r) v (send_bufs r).
Definition set_send_bufs (v : option (block ptr)) (r : send_st) : send_st :=
  mk_send_st (send_count r) (send_capacity r) (send_reqs r) v.

(** Reduction operations; [reduce_buf] is the array of three counters *)
Record reduce_st : Type := mk_reduce_st {
  reduce_enabled : Z;
  reduce_time_last : double;
  reduce_time_interval : double;
  reduce_outstanding : Z;
  reduce_replies : Z;
  reduce_buf0 : Z;
  reduce_buf1 : Z;
  reduce_buf2 : Z;
}.
Definition set_reduce_enabled (v : Z) (r : reduce_st) : reduce_st :=
  mk_reduce_st v (reduce_time_last r) (reduce_time_interval r) (reduce_outstanding r) (reduce_replies r) (reduce_buf0 r) (reduce_buf1 r) (reduce_buf2 r).
Definition set_reduce_time_last (v : double) (r : reduce_st) : reduce_st :=
  mk_reduce_st (reduce_enabled r) v (reduce_time_interval r) (reduce_outstanding r) (reduce_replies r) (reduce_buf0 r) (reduce_buf1 r) (reduce_buf2 r).
Definition set_reduce_time_interval (v : double) (r : reduce_st) : reduce_st :=
  mk_reduce_st (reduce_enabled r) (reduce_time_last r) v (reduce_outstanding r) (reduce_replies r) (reduce_buf0 r) (reduce_buf1 r) (reduce_buf2 r).
Definition set_reduce_outstanding (v : Z) (r : reduce_st) : reduce_st :=
  mk_reduce_st (reduce_enabled r) (reduce_time_last r) (reduce_time_interval r) v (reduce_replies r) (reduce_buf0 r) (reduce_buf1 r) (reduce_buf2 r).
Definition set_reduce_replies (v : Z) (r : reduce_st) : reduce_st :=
  mk_reduce_st (reduce_enabled r) (reduce_time_last r) (reduce_time_interval r) (reduce_outstanding r) v (reduce_buf0 r) (reduce_buf1 r) (reduce_buf2 r).
Definition set_reduce_buf0 (v : Z) (r : reduce_st) : reduce_st :=
  mk_reduce_st (reduce_enabled r) (reduce_time_last r) (reduce_time_interval r) (reduce_outstanding r) (reduce_replies r) v (reduce_buf1 r) (reduce_buf2 r).
Definition set_reduce_buf1 (v : Z) (r : reduce_st) : reduce_st :=
  mk_reduce_st (reduce_enabled r) (reduce_time_last r) (reduce_time_interval r) (reduce_outstanding r) (reduce_replies r) (reduce_buf0 r) v (reduce_buf2 r).
Definition set_reduce_buf2 (v : Z) (r : reduce_st) : reduce_st :=
  mk_reduce_st (reduce_enabled r) (reduce_time_last r) (reduce_time_interval r) (reduce_outstanding r) (reduce_replies r) (reduce_buf0 r) (reduce_buf1 r) v.

(** The cleanup barrier *)
Record barrier_st : Type := mk_barrier_st {
  barrier_started : Z;
  barrier_up : Z;
  barrier_replies : Z;
}.
Definition set_barrier_started (v : Z) (r : barrier_st) : barrier_st :=
  mk_barrier_st v (barrier_up r) (barrier_replies r).
Definition set_barrier_up (v : Z) (r : barrier_st) : barrier_st :=
  mk_barrier_st (barrier_started r) v (barrier_replies r).
Definition set_barrier_replies (v : Z) (r : barrier_st) : barrier_st :=
  mk_barrier_st (barrier_started r) (barrier_up r) v.

(** Termination allreduce *)
Record term_st : Type := mk_term_st {
  term_tree_enabled : Z;
  work_outstanding : Z;
  term_flag : Z;
  term_up : Z;
  term_replies : Z;
}.
Definition set_term_tree_enabled (v : Z) (r : term_st) : term_st :=
  mk_term_st v (work_outstanding r) (term_flag r) (term_up r) (term_replies r).
Definition set_work_outstanding (v : Z) (r : term_st) : term_st :=
  mk_term_st (term_tree_enabled r) v (term_flag r) (term_up r) (term_replies r).
Definition set_term_flag (v : Z) (r : term_st) : term_st :=
  mk_term_st (term_tree_enabled r) (work_outstanding r) v (term_up r) (term_replies r).
Definition set_term_up (v : Z) (r : term_st) : term_st :=
  mk_term_st (term_tree_enabled r) (work_outstanding r) (term_flag r) v (term_replies r).
Definition set_term_replies (v : Z) (r : term_st) : term_st :=
  mk_term_st (term_tree_enabled r) (work_outstanding r) (term_flag r) (term_up r) v.

(** Abort broadcast tree *)
Record abort_st : Type := mk_abort_st {
  abort_state : Z;
  abort_outstanding : Z;
  abort_num_req : Z;
  abort_req : option (block request);
}.
Definition set_abort_state (v : Z) (r : abort_st) : abort_st :=
  mk_abort_st v (abort_outstanding r) (abort_num_req r) (abort_req r).
Definition set_abort_outstanding (v : Z) (r : abort_st) : abort_st :=
  mk_abort_st (abort_state r) v (abort_num_req r) (abort_req r).
Definition set_abort_num_req (v : Z) (r : abort_st) : abort_st :=
  mk_abort_st (abort_state r) (abort_outstanding r) v (abort_req r).
Definition set_abort_req (v : option (block request)) (r : abort_st) : abort_st :=
  mk_abort_st (abort_state r) (abort_outstanding r) (abort_num_req r) v.

(** Profiling counters *)
Record profile_st : Type := mk_profile_st {
  local_objects_processed : Z;
  local_work_requested : Z;
  local_no_work_received : Z;
}.
Definition set_local_objects_processed (v : Z) (r : profile_st) : profile_st :=
  mk_profile_st v (local_work_requested r) (local_no_work_received r).
Definition set_local_work_requested (v : Z) (r : profile_st) : profile_st :=
  mk_profile_st (local_objects_processed r) v (local_no_work_received r).
Definition set_local_no_work_received (v : Z) (r : profile_st) : profile_st :=
  mk_profile_st (local_objects_processed r) (local_work_requested r) v.

(** The whole struct; the communicator is left out, there is only one *)
Record CIRCLE_state_st : Type := mk_state {
  st_rank : Z;
  st_size : Z;
  st_token : token_st;
  st_offsets : offsets_st;
  st_requestors : option (block Z);
  st_seed : Z;
  st_next_processor : Z;
  st_request : request_st;
  st_send : send_st;
  st_tree : CIRCLE_tree_state_st;
  st_reduce : reduce_st;
  st_barrier : barrier_st;
  st_term : term_st;
  st_abort : abort_st;
  st_profile : profile_st;
}.
Definition set_st_rank (v : Z) (r : CIRCLE_state_st) : CIRCLE_state_st :=
  mk_state v (st_size r) (st_token r) (st_offsets r) (st_requestors r) (st_seed r) (st_next_processor r) (st_request r) (st_send r) (st_tree r) (st_reduce r) (st_barrier r) (st_term r) (st_abort r) (st_profile r).
Definition set_st_size (v : Z) (r : CIRCLE_state_st) : CIRCLE_state_st :=
  mk_state (st_rank r) v (st_token r) (st_offsets r) (st_requestors r) (st_seed r) (st_next_processor r) (st_request r) (st_send r) (st_tree r) (st_reduce r) (st_barrier r) (st_term r) (st_abort r) (st_profile r).
Definition set_st_token (v : token_st) (r : CIRCLE_state_st) : CIRCLE_state_st :=
  mk_state (st_rank r) (st_size r) v (st_offsets r) (st_requestors r) (st_seed r) (st_next_processor r) (st_request r) (st_send r) (st_tree r) (st_reduce r) (st_barrier r) (st_term r) (st_abort r) (st_profile r).
Definition set_st_offsets (v : offsets_st) (r : CIRCLE_state_st) : CIRCLE_state_st :=
  mk_state (st_rank r) (st_size r) (st_token r) v (st_requestors r) (st_seed r) (st_next_processor r) (st_request r) (st_send r) (st_tree r) (st_reduce r) (st_barrier r) (st_term r) (st_abort r) (st_profile r).
Definition set_st_requestors (v : option (block Z)) (r : CIRCLE_state_st) : CIRCLE_state_st :=
  mk_state (st_rank r) (st_size r) (st_token r) (st_offsets r) v (st_seed r) (st_next_processor r) (st_request r) (st_send r) (st_tree r) (st_reduce r) (st_barrier r) (st_term r) (st_abort r) (st_profile r).
Definition set_st_seed (v : Z) (r : CIRCLE_state_st) : CIRCLE_state_st :=
  mk_state (st_rank r) (st_size r) (st_token r) (st_offsets r) (st_requestors r) v (st_next_processor r) (st_request r) (st_send r) (st_tree r) (st_reduce r) (st_barrier r) (st_term r) (st_abort r) (st_profile r).
Definition set_st_next_processor (v : Z) (r : CIRCLE_state_st) : CIRCLE_state_st :=
  mk_state (st_rank r) (st_size r) (st_token r) (st_offsets r) (st_requestors r) (st_seed r) v (st_request r) (st_send r) (st_tree r) (st_reduce r) (st_barrier r) (st_term r) (st_abort r) (st_profile r).
Definition set_st_request (v : request_st) (r : CIRCLE_state_st) : CIRCLE_state_st :=
  mk_state (st_rank r) (st_size r) (st_token r) (st_offsets r) (st_requestors r) (st_seed r) (st_next_processor r) v (st_send r) (st_tree r) (st_reduce r) (st_barrier r) (st_term r) (st_abort r) (st_profile r).
Definition set_st_send (v : send_st) (r : CIRCLE_state_st) : CIRCLE_state_st :=
  mk_state (st_rank r) (st_size r) (st_token r) (st_offsets r) (st_requestors r) (st_seed r) (st_next_processor r) (st_request r) v (st_tree r) (st_reduce r) (st_barrier r) (st_term r) (st_abort r) (st_profile r).
Definition set_st_tree (v : CIRCLE_tree_state_st) (r : CIRCLE_state_st) : CIRCLE_state_st :=
  mk_state (st_rank r) (st_size r) (st_token r) (st_offsets r) (st_requestors r) (st_seed r) (st_next_processor r) (st_request r) (st_send r) v (st_reduce r) (st_barrier r) (st_term r) (st_abort r) (st_profile r).
Definition set_st_reduce (v : reduce_st) (r : CIRCLE_state_st) : CIRCLE_state_st :=
  mk_state (st_rank r) (st_size r) (st_token r) (st_offsets r) (st_requestors r) (st_seed r) (st_next_processor r) (st_request r) (st_send r) (st_tree r) v (st_barrier r) (st_term r) (st_abort r) (st_profile r).
Definition set_st_barrier (v : barrier_st) (r : CIRCLE_state_st) : CIRCLE_state_st :=
  mk_state (st_rank r) (st_size r) (st_token r) (st_offsets r) (st_requestors r) (st_seed r) (st_next_processor r) (st_request r) (st_send r) (st_tree r) (st_reduce r) v (st_term r) (st_abort r) (st_profile r).
Definition set_st_term (v : term_st) (r : CIRCLE_state_st) : CIRCLE_state_st :=
  mk_state (st_rank r) (st_size r) (st_token r) (st_offsets r) (st_requestors r) (st_seed r) (st_next_processor r) (st_request r) (st_send r) (st_tree r) (st_reduce r) (st_barrier r) v (st_abort r) (st_profile r).
Definition set_st_abort (v : abort_st) (r : CIRCLE_state_st) : CIRCLE_state_st :=
  mk_state (st_rank r) (st_size r) (st_token r) (st_offsets r) (st_requestors r) (st_seed r) (st_next_processor r) (st_request r) (st_send r) (st_tree r) (st_reduce r) (st_barrier r) (st_term r) v (st_profile r).
Definition set_st_profile (v : profile_st) (r : CIRCLE_state_st) : CIRCLE_state_st :=
  mk_state (st_rank r) (st_size r) (st_token r) (st_offsets r) (st_requestors r) (st_seed r) (st_next_processor r) (st_request r) (st_send r) (st_tree r) (st_reduce r) (st_barrier r) (st_term r) (st_abort r) v.

(** Assignment to a field of a group. *)
Definition upd_token (f : token_st → token_st) (st : CIRCLE_state_st) := set_st_token (f (st_token st)) st.
Definition upd_request (f : request_st → request_st) (st : CIRCLE_state_st) :=
  set_st_request (f (st_request st)) st.
Definition upd_reduce (f : reduce_st → reduce_st) (st : CIRCLE_state_st) :=
  set_st_reduce (f (st_reduce st)) st.
Definition upd_barrier (f : barrier_st → barrier_st) (st : CIRCLE_state_st) :=
  set_st_barrier (f (st_barrier st)) st.
Definition upd_term (f : term_st → term_st) (st : CIRCLE_state_st) := set_st_term (f (st_term st)) st.
Definition upd_abort (f : abort_st → abort_st) (st : CIRCLE_state_st) := set_st_abort (f (st_abort st)) st.
Definition upd_profile (f : profile_st → profile_st) (st : CIRCLE_state_st) :=
  set_st_profile (f (st_profile st)) st.
