(* ===== verification/Mpi.v ===== *)
(** * One process's view of MPI

    The calls of a libcircle process as a protocol.  The ghost state is what
    a memory-safety and message argument about one process needs: the blocks
    that are allocated, the pending requests with the buffer each of them
    still reads, the messages the process has posted, and the messages that
    are going to reach it (all of them, in an order that respects each
    sender's order; MPI_Iprobe may report any of them late).

    A buffer may be freed, reallocated or reused for another send only when
    no pending request reads it; a request may be tested or waited for only
    while it is pending. *)
From S2P Require Import Prelude CMonad Heap.

(** A message posted to, or arriving from, a peer. *)
Record message : Type := Msg {
  m_peer : Z;
  m_tag : Z;
  m_data : payload;
}.

Record view : Type := View {
  v_live : gset Z;
  v_pending : gmap Z ptr;
  v_sent : list message;
  v_in : list message;
}.

Definition set_live (l : gset Z) (g : view) := View l (v_pending g) (v_sent g) (v_in g).
Definition post_request (r : Z) (b : ptr) (g : view) :=
  View (v_live g) (<[r := b]> (v_pending g)) (v_sent g) (v_in g).
Definition drop_request (r : Z) (g : view) :=
  View (v_live g) (delete r (v_pending g)) (v_sent g) (v_in g).
Definition log_sent (m : message) (g : view) :=
  View (v_live g) (v_pending g) (v_sent g ++ [m]) (v_in g).
Definition set_in (l : list message) (g : view) := View (v_live g) (v_pending g) (v_sent g) l.

Definition in_flight (g : view) (p : Z) : Prop := ∃ r, v_pending g !! r = Some (Some p).

(** The block may be written or given back. *)
Definition usable (g : view) (p : Z) : Prop := p ∈ v_live g ∧ ¬ in_flight g p.

(** The next message for a receive: the first one with the tag from the
    source, or, for MPI_ANY_SOURCE, one that is the first from its source. *)
Fixpoint take_first (src tag : Z) (l : list message) : option (payload * list message) :=
  match l with
  | [] => None
  | m :: l =>
      if (m_peer m =? src) && (m_tag m =? tag) then Some (m_data m, l)
      else match take_first src tag l with
           | Some (p, l') => Some (p, m :: l')
           | None => None
           end
  end.

Definition source_ok (want src : Z) : Prop := want = src ∨ want = MPI_ANY_SOURCE.

Definition pending_all (g : view) (rs : list request) : Prop :=
  ∀ r, Some r ∈ rs → is_Some (v_pending g !! r).

Fixpoint drop_all (rs : list request) (g : view) : view :=
  match rs with
  | [] => g
  | Some r :: rs => drop_all rs (drop_request r g)
  | None :: rs => drop_all rs g
  end.

Definition mpi_pre (g : view) (o : op) : Prop :=
  match o with
  | OMalloc _ | ORealloc None _ | OPagesize | ORand _ => True
  | OFree p | ORealloc (Some p) _ => usable g p
  | OIprobe _ _ | ORecv _ _ _ | OSend _ _ _ | OIssend _ _ _ | OIrecv _ _ => True
  | OIsend _ _ _ None => True
  | OIsend _ _ _ (Some b) => usable g b
  | OTest r | OWait r => is_Some (v_pending g !! r)
  | OTestall rs | OWaitall rs => pending_all g rs
  | OWtime => True
  | _ => False
  end.

Definition heap_view (oom : bool) (g : view) (o : op) (r : ans o) (g' : view) : Prop :=
  ∃ l, heap_post oom (v_live g) o r l ∧ g' = set_live l g.

Definition mpi_post (oom : bool) (g : view) (o : op) : ans o → view → Prop :=
  match o return ans o → view → Prop with
  | OMalloc n => heap_view oom g (OMalloc n)
  | ORealloc p n => heap_view oom g (ORealloc p n)
  | OFree p => heap_view oom g (OFree p)
  | OPagesize => heap_view oom g OPagesize
  | ORand s => heap_view oom g (ORand s)
  | OIprobe src tag => λ r g', g' = g ∧
      match r with
      | None => True
      | Some (s, n) => source_ok src s ∧ ∃ p l, take_first s tag (v_in g) = Some (p, l) ∧
                                              n = payload_count p
      end
  | ORecv src tag _ => λ r g', ∃ l, take_first src tag (v_in g) = Some (r, l) ∧ g' = set_in l g
  | OSend dst tag p => λ _ g', g' = log_sent (Msg dst tag p) g
  | OIsend dst tag p b => λ r g', v_pending g !! r = None ∧
      g' = post_request r b (log_sent (Msg dst tag p) g)
  | OIssend dst tag p => λ r g', v_pending g !! r = None ∧
      g' = post_request r None (log_sent (Msg dst tag p) g)
  | OIrecv _ _ => λ r g', v_pending g !! r = None ∧ g' = post_request r None g
  | OTest r => λ b g', g' = if b : bool then drop_request r g else g
  | OTestall rs => λ b g', g' = if b : bool then drop_all rs g else g
  | OWait r => λ _ g', g' = drop_request r g
  | OWaitall rs => λ _ g', g' = drop_all rs g
  | OWtime => λ _ g', g' = g
  | _ => λ _ _, False
  end.

Definition mpi (oom : bool) : protocol := {|
  ghost := view;
  pre := mpi_pre;
  post := mpi_post oom;
|}.

(** Code that only uses the C library, run inside an MPI process: no pending
    request reads a block it touches. *)
Definition undisturbed (l : gset Z) (g : view) : Prop := ∀ p, p ∈ l → usable g p.
