(* ===== verification/Sends.v ===== *)
(** * Outstanding non-blocking sends (CIRCLE_worksend_* of
    src/libcircle/token.c)

    A process never blocks in a send of the work transfer path: it keeps the
    request and the buffer of each posted send in two arrays until the send
    completes.  [sends_rep sn l]: the arrays hold the pairs [l]. *)
From S2P Require Import Prelude CMonad Mem Heap Mpi Wire Tree State.

Definition sizeof_request : Z := 8.
Definition sizeof_pointer : Z := 8.

Definition CIRCLE_worksend_track (sn : send_st) (req : request) (buf : ptr) : prog send_st :=
  sn ← (if send_count sn =? send_capacity sn then
          capacity ← (if 0 <? send_capacity sn then i32 (send_capacity sn * 2) else mret 32);
          reqs ← call (ORealloc (addr <$> send_reqs sn) (u64 (capacity * sizeof_request)));
          bufs ← call (ORealloc (addr <$> send_bufs sn) (u64 (capacity * sizeof_pointer)));
          match reqs, bufs with
          | Some pr, Some pb =>
              mret (mk_send_st (send_count sn) capacity
                      (Some (regrow (send_reqs sn) pr capacity))
                      (Some (regrow (send_bufs sn) pb capacity)))
          | _, _ => Stop (MPI_Aborted LIBCIRCLE_MPI_ERROR)
          end
        else mret sn);
  reqs ← deref (send_reqs sn);
  bufs ← deref (send_bufs sn);
  reqs ← deref (store reqs (send_count sn) req);
  bufs ← deref (store bufs (send_count sn) buf);
  n ← i32 (send_count sn + 1);
  mret (mk_send_st n (send_capacity sn) (Some reqs) (Some bufs)).

(** [MPI_Test(&r, &flag, ...)]: a null request is complete; a completed one
    is set to null. *)
Definition MPI_Test (r : request) : prog (bool * request) :=
  match r with
  | None => mret (true, None)
  | Some r => f ← call (OTest r); mret (f, if f : bool then None else Some r)
  end.

(** [CIRCLE_free(&p)] *)
Definition CIRCLE_free (p : ptr) : prog ptr :=
  match p with
  | Some p => _ ← call (OFree p); mret None
  | None => mret None
  end.

(** One round of the backwards walk, for slot [i]. *)
Definition worksend_slot (sn : send_st) (i : Z) : prog send_st :=
  reqs ← deref (send_reqs sn);
  bufs ← deref (send_bufs sn);
  r ← deref (load reqs i);
  '(f, r) ← MPI_Test r;
  reqs ← deref (store reqs i r);
  if f : bool then
    b ← deref (load bufs i);
    b ← CIRCLE_free b;
    bufs ← deref (store bufs i b);
    n ← i32 (send_count sn - 1);
    lr ← deref (load reqs n);
    reqs ← deref (store reqs i lr);
    lb ← deref (load bufs n);
    bufs ← deref (store bufs i lb);
    mret (mk_send_st n (send_capacity sn) (Some reqs) (Some bufs))
  else mret (set_send_reqs (Some reqs) sn).

(** [for(i = send_count - 1; i >= 0; i--)]; [n] rounds are left. *)
Fixpoint worksend_loop (n : nat) (sn : send_st) : prog send_st :=
  match n with
  | O => mret sn
  | S n => sn ← worksend_slot sn (Z.of_nat n); worksend_loop n sn
  end.

Definition CIRCLE_worksend_check (sn : send_st) : prog send_st :=
  worksend_loop (Z.to_nat (send_count sn)) sn.

(** Release the buffers of slots [i .. i + n - 1]. *)
Fixpoint worksend_release (n : nat) (i : Z) (bufs : block ptr) : prog (block ptr) :=
  match n with
  | O => mret bufs
  | S n =>
      b ← deref (load bufs i);
      b ← CIRCLE_free b;
      bufs ← deref (store bufs i b);
      worksend_release n (i + 1) bufs
  end.

Definition CIRCLE_worksend_wait (req : request) (sn : send_st) : prog (request * send_st) :=
  req ← (match req with
         | Some r => _ ← call (OWait r); mret None
         | None => mret None
         end : prog request);
  if 0 <? send_count sn then
    reqs ← deref (send_reqs sn);
    rs ← deref (load_list reqs 0 (send_count sn));
    _ ← call (OWaitall rs);
    reqs ← deref (store_list reqs 0 (map (λ _, None) rs));
    bufs ← deref (send_bufs sn);
    bufs ← worksend_release (Z.to_nat (send_count sn)) 0 bufs;
    mret (req, mk_send_st 0 (send_capacity sn) (Some reqs) (Some bufs))
  else mret (req, sn).

Definition CIRCLE_worksend_free (sn : send_st) : prog send_st :=
  _ ← CIRCLE_free (addr <$> send_reqs sn);
  _ ← CIRCLE_free (addr <$> send_bufs sn);
  mret (mk_send_st 0 0 None None).

(** ** Representation *)

Record sends_arrays (g : view) (sn : send_st) (l : list (Z * ptr)) : Prop := SendsArrays {
  sa_count : send_count sn = Z.of_nat (length l);
  sa_capacity : send_count sn ≤ send_capacity sn ≤ INT32_MAX;
  sa_cells :
    match send_reqs sn, send_bufs sn with
    | Some br, Some bb =>
        (cap br = send_capacity sn ∧ cap bb = send_capacity sn) ∧
        (addr br ≠ addr bb ∧ usable g (addr br) ∧ usable g (addr bb)) ∧
        ∀ i r b, l !! i = Some (r, b) →
          cells br !! Z.of_nat i = Some (Some r) ∧ cells bb !! Z.of_nat i = Some b
    | None, None => send_capacity sn = 0
    | _, _ => False
    end;
}.

(** The tracked requests are pending, each with its own allocated buffer. *)
Record sends_owned (g : view) (l : list (Z * ptr)) : Prop := SendsOwned {
  so_pending : ∀ r b, (r, b) ∈ l → v_pending g !! r = Some b;
  so_nodup : NoDup l.*1;
  so_flight : ∀ r p, v_pending g !! r = Some (Some p) → p ∈ v_live g;
  so_unique : ∀ r r' p, v_pending g !! r = Some (Some p) →
    v_pending g !! r' = Some (Some p) → r = r';
}.

Lemma so_live g l r p : sends_owned g l → (r, Some p) ∈ l → p ∈ v_live g.
Proof. intros Ho Hin. by eapply so_flight, so_pending. Qed.

(** What completing the sends [l] leaves of the ghost state. *)
Fixpoint complete_sends (l : list (Z * ptr)) (g : view) : view :=
  match l with
  | [] => g
  | (r, b) :: l =>
      let g := drop_request r g in
      complete_sends l (match b with Some p => set_live (v_live g ∖ {[p]}) g | None => g end)
  end.

Definition swap_remove {A} (l : list A) (i : nat) : list A :=
  match last l with
  | Some x => take (length l - 1) (<[i := x]> l)
  | None => []
  end.

Lemma swap_remove_perm {A} (l : list A) i x :
  l !! i = Some x → l ≡ₚ x :: swap_remove l i.
Proof.
  intros Hi. destruct l as [|y l _] using rev_ind; [done|]. unfold swap_remove.
  rewrite last_snoc, length_app. simpl. rewrite Nat.add_sub.
  destruct (decide (i = length l)) as [->|Hne].
  - rewrite list_lookup_middle in Hi by done. injection Hi as ->.
    rewrite insert_app_r_alt, Nat.sub_diag by lia. rewrite take_app_length.
    by rewrite Permutation_app_comm.
  - apply lookup_lt_Some in Hi as Hlt. rewrite length_app in Hlt. simpl in Hlt.
    rewrite lookup_app_l in Hi by lia. rewrite insert_app_l by lia.
    replace (take (length l) (<[i:=y]> l ++ [y])) with (<[i:=y]> l)
      by (rewrite take_app_le, take_ge by (rewrite length_insert; lia); done).
    apply list_elem_of_split_length in Hi as (a & b & -> & ->).
    rewrite insert_app_r_alt, Nat.sub_diag by lia. simpl.
    rewrite <-app_assoc. simpl. rewrite (Permutation_app_comm b [y]). simpl.
    by rewrite <-(Permutation_middle a (y :: b) x).
Qed.

Lemma swap_remove_length {A} (l : list A) i :
  (i < length l)%nat → length (swap_remove l i) = (length l - 1)%nat.
Proof.
  intros Hi. unfold swap_remove. destruct (last l) eqn:Hl.
  - rewrite length_take, length_insert. lia.
  - apply last_None in Hl. subst. simpl in Hi. lia.
Qed.

Lemma swap_remove_lookup {A} (l : list A) i j y :
  (i < length l)%nat → swap_remove l i !! j = Some y →
  (j < length l - 1)%nat ∧ ((j = i ∧ l !! (length l - 1)%nat = Some y) ∨ (j ≠ i ∧ l !! j = Some y)).
Proof.
  intros Hi Hj. apply lookup_lt_Some in Hj as Hlt. rewrite swap_remove_length in Hlt by done.
  split; [done|]. unfold swap_remove in Hj. destruct (last l) eqn:Hl; [|done].
  rewrite lookup_take_lt in Hj by done. rewrite last_lookup in Hl.
  destruct (decide (j = i)) as [->|Hne].
  - left. split; [done|]. rewrite list_lookup_insert_eq in Hj by done.
    rewrite <-Hj, <-Hl. f_equal. lia.
  - right. by rewrite list_lookup_insert_ne in Hj by done.
Qed.

#[global] Instance sends_owned_proper g : Proper ((≡ₚ) ==> iff) (sends_owned g).
Proof.
  intros l l' Hl. split; intros [H1 H2 H3 H4]; (split; [| |exact H3|exact H4]).
  - intros r b. rewrite <-Hl. apply H1.
  - by rewrite <-Hl.
  - intros r b. rewrite Hl. apply H1.
  - by rewrite Hl.
Qed.

Lemma complete_one_owned g r b l :
  sends_owned g ((r, b) :: l) → sends_owned (complete_sends [(r, b)] g) l.
Proof.
  intros [Hp Hn Hl Hu]. simpl in Hn. apply NoDup_cons in Hn as [Hr Hn].
  assert (∀ r' b', (r', b') ∈ l → r' ≠ r) as Hne.
  { intros r' b' Hin ->. apply Hr. apply list_elem_of_fmap. by exists (r, b'). }
  assert (v_pending (complete_sends [(r, b)] g) = delete r (v_pending g)) as Hpe by (by destruct b).
  split.
  - intros r' b' Hin. rewrite Hpe, lookup_delete_ne by (symmetry; eauto).
    apply Hp. by constructor.
  - done.
  - intros r' p. rewrite Hpe, lookup_delete_Some. intros [Hr' Hin].
    assert (p ∈ v_live g) by (by apply (Hl r')).
    destruct b as [q|]; simpl; [|done]. apply elem_of_difference. split; [done|].
    rewrite elem_of_singleton. intros ->. apply Hr'.
    apply (Hu r r' q); [apply Hp; by constructor|done].
  - intros r1 r2 p. rewrite Hpe, !lookup_delete_Some. intros [_ ?] [_ ?]. by apply (Hu r1 r2 p).
Qed.

Lemma usable_complete g r b p :
  usable g p → v_pending g !! r = Some b → usable (complete_sends [(r, b)] g) p.
Proof.
  intros [Hl Hf] Hr. assert (b ≠ Some p) as Hb.
  { intros ->. apply Hf. by exists r. }
  split.
  - destruct b as [q|]; simpl; [|done]. apply elem_of_difference. split; [done|].
    rewrite elem_of_singleton. congruence.
  - intros [r' Hr']. apply Hf. exists r'.
    assert (v_pending (complete_sends [(r, b)] g) = delete r (v_pending g)) as Hpe by (by destruct b).
    rewrite Hpe, lookup_delete_Some in Hr'. by destruct Hr'.
Qed.

Lemma sends_arrays_some g sn l i x :
  sends_arrays g sn l → l !! i = Some x →
  ∃ br bb, send_reqs sn = Some br ∧ send_bufs sn = Some bb ∧
    (cap br = send_capacity sn ∧ cap bb = send_capacity sn) ∧
    (addr br ≠ addr bb ∧ usable g (addr br) ∧ usable g (addr bb)) ∧
    ∀ i r b, l !! i = Some (r, b) →
      cells br !! Z.of_nat i = Some (Some r) ∧ cells bb !! Z.of_nat i = Some b.
Proof.
  intros [Hc Hcap Hcells] Hi. apply lookup_lt_Some in Hi.
  destruct (send_reqs sn) as [br|], (send_bufs sn) as [bb|]; try done; [eauto 10|lia].
Qed.

(** Release of a buffer that no request reads. *)
Lemma CIRCLE_free_wp oom b (g : view) (Q : view → ptr → Prop) E :
  (∀ p, b = Some p → usable g p) →
  Q (match b with Some p => set_live (v_live g ∖ {[p]}) g | None => g end) None →
  wp (mpi oom) (CIRCLE_free b) Q E g.
Proof.
  intros Hu HQ. destruct b as [p|]; cbn; [|done]. split; [by apply Hu|].
  intros [] g' (l & Hl & ->). cbn in Hl. by subst l.
Qed.

(** The arrays stay where they are. *)
Definition same_arrays (sn sn' : send_st) : Prop :=
  addr <$> send_reqs sn' = addr <$> send_reqs sn ∧ addr <$> send_bufs sn' = addr <$> send_bufs sn.

#[export] Instance same_arrays_preorder : PreOrder same_arrays.
Proof. split; [by intros sn|]. intros sn1 sn2 sn3 [] []. split; by etrans. Qed.

(** ** What MPI_Test reports

    MPI with a say on the answers of MPI_Test: it reports [b] for request [r]
    only if [D r b]. *)
Definition test_answer (D : Z → bool → Prop) (o : op) : ans o → Prop :=
  match o return ans o → Prop with OTest r => λ b, D r b | _ => λ _, True end.

Definition mpi_tests (D : Z → bool → Prop) (oom : bool) : protocol := {|
  ghost := view;
  pre := mpi_pre;
  post := λ g o r g', mpi_post oom g o r g' ∧ test_answer D o r;
|}.

(** A request is complete, or not, from start to end of the function. *)
Definition reported (done : Z → bool) (r : Z) (b : bool) : Prop := b = done r.

Lemma mpi_tests_wp D oom {A} (t : prog A) Q E g : wp (mpi oom) t Q E g → wp (mpi_tests D oom) t Q E g.
Proof.
  revert g. induction t as [a|e|o k IH]; intros g; [done..|]. intros [Hp Hk].
  split; [exact Hp|]. intros r g' [Hr _]. by apply IH, Hk.
Qed.

Lemma mpi_any_wp oom {A} (t : prog A) Q E g :
  wp (mpi_tests (λ _ _, True) oom) t Q E g → wp (mpi oom) t Q E g.
Proof.
  revert g. induction t as [a|e|o k IH]; intros g; [done..|]. intros [Hp Hk].
  split; [exact Hp|]. intros r g' Hr. apply IH, Hk. split; [exact Hr|]. by destruct o.
Qed.

Lemma slot_wp D oom g sn l i r b :
  sends_arrays g sn l → sends_owned g l → l !! i = Some (r, b) →
  wp (mpi_tests D oom) (worksend_slot sn (Z.of_nat i))
    (λ g' sn', same_arrays sn sn' ∧
       ((D r false ∧ g' = g ∧ sends_arrays g' sn' l) ∨
        (D r true ∧ g' = complete_sends [(r, b)] g ∧ sends_arrays g' sn' (swap_remove l i))))
    (λ _ _, False) g.
Proof.
  intros Ha Ho Hi. pose proof (lookup_lt_Some _ _ _ Hi) as Hlt.
  destruct (sends_arrays_some _ _ _ _ _ Ha Hi) as (br & bb & Hbr & Hbb & [Hc1 Hc2] & Hus & Hcells).
  destruct Ha as [Hcount Hcap _]. destruct (Hcells _ _ _ Hi) as [Hr Hb].
  pose proof (so_pending _ _ Ho r b (list_elem_of_lookup_2 _ _ _ Hi)) as Hpend.
  unfold worksend_slot. rewrite Hbr, Hbb. cbn -[load store].
  rewrite (load_ok br _ (Some r)) by (lia || done). cbn -[load store].
  split; [by eexists|]. intros [] g' [-> HD]; cbn -[load store]; unfold store;
    rewrite store_list_ok by (simpl; lia); cbn -[load store_list].
  2: { split; [split; simpl; by rewrite ?Hbr, ?Hbb|]. left. split; [exact HD|]. split; [done|]. split; simpl; [done|lia|]. rewrite Hbb. simpl.
       split; [done|]. split; [done|]. intros j r' b' Hj. destruct (Hcells _ _ _ Hj) as [Hrj Hbj].
       split; [|done]. rewrite lookup_insert. case_decide; [|done].
       by assert (j = i) as -> by lia; simplify_eq. }
  rewrite (load_ok bb _ b) by (lia || done). cbn -[load store_list].
  apply wp_seq, mpi_tests_wp, CIRCLE_free_wp.
  { intros p ->. split; [apply (so_live _ _ r p Ho); by eapply list_elem_of_lookup_2|].
    intros [r' Hr']. simpl in Hr'. apply lookup_delete_Some in Hr' as [Hne Hr'].
    by apply Hne, (so_unique _ _ Ho r r' p). }
  rewrite store_list_ok by (simpl; lia). cbn -[load store_list]. wp_i32.
  destruct (lookup_lt_is_Some_2 l (length l - 1)) as [[rl bl] Hlast]; [lia|].
  destruct (Hcells _ _ _ Hlast) as [Hrl Hbl].
  assert (Z.of_nat (length l - 1) = send_count sn - 1) as Hn by lia. rewrite Hn in Hrl, Hbl.
  set (lr := if decide (Z.of_nat i = send_count sn - 1) then None else Some rl).
  set (lb := if decide (Z.of_nat i = send_count sn - 1) then None else bl).
  rewrite (load_ok (Block (addr br) _ _) _ lr); [|simpl; lia|]; cycle 1.
  { simpl. subst lr. rewrite lookup_insert. repeat case_decide; done. }
  cbn -[load store_list]. rewrite store_list_ok by (simpl; lia). cbn -[load store_list].
  rewrite (load_ok (Block (addr bb) _ _) _ lb); [|simpl; lia|]; cycle 1.
  { simpl. subst lb. rewrite lookup_insert. repeat case_decide; done. }
  cbn -[load store_list]. rewrite store_list_ok by (simpl; lia). cbn -[load store_list].
  split; [split; simpl; by rewrite ?Hbr, ?Hbb|].
  right. split; [exact HD|]. split; [by destruct b|].
  assert (∀ p, usable g p → usable (complete_sends [(r, b)] g) p) as Hu
    by (intros p Hp; by apply usable_complete).
  destruct b; (split; simpl; [rewrite swap_remove_length by done; lia|lia|]);
    (split; [done|]); (split; [naive_solver|]); intros j r' b' Hj;
    apply swap_remove_lookup in Hj as [Hjlt Hj]; try done; subst lr lb;
    rewrite !lookup_insert; destruct Hj as [[-> Hj]|[Hne Hj]];
    repeat case_decide; try lia; try done; try (by apply Hcells); simplify_eq; done.
Qed.

(** ** Reaping completed sends *)

(** The slots from [n] on have been tested already. *)
Lemma worksend_loop_wp D oom n g sn l :
  sends_arrays g sn l → sends_owned g l → (n ≤ length l)%nat →
  (∀ j r b, (n ≤ j)%nat → l !! j = Some (r, b) → D r false) →
  wp (mpi_tests D oom) (worksend_loop n sn)
    (λ g' sn', ∃ fin rest, l ≡ₚ fin ++ rest ∧ Forall (λ x, D x.1 true) fin ∧ Forall (λ x, D x.1 false) rest ∧
       g' = complete_sends fin g ∧ sends_arrays g' sn' rest ∧ sends_owned g' rest ∧ same_arrays sn sn')
    (λ _ _, False) g.
Proof.
  revert g sn l. induction n as [|n IH]; intros g sn l Ha Ho Hn Hdone; cbn [worksend_loop].
  - exists [], l. split; [done|]. split; [constructor|]. split; [|done].
    apply Forall_lookup. intros j [r b] Hj. eapply (Hdone j); [lia|done].
  - destruct (lookup_lt_is_Some_2 l n) as [[r b] Hi]; [lia|].
    apply wp_seq. eapply wp_post, slot_wp; [|done..].
    intros g1 sn1 [Hsa [(HD & -> & Ha1)|(HD & Hg1 & Ha1)]].
    + eapply wp_post, IH; [|done|done|lia|].
      { intros g2 sn2 (fin & rest & Hl & Hf & Hr & Hg2 & Ha2 & Ho2 & Hs2). exists fin, rest.
        repeat (split; [done|]). by etrans. }
      intros j r' b' Hj Hr'. destruct (decide (j = n)) as [->|]; [congruence|]. eapply Hdone, Hr'. lia.
    + pose proof (swap_remove_perm _ _ _ Hi) as Hp.
      assert (sends_owned g1 (swap_remove l n)) as Ho1.
      { subst g1. apply complete_one_owned. by rewrite <-Hp. }
      eapply wp_post, IH; [|done|done|rewrite swap_remove_length; lia|].
      { intros g2 sn2 (fin & rest & Hl & Hf & Hr & -> & Ha2 & Ho2 & Hs2).
        exists ((r, b) :: fin), rest. split; [by rewrite Hp, Hl|]. split; [by constructor|]. split; [done|].
        subst g1. split; [by destruct b|]. repeat (split; [done|]). by etrans. }
      intros j r' b' Hj Hr'. apply swap_remove_lookup in Hr' as [Hlt [[-> Hr']|[Hne Hr']]]; [| |lia];
        (eapply Hdone, Hr'; lia).
Qed.

Lemma check_tests_wp D oom g sn l :
  sends_arrays g sn l → sends_owned g l →
  wp (mpi_tests D oom) (CIRCLE_worksend_check sn)
    (λ g' sn', ∃ fin rest, l ≡ₚ fin ++ rest ∧ Forall (λ x, D x.1 true) fin ∧ Forall (λ x, D x.1 false) rest ∧
       g' = complete_sends fin g ∧ sends_arrays g' sn' rest ∧ sends_owned g' rest ∧ same_arrays sn sn')
    (λ _ _, False) g.
Proof.
  intros Ha Ho. unfold CIRCLE_worksend_check. rewrite (sa_count _ _ _ Ha), Nat2Z.id.
  apply worksend_loop_wp; [done..|]. intros j r b Hj Hr%lookup_lt_Some. lia.
Qed.

Lemma check_wp oom g sn l :
  sends_arrays g sn l → sends_owned g l →
  wp (mpi oom) (CIRCLE_worksend_check sn)
    (λ g' sn', ∃ fin rest, l ≡ₚ fin ++ rest ∧ g' = complete_sends fin g ∧
       sends_arrays g' sn' rest ∧ sends_owned g' rest ∧ same_arrays sn sn')
    (λ _ _, False) g.
Proof.
  intros Ha Ho. eapply mpi_any_wp, wp_post, check_tests_wp; [|done..].
  intros g' sn' (fin & rest & ? & _ & _ & ?). by exists fin, rest.
Qed.

Lemma filter_all {A} (f : A → bool) b l : Forall (λ x, b = f x) l → filter (λ x, f x = b) l = l.
Proof. induction 1 as [|x l Hx _ IH]; [done|]. by rewrite filter_cons_True, IH. Qed.

Lemma filter_none {A} (f : A → bool) b l : Forall (λ x, negb b = f x) l → filter (λ x, f x = b) l = [].
Proof. induction 1 as [|x l Hx _ IH]; [done|]. rewrite filter_cons_False, IH; [done|]. rewrite <-Hx. by destruct b. Qed.

(** A list whose parts are told apart by a test is divided by it. *)
Lemma divided {A} (f : A → bool) l fin rest :
  l ≡ₚ fin ++ rest → Forall (λ x, true = f x) fin → Forall (λ x, false = f x) rest →
  fin ≡ₚ filter (λ x, f x = true) l ∧ rest ≡ₚ filter (λ x, f x = false) l.
Proof.
  intros Hl Hf Hr. rewrite Hl, !filter_app, (filter_all f true fin), (filter_none f true rest) by done.
  by rewrite (filter_none f false fin), (filter_all f false rest), app_nil_r by done.
Qed.

(** C17 CIRCLE_worksend_check asks MPI about every tracked send and drops
    exactly those that are complete ([done]): the buffer of each of them is
    freed once, while no request reads it, and each of the others keeps its
    request and its buffer; the count is the number of these. *)
Theorem worksend_check_reaps done oom g sn l :
  sends_arrays g sn l → sends_owned g l →
  wp (mpi_tests (reported done) oom) (CIRCLE_worksend_check sn)
    (λ g' sn', ∃ fin rest,
       fin ≡ₚ filter (λ x, done x.1 = true) l ∧ rest ≡ₚ filter (λ x, done x.1 = false) l ∧
       g' = complete_sends fin g ∧ sends_arrays g' sn' rest ∧ sends_owned g' rest)
    (λ _ _, False) g.
Proof.
  intros Ha Ho. eapply wp_post, check_tests_wp; [|done..].
  intros g' sn' (fin & rest & Hl & Hf & Hr & Hg' & Ha' & Ho' & _).
  destruct (divided (λ x, done x.1) l fin rest) as [Hfin Hrest]; [done..|]. by exists fin, rest.
Qed.

(** ** Waiting for all of them *)

Definition bufs_of (l : list (Z * ptr)) : gset Z := list_to_set (omap snd l).

Lemma complete_sends_eq l g :
  complete_sends l g = View (v_live g ∖ bufs_of l) (foldr delete (v_pending g) (rev l.*1))
                         (v_sent g) (v_in g).
Proof.
  revert g. induction l as [|[r b] l IH]; intros g; simpl.
  - destruct g. f_equal. unfold bufs_of. simpl. by rewrite difference_empty_L.
  - rewrite IH, foldr_app. simpl. destruct b as [p|]; simpl; f_equal; unfold bufs_of; simpl; set_solver.
Qed.

Lemma drop_all_eq (l : list (Z * ptr)) g :
  drop_all (map Some l.*1) g = View (v_live g) (foldr delete (v_pending g) (rev l.*1))
                                 (v_sent g) (v_in g).
Proof.
  revert g. induction l as [|[r b] l IH]; intros g; simpl; [by destruct g|].
  rewrite IH, foldr_app. done.
Qed.

Lemma foldr_delete_lookup {A} (m : gmap Z A) ks k x :
  foldr delete m ks !! k = Some x → m !! k = Some x ∧ k ∉ ks.
Proof.
  induction ks as [|k' ks IH]; simpl; [set_solver|].
  rewrite lookup_delete_Some. intros [? ?%IH]. set_solver.
Qed.

Lemma release_wp oom l i bufs g (Q : view → block ptr → Prop) E :
  0 ≤ i → i + Z.of_nat (length l) ≤ cap bufs →
  (∀ j (r : Z) b, l !! j = Some (r, b) → cells bufs !! (i + Z.of_nat j) = Some b) →
  NoDup (omap snd l) → (∀ p, p ∈ omap snd l → usable g p) →
  (∀ bufs', addr bufs' = addr bufs → cap bufs' = cap bufs →
     Q (set_live (v_live g ∖ bufs_of l) g) bufs') →
  wp (mpi oom) (worksend_release (length l) i bufs) Q E g.
Proof.
  revert i bufs g. induction l as [|[r b] l IH]; intros i bufs g Hi Hcap Hcells Hnd Hu HQ;
    cbn [worksend_release length].
  - assert (set_live (v_live g ∖ bufs_of []) g = g) as Hg.
    { destruct g. unfold set_live, bufs_of. simpl. by rewrite difference_empty_L. }
    rewrite <-Hg at 1. by apply HQ.
  - simpl in Hcap. pose proof (Hcells 0%nat r b eq_refl) as H0. rewrite Z.add_0_r in H0.
    rewrite (load_ok bufs i b) by (lia || done). cbn -[store].
    apply wp_seq, CIRCLE_free_wp; [intros p ->; apply Hu; simpl; by constructor|].
    unfold store. rewrite store_list_ok by (simpl; lia). cbn [deref mbind prog_mbind prog_bind].
    apply IH.
    + lia.
    + simpl. lia.
    + intros j r' b' Hj. simpl. rewrite lookup_insert_ne by lia.
      rewrite <-(Hcells (S j) r' b' Hj). f_equal. lia.
    + destruct b; simpl in Hnd; [|done]. by apply NoDup_cons in Hnd as [_ ?].
    + intros p Hp. destruct b as [q|]; simpl in Hnd, Hu; [|by apply Hu].
      apply NoDup_cons in Hnd as [Hq Hnd]. destruct (Hu p) as [Hl Hf]; [by constructor|].
      split; [|done]. simpl. apply elem_of_difference. split; [done|].
      rewrite elem_of_singleton. by intros ->.
    + intros bufs' Ha' Hc'. simpl in *. specialize (HQ bufs').
      destruct b as [q|]; simpl in *; unfold bufs_of in *; simpl in *; [|by apply HQ].
      replace (v_live g ∖ {[q]} ∖ list_to_set (omap snd l))
        with (v_live g ∖ ({[q]} ∪ list_to_set (omap snd l))) by set_solver.
      by apply HQ.
Qed.

Lemma owned_bufs_nodup g l : sends_owned g l → NoDup (omap snd l).
Proof.
  induction l as [|[r b] l IH]; intros Ho; simpl; [constructor|].
  pose proof Ho as [Hp Hn Hl Hu].
  assert (sends_owned g l) as Ho'.
  { split; [intros; apply Hp; by constructor|by apply NoDup_cons in Hn as [_ ?]
           |done|done]. }
  destruct b as [q|]; [|by apply IH]. apply NoDup_cons. split; [|by apply IH].
  rewrite list_elem_of_omap. intros ([r' b'] & Hin & Hb). simpl in Hb. subst b'.
  simpl in Hn. apply NoDup_cons in Hn as [Hr _]. apply Hr.
  assert (r = r') as ->; [|apply list_elem_of_fmap; by exists (r', Some q)].
  apply (Hu r r' q); apply Hp; by constructor.
Qed.

Lemma owned_drop g l r :
  sends_owned g l → r ∉ l.*1 → sends_owned (drop_request r g) l.
Proof.
  intros [Hp Hn Hl Hu] Hr. split; simpl; try done.
  - intros r' b Hin. rewrite lookup_delete_ne; [by apply Hp|].
    intros ->. apply Hr, list_elem_of_fmap. by exists (r', b).
  - intros r1 p. rewrite lookup_delete_Some. intros [_ ?]. by apply (Hl r1).
  - intros r1 r2 p. rewrite !lookup_delete_Some. intros [_ ?] [_ ?]. by apply (Hu r1 r2 p).
Qed.

Lemma arrays_drop g sn l r : sends_arrays g sn l → sends_arrays (drop_request r g) sn l.
Proof.
  intros [Hc Hcap Hcells]. split; [done|done|].
  destruct (send_reqs sn), (send_bufs sn); try done.
  destruct Hcells as (? & (? & [? Hf1] & [? Hf2]) & ?).
  split; [done|]. split; [|done]. split; [done|].
  split; (split; [done|]); intros [r' Hr']; simpl in Hr';
    apply lookup_delete_Some in Hr' as [_ Hr']; [apply Hf1|apply Hf2]; by exists r'.
Qed.

(** The slots of the request array that are in use. *)
Lemma load_requests g sn l br :
  sends_arrays g sn l → send_reqs sn = Some br →
  load_list br 0 (send_count sn) = Some (map Some l.*1).
Proof.
  intros [Hc Hcap Hcells] Hbr. rewrite Hbr in Hcells.
  destruct (send_bufs sn) as [bb|]; [|done]. destruct Hcells as ([Hc1 _] & _ & Hcells).
  unfold load_list, in_block. rewrite (proj2 (Z.leb_le 0 0)), (proj2 (Z.leb_le _ (cap br))) by lia.
  simpl. rewrite Hc, Nat2Z.id.
  replace (length l) with (length (map Some l.*1)) by (by rewrite length_map, length_fmap).
  apply read_cells_intro. intros i x Hi.
  rewrite list_lookup_fmap, list_lookup_fmap in Hi.
  destruct (l !! i) as [[r b]|] eqn:Hl; [|done]. simpl in Hi. injection Hi as <-.
  rewrite Z.add_0_l. by apply (Hcells i r b).
Qed.

Lemma wait_wp oom g sn l req :
  sends_arrays g sn l → sends_owned g l →
  (∀ r, req = Some r → is_Some (v_pending g !! r) ∧ r ∉ l.*1) →
  wp (mpi oom) (CIRCLE_worksend_wait req sn)
    (λ g' '(req', sn'), req' = None ∧ same_arrays sn sn' ∧ sends_arrays g' sn' [] ∧
       g' = complete_sends l (match req with Some r => drop_request r g | None => g end))
    (λ _ _, False) g.
Proof.
  intros Ha Ho Hreq. unfold CIRCLE_worksend_wait. apply wp_seq.
  set (g1 := match req with Some r => drop_request r g | None => g end).
  assert (sends_arrays g1 sn l ∧ sends_owned g1 l) as [Ha1 Ho1].
  { subst g1. destruct req as [r|]; [|done]. destruct (Hreq r eq_refl).
    split; [by apply arrays_drop|by apply owned_drop]. }
  assert (∀ Q : view → request → Prop, Q g1 None →
    wp (mpi oom) (match req with Some r => _ ← call (OWait r); mret None | None => mret None end
      : prog request) Q (λ _ _, False) g) as Hwait.
  { intros Q HQ. destruct req as [r|]; [|done]. destruct (Hreq r eq_refl) as [? _].
    cbn. split; [done|]. intros [] g' ->. done. }
  apply Hwait. clear Hwait Hreq Ha Ho. pose proof Ha1 as [Hc Hcap Hcells].
  destruct l as [|[r0 b0] l'] eqn:Hl.
  { rewrite Hc. simpl. do 3 (split; [done|]). by destruct g1. }
  rewrite <-Hl in *. assert (0 < send_count sn) by (rewrite Hc, Hl; simpl; lia).
  rewrite (proj2 (Z.ltb_lt 0 _)) by done.
  destruct (sends_arrays_some _ _ _ 0%nat (r0, b0) Ha1 ltac:(by rewrite Hl))
    as (br & bb & Hbr & Hbb & [Hc1 Hc2] & (Hne & Hu1 & Hu2) & Hcl).
  rewrite Hbr. cbn -[load_list store_list]. rewrite (load_requests _ _ _ _ Ha1 Hbr).
  cbn -[load_list store_list map]. split.
  { intros r Hr. apply list_elem_of_fmap in Hr as (r' & [= <-] & Hr).
    apply list_elem_of_fmap in Hr as ([r1 b1] & -> & Hr). eexists. by eapply so_pending. }
  intros [] g2 ->. rewrite drop_all_eq. set (g2 := View _ _ _ _).
  assert (∀ p, usable g1 p → usable g2 p) as Hus.
  { intros p [Hlv Hf]. split; [done|]. intros [r Hr]. apply Hf. exists r.
    by apply foldr_delete_lookup in Hr as [? _]. }
  rewrite store_list_ok by (rewrite ?length_map, ?length_fmap; lia).
  rewrite Hbb. cbn [deref mbind prog_mbind prog_bind]. apply wp_seq. rewrite Hc, Nat2Z.id.
  apply release_wp; [lia|lia|intros; rewrite Z.add_0_l; by eapply Hcl|by eapply owned_bufs_nodup| |].
  - intros p ([r1 b1] & Hin & Hb)%list_elem_of_omap. simpl in Hb. subst b1.
    split; [by apply (so_live _ _ r1 p Ho1)|]. intros [r2 Hr2]. simpl in Hr2.
    apply foldr_delete_lookup in Hr2 as [Hr2 Hnin]. apply Hnin, list_elem_of_In, in_rev. rewrite rev_involutive. apply list_elem_of_In.
    rewrite <-(so_unique _ _ Ho1 r1 r2 p (so_pending _ _ Ho1 _ _ Hin) Hr2).
    apply list_elem_of_fmap. by exists (r1, Some p).
  - intros bufs' Ha' Hc'. cbn. split; [done|]. split; [split; cbn; by rewrite ?Hbr, ?Hbb, ?Ha'|].
    rewrite complete_sends_eq. split; [|done].
    assert (∀ p, usable g1 p → p ∉ bufs_of l → usable (set_live (v_live g2 ∖ bufs_of l) g2) p) as Hu'.
    { intros p Hp Hn. destruct (Hus p Hp) as [Hlv Hf]. split; [simpl; set_solver|done]. }
    assert (∀ p, usable g1 p → p ∉ bufs_of l) as Hnb.
    { intros p [_ Hf] Hin. unfold bufs_of in Hin.
      apply elem_of_list_to_set, list_elem_of_omap in Hin as ([r1 b1] & Hin & Hb).
      simpl in Hb. subst b1. apply Hf. exists r1. by apply (so_pending _ _ Ho1). }
    split; simpl; [done|lia|]. rewrite Ha', Hc'. split; [done|].
    split; [|intros i r b Hi; done].
    split; [done|]. split; apply Hu'; auto.
Qed.

(** C25 CIRCLE_worksend_wait waits for the work request and for every
    tracked send, then frees each buffer exactly once and leaves no send
    outstanding. *)
Theorem worksend_wait_drains oom g sn l req :
  sends_arrays g sn l → sends_owned g l →
  (∀ r, req = Some r → is_Some (v_pending g !! r) ∧ r ∉ l.*1) →
  wp (mpi oom) (CIRCLE_worksend_wait req sn)
    (λ g' '(req', sn'), req' = None ∧ sends_arrays g' sn' [] ∧
       g' = complete_sends l (match req with Some r => drop_request r g | None => g end))
    (λ _ _, False) g.
Proof.
  intros Ha Ho Hr. eapply wp_post, wait_wp; [|done..].
  by intros g' [req' sn'] (? & _ & ? & ?).
Qed.

(** ** Tracking a send *)

(** The blocks a process needs for other purposes survive. *)
Definition array_block (sn : send_st) (p : Z) : Prop :=
  (addr <$> send_reqs sn) = Some p ∨ (addr <$> send_bufs sn) = Some p.

Lemma track_write_wp P (g : ghost P) sn br bb r b (Q : ghost P → send_st → Prop) E :
  send_reqs sn = Some br → send_bufs sn = Some bb →
  cap br = send_capacity sn → cap bb = send_capacity sn →
  0 ≤ send_count sn < send_capacity sn → send_capacity sn ≤ INT32_MAX →
  Q g (mk_send_st (send_count sn + 1) (send_capacity sn)
         (Some (Block (addr br) (cap br) (<[send_count sn := r]> (cells br))))
         (Some (Block (addr bb) (cap bb) (<[send_count sn := b]> (cells bb))))) →
  wp P (reqs ← deref (send_reqs sn);
        bufs ← deref (send_bufs sn);
        reqs ← deref (store reqs (send_count sn) r);
        bufs ← deref (store bufs (send_count sn) b);
        n ← i32 (send_count sn + 1);
        mret (mk_send_st n (send_capacity sn) (Some reqs) (Some bufs))) Q E g.
Proof.
  intros Hbr Hbb Hc1 Hc2 Hn Hmax HQ. rewrite Hbr, Hbb. cbn -[store]. unfold store.
  rewrite store_list_ok by (simpl; lia). cbn -[store_list].
  rewrite store_list_ok by (simpl; lia). cbn. wp_i32. exact HQ.
Qed.

(** A realloc inside an MPI process. *)
Lemma realloc_wp oom (old : ptr) n (g : view) (Q : view → ptr → Prop) E :
  (∀ p, old = Some p → usable g p) →
  (oom = true → Q g None) →
  (∀ p, p ∉ without old (v_live g) → Q (set_live ({[p]} ∪ without old (v_live g)) g) (Some p)) →
  wp (mpi oom) (call (ORealloc old n)) Q E g.
Proof.
  intros Hu HN HS. cbn. split; [destruct old; [by apply Hu|done]|].
  intros [p|] g' (live & Hl & ->); cbn in Hl.
  - destruct Hl as (Hp & -> & _). by apply HS.
  - destruct Hl as (-> & ->). assert (set_live (v_live g) g = g) as -> by (by destruct g). by apply HN.
Qed.

(** The growing branch of worksend_track. *)
Lemma track_grow_wp oom g sn l capacity (Q : view → send_st → Prop) (E : view → stop → Prop) :
  sends_arrays g sn l → (∀ r p, v_pending g !! r = Some (Some p) → p ∈ v_live g) →
  send_count sn < capacity ≤ INT32_MAX → (∀ g, oom = true → E g (MPI_Aborted LIBCIRCLE_MPI_ERROR)) →
  (∀ g' sn', sends_arrays g' sn' l → send_count sn' = send_count sn → send_capacity sn' = capacity →
     v_pending g' = v_pending g → v_sent g' = v_sent g → v_in g' = v_in g →
     (∀ p, p ∈ v_live g → ¬ array_block sn p → p ∈ v_live g') →
     (∀ p, array_block sn' p → array_block sn p ∨ p ∉ v_live g) → Q g' sn') →
  wp (mpi oom)
    (reqs ← call (ORealloc (addr <$> send_reqs sn) (u64 (capacity * sizeof_request)));
     bufs ← call (ORealloc (addr <$> send_bufs sn) (u64 (capacity * sizeof_pointer)));
     match reqs, bufs with
     | Some pr, Some pb =>
         mret (mk_send_st (send_count sn) capacity
                 (Some (regrow (send_reqs sn) pr capacity))
                 (Some (regrow (send_bufs sn) pb capacity)))
     | _, _ => Stop (MPI_Aborted LIBCIRCLE_MPI_ERROR)
     end) Q E g.
Proof.
  intros [Hc Hcap Hcells] Hfl Hcapacity HE HQ.
  assert (∀ p, array_block sn p → usable g p) as Hau.
  { intros p Hp. unfold array_block in Hp. destruct (send_reqs sn), (send_bufs sn); try done;
      simpl in Hp; [|by destruct Hp].
    destruct Hcells as (_ & (_ & ? & ?) & _). destruct Hp as [[= <-]|[= <-]]; done. }
  assert (∀ p q, (addr <$> send_reqs sn) = Some p → (addr <$> send_bufs sn) = Some q → p ≠ q) as Hne.
  { intros p q Hp Hq. destruct (send_reqs sn), (send_bufs sn); try done. simpl in *.
    destruct Hcells as (_ & (? & _) & _). congruence. }
  apply wp_seq, realloc_wp; [intros p Hp; apply Hau; by left| |].
  { intros ->. apply wp_seq. set (bu := send_bufs sn) in *.
    apply realloc_wp; [intros p Hp; apply Hau; by right|intros _; by apply HE|].
    intros p _. by apply HE. }
  intros pr Hpr. set (g1 := set_live _ g). rewrite elem_of_without in Hpr.
  apply wp_seq, realloc_wp.
  - intros q Hq. destruct (Hau q ltac:(by right)) as [Hl Hf]. split; [|done]. simpl.
    apply elem_of_union_r, elem_of_without. split; [done|]. intros Hp. by apply (Hne q q).
  - intros ->. by apply HE.
  - intros pb Hpb. set (g2 := set_live _ g1). cbn beta iota.
    rewrite elem_of_without in Hpb. simpl in Hpb.
    rewrite elem_of_union, elem_of_singleton, elem_of_without in Hpb.
    assert (∀ p, p ∈ v_live g2 ↔ p = pb ∨ (p = pr ∨ p ∈ v_live g ∧ (addr <$> send_reqs sn) ≠ Some p) ∧
       (addr <$> send_bufs sn) ≠ Some p) as Hlive.
    { intros p. simpl. rewrite elem_of_union, elem_of_without, elem_of_union, elem_of_without.
      by rewrite !elem_of_singleton. }
    assert ((addr <$> send_bufs sn) ≠ Some pr) as Hprb.
    { intros Hp. destruct (Hau pr ltac:(by right)) as [Hl _]. apply Hpr. split; [done|].
      intros Hp'. by apply (Hne pr pr). }
    assert (∀ p, in_flight g2 p → p ∈ v_live g ∧ ¬ array_block sn p) as Hif.
    { intros p [r Hr]. simpl in Hr. split; [by eapply Hfl|].
      intros [_ Hn]%Hau. apply Hn. by exists r. }
    unfold array_block in Hif.
    apply HQ; try done.
    + split; simpl; [done|lia|]. split; [done|]. split.
      * split; [intros ->; apply Hpb; tauto|]. split; (split; [apply Hlive; tauto|]);
          intros Hf%Hif; tauto.
      * intros i r b Hi. destruct (send_reqs sn), (send_bufs sn); simpl; try done.
        -- by apply Hcells.
        -- apply lookup_lt_Some in Hi. lia.
    + intros p Hp Hn. unfold array_block in Hn. apply Hlive. tauto.
    + unfold array_block. simpl. intros p [[= <-]|[= <-]];
        [destruct (decide (pr ∈ v_live g))|destruct (decide (pb ∈ v_live g))]; try (by right);
        left; [destruct (decide ((addr <$> send_reqs sn) = Some pr)); tauto|].
      destruct (decide ((addr <$> send_reqs sn) = Some pb)), (decide ((addr <$> send_bufs sn) = Some pb));
        tauto.
Qed.

Lemma track_wp oom g sn l r b :
  sends_arrays g sn l → sends_owned g (l ++ [(r, b)]) → 2 * send_capacity sn ≤ INT32_MAX →
  wp (mpi oom) (CIRCLE_worksend_track sn (Some r) b)
    (λ g' sn', sends_arrays g' sn' (l ++ [(r, b)]) ∧ sends_owned g' (l ++ [(r, b)]) ∧
       v_pending g' = v_pending g ∧ v_sent g' = v_sent g ∧ v_in g' = v_in g ∧
       (∀ p, p ∈ v_live g → ¬ array_block sn p → p ∈ v_live g') ∧
       (∀ p, array_block sn' p → array_block sn p ∨ p ∉ v_live g) ∧
       send_capacity sn' ≤ Z.max 32 (2 * send_capacity sn))
    (λ _ e, oom = true ∧ e = MPI_Aborted LIBCIRCLE_MPI_ERROR) g.
Proof.
  intros Ha Ho Hmax. pose proof Ha as [Hc Hcap Hcells].
  unfold CIRCLE_worksend_track. apply wp_seq.
  set (Q1 := λ (g' : view) (sn' : send_st), sends_arrays g' sn' l ∧ send_count sn' = send_count sn ∧
    send_count sn < send_capacity sn' ≤ INT32_MAX ∧ v_pending g' = v_pending g ∧
    v_sent g' = v_sent g ∧ v_in g' = v_in g ∧
    (∀ p, p ∈ v_live g → ¬ array_block sn p → p ∈ v_live g') ∧
    (∀ p, array_block sn' p → array_block sn p ∨ p ∉ v_live g) ∧
    send_capacity sn' ≤ Z.max 32 (2 * send_capacity sn)).
  apply (wp_post (mpi oom) _ Q1).
  - intros g1 sn1 (Ha1 & Hn1 & Hcap1 & Hp1 & Hs1 & Hi1 & Hl1 & Hab1 & Hm1).
    pose proof Ha1 as [Hc1 _ Hcells1].
    destruct (send_reqs sn1) as [br|] eqn:Hbr, (send_bufs sn1) as [bb|] eqn:Hbb; try done; [|lia].
    destruct Hcells1 as ([Hcr Hcb] & Hu & Hcl). rewrite <-Hbr, <-Hbb.
    eapply track_write_wp; [done|done|done|done|lia|lia|].
    split; [|split; [|do 3 (split; [done|]); split; [by auto|split; [|done]]]].
    3: { intros p Hp. apply Hab1. unfold array_block in *. rewrite Hbr, Hbb. done. }
    + split; simpl; [rewrite length_app; simpl; lia|lia|]. split; [done|]. split; [done|].
      intros i r' b' Hi. apply lookup_app_Some in Hi as [Hi|[Hge Hi]].
      * apply lookup_lt_Some in Hi as Hlt. rewrite !lookup_insert_ne by lia. by apply Hcl.
      * apply list_lookup_singleton_Some in Hi as [Hi [= <- <-]].
        assert (Z.of_nat i = send_count sn1) as -> by lia. by rewrite !lookup_insert_eq.
    + destruct Ho as [Ho1 Ho2 Ho3 Ho4]. split; rewrite ?Hp1; try done.
      intros r' p Hr'. apply Hl1; [by eapply Ho3|]. intros Hab.
      unfold array_block in Hab. destruct (send_reqs sn) as [br0|], (send_bufs sn) as [bb0|]; try done;
        [|simpl in Hab; by destruct Hab]. destruct Hcells as (_ & (_ & [_ Hf1] & [_ Hf2]) & _).
      destruct Hab as [[= <-]|[= <-]]; [apply Hf1|apply Hf2]; by exists r'.
  - destruct (Z.eqb_spec (send_count sn) (send_capacity sn)) as [Hfull|Hfull].
    + assert (∃ capacity, (if 0 <? send_capacity sn then i32 (send_capacity sn * 2) else mret 32) =
        (mret capacity : prog Z) ∧ send_count sn < capacity ≤ INT32_MAX ∧
        capacity ≤ Z.max 32 (2 * send_capacity sn)) as (capacity & -> & Hcc & Hmx).
      { destruct (Z.ltb_spec 0 (send_capacity sn)).
        - rewrite i32_ok by c_arith. eexists. split; [done|]. lia.
        - eexists. split; [done|]. c_arith. }
      cbn [mbind prog_mbind prog_bind mret prog_mret].
      eapply track_grow_wp; [done|apply Ho|done|done|].
      intros g' sn' H1 H2 H3 H4 H5 H6 H7 H8. subst Q1. cbn beta. rewrite H3. auto 10.
    + subst Q1. simpl. split; [done|]. split; [done|]. split; [lia|]. do 3 (split; [done|]). split; [auto|]. split; [auto|]. lia.
Qed.

(** C26 CIRCLE_worksend_track appends the send to the tracked ones, growing
    both arrays (from 32 entries, by doubling) when they are full; the
    pending requests and every block but the two old arrays are untouched. *)
Theorem worksend_track_appends oom g sn l r b :
  sends_arrays g sn l → sends_owned g (l ++ [(r, b)]) → 2 * send_capacity sn ≤ INT32_MAX →
  wp (mpi oom) (CIRCLE_worksend_track sn (Some r) b)
    (λ g' sn', sends_arrays g' sn' (l ++ [(r, b)]) ∧ sends_owned g' (l ++ [(r, b)]) ∧
       v_pending g' = v_pending g ∧ v_sent g' = v_sent g ∧ v_in g' = v_in g ∧
       ∀ p, p ∈ v_live g → ¬ array_block sn p → p ∈ v_live g')
    (λ _ e, oom = true ∧ e = MPI_Aborted LIBCIRCLE_MPI_ERROR) g.
Proof.
  intros Ha Ho Hmax. eapply wp_post; [|by apply track_wp].
  intros g' sn' (? & ? & ? & ? & ? & ? & _). auto 10.
Qed.

(** ** Witnesses: two outstanding sends, one of them with a buffer *)

Definition two_sends : list (Z * ptr) := [(100, Some 20); (101, None)].

Definition sn_two : send_st :=
  mk_send_st 2 2 (Some (Block 10 2 {[0 := Some 100; 1 := Some 101]}))
    (Some (Block 11 2 {[0 := Some 20; 1 := None]})).

Definition view_two : view :=
  View {[10; 11; 20; 21]} {[100 := Some 20; 101 := None; 102 := Some 21; 103 := None]} [] [].

Lemma view_two_flight r p : v_pending view_two !! r = Some (Some p) → r = 100 ∧ p = 20 ∨ r = 102 ∧ p = 21.
Proof.
  cbn [v_pending view_two]. rewrite !lookup_insert_Some, lookup_singleton_Some.
  intros [[<- [= <-]]|[_ [[<- [=]]|[_ [[<- [= <-]]|[_ [<- [=]]]]]]]]; auto.
Qed.

Lemma sends_two_arrays : sends_arrays view_two sn_two two_sends.
Proof.
  split; simpl; [done|c_arith|]. split; [done|]. split.
  - split; [done|]. split; (split; [simpl; set_solver|]);
      intros [r [[_ ?]|[_ ?]]%view_two_flight]; done.
  - intros [|[|i]] r b; simpl; [| |done]; by intros [= <- <-].
Qed.

Lemma sends_two_owned l : l = two_sends ∨ l = two_sends ++ [(102, Some 21)] → sends_owned view_two l.
Proof.
  intros Hl. split.
  - intros r b Hin. assert ((r, b) ∈ two_sends ++ [(102, Some 21)]) as Hin'
      by (destruct Hl as [-> | ->]; [apply elem_of_app; by left|done]).
    unfold two_sends in Hin'. simpl in Hin'. rewrite !elem_of_cons in Hin'.
    destruct Hin' as [[= -> ->]|[[= -> ->]|[[= -> ->]|H]]]; [done..|set_solver].
  - destruct Hl as [-> | ->]; decided.
  - intros r p [[-> ->]|[-> ->]]%view_two_flight; simpl; set_solver.
  - intros r r' p [[-> ->]|[-> ->]]%view_two_flight [[-> ?]|[-> ?]]%view_two_flight; done.
Qed.

(** MPI has completed the first of them. *)
Lemma worksend_check_reaps_witness :
  wp (mpi_tests (reported (λ r, r =? 100)) false) (CIRCLE_worksend_check sn_two)
    (λ g' sn', ∃ fin rest,
       fin ≡ₚ filter (λ x, (x.1 =? 100) = true) two_sends ∧ rest ≡ₚ filter (λ x, (x.1 =? 100) = false) two_sends ∧
       g' = complete_sends fin view_two ∧ sends_arrays g' sn' rest ∧ sends_owned g' rest) (λ _ _, False) view_two.
Proof.
  apply (worksend_check_reaps (λ r, r =? 100)); [apply sends_two_arrays|apply sends_two_owned; by left].
Defined.

Lemma worksend_wait_drains_witness :
  wp (mpi false) (CIRCLE_worksend_wait (Some 103) sn_two)
    (λ g' '(req', sn'), req' = None ∧ sends_arrays g' sn' [] ∧
       g' = complete_sends two_sends (drop_request 103 view_two)) (λ _ _, False) view_two.
Proof.
  apply (worksend_wait_drains false view_two sn_two two_sends (Some 103));
    [apply sends_two_arrays|apply sends_two_owned; by left|].
  intros r [= <-]. split; [eexists; reflexivity|decided].
Defined.

Lemma worksend_track_appends_witness :
  wp (mpi true) (CIRCLE_worksend_track sn_two (Some 102) (Some 21))
    (λ g' sn', sends_arrays g' sn' (two_sends ++ [(102, Some 21)]) ∧
       sends_owned g' (two_sends ++ [(102, Some 21)]) ∧
       v_pending g' = v_pending view_two ∧ v_sent g' = v_sent view_two ∧ v_in g' = v_in view_two ∧
       ∀ p, p ∈ v_live view_two → ¬ array_block sn_two p → p ∈ v_live g')
    (λ _ e, true = true ∧ e = MPI_Aborted LIBCIRCLE_MPI_ERROR) view_two.
Proof.
  apply worksend_track_appends; [apply sends_two_arrays|apply sends_two_owned; by right|].
  vm_compute. intros H; discriminate H.
Defined.
