(* ===== verification/Blocks.v ===== *)
(** * The blocks of a process

    [process_mem g F qp o sn l]: the allocated blocks that belong to a
    worker - its queue [qp], the buffer [o] for offsets, the arrays [sn] of
    the outstanding sends [l], and whatever else it holds ([F]) - are
    distinct, and no pending request reads them.  Every operation of the work
    transfer is specified over this invariant. *)
From S2P Require Import Prelude CMonad Mem Heap Queue Wire Tree State Mpi Sends.

Definition opt_block {A} (b : option (block A)) : list Z := default [] ((λ b, [addr b]) <$> b).

Definition my_blocks (F : list Z) (qp : CIRCLE_internal_queue_t) (o : offsets_st) (sn : send_st) : list Z :=
  F ++ queue_owned qp ++ opt_block (offsets_recv_buf o) ++ opt_block (send_reqs sn) ++ opt_block (send_bufs sn).

Record process_mem (g : view) (F : list Z) (qp : CIRCLE_internal_queue_t) (o : offsets_st)
    (sn : send_st) (l : list (Z * ptr)) : Prop := ProcessMem {
  pm_sends : sends_arrays g sn l;
  pm_owned : sends_owned g l;
  pm_nodup : NoDup (my_blocks F qp o sn);
  pm_usable : ∀ p, p ∈ my_blocks F qp o sn → usable g p;
}.

(** Nothing but the allocation has changed. *)
Definition same_messages (g g' : view) : Prop :=
  v_pending g' = v_pending g ∧ v_sent g' = v_sent g ∧ v_in g' = v_in g.

#[export] Instance same_messages_preorder : PreOrder same_messages.
Proof. split; [by intros g|]. intros g1 g2 g3 (? & ? & ?) (? & ? & ?). unfold same_messages. by split_and!; etrans. Qed.

Lemma elem_of_opt_block {A} (b : option (block A)) p : p ∈ opt_block b ↔ (addr <$> b) = Some p.
Proof. destruct b; cbn; [rewrite list_elem_of_singleton|rewrite elem_of_nil]; naive_solver. Qed.

Lemma elem_of_my_blocks F qp o sn p :
  p ∈ my_blocks F qp o sn ↔
  p ∈ F ∨ p ∈ queue_owned qp ∨ p ∈ opt_block (offsets_recv_buf o) ∨ array_block sn p.
Proof. unfold my_blocks, array_block. by rewrite !elem_of_app, <-!elem_of_opt_block. Qed.

(** ** C library code inside an MPI process *)

Lemma heap_in_mpi oom {A} (t : prog A) Q E (h F : gset Z) (g : view) :
  v_live g = h ∪ F → h ## F → (∀ p, in_flight g p → p ∈ F) →
  wp (heap oom) t Q E h →
  wp (mpi oom) t (λ g' a, ∃ h' : gset Z, (g' = set_live (h' ∪ F) g ∧ h' ## F) ∧ Q h' a)
    (λ g' e, ∃ h' : gset Z, (g' = set_live (h' ∪ F) g ∧ h' ## F) ∧ E h' e) g.
Proof.
  intros Hlive Hd Hfl. apply (wp_lift (heap oom) (mpi oom) (λ (h : gset Z) g', g' = set_live (h ∪ F) g ∧ h ## F)).
  2: { split; [|done]. rewrite <-Hlive. by destruct g. }
  clear h Hlive Hd. intros h g' o [-> Hd] Hpre.
  assert (∀ p, p ∈ h → usable (set_live (h ∪ F) g) p) as Hu.
  { intros p Hp. split; [cbn; set_solver|]. intros Hf. apply (Hd p); [done|by apply Hfl]. }
  destruct o; try done; cbn in *.
  - split; [done|]. intros [p|] g1 (live & Hf & ->); cbn in Hf.
    + destruct Hf as (Hp & -> & Hs). exists ({[p]} ∪ h). split; [split; [set_solver|done]|]. split.
      * unfold set_live. cbn. by rewrite (assoc_L (∪)).
      * set_solver.
    + destruct Hf as [-> ->]. by exists h.
  - split; [by destruct old; [apply Hu|]|]. intros [p|] g1 (live & Hf & ->); cbn in Hf.
    + destruct Hf as (Hp & -> & Hs). exists ({[p]} ∪ without old h).
      rewrite elem_of_without in Hp. cbn in Hp.
      split; [split; [by rewrite elem_of_without; set_solver|by split]|]. split.
      * apply (f_equal (λ x, View x (v_pending g) (v_sent g) (v_in g))), set_eq. intros x. cbn.
        rewrite !elem_of_union, !elem_of_singleton, !elem_of_without, elem_of_union.
        split; [|naive_solver]. intros [?|[[Hx|Hx] ?]]; [tauto..|]. tauto.
      * intros x. rewrite elem_of_union, elem_of_singleton, elem_of_without.
        intros [->|[Hx _]] Hx'; [|by apply (Hd x)]. apply Hp. split; [set_solver|].
        intros ->. apply (Hd p); [done|done].
    + destruct Hf as [-> ->]. by exists h.
  - split; [by apply Hu|]. intros [] g1 (live & -> & ->). exists (h ∖ {[p]}). split; [done|]. split.
    + apply (f_equal (λ x, View x (v_pending g) (v_sent g) (v_in g))). cbn. set_solver.
    + set_solver.
  - split; [done|]. intros r g1 (live & [-> Hr] & ->). by exists h.
  - split; [done|]. intros r g1 (live & [-> Hr] & ->). by exists h.
Qed.

Lemma in_flight_live g l p : sends_owned g l → in_flight g p → p ∈ v_live g.
Proof. intros Ho [r Hr]. by eapply so_flight. Qed.

(** The invariant when only the set of allocated blocks changes. *)
Lemma process_mem_live g F qp o sn l F' qp' o' live :
  process_mem g F qp o sn l → NoDup (my_blocks F' qp' o' sn) →
  (∀ p, p ∈ my_blocks F' qp' o' sn → p ∈ live ∧ ¬ in_flight g p) →
  (∀ p, in_flight g p → p ∈ live) →
  process_mem (set_live live g) F' qp' o' sn l.
Proof.
  intros [Hs [Ho1 Ho2 Ho3 Ho4] Hn Hu] Hn' Hu' Hfl. split; [| |done|done].
  - destruct Hs as [Hc Hcap Hcells]. split; [done|done|].
    destruct (send_reqs sn) as [br|] eqn:Hbr, (send_bufs sn) as [bb|] eqn:Hbb; try done.
    destruct Hcells as (? & (? & _) & ?). split; [done|]. split; [|done]. split; [done|].
    split; apply Hu', elem_of_my_blocks; unfold array_block; rewrite Hbr, Hbb; cbn; tauto.
  - split; [done|done| |done]. intros r p Hr. apply Hfl. by exists r.
Qed.

(** Queue code that only uses the C library. *)
Definition queue_set (qp : CIRCLE_internal_queue_t) : gset Z := list_to_set (queue_owned qp).

Lemma queue_set_owns qp F o sn g l : process_mem g F qp o sn l → owns (queue_set qp) qp.
Proof.
  intros [_ _ Hn _]. unfold my_blocks in Hn. apply NoDup_app in Hn as (_ & _ & Hn).
  apply NoDup_app in Hn as (Hn & _). split; [done|]. intros p. unfold queue_set. by rewrite elem_of_list_to_set.
Qed.

Lemma queue_heap_wp oom (t : prog (Z * CIRCLE_internal_queue_t)) g F qp o sn l (R : CIRCLE_internal_queue_t → Prop) :
  process_mem g F qp o sn l →
  wp (heap oom) t (λ h '(rc, qp'), (rc = 0 ∧ owns h qp' ∧ R qp') ∨ (oom = true ∧ rc = -1))
    (λ _ _, False) (queue_set qp) →
  wp (mpi oom) t
    (λ g' '(rc, qp'), (rc = 0 ∧ process_mem g' F qp' o sn l ∧ same_messages g g' ∧ R qp') ∨
                      (oom = true ∧ rc = -1))
    (λ _ _, False) g.
Proof.
  intros Hp Ht. pose proof Hp as [Hs Ho Hn Hu].
  assert (∀ p, p ∈ queue_set qp → p ∈ my_blocks F qp o sn) as Hq.
  { intros p. unfold queue_set. rewrite elem_of_list_to_set, elem_of_my_blocks. tauto. }
  eapply wp_mono; [..|eapply (heap_in_mpi oom t _ _ (queue_set qp) (v_live g ∖ queue_set qp))]; [| |..|exact Ht].
  - intros g' [rc qp'] (h & [-> Hd] & [(-> & [Hn' Hown] & HR)|H]); [left|by right].
    split; [done|]. split; [|done].
    unfold my_blocks in Hn. apply NoDup_app in Hn as (Hn1 & Hn12 & Hn).
    apply NoDup_app in Hn as (Hn2 & Hn23 & Hn3).
    assert (∀ p, p ∈ F ∨ p ∈ opt_block (offsets_recv_buf o) ∨ array_block sn p → p ∈ v_live g ∖ queue_set qp) as HF.
    { intros p Hin. apply elem_of_difference. split; [apply Hu, elem_of_my_blocks; tauto|].
      unfold queue_set. rewrite elem_of_list_to_set. intros Hin2. unfold array_block in Hin.
      rewrite <-!elem_of_opt_block in Hin.
      destruct Hin as [Hin|Hin]; [apply (Hn12 p Hin); rewrite !elem_of_app; tauto|].
      apply (Hn23 p Hin2). rewrite !elem_of_app. tauto. }
    apply (process_mem_live g F qp o sn l); [exact Hp|..].
    + unfold my_blocks. apply NoDup_app. split; [done|]. split.
      * intros p Hp1. rewrite elem_of_app. intros [Hp2|Hp2].
        -- apply (Hd p); [by apply Hown|apply HF; tauto].
        -- apply (Hn12 p Hp1). rewrite elem_of_app. tauto.
      * apply NoDup_app. split; [done|]. split; [|done]. intros p Hp1 Hp2.
        apply (Hd p); [by apply Hown|]. apply HF. unfold array_block.
        rewrite <-!elem_of_opt_block. rewrite !elem_of_app in Hp2. tauto.
    + intros p. rewrite elem_of_my_blocks. intros Hin. rewrite elem_of_union. split.
      * destruct Hin as [?|[?|?]]; [right; apply HF; tauto|left; by apply Hown|right; apply HF; tauto].
      * destruct (decide (p ∈ queue_owned qp')) as [Hq'|Hq'].
        -- intros Hf. apply (Hd p); [by apply Hown|]. apply elem_of_difference.
           split; [by eapply in_flight_live|]. intros Hq2. by destruct (Hu p (Hq p Hq2)).
        -- apply Hu, elem_of_my_blocks. tauto.
    + intros p Hf. apply elem_of_union_r, elem_of_difference. split; [by eapply in_flight_live|].
      intros Hq2. by destruct (Hu p (Hq p Hq2)).
  - intros g' e (h & _ & []).
  - apply union_difference_L. intros p Hin. by apply Hu, Hq.
  - set_solver.
  - intros p Hf. apply elem_of_difference. split; [by eapply in_flight_live|].
    intros Hq2. by destruct (Hu p (Hq p Hq2)).
Qed.

(** ** Allocation and posting *)

(** A fresh block joins what the process holds. *)
Lemma malloc_wp oom n g F qp o sn l (Q : view → ptr → Prop) E :
  process_mem g F qp o sn l →
  (oom = true → Q g None) →
  (∀ p g', process_mem g' (p :: F) qp o sn l → same_messages g g' → Q g' (Some p)) →
  wp (mpi oom) (call (OMalloc n)) Q E g.
Proof.
  intros Hp HN HS. pose proof Hp as [Hs Ho Hn Hu]. cbn. split; [done|].
  intros [p|] g' (live & Hl & ->); cbn in Hl.
  - destruct Hl as (Hfresh & -> & _). apply HS; [|done].
    assert (p ∉ my_blocks F qp o sn) as Hnot by (intros [? _]%Hu; by apply Hfresh).
    apply (process_mem_live g F qp o sn l); [exact Hp|..].
    + change (my_blocks (p :: F) qp o sn) with (p :: my_blocks F qp o sn). by apply NoDup_cons.
    + intros q [->|Hq]%elem_of_cons; rewrite elem_of_union, elem_of_singleton.
      * split; [by left|]. intros Hf. by apply Hfresh, (in_flight_live g l).
      * destruct (Hu q Hq). split; [by right|done].
    + intros q Hf. apply elem_of_union_r. by apply (in_flight_live g l).
  - destruct Hl as [-> ->]. assert (set_live (v_live g) g = g) as -> by (by destruct g). by apply HN.
Qed.

(** The invariant after a send that reads [b] was posted. *)
Lemma process_mem_post g F qp o sn l r m b :
  process_mem g F qp o sn l → v_pending g !! r = None →
  (∀ p, b = Some p → usable g p ∧ p ∉ my_blocks F qp o sn) →
  let g' := post_request r b (log_sent m g) in
  sends_arrays g' sn l ∧ sends_owned g' (l ++ [(r, b)]) ∧
  ∀ p, p ∈ my_blocks F qp o sn → usable g' p.
Proof.
  intros [Hs [Ho1 Ho2 Ho3 Ho4] Hn Hu] Hr Hb g'.
  assert (∀ p, p ∈ my_blocks F qp o sn → usable g' p) as Hu'.
  { intros p Hp. destruct (Hu p Hp) as [Hl Hf]. split; [done|]. intros [r' Hr']. cbn in Hr'.
    apply lookup_insert_Some in Hr' as [[<- Hbp]|[Hne Hr']]; [|apply Hf; by exists r'].
    by destruct (Hb p Hbp). }
  split; [|split; [|done]].
  - destruct Hs as [Hc Hcap Hcells]. split; [done|done|].
    destruct (send_reqs sn) as [br|] eqn:Hbr, (send_bufs sn) as [bb|] eqn:Hbb; try done.
    destruct Hcells as (? & (? & _) & ?). split; [done|]. split; [|done]. split; [done|].
    split; apply Hu', elem_of_my_blocks; unfold array_block; rewrite Hbr, Hbb; cbn; tauto.
  - assert (∀ r' b', (r', b') ∈ l → r' ≠ r) as Hne.
    { intros r' b' Hin ->. apply Ho1 in Hin. congruence. }
    split; cbn.
    + intros r' b' [Hin|[= -> ->]%list_elem_of_singleton]%elem_of_app; [|apply lookup_insert_eq].
      rewrite lookup_insert_ne by (symmetry; eauto). by apply Ho1.
    + rewrite fmap_app. apply NoDup_app. split; [done|]. split; [|apply NoDup_singleton].
      intros r' [[r2 b2] [-> Hin]]%list_elem_of_fmap. cbn.
      rewrite list_elem_of_singleton. by apply (Hne _ b2).
    + intros r' p [[<- Hbp]|[_ Hr']]%lookup_insert_Some; [by apply Hb|by eapply Ho3].
    + intros r1 r2 p [[<- H1]|[_ H1]]%lookup_insert_Some [[<- H2]|[_ H2]]%lookup_insert_Some;
        [done|exfalso|exfalso|by eapply Ho4].
      * destruct (Hb p H1) as [[_ Hf] _]. apply Hf. by exists r2.
      * destruct (Hb p H2) as [[_ Hf] _]. apply Hf. by exists r1.
Qed.

Lemma arrays_nodup g sn l : sends_arrays g sn l → NoDup (opt_block (send_reqs sn) ++ opt_block (send_bufs sn)).
Proof.
  intros [_ _ Hc]. destruct (send_reqs sn), (send_bufs sn); try done; cbn; [|by constructor].
  destruct Hc as (_ & (? & _) & _). apply NoDup_cons. rewrite list_elem_of_singleton.
  split; [done|]. apply NoDup_singleton.
Qed.

Lemma arrays_usable g sn l p : sends_arrays g sn l → array_block sn p → usable g p.
Proof.
  intros [_ _ Hc]. unfold array_block. destruct (send_reqs sn), (send_bufs sn); try done; cbn; [|naive_solver].
  destruct Hc as (_ & (_ & ? & ?) & _). by intros [[= <-]|[= <-]].
Qed.

(** The blocks other than the arrays of the sends. *)
Definition other_blocks (F : list Z) (qp : CIRCLE_internal_queue_t) (o : offsets_st) : list Z :=
  F ++ queue_owned qp ++ opt_block (offsets_recv_buf o).

Lemma my_blocks_split F qp o sn :
  my_blocks F qp o sn = other_blocks F qp o ++ opt_block (send_reqs sn) ++ opt_block (send_bufs sn).
Proof. unfold my_blocks, other_blocks. by rewrite <-!app_assoc. Qed.

(** A posted send is tracked. *)
Lemma track_post_wp oom g F qp o sn l r m b (Q : view → send_st → Prop) E :
  process_mem g F qp o sn l → v_pending g !! r = None →
  (∀ p, b = Some p → usable g p ∧ p ∉ my_blocks F qp o sn) →
  2 * send_capacity sn ≤ INT32_MAX →
  (∀ g' sn', process_mem g' F qp o sn' (l ++ [(r, b)]) → v_sent g' = v_sent g ++ [m] → v_in g' = v_in g →
     send_capacity sn' ≤ Z.max 32 (2 * send_capacity sn) → Q g' sn') →
  (∀ g', oom = true → E g' (MPI_Aborted LIBCIRCLE_MPI_ERROR)) →
  wp (mpi oom) (CIRCLE_worksend_track sn (Some r) b) Q E (post_request r b (log_sent m g)).
Proof.
  intros Hp Hr Hb Hcap HQ HE. destruct (process_mem_post g F qp o sn l r m b Hp Hr Hb) as (Hs & Ho & Hu).
  destruct Hp as [_ _ Hn _]. rewrite my_blocks_split in Hn, Hu.
  apply NoDup_app in Hn as (Hn1 & Hn12 & _).
  eapply wp_mono; [| |exact (track_wp oom _ sn l r b Hs Ho Hcap)].
  2: { intros g' e [? ->]. by apply HE. }
  intros g' sn' (Hs' & Ho' & Hpe & Hse & Hin & Hl & Hab & Hc). apply HQ; [|by rewrite Hse|done|done].
  assert (∀ p, p ∈ other_blocks F qp o → usable g' p) as Hu1.
  { intros p Hin1. destruct (Hu p) as [Hlive Hf]; [rewrite elem_of_app; by left|].
    split; [|intros [r' Hr']; rewrite Hpe in Hr'; apply Hf; by exists r'].
    apply Hl; [done|]. unfold array_block. rewrite <-!elem_of_opt_block, <-elem_of_app. by apply Hn12. }
  split; [done|done|rewrite my_blocks_split|rewrite my_blocks_split].
  - apply NoDup_app. split; [done|]. split; [|by eapply arrays_nodup].
    intros p Hp1 Hp2. rewrite elem_of_app, !elem_of_opt_block in Hp2. destruct (Hab p Hp2) as [Hp3|Hp3].
    + apply (Hn12 p Hp1). by rewrite elem_of_app, !elem_of_opt_block.
    + apply Hp3. apply Hu. rewrite elem_of_app. by left.
  - intros p. rewrite elem_of_app. intros [Hp1|Hp2]; [by apply Hu1|].
    rewrite elem_of_app, !elem_of_opt_block in Hp2. by eapply arrays_usable.
Qed.

(** The process gives up a block it held, for a request to read. *)
Lemma process_mem_drop g p F qp o sn l :
  process_mem g (p :: F) qp o sn l → process_mem g F qp o sn l ∧ usable g p ∧ p ∉ my_blocks F qp o sn.
Proof.
  intros [Hs Ho Hn Hu]. change (my_blocks (p :: F) qp o sn) with (p :: my_blocks F qp o sn) in *.
  apply NoDup_cons in Hn as [Hp Hn]. split; [split; [done|done|done|]|split; [|done]].
  - intros q Hq. apply Hu. by right.
  - apply Hu. by left.
Qed.

(** The order in which the other blocks are listed does not matter. *)
#[export] Instance process_mem_perm g : Proper ((≡ₚ) ==> (=) ==> (=) ==> (=) ==> (=) ==> iff) (process_mem g).
Proof.
  intros F F' HF qp ? <- o ? <- sn ? <- l ? <-.
  assert (my_blocks F qp o sn ≡ₚ my_blocks F' qp o sn) as Hb by (unfold my_blocks; by rewrite HF).
  split; intros [H1 H2 H3 H4]; (split; [done|done| |]).
  - by rewrite <-Hb.
  - intros p. rewrite <-Hb. apply H4.
  - by rewrite Hb.
  - intros p. rewrite Hb. apply H4.
Qed.

(** The contents of the blocks do not matter either. *)
Lemma process_mem_eq g F qp o sn l F' qp' o' :
  my_blocks F' qp' o' sn = my_blocks F qp o sn → process_mem g F qp o sn l → process_mem g F' qp' o' sn l.
Proof. intros Hb [H1 H2 H3 H4]. split; rewrite ?Hb; done. Qed.
