(* ===== verification/Transfer.v ===== *)
(** * Work transfer (CIRCLE_extend_offsets .. CIRCLE_workreq_check and
    CIRCLE_get_next_proc of src/libcircle/token.c)

    A process without work asks another one; the asked process divides its
    queue among everyone who asked, keeping at least one item, and answers
    the others with "no work".  A transfer is two messages (offsets, then
    characters) and is acknowledged by a receipt. *)
From S2P Require Import Prelude CMonad Mem Heap Queue Wire Tree Split State Mpi Sends.

(** ** Receiving *)

Definition CIRCLE_extend_offsets (o : offsets_st) (size : Z) : prog (Z * offsets_st) :=
  let count := offsets_count o in
  if size <=? count then mret (0, o)
  else
    count ← grow_str_count (grow_fuel count size) count size;
    p ← call (ORealloc (addr <$> offsets_recv_buf o) (u64 (u64 count * sizeof_int)));
    let o := mk_offsets_st count ((λ p, regrow (offsets_recv_buf o) p count) <$> p) in
    mret (match p with None => -1 | Some _ => 0 end, o).

(** [MPI_Recv(buf, count, MPI_INT, src, tag)] *)
Definition recv_ints (buf : option (block Z)) (count src tag : Z) : prog (block Z) :=
  p ← call (ORecv src tag count);
  match p with
  | Ints l =>
      if count <? Z.of_nat (length l) then Stop UB
      else b ← deref buf; deref (store_list b 0 l)
  | _ => Stop UB
  end.

(** [MPI_Recv(buf, count, MPI_CHAR, src, tag)] *)
Definition recv_chars (buf : option (block byte)) (count src tag : Z) : prog (block byte) :=
  p ← call (ORecv src tag count);
  match p with
  | Bytes l =>
      if count <? Z.of_nat (length l) then Stop UB
      else b ← deref buf; deref (store_list b 0 l)
  | _ => Stop UB
  end.

(** [for(i = 0; i < count; i++) qp->strings[i] = offsets_recv_buf[i + 2]] *)
Fixpoint receive_offsets (n : nat) (i : Z) (offsets strings : block Z) : prog (block Z) :=
  match n with
  | O => mret strings
  | S n =>
      x ← deref (load offsets (i + 2));
      strings ← deref (store strings i (u64 x));
      receive_offsets n (i + 1) offsets strings
  end.

(** What follows a reply that announces [count] items. *)
Definition receive_items (qp : CIRCLE_internal_queue_t) (st : CIRCLE_state_st)
    (offsets : block Z) (source count : Z) : prog (Z * CIRCLE_internal_queue_t * CIRCLE_state_st) :=
  chars ← deref (load offsets 1);
  let new_bytes := u64 (q_head qp + u64 chars) in
  '(rc, qp) ← (if q_bytes qp <? new_bytes then CIRCLE_internal_queue_extend qp new_bytes
               else mret (0, qp));
  if rc <? 0 then Stop (MPI_Aborted LIBCIRCLE_MPI_ERROR)
  else
    base ← recv_chars (q_base qp) chars source CIRCLE_TAG_WORK_REPLY;
    let qp := with_base (Some base) qp in
    '(rc, qp) ← (if q_str_count qp <? count then CIRCLE_internal_queue_str_extend qp count
                 else mret (0, qp));
    if rc <? 0 then Stop (MPI_Aborted LIBCIRCLE_MPI_ERROR)
    else
      strings ← deref (q_strings qp);
      strings ← receive_offsets (Z.to_nat count) 0 offsets strings;
      first ← deref (load strings 0);
      if negb (first =? 0) then Stop (MPI_Aborted LIBCIRCLE_MPI_ERROR)
      else
        elem_offset ← deref (load strings (count - 1));
        base ← deref (q_base qp);
        elem ← deref (load_cstr base elem_offset);
        let elem_len := u64 (Z.of_nat (length elem) + 1) in
        req ← call (OIsend source CIRCLE_TAG_WORK_RECEIPT (Bytes []) None);
        sn ← CIRCLE_worksend_track (st_send st) (Some req) None;
        mret (0, with_head (u64 (elem_offset + elem_len))
                   (with_count count (with_strings (Some strings) qp)),
              set_st_send sn st).

(** The abort flag is passed in and returned. *)
Definition CIRCLE_work_receive (abort : Z) (qp : CIRCLE_internal_queue_t) (st : CIRCLE_state_st)
    (source size : Z) : prog (Z * Z * CIRCLE_internal_queue_t * CIRCLE_state_st) :=
  if size <=? 0 then Stop (MPI_Aborted LIBCIRCLE_MPI_ERROR)
  else
    '(rc, o) ← CIRCLE_extend_offsets (st_offsets st) size;
    let st := set_st_offsets o st in
    if rc <? 0 then Stop (MPI_Aborted LIBCIRCLE_MPI_ERROR)
    else
      offsets ← recv_ints (offsets_recv_buf o) size source CIRCLE_TAG_WORK_REPLY;
      let st := set_st_offsets (mk_offsets_st (offsets_count o) (Some offsets)) st in
      items ← deref (load offsets 0);
      if items =? 0 then
        mret (0, abort, qp,
              upd_profile (λ r, set_local_no_work_received (u32 (local_no_work_received r + 1)) r) st)
      else if items =? PAYLOAD_ABORT then mret (PAYLOAD_ABORT, 1, qp, st)
      else if items <? 0 then mret (-1, abort, qp, st)
      else
        '(rc, qp, st) ← receive_items qp st offsets source items;
        mret (rc, abort, qp, st).

(** ** Requesting *)

(** [do next = rand_r(&seed) % size; while(next == rank)]; [fuel] bounds the
    number of draws. *)
Fixpoint next_proc_loop (fuel : nat) (size rank seed : Z) : prog (Z * Z) :=
  match fuel with
  | O => Stop NoFuel
  | S fuel =>
      '(v, seed) ← call (ORand seed);
      let next := Z.rem v size in
      if next =? rank then next_proc_loop fuel size rank seed else mret (next, seed)
  end.

Definition CIRCLE_get_next_proc (fuel : nat) (st : CIRCLE_state_st) : prog CIRCLE_state_st :=
  if 1 <? st_size st then
    '(next, seed) ← next_proc_loop fuel (st_size st) (st_rank st) (st_seed st);
    mret (set_st_next_processor next (set_st_seed seed st))
  else mret (set_st_next_processor MPI_PROC_NULL st).

(** [MPI_Test] of the previous request message, unless there is none. *)
Definition test_request_slot (rq : request_st) : prog (bool * request_st) :=
  match work_request_req rq with
  | None => mret (true, rq)
  | Some _ =>
      '(f, r) ← MPI_Test (work_request_req rq);
      mret (f, set_work_request_req r rq)
  end.

Definition CIRCLE_request_work (fuel : nat) (abort : Z) (qp : CIRCLE_internal_queue_t)
    (st : CIRCLE_state_st) (cleanup : Z)
    : prog (Z * Z * CIRCLE_internal_queue_t * CIRCLE_state_st) :=
  '(request_slot_free, rq) ← test_request_slot (st_request st);
  let st := set_st_request rq st in
  if truth (work_requested rq) then
    let source := work_requested_rank rq in
    m ← call (OIprobe source CIRCLE_TAG_WORK_REPLY);
    match m with
    | Some (_, size) =>
        '(rc, abort, qp, st) ← CIRCLE_work_receive abort qp st source size;
        mret (rc, abort, qp, upd_request (set_work_requested 0) st)
    | None => mret (0, abort, qp, st)
    end
  else if negb (truth cleanup) && negb (truth abort) && request_slot_free then
    let source := st_next_processor st in
    if source =? MPI_PROC_NULL then mret (0, abort, qp, st)
    else
      let st := upd_profile (λ r, set_local_work_requested (u32 (local_work_requested r + 1)) r) st in
      req ← call (OIsend source CIRCLE_TAG_WORK_REQUEST (Bytes []) None);
      let st := upd_request (λ r, set_work_requested_rank source
                  (set_work_requested 1 (set_work_request_req (Some req) r))) st in
      st ← CIRCLE_get_next_proc fuel st;
      mret (0, abort, qp, st)
  else mret (0, abort, qp, st).

(** ** Sending *)

Definition CIRCLE_send_no_work (abort : Z) (sn : send_st) (dest : Z) : prog send_st :=
  p ← call (OMalloc (u64 (2 * sizeof_int)));
  match p with
  | None => Stop (MPI_Aborted LIBCIRCLE_MPI_ERROR)
  | Some p =>
      no_work ← deref (store_list (Block p 2 ∅) 0 [if truth abort then PAYLOAD_ABORT else 0]);
      no_work ← deref (store no_work 1 0);
      data ← deref (load_list no_work 0 1);
      req ← call (OIsend dest CIRCLE_TAG_WORK_REPLY (Ints data) (Some p));
      CIRCLE_worksend_track sn (Some req) (Some p)
  end.

(** Offset of the first of the top [count] items, and the length of their
    characters with all terminators, the last item starting at [end_offset]. *)
Definition send_extent (qp : CIRCLE_internal_queue_t) (count end_offset : Z) : prog (Z * Z) :=
  start_elem ← i32 (q_count qp - count);
  strings ← deref (q_strings qp);
  start_offset ← deref (load strings start_elem);
  base ← deref (q_base qp);
  last ← deref (load_cstr base end_offset);
  mret (start_offset, u64 (u64 (end_offset - start_offset) + u64 (Z.of_nat (length last) + 1))).

(** [while(len > INT32_MAX && count > 1)]; every round lowers [count], so
    [count] rounds are enough ([back_off_fuel]). *)
Fixpoint back_off (fuel : nat) (qp : CIRCLE_internal_queue_t) (end_offset count start len : Z)
    : prog (Z * Z * Z) :=
  if (INT32_MAX <? len) && (1 <? count) then
    match fuel with
    | O => Stop NoFuel
    | S fuel =>
        let next := count - Z.quot count 10 in
        let next := if count <=? next then count - 1 else next in
        '(start, len) ← send_extent qp next end_offset;
        back_off fuel qp end_offset next start len
    end
  else mret (count, start, len).

(** [for(i = 0; i < count; i++) offsets[2 + i] = (int)(strings[elem + i] - start)] *)
Fixpoint send_offsets (n : nat) (i elem start : Z) (strings offsets : block Z) : prog (block Z) :=
  match n with
  | O => mret offsets
  | S n =>
      x ← deref (load strings elem);
      offsets ← deref (store offsets (2 + i) (to_i32 (u64 (x - start))));
      send_offsets n (i + 1) (elem + 1) start strings offsets
  end.

(** Post the two messages with the top [count] items, [bytes] characters
    from pool offset [start] on. *)
Definition send_items (qp : CIRCLE_internal_queue_t) (sn : send_st) (dest count start bytes : Z)
    : prog send_st :=
  numoffsets ← i32 (2 + count);
  offsets ← call (OMalloc (u64 (numoffsets * sizeof_int)));
  buf ← call (OMalloc bytes);
  match offsets, buf with
  | Some po, Some pb =>
      offsets ← deref (store_list (Block po numoffsets ∅) 0 [count; bytes]);
      start_elem ← i32 (q_count qp - count);
      strings ← deref (q_strings qp);
      offsets ← send_offsets (Z.to_nat count) 0 start_elem start strings offsets;
      base ← deref (q_base qp);
      text ← deref (load_list base start bytes);
      data ← deref (load_list offsets 0 numoffsets);
      req ← call (OIsend dest CIRCLE_TAG_WORK_REPLY (Ints data) (Some po));
      sn ← CIRCLE_worksend_track sn (Some req) (Some po);
      req ← call (OIsend dest CIRCLE_TAG_WORK_REPLY (Bytes text) (Some pb));
      CIRCLE_worksend_track sn (Some req) (Some pb)
  | _, _ => Stop (MPI_Aborted LIBCIRCLE_MPI_ERROR)
  end.

Definition CIRCLE_send_work (abort : Z) (qp : CIRCLE_internal_queue_t) (st : CIRCLE_state_st)
    (dest count : Z) : prog (Z * CIRCLE_internal_queue_t * CIRCLE_state_st) :=
  if count <=? 0 then
    sn ← CIRCLE_send_no_work abort (st_send st) dest;
    mret (0, qp, set_st_send sn st)
  else
    let st := if (dest <? st_rank st) || (dest =? token_src (st_token st))
              then upd_token (set_token_proc BLACK) st else st in
    end_elem ← i32 (q_count qp - 1);
    strings ← deref (q_strings qp);
    end_offset ← deref (load strings end_elem);
    '(start, len) ← send_extent qp count end_offset;
    '(count, start, len) ← back_off (Z.to_nat count) qp end_offset count start len;
    if INT32_MAX <? len then
      sn ← CIRCLE_send_no_work abort (st_send st) dest;
      mret (-1, qp, set_st_send sn st)
    else
      sn ← send_items qp (st_send st) dest count start len;
      n ← i32 (q_count qp - count);
      w ← i32 (work_outstanding (st_term st) + 1);
      mret (0, with_count n qp, upd_term (set_work_outstanding w) (set_st_send sn st)).

(** [for(i = 0; i < rcount; i++) CIRCLE_send_work(.., requestors[i], sizes[i + 1])] *)
Fixpoint send_work_loop (n : nat) (i abort : Z) (requestors sizes : block Z)
    (qp : CIRCLE_internal_queue_t) (st : CIRCLE_state_st)
    : prog (CIRCLE_internal_queue_t * CIRCLE_state_st) :=
  match n with
  | O => mret (qp, st)
  | S n =>
      dest ← deref (load requestors i);
      count ← deref (load sizes (i + 1));
      '(_, qp, st) ← CIRCLE_send_work abort qp st dest count;
      send_work_loop n (i + 1) abort requestors sizes qp st
  end.

Definition CIRCLE_send_work_to_many (options abort : Z) (qp : CIRCLE_internal_queue_t)
    (st : CIRCLE_state_st) (requestors : block Z) (rcount : Z)
    : prog (CIRCLE_internal_queue_t * CIRCLE_state_st) :=
  if rcount <=? 0 then Stop (Exit 1)
  else
    '(sizes, seed) ← split_sizes options (st_seed st) (q_count qp) rcount;
    let st := set_st_seed seed st in
    sizes ← deref sizes;
    '(qp, st) ← send_work_loop (Z.to_nat rcount) 0 abort requestors sizes qp st;
    _ ← call (OFree (addr sizes));
    mret (qp, st).

(** ** Servicing receipts and requests *)

(** [while(st->work_outstanding > 0)]; every round takes one off. *)
Fixpoint workreceipt_loop (n : nat) (t : term_st) : prog term_st :=
  if 0 <? work_outstanding t then
    match n with
    | O => Stop NoFuel
    | S n =>
        m ← call (OIprobe MPI_ANY_SOURCE CIRCLE_TAG_WORK_RECEIPT);
        match m with
        | None => mret t
        | Some (rank, _) =>
            _ ← call (ORecv rank CIRCLE_TAG_WORK_RECEIPT 0);
            w ← i32 (work_outstanding t - 1);
            workreceipt_loop n (set_term_flag 0 (set_work_outstanding w t))
        end
    end
  else mret t.

Definition CIRCLE_workreceipt_check (st : CIRCLE_state_st) : prog CIRCLE_state_st :=
  t ← workreceipt_loop (Z.to_nat (work_outstanding (st_term st))) (st_term st);
  mret (set_st_term t st).

(** [while(1)]: take every pending request; [n] rounds are left, one more
    than the array has cells, and the write past its end comes first. *)
Fixpoint workreq_loop (n : nat) (rcount : Z) (requestors : option (block Z))
    : prog (Z * option (block Z)) :=
  match n with
  | O => Stop NoFuel
  | S n =>
      m ← call (OIprobe MPI_ANY_SOURCE CIRCLE_TAG_WORK_REQUEST);
      match m with
      | None => mret (rcount, requestors)
      | Some (rank, _) =>
          _ ← call (ORecv rank CIRCLE_TAG_WORK_REQUEST 0);
          r ← deref requestors;
          r ← deref (store r rcount rank);
          rcount ← i32 (rcount + 1);
          workreq_loop n rcount (Some r)
      end
  end.

Definition workreq_rounds (requestors : option (block Z)) : nat :=
  match requestors with Some b => S (S (Z.to_nat (cap b))) | None => 2 end.

Fixpoint no_work_loop (n : nat) (i abort : Z) (requestors : block Z) (sn : send_st) : prog send_st :=
  match n with
  | O => mret sn
  | S n =>
      dest ← deref (load requestors i);
      sn ← CIRCLE_send_no_work abort sn dest;
      no_work_loop n (i + 1) abort requestors sn
  end.

Definition CIRCLE_workreq_check (options abort : Z) (qp : CIRCLE_internal_queue_t)
    (st : CIRCLE_state_st) (cleanup : Z) : prog (CIRCLE_internal_queue_t * CIRCLE_state_st) :=
  '(rcount, requestors) ← workreq_loop (workreq_rounds (st_requestors st)) 0 (st_requestors st);
  let st := set_st_requestors requestors st in
  if rcount =? 0 then mret (qp, st)
  else
    requestors ← deref requestors;
    backlog ← i32 (4 * st_size st);
    let send_backlog := backlog <=? send_count (st_send st) in
    if (q_count qp =? 0) || truth cleanup || truth abort || send_backlog then
      sn ← no_work_loop (Z.to_nat rcount) 0 abort requestors (st_send st);
      mret (qp, set_st_send sn st)
    else CIRCLE_send_work_to_many options abort qp st requestors rcount.
