(* ===== verification/TransferSpec.v ===== *)
(** * What a transfer of work carries

    Between two processes the items of a queue travel as two messages: the
    number of items, of characters and the offsets ([Ints]), and the
    characters ([Bytes]).  [carries items data text] is the format on the
    wire.  The lemmas of the first part say what the loops that pack and
    unpack it compute; they do not depend on the environment. *)
From S2P Require Import Prelude CMonad Mem Heap Queue Wire Tree State Mpi Sends Blocks Transfer.
From Stdlib Require Import Floats.SpecFloat.

(** ** The format *)

(** The characters and the offsets laid out in arrays of their own. *)
Definition text_block (text : list byte) : block byte :=
  Block 0 (Z.of_nat (length text)) (blit ∅ 0 text).
Definition offset_block (offs : list Z) : block Z :=
  Block 0 (Z.of_nat (length offs)) (blit ∅ 0 offs).

Record carries (items : list (list byte)) (data : list Z) (text : list byte) : Prop := Carries {
  ca_items : items ≠ [];
  ca_offsets : ∃ offs, data = Z.of_nat (length items) :: Z.of_nat (length text) :: 0 :: offs ∧
    length items = S (length offs) ∧
    layout (text_block text) (offset_block (0 :: offs)) items (Z.of_nat (length text));
}.

(** ** The layout, moved *)

(** Reading from a map whose cells have moved by [d]. *)
Lemma read_cells_move {A} (m m' : gmap Z A) d off n :
  (∀ i, off ≤ i < off + Z.of_nat n → m' !! (i - d) = m !! i) →
  read_cells m' (off - d) n = read_cells m off n.
Proof.
  revert off. induction n as [|n IH]; intros off H; [done|]. cbn [read_cells].
  rewrite (H off) by lia. replace (off - d + 1) with (off + 1 - d) by lia.
  rewrite (IH (off + 1)); [done|]. intros i Hi. apply H. lia.
Qed.

Lemma cstr_at_move b b' d off s :
  d ≤ off → off + Z.of_nat (length s) + 1 - d ≤ cap b' →
  (∀ i, off ≤ i < off + Z.of_nat (length s) + 1 → cells b' !! (i - d) = cells b !! i) →
  cstr_at b off s → cstr_at b' (off - d) s.
Proof.
  intros Hd Hcap H (Hs & Hoff & _ & Hr). split; [done|]. split; [lia|]. split; [lia|].
  rewrite <-Hr. apply read_cells_move. intros i Hi. apply H. lia.
Qed.

(** The strings [l1] stand above [l2]; [start] is where the lowest of them
    begins. *)
Definition starts_at (m : block Z) (l2 : list (list byte)) (start : Z) : Prop :=
  cells m !! Z.of_nat (length l2) = Some start.

Lemma layout_start b m l1 l2 top :
  l1 ≠ [] → layout b m (l1 ++ l2) top →
  ∃ start, starts_at m l2 start ∧ 0 ≤ start ∧ start + Z.of_nat (length l1) ≤ top ∧ layout b m l2 start.
Proof.
  revert top. induction l1 as [|s l1 IH]; intros top Hne; [done|]. cbn [app layout].
  intros (off & Hoff & Hs & Htop & Hl). destruct l1 as [|s' l1].
  - exists off. cbn in *. destruct Hs as (_ & ? & _). split; [done|]. split; [done|]. split; [lia|done].
  - destruct (IH off) as (start & ? & ? & Hlen & ?); [done|done|]. exists start.
    cbn [length] in *. split; [done|]. split; [done|]. split; [lia|done].
Qed.

Lemma layout_move b m b' m' l1 l2 top start :
  layout b m (l1 ++ l2) top → starts_at m l2 start → top - start ≤ cap b' →
  (∀ i, start ≤ i < top → cells b' !! (i - start) = cells b !! i) →
  (∀ i x, 0 ≤ i < Z.of_nat (length l1) → cells m !! (Z.of_nat (length l2) + i) = Some x →
     cells m' !! i = Some (x - start)) →
  layout b' m' l1 (top - start).
Proof.
  intros Hl Hst. revert top Hl. induction l1 as [|s l1 IH]; intros top Hl Hcap Hb Hm; [done|].
  cbn [app layout] in Hl. destruct Hl as (off & Hoff & Hs & Htop & Hl).
  assert (start ≤ off ∧ (l1 = [] → off = start)) as [Hle _].
  { destruct l1 as [|s' l1]; [unfold starts_at in Hst; cbn in Hoff; simplify_eq; lia|].
    destruct (layout_start _ _ (s' :: l1) _ _ ltac:(done) Hl) as (st' & Hst' & _ & Hlen & _).
    unfold starts_at in *. simplify_eq. split; [lia|done]. }
  cbn [layout]. exists (off - start). rewrite length_app in Hoff.
  split; [|split; [|split; [lia|]]].
  - apply Hm; [cbn; lia|]. rewrite <-Hoff. f_equal. lia.
  - apply (cstr_at_move b); [done|lia| |done]. intros i Hi. apply Hb. lia.
  - apply IH; [done|lia|intros i Hi; apply Hb; lia|].
    intros i x Hi. apply Hm. cbn [length]. lia.
Qed.

(** ** Packing *)

(** The top items [l1] of the queue, above [l2]: where their characters
    start and how many there are up to the end of the top item. *)
Record extent (qp : CIRCLE_internal_queue_t) (b : block byte) (m : block Z)
    (l1 l2 : list (list byte)) (start len : Z) : Prop := Extent {
  ex_items : l1 ≠ [];
  ex_queue : queue_blocks qp b m (l1 ++ l2);
  ex_start : starts_at m l2 start ∧ 0 ≤ start;
  ex_len : 0 < len ∧ start + len ≤ q_head qp;
  ex_layout : layout b m (l1 ++ l2) (start + len);
}.

(** The offset of the top item. *)
Definition top_offset (m : block Z) (stk : list (list byte)) (off : Z) : Prop :=
  cells m !! (Z.of_nat (length stk) - 1) = Some off.

Lemma send_extent_ok qp b m l1 l2 end_offset :
  l1 ≠ [] → queue_blocks qp b m (l1 ++ l2) → top_offset m (l1 ++ l2) end_offset →
  ∃ start len, send_extent qp (Z.of_nat (length l1)) end_offset = mret (start, len) ∧
    extent qp b m l1 l2 start len.
Proof.
  intros Hne Hq Htop. destruct l1 as [|s l1]; [done|]. pose proof Hq as [].
  cbn [app layout length] in qb_layout. destruct qb_layout as (off & Hoff & Hs & Hend & Hl).
  unfold top_offset in Htop. cbn [app length] in Htop.
  replace (Z.of_nat (S (length (l1 ++ l2))) - 1) with (Z.of_nat (length (l1 ++ l2))) in Htop by lia.
  rewrite Hoff in Htop. injection Htop as ->.
  assert (layout b m ((s :: l1) ++ l2) (end_offset + Z.of_nat (length s) + 1)) as Hly.
  { cbn [app layout]. exists end_offset. auto with lia. }
  destruct (layout_start _ _ (s :: l1) _ _ ltac:(done) Hly) as (start & Hst & H0 & Hle & Hl2).
  cbn [app length] in *. rewrite length_app in Hoff, qb_count.
  exists start, (end_offset + Z.of_nat (length s) + 1 - start).
  assert (0 ≤ Z.of_nat (length s)) by lia.
  assert (start ≤ end_offset) as Hse.
  { destruct l1 as [|s' l1]; [unfold starts_at in Hst; cbn in Hoff; simplify_eq; lia|].
    destruct (layout_start _ _ (s' :: l1) _ _ ltac:(done) Hl) as (st' & Hst' & _ & Hlen & _).
    unfold starts_at in *. simplify_eq. lia. }
  split.
  - unfold send_extent. rewrite qb_count. wp_i32. rewrite qb_strings.
    cbn [deref mbind prog_mbind prog_bind].
    rewrite (load_ok m _ start) by (unfold starts_at in Hst; try lia; by rewrite <-Hst; f_equal; lia).
    cbn [deref mbind prog_mbind prog_bind]. rewrite qb_base. cbn [deref mbind prog_mbind prog_bind].
    rewrite (load_cstr_spec _ _ s) by done. cbn [deref mbind prog_mbind prog_bind].
    unfold PTRDIFF_MAX in *. rewrite (u64_small (end_offset - start)), (u64_small (_ + 1)) by c_arith.
    rewrite u64_small by c_arith. do 2 f_equal. lia.
  - split; [done|done|done|lia|]. by replace (start + _) with (end_offset + Z.of_nat (length s) + 1) by lia.
Qed.

(** [back_off] leaves a smaller top part, whose characters fit an int
    unless it is a single item. *)
Lemma back_off_ok fuel qp b m l1 l2 end_offset start len :
  (length l1 ≤ fuel)%nat → extent qp b m l1 l2 start len → top_offset m (l1 ++ l2) end_offset →
  ∃ l1' l2' start' len', l1 ++ l2 = l1' ++ l2' ∧ (length l1' ≤ length l1)%nat ∧
    back_off fuel qp end_offset (Z.of_nat (length l1)) start len =
      mret (Z.of_nat (length l1'), start', len') ∧
    extent qp b m l1' l2' start' len' ∧ (len' ≤ INT32_MAX ∨ length l1' = 1%nat) ∧
    (len ≤ INT32_MAX → l1' = l1).
Proof.
  revert l1 l2 start len. induction fuel as [|fuel IH]; intros l1 l2 start len Hf He Htop.
  { pose proof (ex_items _ _ _ _ _ _ _ He). destruct l1; [done|cbn in Hf; lia]. }
  pose proof He as []. assert (length l1 ≠ 0%nat) as Hn by (by destruct l1).
  cbn [back_off]. destruct (Z.ltb_spec INT32_MAX len), (Z.ltb_spec 1 (Z.of_nat (length l1)));
    cbn [andb]; try (exists l1, l2, start, len; split; [done|]; split; [done|]; split; [done|]; split; [done|];
      split; [(left; lia) || (right; lia)|done]).
  set (next := if _ <=? _ then _ else _).
  assert (1 ≤ next < Z.of_nat (length l1)) as Hnext.
  { subst next. pose proof (Z.quot_lt (Z.of_nat (length l1)) 10).
    pose proof (Z.quot_pos (Z.of_nat (length l1)) 10).
    destruct (Z.leb_spec (Z.of_nat (length l1)) (Z.of_nat (length l1) - Z.quot (Z.of_nat (length l1)) 10)); lia. }
  clearbody next.
  assert (∃ a c, l1 = a ++ c ∧ Z.of_nat (length a) = next) as (a & c & -> & Ha).
  { exists (take (Z.to_nat next) l1), (drop (Z.to_nat next) l1). rewrite take_drop.
    split; [done|]. rewrite length_take. lia. }
  rewrite <-app_assoc in ex_queue0, Htop. assert (a ≠ []) as Hane by (intros ->; cbn in Ha; lia).
  destruct (send_extent_ok qp b m a (c ++ l2) end_offset) as (start2 & len2 & Hse & He2); [done..|].
  rewrite Ha in Hse. rewrite Hse. cbn [mbind prog_mbind prog_bind mret prog_mret]. rewrite <-Ha.
  destruct (IH a (c ++ l2) start2 len2) as (l1' & l2' & st' & len' & Hl & Hle & Hb & He' & Hor & _);
    [lia|done|done|]. exists l1', l2', st', len'.
  rewrite <-app_assoc. split; [done|]. split; [lia|]. split; [done|]. split; [done|]. split; [done|]. lia.
Qed.

Lemma blit_insert {A} (m : gmap Z A) k x off l :
  k < off → blit (<[k := x]> m) off l = <[k := x]> (blit m off l).
Proof.
  intros Hk. apply map_eq. intros i. rewrite blit_lookup, !lookup_insert, blit_lookup.
  repeat case_decide; done || lia.
Qed.

Lemma blit_app {A} (m : gmap Z A) off l1 l2 :
  blit m off (l1 ++ l2) = blit (blit m off l1) (off + Z.of_nat (length l1)) l2.
Proof.
  revert off. induction l1 as [|x l1 IH]; intros off; cbn [app blit length];
    [by rewrite Z.add_0_r|].
  rewrite blit_insert by lia. rewrite IH. do 2 f_equal. lia.
Qed.

Lemma load_list_ok {A} (b : block A) off n l :
  0 ≤ off → off + n ≤ cap b → read_cells (cells b) off (Z.to_nat n) = Some l → load_list b off n = Some l.
Proof.
  intros. unfold load_list, in_block.
  by rewrite (proj2 (Z.leb_le 0 off)), (proj2 (Z.leb_le _ (cap b))) by lia.
Qed.

Lemma send_offsets_ok n i elem start strings offsets xs :
  read_cells (cells strings) elem n = Some xs → 0 ≤ elem → elem + Z.of_nat n ≤ cap strings →
  0 ≤ i → 2 + i + Z.of_nat n ≤ cap offsets → Forall (λ x, start ≤ x ≤ start + INT32_MAX) xs →
  send_offsets n i elem start strings offsets =
    mret (Block (addr offsets) (cap offsets) (blit (cells offsets) (2 + i) (map (λ x, x - start) xs))).
Proof.
  revert i elem offsets xs. induction n as [|n IH]; intros i elem offsets xs Hr He Hc Hi Ho Hx.
  { cbn in Hr. injection Hr as <-. cbn. by destruct offsets. }
  cbn [read_cells] in Hr. destruct (cells strings !! elem) as [x|] eqn:Hcell; [|done].
  destruct (read_cells _ (elem + 1) n) as [xs'|] eqn:Hr'; [|done]. injection Hr as <-.
  apply Forall_cons in Hx as [Hx Hx']. cbn [send_offsets].
  rewrite (load_ok _ _ x) by (lia || done). cbn [deref mbind prog_mbind prog_bind].
  rewrite (u64_small (x - start)) by c_arith. rewrite to_i32_small by c_arith.
  unfold store. rewrite store_list_ok by (cbn; lia). cbn [deref mbind prog_mbind prog_bind blit].
  rewrite (IH _ _ _ xs') by (cbn; lia || done). cbn [addr cap cells map blit].
  replace (2 + (i + 1)) with (2 + i + 1) by lia. by rewrite blit_insert by lia.
Qed.

(** The offsets of the items [l1] above [l2]. *)
Lemma layout_offsets b m l1 l2 top start :
  layout b m (l1 ++ l2) top → starts_at m l2 start →
  ∃ xs, read_cells (cells m) (Z.of_nat (length l2)) (length l1) = Some xs ∧
    Forall (λ x, start ≤ x < top) xs ∧ (l1 ≠ [] → head xs = Some start).
Proof.
  intros Hl Hst.
  assert (∀ j, 0 ≤ j < Z.of_nat (length l1) → ∃ x, cells m !! (Z.of_nat (length l2) + j) = Some x ∧
    start ≤ x < top) as Hx.
  { revert top Hl. induction l1 as [|s l1 IH]; intros top Hl j Hj; [cbn in Hj; lia|].
    cbn [app layout] in Hl. destruct Hl as (off & Hoff & _ & Htop & Hl). rewrite length_app in Hoff.
    destruct (decide (j = Z.of_nat (length l1))) as [->|Hne].
    - exists off. split; [rewrite <-Hoff; f_equal; lia|]. split; [|lia].
      destruct l1 as [|s' l1]; [unfold starts_at in Hst; cbn in Hoff; simplify_eq; lia|].
      destruct (layout_start _ _ (s' :: l1) _ _ ltac:(done) Hl) as (st' & Hst' & _ & Hlen & _).
      unfold starts_at in *. simplify_eq. lia.
    - destruct (IH off Hl j) as (x & Hxc & ?); [cbn in Hj; lia|]. exists x. split; [done|lia]. }
  destruct (read_cells_total (cells m) (Z.of_nat (length l2)) (length l1)) as [xs Hxs].
  { intros i Hi. destruct (Hx (i - Z.of_nat (length l2))) as (x & Hxc & _); [lia|].
    exists x. rewrite <-Hxc. f_equal. lia. }
  exists xs. split; [done|]. pose proof (read_cells_length _ _ _ _ Hxs) as Hlen. split.
  - apply Forall_lookup. intros i x Hi. apply lookup_lt_Some in Hi as Hlt.
    rewrite <-(read_cells_lookup _ _ _ _ i Hxs) in Hi by lia.
    destruct (Hx (Z.of_nat i)) as (x' & Hx' & ?); [lia|]. congruence.
  - intros Hne. destruct l1 as [|s l1]; [done|]. rewrite list.head_lookup.
    rewrite <-(read_cells_lookup _ _ _ _ 0%nat Hxs) by (cbn; lia). by rewrite Z.add_0_r.
Qed.

(** What is stored in the two buffers of a transfer. *)
Lemma pack_ok qp b m l1 l2 start len po :
  extent qp b m l1 l2 start len → len ≤ INT32_MAX → Z.of_nat (length l1) + 2 ≤ INT32_MAX →
  ∃ data text, carries l1 data text ∧ Z.of_nat (length text) = len ∧
    ∀ A (k : list Z → list byte → prog A),
    (let count := Z.of_nat (length l1) in
     offsets ← deref (store_list (Block po (2 + count) ∅) 0 [count; len]);
     start_elem ← i32 (q_count qp - count);
     strings ← deref (q_strings qp);
     offsets ← send_offsets (Z.to_nat count) 0 start_elem start strings offsets;
     base ← deref (q_base qp);
     text ← deref (load_list base start len);
     data ← deref (load_list offsets 0 (2 + count));
     k data text) = k data text.
Proof.
  intros [Hne Hq [Hst H0] [Hpos Hlen] Hly] Hmax Hcount. pose proof Hq as []. rewrite length_app in qb_count.
  destruct (layout_offsets _ _ _ _ _ _ Hly Hst) as (xs & Hxs & Hall & Hhd).
  pose proof (read_cells_length _ _ _ _ Hxs) as Hxl.
  destruct (read_cells_total (cells b) start (Z.to_nat len)) as [text Htext]; [intros i Hi; apply qb_init; lia|].
  pose proof (read_cells_length _ _ _ _ Htext) as Htl.
  set (offs := map (λ x, x - start) xs). assert (length offs = length l1) as Hol by (subst offs; by rewrite length_map).
  set (data := Z.of_nat (length l1) :: len :: offs).
  exists data, text. assert (length data = (2 + length l1)%nat) as Hdl by (cbn; by rewrite Hol).
  split; [|split; [lia|]].
  - split; [done|]. destruct offs as [|o offs'] eqn:Ho; [destruct l1; [done|cbn in Hol; lia]|].
    assert (o = 0) as ->.
    { specialize (Hhd Hne). destruct xs as [|x xs]; [done|]. cbn in Hhd, Ho. subst offs.
      injection Hhd as ->. cbn in Ho. injection Ho as <- _. lia. }
    exists offs'. split; [subst data; do 2 f_equal; lia|]. split; [cbn in Hol; lia|].
    replace (Z.of_nat (length text)) with (start + len - start) by lia.
    apply (layout_move b m _ _ l1 l2); [done|done|cbn; lia|..].
    + intros i Hi. cbn. rewrite blit_lookup, decide_True by lia. rewrite Z.sub_0_r.
      rewrite <-(read_cells_lookup _ _ _ _ (Z.to_nat (i - start)) Htext) by lia. f_equal. lia.
    + intros i x Hi Hx. cbn [offset_block cells]. rewrite blit_lookup, decide_True by lia.
      rewrite Z.sub_0_r, <-Ho. subst offs. rewrite list_lookup_fmap.
      rewrite <-(read_cells_lookup _ _ _ _ (Z.to_nat i) Hxs) by lia.
      rewrite Z2Nat.id by lia. by rewrite Hx.
  - intros A k. cbv zeta. rewrite store_list_ok by (cbn; lia). cbn [deref mbind prog_mbind prog_bind addr cap cells].
    wp_i32. rewrite qb_strings. cbn [deref mbind prog_mbind prog_bind].
    rewrite Nat2Z.id. rewrite (send_offsets_ok _ _ _ _ _ _ xs); cbn [addr cap cells]; [| |lia|lia|lia|lia|].
    2: { rewrite <-Hxs. f_equal. lia. }
    2: { eapply Forall_impl; [exact Hall|]. intros x Hx. cbn beta in Hx. lia. }
    cbn [deref mbind mret prog_mret prog_mbind prog_bind]. rewrite qb_base. cbn [deref mbind prog_mbind prog_bind].
    rewrite (load_list_ok b _ _ text) by (lia || done). cbn [deref mbind prog_mbind prog_bind].
    rewrite (load_list_ok _ _ _ data); [done|lia|cbn; lia|]. cbn [cells addr cap].
    replace (blit _ (2 + 0) _) with (blit ∅ 0 data) by exact (blit_app ∅ 0 [Z.of_nat (length l1); len] offs).
    replace (Z.to_nat (2 + Z.of_nat (length l1))) with (length data) by lia. apply read_cells_blit_same.
Qed.

(** ** Unpacking *)

Lemma receive_offsets_ok n i offsets strings xs :
  read_cells (cells offsets) (i + 2) n = Some xs → 0 ≤ i → i + 2 + Z.of_nat n ≤ cap offsets →
  i + Z.of_nat n ≤ cap strings → Forall (λ x, 0 ≤ x ≤ INT32_MAX) xs →
  receive_offsets n i offsets strings =
    mret (Block (addr strings) (cap strings) (blit (cells strings) i xs)).
Proof.
  revert i strings xs. induction n as [|n IH]; intros i strings xs Hr Hi Ho Hs Hx.
  { cbn in Hr. injection Hr as <-. by destruct strings. }
  cbn [read_cells] in Hr. destruct (cells offsets !! (i + 2)) as [x|] eqn:Hcell; [|done].
  destruct (read_cells _ (i + 2 + 1) n) as [xs'|] eqn:Hr'; [|done]. injection Hr as <-.
  apply Forall_cons in Hx as [Hx Hx']. cbn [receive_offsets].
  rewrite (load_ok _ _ x) by (lia || done). cbn [deref mbind prog_mbind prog_bind].
  rewrite (u64_small x) by c_arith.
  unfold store. rewrite store_list_ok by (cbn; lia). cbn [deref mbind prog_mbind prog_bind blit].
  replace (i + 2 + 1) with (i + 1 + 2) in Hr' by lia.
  rewrite (IH _ _ xs') by (cbn; lia || done). cbn [addr cap cells blit]. by rewrite blit_insert by lia.
Qed.

(** All offsets of a transfer point into its characters. *)
Lemma carries_offsets items data text :
  carries items data text →
  ∃ xs, data = Z.of_nat (length items) :: Z.of_nat (length text) :: xs ∧ length xs = length items ∧
    head xs = Some 0 ∧ Forall (λ x, 0 ≤ x < Z.of_nat (length text)) xs ∧
    layout (text_block text) (offset_block xs) items (Z.of_nat (length text)).
Proof.
  intros [Hne (offs & -> & Hlen & Hl)]. exists (0 :: offs). do 2 (split; [done|]). split; [done|].
  split; [|done]. rewrite <-(app_nil_r items) in Hl.
  destruct (layout_offsets _ _ _ _ _ 0 Hl) as (xs & Hxs & Hall & _); [apply lookup_insert_eq|].
  assert (Some xs = Some (0 :: offs)) as [= ->].
  { rewrite <-Hxs, Hlen. exact (read_cells_blit_same ∅ 0 (0 :: offs)). }
  exact Hall.
Qed.

(** The queue after the loop that stores the offsets, its head set to the
    end of the top item. *)
Lemma unpack_ok qp base m offsets items data text :
  carries items data text →
  q_base qp = Some base → q_strings qp = Some m → cap base = q_bytes qp → cap m = q_str_count qp →
  Z.of_nat (length items) ≤ q_str_count qp ≤ INT32_MAX → q_bytes qp ≤ PTRDIFF_MAX →
  Z.of_nat (length text) ≤ q_bytes qp → Z.of_nat (length text) ≤ INT32_MAX →
  (∀ i, 0 ≤ i < Z.of_nat (length text) → cells base !! i = text !! Z.to_nat i) →
  read_cells (cells offsets) 0 (length data) = Some data → Z.of_nat (length data) ≤ cap offsets →
  ∃ strings off s, let count := Z.of_nat (length items) in
    receive_offsets (Z.to_nat count) 0 offsets m = mret strings ∧ load strings 0 = Some 0 ∧
    load strings (count - 1) = Some off ∧ load_cstr base off = Some s ∧
    0 ≤ off ∧ off + Z.of_nat (length s) + 1 ≤ Z.of_nat (length text) ∧ addr strings = addr m ∧
    queue_blocks (with_head (off + (Z.of_nat (length s) + 1)) (with_count count (with_strings (Some strings) qp)))
      base strings items.
Proof.
  intros Hc Hb Hm Hcb Hcm Hcount Hmax Hbytes Hi32 Htext Hdata Hocap.
  pose proof (ca_items _ _ _ Hc) as Hne.
  destruct (carries_offsets _ _ _ Hc) as (xs & -> & Hxl & Hhd & Hall & Hl). cbn [length] in Hocap.
  set (strings := Block (addr m) (cap m) (blit (cells m) 0 xs)).
  assert (∀ i, 0 ≤ i < Z.of_nat (length xs) → cells strings !! i = xs !! Z.to_nat i) as Hstr.
  { intros i Hi. cbn. rewrite blit_lookup, decide_True by lia. by rewrite Z.sub_0_r. }
  assert (layout base strings items (Z.of_nat (length text))) as Hly.
  { rewrite <-(Z.sub_0_r (Z.of_nat (length text))).
    apply (layout_move (text_block text) (offset_block xs) _ _ items []);
      [by rewrite app_nil_r|by destruct xs; [|injection Hhd as ->; apply lookup_insert_eq]|lia|..].
    - intros i Hi. cbn. rewrite blit_lookup, decide_True by lia. by rewrite !Z.sub_0_r, Htext by lia.
    - intros i x Hi Hx. cbn [offset_block cells length Z.of_nat] in Hx.
      rewrite blit_lookup, decide_True in Hx by lia. rewrite Hstr by lia.
      rewrite !Z.sub_0_r in *. done. }
  destruct items as [|s items]; [done|]. pose proof Hly as (off & Hoff & Hs & Htop & _).
  pose proof Hs as (_ & H0 & _). exists strings, off, s. cbv zeta. cbn [length] in *.
  replace (Z.of_nat (length items)) with (Z.of_nat (S (length items)) - 1) in Hoff by lia.
  split; [|split; [|split; [|split; [|do 3 (split; [done || lia|])]]]].
  - apply receive_offsets_ok; [|lia..|].
    + rewrite Nat2Z.id.
      rewrite <-Hxl. change (0 + 2) with (0 + 1 + 1). cbn [read_cells] in Hdata.
      destruct (cells offsets !! 0), (cells offsets !! (0 + 1)); try done.
      destruct (read_cells _ (0 + 1 + 1) _); [|done]. by injection Hdata as _ _ ->.
    + eapply Forall_impl; [exact Hall|]. intros x Hx. cbn beta in Hx. lia.
  - apply load_ok; [cbn; lia|]. rewrite Hstr by lia. by rewrite <-list.head_lookup.
  - apply load_ok; [cbn; lia|done].
  - by apply load_cstr_spec.
  - split; cbn; [done|done|done|done|done|lia|lia|done|..].
    + intros i Hi. rewrite Htext by lia. apply lookup_lt_is_Some. lia.
    + exists off. destruct Hly as (off' & Hoff' & _ & _ & Hl').
      replace (Z.of_nat (S (length items)) - 1) with (Z.of_nat (length items)) in Hoff by lia.
      assert (off' = off) as -> by congruence. auto with lia.
Qed.

(** ** Sending work *)

Definition reply (dest : Z) (m : payload) : message := Msg dest CIRCLE_TAG_WORK_REPLY m.

(** Room for [n] more sends without overflow of the capacity. *)
Definition can_track (n : nat) (sn : send_st) : Prop :=
  send_capacity sn * 2 ^ Z.of_nat n ≤ INT32_MAX ∧ Z.of_nat n ≤ 25.

Lemma can_track_step n sn sn' :
  can_track (S n) sn → send_capacity sn' ≤ Z.max 32 (2 * send_capacity sn) →
  can_track n sn' ∧ 2 * send_capacity sn ≤ INT32_MAX.
Proof.
  unfold can_track. intros [Hc Hn] Hs. rewrite Nat2Z.inj_succ, Z.pow_succ_r in Hc by lia.
  assert (0 < 2 ^ Z.of_nat n ≤ 2 ^ 25) as Hp by (split; [lia|apply Z.pow_le_mono_r; lia]).
  change (2 ^ 25) with 33554432 in Hp. unfold INT32_MAX in *. split; [split; [|lia]|]; nia.
Qed.

Lemma send_items_wp oom g F qp o sn l b m l1 l2 start len dest :
  process_mem g F qp o sn l → extent qp b m l1 l2 start len → len ≤ INT32_MAX →
  Z.of_nat (length l1) + 2 ≤ INT32_MAX → can_track 2 sn →
  wp (mpi oom) (send_items qp sn dest (Z.of_nat (length l1)) start len)
    (λ g' sn', ∃ data text sends, carries l1 data text ∧ Z.of_nat (length text) ≤ INT32_MAX ∧
       process_mem g' F qp o sn' (l ++ sends) ∧
       v_sent g' = v_sent g ++ [reply dest (Ints data); reply dest (Bytes text)] ∧ v_in g' = v_in g ∧
       can_track 0 sn')
    (λ _ e, oom = true ∧ e = MPI_Aborted LIBCIRCLE_MPI_ERROR) g.
Proof.
  intros Hp He Hlen Hcount Hcap. unfold send_items. rewrite (i32_ok (2 + _)) by c_arith.
  cbn [mbind mret prog_mbind prog_mret prog_bind].
  apply wp_seq. apply (malloc_wp oom _ g F qp o sn l); [done|intros Hoom; apply wp_seq; cbn|].
  { split; [done|]. intros r g' _. by destruct r. }
  intros po g1 Hp1 Hg1. apply wp_seq. apply (malloc_wp oom _ g1 (po :: F) qp o sn l); [done|done|].
  intros pb g2 Hp2 Hg2.
  assert (same_messages g g2) as (Hpe & Hse & Hin) by (by etrans).
  destruct (pack_ok qp b m l1 l2 start len po) as (data & text & Hcar & Hdl & Hpack);
    [done|done|done|]. cbv zeta in Hpack. rewrite Hpack. clear Hpack.
  assert (process_mem g2 (po :: pb :: F) qp o sn l) as Hp3.
  { by rewrite (perm_swap pb po F). }
  assert (2 * send_capacity sn ≤ INT32_MAX) as Hcap1 by (by apply (can_track_step 1 sn (mk_send_st 0 0 None None)); [|cbn; lia]).
  apply process_mem_drop in Hp3 as (Hp3 & Hupo & Hnpo).
  cbn. split; [done|]. intros r1 g3 [Hr1 ->]. apply wp_seq.
  eapply track_post_wp; [done|done|by intros p [= <-]|done| |done].
  intros g4 sn4 Hp4 Hs4 Hi4 Hc4. destruct (can_track_step 1 sn sn4 Hcap Hc4) as [Hcap4 _].
  apply process_mem_drop in Hp4 as (Hp4 & Hupb & Hnpb).
  cbn. split; [done|]. intros r2 g5 [Hr2 ->].
  eapply track_post_wp; [done|done|by intros p [= <-]|by eapply (can_track_step 0 sn4 sn4); [|lia]| |done].
  intros g6 sn6 Hp6 Hs6 Hi6 Hc6. destruct (can_track_step 0 sn4 sn6 Hcap4 Hc6) as [Hcap6 _].
  exists data, text, ([(r1, Some po)] ++ [(r2, Some pb)]). rewrite (assoc_L (++)).
  split; [done|]. split; [lia|]. split; [done|]. rewrite Hs6, Hs4, Hse, Hi6, Hi4, Hin.
  split; [by rewrite <-app_assoc|done].
Qed.

Definition no_work_word (abort : Z) : Z := if truth abort then PAYLOAD_ABORT else 0.

Lemma send_no_work_wp oom g F qp o sn l abort dest :
  process_mem g F qp o sn l → can_track 1 sn →
  wp (mpi oom) (CIRCLE_send_no_work abort sn dest)
    (λ g' sn', ∃ sends, process_mem g' F qp o sn' (l ++ sends) ∧
       v_sent g' = v_sent g ++ [reply dest (Ints [no_work_word abort])] ∧ v_in g' = v_in g ∧
       can_track 0 sn')
    (λ _ e, oom = true ∧ e = MPI_Aborted LIBCIRCLE_MPI_ERROR) g.
Proof.
  intros Hp Hcap. unfold CIRCLE_send_no_work.
  apply wp_seq. apply (malloc_wp oom _ g F qp o sn l); [done|by intros Hoom|].
  intros p g1 Hp1 (Hpe & Hse & Hin). apply process_mem_drop in Hp1 as (Hp1 & Hup & Hnp).
  cbn. split; [done|]. intros r g2 [Hr ->].
  eapply track_post_wp; [done|done|by intros q [= <-]|by apply (can_track_step 0 sn sn); [|lia]| |done].
  intros g3 sn3 Hp3 Hs3 Hi3 Hc3. destruct (can_track_step 0 sn sn3 Hcap Hc3) as [Hcap3 _].
  exists [(r, Some p)]. split; [done|]. by rewrite Hs3, Hi3, Hse, Hin.
Qed.

(** A queue without its top items. *)
Lemma queue_drop_top qp b m l1 l2 :
  queue_blocks qp b m (l1 ++ l2) → queue_rep (with_count (Z.of_nat (length l2)) qp) l2.
Proof.
  intros []. rewrite length_app in qb_count. destruct (layout_app _ _ _ _ _ qb_layout) as (top & Ht & Hl).
  exists b, m. split; cbn; [done|done|done|done|done|lia|done|done|done|]. by eapply layout_mono.
Qed.

Lemma queue_top_offset qp b m stk :
  queue_blocks qp b m stk → stk ≠ [] →
  ∃ off, top_offset m stk off ∧ load m (q_count qp - 1) = Some off.
Proof.
  intros [] Hne. destruct stk as [|s stk]; [done|]. destruct qb_layout as (off & Hoff & _).
  exists off. unfold top_offset. cbn [length] in *.
  replace (Z.of_nat (S (length stk)) - 1) with (Z.of_nat (length stk)) by lia. split; [done|].
  apply load_ok; [lia|]. rewrite <-Hoff. f_equal. lia.
Qed.

(** What CIRCLE_send_work with a positive count does to queue and messages. *)
Definition work_sent (g g' : view) (abort dest count rc : Z) (stk rest : list (list byte))
    (st st' : CIRCLE_state_st) : Prop :=
  ∃ top, stk = top ++ rest ∧
  ((rc = 0 ∧ (0 < Z.of_nat (length top) ≤ count) ∧
    work_outstanding (st_term st') = work_outstanding (st_term st) + 1 ∧
    ∃ data text, carries top data text ∧ Z.of_nat (length text) ≤ INT32_MAX ∧
      v_sent g' = v_sent g ++ [reply dest (Ints data); reply dest (Bytes text)]) ∨
   (rc = -1 ∧ top = [] ∧ st_term st' = st_term st ∧
    v_sent g' = v_sent g ++ [reply dest (Ints [no_work_word abort])])).

Lemma send_work_wp oom g F qp st l stk abort dest count :
  process_mem g F qp (st_offsets st) (st_send st) l → queue_rep qp stk →
  0 < count ≤ Z.of_nat (length stk) → count + 2 ≤ INT32_MAX → can_track 2 (st_send st) →
  0 ≤ work_outstanding (st_term st) < INT32_MAX →
  wp (mpi oom) (CIRCLE_send_work abort qp st dest count)
    (λ g' '(rc, qp', st'), ∃ sends rest, queue_rep qp' rest ∧
       process_mem g' F qp' (st_offsets st') (st_send st') (l ++ sends) ∧ v_in g' = v_in g ∧
       can_track 0 (st_send st') ∧ work_sent g g' abort dest count rc stk rest st st')
    (λ _ e, oom = true ∧ e = MPI_Aborted LIBCIRCLE_MPI_ERROR) g.
Proof.
  intros Hp (b & m & Hq) Hcount Hmax Hcap Hwork. unfold CIRCLE_send_work.
  rewrite (proj2 (Z.leb_gt _ _)) by lia.
  set (st1 := if _ || _ then _ else _).
  assert (st_offsets st1 = st_offsets st ∧ st_send st1 = st_send st ∧ st_term st1 = st_term st) as (Ho1 & Hs1 & Ht1)
    by (subst st1; by case_match).
  clearbody st1.
  assert (∃ l1 l2, stk = l1 ++ l2 ∧ Z.of_nat (length l1) = count) as (l1 & l2 & -> & Hl1).
  { exists (take (Z.to_nat count) stk), (drop (Z.to_nat count) stk).
    rewrite take_drop. split; [done|]. rewrite length_take. lia. }
  pose proof Hq as []. destruct (queue_top_offset _ _ _ _ Hq) as (off & Hoff & Hload); [by destruct l1; [cbn in *; lia|]|].
  rewrite length_app in qb_count.
  rewrite (i32_ok (q_count qp - 1)) by c_arith. cbn [mbind mret prog_mbind prog_mret prog_bind].
  rewrite qb_strings. cbn [deref mbind prog_mbind prog_bind]. rewrite Hload. cbn [deref mbind prog_mbind prog_bind].
  subst count. destruct (send_extent_ok qp b m l1 l2 off) as (start & len & -> & He);
    [by destruct l1; [cbn in *; lia|]|done|done|]. cbn [mbind mret prog_mbind prog_mret prog_bind].
  rewrite Nat2Z.id. destruct (back_off_ok _ _ _ _ _ _ off _ _ (le_n _) He Hoff)
    as (l1' & l2' & start' & len' & Hl & Hle & -> & He' & Hor & _).
  cbn [mbind mret prog_mbind prog_mret prog_bind]. rewrite Hl.
  rewrite <-Ho1, <-Hs1 in *. destruct (Z.ltb_spec INT32_MAX len').
  - apply wp_seq. eapply wp_mono; [..|apply (send_no_work_wp oom g F qp (st_offsets st1) (st_send st1) l)];
      [| |done|]; [|by intros|by apply (can_track_step 1 _ (st_send st1) Hcap); lia].
    intros g1 sn1 (sends & Hp1 & Hsent & Hin & Hc1). exists sends, (l1' ++ l2').
    split; [exists b, m; by rewrite <-Hl|]. do 2 (split; [done|]). split; [done|].
    exists []. split; [done|]. by right.
  - apply wp_seq. eapply wp_mono; [..|apply (send_items_wp oom g F qp (st_offsets st1) (st_send st1) l b m l1' l2')];
      [| |done|done|done|lia|done]; [|by intros].
    intros g1 sn1 (data & text & sends & Hcar & Htext & Hp1 & Hsent & Hin & Hc1).
    assert (Z.of_nat (length l1') + Z.of_nat (length l2') = q_count qp) as Hn.
    { rewrite qb_count, <-Nat2Z.inj_add, <-!length_app. by rewrite Hl. }
    rewrite (i32_ok (q_count qp - _)) by c_arith. rewrite Ht1, (i32_ok (work_outstanding _ + 1)) by c_arith.
    exists sends, l2'.
    replace (q_count qp - Z.of_nat (length l1')) with (Z.of_nat (length l2')) by lia.
    split; [by eapply queue_drop_top, He'|]. split; [by eapply process_mem_eq; [|exact Hp1]|].
    do 2 (split; [done|]). exists l1'. split; [done|]. left. pose proof (ex_items _ _ _ _ _ _ _ He').
    split; [done|]. split; [destruct l1'; [done|cbn in *; lia]|]. split; [done|].
    exists data, text. done.
Qed.

(** ** Receiving work *)

Definition offsets_ok (o : offsets_st) : Prop :=
  0 ≤ offsets_count o ≤ INT32_MAX ∧
  match offsets_recv_buf o with Some b => cap b = offsets_count o | None => offsets_count o = 0 end.

Lemma my_blocks_offsets F qp o sn :
  my_blocks F qp o sn ≡ₚ opt_block (offsets_recv_buf o) ++
    (F ++ queue_owned qp ++ opt_block (send_reqs sn) ++ opt_block (send_bufs sn)).
Proof. unfold my_blocks. solve_Permutation. Qed.

Lemma extend_offsets_wp oom g F qp o sn l size :
  process_mem g F qp o sn l → offsets_ok o → 0 < size → size + 4095 ≤ INT32_MAX →
  wp (mpi oom) (CIRCLE_extend_offsets o size)
    (λ g' '(rc, o'), (rc = 0 ∧ process_mem g' F qp o' sn l ∧ same_messages g g' ∧ offsets_ok o' ∧
                      size ≤ offsets_count o') ∨ (oom = true ∧ rc = -1))
    (λ _ _, False) g.
Proof.
  intros Hp [Hc Hbuf] Hpos Hsize. unfold CIRCLE_extend_offsets.
  destruct (Z.leb_spec size (offsets_count o)); [left; split_and!; [done|done|done|by split|done]|].
  destruct (grow_str_count_ok (grow_fuel (offsets_count o) size) (offsets_count o) size)
    as (r & -> & Hr1 & Hr2 & Hr3); [lia|lia|apply grow_fuel_enough; lia|].
  cbn [mbind mret prog_mbind prog_mret prog_bind]. pose proof Hp as [Hs Ho Hn Hu].
  apply wp_seq, realloc_wp.
  - intros p Ho'. apply Hu, elem_of_my_blocks. rewrite elem_of_opt_block. tauto.
  - intros Hoom. right. done.
  - intros p Hfresh. left. rewrite elem_of_without in Hfresh.
    set (o' := mk_offsets_st _ _). pose proof Hn as Hn'. rewrite my_blocks_offsets in Hn'.
    apply NoDup_app in Hn' as (_ & Hn1 & Hn2).
    set (rest := F ++ _) in *.
    assert (∀ q, q ∈ rest → (q ∈ v_live g ∧ (addr <$> offsets_recv_buf o) ≠ Some q) ∧ ¬ in_flight g q) as Hrest.
    { intros q Hq. destruct (Hu q) as [Hl Hf]; [rewrite my_blocks_offsets, elem_of_app; by right|].
      split; [split; [done|]|done]. rewrite <-elem_of_opt_block. intros Hq'. by apply (Hn1 q). }
    assert (my_blocks F qp o' sn ≡ₚ p :: rest) as Hb by apply my_blocks_offsets.
    split; [done|]. split; [|split; [done|split; [split; [cbn; lia|done]|done]]].
    apply (process_mem_live g F qp o sn l); [done|rewrite Hb|intros q; rewrite Hb|].
    + apply NoDup_cons. split; [|done]. intros Hq%Hrest. tauto.
    + rewrite elem_of_union, elem_of_singleton, elem_of_without. intros [->|Hq]%elem_of_cons.
      * split; [by left|]. intros Hf. pose proof (in_flight_live _ _ _ Ho Hf).
        destruct (decide ((addr <$> offsets_recv_buf o) = Some p)) as [Heq|]; [|tauto].
        rewrite <-elem_of_opt_block in Heq. destruct (Hu p); [|done].
        rewrite my_blocks_offsets, elem_of_app. by left.
      * destruct (Hrest q Hq). tauto.
    + intros q Hf. rewrite elem_of_union, elem_of_without. right. split; [by eapply in_flight_live|].
      intros Heq. rewrite <-elem_of_opt_block in Heq. destruct (Hu q); [|done].
      rewrite my_blocks_offsets, elem_of_app. by left.
Qed.

Lemma recv_ints_wp oom g src tag count ob data rest (Q : view → block Z → Prop) E :
  take_first src tag (v_in g) = Some (Ints data, rest) →
  Z.of_nat (length data) ≤ count → count ≤ cap ob →
  Q (set_in rest g) (Block (addr ob) (cap ob) (blit (cells ob) 0 data)) →
  wp (mpi oom) (recv_ints (Some ob) count src tag) Q E g.
Proof.
  intros Htf Hlen Hcap HQ. cbn. split; [done|]. intros r g' (l & Hr & ->).
  rewrite Htf in Hr. injection Hr as <- <-. test_false. cbn. by rewrite store_list_ok by lia.
Qed.

Lemma recv_chars_wp oom g src tag count bb text rest (Q : view → block byte → Prop) E :
  take_first src tag (v_in g) = Some (Bytes text, rest) →
  Z.of_nat (length text) ≤ count → count ≤ cap bb →
  Q (set_in rest g) (Block (addr bb) (cap bb) (blit (cells bb) 0 text)) →
  wp (mpi oom) (recv_chars (Some bb) count src tag) Q E g.
Proof.
  intros Htf Hlen Hcap HQ. cbn. split; [done|]. intros r g' (l & Hr & ->).
  rewrite Htf in Hr. injection Hr as <- <-. test_false. cbn. by rewrite store_list_ok by lia.
Qed.

(** An empty queue with room for [n] characters, after [extend]. *)
Lemma grow_queue_wp oom g F qp o sn l b m n :
  process_mem g F qp o sn l → queue_blocks qp b m [] → n ≤ PTRDIFF_MAX + 4096 →
  wp (mpi oom) (if q_bytes qp <? n then CIRCLE_internal_queue_extend qp n else mret (0, qp))
    (λ g' '(rc, qp'), (rc = 0 ∧ process_mem g' F qp' o sn l ∧ same_messages g g' ∧
       ((∃ b', queue_blocks qp' b' m []) ∧ n ≤ q_bytes qp')) ∨ (oom = true ∧ rc = -1))
    (λ _ _, False) g.
Proof.
  intros Hp Hq Hn. destruct (Z.ltb_spec (q_bytes qp) n).
  - eapply queue_heap_wp; [done|]. eapply wp_post; [|eapply extend_wp; [done|by eapply queue_set_owns|lia|lia]].
    intros h [rc qp'] [(-> & ? & ? & ? & _)|?]; [left; auto|by right].
  - left. split; [done|]. split; [done|]. split; [done|]. split; [by exists b|done].
Qed.

(** The same for offsets, after [str_extend]. *)
Lemma grow_strings_wp oom g F qp o sn l b m n :
  process_mem g F qp o sn l → queue_blocks qp b m [] → n + 4095 ≤ INT32_MAX →
  wp (mpi oom) (if q_str_count qp <? n then CIRCLE_internal_queue_str_extend qp n else mret (0, qp))
    (λ g' '(rc, qp'), (rc = 0 ∧ process_mem g' F qp' o sn l ∧ same_messages g g' ∧
       ((∃ m', queue_blocks qp' b m' []) ∧ n ≤ q_str_count qp' ∧ q_bytes qp' = q_bytes qp)) ∨
       (oom = true ∧ rc = -1))
    (λ _ _, False) g.
Proof.
  intros Hp Hq Hn. destruct (Z.ltb_spec (q_str_count qp) n).
  - eapply queue_heap_wp; [done|]. eapply wp_post; [|eapply str_extend_wp; [done|by eapply queue_set_owns|lia|lia]].
    intros h [rc qp'] [(-> & ? & ? & ? & _ & ?)|?]; [left; auto|by right].
  - left. split; [done|]. split; [done|]. split; [done|]. split; [by exists m|done].
Qed.

(** Characters received at the start of the pool of an empty queue. *)
Lemma queue_blocks_text qp b m text :
  queue_blocks qp b m [] → Z.of_nat (length text) ≤ q_bytes qp →
  queue_blocks (with_base (Some (Block (addr b) (cap b) (blit (cells b) 0 text))) qp)
    (Block (addr b) (cap b) (blit (cells b) 0 text)) m [].
Proof.
  intros [] Hlen. split; cbn; [done|done|done|done|done|done|done|done| |done].
  intros i Hi. rewrite blit_lookup. case_decide; [|by apply qb_init].
  apply lookup_lt_is_Some. lia.
Qed.

Definition receipt (dest : Z) : message := Msg dest CIRCLE_TAG_WORK_RECEIPT (Bytes []).

Lemma set_in_mem l' g F qp o sn l :
  process_mem g F qp o sn l → process_mem (set_in l' g) F qp o sn l.
Proof. intros [[? ? ?] [? ? ? ?] ? ?]. split; [by split|by split|done|done]. Qed.

Lemma receive_items_wp oom g F qp st l b m offs source items data text rest :
  process_mem g F qp (st_offsets st) (st_send st) l → queue_blocks qp b m [] →
  carries items data text →
  read_cells (cells offs) 0 (length data) = Some data → Z.of_nat (length data) ≤ cap offs →
  take_first source CIRCLE_TAG_WORK_REPLY (v_in g) = Some (Bytes text, rest) →
  Z.of_nat (length text) ≤ INT32_MAX → Z.of_nat (length items) + 4095 ≤ INT32_MAX →
  q_head qp + Z.of_nat (length text) ≤ PTRDIFF_MAX → can_track 1 (st_send st) →
  wp (mpi oom) (receive_items qp st offs source (Z.of_nat (length items)))
    (λ g' '(rc, qp', st'), ∃ sends, rc = 0 ∧ queue_rep qp' items ∧
       process_mem g' F qp' (st_offsets st') (st_send st') (l ++ sends) ∧
       v_in g' = rest ∧ v_sent g' = v_sent g ++ [receipt source] ∧
       st_term st' = st_term st ∧ can_track 0 (st_send st'))
    (λ _ e, oom = true ∧ e = MPI_Aborted LIBCIRCLE_MPI_ERROR) g.
Proof.
  intros Hp Hq Hc Hdata Hcap Htf Htext Hitems Hhead Htrack.
  destruct (carries_offsets _ _ _ Hc) as (xs & Hxs & Hxl & _).
  assert (load offs 1 = Some (Z.of_nat (length text))) as Hload.
  { apply load_ok; [subst data; cbn in *; pose proof (ca_items _ _ _ Hc); destruct items; [done|cbn in *; lia]|].
    pose proof (read_cells_lookup _ 0 _ _ 1%nat Hdata) as H1. subst data. apply H1. cbn. lia. }
  unfold receive_items. rewrite Hload. cbn [deref mbind prog_mbind prog_bind].
  pose proof (qb_head _ _ _ _ Hq). unfold PTRDIFF_MAX in Hhead.
  rewrite (u64_small (Z.of_nat (length text))), u64_small by c_arith.
  apply wp_seq. eapply wp_mono; [| |apply (grow_queue_wp oom g F qp (st_offsets st) (st_send st) l b m);
    [done|done|unfold PTRDIFF_MAX; lia]]; [|done].
  intros g1 [rc qp1] [(-> & Hp1 & (Hpe1 & Hse1 & Hin1) & (b1 & Hq1) & Hn1)|[Hoom ->]]; [|done].
  cbn [Z.ltb Z.compare]. rewrite (qb_base _ _ _ _ Hq1).
  apply wp_seq. eapply (recv_chars_wp oom g1 _ _ _ b1 text rest); [by rewrite Hin1|lia|rewrite (qb_cap _ _ _ _ Hq1); lia|].
  pose proof (queue_blocks_text _ _ _ text Hq1 ltac:(lia)) as Hq2. set (base := Block _ _ _) in *.
  apply wp_seq. eapply wp_mono; [| |apply (grow_strings_wp oom _ F (with_base (Some base) qp1) (st_offsets st) (st_send st) l base m);
    [|done|lia]]; [|done|].
  2: { apply set_in_mem. eapply process_mem_eq; [|exact Hp1].
       unfold my_blocks, queue_owned. by rewrite (qb_base _ _ _ _ Hq1). }
  intros g3 [rc qp3] [(-> & Hp3 & (Hpe3 & Hse3 & Hin3) & (m3 & Hq3) & Hn3 & Hb3)|[Hoom ->]]; [|done].
  cbn [Z.ltb Z.compare]. pose proof Hq3 as [].
  destruct (unpack_ok qp3 base m3 offs items data text) as (strings & off & s & Hro & H0 & Hoff & Hs & Hoff0 & Hofft & Hsaddr & Hq4);
    try done; [lia|cbn in Hb3; lia|intros i Hi; cbn; rewrite blit_lookup, decide_True by lia; f_equal; lia|].
  rewrite qb_strings. cbn [deref mbind prog_mbind prog_bind]. rewrite Hro. cbn [mret prog_mret mbind prog_mbind prog_bind].
  rewrite H0. cbn [deref mbind prog_mbind prog_bind]. cbn [Z.eqb negb]. rewrite Hoff, qb_base.
  cbn [deref mbind prog_mbind prog_bind]. rewrite Hs. cbn [deref mbind prog_mbind prog_bind].
  cbn. split; [done|]. intros r g4 [Hr ->]. apply wp_seq.
  eapply track_post_wp; [exact Hp3|done|done|by apply (can_track_step 0 _ (st_send st) Htrack); lia| |done].
  intros g5 sn5 Hp5 Hs5 Hi5 Hc5. destruct (can_track_step 0 _ sn5 Htrack Hc5) as [Hcap5 _].
  rewrite (u64_small (Z.of_nat (length s) + 1)), u64_small by c_arith.
  exists [(r, None)]. split; [done|]. split; [by exists base, strings|]. split.
  { eapply process_mem_eq; [|exact Hp5]. unfold my_blocks, queue_owned. cbn. by rewrite qb_strings, Hsaddr. }
  rewrite Hi5, Hs5, Hin3, Hse3. cbn. by rewrite Hse1.
Qed.

(** The reply that a process is waiting for: two messages from [source]
    that carry [items]. *)
Definition incoming (g : view) (source : Z) (items : list (list byte)) (rest : list message) : Prop :=
  ∃ data text l, carries items data text ∧ Z.of_nat (length text) ≤ INT32_MAX ∧
    take_first source CIRCLE_TAG_WORK_REPLY (v_in g) = Some (Ints data, l) ∧
    take_first source CIRCLE_TAG_WORK_REPLY l = Some (Bytes text, rest).

Lemma carries_data items data text :
  carries items data text → Z.of_nat (length data) = 2 + Z.of_nat (length items).
Proof. intros (xs & -> & <- & _)%carries_offsets. cbn [length]. lia. Qed.

Lemma work_receive_wp oom g F qp st l source items rest abort :
  process_mem g F qp (st_offsets st) (st_send st) l → queue_rep qp [] → offsets_ok (st_offsets st) →
  incoming g source items rest → Z.of_nat (length items) + 4097 ≤ INT32_MAX →
  q_head qp + INT32_MAX ≤ PTRDIFF_MAX → can_track 1 (st_send st) →
  wp (mpi oom) (CIRCLE_work_receive abort qp st source (2 + Z.of_nat (length items)))
    (λ g' '(rc, abort', qp', st'), ∃ sends, rc = 0 ∧ abort' = abort ∧ queue_rep qp' items ∧
       process_mem g' F qp' (st_offsets st') (st_send st') (l ++ sends) ∧
       v_in g' = rest ∧ v_sent g' = v_sent g ++ [receipt source] ∧
       st_term st' = st_term st ∧ can_track 0 (st_send st'))
    (λ _ e, oom = true ∧ e = MPI_Aborted LIBCIRCLE_MPI_ERROR) g.
Proof.
  intros Hp (b & m & Hq) Ho (data & text & l1 & Hc & Htext & Htf1 & Htf2) Hitems Hhead Htrack.
  pose proof (ca_items _ _ _ Hc) as Hne. pose proof (carries_data _ _ _ Hc) as Hdl.
  unfold CIRCLE_work_receive. rewrite (proj2 (Z.leb_gt _ _)) by lia.
  apply wp_seq. eapply wp_mono; [| |eapply extend_offsets_wp; [exact Hp|done|lia|lia]]; [|done].
  intros g1 [rc o1] [(-> & Hp1 & (Hpe1 & Hse1 & Hin1) & [Ho1 Hcap1] & Hsz)|[Hoom ->]]; [|done].
  cbn [Z.ltb Z.compare]. destruct (offsets_recv_buf o1) as [ob|] eqn:Hob; [|lia].
  apply wp_seq. eapply (recv_ints_wp oom g1 _ _ _ ob data l1); [by rewrite Hin1|lia|lia|].
  set (ob' := Block _ _ _). set (o2 := mk_offsets_st _ _).
  assert (read_cells (cells ob') 0 (length data) = Some data) as Hdata by apply read_cells_blit_same.
  destruct (carries_offsets _ _ _ Hc) as (xs & Hxs & _).
  assert (load ob' 0 = Some (Z.of_nat (length items))) as Hload.
  { apply load_ok; [cbn; lia|]. pose proof (read_cells_lookup _ 0 _ _ 0%nat Hdata) as H0.
    rewrite Hxs in H0. apply H0. cbn. lia. }
  rewrite Hload. cbn [deref mbind prog_mbind prog_bind].
  assert (0 < Z.of_nat (length items)) as Hpos by (destruct items; [done|cbn; lia]).
  rewrite (proj2 (Z.eqb_neq _ _)) by lia. unfold PAYLOAD_ABORT. rewrite (proj2 (Z.eqb_neq _ _)) by lia. test_false.
  apply wp_seq. eapply wp_mono; [| |eapply (receive_items_wp oom _ F qp (set_st_offsets o2 (set_st_offsets o1 st)) l b m ob' source items data text rest)].
  - intros g2 [[rc qp2] st2] (sends & -> & Hq2 & Hp2 & Hin2 & Hs2 & Ht2 & Hc2). exists sends.
    split_and!; try done. rewrite Hs2. cbn. by rewrite Hse1.
  - done.
  - apply set_in_mem. eapply process_mem_eq; [|exact Hp1]. unfold my_blocks. cbn. by rewrite Hob.
  - done.
  - done.
  - done.
  - cbn. lia.
  - done.
  - done.
  - lia.
  - lia.
  - done.
Qed.

(** ** The properties *)

(** A process that waits for a reply: its queue is empty. *)
Record receiver (g : view) (F : list Z) (qp : CIRCLE_internal_queue_t) (st : CIRCLE_state_st)
    (l : list (Z * ptr)) : Prop := Receiver {
  rv_mem : process_mem g F qp (st_offsets st) (st_send st) l;
  rv_queue : queue_rep qp [];
  rv_offsets : offsets_ok (st_offsets st);
  rv_head : q_head qp + INT32_MAX ≤ PTRDIFF_MAX;
  rv_track : can_track 1 (st_send st);
}.

(** The two messages, received by whatever process from whoever sent them,
    put the items [top] into its queue. *)
Definition delivers (oom : bool) (data text : payload) (top : list (list byte)) : Prop :=
  ∀ g F qp st l abort source in1 in2,
    receiver g F qp st l →
    take_first source CIRCLE_TAG_WORK_REPLY (v_in g) = Some (data, in1) →
    take_first source CIRCLE_TAG_WORK_REPLY in1 = Some (text, in2) →
    wp (mpi oom) (CIRCLE_work_receive abort qp st source (payload_count data))
      (λ g' '(rc, abort', qp', st'), rc = 0 ∧ abort' = abort ∧ queue_rep qp' top ∧
         v_in g' = in2 ∧ v_sent g' = v_sent g ++ [receipt source])
      (λ _ e, oom = true ∧ e = MPI_Aborted LIBCIRCLE_MPI_ERROR) g.

(** C16 Work survives its transfer.  CIRCLE_send_work takes at most [count]
    items off the top of the queue, in order, and leaves the others; it posts
    exactly two messages and notes one more missing receipt.  Whatever process
    receives these two messages with CIRCLE_work_receive, called with the
    count that MPI_Iprobe reports, ends up with exactly these items in its
    queue, in the same order, and posts one receipt to the sender.  Only if
    the top item alone does not fit an int, nothing is taken and "no work" is
    sent; a process is left with an MPI_Abort only if an allocation fails.
    Neither function does anything undefined. *)
Theorem work_transfer_roundtrip oom g F qp st l stk abort dest count :
  process_mem g F qp (st_offsets st) (st_send st) l → queue_rep qp stk →
  0 < count ≤ Z.of_nat (length stk) → count + 4097 ≤ INT32_MAX → can_track 2 (st_send st) →
  0 ≤ work_outstanding (st_term st) < INT32_MAX →
  wp (mpi oom) (CIRCLE_send_work abort qp st dest count)
    (λ g' '(rc, qp', st'), ∃ top rest, stk = top ++ rest ∧ queue_rep qp' rest ∧
       ((rc = 0 ∧ 0 < Z.of_nat (length top) ≤ count ∧
         work_outstanding (st_term st') = work_outstanding (st_term st) + 1 ∧
         ∃ data text, v_sent g' = v_sent g ++ [reply dest data; reply dest text] ∧ delivers oom data text top) ∨
        (rc = -1 ∧ top = [] ∧ st_term st' = st_term st ∧
         v_sent g' = v_sent g ++ [reply dest (Ints [no_work_word abort])])))
    (λ _ e, oom = true ∧ e = MPI_Aborted LIBCIRCLE_MPI_ERROR) g.
Proof.
  intros Hp Hq Hcount Hmax Htrack Hwork.
  eapply wp_post; [|by eapply send_work_wp; [| | |lia|..]].
  intros g' [[rc qp'] st'] (sends & rest & Hq' & _ & _ & _ & top & Hstk & Hsent).
  exists top, rest. split; [done|]. split; [done|].
  destruct Hsent as [(-> & Htop & Hw & data & text & Hc & Htext & Hs)|H]; [left|by right].
  split_and!; [done|lia|lia|done|]. exists (Ints data), (Bytes text). split; [done|].
  intros gr Fr qr str lr abortr source in1 in2 [] Htf1 Htf2.
  cbn [payload_count]. rewrite (carries_data _ _ _ Hc).
  eapply wp_post; [|eapply (work_receive_wp oom gr Fr qr str lr source top in2); try done; [|lia]].
  - intros gr' [[[rcr abortr'] qr'] str'] (sends' & ? & ? & ? & _ & ? & ? & _). done.
  - by exists data, text, in1.
Qed.

(** ** Example: a queue with the items "d", "c" and "ab", top first *)

Definition three_items : list (list byte) := [chars "d"; chars "c"; chars "ab"].

Definition pool : list byte := chars "ab" ++ NUL :: chars "c" ++ NUL :: chars "d" ++ [NUL].

Definition queue_three : CIRCLE_internal_queue_t :=
  mkQueue 1 (Some (Block 2 64 (blit ∅ 0 pool))) 64 7 (Some (Block 3 8 (blit ∅ 0 [0; 3; 5]))) 8 3.

Definition state_three : CIRCLE_state_st :=
  mk_state 0 2 (mk_token_st 0 0 0 0 0 None) (mk_offsets_st 0 None) None 0 0 (mk_request_st 0 0 None)
    (mk_send_st 0 0 None None) (mkTree 0 0 0 0 None) (mk_reduce_st 0 (S754_zero false) (S754_zero false) 0 0 0 0 0)
    (mk_barrier_st 0 0 0) (mk_term_st 0 0 0 0 0) (mk_abort_st 0 0 0 None) (mk_profile_st 0 0 0).

Definition view_three : view := View {[1; 2; 3]} ∅ [] [].

Lemma queue_three_rep : queue_rep queue_three three_items.
Proof.
  eexists _, _. split; cbn; try done.
  - intros i Hi. assert (i ∈ seqZ 0 7) as Hin by (apply elem_of_seqZ; lia).
    clear Hi. revert i Hin. apply Forall_forall. by repeat (constructor; [by eexists|]).
  - exists 5. repeat split; try done; [decided|]. exists 3. repeat split; try done; [decided|].
    exists 0. repeat split; try done. decided.
Qed.

Lemma view_three_mem : process_mem view_three [] queue_three (st_offsets state_three) (st_send state_three) [].
Proof.
  split.
  - by split.
  - split; [|constructor|done|done]. intros r b Hin. by apply elem_of_nil in Hin.
  - decided.
  - intros p Hp. split; [|by intros [r Hr]]. cbn in *. set_solver.
Qed.

Lemma work_transfer_roundtrip_witness :
  wp (mpi true) (CIRCLE_send_work 0 queue_three state_three 1 2)
    (λ g' '(rc, qp', st'), ∃ top rest, three_items = top ++ rest ∧ queue_rep qp' rest ∧
       ((rc = 0 ∧ 0 < Z.of_nat (length top) ≤ 2 ∧
         work_outstanding (st_term st') = work_outstanding (st_term state_three) + 1 ∧
         ∃ data text, v_sent g' = v_sent view_three ++ [reply 1 data; reply 1 text] ∧ delivers true data text top) ∨
        (rc = -1 ∧ top = [] ∧ st_term st' = st_term state_three ∧
         v_sent g' = v_sent view_three ++ [reply 1 (Ints [no_work_word 0])])))
    (λ _ e, true = true ∧ e = MPI_Aborted LIBCIRCLE_MPI_ERROR) view_three.
Proof.
  apply (work_transfer_roundtrip true view_three [] queue_three state_three [] three_items).
  - exact view_three_mem.
  - exact queue_three_rep.
  - cbn. lia.
  - c_arith.
  - split; vm_compute; intros H; discriminate H.
  - cbn. c_arith.
Defined.

(** C28 Replies without items leave the queue as it is and post nothing: "no
    work" (0) is counted, the abort word raises the abort flag, and any other
    negative count is refused with -1. *)
Theorem work_receive_no_items oom g F qp st l abort source w rest :
  process_mem g F qp (st_offsets st) (st_send st) l → offsets_ok (st_offsets st) → w ≤ 0 →
  take_first source CIRCLE_TAG_WORK_REPLY (v_in g) = Some (Ints [w], rest) →
  wp (mpi oom) (CIRCLE_work_receive abort qp st source 1)
    (λ g' '(rc, abort', qp', st'), qp' = qp ∧ v_in g' = rest ∧ v_sent g' = v_sent g ∧
       process_mem g' F qp (st_offsets st') (st_send st') l ∧
       (rc, abort') = (if decide (w = 0) then (0, abort)
                       else if decide (w = PAYLOAD_ABORT) then (PAYLOAD_ABORT, 1) else (-1, abort)) ∧
       local_no_work_received (st_profile st') =
         if decide (w = 0) then u32 (local_no_work_received (st_profile st) + 1)
         else local_no_work_received (st_profile st))
    (λ _ e, oom = true ∧ e = MPI_Aborted LIBCIRCLE_MPI_ERROR) g.
Proof.
  intros Hp Ho Hw Htf. unfold CIRCLE_work_receive. cbn [Z.leb Z.compare].
  apply wp_seq. eapply wp_mono; [| |eapply extend_offsets_wp; [exact Hp|done|lia|c_arith]]; [|done].
  intros g1 [rc o1] [(-> & Hp1 & (Hpe1 & Hse1 & Hin1) & [Ho1 Hcap1] & Hsz)|[Hoom ->]]; [|done].
  cbn [Z.ltb Z.compare]. destruct (offsets_recv_buf o1) as [ob|] eqn:Hob; [|lia].
  apply wp_seq. eapply (recv_ints_wp oom g1 _ _ _ ob [w] rest); [by rewrite Hin1|cbn; lia|lia|].
  set (ob' := Block _ _ _). set (o2 := mk_offsets_st _ _).
  assert (process_mem (set_in rest g1) F qp o2 (st_send st) l) as Hp2.
  { apply set_in_mem. eapply process_mem_eq; [|exact Hp1]. unfold my_blocks. cbn. by rewrite Hob. }
  rewrite (load_ok ob' 0 w); [|cbn; lia|apply lookup_insert_eq]. cbn [deref mbind prog_mbind prog_bind].
  destruct (Z.eqb_spec w 0) as [->|Hw0]; [by rewrite decide_True by done|]. rewrite !(decide_False (P := w = 0)) by done.
  destruct (Z.eqb_spec w PAYLOAD_ABORT) as [->|Hwa]; [by rewrite decide_True by done|].
  rewrite decide_False by done. test_true. done.
Qed.

Lemma work_receive_no_items_witness :
  wp (mpi true) (CIRCLE_work_receive 0 queue_three state_three 5 1)
    (λ g' '(rc, abort', qp', st'), qp' = queue_three ∧ v_in g' = [] ∧ v_sent g' = [] ∧
       process_mem g' [] queue_three (st_offsets st') (st_send st') [] ∧
       (rc, abort') = (PAYLOAD_ABORT, 1) ∧ local_no_work_received (st_profile st') = 0)
    (λ _ e, true = true ∧ e = MPI_Aborted LIBCIRCLE_MPI_ERROR)
    (set_in [Msg 5 CIRCLE_TAG_WORK_REPLY (Ints [PAYLOAD_ABORT])] view_three).
Proof.
  apply (work_receive_no_items true (set_in [Msg 5 CIRCLE_TAG_WORK_REPLY (Ints [PAYLOAD_ABORT])] view_three)
           [] queue_three state_three [] 0 5 PAYLOAD_ABORT []).
  - apply set_in_mem. exact view_three_mem.
  - split; vm_compute; [split; intros H; discriminate H|done].
  - intros H; discriminate H.
  - reflexivity.
Defined.

(** ** Whom to ask next *)

(** An environment whose rand_r is the function [rnd] of the seed. *)
Definition rand_env (rnd : Z → Z * Z) : env unit := λ s o,
  match o return option (ans o * unit) with ORand seed => Some (rnd seed, s) | _ => None end.

(** The seed after [k] draws. *)
Definition nth_seed (rnd : Z → Z * Z) (k : nat) (seed : Z) : Z := Nat.iter k (λ s, (rnd s).2) seed.

Lemma next_proc_loop_wp oom g fuel size rank seed :
  0 < size →
  wp (mpi oom) (next_proc_loop fuel size rank seed)
    (λ g' '(next, _), g' = g ∧ 0 ≤ next < size ∧ next ≠ rank) (λ _ e, e = NoFuel) g.
Proof.
  intros Hs. revert g seed. induction fuel as [|fuel IH]; intros g seed; [done|]. cbn [next_proc_loop].
  cbn. split; [done|]. intros [v seed'] g' (live & (-> & Hv & _) & ->). cbn in Hv.
  assert (set_live (v_live g) g = g) as -> by (by destruct g).
  pose proof (Z.rem_bound_pos v size). destruct (Z.eqb_spec (Z.rem v size) rank); [apply IH|].
  cbn. split; [done|]. lia.
Qed.

Lemma next_proc_loop_runs rnd fuel size rank seed k :
  (k < fuel)%nat → Z.rem (rnd (nth_seed rnd k seed)).1 size ≠ rank →
  ∃ r, run (rand_env rnd) tt (next_proc_loop fuel size rank seed) = (tt, Done r).
Proof.
  revert seed k. induction fuel as [|fuel IH]; intros seed k Hk Hne; [lia|]. cbn.
  destruct (rnd seed) as [v seed'] eqn:Hr. destruct (Z.eqb_spec (Z.rem v size) rank) as [Heq|]; [|by eexists].
  destruct k as [|k]; [cbn in Hne; by rewrite Hr in Hne|]. apply (IH seed' k); [lia|].
  unfold nth_seed in *. rewrite Nat.iter_succ_r, Hr in Hne. exact Hne.
Qed.

(** C27 CIRCLE_get_next_proc picks another rank of the job, never the process
    itself, and changes nothing but that choice and the seed.  It returns as
    soon as one draw does not hit the own rank; only an unbroken series of
    such draws keeps it in its loop. *)
Theorem get_next_proc_other oom g fuel st rnd k :
  1 < st_size st → 0 ≤ st_rank st < st_size st →
  (k < fuel)%nat → Z.rem (rnd (nth_seed rnd k (st_seed st))).1 (st_size st) ≠ st_rank st →
  wp (mpi oom) (CIRCLE_get_next_proc fuel st)
    (λ g' st', g' = g ∧ 0 ≤ st_next_processor st' < st_size st ∧ st_next_processor st' ≠ st_rank st ∧
       ∃ next seed, st' = set_st_next_processor next (set_st_seed seed st))
    (λ _ e, e = NoFuel) g ∧
  ∃ st', run (rand_env rnd) tt (CIRCLE_get_next_proc fuel st) = (tt, Done st').
Proof.
  intros Hs Hr Hk Hne. unfold CIRCLE_get_next_proc. rewrite (proj2 (Z.ltb_lt _ _)) by done. split.
  - apply wp_seq. eapply wp_post; [|apply next_proc_loop_wp; lia].
    intros g' [next seed] (-> & ? & ?). cbn. do 3 (split; [done|]). by exists next, seed.
  - destruct (next_proc_loop_runs rnd fuel _ _ _ k Hk Hne) as [[next seed] Hrun].
    unfold mbind, prog_mbind. rewrite run_bind, Hrun. by eexists.
Qed.

(** Every draw is one more than the last. *)
Lemma get_next_proc_other_witness :
  wp (mpi true) (CIRCLE_get_next_proc 3 state_three)
    (λ g' st', g' = view_three ∧ 0 ≤ st_next_processor st' < 2 ∧ st_next_processor st' ≠ 0 ∧
       ∃ next seed, st' = set_st_next_processor next (set_st_seed seed state_three))
    (λ _ e, e = NoFuel) view_three ∧
  ∃ st', run (rand_env (λ s, (s, s + 1))) tt (CIRCLE_get_next_proc 3 state_three) = (tt, Done st').
Proof.
  apply (get_next_proc_other true view_three 3 state_three (λ s, (s, s + 1)) 1).
  - reflexivity.
  - split; [intros H; discriminate H|reflexivity].
  - lia.
  - intros H; discriminate H.
Defined.

(** ** Where the contract ends

    [requestors] has a cell per rank and is not checked: it is enough as long
    as no rank asks again before it is answered, as the ranks of a job do.  A
    peer that goes on asking overruns it. *)

(** There is always one more request of rank 1. *)
Definition flood : env () := λ _ o,
  match o return option (ans o * ()) with
  | OIprobe _ _ => Some (Some (1, 0), tt)
  | ORecv _ _ _ => Some (Bytes [], tt)
  | _ => None
  end.

Lemma workreq_loop_overrun n rcount b :
  0 ≤ rcount ≤ cap b → cap b ≤ INT32_MAX - 1 → cap b - rcount < Z.of_nat n →
  run flood tt (workreq_loop n rcount (Some b)) = (tt, Stopped UB).
Proof.
  revert rcount b. induction n as [|n IH]; intros rcount b Hr Hc Hn; [lia|]. cbn -[store].
  unfold store. destruct (decide (rcount = cap b)) as [->|].
  - rewrite store_list_past by (simpl; lia). done.
  - rewrite store_list_ok by (simpl; lia). cbn -[store]. rewrite i32_ok by c_arith. cbn -[store].
    apply IH; simpl; lia.
Qed.

Lemma requestors_overrun options abort qp st cleanup b :
  st_requestors st = Some b → 0 ≤ cap b ≤ INT32_MAX - 1 →
  run flood tt (CIRCLE_workreq_check options abort qp st cleanup) = (tt, Stopped UB).
Proof.
  intros Hb Hc. unfold CIRCLE_workreq_check, mbind, prog_mbind. rewrite run_bind, Hb.
  rewrite workreq_loop_overrun; [done|lia|lia|]. cbn. lia.
Qed.
