(* ===== verification/Barrier.v ===== *)
(** * The cleanup barrier (CIRCLE_barrier_start and CIRCLE_barrier_test of
    src/libcircle/token.c) *)
From S2P Require Import Prelude CMonad Mem Wire Tree State Mpi.

(** [for(i = 0; i < children; i++) MPI_Send(p, child_ranks[i], tag)] *)
Fixpoint send_children (n : nat) (i tag : Z) (p : payload) (t : CIRCLE_tree_state_st) : prog unit :=
  match n with
  | O => mret tt
  | S n =>
      c ← child t i;
      _ ← call (OSend c tag p);
      send_children n (i + 1) tag p t
  end.

Definition CIRCLE_barrier_start (b : barrier_st) : barrier_st := set_barrier_started 1 b.

(** Messages from the children: at most one per call. *)
Definition barrier_recv_child (t : CIRCLE_tree_state_st) (b : barrier_st) : prog barrier_st :=
  if barrier_replies b <? children t then
    m ← call (OIprobe MPI_ANY_SOURCE CIRCLE_TAG_BARRIER);
    match m with
    | Some (c, _) =>
        _ ← call (ORecv c CIRCLE_TAG_BARRIER 0);
        n ← i32 (barrier_replies b + 1);
        mret (set_barrier_replies n b)
    | None => mret b
    end
  else mret b.

Definition barrier_send_up (t : CIRCLE_tree_state_st) (b : barrier_st) : prog barrier_st :=
  if negb (truth (barrier_up b)) && (barrier_replies b =? children t) then
    _ ← (if negb (parent_rank t =? MPI_PROC_NULL)
         then call (OSend (parent_rank t) CIRCLE_TAG_BARRIER (Bytes [])) else mret tt);
    mret (set_barrier_up 1 b)
  else mret b.

(** Whether the end of the barrier has reached this process. *)
Definition barrier_complete (t : CIRCLE_tree_state_st) (b : barrier_st) : prog bool :=
  if truth (barrier_up b) then
    if negb (parent_rank t =? MPI_PROC_NULL) then
      m ← call (OIprobe (parent_rank t) CIRCLE_TAG_BARRIER);
      match m with
      | Some _ => _ ← call (ORecv (parent_rank t) CIRCLE_TAG_BARRIER 0); mret true
      | None => mret false
      end
    else mret true
  else mret false.

Definition CIRCLE_barrier_test (t : CIRCLE_tree_state_st) (b : barrier_st) : prog (Z * barrier_st) :=
  if negb (truth (barrier_started b)) then mret (0, b)
  else
    b ← barrier_recv_child t b;
    b ← barrier_send_up t b;
    complete ← barrier_complete t b;
    if complete : bool then
      _ ← send_children (Z.to_nat (children t)) 0 CIRCLE_TAG_BARRIER (Bytes []) t;
      mret (1, mk_barrier_st 0 0 0)
    else mret (0, b).
