(* ===== verification/Term.v ===== *)
(** * Termination detection by a tree allreduce
    (CIRCLE_check_for_term_allreduce of src/libcircle/token.c) *)
From S2P Require Import Prelude CMonad Mem Wire Tree State Mpi Barrier.

(** [MPI_Recv(&v, 1, MPI_INT, src, tag)] *)
Definition recv_int (src tag : Z) : prog Z :=
  p ← call (ORecv src tag 1);
  match p with Ints [v] => mret v | _ => Stop UB end.

(** [while(st->term_replies < children)]; every round adds a reply. *)
Fixpoint term_recv_children (n : nat) (t : CIRCLE_tree_state_st) (s : term_st) : prog term_st :=
  if term_replies s <? children t then
    match n with
    | O => Stop NoFuel
    | S n =>
        m ← call (OIprobe MPI_ANY_SOURCE CIRCLE_TAG_TERM);
        match m with
        | None => mret s
        | Some (c, _) =>
            child_flag ← recv_int c CIRCLE_TAG_TERM;
            k ← i32 (term_replies s + 1);
            term_recv_children n t
              (set_term_replies k (set_term_flag (Z.land (term_flag s) child_flag) s))
        end
    end
  else mret s.

(** Contribute to the reduction: the result is captured on the root. *)
Definition term_send_up (t : CIRCLE_tree_state_st) (s : term_st) : prog (Z * term_st) :=
  if negb (truth (term_up s)) && (term_replies s =? children t) then
    result ← (if negb (parent_rank t =? MPI_PROC_NULL) then
                _ ← call (OSend (parent_rank t) CIRCLE_TAG_TERM (Ints [term_flag s])); mret 0
              else mret (term_flag s));
    mret (result, set_term_up 1 (set_term_flag 1 s))
  else mret (0, s).

(** The result of the allreduce, when it is known here. *)
Definition term_complete (t : CIRCLE_tree_state_st) (s : term_st) (result : Z) : prog (bool * Z) :=
  if truth (term_up s) then
    if negb (parent_rank t =? MPI_PROC_NULL) then
      m ← call (OIprobe (parent_rank t) CIRCLE_TAG_TERM);
      match m with
      | Some _ => v ← recv_int (parent_rank t) CIRCLE_TAG_TERM; mret (true, v)
      | None => mret (false, result)
      end
    else mret (true, result)
  else mret (false, result).

Definition CIRCLE_check_for_term_allreduce (t : CIRCLE_tree_state_st) (s : term_st)
    : prog (Z * term_st) :=
  s ← term_recv_children (Z.to_nat (children t - term_replies s)) t s;
  if 0 <? work_outstanding s then mret (WHITE, s)
  else
    '(result, s) ← term_send_up t s;
    '(complete, result) ← term_complete t s result;
    if complete : bool then
      _ ← send_children (Z.to_nat (children t)) 0 CIRCLE_TAG_TERM (Ints [result]) t;
      let s := set_term_replies 0 (set_term_up 0 s) in
      mret (if truth result then TERMINATE else WHITE, s)
    else mret (WHITE, s).
