(* ===== verification/Abort.v ===== *)
(** * The abort broadcast and the final abort allreduce
    (CIRCLE_abort_reduce .. CIRCLE_abort_check of src/libcircle/token.c) *)
From S2P Require Import Prelude CMonad Mem Wire Tree State Mpi Sends Barrier Term.

(** [flag |= child_flag] over the children from the i-th on. *)
Fixpoint abort_reduce_recv (n : nat) (i flag : Z) (t : CIRCLE_tree_state_st) : prog Z :=
  match n with
  | O => mret flag
  | S n =>
      c ← child t i;
      child_flag ← recv_int c CIRCLE_TAG_ABORT_REDUCE;
      abort_reduce_recv n (i + 1) (Z.lor flag child_flag) t
  end.

(** Returns the new CIRCLE_ABORT_FLAG (an int8_t). *)
Definition CIRCLE_abort_reduce (abort : Z) (t : CIRCLE_tree_state_st) (a : abort_st)
    : prog (Z * abort_st) :=
  flag ← abort_reduce_recv (Z.to_nat (children t)) 0 abort t;
  flag ← (if negb (parent_rank t =? MPI_PROC_NULL) then
            _ ← call (OSend (parent_rank t) CIRCLE_TAG_ABORT_REDUCE (Ints [flag]));
            recv_int (parent_rank t) CIRCLE_TAG_ABORT_REDUCE
          else mret flag);
  _ ← send_children (Z.to_nat (children t)) 0 CIRCLE_TAG_ABORT_REDUCE (Ints [flag]) t;
  mret (to_i8 flag, set_abort_state flag a).

(** The global flag that CIRCLE_bcast_abort leaves. *)
Definition CIRCLE_bcast_abort : Z := 1.

(** Post the receive for the reply and the abort request to [peer] in the
    slots [k] and [k + 1]. *)
Definition abort_post (peer k : Z) (reqs : option (block request)) : prog (option (block request)) :=
  r ← call (OIrecv peer CIRCLE_TAG_ABORT_REPLY);
  b ← deref reqs;
  b ← deref (store b k (Some r));
  r ← call (OIsend peer CIRCLE_TAG_ABORT_REQUEST (Bytes []) None);
  b ← deref (store b (k + 1) (Some r));
  mret (Some b).

Fixpoint abort_post_children (n : nat) (i k : Z) (t : CIRCLE_tree_state_st)
    (reqs : option (block request)) : prog (Z * option (block request)) :=
  match n with
  | O => mret (k, reqs)
  | S n =>
      c ← child t i;
      reqs ← abort_post c k reqs;
      abort_post_children n (i + 1) (k + 2) t reqs
  end.

(** CIRCLE_ABORT_FLAG is 1 afterwards. *)
Definition CIRCLE_abort_start (t : CIRCLE_tree_state_st) (a : abort_st) (cleanup : Z) : prog abort_st :=
  if truth (abort_state a) then mret a
  else
    let a := set_abort_state 1 a in
    if truth cleanup then mret a
    else
      '(k, reqs) ← (if negb (parent_rank t =? MPI_PROC_NULL) then
                      reqs ← abort_post (parent_rank t) 0 (abort_req a); mret (2, reqs)
                    else mret (0, abort_req a));
      '(k, reqs) ← abort_post_children (Z.to_nat (children t)) 0 k t reqs;
      let a := set_abort_req reqs a in
      mret (if 0 <? k then set_abort_outstanding 1 a else a).

(** [MPI_Testall(n, reqs, &flag, ...)]: all requests are set to null when
    all are complete, none otherwise. *)
Definition MPI_Testall (n : Z) (reqs : option (block request)) : prog (bool * option (block request)) :=
  b ← deref reqs;
  rs ← deref (load_list b 0 n);
  f ← call (OTestall rs);
  if f : bool then
    b ← deref (store_list b 0 (map (λ _, None) rs)); mret (true, Some b)
  else mret (false, reqs).

Definition CIRCLE_abort_check (abort : Z) (t : CIRCLE_tree_state_st) (a : abort_st) (cleanup : Z)
    : prog (Z * abort_st) :=
  '(abort, a) ← (if truth abort then
                   a ← CIRCLE_abort_start t a cleanup; mret (1, a)
                 else mret (abort, a));
  m ← call (OIprobe MPI_ANY_SOURCE CIRCLE_TAG_ABORT_REQUEST);
  '(abort, a) ← (match m with
                 | Some (rank, _) =>
                     _ ← call (ORecv rank CIRCLE_TAG_ABORT_REQUEST 0);
                     _ ← call (OSend rank CIRCLE_TAG_ABORT_REPLY (Bytes []));
                     a ← CIRCLE_abort_start t a cleanup; mret (1, a)
                 | None => mret (abort, a)
                 end : prog (Z * abort_st));
  if truth (abort_outstanding a) then
    '(f, reqs) ← MPI_Testall (abort_num_req a) (abort_req a);
    let a := set_abort_req reqs a in
    mret (abort, if f : bool then set_abort_outstanding 0 a else a)
  else mret (abort, a).
