(* ===== verification/Token.v ===== *)
(** * Termination detection by a token ring (CIRCLE_token_issend ..
    CIRCLE_check_for_term of src/libcircle/token.c) *)
From S2P Require Import Prelude CMonad Mem Wire Tree State Mpi Sends Barrier Term.

Definition CIRCLE_token_issend (abort : Z) (tk : token_st) : prog token_st :=
  if truth abort then mret tk
  else
    req ← call (OIssend (token_dest tk) CIRCLE_TAG_TOKEN (Ints [token_buf tk]));
    mret (set_token_is_local 0 (set_token_send_req (Some req) tk)).

(** [MPI_Wait(&req)] of a request that is not null *)
Definition wait_token (tk : token_st) : prog token_st :=
  match token_send_req tk with
  | Some r => _ ← call (OWait r); mret (set_token_send_req None tk)
  | None => mret tk
  end.

Definition CIRCLE_token_recv (abort rank size : Z) (tk : token_st) : prog token_st :=
  let src := token_src tk in
  token ← recv_int src CIRCLE_TAG_TOKEN;
  let tk := set_token_is_local 1 tk in
  tk ← wait_token tk;
  let tk := set_token_buf token tk in
  let tk := if (token_proc tk =? BLACK) && (token =? BLACK) then set_token_proc WHITE tk else tk in
  let terminate := ((rank =? 0) && (token =? WHITE)) || (token =? TERMINATE) in
  if terminate then
    let tk := set_token_buf TERMINATE tk in
    last ← i32 (size - 1);
    tk ← (if rank <? last then CIRCLE_token_issend abort tk else mret tk);
    mret (set_token_proc TERMINATE tk)
  else mret tk.

Definition CIRCLE_token_check (abort rank size : Z) (tk : token_st) : prog token_st :=
  m ← call (OIprobe (token_src tk) CIRCLE_TAG_TOKEN);
  match m with
  | Some _ => CIRCLE_token_recv abort rank size tk
  | None => mret tk
  end.

Definition CIRCLE_check_for_term (abort rank size : Z) (tk : token_st) : prog (Z * token_st) :=
  if token_proc tk =? TERMINATE then mret (TERMINATE, tk)
  else
    tk ← (if truth (token_is_local tk) then
            let tk := if rank =? 0 then set_token_buf WHITE tk
                      else if token_proc tk =? BLACK then set_token_buf BLACK tk else tk in
            tk ← CIRCLE_token_issend abort tk;
            mret (set_token_proc WHITE tk)
          else CIRCLE_token_check abort rank size tk);
    mret (token_proc tk, tk).
