(* ===== verification/Network.v ===== *)
(** * Processes that exchange messages

    [n] processes, each a [prog] that runs in two parts (the main loop and
    what comes after it), interleaved at the calls of the environment.  A
    channel per sender, receiver and tag keeps the messages in order; a
    message may be probed and received any time after it was sent, and
    MPI_Iprobe may miss it.  Calls that are not about messages may return
    anything (rand_r a number that is not negative); so may the calls that test and wait for requests, which allows
    every behaviour of MPI and more. *)
From S2P Require Import Prelude CMonad Wire Mpi.
From Stdlib Require Import Floats.SpecFloat.

(** Update of a function at one argument. *)
#[export] Instance fn_insert {K V} `{EqDecision K} : Insert K V (K → V) :=
  λ k v f x, if decide (x = k) then v else f x.

Lemma fn_lookup_insert {K V} `{EqDecision K} (f : K → V) k v : <[k := v]> f k = v.
Proof. unfold insert, fn_insert. by rewrite decide_True. Qed.
Lemma fn_lookup_insert_ne {K V} `{EqDecision K} (f : K → V) k k' v :
  k' ≠ k → <[k := v]> f k' = f k'.
Proof. intros. unfold insert, fn_insert. by rewrite decide_False. Qed.

(** Case split on whether [x] is the process that moved. *)
Ltac moved x p :=
  destruct (decide (x = p)) as [->|];
  [rewrite ?fn_lookup_insert in *|rewrite ?fn_lookup_insert_ne in * by done].

Lemma insert_same {G} (gh : Z → G) p x : <[p := gh p]> gh x = gh x.
Proof. by moved x p. Qed.

Abbreviation channel := (Z * Z * Z)%type.     (* sender, receiver, tag *)
Abbreviation channels := (channel → list payload).

(** Messages of other tags, and of other processes. *)
Lemma other_tag (ch : channels) k l tag tag' a b :
  k = (a, b, tag) → tag ≠ tag' → ∀ x y, <[k := l]> ch (x, y, tag') = ch (x, y, tag').
Proof. intros -> Hne x y. apply fn_lookup_insert_ne. congruence. Qed.

Lemma other_ends (ch : channels) a b tag l x y :
  (x, y) ≠ (a, b) → <[(a, b, tag) := l]> ch (x, y, tag) = ch (x, y, tag).
Proof. intros Hne. apply fn_lookup_insert_ne. congruence. Qed.

(** What user code does in the outside world is put on record, in order, like
    a message of the process to itself; no function uses this tag. *)
Definition LOG_TAG : Z := TERMINATE - 1.

(** The answers a call of process [p] may get, with the messages left. *)
Definition net_answer (n p : Z) (ch : channels) (o : op) : ans o → channels → Prop :=
  match o return ans o → channels → Prop with
  | OSend dst tag m => λ _ ch', ch' = <[(p, dst, tag) := ch (p, dst, tag) ++ [m]]> ch
  | OIsend dst tag m _ => λ _ ch', ch' = <[(p, dst, tag) := ch (p, dst, tag) ++ [m]]> ch
  | OIssend dst tag m => λ _ ch', ch' = <[(p, dst, tag) := ch (p, dst, tag) ++ [m]]> ch
  | ORecv src tag _ => λ m ch', 0 ≤ src < n ∧ ∃ l : list payload, ch (src, p, tag) = m :: l ∧ ch' = <[(src, p, tag) := l]> ch
  | OIprobe src tag => λ r ch', ch' = ch ∧
      match r with
      | None => True
      | Some (s, c) => 0 ≤ s < n ∧ source_ok src s ∧ ∃ m l, ch (s, p, tag) = m :: l ∧ c = payload_count m
      end
  | OExternal k => λ _ ch', ch' = <[(p, p, LOG_TAG) := ch (p, p, LOG_TAG) ++ [Ints [k]]]> ch
  | ORand _ => λ r ch', ch' = ch ∧ 0 ≤ fst r ≤ INT32_MAX
  | OCommRank => λ r ch', r = p ∧ ch' = ch
  | OCommSize => λ r ch', r = n ∧ ch' = ch
  | _ => λ _ ch', ch' = ch
  end.

(** ** A network that can be run

    It answers like [net_answer]; [late] says which channels MPI_Iprobe does
    not look into yet. *)

Definition some_message (late : channel → bool) (ch : channels) (c : channel) : bool :=
  if late c then false else match ch c with [] => false | _ => true end.

Definition find_source (late : channel → bool) (n p : Z) (ch : channels) (src tag : Z) : option Z :=
  if src =? MPI_ANY_SOURCE then head (filter (λ s, some_message late ch (s, p, tag) = true) (seqZ 0 n))
  else if (0 <=? src) && (src <? n) && some_message late ch (src, p, tag) then Some src
  else None.

Definition answer (late : channel → bool) (n p : Z) (ch : channels) (o : op) : option (ans o * channels) :=
  match o return option (ans o * channels) with
  | OMalloc _ => Some (Some 1, ch)
  | ORealloc _ _ => Some (Some 1, ch)
  | OFree _ => Some (tt, ch)
  | OPagesize => Some (4096, ch)
  | ORand seed => Some ((seed mod (INT32_MAX + 1), seed + 1), ch)
  | OFopen _ _ => Some (None, ch)
  | OFgets _ _ => Some (None, ch)
  | OFputs _ _ => Some (0, ch)
  | OFclose _ => Some (0, ch)
  | OIprobe src tag =>
      match find_source late n p ch src tag with
      | Some s => match ch (s, p, tag) with
                  | m :: _ => Some (Some (s, payload_count m), ch)
                  | [] => None
                  end
      | None => Some (None, ch)
      end
  | ORecv src tag _ =>
      match ch (src, p, tag) with
      | m :: l => if (0 <=? src) && (src <? n) then Some (m, <[(src, p, tag) := l]> ch) else None
      | [] => None
      end
  | OSend dst tag m => Some (tt, <[(p, dst, tag) := ch (p, dst, tag) ++ [m]]> ch)
  | OIsend dst tag m _ => Some (1, <[(p, dst, tag) := ch (p, dst, tag) ++ [m]]> ch)
  | OIssend dst tag m => Some (1, <[(p, dst, tag) := ch (p, dst, tag) ++ [m]]> ch)
  | OIrecv _ _ => Some (1, ch)
  | OTest _ => Some (true, ch)
  | OTestall _ => Some (true, ch)
  | OWait _ => Some (tt, ch)
  | OWaitall _ => Some (tt, ch)
  | OWtime => Some (S754_zero false, ch)
  | OMpiInitialized => Some ((MPI_SUCCESS, true), ch)
  | OMpiInit => Some (MPI_SUCCESS, ch)
  | OMpiFinalize => Some (tt, ch)
  | OCommDup => Some (tt, ch)
  | OCommFree => Some (tt, ch)
  | OCommRank => Some (p, ch)
  | OCommSize => Some (n, ch)
  | OGather _ => Some ([], ch)
  | OReduceSum _ => Some (0, ch)
  | OExternal k => Some (0, <[(p, p, LOG_TAG) := ch (p, p, LOG_TAG) ++ [Ints [k]]]> ch)
  end.

Lemma find_source_ok late n p ch src tag s :
  find_source late n p ch src tag = Some s → 0 ≤ s < n ∧ source_ok src s.
Proof.
  unfold find_source, source_ok. destruct (Z.eqb_spec src MPI_ANY_SOURCE) as [->|].
  - intros Hs%list.head_Some_elem_of%list_elem_of_filter. rewrite elem_of_seqZ in Hs. split; [lia|by right].
  - destruct (Z.leb_spec 0 src), (Z.ltb_spec src n); try done. simpl.
    destruct (some_message _ _ _); [|done]. intros [= <-]. split; [lia|by left].
Qed.

Lemma answer_ok late n p ch o r ch' : answer late n p ch o = Some (r, ch') → net_answer n p ch o r ch'.
Proof.
  destruct o; cbn; try (by intros [= <- <-]).
  - intros [= <- <-]. split; [done|]. cbn. pose proof (Z.mod_pos_bound seed (INT32_MAX + 1)). c_arith.
  - destruct (find_source _ _ _ _ _ _) as [s|] eqn:Hs; [|by intros [= <- <-]].
    destruct (find_source_ok _ _ _ _ _ _ _ Hs). destruct (ch (s, p, tag)) as [|m l] eqn:Hm; [done|].
    intros [= <- <-]. split; [done|]. split; [done|]. split; [done|]. by exists m, l.
  - destruct (ch (src, p, tag)) as [|m l] eqn:Hm; [done|].
    destruct (Z.leb_spec 0 src), (Z.ltb_spec src n); try done. intros [= <- <-].
    split; [lia|]. by exists l.
Qed.

Section network.
Context {A B : Type}.
Context (n : Z).

(** The second part of a process starts from what its first part returned. *)
Inductive process : Type :=
  | Main (t : prog A) (after : A → prog B)
  | Drain (x : A) (t : prog B).

Record config : Type := Config {
  procs : Z → process;
  chans : channels;
}.

Definition is_rank (p : Z) : Prop := 0 ≤ p < n.

(** One step of process [p]. *)
Inductive net_move (c : config) (p : Z) : config → Prop :=
  | step_main o k after r ch' :
      procs c p = Main (Vis o k) after → net_answer n p (chans c) o r ch' →
      net_move c p (Config (<[p := Main (k r) after]> (procs c)) ch')
  | step_leave x after :
      procs c p = Main (Ret x) after →
      net_move c p (Config (<[p := Drain x (after x)]> (procs c)) (chans c))
  | step_drain o k x r ch' :
      procs c p = Drain x (Vis o k) → net_answer n p (chans c) o r ch' →
      net_move c p (Config (<[p := Drain x (k r)]> (procs c)) ch').

Definition net_step (c c' : config) : Prop := ∃ p, is_rank p ∧ net_move c p c'.

Definition reachable (c0 c : config) : Prop := rtc net_step c0 c.

(** One step of process [p]; none if it is blocked. *)
Definition try_move (late : channel → bool) (p : Z) (c : config) : option config :=
  match procs c p with
  | Main (Vis o k) after =>
      '(r, ch') ← answer late n p (chans c) o; Some (Config (<[p := Main (k r) after]> (procs c)) ch')
  | Main (Ret x) after => Some (Config (<[p := Drain x (after x)]> (procs c)) (chans c))
  | Drain x (Vis o k) =>
      '(r, ch') ← answer late n p (chans c) o; Some (Config (<[p := Drain x (k r)]> (procs c)) ch')
  | _ => None
  end.

Definition exec (late : channel → bool) (p : Z) (c : config) : config := default c (try_move late p c).

(** The processes in turn, [m] steps each, for [rounds] rounds. *)
Fixpoint exec_rounds (late : channel → bool) (rounds m : nat) (c : config) : config :=
  match rounds with
  | O => c
  | S rounds => exec_rounds late rounds m (foldl (λ c p, Nat.iter m (exec late p) c) c (seqZ 0 n))
  end.

Lemma try_move_ok late p c c' : try_move late p c = Some c' → net_move c p c'.
Proof.
  unfold try_move. destruct (procs c p) as [[x|e|o k] after|x [y|e|o k]] eqn:Hpr; try done.
  - intros [= <-]. by constructor.
  - intros ([r ch'] & Ha & [= <-])%bind_Some. eapply step_main; [done|by eapply answer_ok].
  - intros ([r ch'] & Ha & [= <-])%bind_Some. eapply step_drain; [done|by eapply answer_ok].
Qed.

Lemma exec_reachable late p c c' : is_rank p → reachable c c' → reachable c (exec late p c').
Proof.
  intros Hp Hc. unfold exec. destruct (try_move late p c') as [c1|] eqn:Hm; [|done].
  eapply rtc_r; [done|]. exists p. split; [done|]. by eapply try_move_ok.
Qed.

Lemma exec_rounds_reachable late rounds m c c' :
  reachable c c' → reachable c (exec_rounds late rounds m c').
Proof.
  revert c'. induction rounds as [|rounds IH]; intros c' Hc; [done|]. apply IH.
  assert (∀ l, (∀ p, p ∈ l → is_rank p) → ∀ c', reachable c c' →
    reachable c (foldl (λ c p, Nat.iter m (exec late p) c) c' l)) as Hl; cycle 1.
  { apply Hl, Hc. intros p ?%elem_of_seqZ. unfold is_rank. lia. }
  clear Hc c'. intros l. induction l as [|p l IHl]; intros Hr c' Hc; [done|]. apply IHl; [set_solver|].
  assert (is_rank p) as Hp by (apply Hr; set_solver).
  clear -Hp Hc. induction m; [done|]. by apply exec_reachable.
Qed.

(** ** What a process is doing *)

Definition returned_proc (x : process) : Prop := match x with Drain _ (Ret _) => True | _ => False end.
Definition failed_proc (x : process) : Prop :=
  match x with Main (Stop _) _ | Drain _ (Stop _) => True | _ => False end.

(** The call a process is about to make. *)
Definition next_call (x : process) : option op :=
  match x with Main (Vis o _) _ | Drain _ (Vis o _) => Some o | _ => None end.

(** A call that the network answers is a step. *)
Lemma answered c p o r ch' :
  next_call (procs c p) = Some o → net_answer n p (chans c) o r ch' →
  ∃ x, net_move c p (Config (<[p := x]> (procs c)) ch').
Proof.
  intros Hn Ha. destruct (procs c p) as [[| |o' k] after|x [| |o' k]] eqn:Hpr; try done;
    injection Hn as <-; eexists; [by eapply step_main|by eapply step_drain].
Qed.

(** Every call but a receive has an answer. *)
Lemma others_answered p ch o :
  (∀ src tag k, o ≠ ORecv src tag k) → ∃ r ch', net_answer n p ch o r ch'.
Proof.
  intros Ho. destruct (answer (λ _, true) n p ch o) as [[r ch']|] eqn:Ha; [exists r, ch'; by eapply answer_ok|].
  destruct o; try done; [|by edestruct Ho]. exists None, ch. done.
Qed.

(** A step of [p] leaves the other processes as they are; it is the answer to
    a call, or the end of the first part. *)
Lemma net_move_inv c p c' :
  net_move c p c' →
  (∀ q, q ≠ p → procs c' q = procs c q) ∧
  match next_call (procs c p) with
  | Some o => ∃ r, net_answer n p (chans c) o r (chans c')
  | None => chans c' = chans c
  end.
Proof.
  intros []; (split; [intros q Hq; cbn; by apply fn_lookup_insert_ne|]);
    match goal with H : procs c p = _ |- _ => rewrite H end; cbn; eauto.
Qed.

(** ** From the protocol of each process to all interleavings

    Each process keeps to a protocol over a ghost state and stops only as
    [Halt] allows; the ghost states and the messages satisfy [Inv], which every answer of the network keeps
    while being one the protocol allows.  [Busy] holds as long as a process
    is in its first part. *)
Section sound.
Context {G : Type}.
Context (P_pre : Z → G → op → Prop) (P_post : Z → G → ∀ o : op, ans o → G → Prop).

Definition net_protocol (p : Z) : protocol := {|
  ghost := G;
  pre := P_pre p;
  post := P_post p;
|}.

Context (Inv : (Z → G) → channels → Prop).
Context (Busy : Z → G → Prop).
Context (Leave : Z → G → A → Prop).
Context (Fin : Z → A → G → B → Prop).
Context (Halt : stop → Prop).

(** In its first part a process makes only calls that keep [Busy]. *)
Definition main_protocol (p : Z) : protocol := {|
  ghost := G;
  pre g o := P_pre p g o ∧ ∀ r g', P_post p g o r g' → Busy p g';
  post := P_post p;
|}.

Lemma main_wp p {C} (t : prog C) Q E g :
  (∀ g, Busy p g) → wp (net_protocol p) t Q E g → wp (main_protocol p) t Q E g.
Proof.
  intros HB. revert g. induction t as [c|e|o k IH]; intros g; cbn; [done..|].
  intros [Hp Hk]. split; [split; [done|by intros]|]. intros r g' Hr. by apply IH, Hk.
Qed.

Definition process_ok (p : Z) (g : G) (x : process) : Prop :=
  match x with
  | Main t after =>
      Busy p g ∧ wp (main_protocol p) t (λ g x, Leave p g x ∧
        wp (net_protocol p) (after x) (Fin p x) (λ _, Halt) g) (λ _, Halt) g
  | Drain x t => Leave p g x ∧ wp (net_protocol p) t (Fin p x) (λ _, Halt) g
  end.

Definition network_ok (c : config) : Prop :=
  ∃ gh : Z → G, Inv gh (chans c) ∧ ∀ p, is_rank p → process_ok p (gh p) (procs c p).

Context (Inv_step : ∀ gh ch p o r ch', is_rank p → Inv gh ch → P_pre p (gh p) o →
  net_answer n p ch o r ch' → ∃ g', P_post p (gh p) o r g' ∧ Inv (<[p := g']> gh) ch').
Context (Leave_step : ∀ p g x o r g', Leave p g x → P_pre p g o → P_post p g o r g' → Leave p g' x).

Lemma process_ok_upd gh gh' c p x' ch' :
  (∀ q, is_rank q → process_ok q (gh q) (procs c q)) → Inv gh' ch' →
  (∀ q, q ≠ p → gh' q = gh q) → process_ok p (gh' p) x' →
  network_ok (Config (<[p := x']> (procs c)) ch').
Proof.
  intros Hp Hi Hg Hx. exists gh'. split; [done|]. intros q Hq. simpl.
  destruct (decide (q = p)) as [->|Hne].
  - by rewrite fn_lookup_insert.
  - rewrite fn_lookup_insert_ne, Hg by done. by apply Hp.
Qed.

Lemma network_ok_step c c' : network_ok c → net_step c c' → network_ok c'.
Proof.
  intros (gh & Hi & Hp) (p & Hr & [o k after r ch' Hpr Ha|x after Hpr|o k x r ch' Hpr Ha]);
    pose proof (Hp p Hr) as Hok; rewrite Hpr in Hok.
  - destruct Hok as [_ [[Hpre Hbusy] Hk]].
    destruct (Inv_step _ _ _ _ _ _ Hr Hi Hpre Ha) as (g' & Hpost & Hi').
    eapply process_ok_upd; [done|done|by intros; apply fn_lookup_insert_ne|].
    rewrite fn_lookup_insert. split; [by eapply Hbusy|by apply Hk].
  - destruct Hok as [_ Hok]. by eapply process_ok_upd.
  - destruct Hok as (Hl & Hpre & Hk).
    destruct (Inv_step _ _ _ _ _ _ Hr Hi Hpre Ha) as (g' & Hpost & Hi').
    eapply process_ok_upd; [done|done|by intros; apply fn_lookup_insert_ne|].
    rewrite fn_lookup_insert. split; [by eapply Leave_step|by apply Hk].
Qed.

Theorem network_sound c0 c : network_ok c0 → reachable c0 c → network_ok c.
Proof. intros H0 Hr. induction Hr; [done|]. eauto using network_ok_step. Qed.
End sound.
End network.

Arguments Main {A B} t after.
Arguments Drain {A B} x t.
Arguments Config {A B} procs chans.
