(* ===== verification/SendModes.v ===== *)
(** * The modes of MPI_Send

    In [Network] MPI_Send puts its message into the channel and returns: MPI
    buffers it.  MPI may as well let the sender wait until the message is
    received, and is free to choose so for every single message; here it
    does.  A rank whose MPI_Send waits takes no step.  MPI_Isend and
    MPI_Issend do not wait in either case, and a message for which MPI_Irecv
    has been posted is received at once.

    Whatever MPI chooses, the states a job reaches are states it reaches in
    [Network] ([modes_reachable]), so what is shown of all those holds here; a
    claim that a job can go on has to be made here. *)
From S2P Require Import Prelude CMonad Wire Mpi Network.

Section modes.
Context {A B : Type} (n : Z).

Abbreviation cfg := (config (A := A) (B := B)).

(** [held]: the channel of a rank's last MPI_Send, if MPI did not buffer it.
    [posted] counts the calls of MPI_Irecv. *)
Record sconfig : Type := SConfig {
  net : cfg;
  held : Z → option channel;
  posted : channel → nat;
}.

(** The message of the last MPI_Send of [p] has not been received: as [p] has
    sent nothing since, it is there if the channel is not empty. *)
Definition waiting (s : sconfig) (p : Z) : bool :=
  match held s p with
  | Some k => bool_decide (posted s k < length (chans (net s) k))%nat
  | None => false
  end.

Definition sent_to (p : Z) (o : option op) : option channel :=
  match o with Some (OSend dst tag _) => Some (p, dst, tag) | _ => None end.

Definition post_recv (p : Z) (o : option op) (f : channel → nat) : channel → nat :=
  match o with Some (OIrecv src tag) => <[(src, p, tag) := S (f (src, p, tag))]> f | _ => f end.

(** [h]: MPI's choice. *)
Inductive send_step (s : sconfig) : sconfig → Prop :=
  | send_move p c' h :
      is_rank n p → waiting s p = false → net_move n (net s) p c' →
      h = None ∨ h = sent_to p (next_call (procs (net s) p)) →
      send_step s (SConfig c' (<[p := h]> (held s)) (post_recv p (next_call (procs (net s) p)) (posted s))).

Definition send_reachable (s s' : sconfig) : Prop := rtc send_step s s'.

(** Nobody has sent anything yet. *)
Definition at_start (c : cfg) : sconfig := SConfig c (λ _, None) (λ _, O).

Lemma send_step_net s s' : send_step s s' → net_step n (net s) (net s').
Proof. intros Hs. destruct Hs as [p c' h Hp _ Hm _]. by exists p. Qed.

Lemma modes_reachable s s' : send_reachable s s' → reachable n (net s) (net s').
Proof. induction 1 as [|s1 s2 s3 Hs _ IH]; [apply rtc_refl|]. eapply rtc_l; [by eapply send_step_net|exact IH]. Qed.

(** A rank that does not wait and is about to make a call that the network
    answers can take a step. *)
Lemma send_answered s p o r ch' :
  is_rank n p → waiting s p = false → next_call (procs (net s) p) = Some o →
  net_answer n p (chans (net s)) o r ch' → ∃ s', send_step s s'.
Proof.
  intros Hp Hw Ho Ha. destruct (answered n _ _ _ _ _ Ho Ha) as [x Hm]. eexists.
  econstructor; [done..|exact Hm|by left].
Qed.

(** ** Runs *)

(** A step of [p]; the MPI_Sends that [wait] names wait. *)
Definition send_try (late wait : channel → bool) (s : sconfig) (p : Z) : option sconfig :=
  if waiting s p then None
  else
    let o := next_call (procs (net s) p) in
    c' ← try_move n late p (net s);
    let h := k ← sent_to p o; if wait k then Some k else None in
    Some (SConfig c' (<[p := h]> (held s)) (post_recv p o (posted s))).

(** Steps of the ranks of a list in turn. *)
Fixpoint send_run (late wait : channel → bool) (l : list Z) (s : sconfig) : option sconfig :=
  match l with
  | [] => Some s
  | p :: l => s ← send_try late wait s p; send_run late wait l s
  end.

Lemma send_try_ok late wait s p s' : is_rank n p → send_try late wait s p = Some s' → send_step s s'.
Proof.
  intros Hp. unfold send_try. destruct (waiting s p) eqn:Hw; [done|].
  intros (c' & Hm & [= <-])%bind_Some. econstructor; [done..|by eapply try_move_ok|].
  destruct (sent_to _ _) as [k|]; cbn; [destruct (wait k); [by right|by left]|by left].
Qed.

Lemma send_run_steps late wait l s s' :
  Forall (is_rank n) l → send_run late wait l s = Some s' → nsteps send_step (length l) s s'.
Proof.
  intros Hl. revert s. induction Hl as [|p l Hp _ IH]; intros s; cbn; [intros [= ->]; constructor|].
  intros (s1 & Hs & Hr)%bind_Some. econstructor; [by eapply send_try_ok|by apply IH].
Qed.

Lemma send_run_reachable late wait l s s' :
  Forall (is_rank n) l → send_run late wait l s = Some s' → send_reachable s s'.
Proof. intros Hl Hs. by eapply rtc_nsteps_2, send_run_steps. Qed.
End modes.

Arguments SConfig {A B} net held posted.
