(* ===== verification/Proc.v ===== *)
(** * The globals of a process and the code of its user
    (src/libcircle/lib.h, libcircle.h, lib.c)

    A user callback is a [user]: a tree of calls of the library's API and of
    calls whose answers libcircle does not determine ([UExternal]).  Which
    tree a callback is is a parameter of everything that follows. *)
From S2P Require Import Prelude CMonad Mem Queue.

Inductive user : Type :=
  | UReturn
  | UExternal (n : Z) (k : Z → user)
  | UEnqueue (element : option (list byte)) (k : Z → user)
  | UDequeue (room : option Z) (k : Z → option (list byte) → user)
  | ULocalQueueSize (k : Z → user)
  | UReduce (buf : list byte) (k : user)
  | UAbort (k : user)
  | UCheckpoint (k : user)
  | UReadRestarts (k : user)
  | USetOptions (options : Z) (k : user)
  | USetTreeWidth (width : Z) (k : user)
  | USetReducePeriod (secs : Z) (k : user).

(** The data a reduce callback is shown: a buffer, or NULL, and a size. *)
Abbreviation user_data := (option (list byte)).

(** A NULL callback is [None].  [reduce_op_cb] gets the current data and the
    data of a child. *)
Record CIRCLE_input_st : Type := mk_input {
  create_cb : option user;
  process_cb : option user;
  reduce_init_cb : option user;
  reduce_op_cb : option (user_data → Z → user_data → Z → user);
  reduce_fini_cb : option (user_data → Z → user);
  reduce_buf : option (block byte);
  reduce_buf_size : Z;
  reduce_period : Z;
  options : Z;
  tree_width : Z;
  queue : option CIRCLE_internal_queue_t;
}.

(** The file-scope variables of lib.c and worker.c. *)
Record globals : Type := mk_globals {
  CIRCLE_INPUT_ST : CIRCLE_input_st;
  CIRCLE_ABORT_FLAG : Z;
  CIRCLE_global_rank : Z;
  CIRCLE_must_finalize_mpi : Z;
  CIRCLE_debug_level : Z;
}.

Definition upd_input (f : CIRCLE_input_st → CIRCLE_input_st) (g : globals) : globals :=
  mk_globals (f (CIRCLE_INPUT_ST g)) (CIRCLE_ABORT_FLAG g) (CIRCLE_global_rank g)
    (CIRCLE_must_finalize_mpi g) (CIRCLE_debug_level g).
Definition set_abort_flag (v : Z) (g : globals) : globals :=
  mk_globals (CIRCLE_INPUT_ST g) v (CIRCLE_global_rank g) (CIRCLE_must_finalize_mpi g)
    (CIRCLE_debug_level g).
Definition set_global_rank (v : Z) (g : globals) : globals :=
  mk_globals (CIRCLE_INPUT_ST g) (CIRCLE_ABORT_FLAG g) v (CIRCLE_must_finalize_mpi g)
    (CIRCLE_debug_level g).
Definition set_must_finalize (v : Z) (g : globals) : globals :=
  mk_globals (CIRCLE_INPUT_ST g) (CIRCLE_ABORT_FLAG g) (CIRCLE_global_rank g) v
    (CIRCLE_debug_level g).
Definition set_debug_level (v : Z) (g : globals) : globals :=
  mk_globals (CIRCLE_INPUT_ST g) (CIRCLE_ABORT_FLAG g) (CIRCLE_global_rank g)
    (CIRCLE_must_finalize_mpi g) v.

Definition set_create_cb (v : option user) (i : CIRCLE_input_st) : CIRCLE_input_st :=
  mk_input v (process_cb i) (reduce_init_cb i) (reduce_op_cb i) (reduce_fini_cb i) (reduce_buf i)
    (reduce_buf_size i) (reduce_period i) (options i) (tree_width i) (queue i).
Definition set_process_cb (v : option user) (i : CIRCLE_input_st) : CIRCLE_input_st :=
  mk_input (create_cb i) v (reduce_init_cb i) (reduce_op_cb i) (reduce_fini_cb i) (reduce_buf i)
    (reduce_buf_size i) (reduce_period i) (options i) (tree_width i) (queue i).
Definition set_reduce_init_cb (v : option user) (i : CIRCLE_input_st) : CIRCLE_input_st :=
  mk_input (create_cb i) (process_cb i) v (reduce_op_cb i) (reduce_fini_cb i) (reduce_buf i)
    (reduce_buf_size i) (reduce_period i) (options i) (tree_width i) (queue i).
Definition set_reduce_op_cb (v : option (user_data → Z → user_data → Z → user)) (i : CIRCLE_input_st) : CIRCLE_input_st :=
  mk_input (create_cb i) (process_cb i) (reduce_init_cb i) v (reduce_fini_cb i) (reduce_buf i)
    (reduce_buf_size i) (reduce_period i) (options i) (tree_width i) (queue i).
Definition set_reduce_fini_cb (v : option (user_data → Z → user)) (i : CIRCLE_input_st) : CIRCLE_input_st :=
  mk_input (create_cb i) (process_cb i) (reduce_init_cb i) (reduce_op_cb i) v (reduce_buf i)
    (reduce_buf_size i) (reduce_period i) (options i) (tree_width i) (queue i).
Definition set_reduce_buf (v : option (block byte)) (i : CIRCLE_input_st) : CIRCLE_input_st :=
  mk_input (create_cb i) (process_cb i) (reduce_init_cb i) (reduce_op_cb i) (reduce_fini_cb i) v
    (reduce_buf_size i) (reduce_period i) (options i) (tree_width i) (queue i).
Definition set_reduce_buf_size (v : Z) (i : CIRCLE_input_st) : CIRCLE_input_st :=
  mk_input (create_cb i) (process_cb i) (reduce_init_cb i) (reduce_op_cb i) (reduce_fini_cb i) (reduce_buf i)
    v (reduce_period i) (options i) (tree_width i) (queue i).
Definition set_reduce_period (v : Z) (i : CIRCLE_input_st) : CIRCLE_input_st :=
  mk_input (create_cb i) (process_cb i) (reduce_init_cb i) (reduce_op_cb i) (reduce_fini_cb i) (reduce_buf i)
    (reduce_buf_size i) v (options i) (tree_width i) (queue i).
Definition set_options (v : Z) (i : CIRCLE_input_st) : CIRCLE_input_st :=
  mk_input (create_cb i) (process_cb i) (reduce_init_cb i) (reduce_op_cb i) (reduce_fini_cb i) (reduce_buf i)
    (reduce_buf_size i) (reduce_period i) v (tree_width i) (queue i).
Definition set_tree_width (v : Z) (i : CIRCLE_input_st) : CIRCLE_input_st :=
  mk_input (create_cb i) (process_cb i) (reduce_init_cb i) (reduce_op_cb i) (reduce_fini_cb i) (reduce_buf i)
    (reduce_buf_size i) (reduce_period i) (options i) v (queue i).
Definition set_queue (v : option CIRCLE_internal_queue_t) (i : CIRCLE_input_st) : CIRCLE_input_st :=
  mk_input (create_cb i) (process_cb i) (reduce_init_cb i) (reduce_op_cb i) (reduce_fini_cb i) (reduce_buf i)
    (reduce_buf_size i) (reduce_period i) (options i) (tree_width i) v.

(** [CIRCLE_INPUT_ST.queue->f] *)
Definition the_queue (g : globals) : prog CIRCLE_internal_queue_t := deref (queue (CIRCLE_INPUT_ST g)).
Definition put_queue (qp : CIRCLE_internal_queue_t) (g : globals) : globals :=
  upd_input (set_queue (Some qp)) g.
