(* ===== verification/Api.v ===== *)
(** * The API a user calls (src/libcircle/lib.c) and the queue handle's
    functions (CIRCLE_enqueue .. _CIRCLE_checkpoint of src/libcircle/worker.c) *)
From S2P Require Import Prelude CMonad Mem Heap Queue Stdio Checkpoint Wire Mpi Tree State Sends Proc.

(** ** Callbacks and options *)

Definition CIRCLE_cb_create (func : option user) (g : globals) : globals :=
  upd_input (set_create_cb func) g.

Definition CIRCLE_set_options (user_options : Z) (g : globals) : globals :=
  upd_input (set_options user_options) g.

Definition CIRCLE_set_tree_width (width : Z) (g : globals) : globals :=
  upd_input (set_tree_width width) g.

Definition CIRCLE_set_reduce_period (secs : Z) (g : globals) : globals :=
  upd_input (set_reduce_period secs) g.

(** The process callback stands in for a create callback that is not set. *)
Definition CIRCLE_cb_process (func : option user) (g : globals) : globals :=
  let g := match create_cb (CIRCLE_INPUT_ST g) with
           | None => upd_input (set_create_cb func) g
           | Some _ => g
           end in
  upd_input (set_process_cb func) g.

Definition CIRCLE_cb_reduce_init (func : option user) (g : globals) : globals :=
  upd_input (set_reduce_init_cb func) g.

Definition CIRCLE_cb_reduce_op (func : option (user_data → Z → user_data → Z → user)) (g : globals)
    : globals := upd_input (set_reduce_op_cb func) g.

Definition CIRCLE_cb_reduce_fini (func : option (user_data → Z → user)) (g : globals) : globals :=
  upd_input (set_reduce_fini_cb func) g.

(** [buf] is the user's data, all of it.  The size is only recorded for
    data that is not empty. *)
Definition CIRCLE_reduce (buf : list byte) (g : globals) : prog globals :=
  _ ← CIRCLE_free (addr <$> reduce_buf (CIRCLE_INPUT_ST g));
  let g := upd_input (set_reduce_buf None) g in
  let size := u64 (Z.of_nat (length buf)) in
  if 0 <? size then
    copy ← call (OMalloc size);
    match copy with
    | None => mret g
    | Some p =>
        copy ← deref (store_list (Block p size ∅) 0 buf);
        mret (upd_input (set_reduce_buf_size size) (upd_input (set_reduce_buf (Some copy)) g))
    end
  else mret g.

(** Raises the flag that the worker loop tests. *)
Definition CIRCLE_abort (g : globals) : globals := set_abort_flag 1 g.

Definition CIRCLE_enable_logging (level : Z) (g : globals) : globals := set_debug_level level g.

(** ** The handle *)

(** The results are int8_t. *)
Definition CIRCLE_enqueue (element : option (list byte)) (g : globals) : prog (Z * globals) :=
  qp ← the_queue g;
  '(rc, qp) ← CIRCLE_internal_queue_push qp element;
  mret (to_i8 rc, put_queue qp g).

Definition CIRCLE_dequeue (element : option Z) (g : globals)
    : prog (Z * globals * option (list byte)) :=
  '(rc, qp, s) ← CIRCLE_internal_queue_pop (queue (CIRCLE_INPUT_ST g)) element;
  mret (to_i8 rc, upd_input (set_queue qp) g, s).

Definition CIRCLE_local_queue_size (g : globals) : prog Z :=
  qp ← the_queue g; mret (u32 (q_count qp)).

(** [fuel] bounds the lines of the restart file. *)
Definition _CIRCLE_read_restarts (fuel : nat) (g : globals) : prog (Z * globals) :=
  '(rc, qp) ← CIRCLE_internal_queue_read fuel (queue (CIRCLE_INPUT_ST g)) (CIRCLE_global_rank g);
  mret (to_i8 rc, upd_input (set_queue qp) g).

Definition _CIRCLE_checkpoint (g : globals) : prog (Z * globals) :=
  qp ← the_queue g;
  '(rc, qp) ← CIRCLE_internal_queue_write qp (CIRCLE_global_rank g);
  mret (to_i8 rc, put_queue qp g).

Definition CIRCLE_checkpoint (g : globals) : prog globals := '(_, g) ← _CIRCLE_checkpoint g; mret g.

Definition CIRCLE_read_restarts (fuel : nat) (g : globals) : prog globals :=
  '(_, g) ← _CIRCLE_read_restarts fuel g; mret g.

(** ** Running user code *)

(** What the code of a callback does to the library's state. *)
Fixpoint run_user (fuel : nat) (u : user) (g : globals) : prog globals :=
  match u with
  | UReturn => mret g
  | UExternal n k => v ← call (OExternal n); run_user fuel (k v) g
  | UEnqueue s k => '(rc, g) ← CIRCLE_enqueue s g; run_user fuel (k rc) g
  | UDequeue room k => '(rc, g, s) ← CIRCLE_dequeue room g; run_user fuel (k rc s) g
  | ULocalQueueSize k => n ← CIRCLE_local_queue_size g; run_user fuel (k n) g
  | UReduce buf k => g ← CIRCLE_reduce buf g; run_user fuel k g
  | UAbort k => run_user fuel k (CIRCLE_abort g)
  | UCheckpoint k => g ← CIRCLE_checkpoint g; run_user fuel k g
  | UReadRestarts k => g ← CIRCLE_read_restarts fuel g; run_user fuel k g
  | USetOptions o k => run_user fuel k (CIRCLE_set_options o g)
  | USetTreeWidth w k => run_user fuel k (CIRCLE_set_tree_width w g)
  | USetReducePeriod s k => run_user fuel k (CIRCLE_set_reduce_period s g)
  end.

(** A call through a function pointer. *)
Definition call_cb (fuel : nat) (cb : option user) (g : globals) : prog globals :=
  u ← deref cb; run_user fuel u g.
