(* ===== verification/Reduce.v ===== *)
(** * Background and final reductions (CIRCLE_reduce_check and
    CIRCLE_reduce_sync of src/libcircle/token.c)

    [reduce_buf] is kept as three counters: validity, number of processed
    objects, bytes of user data. *)
From S2P Require Import Prelude CMonad Mem Heap Queue Wire Tree State Mpi Sends Proc Api Barrier.
From Stdlib Require Import Floats.SpecFloat.

(** IEEE binary64 addition and comparison, round to nearest even. *)
Definition double_add (x y : double) : double := SFadd 53 1024 x y.
Definition double_ge (x y : double) : bool := SFleb y x.
Definition double_of_int (z : Z) : double := binary_normalize 53 1024 z 0 false.

(** Three numbers of type long long. *)
Definition recv_longs (src tag : Z) : prog (Z * Z * Z) :=
  p ← call (ORecv src tag 3);
  match p with Longs [a; b; c] => mret (a, b, c) | _ => Stop UB end.

Definition i64 (z : Z) : prog Z :=
  if (- (SIZE_MOD / 2) <=? z) && (z <? SIZE_MOD / 2) then mret z else Stop UB.

Definition send_longs (dst tag : Z) (r : reduce_st) : prog unit :=
  call (OSend dst tag (Longs [reduce_buf0 r; reduce_buf1 r; reduce_buf2 r])).

(** A child's data, [insize] bytes, in a fresh block; nothing for size 0. *)
Definition recv_user_data (src insize : Z) : prog (option (block byte)) :=
  let insize := u64 insize in
  if 0 <? insize then
    inbuf ← call (OMalloc insize);
    data ← call (ORecv src CIRCLE_TAG_REDUCE (to_i32 insize));
    match data with
    | Bytes l =>
        if to_i32 insize <? Z.of_nat (length l) then Stop UB
        else p ← deref inbuf; b ← deref (store_list (Block p insize ∅) 0 l); mret (Some b)
    | _ => Stop UB
    end
  else mret None.

(** What a callback finds behind a buffer pointer. *)
Definition user_view (b : option (block byte)) (size : Z) : user_data :=
  match b with Some b => load_list b 0 size | None => None end.

(** [reduce_op_cb(currbuf, currsize, inbuf, insize)] if there is one. *)
Definition call_reduce_op (fuel : nat) (inbuf : option (block byte)) (insize : Z) (g : globals)
    : prog globals :=
  match reduce_op_cb (CIRCLE_INPUT_ST g) with
  | None => mret g
  | Some f =>
      let i := CIRCLE_INPUT_ST g in
      run_user fuel (f (user_view (reduce_buf i) (reduce_buf_size i)) (reduce_buf_size i)
                       (user_view inbuf (u64 insize)) (u64 insize)) g
  end.

Definition call_reduce_init (fuel : nat) (g : globals) : prog globals :=
  match reduce_init_cb (CIRCLE_INPUT_ST g) with Some u => run_user fuel u g | None => mret g end.

Definition call_reduce_fini (fuel : nat) (g : globals) : prog globals :=
  match reduce_fini_cb (CIRCLE_INPUT_ST g) with
  | None => mret g
  | Some f =>
      let i := CIRCLE_INPUT_ST g in
      run_user fuel (f (user_view (reduce_buf i) (reduce_buf_size i)) (reduce_buf_size i)) g
  end.

(** [MPI_Send(CIRCLE_INPUT_ST.reduce_buf, bytes, MPI_BYTE, dst)] *)
Definition send_user_data (dst bytes : Z) (g : globals) : prog unit :=
  b ← deref (reduce_buf (CIRCLE_INPUT_ST g));
  l ← deref (load_list b 0 bytes);
  call (OSend dst CIRCLE_TAG_REDUCE (Bytes l)).

(** One child's message in an outstanding reduction. *)
Definition reduce_child_msg (fuel : nat) (c : Z) (r : reduce_st) (g : globals)
    : prog (reduce_st * globals) :=
  '(v0, v1, v2) ← recv_longs c CIRCLE_TAG_REDUCE;
  n ← i32 (reduce_replies r + 1);
  let r := set_reduce_replies n r in
  if v0 =? MSG_INVALID then mret (set_reduce_buf0 MSG_INVALID r, g)
  else
    total ← i64 (reduce_buf1 r + v1);
    let r := set_reduce_buf1 total r in
    inbuf ← recv_user_data c v2;
    g ← (if reduce_buf0 r =? MSG_VALID then call_reduce_op fuel inbuf v2 g else mret g);
    _ ← CIRCLE_free (addr <$> inbuf);
    mret (r, g).

Fixpoint reduce_children (fuel n : nat) (i : Z) (t : CIRCLE_tree_state_st) (r : reduce_st)
    (g : globals) : prog (reduce_st * globals) :=
  match n with
  | O => mret (r, g)
  | S n =>
      c ← child t i;
      m ← call (OIprobe c CIRCLE_TAG_REDUCE);
      '(r, g) ← (match m with
                 | Some _ => reduce_child_msg fuel c r g
                 | None => mret (r, g)
                 end : prog (reduce_st * globals));
      reduce_children fuel n (i + 1) t r g
  end.

(** All children have replied: pass the partial result on. *)
Definition reduce_finish (fuel : nat) (t : CIRCLE_tree_state_st) (count : Z) (r : reduce_st)
    (g : globals) : prog (reduce_st * globals) :=
  total ← i64 (reduce_buf1 r + count);
  let r := set_reduce_buf1 total r in
  if negb (parent_rank t =? MPI_PROC_NULL) then
    let bytes := to_i32 (reduce_buf_size (CIRCLE_INPUT_ST g)) in
    let r := set_reduce_buf2 bytes r in
    _ ← send_longs (parent_rank t) CIRCLE_TAG_REDUCE r;
    _ ← (if (0 <? bytes) && (reduce_buf0 r =? MSG_VALID)
         then send_user_data (parent_rank t) bytes g else mret tt);
    mret (set_reduce_outstanding 0 r, g)
  else
    g ← (if reduce_buf0 r =? MSG_VALID then call_reduce_fini fuel g else mret g);
    mret (set_reduce_outstanding 0 r, g).

(** Whether a new reduction is due. *)
Definition reduce_due (t : CIRCLE_tree_state_st) (r : reduce_st) (cleanup : Z) (now : double)
    : prog bool :=
  if double_ge now (double_add (reduce_time_last r) (reduce_time_interval r)) || truth cleanup then
    if parent_rank t =? MPI_PROC_NULL then mret true
    else
      m ← call (OIprobe (parent_rank t) CIRCLE_TAG_REDUCE);
      match m with
      | Some _ => _ ← call (ORecv (parent_rank t) CIRCLE_TAG_REDUCE 0); mret true
      | None => mret false
      end
  else mret false.

Definition reduce_start (fuel : nat) (t : CIRCLE_tree_state_st) (now : double) (r : reduce_st)
    (g : globals) : prog (reduce_st * globals) :=
  let r := mk_reduce_st (reduce_enabled r) now (reduce_time_interval r) 1 0 MSG_VALID 0 0 in
  g ← call_reduce_init fuel g;
  _ ← send_children (Z.to_nat (children t)) 0 CIRCLE_TAG_REDUCE (Bytes []) t;
  mret (r, g).

Definition CIRCLE_reduce_check (fuel : nat) (t : CIRCLE_tree_state_st) (count cleanup : Z)
    (r : reduce_st) (g : globals) : prog (reduce_st * globals) :=
  if truth (reduce_outstanding r) then
    '(r, g) ← reduce_children fuel (Z.to_nat (children t)) 0 t r g;
    if reduce_replies r =? children t then reduce_finish fuel t count r g else mret (r, g)
  else
    now ← call OWtime;
    start ← reduce_due t r cleanup now;
    if start && truth cleanup then
      if negb (parent_rank t =? MPI_PROC_NULL) then
        let r := set_reduce_buf0 MSG_INVALID r in
        _ ← send_longs (parent_rank t) CIRCLE_TAG_REDUCE r;
        mret (r, g)
      else mret (r, g)
    else if start : bool then reduce_start fuel t now r g
    else mret (r, g).

(** Wait for every child and combine what it sends. *)
Fixpoint reduce_sync_children (fuel n : nat) (i : Z) (t : CIRCLE_tree_state_st) (r : reduce_st)
    (g : globals) : prog (reduce_st * globals) :=
  match n with
  | O => mret (r, g)
  | S n =>
      c ← child t i;
      '(v0, v1, v2) ← recv_longs c CIRCLE_TAG_REDUCE;
      total ← i64 (reduce_buf1 r + v1);
      inbuf ← recv_user_data c v2;
      g ← call_reduce_op fuel inbuf v2 g;
      _ ← CIRCLE_free (addr <$> inbuf);
      reduce_sync_children fuel n (i + 1) t (set_reduce_buf1 total r) g
  end.

Definition CIRCLE_reduce_sync (fuel : nat) (t : CIRCLE_tree_state_st) (count : Z) (r : reduce_st)
    (g : globals) : prog (reduce_st * globals) :=
  let r := set_reduce_buf2 0 (set_reduce_buf1 count (set_reduce_buf0 MSG_VALID r)) in
  g ← call_reduce_init fuel g;
  '(r, g) ← reduce_sync_children fuel (Z.to_nat (children t)) 0 t r g;
  if negb (parent_rank t =? MPI_PROC_NULL) then
    let bytes := to_i32 (reduce_buf_size (CIRCLE_INPUT_ST g)) in
    let r := set_reduce_buf2 bytes r in
    _ ← send_longs (parent_rank t) CIRCLE_TAG_REDUCE r;
    _ ← (if 0 <? bytes then send_user_data (parent_rank t) bytes g else mret tt);
    mret (r, g)
  else
    g ← call_reduce_fini fuel g;
    mret (r, g).

(** ** Data that is withdrawn

    CIRCLE_reduce with no data frees the buffer but leaves its size. *)

Definition withdrawing (i : CIRCLE_input_st) : Prop :=
  reduce_init_cb i = Some (UReduce [] UReturn).

(** [CIRCLE_reduce(buf, size)], then the final reduction. *)
Definition reduce_then_sync (fuel : nat) (buf : list byte) (t : CIRCLE_tree_state_st) (count : Z)
    (r : reduce_st) (g : globals) : prog (reduce_st * globals) :=
  g ← CIRCLE_reduce buf g;
  CIRCLE_reduce_sync fuel t count r g.

Lemma reduce_nothing b g :
  reduce_buf (CIRCLE_INPUT_ST g) = Some b →
  CIRCLE_reduce [] g = Vis (OFree (addr b)) (λ _, Ret (upd_input (set_reduce_buf None) g)).
Proof. unfold CIRCLE_reduce. by intros ->. Qed.

Lemma no_data_size (buf : list byte) :
  buf ≠ [] → Z.of_nat (length buf) ≤ INT32_MAX →
  u64 (Z.of_nat (length buf)) = Z.of_nat (length buf) ∧ 0 < Z.of_nat (length buf).
Proof. intros Hb Hmax. destruct buf; [done|]. split; [apply u64_small; c_arith|cbn; lia]. Qed.

(** C40 Reduction data that is withdrawn is sent all the same.  When a rank with
    a parent and no children has given data to CIRCLE_reduce, and in the final
    reduction its callback reports that there are none (CIRCLE_reduce with size
    0), then the buffer is freed, but the header still announces the old number
    of bytes to the parent, and the send of the data reads them from NULL. *)
Theorem withdrawn_data_sent fuel buf t count r G g :
  withdrawing (CIRCLE_INPUT_ST G) → reduce_buf (CIRCLE_INPUT_ST G) = None →
  buf ≠ [] → Z.of_nat (length buf) ≤ INT32_MAX →
  parent_rank t ≠ MPI_PROC_NULL → children t = 0 →
  (∀ p, p ∉ v_live g → ¬ in_flight g p) →
  wp (mpi false) (reduce_then_sync fuel buf t count r G) (λ _ _, False)
    (λ g' e, e = UB ∧ v_live g' = v_live g ∧
       v_sent g' = v_sent g ++
         [Msg (parent_rank t) CIRCLE_TAG_REDUCE (Longs [MSG_VALID; count; Z.of_nat (length buf)])]) g.
Proof.
  intros Hcb Hnone Hbuf Hmax Hpar Hch Hfl. pose proof (no_data_size buf Hbuf Hmax) as [Hsize Hpos].
  unfold reduce_then_sync, CIRCLE_reduce. rewrite Hnone, Hsize.
  cbn [fmap option_fmap option_map CIRCLE_free mbind prog_mbind prog_bind mret prog_mret].
  rewrite (proj2 (Z.ltb_lt 0 _)) by done. split; [done|].
  intros [p|] g' (l & Hp & ->); [|by destruct Hp].
  destruct Hp as (Hp & -> & _). cbn -[store_list CIRCLE_reduce_sync]. rewrite store_list_ok by (cbn; lia).
  unfold CIRCLE_reduce_sync, call_reduce_init.
  cbn -[to_i32 children parent_rank run_user reduce_sync_children]. rewrite Hcb, Hch.
  change (Z.to_nat 0) with O. cbn [run_user reduce_sync_children].
  erewrite reduce_nothing by reflexivity.
  cbn -[to_i32 parent_rank]. split; [split; [set_solver|by apply Hfl]|].
  intros [] g' (l & Hl & ->). cbn in Hl. subst l. rewrite (proj2 (Z.eqb_neq _ _)) by done.
  cbn -[to_i32]. rewrite to_i32_small by c_arith. split; [done|]. intros [] g' ->.
  rewrite (proj2 (Z.ltb_lt 0 _)) by done. cbn. split; [done|]. split; [set_solver|done].
Qed.

(** Rank 1 of two, with two bytes of data. *)
Definition withdrawing_globals : globals :=
  mk_globals (mk_input None None (Some (UReduce [] UReturn)) None None None 0 0 0 2 None) 0 1 0 0.

Lemma withdrawn_data_sent_witness :
  wp (mpi false)
    (reduce_then_sync 0 [Byte.x61; Byte.x62] (mkTree 1 2 0 0 None) 7
       (mk_reduce_st 1 (double_of_int 0) (double_of_int 0) 0 0 0 0 0) withdrawing_globals) (λ _ _, False)
    (λ g' e, e = UB ∧ v_live g' = ∅ ∧ v_sent g' = [Msg 0 CIRCLE_TAG_REDUCE (Longs [MSG_VALID; 7; 2])])
    (View ∅ ∅ [] []).
Proof.
  apply (withdrawn_data_sent 0 [Byte.x61; Byte.x62] (mkTree 1 2 0 0 None) 7
           (mk_reduce_st 1 (double_of_int 0) (double_of_int 0) 0 0 0 0 0) withdrawing_globals (View ∅ ∅ [] [])).
  - reflexivity.
  - reflexivity.
  - discriminate.
  - apply (bool_decide_unpack _). vm_compute. done.
  - discriminate.
  - reflexivity.
  - intros p _ [r Hr]. cbn in Hr. by rewrite lookup_empty in Hr.
Defined.
