(* ===== verification/Quiet.v ===== *)
(** * Code that keeps to a set of calls

    [quiet K t Φ]: every call that [t] makes is in [K], and [t] returns only
    results that satisfy [Φ]; stops are allowed.  [K] is any set of calls that
    contains those that exchange no messages ([Local]) and the messages of the
    tags the code uses ([Talks]), so the lemmas below, one per function of the
    library, serve every protocol that is about a few tags only. *)
From S2P Require Import Prelude CMonad Mem Heap Queue Stdio Checkpoint Wire Tree Split State Mpi Sends Transfer Barrier Term Abort Token Network Proc Api Reduce.

(** The call by which user code works on an item (any use it makes of the
    outside world while it processes one). *)
Definition WORK_CALL : Z := 0.

(** Calls that neither send, see nor take a message, nor are made by user
    code. *)
Definition local_op (o : op) : bool :=
  match o with
  | OSend _ _ _ | OIsend _ _ _ _ | OIssend _ _ _ | ORecv _ _ _ | OIprobe _ _ | OExternal _ => false
  | _ => true
  end.

Definition on_tag (tag : Z) (o : op) : bool :=
  match o with
  | OSend _ t _ | OIsend _ t _ _ | OIssend _ t _ | ORecv _ t _ | OIprobe _ t => t =? tag
  | _ => false
  end.

Class Local (K : op → bool) : Prop := MkLocal { local_ok : ∀ o, local_op o = true → K o = true }.
#[export] Hint Mode Local ! : typeclass_instances.
Class Talks (K : op → bool) (tag : Z) : Prop := MkTalks { talks_ok : ∀ o, on_tag tag o = true → K o = true }.
#[export] Hint Mode Talks ! - : typeclass_instances.
(** Receiving, but not necessarily sending. *)
Class Takes (K : op → bool) (tag : Z) : Prop := MkTakes { takes_ok : ∀ src c, K (ORecv src tag c) = true }.
#[export] Hint Mode Takes ! - : typeclass_instances.
#[export] Instance talks_takes {K tag} `{!Talks K tag} : Takes K tag.
Proof. split. intros. apply (talks_ok (tag := tag)), Z.eqb_refl. Qed.
(** User code may call anything, or anything but work on an item. *)
Class Works (K : op → bool) : Prop := MkWorks { works_ok : ∀ n, K (OExternal n) = true }.
Class Idles (K : op → bool) : Prop := MkIdles { idles_ok : ∀ n, n ≠ WORK_CALL → K (OExternal n) = true }.

Fixpoint quiet (K : op → bool) {A} (t : prog A) (Φ : A → Prop) : Prop :=
  match t with
  | Ret a => Φ a
  | Stop _ => True
  | Vis o k => K o = true ∧ ∀ r, quiet K (k r) Φ
  end.

Lemma quiet_mono K {A} (t : prog A) (Φ Φ' : A → Prop) :
  (∀ a, Φ a → Φ' a) → quiet K t Φ → quiet K t Φ'.
Proof. intros H. induction t; simpl; [auto|done|]. intros [? ?]. auto. Qed.

Lemma quiet_bind K {A B} (t : prog A) (f : A → prog B) Φ :
  quiet K t (λ a, quiet K (f a) Φ) → quiet K (prog_bind f t) Φ.
Proof. induction t; simpl; [done|done|]. intros [? ?]. auto. Qed.

(** Sequencing of a part whose result does not matter. *)
Lemma quiet_seq K {A B} (t : prog A) (f : A → prog B) Φ Ψ :
  quiet K t Ψ → (∀ a, Ψ a → quiet K (f a) Φ) → quiet K (prog_bind f t) Φ.
Proof. intros Ht Hf. apply quiet_bind. by eapply quiet_mono. Qed.

(** A call that is in the set. *)
Ltac quiet_call := first [reflexivity | apply local_ok; reflexivity
  | match goal with |- _ (OSend _ ?t _) = true => apply (talks_ok (tag := t)), Z.eqb_refl
                  | |- _ (OIsend _ ?t _ _) = true => apply (talks_ok (tag := t)), Z.eqb_refl
                  | |- _ (OIssend _ ?t _) = true => apply (talks_ok (tag := t)), Z.eqb_refl
                  | |- _ (OIprobe _ ?t) = true => apply (talks_ok (tag := t)), Z.eqb_refl
                  | |- _ (ORecv _ ?t _) = true => apply (takes_ok (tag := t)) end ].

Lemma quiet_i32 {K} z Φ : Φ z → quiet K (i32 z) Φ.
Proof. intros H. unfold i32. by destruct (in_i32 z). Qed.

(** Steps through a body: binds, calls and case distinctions. *)
Ltac quiet_step :=
  match goal with
  | |- quiet _ (mbind _ _) _ => apply quiet_bind
  | |- quiet _ (prog_bind _ _) _ => apply quiet_bind
  | |- quiet _ (mret _) _ => cbn [quiet mret prog_mret]
  | |- quiet _ (Ret _) _ => cbn [quiet]
  | |- quiet _ (Stop _) _ => exact I
  | |- quiet _ (call _) _ => split; [quiet_call|intros ?]
  | |- quiet _ (Vis _ _) _ => split; [quiet_call|intros ?]
  | |- quiet _ (deref ?x) _ => destruct x; cbn [deref]
  | |- quiet _ (i32 _) _ => apply quiet_i32; cbn beta
  | |- quiet _ (i64 ?z) _ => unfold i64
  | |- quiet _ (let '(_, _) := ?x in _) _ => destruct x
  | |- quiet _ (match ?x with _ => _ end) _ => destruct x
  | |- quiet _ (if ?x then _ else _) _ => destruct x
  | |- quiet _ (let x := _ in _) _ => intros
  end.
Ltac quiet_steps := repeat (cbn zeta; quiet_step); try done.

(** ** The components *)

Lemma quiet_free {K} `{!Local K} p Φ : (∀ r, Φ r) → quiet K (CIRCLE_free p) Φ.
Proof. intros H. unfold CIRCLE_free. quiet_steps. Qed.

Lemma quiet_MPI_Test {K} `{!Local K} r Φ : (∀ x, Φ x) → quiet K (MPI_Test r) Φ.
Proof. intros H. unfold MPI_Test. quiet_steps. Qed.

Lemma quiet_track {K} `{!Local K} sn r b Φ : (∀ x, Φ x) → quiet K (CIRCLE_worksend_track sn r b) Φ.
Proof. intros H. unfold CIRCLE_worksend_track. quiet_steps. Qed.

Lemma quiet_slot {K} `{!Local K} sn i Φ : (∀ x, Φ x) → quiet K (worksend_slot sn i) Φ.
Proof.
  intros H. unfold worksend_slot, MPI_Test, CIRCLE_free. quiet_steps.
Qed.

Lemma quiet_check {K} `{!Local K} sn Φ : (∀ x, Φ x) → quiet K (CIRCLE_worksend_check sn) Φ.
Proof.
  intros H. unfold CIRCLE_worksend_check. generalize (Z.to_nat (send_count sn)). intros n.
  revert sn. induction n as [|n IH]; intros sn; cbn [worksend_loop]; [apply H|].
  apply quiet_bind, quiet_slot. intros x. apply IH.
Qed.

Lemma quiet_release {K} `{!Local K} n i bufs Φ : (∀ x, Φ x) → quiet K (worksend_release n i bufs) Φ.
Proof.
  intros H. revert i bufs. induction n as [|n IH]; intros i bufs; cbn [worksend_release]; [apply H|].
  unfold CIRCLE_free. quiet_steps; apply IH.
Qed.

Lemma quiet_wait {K} `{!Local K} r sn Φ : (∀ x, Φ x) → quiet K (CIRCLE_worksend_wait r sn) Φ.
Proof.
  intros H. unfold CIRCLE_worksend_wait. quiet_steps.
  all: apply quiet_release; intros; quiet_steps.
Qed.

Lemma quiet_grow_str {K} `{!Local K} fuel c n Φ : (∀ x, Φ x) → quiet K (grow_str_count fuel c n) Φ.
Proof.
  intros H. revert c. induction fuel as [|fuel IH]; intros c; cbn [grow_str_count]; quiet_steps.
  all: first [apply H|apply IH].
Qed.

Lemma quiet_grow_bytes {K} `{!Local K} fuel c n Φ : (∀ x, Φ x) → quiet K (grow_bytes fuel c n) Φ.
Proof.
  intros H. revert c. induction fuel as [|fuel IH]; intros c; cbn [grow_bytes]; quiet_steps.
  all: first [apply H|apply IH].
Qed.

Lemma quiet_str_extend {K} `{!Local K} qp n (Φ : Z * CIRCLE_internal_queue_t → Prop) :
  (∀ rc qp', q_count qp' = q_count qp → Φ (rc, qp')) →
  quiet K (CIRCLE_internal_queue_str_extend qp n) Φ.
Proof.
  intros H. unfold CIRCLE_internal_queue_str_extend.
  apply quiet_bind, quiet_grow_str. intros m. quiet_steps; by apply H.
Qed.

Lemma quiet_extend {K} `{!Local K} qp n (Φ : Z * CIRCLE_internal_queue_t → Prop) :
  (∀ rc qp', q_count qp' = q_count qp → Φ (rc, qp')) →
  quiet K (CIRCLE_internal_queue_extend qp n) Φ.
Proof.
  intros H. unfold CIRCLE_internal_queue_extend.
  apply quiet_bind, quiet_grow_bytes. intros m. quiet_steps; by apply H.
Qed.

Lemma quiet_extend_offsets {K} `{!Local K} o n Φ : (∀ x, Φ x) → quiet K (CIRCLE_extend_offsets o n) Φ.
Proof.
  intros H. unfold CIRCLE_extend_offsets. destruct (_ <=? _); [apply H|].
  apply quiet_bind, quiet_grow_str. intros m. quiet_steps; apply H.
Qed.

(** The element count stays in range. *)
Definition nonneg_to (qp qp' : CIRCLE_internal_queue_t) : Prop := 0 ≤ q_count qp → 0 ≤ q_count qp'.

Lemma nonneg_refl qp : nonneg_to qp qp.
Proof. unfold nonneg_to. done. Qed.
#[export] Hint Resolve nonneg_refl : core.

Lemma quiet_push {K} `{!Local K} qp s (Φ : Z * CIRCLE_internal_queue_t → Prop) :
  (∀ rc qp', nonneg_to qp qp' → Φ (rc, qp')) → quiet K (CIRCLE_internal_queue_push qp s) Φ.
Proof.
  intros H. unfold CIRCLE_internal_queue_push. destruct s as [s|]; [|by apply H].
  cbn zeta. quiet_step; [by apply H|]. quiet_step; [by apply H|]. quiet_step. quiet_step.
  apply (quiet_seq _ _ _ _ (λ x, q_count x.2 = q_count qp)).
  { destruct (_ <? _); [by apply quiet_str_extend|done]. }
  intros [rc qp1] H1. cbn in H1. destruct (rc <? 0); [apply H; unfold nonneg_to; lia|].
  apply (quiet_seq _ _ _ _ (λ x, q_count x.2 = q_count qp1)).
  { destruct (_ <? _); [by apply quiet_extend|done]. }
  intros [rc' qp2] H2. cbn in H2. destruct (rc' <? 0); [apply H; unfold nonneg_to; lia|].
  quiet_steps; apply H; unfold nonneg_to; simpl; lia.
Qed.

(** Popping an empty queue fails. *)
Lemma quiet_pop {K} `{!Local K} qp room (Φ : Z * option CIRCLE_internal_queue_t * option (list byte) → Prop) :
  (∀ x, (∀ q', x.1.2 = Some q' →
     ∃ q, qp = Some q ∧ (q_count q = 0 → q_count q' = 0) ∧ nonneg_to q q') → Φ x) →
  quiet K (CIRCLE_internal_queue_pop qp room) Φ.
Proof.
  intros H. unfold CIRCLE_internal_queue_pop. destruct qp as [q|]; [|by apply H].
  destruct (Z.ltb_spec (q_count q) 1).
  { apply H. intros q' [= <-]. by exists q. }
  quiet_steps; apply H; intros ? [= <-]; exists q; (split; [done|]); unfold nonneg_to; simpl; lia.
Qed.

Lemma quiet_write {K} `{!Local K} qp rank (Φ : Z * CIRCLE_internal_queue_t → Prop) :
  (∀ rc qp', (q_count qp = 0 → q_count qp' = 0) → nonneg_to qp qp' → Φ (rc, qp')) →
  quiet K (CIRCLE_internal_queue_write qp rank) Φ.
Proof.
  intros H. unfold CIRCLE_internal_queue_write.
  destruct (Z.eqb_spec (q_count qp) 0) as [|Hne]; [by apply H|].
  apply quiet_bind. split; [quiet_call|]. intros [h|]; cbn; [|by apply H].
  apply (quiet_seq _ _ _ _ (λ x, nonneg_to qp x.2)).
  - generalize (Z.to_nat (q_count qp)). intros n. clear Hne H. revert qp.
    induction n as [|n IH]; intros qp; cbn [queue_write_loop]; destruct (0 <? q_count qp);
      try first [exact I|exact (nonneg_refl qp)].
    apply quiet_bind, quiet_pop. intros [[rc qp'] s] Hq. cbn.
    assert (nonneg_to qp (default qp qp')) as Hn.
    { destruct qp' as [q|]; [|done]. by destruct (Hq q eq_refl) as (q0 & [= <-] & _ & ?). }
    destruct (rc <? 0); [done|]. split; [quiet_call|]. intros k. cbn. destruct (k <? 0); [done|].
    eapply quiet_mono, IH. unfold nonneg_to in *. auto.
  - intros [rc qp'] Hn. quiet_steps; apply H; try done; intros; lia.
Qed.

Lemma quiet_read {K} `{!Local K} fuel qp rank (Φ : Z * option CIRCLE_internal_queue_t → Prop) :
  (∀ rc qp', (∀ q', qp' = Some q' → ∃ q, qp = Some q ∧ nonneg_to q q') → Φ (rc, qp')) →
  quiet K (CIRCLE_internal_queue_read fuel qp rank) Φ.
Proof.
  intros H. unfold CIRCLE_internal_queue_read. destruct qp as [qp|]; [|by apply H].
  apply quiet_bind. split; [quiet_call|]. intros [h|]; cbn.
  2: { apply H. intros q' [= <-]. by exists qp. }
  apply (quiet_seq _ _ _ _ (nonneg_to qp)).
  - clear H. revert qp. induction fuel as [|fuel IH]; intros qp; cbn [queue_read_loop]; [done|].
    apply quiet_bind. split; [quiet_call|]. intros [s|]; cbn; [|done].
    destruct (0 <? _); [|apply IH]. apply quiet_bind, quiet_push. intros rc qp' Hn.
    eapply quiet_mono, IH. unfold nonneg_to in *. auto.
  - intros qp' Hn. quiet_steps; apply H; intros q' [= <-]; by exists qp.
Qed.

(** ** User code *)

(** The queue is empty. *)
Definition no_items (G : globals) : Prop :=
  ∀ qp, queue (CIRCLE_INPUT_ST G) = Some qp → q_count qp = 0.

Definition same_callbacks (G G' : globals) : Prop :=
  reduce_init_cb (CIRCLE_INPUT_ST G') = reduce_init_cb (CIRCLE_INPUT_ST G) ∧
  reduce_op_cb (CIRCLE_INPUT_ST G') = reduce_op_cb (CIRCLE_INPUT_ST G) ∧
  reduce_fini_cb (CIRCLE_INPUT_ST G') = reduce_fini_cb (CIRCLE_INPUT_ST G).

Definition count_ok (G : globals) : Prop :=
  ∀ qp, queue (CIRCLE_INPUT_ST G) = Some qp → 0 ≤ q_count qp.

(** Once raised, the abort flag stays. *)
Definition keeps (G G' : globals) : Prop :=
  (truth (CIRCLE_ABORT_FLAG G) = true → truth (CIRCLE_ABORT_FLAG G') = true) ∧
  (count_ok G → count_ok G') ∧ same_callbacks G G'.

(** And nothing is put into an empty queue. *)
Definition calm (G G' : globals) : Prop := (no_items G → no_items G') ∧ keeps G G'.

Lemma keeps_refl G : keeps G G.
Proof. by split. Qed.
Lemma keeps_trans G G' G'' : keeps G G' → keeps G' G'' → keeps G G''.
Proof.
  intros (? & ? & ? & ? & ?) (? & ? & ? & ? & ?). unfold keeps, same_callbacks.
  split; [auto|]. split; [auto|]. by repeat split; etransitivity.
Qed.
Lemma calm_refl G : calm G G.
Proof. split; [done|apply keeps_refl]. Qed.
Lemma calm_trans G G' G'' : calm G G' → calm G' G'' → calm G G''.
Proof. intros [? ?] [? ?]. split; [auto|by eapply keeps_trans]. Qed.

(** Code that may run when the process has no work: it neither enqueues
    items nor works on them. *)
Fixpoint tame (u : user) : Prop :=
  match u with
  | UReturn => True
  | UExternal n k => n ≠ WORK_CALL ∧ ∀ v, tame (k v)
  | UEnqueue _ _ | UReadRestarts _ => False
  | UDequeue _ k => ∀ rc s, tame (k rc s)
  | ULocalQueueSize k => ∀ n, tame (k n)
  | UReduce _ k | UAbort k | UCheckpoint k | USetOptions _ k | USetTreeWidth _ k
  | USetReducePeriod _ k => tame k
  end.

Definition tame_callbacks (G : globals) : Prop :=
  (∀ u, reduce_init_cb (CIRCLE_INPUT_ST G) = Some u → tame u) ∧
  (∀ f a x b y, reduce_op_cb (CIRCLE_INPUT_ST G) = Some f → tame (f a x b y)) ∧
  (∀ f a x, reduce_fini_cb (CIRCLE_INPUT_ST G) = Some f → tame (f a x)).

Lemma keeps_tame G G' : keeps G G' → tame_callbacks G → tame_callbacks G'.
Proof. intros (_ & _ & H1 & H2 & H3). unfold tame_callbacks. by rewrite H1, H2, H3. Qed.

Lemma quiet_reduce_api {K} `{!Local K} buf G (Φ : globals → Prop) :
  (∀ G', calm G G' → Φ G') → quiet K (CIRCLE_reduce buf G) Φ.
Proof.
  intros H. unfold CIRCLE_reduce. apply quiet_bind, quiet_free. intros _. cbn zeta.
  quiet_steps; by apply H.
Qed.

Lemma quiet_dequeue {K} `{!Local K} room G (Φ : Z * globals * option (list byte) → Prop) :
  (∀ rc G' s, calm G G' → Φ (rc, G', s)) → quiet K (CIRCLE_dequeue room G) Φ.
Proof.
  intros H. unfold CIRCLE_dequeue. apply quiet_bind, quiet_pop. intros [[rc qp] s] Hq. cbn in *.
  apply H. split; [|split; [done|split; [|by split]]]; intros Hn q Heq; cbn in Heq;
    destruct (Hq q Heq) as (q0 & Hq0 & Hc & Hz); [by apply Hc, Hn|by apply Hz, Hn].
Qed.

Lemma quiet_checkpoint {K} `{!Local K} G (Φ : globals → Prop) :
  (∀ G', calm G G' → Φ G') → quiet K (CIRCLE_checkpoint G) Φ.
Proof.
  intros H. unfold CIRCLE_checkpoint, _CIRCLE_checkpoint, the_queue.
  destruct (queue (CIRCLE_INPUT_ST G)) as [q|] eqn:Hq; [|done]. cbn.
  apply quiet_bind, quiet_bind, quiet_write. intros rc qp Hc Hz. cbn.
  apply H. split; [|split; [done|split; [|by split]]]; intros Hn q' [= <-]; [by apply Hc, Hn|by apply Hz, Hn].
Qed.

(** User code in general. *)
Lemma quiet_user {K} `{!Local K, !Works K} fuel u G : quiet K (run_user fuel u G) (keeps G).
Proof.
  revert G. induction u as [|n k IH|s k IH|room k IH|k IH|buf k IH|k IH|k IH|k IH|o k IH|w k IH|s k IH];
    intros G; cbn [run_user].
  - apply keeps_refl.
  - split; [apply works_ok|]. intros v. apply IH.
  - unfold CIRCLE_enqueue, the_queue.
    destruct (queue (CIRCLE_INPUT_ST G)) as [q|] eqn:Hq; [|done]. cbn.
    apply quiet_bind, quiet_bind, quiet_push. intros rc qp Hn. cbn.
    eapply quiet_mono, IH. intros G'. apply keeps_trans. split; [done|split; [|by split]].
    intros Hc q' [= <-]. by apply Hn, Hc.
  - apply quiet_bind, quiet_dequeue. intros rc G' s HG. cbn.
    eapply quiet_mono, IH. intros G''. apply keeps_trans, HG.
  - unfold CIRCLE_local_queue_size, the_queue. destruct (queue (CIRCLE_INPUT_ST G)); [|done]. apply IH.
  - apply quiet_bind, quiet_reduce_api. intros G' HG. eapply quiet_mono, IH. intros G''. apply keeps_trans, HG.
  - eapply quiet_mono, IH. intros G''. apply keeps_trans. by split.
  - apply quiet_bind, quiet_checkpoint. intros G' HG. eapply quiet_mono, IH. intros G''. apply keeps_trans, HG.
  - unfold CIRCLE_read_restarts, _CIRCLE_read_restarts.
    apply quiet_bind, quiet_bind, quiet_bind, quiet_read. intros rc qp Hn. cbn.
    eapply quiet_mono, IH. intros G'. apply keeps_trans. split; [done|split; [|by split]].
    intros Hc q' Hq. cbn in Hq. destruct (Hn q' Hq) as (q & Hq0 & Hz). by apply Hz, Hc.
  - eapply quiet_mono, IH. intros G'. apply keeps_trans. by repeat split.
  - eapply quiet_mono, IH. intros G'. apply keeps_trans. by repeat split.
  - eapply quiet_mono, IH. intros G'. apply keeps_trans. by repeat split.
Qed.

(** A callback that does not process items. *)
Lemma quiet_tame {K} `{!Local K, !Idles K} fuel u G : tame u → quiet K (run_user fuel u G) (calm G).
Proof.
  revert G. induction u as [|n k IH|s k IH|room k IH|k IH|buf k IH|k IH|k IH|k IH|o k IH|w k IH|s k IH];
    intros G; cbn [run_user tame].
  - intros _. apply calm_refl.
  - intros [Hn Ht]. split; [by apply idles_ok|]. intros v. by apply IH.
  - done.
  - intros Ht. apply quiet_bind, quiet_dequeue. intros rc G' s HG. cbn.
    eapply quiet_mono; [|by apply IH]. intros G''. by apply calm_trans.
  - unfold CIRCLE_local_queue_size, the_queue. destruct (queue (CIRCLE_INPUT_ST G)); [|done].
    intros Ht. by apply IH.
  - intros Ht. apply quiet_bind, quiet_reduce_api. intros G' HG.
    eapply quiet_mono; [|by apply IH]. intros G''. by apply calm_trans.
  - intros Ht. eapply quiet_mono; [|by apply IH]. intros G''. apply calm_trans. by split.
  - intros Ht. apply quiet_bind, quiet_checkpoint. intros G' HG.
    eapply quiet_mono; [|by apply IH]. intros G''. by apply calm_trans.
  - done.
  - intros Ht. eapply quiet_mono; [|by apply IH]. intros G'. apply calm_trans. by repeat split.
  - intros Ht. eapply quiet_mono; [|by apply IH]. intros G'. apply calm_trans. by repeat split.
  - intros Ht. eapply quiet_mono; [|by apply IH]. intros G'. apply calm_trans. by repeat split.
Qed.

(** What the callbacks of the reductions may do: [I] says which callbacks are
    set, [R] what they leave of the globals. *)
Class Callbacks (K : op → bool) (I : globals → Prop) (R : relation globals) : Prop := {
  cb_preorder :: PreOrder R;
  cb_keep : ∀ G G', R G G' → I G → I G';
  cb_init : ∀ fuel G u, I G → reduce_init_cb (CIRCLE_INPUT_ST G) = Some u →
    quiet K (run_user fuel u G) (R G);
  cb_op : ∀ fuel G f a x b y, I G → reduce_op_cb (CIRCLE_INPUT_ST G) = Some f →
    quiet K (run_user fuel (f a x b y) G) (R G);
  cb_fini : ∀ fuel G f a x, I G → reduce_fini_cb (CIRCLE_INPUT_ST G) = Some f →
    quiet K (run_user fuel (f a x) G) (R G);
}.

#[export] Instance keeps_preorder : PreOrder keeps.
Proof. split; [exact keeps_refl|intros ? ? ?; apply keeps_trans]. Qed.
#[export] Instance calm_preorder : PreOrder calm.
Proof. split; [exact calm_refl|intros ? ? ?; apply calm_trans]. Qed.

#[export] Instance any_callbacks {K} `{!Local K, !Works K} : Callbacks K (λ _, True) keeps.
Proof. split; [apply _|done|..]; intros; by apply quiet_user. Qed.
#[export] Instance tame_callbacks_quiet {K} `{!Local K, !Idles K} : Callbacks K tame_callbacks calm.
Proof.
  split; [apply _|intros G G' HR; apply keeps_tame, HR|..].
  - intros fuel G u (H & _) Hu. by apply quiet_tame, H.
  - intros fuel G f a x b y (_ & H & _) Hf. by apply quiet_tame, H.
  - intros fuel G f a x (_ & _ & H) Hf. by apply quiet_tame, H.
Qed.

(** ** Collective operations *)

Lemma quiet_child {K} `{!Local K} t i Φ : (∀ x, Φ x) → quiet K (child t i) Φ.
Proof. intros H. unfold child. quiet_steps; apply H. Qed.

Lemma quiet_send_children {K tag} `{!Local K, !Talks K tag} n i p t Φ :
  (∀ x, Φ x) → quiet K (send_children n i tag p t) Φ.
Proof.
  intros H. revert i. induction n as [|n IH]; intros i; cbn [send_children]; [apply H|].
  apply quiet_bind, quiet_child. intros c. split; [quiet_call|]. intros ?. apply IH.
Qed.

Lemma quiet_barrier {K} `{!Local K, !Talks K CIRCLE_TAG_BARRIER} t b Φ : (∀ x, Φ x) → quiet K (CIRCLE_barrier_test t b) Φ.
Proof.
  intros H. unfold CIRCLE_barrier_test. destruct (negb _); [apply H|].
  apply (quiet_seq _ _ _ _ (λ _, True)); [unfold barrier_recv_child; quiet_steps|]. intros b1 _.
  apply (quiet_seq _ _ _ _ (λ _, True)); [unfold barrier_send_up; quiet_steps|]. intros b2 _.
  apply (quiet_seq _ _ _ _ (λ _, True)); [unfold barrier_complete; quiet_steps|]. intros [] _; [|apply H].
  apply quiet_bind, quiet_send_children. intros ?. apply H.
Qed.

Lemma quiet_recv_int {K} `{!Local K, !Talks K tag} src Φ : (∀ x, Φ x) → quiet K (recv_int src tag) Φ.
Proof. intros H. unfold recv_int. split; [quiet_call|]. intros m. cbn. quiet_steps; apply H. Qed.

Lemma quiet_abort_reduce {K} `{!Local K, !Talks K CIRCLE_TAG_ABORT_REDUCE} abort t a Φ : (∀ x, Φ x) → quiet K (CIRCLE_abort_reduce abort t a) Φ.
Proof.
  intros H. unfold CIRCLE_abort_reduce. apply (quiet_seq _ _ _ _ (λ _, True)).
  { generalize (Z.to_nat (children t)), 0, abort. intros n.
    induction n as [|n IH]; intros i flag; cbn [abort_reduce_recv]; [done|].
    apply quiet_bind, quiet_child. intros c. by apply quiet_bind, quiet_recv_int. }
  intros flag _. apply (quiet_seq _ _ _ _ (λ _, True)).
  { destruct (negb _); [|done]. split; [quiet_call|]. intros ?. by apply quiet_recv_int. }
  intros flag' _. apply quiet_bind, quiet_send_children. intros _. apply H.
Qed.

Lemma quiet_abort_post {K} `{!Local K, !Talks K CIRCLE_TAG_ABORT_REQUEST, !Talks K CIRCLE_TAG_ABORT_REPLY} peer k reqs Φ : (∀ x, Φ x) → quiet K (abort_post peer k reqs) Φ.
Proof. intros H. unfold abort_post. quiet_steps; apply H. Qed.

Lemma quiet_abort_start {K} `{!Local K, !Talks K CIRCLE_TAG_ABORT_REQUEST, !Talks K CIRCLE_TAG_ABORT_REPLY} t a cleanup Φ : (∀ x, Φ x) → quiet K (CIRCLE_abort_start t a cleanup) Φ.
Proof.
  intros H. unfold CIRCLE_abort_start. destruct (truth _); [apply H|]. cbn zeta.
  destruct (truth _); [apply H|]. apply (quiet_seq _ _ _ _ (λ _, True)).
  { destruct (negb _); [|done]. by apply quiet_bind, quiet_abort_post. }
  intros [k reqs] _. apply (quiet_seq _ _ _ _ (λ _, True)); [|intros [k' r'] _; apply H].
  generalize (Z.to_nat (children t)), 0, k, reqs. clear k reqs. intros n.
  induction n as [|n IH]; intros i k reqs; cbn [abort_post_children]; [done|].
  apply quiet_bind, quiet_child. intros c. by apply quiet_bind, quiet_abort_post.
Qed.

(** The abort flag is never taken back. *)
Lemma quiet_abort_check {K} `{!Local K, !Talks K CIRCLE_TAG_ABORT_REQUEST, !Talks K CIRCLE_TAG_ABORT_REPLY} abort t a cleanup (Φ : Z * abort_st → Prop) :
  (∀ abort' a', (truth abort = true → truth abort' = true) → Φ (abort', a')) →
  quiet K (CIRCLE_abort_check abort t a cleanup) Φ.
Proof.
  intros H. unfold CIRCLE_abort_check.
  apply (quiet_seq _ _ _ _ (λ x, truth abort = true → truth x.1 = true)).
  { destruct (truth abort) eqn:Ha; [|cbn; by rewrite Ha]. by apply quiet_bind, quiet_abort_start. }
  intros [a1 st1] H1. cbn in H1. apply quiet_bind. split; [quiet_call|]. intros m. cbn.
  apply (quiet_seq _ _ _ _ (λ x, truth abort = true → truth x.1 = true)).
  { destruct m as [[rank ?]|]; [|done]. split; [quiet_call|]. intros ?. split; [quiet_call|]. intros ?.
    by apply quiet_bind, quiet_abort_start. }
  intros [a2 st2] H2. cbn in H2. unfold MPI_Testall. quiet_steps; by apply H.
Qed.

Lemma quiet_token {K} `{!Local K, !Talks K CIRCLE_TAG_TOKEN} abort rank size tk Φ : (∀ x, Φ x) → quiet K (CIRCLE_token_check abort rank size tk) Φ.
Proof.
  intros H. unfold CIRCLE_token_check. split; [quiet_call|]. intros [m|]; [|apply H].
  change (quiet K (CIRCLE_token_recv abort rank size tk) Φ).
  unfold CIRCLE_token_recv. apply quiet_bind, quiet_recv_int. intros token.
  unfold wait_token, CIRCLE_token_issend. quiet_steps; apply H.
Qed.

(** ** Work requests *)

Definition frame (st st' : CIRCLE_state_st) : Prop :=
  st_term st' = st_term st ∧ st_tree st' = st_tree st.

Lemma quiet_next_proc {K} `{!Local K} fuel st (Φ : CIRCLE_state_st → Prop) :
  (∀ next seed, Φ (set_st_next_processor next (set_st_seed seed st))) → quiet K (CIRCLE_get_next_proc fuel st) Φ.
Proof.
  intros H. unfold CIRCLE_get_next_proc. destruct (1 <? _).
  2: { assert (st = set_st_seed (st_seed st) st) as -> by (by destruct st). apply H. }
  apply (quiet_seq _ _ _ _ (λ _, True)); [|intros [x seed] _; by apply H].
  generalize (st_seed st). induction fuel as [|fuel IH]; intros seed; cbn [next_proc_loop]; [done|].
  split; [quiet_call|]. intros [v s']. cbn. destruct (_ =? _); [apply IH|done].
Qed.

Lemma quiet_request_slot {K} `{!Local K} rq Φ : (∀ x, Φ x) → quiet K (test_request_slot rq) Φ.
Proof.
  intros H. unfold test_request_slot. destruct (work_request_req rq); [|apply H].
  apply quiet_bind, quiet_MPI_Test. intros [f r]. apply H.
Qed.

Lemma quiet_fill {K} `{!Local K} n i f b Φ : (∀ x, Φ x) → quiet K (fill n i f b) Φ.
Proof.
  intros H. revert i b. induction n as [|n IH]; intros i b; cbn [fill]; [apply H|].
  quiet_steps; apply IH.
Qed.

Lemma quiet_spread {K} `{!Local K} b i r c Φ : (∀ x, Φ x) → quiet K (spread_counts b i r c) Φ.
Proof.
  intros H. unfold spread_counts. apply (quiet_seq _ _ _ _ (λ _, True)).
  { destruct (_ =? _); [done|]. by apply quiet_i32. }
  intros base _. apply quiet_bind, quiet_i32. apply quiet_bind, quiet_i32.
  apply quiet_bind, quiet_fill. intros ?. by apply quiet_fill.
Qed.

Lemma quiet_split {K} `{!Local K} o seed q r Φ : (∀ x, Φ x) → quiet K (split_sizes o seed q r) Φ.
Proof.
  intros H. unfold split_sizes. apply quiet_bind, quiet_i32.
  apply quiet_bind. split; [quiet_call|]. intros [p|]; cbn [quiet]; [|done]. cbn zeta. destruct (truth _).
  - apply quiet_bind, quiet_spread. intros ?. apply H.
  - apply quiet_bind. split; [quiet_call|]. intros [v s]. cbn [quiet]. apply (quiet_seq _ _ _ _ (λ _, True)).
    { by destruct (_ =? _). }
    intros ? _. apply quiet_bind, quiet_i32. apply quiet_bind, quiet_i32.
    apply quiet_bind, quiet_fill. intros ?. apply quiet_bind, quiet_spread. intros ?. apply H.
Qed.

(** ** Reductions *)

Section reduce.
Context {K : op → bool} `{!Local K, !Talks K CIRCLE_TAG_REDUCE}.
Context (I : globals → Prop) (R : relation globals) `{!Callbacks K I R} (fuel : nat).

Lemma cb_refl G : R G G.
Proof. reflexivity. Qed.

Lemma quiet_reduce_op b s G : I G → quiet K (call_reduce_op fuel b s G) (R G).
Proof.
  intros H. unfold call_reduce_op. destruct (reduce_op_cb _) as [f|] eqn:Hf; [|apply cb_refl]. by apply cb_op.
Qed.

Lemma quiet_reduce_init G : I G → quiet K (call_reduce_init fuel G) (R G).
Proof.
  intros H. unfold call_reduce_init. destruct (reduce_init_cb _) as [u|] eqn:Hu; [|apply cb_refl]. by apply cb_init.
Qed.

Lemma quiet_reduce_fini G : I G → quiet K (call_reduce_fini fuel G) (R G).
Proof.
  intros H. unfold call_reduce_fini. destruct (reduce_fini_cb _) as [f|] eqn:Hf; [|apply cb_refl]. by apply cb_fini.
Qed.

Lemma quiet_recv_longs src Φ : (∀ x, Φ x) → quiet K (recv_longs src CIRCLE_TAG_REDUCE) Φ.
Proof. intros H. unfold recv_longs. apply quiet_bind. split; [quiet_call|]. intros m. cbn [quiet]. quiet_steps; apply H. Qed.

Lemma quiet_recv_user_data src n Φ : (∀ x, Φ x) → quiet K (recv_user_data src n) Φ.
Proof.
  intros H. unfold recv_user_data. cbn zeta. destruct (0 <? _); [|apply H].
  apply quiet_bind. split; [quiet_call|]. intros p. cbn [quiet].
  apply quiet_bind. split; [quiet_call|]. intros m. cbn [quiet]. quiet_steps; apply H.
Qed.

Lemma quiet_i64 z Φ : (∀ x, Φ x) → quiet K (i64 z) Φ.
Proof. intros H. unfold i64. destruct (_ && _); [apply H|done]. Qed.

Lemma quiet_send_user_data dst n G Φ : (∀ x, Φ x) → quiet K (send_user_data dst n G) Φ.
Proof. intros H. unfold send_user_data. quiet_steps; apply H. Qed.

Lemma quiet_child_msg c r G :
  I G → quiet K (reduce_child_msg fuel c r G) (λ x, R G x.2).
Proof.
  intros HG. unfold reduce_child_msg. apply quiet_bind, quiet_recv_longs. intros [[v0 v1] v2].
  apply quiet_bind, quiet_i32. cbn zeta. destruct (v0 =? MSG_INVALID); [apply cb_refl|].
  apply quiet_bind, quiet_i64. intros total. apply quiet_bind, quiet_recv_user_data. intros inbuf.
  apply (quiet_seq _ _ _ _ (R G)).
  { destruct (_ =? _); [by apply quiet_reduce_op|apply cb_refl]. }
  intros G' HG'. by apply quiet_bind, quiet_free.
Qed.

Lemma quiet_reduce_children n i t r G :
  I G → quiet K (reduce_children fuel n i t r G) (λ x, R G x.2).
Proof.
  revert i r G. induction n as [|n IH]; intros i r G HG; cbn [reduce_children]; [apply cb_refl|].
  apply quiet_bind, quiet_child. intros c. apply quiet_bind. split; [quiet_call|]. intros m. cbn [quiet].
  apply (quiet_seq _ _ _ _ (λ x, R G x.2)).
  { destruct m; [by apply quiet_child_msg|apply cb_refl]. }
  intros [r' G'] HG'. cbn in HG'. eapply quiet_mono; [|apply IH; by eapply cb_keep].
  intros x. by etrans.
Qed.

Lemma quiet_reduce_check t count cleanup r G :
  I G → quiet K (CIRCLE_reduce_check fuel t count cleanup r G) (λ x, R G x.2).
Proof.
  intros HG. unfold CIRCLE_reduce_check. destruct (truth _).
  - apply (quiet_seq _ _ _ _ (λ x, R G x.2)); [by apply quiet_reduce_children|].
    intros [r1 G1] H1. cbn in H1. destruct (_ =? _); [|done]. unfold reduce_finish.
    apply quiet_bind, quiet_i64. intros total. cbn zeta. destruct (negb _).
    + apply quiet_bind. split; [quiet_call|]. intros []. cbn [quiet].
      apply (quiet_seq _ _ _ _ (λ _, True)); [|done].
      destruct (_ && _); [by apply quiet_send_user_data|done].
    + apply (quiet_seq _ _ _ _ (R G)); [|done].
      destruct (_ =? _); [|done]. eapply quiet_mono; [|apply quiet_reduce_fini; by eapply cb_keep].
      intros x. by etrans.
  - apply quiet_bind. split; [quiet_call|]. intros now. cbn [quiet].
    apply (quiet_seq _ _ _ _ (λ _, True)); [unfold reduce_due; quiet_steps|]. intros start _.
    destruct (start && _).
    + destruct (negb _); [|apply cb_refl]. cbn zeta. apply quiet_bind. split; [quiet_call|]. intros []. apply cb_refl.
    + destruct start; [|apply cb_refl]. unfold reduce_start. cbn zeta.
      apply (quiet_seq _ _ _ _ (R G)); [by apply quiet_reduce_init|]. intros G' HG'.
      apply quiet_bind, quiet_send_children. intros []. done.
Qed.

Lemma quiet_sync_children n i t r G :
  I G → quiet K (reduce_sync_children fuel n i t r G) (λ x, R G x.2).
Proof.
  revert i r G. induction n as [|n IH]; intros i r G HG; cbn [reduce_sync_children]; [apply cb_refl|].
  apply quiet_bind, quiet_child. intros c. apply quiet_bind, quiet_recv_longs. intros [[v0 v1] v2].
  apply quiet_bind, quiet_i64. intros total. apply quiet_bind, quiet_recv_user_data. intros inbuf.
  apply (quiet_seq _ _ _ _ (R G)); [by apply quiet_reduce_op|]. intros G' HG'.
  apply quiet_bind, quiet_free. intros p. eapply quiet_mono; [|apply IH; by eapply cb_keep].
  intros x. by etrans.
Qed.

Lemma quiet_reduce_sync t count r G :
  I G → quiet K (CIRCLE_reduce_sync fuel t count r G) (λ x, R G x.2).
Proof.
  intros HG. unfold CIRCLE_reduce_sync. cbn zeta.
  apply (quiet_seq _ _ _ _ (R G)); [by apply quiet_reduce_init|]. intros G1 H1.
  apply (quiet_seq _ _ _ _ (λ x, R G1 x.2)).
  { apply quiet_sync_children. by eapply cb_keep. }
  intros [r2 G2] H2. cbn in H2. assert (R G G2) as H12 by (by etrans).
  destruct (negb _).
  - apply quiet_bind. split; [quiet_call|]. intros []. cbn [quiet].
    apply (quiet_seq _ _ _ _ (λ _, True)); [|done].
    destruct (0 <? _); [by apply quiet_send_user_data|done].
  - apply (quiet_seq _ _ _ _ (R G)); [|done].
    eapply quiet_mono; [|apply quiet_reduce_fini; by eapply cb_keep].
    intros x. by etrans.
Qed.
End reduce.
