(* ===== verification/Shelf.v ===== *)
(** * What a queue holds, in whatever state an allocation failure left it

    [queue_rep] describes a queue that is in order.  After a failed realloc an
    array is gone, and a later one brings it back without its contents; the
    library goes on all the same.  [stocked qp stk] still holds then: a cell
    that can be read is the right one, so whatever the code manages to read
    from the queue are the strings of [stk].  Every operation of the queue,
    packing and unpacking a transfer included, either stops or does to [stk]
    what it is meant to do; this is independent of the environment. *)
From S2P Require Import Prelude CMonad Mem Heap Queue Wire State Mpi Sends Transfer TransferSpec Quiet.

(** The cell [i] of an array, if there is an array and the cell was written. *)
Definition peek {A} (b : option (block A)) (i : Z) : option A :=
  match b with Some b => cells b !! i | None => None end.

(** From [off] on, what can be read is [l]. *)
Definition agrees {A} (b : option (block A)) (off : Z) (l : list A) : Prop :=
  ∀ i x y, l !! i = Some x → peek b (off + Z.of_nat i) = Some y → y = x.

(** The strings with their offsets, the top one first. *)
Abbreviation shelf := (list (Z * list byte)).

Fixpoint shelved (b : option (block byte)) (m : option (block Z)) (es : shelf) (top : Z) : Prop :=
  match es with
  | [] => 0 ≤ top
  | (off, s) :: es =>
      nonul s ∧ off + Z.of_nat (length s) + 1 ≤ top ∧ agrees m (Z.of_nat (length es)) [off] ∧
      agrees b off (s ++ [NUL]) ∧ shelved b m es off
  end.

Record stocked (qp : CIRCLE_internal_queue_t) (stk : list (list byte)) : Prop := Stocked {
  sk_shelf : ∃ es, es.*2 = stk ∧ shelved (q_base qp) (q_strings qp) es (q_head qp);
  sk_count : q_count qp = Z.of_nat (length stk);
  sk_bytes : q_bytes qp < SIZE_MOD;
  sk_cap : ∀ b, q_base qp = Some b → cap b < SIZE_MOD;
  sk_head : q_head qp < SIZE_MOD;
}.

(** ** Arrays *)

Lemma peek_regrow {A} (old : option (block A)) p n i : peek (Some (regrow old p n)) i = peek old i.
Proof. by destruct old. Qed.

Lemma agrees_sub {A} (b b' : option (block A)) off l :
  (∀ i y, off ≤ i < off + Z.of_nat (length l) → peek b' i = Some y → peek b i = Some y) →
  agrees b off l → agrees b' off l.
Proof.
  intros Hs Ha i x y Hi Hy. eapply Ha; [done|]. apply lookup_lt_Some in Hi as Hlt.
  apply Hs; [lia|done].
Qed.

Lemma agrees_one {A} (b : option (block A)) i x y : agrees b i [x] → peek b i = Some y → y = x.
Proof. intros Ha Hy. apply (Ha 0%nat); [done|]. by rewrite Z.add_0_r. Qed.

Lemma load_peek {A} (b : block A) i x : load b i = Some x → peek (Some b) i = Some x ∧ 0 ≤ i < cap b.
Proof.
  unfold load, in_block. destruct (Z.leb_spec 0 i); [|done]. destruct (Z.leb_spec (i + 1) (cap b)); [|done].
  cbn. auto with lia.
Qed.

(** What a write of [l] at [off] leaves to be read. *)
Lemma store_peek {A} (b b' : block A) off l :
  store_list b off l = Some b' →
  cap b' = cap b ∧ 0 ≤ off ∧ off + Z.of_nat (length l) ≤ cap b ∧ agrees (Some b') off l ∧
  ∀ i, i < off ∨ off + Z.of_nat (length l) ≤ i → peek (Some b') i = peek (Some b) i.
Proof.
  unfold store_list, in_block. destruct (Z.leb_spec 0 off); [|done]. destruct (Z.leb_spec (off + Z.of_nat (length l)) (cap b)); [|done].
  cbn [andb]. intros [= <-]. cbn [cap]. do 3 (split; [done|]). split.
  - intros i x y Hi. cbn. apply lookup_lt_Some in Hi as Hlt. rewrite blit_lookup, decide_True by lia.
    replace (Z.to_nat _) with i by lia. congruence.
  - intros i Hi. cbn. by rewrite blit_lookup, decide_False by lia.
Qed.

(** Reading a string that is partly gone either fails or finds it. *)
Lemma read_cstr_agrees b off fuel s t :
  nonul s → agrees (Some b) off (s ++ [NUL]) → read_cstr (cells b) off fuel = Some t → t = s.
Proof.
  revert off s t. induction fuel as [|fuel IH]; intros off s t Hs Ha; cbn [read_cstr]; [done|].
  destruct (cells b !! off) as [c|] eqn:Hc; [|done].
  assert (∀ x, (s ++ [NUL]) !! 0%nat = Some x → c = x) as Hhd.
  { intros x Hx. eapply (Ha 0%nat); [done|]. cbn. by rewrite Z.add_0_r. }
  destruct s as [|x s]; [rewrite (Hhd NUL) by done; by intros [= <-]|].
  rewrite (Hhd x) by done. unfold nonul in Hs. rewrite elem_of_cons in Hs. rewrite decide_False by (intros ->; tauto).
  destruct (read_cstr (cells b) (off + 1) fuel) as [t'|] eqn:Ht; [|done]. intros [= <-]. f_equal.
  eapply IH; [unfold nonul; tauto| |exact Ht]. intros i y z Hi. replace (off + 1 + Z.of_nat i) with (off + Z.of_nat (S i)) by lia.
  by apply (Ha (S i)).
Qed.

Lemma load_cstr_agrees b off s t :
  nonul s → agrees (Some b) off (s ++ [NUL]) → load_cstr b off = Some t →
  t = s ∧ 0 ≤ off ∧ off + Z.of_nat (length s) + 1 ≤ cap b.
Proof.
  intros Hs Ha. unfold load_cstr, in_block. destruct (read_cstr _ _ _) as [t'|] eqn:Ht; [|done].
  pose proof (read_cstr_agrees _ _ _ _ _ Hs Ha Ht) as ->.
  destruct (Z.leb_spec 0 off); [|done]. destruct (Z.leb_spec (off + (Z.of_nat (length s) + 1)) (cap b)); [|done]. cbn [andb]. intros [= <-]. auto with lia.
Qed.

(** ** Shelves *)

Lemma shelved_top b m es top : shelved b m es top → 0 ≤ top.
Proof.
  revert top. induction es as [|[off s] es IH]; intros top; cbn [shelved]; [done|].
  intros (_ & ? & _ & _ & Hes). specialize (IH _ Hes). lia.
Qed.

(** Arrays of which less, or the same, can be read. *)
Lemma shelved_sub b m b' m' es top top' :
  shelved b m es top → top ≤ top' →
  (∀ i y, 0 ≤ i < top → peek b' i = Some y → peek b i = Some y) →
  (∀ i y, 0 ≤ i < Z.of_nat (length es) → peek m' i = Some y → peek m i = Some y) → shelved b' m' es top'.
Proof.
  revert top top'. induction es as [|[off s] es IH]; intros top top'; cbn [shelved length]; [lia|].
  intros (Hs & Htop & Hm & Hb & Hes) Hle Hsb Hsm. pose proof (shelved_top _ _ _ _ Hes).
  split; [done|]. split; [lia|]. split; [|split].
  - eapply agrees_sub, Hm. intros i y Hi. apply Hsm. cbn in Hi. lia.
  - eapply agrees_sub, Hb. intros i y Hi. apply Hsb. rewrite length_app in Hi. cbn in Hi. lia.
  - apply (IH off off); [done|lia|intros i y Hi; apply Hsb; lia|intros i y Hi; apply Hsm; lia].
Qed.

Lemma shelved_app b m e1 e2 top : shelved b m (e1 ++ e2) top → ∃ top', shelved b m e2 top' ∧ top' ≤ top.
Proof.
  revert top. induction e1 as [|[off s] e1 IH]; intros top; cbn [app shelved]; [by exists top|].
  intros (_ & ? & _ & _ & H). destruct (IH _ H) as (top' & ? & ?). exists top'. split; [done|lia].
Qed.

(** A queue in order is stocked. *)
Lemma layout_shelved b m stk top : 0 ≤ top → layout b m stk top → ∃ es, es.*2 = stk ∧ shelved (Some b) (Some m) es top.
Proof.
  revert top. induction stk as [|s stk IH]; intros top Htop; cbn [layout]; [by exists []|].
  intros (off & Hoff & (Hs & H0 & _ & Hr) & Hle & Hl). destruct (IH off H0 Hl) as (es & <- & Hes).
  rewrite length_fmap in Hoff. exists ((off, s) :: es). split; [done|]. cbn [shelved]. split; [done|]. split; [done|]. split; [|split; [|done]].
  - intros [|i] x y; [|done]. cbn. rewrite Z.add_0_r. congruence.
  - intros i x y Hi. cbn. rewrite (read_cells_lookup _ _ _ _ i Hr); [congruence|].
    apply lookup_lt_Some in Hi. rewrite length_app in Hi. cbn in Hi. lia.
Qed.

Lemma queue_rep_stocked qp stk : queue_rep qp stk → stocked qp stk.
Proof.
  intros (b & m & []). destruct (layout_shelved b m stk (q_head qp)) as (es & Hes & Hsh); [lia|done|].
  unfold PTRDIFF_MAX in *. split; [exists es; split; [done|by rewrite qb_base, qb_strings]|done|c_arith| |c_arith].
  intros b'. rewrite qb_base. intros [= <-]. c_arith.
Qed.

(** ** Pushing and popping *)

Section ops.
Context {K : op → bool} `{!Local K}.

Lemma quiet_str_extend_stock qp n stk :
  stocked qp stk → quiet K (CIRCLE_internal_queue_str_extend qp n)
    (λ x, stocked x.2 stk ∧ q_head x.2 = q_head qp ∧ q_base x.2 = q_base qp).
Proof.
  intros [(es & Hes & Hsh) Hc Hb Hcap Hh]. unfold CIRCLE_internal_queue_str_extend.
  apply quiet_bind, quiet_grow_str. intros m. apply quiet_bind. split; [quiet_call|]. intros p. split; [|done].
  split; cbn; [|done..]. exists es. split; [done|]. eapply shelved_sub; [done|lia|done|].
  intros i y _. destruct p as [p|]; [|done]. cbn. by destruct (q_strings qp).
Qed.

Lemma quiet_grow_bytes_small fuel c n :
  c < SIZE_MOD → quiet K (grow_bytes fuel c n) (λ r, r < SIZE_MOD).
Proof.
  revert c. induction fuel as [|fuel IH]; intros c Hc; cbn [grow_bytes]; (destruct (_ <? _); [|done]); [done|].
  apply quiet_bind. split; [quiet_call|]. intros page. apply IH. unfold u64. apply Z.mod_pos_bound. c_arith.
Qed.

Lemma quiet_extend_stock qp n stk :
  stocked qp stk → quiet K (CIRCLE_internal_queue_extend qp n) (λ x, stocked x.2 stk ∧ q_head x.2 = q_head qp).
Proof.
  intros [(es & Hes & Hsh) Hc Hb Hcap Hh]. unfold CIRCLE_internal_queue_extend.
  eapply quiet_seq; [by apply quiet_grow_bytes_small|]. intros r Hr. apply quiet_bind. split; [quiet_call|].
  intros [p|]; (split; [|done]); split; cbn; try done.
  - exists es. split; [done|]. eapply shelved_sub; [done|lia| |done]. intros i y _. cbn. by destruct (q_base qp).
  - by intros b [= <-].
  - exists es. split; [done|]. by eapply shelved_sub; [done|lia|..].
Qed.

(** Its length fits the variable the code keeps it in. *)
Definition short (s : list byte) : Prop := strlen s + 1 < UINT32_MOD.

(** A push that succeeds adds the string, one that fails changes nothing. *)
Lemma quiet_push_stock qp s stk :
  stocked qp stk → (∀ x, s = Some x → short x) →
  quiet K (CIRCLE_internal_queue_push qp s)
    (λ '(rc, qp'), (∃ x, s = Some x ∧ rc = 0 ∧ stocked qp' (cstr x :: stk)) ∨ rc = -1 ∧ stocked qp' stk).
Proof.
  intros Hst Hlen. unfold CIRCLE_internal_queue_push. destruct s as [s|]; [|by right]. cbn zeta.
  specialize (Hlen s eq_refl). unfold short in Hlen.
  quiet_step; [by right|]. quiet_step; [by right|].
  quiet_step. quiet_step.
  apply (quiet_seq _ _ _ _ (λ x, stocked x.2 stk ∧ q_head x.2 = q_head qp)).
  { destruct (_ <? _); [|done]. eapply quiet_mono; [|by apply quiet_str_extend_stock]. by intros x (? & ? & _). }
  intros [rc qp1] [Hst1 Hh1]. cbn in Hst1, Hh1. destruct (rc <? 0); [by right|].
  apply (quiet_seq _ _ _ _ (λ x, stocked x.2 stk ∧ q_head x.2 = q_head qp)).
  { destruct (_ <? _); [|done]. rewrite <-Hh1. by apply quiet_extend_stock. }
  intros [rc' qp2] [Hst2 Hh2]. cbn in Hst2, Hh2. destruct (rc' <? 0); [by right|]. clear qp1 Hst1 Hh1 Hst rc rc'.
  destruct (q_strings qp2) as [m|] eqn:Hm; [|done]. cbn [deref quiet mbind prog_mbind prog_bind].
  destruct (store m (q_count qp2) (q_head qp2)) as [m'|] eqn:Hsm; [|done]. cbn [deref quiet mbind prog_mbind prog_bind].
  destruct (q_base qp2) as [b|] eqn:Hb; [|done]. cbn [deref quiet mbind prog_mbind prog_bind].
  destruct (store_list b (q_head qp2) _) as [b'|] eqn:Hsb; [|done]. cbn [deref quiet mbind prog_mbind prog_bind].
  apply quiet_bind, quiet_i32. left. exists s. split; [done|]. split; [done|].
  destruct Hst2 as [(es & Hes & Hsh) Hc Hbs Hcap Hh]. rewrite Hm, Hb in Hsh.
  destruct (store_peek _ _ _ _ Hsm) as (_ & _ & _ & Hnm & Hom).
  destruct (store_peek _ _ _ _ Hsb) as (Hcb & H0 & Hle & Hnb & Hob).
  rewrite length_app in Hle, Hob. cbn [length] in Hle, Hob.
  assert (length es = length stk) as Hl by (by rewrite <-Hes, length_fmap).
  pose proof (Hcap b Hb) as Hcapb.
  assert (u64 (q_head qp2 + u32 (u64 (strlen s + 1))) = q_head qp2 + Z.of_nat (length (cstr s)) + 1) as Hhead.
  { unfold strlen in *. rewrite (u64_small (_ + 1)), u32_small by c_arith. rewrite u64_small by c_arith. lia. }
  split; cbn [q_base q_strings q_head q_count q_bytes with_count with_head with_strings with_base].
  - exists ((q_head qp2, cstr s) :: es). split; [cbn; by rewrite Hes|]. cbn [shelved]. split; [apply cstr_nonul|].
    split; [lia|]. split; [rewrite Hl, <-Hc; exact Hnm|]. split; [exact Hnb|].
    eapply shelved_sub; [exact Hsh|lia|..].
    + intros i y Hi. by rewrite Hob by lia.
    + intros i y Hi. by rewrite Hom by (cbn; lia).
  - rewrite Hc. cbn [length]. lia.
  - done.
  - intros b2 [= <-]. by rewrite Hcb.
  - lia.
Qed.

(** A pop that succeeds hands out the string on top. *)
Lemma quiet_pop_stock q room stk :
  stocked q stk →
  quiet K (CIRCLE_internal_queue_pop (Some q) room)
    (λ '(rc, qp', s), rc = -1 ∧ qp' = Some q ∧ s = None ∨
       ∃ q' x rest, rc = 0 ∧ qp' = Some q' ∧ s = Some x ∧ stk = x :: rest ∧ stocked q' rest).
Proof.
  intros [(es & Hes & Hsh) Hc Hb Hcap Hh]. unfold CIRCLE_internal_queue_pop.
  destruct (Z.ltb_spec (q_count q) 1); [by left|]. destruct room as [room|]; [|by left].
  apply quiet_bind, quiet_i32. destruct (q_strings q) as [m|] eqn:Hm; [|done]. cbn [deref quiet mbind prog_mbind prog_bind].
  destruct (load m (q_count q - 1)) as [cur|] eqn:Hl; [|done]. cbn [deref quiet mbind prog_mbind prog_bind].
  destruct (q_base q) as [b|] eqn:Hbq; [|done]. cbn [deref quiet mbind prog_mbind prog_bind].
  destruct (load_cstr b cur) as [x|] eqn:Hx; [|done]. cbn [deref quiet mbind prog_mbind prog_bind].
  destruct (room <? _); [done|]. right. destruct es as [|[off s] es]; [subst stk; cbn in Hc; lia|].
  subst stk. cbn [shelved] in Hsh. destruct Hsh as (Hs & Htop & Ham & Hab & Hsh). cbn [fmap list_fmap length] in Hc.
  rewrite length_fmap in Hc. apply load_peek in Hl as [Hl _].
  replace (q_count q - 1) with (Z.of_nat (length es)) in Hl by lia.
  pose proof (agrees_one _ _ _ _ Ham Hl) as ->. destruct (load_cstr_agrees _ _ _ _ Hs Hab Hx) as (-> & H0 & Hle).
  eexists _, s, es.*2. split; [done|]. split; [done|]. split; [done|]. split; [done|].
  split; cbn; [exists es; by rewrite Hm, Hbq|rewrite length_fmap; lia|done|by intros b'; rewrite Hbq; apply Hcap|lia].
Qed.
End ops.

(** ** Packing a transfer *)

Lemma shelved_offset b m es top off s :
  shelved b m es top → (off, s) ∈ es → 0 ≤ off ∧ off + Z.of_nat (length s) + 1 ≤ top.
Proof.
  revert top. induction es as [|[off' s'] es IH]; intros top; cbn [shelved]; [by intros _ ?%elem_of_nil|].
  intros (_ & Htop & _ & _ & H) [[= -> ->]|Hin]%elem_of_cons; [by split; [by eapply shelved_top|]|].
  destruct (IH _ H Hin). lia.
Qed.

(** The top [e1] of a shelf: where its characters start, and how many there
    are. *)
Definition part (e1 : shelf) (start len : Z) : Prop :=
  ∃ o s e, e1 = (o, s) :: e ∧ len = o + Z.of_nat (length s) + 1 - start ∧ last e1.*1 = Some start.

Definition is_part (es : shelf) (c start len : Z) : Prop :=
  ∃ e1 e2, es = e1 ++ e2 ∧ c = Z.of_nat (length e1) ∧ part e1 start len.

Lemma last_start (e1 : shelf) start : last e1.*1 = Some start → ∃ e s, e1 = e ++ [(start, s)].
Proof.
  rewrite fmap_last. destruct (last e1) as [[o s]|] eqn:Hl; [|done]. intros [= ->].
  apply last_Some in Hl as [e ->]. by exists e, s.
Qed.

Section pack.
Context {K : op → bool} `{!Local K}.
Context (qp : CIRCLE_internal_queue_t) (es : shelf) (top_off : Z).
Context (Hsh : shelved (q_base qp) (q_strings qp) es (q_head qp)) (Hc : q_count qp = Z.of_nat (length es))
  (Hh : q_head qp < SIZE_MOD) (Htop : head es.*1 = Some top_off).

Lemma quiet_send_extent_part c :
  1 ≤ c → quiet K (send_extent qp c top_off) (λ '(start, len), is_part es c start len).
Proof.
  intros Hc1. unfold send_extent. apply quiet_bind, quiet_i32.
  destruct (q_strings qp) as [m|]; [|done]. cbn [deref mbind prog_mbind prog_bind].
  destruct (load m (q_count qp - c)) as [start|] eqn:Hl; [|done]. cbn [deref mbind prog_mbind prog_bind].
  destruct (q_base qp) as [b|]; [|done]. cbn [deref mbind prog_mbind prog_bind].
  destruct (load_cstr b top_off) as [s|] eqn:Hs; [|done]. cbn [deref mbind prog_mbind prog_bind quiet mret prog_mret].
  apply load_peek in Hl as [Hl Hr]. destruct es as [|[o s'] e]; [done|]. injection Htop as ->.
  pose proof Hsh as (Hn & Hle & _ & Hab & Hrest). destruct (load_cstr_agrees _ _ _ _ Hn Hab Hs) as (-> & H0 & _).
  set (all := (top_off, s') :: e) in *. set (k := Z.to_nat (c - 1)).
  destruct (lookup_lt_is_Some_2 all k) as [[o' t] Hk]; [subst k; lia|].
  assert (all = take k all ++ (o', t) :: drop (S k) all) as Heq by (by rewrite <-drop_S, take_drop).
  assert (length (drop (S k) all) = Z.to_nat (q_count qp - c)) as Hdl by (rewrite length_drop; subst k; lia).
  assert (start = o') as ->.
  { pose proof Hsh as Hsh'. rewrite Heq in Hsh'. apply shelved_app in Hsh' as (? & (_ & _ & Ham & _) & _).
    eapply agrees_one; [exact Ham|]. by rewrite Hdl, Z2Nat.id by lia. }
  destruct (shelved_offset _ _ _ _ o' t Hsh) as [H0' Hle'].
  { rewrite Heq. apply elem_of_app. right. by left. }
  assert (o' ≤ top_off) as Hot.
  { assert ((o', t) ∈ all) as Hin by (rewrite Heq; apply elem_of_app; right; by left).
    apply elem_of_cons in Hin as [[= -> _]|Hin]; [done|]. destruct (shelved_offset _ _ _ _ o' t Hrest Hin). lia. }
  exists (take k all ++ [(o', t)]), (drop (S k) all). split; [by rewrite <-app_assoc|].
  assert (length (take k all) = k) as Htl by (apply length_take_le; subst k; lia).
  split; [rewrite length_app; cbn; subst k; lia|]. exists top_off, s'.
  assert (∃ e', take k all ++ [(o', t)] = (top_off, s') :: e') as [e' He'].
  { destruct k as [|k']; [|by eexists]. cbn in Hk |- *. injection Hk as -> ->. by eexists. }
  exists e'. split; [done|]. split; [|rewrite fmap_app; cbn; by rewrite last_snoc].
  rewrite (u64_small (top_off - o')), (u64_small (_ + 1)), u64_small by c_arith. lia.
Qed.

Lemma quiet_back_off_part fuel c start len :
  1 ≤ c → is_part es c start len →
  quiet K (back_off fuel qp top_off c start len) (λ '(c, start, len), 1 ≤ c ∧ is_part es c start len).
Proof.
  revert c start len. induction fuel as [|fuel IH]; intros c start len Hc1 Hp; cbn [back_off].
  - by destruct (_ && _).
  - destruct (_ <? _) eqn:?, (Z.ltb_spec 1 c); cbn [andb]; try done. cbn zeta.
    set (next := if _ <=? _ then _ else _). assert (1 ≤ next) as Hn.
    { subst next. destruct (Z.leb_spec c (c - Z.quot c 10)); [lia|]. pose proof (Z.quot_lt c 10). lia. }
    eapply quiet_seq; [by apply quiet_send_extent_part|]. intros [s' l']. by apply IH.
Qed.
End pack.

Lemma quiet_send_offsets_read {K} `{!Local K} m i elem start strings offsets :
  quiet K (send_offsets m i elem start strings offsets)
    (λ o, ∃ xs, read_cells (cells strings) elem m = Some xs ∧
       cells o = blit (cells offsets) (2 + i) (map (λ x, to_i32 (u64 (x - start))) xs)).
Proof.
  revert i elem offsets. induction m as [|m IH]; intros i elem offsets; cbn [send_offsets]; [by exists []|].
  destruct (load strings elem) as [x|] eqn:Hl; [|done]. cbn [deref mbind prog_mbind prog_bind].
  destruct (store offsets (2 + i) _) as [o'|] eqn:Hs; [|done]. cbn [deref mbind prog_mbind prog_bind].
  apply load_peek in Hl as [Hl _]. cbn in Hl. eapply quiet_mono; [|apply IH].
  intros o (xs & Hr & Ho). exists (x :: xs). cbn [read_cells map blit]. rewrite Hl, Hr. split; [done|].
  rewrite Ho. unfold store, store_list in Hs. destruct (in_block _ _ _); [|done]. injection Hs as <-. cbn [cells blit].
  replace (2 + (i + 1)) with (2 + i + 1) by lia. by rewrite blit_insert by lia.
Qed.

(** A string that can be read where it stands, in an array it was copied to. *)
Lemma text_cstr b start text off s :
  nonul s → agrees (Some b) off (s ++ [NUL]) → read_cells (cells b) start (length text) = Some text →
  start ≤ off → off - start + Z.of_nat (length s) + 1 ≤ Z.of_nat (length text) → cstr_at (text_block text) (off - start) s.
Proof.
  intros Hs Ha Hr Hle Hend. split; [done|]. split; [lia|]. split; [done|].
  replace (S (length s)) with (length (s ++ [NUL])) by (rewrite length_app; cbn; lia).
  apply read_cells_intro. intros i x Hi. cbn. apply lookup_lt_Some in Hi as Hlt. rewrite length_app in Hlt. cbn in Hlt.
  rewrite blit_lookup, decide_True by lia.
  destruct (lookup_lt_is_Some_2 text (Z.to_nat (off - start + Z.of_nat i - 0))) as [y Hy]; [lia|]. rewrite Hy. f_equal.
  eapply Ha; [exact Hi|]. cbn. rewrite <-Hy, <-(read_cells_lookup _ _ _ _ _ Hr) by lia. f_equal. lia.
Qed.

Lemma pack_layout b m e1 e2 top start text offs :
  shelved (Some b) (Some m) (e1 ++ e2) top → (∀ o s, (o, s) ∈ e1 → start ≤ o) →
  read_cells (cells b) start (length text) = Some text → top - start ≤ Z.of_nat (length text) →
  (∀ i, (i < length e1)%nat → ∃ x, cells m !! (Z.of_nat (length e2 + i)) = Some x ∧
     (start ≤ x < top → cells offs !! Z.of_nat i = Some (x - start))) →
  layout (text_block text) offs e1.*2 (top - start).
Proof.
  intros Hsh Hmin Hr. revert top Hsh. induction e1 as [|[o s] e1 IH]; intros top Hsh Hle Hoffs; [done|].
  cbn [app shelved] in Hsh. destruct Hsh as (Hs & Htop & Ham & Hab & Hsh).
  assert (start ≤ o) as Ho by (eapply Hmin; by left). destruct (Hoffs (length e1)) as (x & Hx & Hox); [cbn; lia|].
  assert (x = o) as ->.
  { eapply agrees_one; [exact Ham|]. cbn. rewrite <-Hx, length_app. f_equal. lia. }
  cbn [layout fmap list_fmap]. exists (o - start). split; [rewrite length_fmap; apply Hox; lia|].
  split; [apply (text_cstr b); [done|done|done|done|cbn; lia]|]. split; [cbn; lia|]. apply (IH ltac:(intros ? ? ?; eapply Hmin; by right) o Hsh); [lia|].
  intros i Hi. destruct (Hoffs i) as (y & Hy & Hoy); [cbn; lia|]. exists y. split; [done|]. intros ?. apply Hoy. lia.
Qed.

(** The two messages of a transfer carry the top part of the queue. *)
Lemma pack_carries b m e1 e2 top start len text xs data :
  shelved (Some b) (Some m) (e1 ++ e2) top → part e1 start len → len ≤ INT32_MAX →
  load_list b start len = Some text →
  read_cells (cells m) (Z.of_nat (length e2)) (length e1) = Some xs →
  data = Z.of_nat (length e1) :: len :: map (λ x, to_i32 (u64 (x - start))) xs →
  carries e1.*2 data text.
Proof.
  intros Hsh (o & s & e & He & -> & Hlast) Hmax Htext Hxs ->.
  set (len := o + Z.of_nat (length s) + 1 - start) in *.
  unfold load_list in Htext. destruct (in_block _ _ _); [|done]. pose proof (read_cells_length _ _ _ _ Htext) as Htl.
  pose proof (read_cells_length _ _ _ _ Hxs) as Hxl. destruct (last_start _ _ Hlast) as (e' & s' & He').
  assert (∀ a t, (a, t) ∈ e1 → start ≤ a ∧ a + Z.of_nat (length t) < start + len) as Hin.
  { intros a t Hin. split.
    - rewrite He' in Hin, Hsh. apply elem_of_app in Hin as [Hin|[= -> ->]%list_elem_of_singleton]; [|lia].
      rewrite <-app_assoc in Hsh. clear -Hsh Hin. revert top Hsh. induction e' as [|[o s] e' IH]; intros top Hsh; [by apply elem_of_nil in Hin|].
      cbn [app shelved] in Hsh. destruct Hsh as (_ & _ & _ & _ & Hsh). apply elem_of_cons in Hin as [[= -> ->]|Hin]; [|by eapply IH].
      destruct (shelved_offset _ _ _ _ start s' Hsh); [apply elem_of_app; right; by left|lia].
    - rewrite He in Hin, Hsh. cbn [app shelved] in Hsh. destruct Hsh as (_ & _ & _ & _ & Hsh).
      apply elem_of_cons in Hin as [[= -> ->]|Hin]; [lia|].
      destruct (shelved_offset _ _ _ _ a t Hsh); [apply elem_of_app; by left|lia]. }
  assert (0 < len ∧ start ≤ o) as [Hpos Hso] by (destruct (Hin o s); [rewrite He; by left|lia]).
  assert (shelved (Some b) (Some m) (e1 ++ e2) (start + len)) as Hsh'.
  { rewrite He in *. cbn [app shelved] in *. destruct Hsh as (? & ? & ? & ? & ?). do 4 (try (split; [done || lia|])). done. }
  assert (Z.of_nat (length text) = len) as Htl' by lia.
  assert (0 ≤ start) as H0.
  { destruct (shelved_offset _ _ _ _ start s' Hsh); [rewrite He'; apply elem_of_app; left; apply elem_of_app; right; by left|done]. }
  split; [by rewrite He|]. destruct xs as [|x xs]; [rewrite He in Hxl; done|].
  assert (x = start) as ->.
  { rewrite He', <-app_assoc in Hsh. apply shelved_app in Hsh as (top' & (_ & _ & Ham & _) & _).
    eapply agrees_one; [exact Ham|]. cbn. rewrite <-(Z.add_0_r (Z.of_nat _)).
    apply (read_cells_lookup _ _ _ _ 0%nat) in Hxs as Hx; [done|rewrite He; cbn; lia]. }
  exists (map (λ x, to_i32 (u64 (x - start))) xs). split; [|split; [|]].
  - rewrite length_fmap, Htl'. cbn [map]. rewrite Z.sub_diag. done.
  - rewrite length_fmap, length_map, <-Hxl. done.
  - rewrite Htl'. clearbody len. rewrite <-(Z.add_simpl_l start len).
    eapply pack_layout; [exact Hsh'|by intros ? ? [? _]%Hin| |lia|].
    { replace (length text) with (Z.to_nat len) by lia. exact Htext. }
    intros i Hi. destruct (lookup_lt_is_Some_2 (start :: xs) i) as [y Hy]; [lia|]. exists y. split.
    + rewrite <-Hy, Nat2Z.inj_add. by apply (read_cells_lookup _ _ _ _ _ Hxs).
    + intros Hrange. cbn [offset_block cells]. rewrite blit_lookup, decide_True.
      2: { cbn [length]. rewrite length_map. apply lookup_lt_Some in Hy. cbn in Hy. lia. }
      rewrite Z.sub_0_r, Nat2Z.id. destruct i as [|i]; [injection Hy as ->; cbn; f_equal; lia|].
      assert (((λ x, to_i32 (u64 (x - start))) <$> xs) !! i = Some (y - start)) as Hi'; [|exact Hi'].
      rewrite list_lookup_fmap. change (xs !! i = Some y) in Hy. rewrite Hy. cbn. rewrite u64_small by c_arith. by rewrite to_i32_small by c_arith.
Qed.

(** ** Unpacking a transfer *)

Lemma quiet_receive_offsets_read {K} `{!Local K} m i offsets strings :
  quiet K (receive_offsets m i offsets strings)
    (λ s', (∀ j, i ≤ j < i + Z.of_nat m → ∃ x, cells offsets !! (j + 2) = Some x ∧ cells s' !! j = Some (u64 x)) ∧
       ∀ j, j < i → cells s' !! j = cells strings !! j).
Proof.
  revert i strings. induction m as [|m IH]; intros i strings; cbn [receive_offsets]; [split; [lia|done]|].
  destruct (load offsets (i + 2)) as [x|] eqn:Hl; [|done]. cbn [deref mbind prog_mbind prog_bind].
  destruct (store strings i (u64 x)) as [s1|] eqn:Hs; [|done]. cbn [deref mbind prog_mbind prog_bind].
  apply load_peek in Hl as [Hl _]. unfold store, store_list in Hs. destruct (in_block _ _ _); [|done]. injection Hs as <-.
  eapply quiet_mono; [|apply IH]. intros s' [Hin Hout]. cbn [cells blit] in Hout. split.
  - intros j Hj. destruct (decide (j = i)) as [->|]; [|by apply Hin; lia].
    exists x. split; [done|]. by rewrite Hout, lookup_insert_eq by lia.
  - intros j Hj. rewrite Hout by lia. by rewrite lookup_insert_ne by lia.
Qed.

(** The queue that a transfer leaves. *)
Lemma unpack_stock items data text base0 base ob offsets strings e s qp :
  carries items data text → store_list base0 0 text = Some base → store_list ob 0 data = Some offsets →
  (∀ j, 0 ≤ j < Z.of_nat (length items) → ∃ x, cells offsets !! (j + 2) = Some x ∧ cells strings !! j = Some (u64 x)) →
  load strings (Z.of_nat (length items) - 1) = Some e → load_cstr base e = Some s →
  q_base qp = Some base → q_bytes qp < SIZE_MOD → cap base < SIZE_MOD →
  stocked (with_head (u64 (e + u64 (Z.of_nat (length s) + 1)))
             (with_count (Z.of_nat (length items)) (with_strings (Some strings) qp))) items.
Proof.
  intros Hca Hst Hso Hstr He Hs Hqb Hqn Hcap. destruct (carries_offsets _ _ _ Hca) as (xs & -> & Hxl & _ & Hxr & Hly).
  destruct (store_peek _ _ _ _ Hst) as (Hcb & _ & Hle & Hbt & _). destruct (store_peek _ _ _ _ Hso) as (_ & _ & _ & Hoa & _).
  destruct (layout_shelved _ _ _ (Z.of_nat (length text)) ltac:(lia) Hly) as (es & Hes & Hsh).
  assert (∀ j y, 0 ≤ j < Z.of_nat (length items) → peek (Some strings) j = Some y → xs !! Z.to_nat j = Some y) as Hoff.
  { intros j y Hj Hy. destruct (Hstr j Hj) as (x & Hx & Hxs). cbn in Hy. rewrite Hxs in Hy. injection Hy as <-.
    destruct (lookup_lt_is_Some_2 xs (Z.to_nat j)) as [x' Hx']; [lia|].
    rewrite Forall_lookup in Hxr. pose proof (Hxr _ _ Hx') as Hr. cbn beta in Hr.
    assert (x = x') as ->; [|by rewrite u64_small by c_arith].
    eapply (Hoa (S (S (Z.to_nat j)))); [exact Hx'|]. cbn [peek]. rewrite <-Hx. f_equal. lia. }
  assert (shelved (Some base) (Some strings) es (Z.of_nat (length text))) as Hsh'.
  { eapply shelved_sub; [exact Hsh|done|..].
    - intros i y Hi Hy. cbn. rewrite blit_lookup, decide_True by lia.
      destruct (lookup_lt_is_Some_2 text (Z.to_nat (i - 0))) as [x Hx]; [lia|]. rewrite Hx. f_equal. symmetry.
      eapply Hbt; [exact Hx|]. rewrite <-Hy. f_equal. lia.
    - intros i y Hi Hy. rewrite <-(length_fmap snd es), Hes in Hi. cbn. rewrite blit_lookup, decide_True by lia.
      rewrite Z.sub_0_r. by apply Hoff. }
  assert (length es = length items) as Hel by (by rewrite <-Hes, length_fmap).
  pose proof (ca_items _ _ _ Hca) as Hne. destruct es as [|[o t] es']; [by subst items|].
  cbn [shelved] in Hsh'. destruct Hsh' as (Hn & Htop & Ham & Hab & Hrest). apply load_peek in He as [He _].
  replace (Z.of_nat (length items) - 1) with (Z.of_nat (length es')) in He by (cbn in Hel; lia).
  pose proof (agrees_one _ _ _ _ Ham He) as ->. destruct (load_cstr_agrees _ _ _ _ Hn Hab Hs) as (-> & H0 & Hend).
  rewrite (u64_small (_ + 1)), u64_small by c_arith.
  split; cbn [q_base q_strings q_head q_count q_bytes with_count with_head with_strings].
  - exists ((o, t) :: es'). split; [done|]. rewrite Hqb. cbn [shelved]. split; [done|]. split; [lia|]. done.
  - done.
  - done.
  - intros b. rewrite Hqb. by intros [= <-].
  - lia.
Qed.

(** ** The wire format has one reading *)

Lemma layout_inj b m l l' top top' :
  layout b m l top → layout b m l' top' → length l = length l' → l = l'.
Proof.
  revert l' top top'. induction l as [|s l IH]; intros [|s' l'] top top'; cbn [layout length]; try done.
  intros (o & Ho & Hs & _ & Hl) (o' & Ho' & Hs' & _ & Hl') [= Hlen]. rewrite <-Hlen, Ho in Ho'. injection Ho' as <-.
  apply load_cstr_spec in Hs, Hs'. rewrite Hs in Hs'. injection Hs' as <-. f_equal. by eapply IH.
Qed.

Lemma carries_inj items items' data text : carries items data text → carries items' data text → items = items'.
Proof.
  intros (xs & -> & _ & _ & _ & Hly)%carries_offsets (xs' & Heq & _ & _ & _ & Hly')%carries_offsets.
  injection Heq as Hlen <-. eapply layout_inj; [exact Hly|exact Hly'|lia].
Qed.
