(* ===== verification/Ranks.v ===== *)
(** * Ranks in a tree

    The interface between the communication tree and the algorithms that run
    on it: what a parent function and child lists must satisfy ([IsTree]),
    what the tree structure of one rank holds ([my_tree]), and the k-ary tree
    of CIRCLE_tree_init as an instance. *)
From S2P Require Import Prelude CMonad Mem Tree Network.

(** The parents and children of one tree of [n] ranks. *)
Class IsTree (n : Z) (par : Z → Z) (chs : Z → list Z) : Prop := {
  par_lt : ∀ c, 0 < c < n → 0 ≤ par c < c;
  chs_spec : ∀ p c, c ∈ chs p ↔ 0 < c < n ∧ par c = p;
  chs_nodup : ∀ p, NoDup (chs p);
  ranks_pos : 0 < n;
}.

(** The children of a rank as a set. *)
Definition all_children (chs : Z → list Z) (p : Z) : gset Z := list_to_set (chs p).

Section tree.
Context {n : Z} {par : Z → Z} {chs : Z → list Z} `{!IsTree n par chs}.

Abbreviation is_rank := (is_rank n).

Lemma is_rank_0 : is_rank 0.
Proof. pose proof ranks_pos. unfold Network.is_rank. lia. Qed.

Lemma is_rank_par c : 0 < c < n → is_rank (par c).
Proof. intros Hc. pose proof (par_lt c Hc). unfold Network.is_rank. lia. Qed.

Lemma elem_of_all_children p c : c ∈ all_children chs p ↔ 0 < c < n ∧ par c = p.
Proof. unfold all_children. rewrite elem_of_list_to_set. apply chs_spec. Qed.

Lemma size_all_children p : Z.of_nat (size (all_children chs p)) = Z.of_nat (length (chs p)).
Proof. unfold all_children. rewrite size_list_to_set; [done|apply chs_nodup]. Qed.

Lemma child_facts p x : x ∈ chs p → 0 < x < n ∧ par x = p ∧ p < x.
Proof. rewrite chs_spec. intros [Hx <-]. pose proof (par_lt x Hx). lia. Qed.

(** Induction from the root. *)
Lemma rank_ind (P : Z → Prop) :
  P 0 → (∀ p, 0 < p < n → P (par p) → P p) → ∀ p, is_rank p → P p.
Proof.
  intros H0 HS p. induction p as [p IH] using (well_founded_induction (Z.lt_wf 0)).
  unfold Network.is_rank. intros Hp. destruct (decide (p = 0)) as [->|]; [done|].
  apply HS; [lia|]. pose proof (par_lt p). apply IH; unfold Network.is_rank; lia.
Qed.

End tree.

(** ** Sums over all ranks *)

Section sums.
Context {n : Z}.

Definition ranks : list Z := seqZ 0 n.
Definition sum_ranks (f : Z → Z) : Z := foldr (λ q a, f q + a) 0 ranks.

Lemma sum_ext f f' : (∀ q, is_rank n q → f' q = f q) → sum_ranks f' = sum_ranks f.
Proof.
  intros H. unfold sum_ranks.
  assert (∀ q, q ∈ ranks → f' q = f q) as H'.
  { intros q Hq. apply H. unfold ranks in Hq. apply elem_of_seqZ in Hq. unfold is_rank. lia. }
  induction (ranks) as [|x l IH]; simpl; [done|].
  rewrite H' by (by left). rewrite IH; [done|]. intros q Hq. apply H'. by right.
Qed.

Lemma foldr_upd (f f' : Z → Z) q0 l :
  NoDup l → q0 ∈ l → (∀ q, q ≠ q0 → f' q = f q) →
  foldr (λ q a, f' q + a) 0 l = foldr (λ q a, f q + a) 0 l + (f' q0 - f q0).
Proof.
  intros Hnd Hin Hf. induction Hnd as [|x l Hx Hnd IH]; [set_solver|]. simpl.
  destruct (decide (x = q0)) as [->|Hne].
  - assert (foldr (λ q a, f' q + a) 0 l = foldr (λ q a, f q + a) 0 l) as ->; [|lia].
    clear IH Hnd Hin. induction l as [|y l IH]; simpl; [done|]. rewrite Hf by set_solver.
    rewrite IH by set_solver. done.
  - rewrite Hf by done. rewrite IH by set_solver. lia.
Qed.

Lemma sum_upd f f' q0 :
  is_rank n q0 → (∀ q, q ≠ q0 → f' q = f q) → sum_ranks f' = sum_ranks f + (f' q0 - f q0).
Proof.
  intros Hq Hf. apply foldr_upd; [apply NoDup_seqZ| |done].
  apply elem_of_seqZ. unfold is_rank in Hq. lia.
Qed.

Lemma sum_ge f q : is_rank n q → (∀ q, 0 ≤ f q) → f q ≤ sum_ranks f.
Proof.
  intros Hq Hf. assert (q ∈ ranks) as Hin.
  { apply elem_of_seqZ. unfold is_rank in Hq. lia. }
  unfold sum_ranks. induction (ranks) as [|x l IH]; [set_solver|]. simpl.
  assert (0 ≤ foldr (λ q a, f q + a) 0 l).
  { clear -Hf. induction l; simpl; [done|]. specialize (Hf a). lia. }
  apply elem_of_cons in Hin as [->|Hin]; [lia|]. specialize (Hf x). specialize (IH Hin). lia.
Qed.

Lemma sum_sub f h : sum_ranks (λ q, f q - h q) = sum_ranks f - sum_ranks h.
Proof. unfold sum_ranks. induction ranks as [|x l IH]; simpl; lia. Qed.

Lemma sum_zero f : (∀ q, is_rank n q → f q = 0) → sum_ranks f = 0.
Proof.
  intros H. rewrite (sum_ext (λ _, 0) f H). clear H.
  unfold sum_ranks. induction ranks; simpl; lia.
Qed.

Lemma sum_nonneg f : (∀ q, is_rank n q → 0 ≤ f q) → 0 ≤ sum_ranks f.
Proof.
  intros H. unfold sum_ranks. assert (∀ q, q ∈ ranks → 0 ≤ f q) as H'.
  { intros q Hq%elem_of_seqZ. apply H. unfold is_rank. lia. }
  induction ranks as [|x l IH]; simpl; [done|].
  apply Z.add_nonneg_nonneg; [apply H'; by left|apply IH; intros q Hq; apply H'; by right].
Qed.
End sums.
Arguments ranks n : clear implicits.
Arguments sum_ranks n f : clear implicits.

(** What CIRCLE_tree_init leaves on rank [p]. *)
Record my_tree (par : Z → Z) (chs : Z → list Z) (p : Z) (t : CIRCLE_tree_state_st) : Prop := MyTree {
  mt_parent : parent_rank t = if decide (p = 0) then MPI_PROC_NULL else par p;
  mt_children : children t = Z.of_nat (length (chs p));
  mt_child : ∃ b, child_ranks t = Some b ∧
    ∀ i c, chs p !! i = Some c → load b (Z.of_nat i) = Some c;
}.

(** The children of any integer: none for one that is not a rank. *)
Definition tree_chs (n k p : Z) : list Z := if decide (0 ≤ p) then tree_children n k p else [].

#[export] Instance k_ary_tree n k : 1 ≤ k → 0 < n → IsTree n (tree_parent k) (tree_chs n k).
Proof.
  intros Hk Hn. assert (∀ c, 0 < c → 0 ≤ tree_parent k c < c) as Hpar.
  { intros c Hc. unfold tree_parent. split; [apply Z.div_pos; lia|]. apply Z.div_lt_upper_bound; nia. }
  split; [|intros p c|intros p|done].
  - intros c Hc. apply Hpar. lia.
  - unfold tree_chs. case_decide.
    + by rewrite tree_children_elem.
    + rewrite elem_of_nil. split; [done|]. intros [Hc <-]. pose proof (Hpar c). lia.
  - unfold tree_chs. case_decide; [|constructor]. unfold tree_children.
    apply NoDup_fmap_2; [intros ? ?; lia|apply NoDup_seqZ].
Qed.

Lemma my_tree_rep n k p t :
  0 ≤ p → tree_rep t n k p → my_tree (tree_parent k) (tree_chs n k) p t.
Proof.
  intros Hp (_ & _ & Hpar & Hch & Hl). split; unfold tree_chs; by rewrite ?decide_True by done.
Qed.

Lemma root_has_children n k : 1 ≤ k → 2 ≤ n → tree_chs n k 0 ≠ [].
Proof.
  intros Hk Hn Hc. assert (1 ∈ tree_chs n k 0) as Hin; [|by rewrite Hc in Hin; apply elem_of_nil in Hin].
  unfold tree_chs. rewrite decide_True by done. apply tree_children_elem; [done|done|].
  split; [lia|]. unfold tree_parent. by apply Z.div_0_l; lia.
Qed.

Arguments mt_parent {par chs p} t _.
Arguments mt_children {par chs p} t _.
Arguments mt_child {par chs p} t _.

Lemma my_tree_child par chs p t i c :
  my_tree par chs p t → chs p !! i = Some c → child t (Z.of_nat i) = mret c.
Proof.
  intros Ht Hc. destruct (mt_child _ Ht) as (b & Hb & Hl). unfold child.
  by rewrite Hb; cbn [deref mbind prog_mbind prog_bind]; rewrite (Hl _ _ Hc).
Qed.
