(* ===== verification/Ledger.v ===== *)
(** * The accounts of all processes

    Pick any class of strings.  The ghost state of a process counts the items
    of that class it holds: a transfer is written off by its sender when its
    text is posted and credited to the receiver when the text is taken; user
    code reports each item of the class that it put into the queue or took
    out.  What a text is worth is told by the header before it, so the
    messages from one process to another are read as a sequence of headers,
    texts and refusals.  The sum over all processes and all transfers on their
    way changes only with the reports. *)
From S2P Require Import Prelude CMonad Mpi Wire Network Ranks TransferSpec Shelf.

(** The calls by which user code reports that an item was put into the queue
    and that one was taken out. *)
Definition PUT_CALL : Z := 1.
Definition GOT_CALL : Z := 2.

Definition is_call (k : Z) (m : payload) : bool := match m with Ints [x] => x =? k | _ => false end.

(** How often process [p] has made the call [k]. *)
Definition calls_made (k : Z) (ch : channels) (p : Z) : Z :=
  Z.of_nat (length (filter (λ m, is_call k m = true) (ch (p, p, LOG_TAG)))).

Lemma calls_made_snoc k ch p m :
  calls_made k (<[(p, p, LOG_TAG) := ch (p, p, LOG_TAG) ++ [m]]> ch) p =
  calls_made k ch p + if is_call k m then 1 else 0.
Proof.
  unfold calls_made. rewrite fn_lookup_insert, filter_app, length_app, filter_cons, filter_nil.
  destruct (is_call k m) eqn:Hm; [rewrite decide_True by done|rewrite decide_False by done]; simpl; lia.
Qed.

(** The items of a class among some. *)
Definition worth (cls : list byte → bool) (l : list (list byte)) : Z :=
  Z.of_nat (length (filter (λ s, cls s = true) l)).

Lemma worth_nonneg cls l : 0 ≤ worth cls l.
Proof. unfold worth. lia. Qed.

Lemma worth_cons cls s l : worth cls (s :: l) = (if cls s then 1 else 0) + worth cls l.
Proof.
  unfold worth. rewrite filter_cons.
  destruct (cls s) eqn:Hs; [rewrite decide_True by done|rewrite decide_False by done]; cbn [length]; lia.
Qed.

Lemma worth_app cls l1 l2 : worth cls (l1 ++ l2) = worth cls l1 + worth cls l2.
Proof. unfold worth. rewrite filter_app, length_app. lia. Qed.

(** The ghost state: the items held; the header of a transfer that was taken
    without its text, and of one that was sent without it. *)
Record account : Type := Account {
  held : Z;
  taken : option (Z * list Z);
  owed : option (Z * list Z);
}.

Definition from (p : Z) (h : option (Z * list Z)) : option (list Z) :=
  match h with Some (q, d) => if decide (q = p) then Some d else None | None => None end.

Section ledger.
Context (n : Z) (cls : list byte → bool).

Abbreviation is_rank := (is_rank n).
Abbreviation sum_ranks := (sum_ranks n).
Abbreviation worth := (worth cls).

(** [way h l h' v]: read after the header [h] (or none), the messages [l] end
    after the header [h'], and the items of the texts among them are worth
    [v]. *)
Inductive way : option (list Z) → list payload → option (list Z) → Z → Prop :=
  | way_end h : way h [] h 0
  | way_refusal x d l h v : x ≤ 0 → way None l h v → way None (Ints (x :: d) :: l) h v
  | way_header x d l h v : 0 < x → way (Some (x :: d)) l h v → way None (Ints (x :: d) :: l) h v
  | way_text d items text l h v :
      carries items d text → way None l h v → way (Some d) (Bytes text :: l) h (worth items + v).

Definition led_pre (p : Z) (g : account) (o : op) : Prop :=
  match o with
  | ORecv src tag _ => tag ≠ LOG_TAG ∧
      (tag = CIRCLE_TAG_WORK_REPLY → match taken g with Some (q, _) => q = src | None => True end)
  | OSend _ tag _ | OIssend _ tag _ => tag ≠ LOG_TAG ∧ tag ≠ CIRCLE_TAG_WORK_REPLY
  | OIsend dst tag m _ => tag ≠ LOG_TAG ∧
      (tag = CIRCLE_TAG_WORK_REPLY →
         match m with
         | Ints (_ :: _) => owed g = None
         | Bytes text => is_rank dst ∧
             ∃ d items, owed g = Some (dst, d) ∧ carries items d text ∧ worth items ≤ held g
         | _ => False
         end)
  | OExternal k => k = GOT_CALL → 1 ≤ held g
  | _ => True
  end.

(** A transfer header and the peer it comes from or goes to. *)
Definition header (peer : Z) (m : payload) : option (Z * list Z) :=
  match m with Ints (x :: d) => if 0 <? x then Some (peer, x :: d) else None | _ => None end.

Definition reply_taken (src : Z) (g : account) (m : payload) (g' : account) : Prop :=
  match taken g with
  | None => (∃ x d, m = Ints (x :: d)) ∧ g' = Account (held g) (header src m) (owed g)
  | Some (_, d) => ∃ text items, m = Bytes text ∧ carries items d text ∧
      g' = Account (held g + worth items) None (owed g)
  end.

Definition reply_sent (dst : Z) (g : account) (m : payload) (g' : account) : Prop :=
  match m with
  | Bytes text => ∀ d items, owed g = Some (dst, d) → carries items d text →
      g' = Account (held g - worth items) (taken g) None
  | _ => g' = Account (held g) (taken g) (header dst m)
  end.

Definition moved_by (v : Z) (g : account) : account := Account (held g + v) (taken g) (owed g).

Definition led_post (p : Z) (g : account) (o : op) : ans o → account → Prop :=
  match o return ans o → account → Prop with
  | ORecv src tag _ => λ m g', if tag =? CIRCLE_TAG_WORK_REPLY then reply_taken src g m g' else g' = g
  | OIsend dst tag m _ => λ _ g', if tag =? CIRCLE_TAG_WORK_REPLY then reply_sent dst g m g' else g' = g
  | OExternal k => λ _ g', g' = if k =? PUT_CALL then moved_by 1 g else if k =? GOT_CALL then moved_by (-1) g else g
  | OIprobe _ _ => λ r g', g' = g ∧ ∀ s c, r = Some (s, c) → is_rank s
  | OCommRank => λ r g', r = p ∧ g' = g
  | OCommSize => λ r g', r = n ∧ g' = g
  | _ => λ _ g', g' = g
  end.

(** ** The balance *)

Definition reported (ch : channels) (p : Z) : Z := calls_made PUT_CALL ch p - calls_made GOT_CALL ch p.

Definition flights (F : Z → Z → Z) : Z := sum_ranks (λ a, sum_ranks (F a)).

(** [F a b] is what is on its way from [a] to [b]. *)
Record led_inv (total : Z) (gh : Z → account) (ch : channels) : Prop := LedInv {
  li_sum : ∃ F, sum_ranks (λ p, held (gh p)) + flights F = total + sum_ranks (reported ch) ∧
    ∀ a b, way (from a (taken (gh b))) (ch (a, b, CIRCLE_TAG_WORK_REPLY)) (from b (owed (gh a))) (F a b);
  li_pos : ∀ p, is_rank p → 0 ≤ held (gh p);
}.

Lemma way_nonneg h l h' v : way h l h' v → 0 ≤ v.
Proof. induction 1; [lia|done|done|]. pose proof (worth_nonneg cls items). lia. Qed.

Lemma way_snoc_refusal h l v x d : way h l None v → x ≤ 0 → way h (l ++ [Ints (x :: d)]) None v.
Proof.
  remember (None : option (list Z)) as e eqn:He. intros H Hx. induction H; cbn [app]; subst.
  - apply way_refusal; [done|constructor].
  - apply way_refusal; auto.
  - apply way_header; auto.
  - apply way_text; auto.
Qed.

Lemma way_snoc_header h l v x d : way h l None v → 0 < x → way h (l ++ [Ints (x :: d)]) (Some (x :: d)) v.
Proof.
  remember (None : option (list Z)) as e eqn:He. intros H Hx. induction H; cbn [app]; subst.
  - apply way_header; [done|constructor].
  - apply way_refusal; auto.
  - apply way_header; auto.
  - apply way_text; auto.
Qed.

Lemma way_snoc_text h l v d items text :
  way h l (Some d) v → carries items d text → way h (l ++ [Bytes text]) None (v + worth items).
Proof.
  remember (Some d) as e eqn:He. intros H Hc. induction H; cbn [app]; subst.
  - rewrite Z.add_comm. apply way_text; [done|constructor].
  - apply way_refusal; auto.
  - apply way_header; auto.
  - rewrite <-Z.add_assoc. apply way_text; auto.
Qed.

(** Whoever waits for a text gets one, and otherwise a header or a refusal. *)
Lemma way_take src h m l h' v :
  way (from src h) (m :: l) h' v →
  match from src h with
  | None => (∃ x d, m = Ints (x :: d)) ∧ way (from src (header src m)) l h' v
  | Some d => ∃ text items w, m = Bytes text ∧ carries items d text ∧ v = worth items + w ∧ way None l h' w
  end.
Proof.
  intros H. inversion H as [|x d l' h2 v' Hx Hw|x d l' h2 v' Hx Hw|d items text l' h2 v' Hc Hw]; subst.
  - split; [by exists x, d|]. cbn. by rewrite (proj2 (Z.ltb_ge 0 x)) by lia.
  - split; [by exists x, d|]. cbn. rewrite (proj2 (Z.ltb_lt 0 x)) by lia. cbn. by rewrite decide_True.
  - by exists text, items, v'.
Qed.

(** ** Steps *)

Lemma sum_insert (f : account → Z) (gh : Z → account) p g' :
  is_rank p → sum_ranks (λ q, f (<[p := g']> gh q)) = sum_ranks (λ q, f (gh q)) + (f g' - f (gh p)).
Proof.
  intros Hp. rewrite (sum_upd (λ q, f (gh q)) (λ q, f (<[p := g']> gh q)) p Hp), fn_lookup_insert; [done|].
  intros q Hq. by rewrite fn_lookup_insert_ne.
Qed.

Definition set_flight (F : Z → Z → Z) (a b v : Z) : Z → Z → Z :=
  λ x y, if decide ((x, y) = (a, b)) then v else F x y.

Lemma set_flight_eq F a b v : set_flight F a b v a b = v.
Proof. unfold set_flight. by rewrite decide_True. Qed.
Lemma set_flight_ne F a b v x y : (x, y) ≠ (a, b) → set_flight F a b v x y = F x y.
Proof. intros. unfold set_flight. by rewrite decide_False. Qed.

Lemma flights_set F a b v : is_rank a → is_rank b → flights (set_flight F a b v) = flights F + (v - F a b).
Proof.
  intros Ha Hb. unfold flights. rewrite (sum_upd (λ a, sum_ranks (F a)) (λ x, sum_ranks (set_flight F a b v x)) a Ha).
  - f_equal. rewrite (sum_upd (F a) (set_flight F a b v a) b Hb), set_flight_eq; [lia|].
    intros q Hq. apply set_flight_ne. congruence.
  - intros q Hq. apply sum_ext. intros r _. apply set_flight_ne. congruence.
Qed.

Lemma reported_ext ch k l :
  (∀ a, k ≠ (a, a, LOG_TAG)) → sum_ranks (reported (<[k := l]> ch)) = sum_ranks (reported ch).
Proof.
  intros Hk. apply sum_ext. intros q _. unfold reported, calls_made.
  by rewrite !fn_lookup_insert_ne by (intros H; by apply (Hk q)).
Qed.

Lemma reported_log ch p m :
  is_rank p →
  sum_ranks (reported (<[(p, p, LOG_TAG) := ch (p, p, LOG_TAG) ++ [m]]> ch)) =
  sum_ranks (reported ch) + ((if is_call PUT_CALL m then 1 else 0) - if is_call GOT_CALL m then 1 else 0).
Proof.
  intros Hp. set (ch' := <[_ := _]> ch). rewrite (sum_upd (reported ch) (reported ch') p Hp).
  - unfold reported, ch'. rewrite !calls_made_snoc. lia.
  - intros q Hq. unfold reported, calls_made, ch'. by rewrite !fn_lookup_insert_ne by congruence.
Qed.

Lemma log_not_reply : LOG_TAG ≠ CIRCLE_TAG_WORK_REPLY.
Proof. done. Qed.

(** A move that leaves the replies alone. *)
Lemma led_other total gh ch p g' ch' :
  led_inv total gh ch → is_rank p → taken g' = taken (gh p) → owed g' = owed (gh p) → 0 ≤ held g' →
  (∀ a b, ch' (a, b, CIRCLE_TAG_WORK_REPLY) = ch (a, b, CIRCLE_TAG_WORK_REPLY)) →
  sum_ranks (reported ch') = sum_ranks (reported ch) + (held g' - held (gh p)) → led_inv total (<[p := g']> gh) ch'.
Proof.
  intros [(F & Hs & Hw) Hpos] Hp Ht Ho Hh Hch Hr. split.
  - exists F. split; [rewrite sum_insert by done; lia|]. intros a b. rewrite Hch.
    assert (∀ q, taken (<[p := g']> gh q) = taken (gh q) ∧ owed (<[p := g']> gh q) = owed (gh q)) as Hg
      by (intros q; by moved q p).
    destruct (Hg a) as [_ ->], (Hg b) as [-> _]. apply Hw.
  - intros q Hq. moved q p; [done|auto].
Qed.

(** One of the reply channels changes, at one of its ends. *)
Lemma led_replies total gh ch p g' a0 b0 l v :
  led_inv total gh ch → is_rank p → is_rank a0 → is_rank b0 ∨ v = 0 → 0 ≤ held g' →
  (∀ F, (∀ a b, way (from a (taken (gh b))) (ch (a, b, CIRCLE_TAG_WORK_REPLY)) (from b (owed (gh a))) (F a b)) →
     (∃ w, way (from a0 (taken (<[p := g']> gh b0))) l (from b0 (owed (<[p := g']> gh a0))) w ∧
        w - F a0 b0 = v) ∧
     ∀ a b, (a, b) ≠ (a0, b0) → from a (taken (<[p := g']> gh b)) = from a (taken (gh b)) ∧
       from b (owed (<[p := g']> gh a)) = from b (owed (gh a))) →
  held g' - held (gh p) + v = 0 →
  led_inv total (<[p := g']> gh) (<[(a0, b0, CIRCLE_TAG_WORK_REPLY) := l]> ch).
Proof.
  intros [(F & Hs & Hw) Hpos] Hp Ha Hb Hh Hone Hv. destruct (Hone F Hw) as [(w & Hw0 & Hwv) Hoth]. split.
  - exists (set_flight F a0 b0 w). split.
    + rewrite reported_ext, sum_insert by done.
      assert (flights (set_flight F a0 b0 w) = flights F + v) as ->; [|lia].
      destruct Hb as [Hb|Hb]; [rewrite flights_set by done; lia|].
      rewrite Hb, Z.add_0_r. apply sum_ext. intros x _. apply sum_ext. intros y _. unfold set_flight.
      case_decide as Hxy; [|done]. injection Hxy as -> ->. lia.
    + intros a b. destruct (decide ((a, b) = (a0, b0))) as [[= -> ->]|Hne].
      * by rewrite fn_lookup_insert, set_flight_eq.
      * destruct (Hoth a b Hne) as [-> ->]. rewrite fn_lookup_insert_ne, set_flight_ne by congruence. apply Hw.
  - intros q Hq. moved q p; [done|auto].
Qed.

Lemma led_recv total gh ch p src m l :
  led_inv total gh ch → is_rank p → is_rank src →
  match taken (gh p) with Some (q, _) => q = src | None => True end →
  ch (src, p, CIRCLE_TAG_WORK_REPLY) = m :: l →
  ∃ g', reply_taken src (gh p) m g' ∧ led_inv total (<[p := g']> gh) (<[(src, p, CIRCLE_TAG_WORK_REPLY) := l]> ch).
Proof.
  intros Hi Hp Hsrc Ht Hch. pose proof Hi as [(F & _ & Hw) Hpos]. specialize (Hpos p Hp).
  pose proof (Hw src p) as Hwp. rewrite Hch in Hwp. apply way_take in Hwp as Hk.
  assert (∀ g', owed g' = owed (gh p) → ∀ q, owed (<[p := g']> gh q) = owed (gh q)) as Ho by (intros g' Hg q; by moved q p).
  assert (∀ g' a b, (a, b) ≠ (src, p) → taken g' = None ∨ (∃ d, taken g' = Some (src, d)) →
    from a (taken (<[p := g']> gh b)) = from a (taken (gh b))) as Hother.
  { intros g' a b Hne Hg. moved b p; [|done]. assert (a ≠ src) as Ha by congruence.
    assert (from a (taken g') = None) as -> by (destruct Hg as [-> |[d ->]]; [done|]; cbn; by rewrite decide_False by congruence).
    destruct (taken (gh p)) as [[q d]|]; [|done]. subst q. cbn. by rewrite decide_False by congruence. }
  unfold reply_taken. destruct (taken (gh p)) as [[q d]|] eqn:Htk.
  - subst q. cbn in Hk. rewrite decide_True in Hk by done. destruct Hk as (text & items & w & -> & Hc & Hv & Hw').
    pose proof (worth_nonneg cls items). eexists. split; [by exists text, items|].
    eapply (led_replies _ _ _ _ _ _ _ _ (- worth items)); [exact Hi|done|done|auto|cbn; lia| |cbn; lia].
    clear F Hw Hwp Hv Hw' w. intros F Hw. pose proof (Hw src p) as Hwp. rewrite Hch, Htk in Hwp. cbn in Hwp.
    rewrite decide_True in Hwp by done. inversion Hwp as [| | |d' items' text' l' h2 v' Hc' Hw' H1 H2]; subst.
    rewrite (carries_inj _ _ _ _ Hc Hc') in *. split.
    + exists v'. rewrite fn_lookup_insert, Ho by done. split; [exact Hw'|lia].
    + intros a b Hne. rewrite Ho by done. split; [|done]. apply Hother; [done|by left].
  - cbn in Hk. destruct Hk as [Hm _]. eexists. split; [split; [exact Hm|reflexivity]|].
    eapply (led_replies _ _ _ _ _ _ _ _ 0); [exact Hi|done|done|auto|cbn; lia| |cbn; lia].
    clear F Hw Hwp. intros F Hw. pose proof (Hw src p) as Hwp. rewrite Hch, Htk in Hwp. cbn [from] in Hwp.
    change None with (from src None) in Hwp. apply way_take in Hwp as [_ Hwp]. split.
    + exists (F src p). rewrite fn_lookup_insert, Ho by done. split; [exact Hwp|lia].
    + intros a b Hne. rewrite Ho by done. split; [|done]. apply Hother; [done|].
      cbn. unfold header. destruct m as [|[|x d]|]; [by left..| |by left]. destruct (0 <? x); [right; by exists (x :: d)|by left].
Qed.

Lemma led_send total gh ch p dst m buf :
  led_inv total gh ch → is_rank p → led_pre p (gh p) (OIsend dst CIRCLE_TAG_WORK_REPLY m buf) →
  ∃ g', reply_sent dst (gh p) m g' ∧
    led_inv total (<[p := g']> gh)
      (<[(p, dst, CIRCLE_TAG_WORK_REPLY) := ch (p, dst, CIRCLE_TAG_WORK_REPLY) ++ [m]]> ch).
Proof.
  intros Hi Hp [_ Hpre]. specialize (Hpre eq_refl). pose proof (li_pos _ _ _ Hi p Hp) as Hpos.
  assert (∀ g', taken g' = taken (gh p) → ∀ q, taken (<[p := g']> gh q) = taken (gh q)) as Ht by (intros g' Hg q; by moved q p).
  assert (∀ g' a b, (a, b) ≠ (p, dst) →
    (owed g' = None ∨ ∃ d, owed g' = Some (dst, d)) → (owed (gh p) = None ∨ ∃ d, owed (gh p) = Some (dst, d)) →
    from b (owed (<[p := g']> gh a)) = from b (owed (gh a))) as Hother.
  { intros g' a b Hne Hg Hg0. moved a p; [|done]. assert (b ≠ dst) as Hb by congruence.
    assert (∀ h, h = None ∨ (∃ d, h = Some (dst, d)) → from b h = None) as Hh
      by (intros h [-> |[d ->]]; [done|]; cbn; by rewrite decide_False by congruence).
    by rewrite !Hh. }
  destruct m as [text|[|x d]|]; [|done| |done].
  - destruct Hpre as (Hd & d & items & Ho & Hc & Hle). pose proof (worth_nonneg cls items).
    exists (Account (held (gh p) - worth items) (taken (gh p)) None). split.
    { intros d' items' Ho' Hc'. rewrite Ho in Ho'. injection Ho' as <-. by rewrite (carries_inj _ _ _ _ Hc' Hc). }
    eapply (led_replies _ _ _ _ _ _ _ _ (worth items)); [exact Hi|done|done|by left|cbn; lia| |cbn; lia].
    intros F Hw. pose proof (Hw p dst) as Hwp. rewrite Ho in Hwp. cbn in Hwp. rewrite decide_True in Hwp by done. split.
    + exists (F p dst + worth items). rewrite Ht, fn_lookup_insert by done. split; [by apply (way_snoc_text _ _ _ d)|lia].
    + intros a b Hne. rewrite Ht by done. split; [done|]. apply Hother; [done|by left|right; by exists d].
  - exists (Account (held (gh p)) (taken (gh p)) (header dst (Ints (x :: d)))). split; [done|].
    eapply (led_replies _ _ _ _ _ _ _ _ 0); [exact Hi|done|done|by right|cbn; lia| |cbn; lia].
    intros F Hw. pose proof (Hw p dst) as Hwp. rewrite Hpre in Hwp. cbn [from] in Hwp. split.
    + exists (F p dst). rewrite Ht, fn_lookup_insert by done. split; [|lia]. cbn. destruct (Z.ltb_spec 0 x); cbn.
      * rewrite decide_True by done. by apply way_snoc_header.
      * by apply way_snoc_refusal.
    + intros a b Hne. rewrite Ht by done. split; [done|]. apply Hother; [done| |by left].
      cbn. destruct (0 <? x); [right; by exists (x :: d)|by left].
Qed.

Lemma led_report total gh ch p k :
  led_inv total gh ch → is_rank p → (k = GOT_CALL → 1 ≤ held (gh p)) →
  led_inv total (<[p := if k =? PUT_CALL then moved_by 1 (gh p) else if k =? GOT_CALL then moved_by (-1) (gh p) else gh p]> gh)
    (<[(p, p, LOG_TAG) := ch (p, p, LOG_TAG) ++ [Ints [k]]]> ch).
Proof.
  intros Hi Hp Hk. pose proof (li_pos _ _ _ Hi p Hp) as Hpos. pose proof log_not_reply as Hlog. apply (led_other total gh ch); [exact Hi|done|..].
  - destruct (_ =? _); [done|]. by destruct (_ =? _).
  - destruct (_ =? _); [done|]. by destruct (_ =? _).
  - destruct (_ =? _); [cbn; lia|]. destruct (Z.eqb_spec k GOT_CALL); [cbn; specialize (Hk e); lia|done].
  - intros a b. apply fn_lookup_insert_ne. congruence.
  - rewrite reported_log by done. cbn [is_call].
    destruct (Z.eqb_spec k PUT_CALL) as [->|]; [change (PUT_CALL =? GOT_CALL) with false; cbn; lia|].
    destruct (Z.eqb_spec k GOT_CALL); cbn; lia.
Qed.

Lemma led_same total gh ch p : led_inv total gh ch → led_inv total (<[p := gh p]> gh) ch.
Proof.
  intros [(F & Hs & Hw) Hpos]. assert (∀ q, <[p := gh p]> gh q = gh q) as Hg by (intros q; apply insert_same). split.
  - exists F. split; [rewrite <-Hs; f_equal; apply sum_ext; intros q _; by rewrite Hg|]. intros a b. by rewrite !Hg.
  - intros q Hq. rewrite Hg. auto.
Qed.

(** Messages that are no replies and no reports. *)
Lemma led_neutral total gh ch p k l :
  led_inv total gh ch → is_rank p → (∀ a, k ≠ (a, a, LOG_TAG)) → (∀ a b, k ≠ (a, b, CIRCLE_TAG_WORK_REPLY)) →
  led_inv total (<[p := gh p]> gh) (<[k := l]> ch).
Proof.
  intros Hi Hp Hlog Hrep. apply (led_other total gh ch); [exact Hi|done|done|done|by apply (li_pos _ _ _ Hi)|..].
  - intros a b. apply fn_lookup_insert_ne. intros Hk. by apply (Hrep a b).
  - rewrite reported_ext by done. lia.
Qed.

Lemma led_inv_step total gh ch p o r ch' :
  is_rank p → led_inv total gh ch → led_pre p (gh p) o → net_answer n p ch o r ch' →
  ∃ g', led_post p (gh p) o r g' ∧ led_inv total (<[p := g']> gh) ch'.
Proof.
  intros Hp Hi Hpre Ha.
  assert (∀ ch0, ch0 = ch → ∃ g', g' = gh p ∧ led_inv total (<[p := g']> gh) ch0) as Hid.
  { intros ch0 ->. exists (gh p). split; [done|]. by apply led_same. }
  destruct o; try (by apply Hid); cbn in Ha |- *.
  - destruct Ha as [-> _]. by apply Hid.
  - destruct Ha as [-> Hr]. exists (gh p). split; [|by apply led_same]. split; [done|].
    intros s c ->. by destruct Hr.
  - destruct Ha as (Hsrc & l & Hch & ->). destruct Hpre as [Hlog Hpre].
    destruct (Z.eqb_spec tag CIRCLE_TAG_WORK_REPLY) as [->|]; [apply (led_recv total gh ch p src r l); [done|done|exact Hsrc|by apply Hpre|exact Hch]|].
    eexists. split; [done|]. apply led_neutral; [done|done|congruence|congruence].
  - subst ch'. destruct Hpre as [H1 H2]. eexists. split; [done|]. apply led_neutral; [done|done|congruence|congruence].
  - subst ch'. destruct (Z.eqb_spec tag CIRCLE_TAG_WORK_REPLY) as [->|]; [by eapply led_send|].
    destruct Hpre as [H1 _]. eexists. split; [done|]. apply led_neutral; [done|done|congruence|congruence].
  - subst ch'. destruct Hpre as [H1 H2]. eexists. split; [done|]. apply led_neutral; [done|done|congruence|congruence].
  - destruct Ha as [-> ->]. destruct (Hid ch eq_refl) as (g' & ? & ?). by exists g'.
  - destruct Ha as [-> ->]. destruct (Hid ch eq_refl) as (g' & ? & ?). by exists g'.
  - subst ch'. eexists. split; [reflexivity|]. by apply led_report.
Qed.
End ledger.
