(* ===== verification/TermSpec.v ===== *)
(** * Termination detection as an abstract protocol

    What one process may do in the tree allreduce of
    CIRCLE_check_for_term_allreduce and in the transfer of work, on a ghost
    state per process, and the invariant of all processes that makes the
    decision safe: when the allreduce yields 1, nobody has work and no work
    is on its way.

    The argument is the one of the comment in CIRCLE_work_loop
    (src/libcircle/worker.c), put as an invariant: if a process that has
    contributed to the current iteration got work again ([active]) or waits
    for a receipt, then the iteration is already lost ([doomed]), since some
    process that has yet to contribute will contribute 0. *)
From S2P Require Import Prelude CMonad Mpi Wire Network Ranks Quiet.

(** The ghost state of a process.  [t_active] is false from a contribution
    until work arrives: the promise not to hand out work.  [t_owed] lists
    the senders of work that has not been receipted, [t_down] the children
    the result has still to be sent to, [t_it] counts results. *)
Record tg : Type := TG {
  t_active : bool;
  t_wo : Z;
  t_owed : list Z;
  t_flag : Z;
  t_up : bool;
  t_got : gset Z;
  t_down : list Z;
  t_it : nat;
  t_result : Z;
}.

(** The first message of a transfer of work: a positive number of items. *)
Definition work_header (m : payload) : bool :=
  match m with Ints (x :: _) => 0 <? x | _ => false end.

Definition is_bit (v : Z) : Prop := v = 0 ∨ v = 1.

Section protocol.
Context (n : Z) (par : Z → Z) (chs : Z → list Z).

Abbreviation all_children := (all_children chs).

(** ** The ghost steps *)

Definition send_work_g (g : tg) : tg :=
  TG (t_active g) (t_wo g + 1) (t_owed g) (t_flag g) (t_up g) (t_got g) (t_down g) (t_it g) (t_result g).
Definition recv_work_g (src : Z) (g : tg) : tg :=
  TG true (t_wo g) (src :: t_owed g) (t_flag g) (t_up g) (t_got g) (t_down g) (t_it g) (t_result g).
Definition send_receipt_g (g : tg) : tg :=
  TG (t_active g) (t_wo g) (tail (t_owed g)) (t_flag g) (t_up g) (t_got g) (t_down g) (t_it g) (t_result g).
Definition recv_receipt_g (g : tg) : tg :=
  TG (t_active g) (t_wo g - 1) (t_owed g) 0 (t_up g) (t_got g) (t_down g) (t_it g) (t_result g).
Definition send_up_g (g : tg) : tg :=
  TG false (t_wo g) (t_owed g) 1 true (t_got g) (t_down g) (t_it g) (t_result g).
Definition send_down_g (g : tg) : tg :=
  TG (t_active g) (t_wo g) (t_owed g) (t_flag g) (t_up g) (t_got g) (tail (t_down g)) (t_it g) (t_result g).
(** The root contributes, has the result and sends it to its first child. *)
Definition decide_g (p : Z) (g : tg) : tg :=
  TG false (t_wo g) (t_owed g) 1 false ∅ (tail (chs p)) (S (t_it g)) (t_flag g).
Definition recv_child_g (src v : Z) (g : tg) : tg :=
  TG (t_active g) (t_wo g) (t_owed g) (Z.land (t_flag g) v) (t_up g) ({[src]} ∪ t_got g) (t_down g)
    (t_it g) (t_result g).
Definition recv_parent_g (p v : Z) (g : tg) : tg :=
  TG (t_active g) (t_wo g) (t_owed g) (t_flag g) false ∅ (chs p) (S (t_it g)) v.

(** Ready to contribute: all children have, nothing is owed or awaited. *)
Definition may_contribute (p : Z) (g : tg) (m : payload) : Prop :=
  m = Ints [t_flag g] ∧ t_up g = false ∧ t_got g = all_children p ∧ t_down g = [] ∧
  t_owed g = [] ∧ t_wo g = 0 ∧ t_result g ≠ 1.

(** The messages of the allreduce a process may send, with what they do. *)
Inductive term_send (p : Z) (g : tg) (dst : Z) (m : payload) : tg → Prop :=
  | ts_up : 0 < p → dst = par p → may_contribute p g m → term_send p g dst m (send_up_g g)
  | ts_down rest : t_down g = dst :: rest → m = Ints [t_result g] →
      term_send p g dst m (send_down_g g)
  | ts_decide rest : p = 0 → chs p = dst :: rest → may_contribute p g m →
      term_send p g dst m (decide_g p g).

(** ** The protocol *)

Definition term_pre (p : Z) (g : tg) (o : op) : Prop :=
  match o with
  | OSend dst tag m =>
      if tag =? CIRCLE_TAG_TERM then ∃ g', term_send p g dst m g'
      else (tag =? CIRCLE_TAG_WORK_REPLY) || (tag =? CIRCLE_TAG_WORK_RECEIPT) = false
  | OIsend dst tag m _ =>
      if tag =? CIRCLE_TAG_WORK_REPLY then
        m ≠ Ints [] ∧ (work_header m = true → t_active g = true)
      else if tag =? CIRCLE_TAG_WORK_RECEIPT then ∃ rest, t_owed g = dst :: rest
      else tag =? CIRCLE_TAG_TERM = false
  | OIssend _ tag _ =>
      (tag =? CIRCLE_TAG_WORK_REPLY) || (tag =? CIRCLE_TAG_WORK_RECEIPT) || (tag =? CIRCLE_TAG_TERM)
      = false
  | ORecv src tag _ =>
      if tag =? CIRCLE_TAG_TERM then
        t_down g = [] ∧ t_result g ≠ 1 ∧
        (0 < p ∧ src = par p ∧ t_up g = true ∨ src ∈ chs p ∧ t_up g = false)
      else True
  | OExternal k => k = WORK_CALL → t_active g = true
  | _ => True
  end.

Definition term_post (p : Z) (g : tg) (o : op) : ans o → tg → Prop :=
  match o return ans o → tg → Prop with
  | OSend dst tag m => λ _ g',
      if tag =? CIRCLE_TAG_TERM then term_send p g dst m g' else g' = g
  | OIsend dst tag m _ => λ _ g',
      if tag =? CIRCLE_TAG_WORK_REPLY then g' = if work_header m then send_work_g g else g
      else if tag =? CIRCLE_TAG_WORK_RECEIPT then g' = send_receipt_g g
      else g' = g
  | ORecv src tag _ => λ m g',
      if tag =? CIRCLE_TAG_TERM then
        ∃ v, m = Ints [v] ∧ is_bit v ∧
          g' = (if t_up g then recv_parent_g p v g else recv_child_g src v g) ∧
          (t_up g = false → src ∉ t_got g)
      else if tag =? CIRCLE_TAG_WORK_REPLY then
        m ≠ Ints [] ∧ (t_result g = 1 → work_header m = false) ∧
        g' = if work_header m then recv_work_g src g else g
      else if tag =? CIRCLE_TAG_WORK_RECEIPT then g' = recv_receipt_g g
      else g' = g
  | OIprobe src tag => λ r g', g' = g ∧
      (tag =? CIRCLE_TAG_TERM = true → t_up g = false → ∀ s c, r = Some (s, c) → s ∈ chs p)
  | OCommRank => λ r g', r = p ∧ g' = g
  | OCommSize => λ r g', r = n ∧ g' = g
  | _ => λ _ g', g' = g
  end.

(** ** The invariant *)

Abbreviation ghosts := (Z → tg).
Abbreviation links := (Z → Z → list payload).

(** The edge of [c] to its parent: [c] has yet to contribute, its
    contribution is on its way, it was received, the result has yet to be
    sent, the result is on its way. *)
Definition edge_state (up : bool) (UP DN : list payload) (got rem : Prop) (ic ip : nat) (res : Z)
    : Prop :=
  (ic = ip ∧ up = false ∧ UP = [] ∧ DN = [] ∧ ¬ got ∧ ¬ rem) ∨
  (∃ v, is_bit v ∧ ic = ip ∧ up = true ∧ UP = [Ints [v]] ∧ DN = [] ∧ ¬ got ∧ ¬ rem) ∨
  (ic = ip ∧ up = true ∧ UP = [] ∧ DN = [] ∧ got ∧ ¬ rem) ∨
  (S ic = ip ∧ up = true ∧ UP = [] ∧ DN = [] ∧ ¬ got ∧ rem) ∨
  (S ic = ip ∧ up = true ∧ UP = [] ∧ DN = [Ints [res]] ∧ ¬ got ∧ ¬ rem).

Definition edge (gh : ghosts) (T : links) (c : Z) : Prop :=
  edge_state (t_up (gh c)) (T c (par c)) (T (par c) c)
    (c ∈ t_got (gh (par c))) (c ∈ t_down (gh (par c)))
    (t_it (gh c)) (t_it (gh (par c))) (t_result (gh (par c))).

Record tree_inv (gh : ghosts) (T : links) : Prop := TreeInv {
  ti_edge : ∀ c, 0 < c < n → edge gh T c;
  ti_up : ∀ p, is_rank n p → t_up (gh p) = true → 0 < p ∧ t_got (gh p) = all_children p;
  ti_down : ∀ p, is_rank n p → NoDup (t_down (gh p)) ∧ ∀ c, c ∈ t_down (gh p) → c ∈ chs p;
  ti_got : ∀ p c, is_rank n p → c ∈ t_got (gh p) → c ∈ chs p;
  ti_bits : ∀ p, is_rank n p → is_bit (t_flag (gh p)) ∧ is_bit (t_result (gh p));
  ti_res : ∀ p, is_rank n p → t_it (gh p) = t_it (gh 0) → t_result (gh p) = t_result (gh 0);
  ti_other : ∀ a b, T a b ≠ [] → (0 < a < n ∧ b = par a) ∨ (0 < b < n ∧ a = par b);
  ti_done : ∀ p, is_rank n p → t_up (gh p) = true → t_result (gh p) ≠ 1;
}.

(** Transfers from [p] to [q] that [p] still counts as outstanding. *)
Definition transfers (gh : ghosts) (R Q : links) (p q : Z) : Z :=
  Z.of_nat (length (filter (λ m, work_header m = true) (R p q))) +
  Z.of_nat (length (filter (λ s, s = p) (t_owed (gh q)))) +
  Z.of_nat (length (Q q p)).

Abbreviation sum_ranks := (sum_ranks n).

Record work_inv (gh : ghosts) (R Q : links) : Prop := WorkInv {
  wi_count : ∀ p, is_rank n p → sum_ranks (transfers gh R Q p) ≤ t_wo (gh p);
  wi_reply : ∀ p q m, m ∈ R p q → m ≠ Ints [];
}.

Definition contributed (gh : ghosts) (p : Z) : Prop :=
  t_up (gh p) = true ∧ t_it (gh p) = t_it (gh 0).

Definition doomed (gh : ghosts) (T : links) : Prop :=
  (∃ y, is_rank n y ∧ ¬ contributed gh y ∧ (t_flag (gh y) = 0 ∨ 0 < t_wo (gh y))) ∨
  (∃ c, 0 < c < n ∧ T c (par c) = [Ints [0]]).

Definition safe_so_far (gh : ghosts) (T : links) : Prop :=
  ∀ p, is_rank n p → contributed gh p → t_active (gh p) = true ∨ 0 < t_wo (gh p) → doomed gh T.

Definition finished (gh : ghosts) : Prop :=
  t_result (gh 0) = 1 → ∀ p, is_rank n p → t_active (gh p) = false ∧ t_wo (gh p) = 0.

Definition term_inv (gh : ghosts) (ch : channels) : Prop :=
  let T a b := ch (a, b, CIRCLE_TAG_TERM) in
  let R a b := ch (a, b, CIRCLE_TAG_WORK_REPLY) in
  let Q a b := ch (a, b, CIRCLE_TAG_WORK_RECEIPT) in
  tree_inv gh T ∧ work_inv gh R Q ∧ safe_so_far gh T ∧ finished gh.
End protocol.
