(* ===== verification/TermInv.v ===== *)
(** * The termination protocol keeps its invariant

    One lemma per kind of step of TermSpec, and [term_inv_step]: whatever
    the network answers to a call the protocol allows, the answer is one the
    protocol promises and the invariant of all processes goes on to hold. *)
From S2P Require Import Prelude CMonad Mpi Wire Network Ranks TermSpec.

Section inv.
Context (n : Z) (par : Z → Z) (chs : Z → list Z) `{!IsTree n par chs}.

Abbreviation is_rank := (is_rank n).
Abbreviation edge := (edge par).
Abbreviation tree_inv := (tree_inv n par chs).
Abbreviation work_inv := (work_inv n).
Abbreviation doomed := (doomed n par).
Abbreviation safe_so_far := (safe_so_far n par).
Abbreviation finished := (finished n).
Abbreviation sum_ranks := (sum_ranks n).
Abbreviation all_children := (all_children chs).

Implicit Types gh : Z → tg.
Implicit Types T R Q : Z → Z → list payload.

(** ** Facts about the tree of results *)

(** Nobody is more than one result behind the root. *)
Lemma it_near gh T p :
  tree_inv gh T → is_rank p →
  t_it (gh p) = t_it (gh 0) ∨ (S (t_it (gh p)) = t_it (gh 0) ∧ t_up (gh p) = true).
Proof.
  intros Ht. revert p. apply rank_ind; [by left|]. intros p Hp IH.
  pose proof (ti_edge _ _ _ _ _ Ht p Hp) as He. destruct IH as [IH|[IH Hup]].
  - destruct He as [?|[(?&?)|[?|[?|?]]]]; naive_solver congruence.
  - destruct (ti_up _ _ _ _ _ Ht (par p)) as [_ Hgot]; [by apply is_rank_par|done|].
    assert (p ∈ t_got (gh (par p))) as Hin by (rewrite Hgot; by apply elem_of_all_children).
    destruct He as [?|[(?&?)|[?|[?|?]]]]; naive_solver congruence.
Qed.

(** When the root has heard all its children, everybody has contributed and
    no contribution is on its way. *)
Lemma all_contributed gh T p :
  tree_inv gh T → t_got (gh 0) = all_children 0 → is_rank p →
  (t_it (gh p) = t_it (gh 0) ∧ (0 < p → t_up (gh p) = true ∧ T p (par p) = [])).
Proof.
  intros Ht H0. revert p. apply rank_ind; [split; [done|lia]|]. intros p Hp [IHi IHu].
  pose proof (ti_edge _ _ _ _ _ Ht p Hp) as He.
  assert (t_got (gh (par p)) = all_children (par p)) as Hgot.
  { destruct (decide (par p = 0)) as [->|Hne]; [done|].
    pose proof (par_lt p Hp). apply (ti_up _ _ _ _ _ Ht); [by apply is_rank_par|]. apply IHu. lia. }
  assert (p ∈ t_got (gh (par p))) as Hin by (rewrite Hgot; by apply elem_of_all_children).
  destruct He as [?|[(?&?)|[?|[?|?]]]]; naive_solver congruence.
Qed.

(** A process that has not contributed has nothing on its way up. *)
Lemma edge_not_up gh T p :
  tree_inv gh T → 0 < p < n → t_up (gh p) = false →
  t_it (gh p) = t_it (gh (par p)) ∧ T p (par p) = [] ∧ T (par p) p = [] ∧
  p ∉ t_got (gh (par p)) ∧ p ∉ t_down (gh (par p)).
Proof.
  intros Ht Hp Hup. pose proof (ti_edge _ _ _ _ _ Ht p Hp) as He.
  destruct He as [?|[(?&?)|[?|[?|?]]]]; naive_solver congruence.
Qed.

(** ** Steps that do not concern the tree *)

Definition same_tree (g g' : tg) : Prop :=
  t_up g' = t_up g ∧ t_got g' = t_got g ∧ t_down g' = t_down g ∧ t_it g' = t_it g ∧
  t_result g' = t_result g.

Lemma tree_inv_ext gh gh' T T' :
  tree_inv gh T → (∀ x, same_tree (gh x) (gh' x)) → (∀ x, is_rank x → is_bit (t_flag (gh' x))) →
  (∀ a b, T' a b = T a b) → tree_inv gh' T'.
Proof.
  intros Ht Hs Hf HT. split.
  - intros c Hc. pose proof (ti_edge _ _ _ _ _ Ht c Hc) as He. unfold TermSpec.edge in *.
    destruct (Hs c) as (-> & _ & _ & -> & _), (Hs (par c)) as (_ & -> & -> & -> & ->).
    by rewrite !HT.
  - intros p Hp. destruct (Hs p) as (-> & -> & _). by apply (ti_up _ _ _ _ _ Ht).
  - intros p Hp. destruct (Hs p) as (_ & _ & -> & _). by apply (ti_down _ _ _ _ _ Ht).
  - intros p c Hp. destruct (Hs p) as (_ & -> & _). by apply (ti_got _ _ _ _ _ Ht).
  - intros p Hp. destruct (Hs p) as (_ & _ & _ & _ & ->). split; [by apply Hf|].
    by apply (ti_bits _ _ _ _ _ Ht).
  - intros p Hp. destruct (Hs p) as (_ & _ & _ & -> & ->), (Hs 0) as (_ & _ & _ & -> & ->).
    by apply (ti_res _ _ _ _ _ Ht).
  - intros a b. rewrite HT. apply (ti_other _ _ _ _ _ Ht).
  - intros p Hp. destruct (Hs p) as (-> & _ & _ & _ & ->). by apply (ti_done _ _ _ _ _ Ht).
Qed.

Lemma contributed_ext gh gh' x :
  (∀ x, same_tree (gh x) (gh' x)) → contributed gh' x ↔ contributed gh x.
Proof.
  intros Hs. unfold contributed.
  by destruct (Hs x) as (-> & _ & _ & -> & _), (Hs 0) as (_ & _ & _ & -> & _).
Qed.

Lemma transfers_nonneg gh R Q p q : 0 ≤ transfers gh R Q p q.
Proof. unfold transfers. lia. Qed.

(** One transfer from [p] to [q] more or less, counted by [p]. *)
Lemma count_step gh gh' R R' Q Q' p q d :
  work_inv gh R Q →
  (∀ a b, transfers gh' R' Q' a b = transfers gh R Q a b + (if decide (a = p ∧ b = q) then d else 0)) →
  (∀ a, t_wo (gh' a) = t_wo (gh a) + (if decide (a = p) then d else 0)) →
  0 ≤ d ∨ is_rank q → (∀ a b m, m ∈ R' a b → m ≠ Ints []) → work_inv gh' R' Q'.
Proof.
  intros Hw Ht Hwo Hd HR. split; [|done]. intros a Ha. rewrite Hwo.
  pose proof (wi_count _ _ _ _ Hw a Ha) as Hc. destruct (decide (a = p)) as [->|Hne].
  - assert (sum_ranks (transfers gh' R' Q' p) ≤ sum_ranks (transfers gh R Q p) + d) as Hle; [|lia].
    destruct (decide (is_rank q)) as [Hq|Hq].
    + rewrite (sum_upd (transfers gh R Q p) _ q Hq).
      * rewrite Ht, decide_True by done. lia.
      * intros b Hb. rewrite Ht, decide_False by tauto. lia.
    + rewrite (sum_ext (transfers gh R Q p)); [destruct Hd; [lia|done]|].
      intros b Hb. rewrite Ht, decide_False; [lia|]. intros [_ ->]. done.
  - rewrite (sum_ext (transfers gh R Q a)); [lia|].
    intros b _. rewrite Ht, decide_False by tauto. lia.
Qed.

(** A transfer that has not been receipted is outstanding. *)
Lemma outstanding gh R Q p q :
  work_inv gh R Q → is_rank p → is_rank q → 0 < transfers gh R Q p q → 0 < t_wo (gh p).
Proof.
  intros Hw Hp Hq Ht. pose proof (wi_count _ _ _ _ Hw p Hp).
  pose proof (sum_ge (transfers gh R Q p) q Hq (transfers_nonneg gh R Q p)). lia.
Qed.

(** Nothing outstanding, nothing on its way. *)
Lemma no_transfer gh R Q p q m :
  work_inv gh R Q → is_rank p → is_rank q → t_wo (gh p) = 0 → m ∈ R p q → work_header m = false.
Proof.
  intros Hw Hp Hq Hwo Hm. destruct (work_header m) eqn:Hh; [|done].
  assert (0 < t_wo (gh p)); [|lia]. apply (outstanding gh R Q p q Hw Hp Hq). unfold transfers.
  assert (m ∈ filter (λ m, work_header m = true) (R p q)) as Hin by (by apply list_elem_of_filter).
  destruct (filter _ (R p q)); [by apply elem_of_nil in Hin|]. simpl. lia.
Qed.

(** Whoever has the result 1 knows that the work is done. *)
Lemma told_finished gh T p :
  tree_inv gh T → finished gh → is_rank p → t_result (gh p) = 1 →
  ∀ q, is_rank q → t_active (gh q) = false ∧ t_wo (gh q) = 0.
Proof.
  intros Ht Hf Hp Hr. apply Hf. destruct (it_near gh T p Ht Hp) as [Hi|[_ Hup]].
  - by rewrite <-(ti_res _ _ _ _ _ Ht p Hp Hi).
  - by destruct (ti_done _ _ _ _ _ Ht p Hp Hup).
Qed.

(** ** Sending and receiving work *)

Definition inv (gh : Z → tg) (T R Q : Z → Z → list payload) : Prop :=
  tree_inv gh T ∧ work_inv gh R Q ∧ safe_so_far gh T ∧ finished gh.

Lemma same_tree_upd gh p g' :
  same_tree (gh p) g' → ∀ x, same_tree (gh x) (<[p := g']> gh x).
Proof. intros Hs x. moved x p; [done|]. unfold same_tree. auto 10. Qed.

Lemma doomed_ext gh gh' T T' :
  (∀ x, same_tree (gh x) (gh' x)) → (∀ a b, T' a b = T a b) →
  (∀ y, is_rank y → ¬ contributed gh y → t_flag (gh y) = 0 ∨ 0 < t_wo (gh y) →
        t_flag (gh' y) = 0 ∨ 0 < t_wo (gh' y)) →
  doomed gh T → doomed gh' T'.
Proof.
  intros Hs HT Hd [(y & Hy & Hc & Hv)|(c & Hc & Hv)].
  - left. exists y. rewrite (contributed_ext gh gh') by done. auto.
  - right. exists c. by rewrite HT.
Qed.

Lemma bits_upd gh T p g' :
  tree_inv gh T → is_bit (t_flag g') → ∀ x, is_rank x → is_bit (t_flag (<[p := g']> gh x)).
Proof. intros Ht Hg x Hx. moved x p; [done|]. by apply (ti_bits _ _ _ _ _ Ht). Qed.

Lemma length_filter_snoc {A} (P : A → Prop) `{!∀ x, Decision (P x)} l x :
  length (filter P (l ++ [x])) = (length (filter P l) + if decide (P x) then 1 else 0)%nat.
Proof.
  rewrite list.filter_app, length_app. simpl. rewrite list.filter_cons, list.filter_nil. by case_decide.
Qed.

Lemma length_filter_cons {A} (P : A → Prop) `{!∀ x, Decision (P x)} l x :
  length (filter P (x :: l)) = ((if decide (P x) then 1 else 0) + length (filter P l))%nat.
Proof. rewrite list.filter_cons. by case_decide. Qed.

Lemma step_send_work gh T T' R R' Q Q' p q m :
  is_rank p → inv gh T R Q → t_active (gh p) = true → m ≠ Ints [] →
  R' p q = R p q ++ [m] → (∀ a b, (a, b) ≠ (p, q) → R' a b = R a b) →
  (∀ a b, T' a b = T a b) → (∀ a b, Q' a b = Q a b) → work_header m = true →
  inv (<[p := send_work_g (gh p)]> gh) T' R' Q'.
Proof.
  intros Hp (Ht & Hw & Hs & Hf) Hact Hm HR HRo HT HQ Hh.
  assert (∀ x, same_tree (gh x) (<[p := send_work_g (gh p)]> gh x)) as Hsame
    by (by apply same_tree_upd).
  pose proof (ti_bits _ _ _ _ _ Ht p Hp) as [Hb _].
  split; [|split; [|split]].
  - eapply tree_inv_ext; [done|done| |done]. by eapply bits_upd.
  - apply (count_step gh _ R R' Q Q' p q 1); [done| | |lia|].
    + intros a b. unfold transfers. rewrite HQ.
      assert (t_owed (<[p:=send_work_g (gh p)]> gh b) = t_owed (gh b)) as -> by (by moved b p).
      case_decide as Hd; [destruct Hd as [-> ->]; rewrite HR, length_filter_snoc, decide_True by done; lia|].
      rewrite HRo by (intros [= -> ->]; tauto). lia.
    + intros a. moved a p; simpl; lia.
    + intros a b x. destruct (decide ((a, b) = (p, q))) as [[= -> ->]|Hne].
      * rewrite HR, elem_of_app, list_elem_of_singleton. intros [?| ->]; [|done].
        by eapply (wi_reply _ _ _ _ Hw).
      * rewrite HRo by done. apply (wi_reply _ _ _ _ Hw).
  - intros x Hx Hc Ha. rewrite (contributed_ext gh) in Hc by done.
    apply (doomed_ext gh _ T); [done|done| |].
    + intros y _ _. moved y p; simpl; [lia|done].
    + apply (Hs x Hx Hc). moved x p; [by left|done].
  - intros Hres x Hx. destruct (Hsame 0) as (_ & _ & _ & _ & Hr). rewrite Hr in Hres.
    destruct (Hf Hres p Hp) as [Hna _]. congruence.
Qed.

Lemma filter_owed_cons (s a : Z) l :
  length (filter (λ s, s = a) (s :: l)) = ((if decide (s = a) then 1 else 0) + length (filter (λ s, s = a) l))%nat.
Proof. exact (length_filter_cons (λ s, s = a) l s). Qed.

Lemma step_recv_work gh T T' R R' Q Q' p q m l :
  is_rank q → inv gh T R Q → R p q = m :: l → R' p q = l →
  (∀ a b, (a, b) ≠ (p, q) → R' a b = R a b) →
  (∀ a b, T' a b = T a b) → (∀ a b, Q' a b = Q a b) → work_header m = true → is_rank p →
  inv (<[q := recv_work_g p (gh q)]> gh) T' R' Q'.
Proof.
  intros Hq (Ht & Hw & Hs & Hf) HR HR' HRo HT HQ Hh Hp.
  assert (∀ x, same_tree (gh x) (<[q := recv_work_g p (gh q)]> gh x)) as Hsame
    by (by apply same_tree_upd).
  assert (0 < t_wo (gh p)) as Hwo.
  { apply (outstanding gh R Q p q Hw Hp Hq). unfold transfers.
    rewrite HR, length_filter_cons, decide_True by done. lia. }
  assert (doomed gh T) as Hd.
  { destruct (decide (t_up (gh p) = true ∧ t_it (gh p) = t_it (gh 0))) as [Hc|Hc].
    - apply (Hs p Hp Hc). by right.
    - left. exists p. auto. }
  pose proof (ti_bits _ _ _ _ _ Ht q Hq) as [Hb _].
  split; [|split; [|split]].
  - eapply tree_inv_ext; [done|done| |done]. by eapply bits_upd.
  - apply (count_step gh _ R R' Q Q' p q 0); [done| | |lia|].
    + intros a b. unfold transfers. rewrite HQ.
      destruct (decide ((a, b) = (p, q))) as [[= -> ->]|Hne].
      * rewrite HR, HR', fn_lookup_insert. cbn [recv_work_g t_owed].
        rewrite filter_owed_cons, length_filter_cons, !decide_True by done. lia.
      * rewrite HRo by done. moved b q; [|case_decide; lia]. cbn [recv_work_g t_owed].
        rewrite filter_owed_cons, decide_False by congruence. case_decide; lia.
    + intros a. case_decide; moved a q; simpl; lia.
    + intros a b x. destruct (decide ((a, b) = (p, q))) as [[= -> ->]|Hne].
      * rewrite HR'. intros Hx. apply (wi_reply _ _ _ _ Hw p q). rewrite HR. by right.
      * rewrite HRo by done. apply (wi_reply _ _ _ _ Hw).
  - intros x _ _ _. apply (doomed_ext gh _ T); [done|done| |done].
    intros y _ _. by moved y q.
  - intros Hres x Hx. destruct (Hsame 0) as (_ & _ & _ & _ & Hr). rewrite Hr in Hres.
    destruct (Hf Hres p Hp) as [_ Hz]. lia.
Qed.

(** A reply without work. *)
Lemma step_reply gh T T' R R' Q Q' p q :
  inv gh T R Q → (∀ a b, T' a b = T a b) → (∀ a b, Q' a b = Q a b) →
  (∀ a b, (a, b) ≠ (p, q) → R' a b = R a b) →
  (filter (λ m, work_header m = true) (R' p q) = filter (λ m, work_header m = true) (R p q)) →
  (∀ m, m ∈ R' p q → m ≠ Ints []) → inv gh T' R' Q'.
Proof.
  intros (Ht & Hw & Hs & Hf) HT HQ HRo HR Hm.
  assert (∀ x, same_tree (gh x) (gh x)) as Hsame by (unfold same_tree; auto 10).
  split; [|split; [|split]]; [| | |done].
  - eapply tree_inv_ext; [done|done| |done]. intros x Hx. by apply (ti_bits _ _ _ _ _ Ht).
  - apply (count_step gh _ R R' Q Q' p q 0); [done| |intros a; case_decide; lia|lia|].
    + intros a b. unfold transfers. rewrite HQ.
      destruct (decide ((a, b) = (p, q))) as [[= -> ->]|Hne].
      * rewrite HR. case_decide; lia.
      * rewrite HRo by done. case_decide; lia.
    + intros a b. destruct (decide ((a, b) = (p, q))) as [[= -> ->]|Hne]; [apply Hm|].
      rewrite HRo by done. apply (wi_reply _ _ _ _ Hw).
  - intros x Hx Hc Ha. apply (doomed_ext gh _ T); [done|done|auto|]. by apply (Hs x).
Qed.

Lemma step_send_receipt gh T T' R R' Q Q' q p m rest :
  is_rank q → inv gh T R Q → t_owed (gh q) = p :: rest → Q' q p = Q q p ++ [m] →
  (∀ a b, (a, b) ≠ (q, p) → Q' a b = Q a b) →
  (∀ a b, T' a b = T a b) → (∀ a b, R' a b = R a b) →
  inv (<[q := send_receipt_g (gh q)]> gh) T' R' Q'.
Proof.
  intros Hq (Ht & Hw & Hs & Hf) Ho HQ HQo HT HR.
  assert (∀ x, same_tree (gh x) (<[q := send_receipt_g (gh q)]> gh x)) as Hsame
    by (by apply same_tree_upd).
  pose proof (ti_bits _ _ _ _ _ Ht q Hq) as [Hb _].
  split; [|split; [|split]].
  - eapply tree_inv_ext; [done|done| |done]. by eapply bits_upd.
  - apply (count_step gh _ R R' Q Q' p q 0); [done| | |lia|].
    + intros a b. unfold transfers. rewrite HR.
      destruct (decide ((a, b) = (p, q))) as [[= -> ->]|Hne].
      * rewrite HQ, length_app, fn_lookup_insert. cbn [send_receipt_g t_owed].
        rewrite Ho, filter_owed_cons, decide_True by done. simpl. case_decide; lia.
      * rewrite HQo by congruence. moved b q; [|case_decide; lia]. cbn [send_receipt_g t_owed].
        rewrite Ho, filter_owed_cons, decide_False by congruence. simpl. case_decide; lia.
    + intros a. case_decide; moved a q; simpl; lia.
    + intros a b x. rewrite HR. apply (wi_reply _ _ _ _ Hw).
  - intros x Hx Hc Ha. rewrite (contributed_ext gh) in Hc by done.
    apply (doomed_ext gh _ T); [done|done| |].
    + intros y _ _. by moved y q.
    + apply (Hs x Hx Hc). by moved x q.
  - intros Hres x Hx. destruct (Hsame 0) as (_ & _ & _ & _ & Hr). rewrite Hr in Hres.
    pose proof (Hf Hres x Hx). by moved x q.
Qed.

Lemma step_recv_receipt gh T T' R R' Q Q' q p m l :
  is_rank p → is_rank q → inv gh T R Q → Q q p = m :: l → Q' q p = l →
  (∀ a b, (a, b) ≠ (q, p) → Q' a b = Q a b) →
  (∀ a b, T' a b = T a b) → (∀ a b, R' a b = R a b) →
  inv (<[p := recv_receipt_g (gh p)]> gh) T' R' Q'.
Proof.
  intros Hp Hq (Ht & Hw & Hs & Hf) HQ HQ' HQo HT HR.
  assert (∀ x, same_tree (gh x) (<[p := recv_receipt_g (gh p)]> gh x)) as Hsame
    by (by apply same_tree_upd).
  assert (0 < t_wo (gh p)) as Hwo.
  { apply (outstanding gh R Q p q Hw Hp Hq). unfold transfers. rewrite HQ. simpl. lia. }
  split; [|split; [|split]].
  - eapply tree_inv_ext; [done|done| |done]. eapply bits_upd; [done|by left].
  - apply (count_step gh _ R R' Q Q' p q (-1)); [done| | |by right|].
    + intros a b. unfold transfers. rewrite HR.
      assert (t_owed (<[p:=recv_receipt_g (gh p)]> gh b) = t_owed (gh b)) as -> by (by moved b p).
      destruct (decide ((a, b) = (p, q))) as [[= -> ->]|Hne].
      * rewrite HQ, HQ'. rewrite decide_True by done. simpl. lia.
      * rewrite HQo by congruence. rewrite decide_False by (intros [-> ->]; congruence). lia.
    + intros a. moved a p; simpl; lia.
    + intros a b x. rewrite HR. apply (wi_reply _ _ _ _ Hw).
  - intros x Hx Hc Ha. rewrite (contributed_ext gh) in Hc by done.
    destruct (decide (t_up (gh p) = true ∧ t_it (gh p) = t_it (gh 0))) as [Hcp|Hcp].
    + apply (doomed_ext gh _ T); [done|done| |].
      * intros y _ Hy. moved y p; [done|done].
      * apply (Hs p Hp Hcp). by right.
    + left. exists p. rewrite (contributed_ext gh) by done. rewrite fn_lookup_insert.
      split; [done|]. split; [done|]. by left.
  - intros Hres x Hx. destruct (Hsame 0) as (_ & _ & _ & _ & Hr). rewrite Hr in Hres.
    destruct (Hf Hres p Hp) as [_ Hz]. lia.
Qed.

(** ** The messages of the allreduce *)

#[local] Instance edge_state_proper up UP DN :
  Proper (iff ==> iff ==> eq ==> eq ==> eq ==> iff) (edge_state up UP DN).
Proof.
  intros got got' Hg rem rem' Hr ? ic -> ? ip -> ? res ->. unfold edge_state.
  setoid_rewrite Hg. by setoid_rewrite Hr.
Qed.

(** An edge away from the process that moved. *)
Lemma edge_other gh T T' p g' c :
  edge gh T c → c ≠ p → par c ≠ p → T' c (par c) = T c (par c) → T' (par c) c = T (par c) c →
  edge (<[p := g']> gh) T' c.
Proof. intros He Hc Hp H1 H2. unfold TermSpec.edge in *. rewrite !fn_lookup_insert_ne by done. by rewrite H1, H2. Qed.

Lemma par_ne c : 0 < c < n → par c ≠ c.
Proof. intros Hc. pose proof (par_lt c Hc). lia. Qed.

Lemma work_inv_ext gh gh' R R' Q Q' :
  work_inv gh R Q → (∀ x, t_wo (gh' x) = t_wo (gh x) ∧ t_owed (gh' x) = t_owed (gh x)) →
  (∀ a b, R' a b = R a b) → (∀ a b, Q' a b = Q a b) → work_inv gh' R' Q'.
Proof.
  intros Hw Hg HR HQ. apply (count_step gh gh' R R' Q Q' 0 0 0); [done| | |lia|].
  - intros a b. unfold transfers. rewrite HR, HQ. destruct (Hg b) as [_ ->]. case_decide; lia.
  - intros a. destruct (Hg a) as [-> _]. case_decide; lia.
  - intros a b m. rewrite HR. apply (wi_reply _ _ _ _ Hw).
Qed.

Lemma step_up gh T T' R R' Q Q' p m :
  0 < p < n → inv gh T R Q → may_contribute chs p (gh p) m →
  T' p (par p) = T p (par p) ++ [m] → (∀ a b, (a, b) ≠ (p, par p) → T' a b = T a b) →
  (∀ a b, R' a b = R a b) → (∀ a b, Q' a b = Q a b) →
  inv (<[p := send_up_g (gh p)]> gh) T' R' Q'.
Proof.
  intros Hp (Ht & Hw & Hs & Hf) (-> & Hup & Hgot & Hdown & Howed & Hwo & Hres) HT HTo HR HQ.
  assert (is_rank p) as Hpr by (unfold Network.is_rank; lia).
  pose proof (edge_not_up _ _ _ Ht Hp Hup) as (Hit & HU & HD & Hng & Hnd).
  pose proof (par_ne p Hp) as Hpp. pose proof (ti_bits _ _ _ _ _ Ht p Hpr) as [Hb Hb'].
  assert (∀ x, t_it (<[p := send_up_g (gh p)]> gh x) = t_it (gh x)) as Hits
    by (intros x; by moved x p).
  assert (∀ x, t_result (<[p := send_up_g (gh p)]> gh x) = t_result (gh x)) as Hrs
    by (intros x; by moved x p).
  assert (T' (par p) p = []) as HD' by (rewrite HTo by congruence; done).
  assert (t_it (gh p) = t_it (gh 0)) as Hit0.
  { destruct (it_near _ _ p Ht Hpr) as [?|[_ ?]]; congruence. }
  split; [split|split; [|split]].
  - intros c Hc. destruct (decide (c = p)) as [->|Hcp].
    + unfold TermSpec.edge. rewrite fn_lookup_insert, fn_lookup_insert_ne by done.
      right; left. exists (t_flag (gh p)). rewrite HT, HU, HD'. auto 10.
    + pose proof (ti_edge _ _ _ _ _ Ht c Hc) as He. destruct (decide (par c = p)) as [Hcpar|].
      * unfold TermSpec.edge in *. rewrite Hcpar in *.
        rewrite fn_lookup_insert, fn_lookup_insert_ne by done.
        rewrite (HTo c p) by congruence.
        rewrite (HTo p c) by (intros [= Hpc]; pose proof (par_lt c Hc); pose proof (par_lt p Hp); lia).
        exact He.
      * apply edge_other with T; try done; apply HTo; congruence.
  - intros x Hx. moved x p; [|by apply (ti_up _ _ _ _ _ Ht)]. split; [lia|done].
  - intros x Hx. moved x p; by apply (ti_down _ _ _ _ _ Ht).
  - intros x c Hx. moved x p; by apply (ti_got _ _ _ _ _ Ht).
  - intros x Hx. moved x p; [split; [by right|done]|by apply (ti_bits _ _ _ _ _ Ht)].
  - intros x Hx. rewrite !Hits. intros Hi.
    rewrite !Hrs. by apply (ti_res _ _ _ _ _ Ht).
  - intros a b. destruct (decide ((a, b) = (p, par p))) as [[= -> ->]|Hne]; [by left|].
    rewrite HTo by done. apply (ti_other _ _ _ _ _ Ht).
  - intros x Hx. rewrite Hrs. moved x p; [done|]. by apply (ti_done _ _ _ _ _ Ht).
  - eapply work_inv_ext; [done| |done|done]. intros x. by moved x p.
  - assert (doomed gh T → doomed (<[p := send_up_g (gh p)]> gh) T') as Hd.
    { intros [(y & Hy & Hc & Hv)|(c & Hc & Hv)].
      - destruct (decide (y = p)) as [->|Hne].
        + right. exists p. split; [done|]. rewrite HT, HU.
          destruct Hv as [->|]; [done|lia].
        + left. exists y. unfold contributed in *. rewrite !Hits.
          rewrite !fn_lookup_insert_ne by done. auto.
      - right. exists c. split; [done|].
        destruct (decide (c = p)) as [->|]; [by rewrite HU in Hv|].
        rewrite HTo by congruence. done. }
    intros x Hx [Hux Hix] Ha. rewrite !Hits in Hix. moved x p; [simpl in Ha; destruct Ha; [done|lia]|].
    apply Hd. by apply (Hs x).
  - intros Hr x Hx. rewrite Hrs in Hr. pose proof (Hf Hr x Hx). by moved x p.
Qed.

Lemma step_down gh T T' R R' Q Q' p dst rest :
  is_rank p → inv gh T R Q → t_down (gh p) = dst :: rest →
  T' p dst = T p dst ++ [Ints [t_result (gh p)]] → (∀ a b, (a, b) ≠ (p, dst) → T' a b = T a b) →
  (∀ a b, R' a b = R a b) → (∀ a b, Q' a b = Q a b) →
  inv (<[p := send_down_g (gh p)]> gh) T' R' Q'.
Proof.
  intros Hpr (Ht & Hw & Hs & Hf) Hdn HT HTo HR HQ.
  destruct (ti_down _ _ _ _ _ Ht p Hpr) as [Hnd Hsub]. rewrite Hdn in Hnd, Hsub.
  apply NoDup_cons in Hnd as [Hdst Hnd].
  destruct (proj1 (chs_spec p dst) (Hsub dst ltac:(by left))) as [Hdr Hpar].
  pose proof (par_ne dst Hdr) as Hpd.
  pose proof (ti_edge _ _ _ _ _ Ht dst Hdr) as Hed. unfold TermSpec.edge in Hed.
  rewrite Hpar in Hed, Hpd. rewrite Hdn in Hed.
  assert (S (t_it (gh dst)) = t_it (gh p) ∧ t_up (gh dst) = true ∧ T dst p = [] ∧ T p dst = [] ∧
    dst ∉ t_got (gh p)) as (Hit & Hup & HU & HD & Hng).
  { assert (dst ∈ dst :: rest) by (by left).
    destruct Hed as [?|[(?&?)|[?|[?|?]]]]; naive_solver. }
  assert (T' dst p = []) as HU' by (rewrite HTo by congruence; done).
  set (gh' := <[p := send_down_g (gh p)]> gh).
  assert (∀ x, t_it (gh' x) = t_it (gh x) ∧ t_up (gh' x) = t_up (gh x) ∧ t_got (gh' x) = t_got (gh x) ∧
    t_result (gh' x) = t_result (gh x) ∧ t_flag (gh' x) = t_flag (gh x) ∧ t_wo (gh' x) = t_wo (gh x) ∧
    t_owed (gh' x) = t_owed (gh x) ∧ t_active (gh' x) = t_active (gh x)) as Hg
    by (intros x; subst gh'; moved x p; auto 10).
  assert (∀ x, contributed gh' x ↔ contributed gh x) as Hcon.
  { intros x. unfold contributed. destruct (Hg x) as (-> & -> & _), (Hg 0) as (-> & _). done. }
  split; [split|split; [|split]].
  - intros c Hc. pose proof (ti_edge _ _ _ _ _ Ht c Hc) as He. unfold TermSpec.edge in *.
    destruct (Hg c) as (-> & -> & _ & _), (Hg (par c)) as (-> & _ & -> & -> & _).
    destruct (decide (c = dst)) as [->|Hcd].
    + rewrite Hpar in *. rewrite HT, HD, HU'. subst gh'. rewrite fn_lookup_insert. simpl.
      rewrite Hdn. simpl. do 4 right. auto 10.
    + rewrite (HTo c (par c)) by (intros [= -> ?]; pose proof (par_lt dst Hdr); pose proof (par_lt p); lia).
      rewrite (HTo (par c) c) by congruence. subst gh'. destruct (decide (par c = p)) as [Hcp|]; [|by rewrite fn_lookup_insert_ne].
      rewrite Hcp in *. rewrite fn_lookup_insert. simpl. rewrite Hdn in *. simpl.
      assert (c ∈ dst :: rest ↔ c ∈ rest) as Hin by (rewrite elem_of_cons; naive_solver).
      by rewrite <-Hin.
  - intros x Hx. destruct (Hg x) as (_ & -> & -> & _). by apply (ti_up _ _ _ _ _ Ht).
  - intros x Hx. subst gh'. moved x p; [|by apply (ti_down _ _ _ _ _ Ht)]. simpl. rewrite Hdn. simpl.
    split; [done|]. intros c Hc. apply Hsub. by right.
  - intros x c Hx. destruct (Hg x) as (_ & _ & -> & _). by apply (ti_got _ _ _ _ _ Ht).
  - intros x Hx. destruct (Hg x) as (_ & _ & _ & -> & -> & _). by apply (ti_bits _ _ _ _ _ Ht).
  - intros x Hx. destruct (Hg x) as (-> & _ & _ & -> & _), (Hg 0) as (-> & _ & _ & -> & _).
    by apply (ti_res _ _ _ _ _ Ht).
  - intros a b. destruct (decide ((a, b) = (p, dst))) as [[= -> ->]|Hne]; [by right|].
    rewrite HTo by done. apply (ti_other _ _ _ _ _ Ht).
  - intros x Hx. destruct (Hg x) as (_ & -> & _ & -> & _). by apply (ti_done _ _ _ _ _ Ht).
  - eapply work_inv_ext; [done| |done|done]. intros x. by destruct (Hg x) as (_ & _ & _ & _ & _ & -> & -> & _).
  - intros x Hx Hc Ha. rewrite Hcon in Hc. destruct (Hg x) as (_ & _ & _ & _ & _ & Hwx & _ & Hax).
    rewrite Hwx, Hax in Ha.
    destruct (Hs x Hx Hc Ha) as [(y & Hy & Hcy & Hv)|(c & Hcr & Hv)].
    + left. exists y. rewrite Hcon. destruct (Hg y) as (_ & _ & _ & _ & -> & -> & _). auto.
    + right. exists c. split; [done|]. rewrite HTo; [done|].
      intros [= -> ?]. pose proof (par_lt dst Hdr). pose proof (par_lt p). lia.
  - intros Hr x Hx. destruct (Hg 0) as (_ & _ & _ & Hr0 & _). rewrite Hr0 in Hr.
    destruct (Hg x) as (_ & _ & _ & _ & _ & -> & _ & ->). by apply Hf.
Qed.

(** The decision of the root.  With the value 1 nobody is doomed, so nobody
    who has contributed has work or waits for a receipt. *)
Lemma decide_not_doomed gh T :
  tree_inv gh T → t_got (gh 0) = all_children 0 → t_flag (gh 0) = 1 → t_wo (gh 0) = 0 →
  t_up (gh 0) = false → doomed gh T → False.
Proof.
  intros Ht Hgot Hfl Hwo Hup [(y & Hy & Hc & Hv)|(c & Hc & Hv)].
  - destruct (all_contributed _ _ y Ht Hgot Hy) as [Hi Hu].
    destruct (decide (0 < y)) as [Hpos|].
    + apply Hc. split; [by apply Hu|done].
    + assert (y = 0) as -> by (unfold Network.is_rank in Hy; lia). destruct Hv; lia.
  - destruct (all_contributed _ _ c Ht Hgot) as [_ Hu]; [unfold Network.is_rank; lia|].
    destruct Hu as [_ Hu]; [lia|]. by rewrite Hu in Hv.
Qed.

Lemma step_decide gh T T' R R' Q Q' dst rest m :
  inv gh T R Q → chs 0 = dst :: rest → may_contribute chs 0 (gh 0) m →
  T' 0 dst = T 0 dst ++ [m] → (∀ a b, (a, b) ≠ (0, dst) → T' a b = T a b) →
  (∀ a b, R' a b = R a b) → (∀ a b, Q' a b = Q a b) →
  inv (<[0 := decide_g chs 0 (gh 0)]> gh) T' R' Q'.
Proof.
  intros (Ht & Hw & Hs & Hf) Hchs (-> & Hup & Hgot & Hdown & Howed & Hwo & Hres) HT HTo HR HQ.
  pose proof is_rank_0 as H0. pose proof (ti_bits _ _ _ _ _ Ht 0 H0) as [Hb _].
  assert (∀ c, c ∈ chs 0 ↔ c = dst ∨ c ∈ rest) as Hin
    by (intros c; by rewrite Hchs, elem_of_cons).
  pose proof (chs_nodup 0) as Hnd. rewrite Hchs in Hnd. apply NoDup_cons in Hnd as [Hdr Hnd].
  set (gh' := <[0 := decide_g chs 0 (gh 0)]> gh).
  assert (∀ x, is_rank x → x ≠ 0 → t_it (gh x) = t_it (gh 0) ∧ t_up (gh x) = true) as Hall.
  { intros x Hx Hne. destruct (all_contributed _ _ x Ht Hgot Hx) as [Hi Hu].
    split; [done|]. apply Hu. unfold Network.is_rank in Hx. lia. }
  assert (∀ x, is_rank x → contributed gh' x → False) as Hnc.
  { intros x Hx [Hux Hix]. subst gh'. rewrite fn_lookup_insert in Hix. simpl in Hix.
    moved x 0; [done|]. destruct (Hall x) as [Hi _]; [done..|]. lia. }
  split; [split|split; [|split]].
  - intros c Hc. pose proof (ti_edge _ _ _ _ _ Ht c Hc) as He.
    destruct (decide (par c = 0)) as [Hpc|Hpc].
    + assert (c ∈ chs 0) as Hcc by (by apply chs_spec).
      assert (c ∈ t_got (gh 0)) as Hg by (rewrite Hgot; by apply elem_of_all_children).
      unfold TermSpec.edge in *. rewrite Hpc in *. subst gh'.
      rewrite fn_lookup_insert, fn_lookup_insert_ne by lia. simpl. rewrite Hchs. simpl.
      assert (t_it (gh c) = t_it (gh 0) ∧ t_up (gh c) = true ∧ T c 0 = [] ∧ T 0 c = []) as (Hi & Hu & HU & HD).
      { destruct He as [?|[(?&?)|[?|[?|?]]]]; naive_solver. }
      rewrite (HTo c 0), HU by (intros [= ? ?]; lia). do 3 right.
      destruct (decide (c = dst)) as [->|Hcd].
      * right. rewrite HT, HD. split; [lia|]. split; [done|]. set_solver.
      * left. rewrite HTo, HD by congruence. apply Hin in Hcc as [?|?]; [done|].
        split; [lia|]. split; [done|]. set_solver.
    + assert (dst ∈ chs 0) as [Hdrk Hdp]%chs_spec by (apply Hin; by left).
      apply edge_other with T; [done|lia|done|apply HTo; intros [= ? ?]; lia|].
      apply HTo. by intros [= ? ?].
  - intros x Hx. subst gh'. moved x 0; [done|]. by apply (ti_up _ _ _ _ _ Ht).
  - intros x Hx. subst gh'. moved x 0; [|by apply (ti_down _ _ _ _ _ Ht)]. simpl. rewrite Hchs. simpl.
    split; [done|]. intros c Hc. by right.
  - intros x c Hx. subst gh'. moved x 0; [simpl; set_solver|]. by apply (ti_got _ _ _ _ _ Ht).
  - intros x Hx. subst gh'. moved x 0; [split; [by right|done]|]. by apply (ti_bits _ _ _ _ _ Ht).
  - intros x Hx. subst gh'. rewrite fn_lookup_insert. moved x 0; [done|]. simpl.
    destruct (Hall x) as [-> _]; [done..|]. lia.
  - intros a b. destruct (decide ((a, b) = (0, dst))) as [[= -> ->]|Hne].
    + intros _. right. assert (dst ∈ chs 0) as [Hdrk Hdp]%chs_spec by (apply Hin; by left). done.
    + rewrite HTo by done. apply (ti_other _ _ _ _ _ Ht).
  - intros x Hx. subst gh'. moved x 0; [done|]. by apply (ti_done _ _ _ _ _ Ht).
  - eapply work_inv_ext; [done| |done|done]. intros x. subst gh'. by moved x 0.
  - intros x Hx Hc _. by destruct (Hnc x).
  - intros Hr x Hx. subst gh'. rewrite fn_lookup_insert in Hr. simpl in Hr.
    moved x 0; [done|]. destruct (Hall x) as [Hi Hu]; [done..|].
    assert (¬ (t_active (gh x) = true ∨ 0 < t_wo (gh x))) as Hn.
    { intros Ha. by apply (decide_not_doomed gh T), (Hs x Hx). }
    pose proof (wi_count _ _ _ _ Hw x Hx) as Hcount.
    pose proof (sum_ge (transfers gh R Q x) x Hx (transfers_nonneg gh R Q x)).
    pose proof (transfers_nonneg gh R Q x x). destruct (t_active (gh x)); [tauto|]. split; [done|lia].
Qed.

(** ** Receiving the messages of the allreduce *)

Lemma land_bits a b : is_bit a → is_bit b → is_bit (Z.land a b).
Proof. unfold is_bit. intros Ha Hb. destruct Ha, Hb; subst; cbn; auto. Qed.

(** A message from a child is its contribution. *)
Lemma recv_child_msg gh T p c m l :
  tree_inv gh T → 0 < c < n → par c = p → t_up (gh p) = false → T c p = m :: l →
  ∃ v, m = Ints [v] ∧ is_bit v ∧ l = [] ∧ c ∉ t_got (gh p) ∧ c ∉ t_down (gh p) ∧
    t_it (gh c) = t_it (gh p) ∧ t_up (gh c) = true ∧ T p c = [].
Proof.
  intros Ht Hc Hp Hup HT. pose proof (ti_edge _ _ _ _ _ Ht c Hc) as He.
  unfold TermSpec.edge in He. rewrite Hp, HT in He.
  destruct He as [?|[(v&?)|[?|[?|?]]]]; try naive_solver.
Qed.

Lemma step_recv_child gh T T' R R' Q Q' p c v :
  is_rank p → inv gh T R Q → 0 < c < n → par c = p → t_up (gh p) = false →
  T c p = [Ints [v]] → T' c p = [] → (∀ a b, (a, b) ≠ (c, p) → T' a b = T a b) →
  (∀ a b, R' a b = R a b) → (∀ a b, Q' a b = Q a b) →
  inv (<[p := recv_child_g c v (gh p)]> gh) T' R' Q'.
Proof.
  intros Hpr (Ht & Hw & Hs & Hf) Hc Hpar Hup HT HT' HTo HR HQ.
  destruct (recv_child_msg _ _ _ _ _ _ Ht Hc Hpar Hup HT)
    as (v' & [= <-] & Hv & _ & Hng & Hnd & Hit & Huc & HD).
  pose proof (par_ne c Hc) as Hcp. rewrite Hpar in Hcp.
  pose proof (ti_bits _ _ _ _ _ Ht p Hpr) as [Hb _].
  set (gh' := <[p := recv_child_g c v (gh p)]> gh).
  assert (∀ x, t_it (gh' x) = t_it (gh x) ∧ t_up (gh' x) = t_up (gh x) ∧ t_down (gh' x) = t_down (gh x) ∧
    t_result (gh' x) = t_result (gh x) ∧ t_wo (gh' x) = t_wo (gh x) ∧
    t_owed (gh' x) = t_owed (gh x) ∧ t_active (gh' x) = t_active (gh x)) as Hg
    by (intros x; subst gh'; moved x p; auto 10).
  assert (∀ x, contributed gh' x ↔ contributed gh x) as Hcon.
  { intros x. unfold contributed. destruct (Hg x) as (-> & -> & _), (Hg 0) as (-> & _). done. }
  split; [split|split; [|split]].
  - intros d Hd. pose proof (ti_edge _ _ _ _ _ Ht d Hd) as He. unfold TermSpec.edge in *.
    destruct (Hg d) as (-> & -> & _), (Hg (par d)) as (-> & _ & -> & -> & _).
    destruct (decide (d = c)) as [->|Hdc].
    + rewrite Hpar in *. rewrite HT', (HTo p c), HD by congruence. subst gh'. rewrite fn_lookup_insert. simpl.
      right; right; left. do 4 (split; [done|]). set_solver.
    + rewrite (HTo d (par d)) by congruence.
      rewrite (HTo (par d) d) by (intros [= ? ?]; pose proof (par_lt d Hd); pose proof (par_lt c Hc); lia).
      subst gh'. destruct (decide (par d = p)) as [Hdp|]; [|by rewrite fn_lookup_insert_ne].
      rewrite Hdp in *. rewrite fn_lookup_insert. simpl.
      assert (d ∈ {[c]} ∪ t_got (gh p) ↔ d ∈ t_got (gh p)) as -> by set_solver. done.
  - intros x Hx. destruct (Hg x) as (_ & -> & _). subst gh'. moved x p; [congruence|].
    by apply (ti_up _ _ _ _ _ Ht).
  - intros x Hx. destruct (Hg x) as (_ & _ & -> & _). by apply (ti_down _ _ _ _ _ Ht).
  - intros x d Hx. subst gh'. moved x p; [|by apply (ti_got _ _ _ _ _ Ht)]. simpl.
    rewrite elem_of_union, elem_of_singleton. intros [->|Hd]; [by apply chs_spec|].
    by apply (ti_got _ _ _ _ _ Ht).
  - intros x Hx. destruct (Hg x) as (_ & _ & _ & -> & _). subst gh'.
    moved x p; [|by apply (ti_bits _ _ _ _ _ Ht)].
    split; [by apply land_bits|]. by apply (ti_bits _ _ _ _ _ Ht).
  - intros x Hx. destruct (Hg x) as (-> & _ & _ & -> & _), (Hg 0) as (-> & _ & _ & -> & _).
    by apply (ti_res _ _ _ _ _ Ht).
  - intros a b. destruct (decide ((a, b) = (c, p))) as [[= -> ->]|Hne]; [by rewrite HT'|].
    rewrite HTo by done. apply (ti_other _ _ _ _ _ Ht).
  - intros x Hx. destruct (Hg x) as (_ & -> & _ & -> & _). by apply (ti_done _ _ _ _ _ Ht).
  - eapply work_inv_ext; [done| |done|done]. intros x. by destruct (Hg x) as (_ & _ & _ & _ & -> & -> & _).
  - intros x Hx Hcx Ha. rewrite Hcon in Hcx. destruct (Hg x) as (_ & _ & _ & _ & Hwx & _ & Hax).
    rewrite Hwx, Hax in Ha.
    destruct (Hs x Hx Hcx Ha) as [(y & Hy & Hcy & Hvy)|(d & Hd & Hvd)].
    + left. exists y. rewrite Hcon. destruct (Hg y) as (_ & _ & _ & _ & -> & _). split; [done|].
      split; [done|]. subst gh'. moved y p; [|done]. simpl.
      destruct Hvy as [-> |]; [by left|by right].
    + destruct (decide (d = c)) as [->|Hdc].
      * left. exists p. rewrite Hpar, HT in Hvd. injection Hvd as ->.
        split; [done|]. split; [rewrite Hcon; intros [? _]; congruence|].
        left. subst gh'. rewrite fn_lookup_insert. simpl. by rewrite Z.land_0_r.
      * right. exists d. split; [done|]. by rewrite HTo by congruence.
  - intros Hr x Hx. destruct (Hg 0) as (_ & _ & _ & Hr0 & _). rewrite Hr0 in Hr.
    destruct (Hg x) as (_ & _ & _ & _ & -> & _ & ->). by apply Hf.
Qed.

Lemma recv_parent_msg gh T p m l :
  tree_inv gh T → 0 < p < n → t_up (gh p) = true → T (par p) p = m :: l →
  m = Ints [t_result (gh (par p))] ∧ l = [] ∧ S (t_it (gh p)) = t_it (gh (par p)) ∧
  T p (par p) = [] ∧ p ∉ t_got (gh (par p)) ∧ p ∉ t_down (gh (par p)).
Proof.
  intros Ht Hp Hup HT. pose proof (ti_edge _ _ _ _ _ Ht p Hp) as He.
  unfold TermSpec.edge in He. rewrite HT in He.
  destruct He as [?|[(v&?)|[?|[?|?]]]]; naive_solver.
Qed.

(** Who receives a result was the last to know of it. *)
Lemma recv_parent_it gh T p :
  tree_inv gh T → 0 < p < n → S (t_it (gh p)) = t_it (gh (par p)) →
  t_it (gh (par p)) = t_it (gh 0) ∧ t_result (gh (par p)) = t_result (gh 0).
Proof.
  intros Ht Hp Hit. assert (is_rank p) as Hpr by (unfold Network.is_rank; lia).
  assert (t_it (gh (par p)) = t_it (gh 0)) as Hi.
  { destruct (it_near _ _ p Ht Hpr) as [?|[? _]]; [|lia].
    destruct (it_near _ _ (par p) Ht (is_rank_par p Hp)) as [?|[? _]]; lia. }
  split; [done|]. by apply (ti_res _ _ _ _ _ Ht); [apply is_rank_par|].
Qed.

Lemma step_recv_parent gh T T' R R' Q Q' p :
  0 < p < n → inv gh T R Q → t_up (gh p) = true → t_down (gh p) = [] →
  T (par p) p = [Ints [t_result (gh (par p))]] →
  T' (par p) p = [] → (∀ a b, (a, b) ≠ (par p, p) → T' a b = T a b) →
  (∀ a b, R' a b = R a b) → (∀ a b, Q' a b = Q a b) →
  inv (<[p := recv_parent_g chs p (t_result (gh (par p))) (gh p)]> gh) T' R' Q'.
Proof.
  intros Hp (Ht & Hw & Hs & Hf) Hup Hdown HT HT' HTo HR HQ.
  assert (is_rank p) as Hpr by (unfold Network.is_rank; lia).
  destruct (recv_parent_msg _ _ _ _ _ Ht Hp Hup HT) as (_ & _ & Hit & HU & Hng & Hnd).
  destruct (recv_parent_it _ _ _ Ht Hp Hit) as [Hi0 Hr0].
  destruct (ti_up _ _ _ _ _ Ht p Hpr Hup) as [_ Hgot].
  pose proof (par_ne p Hp) as Hpp. pose proof (ti_bits _ _ _ _ _ Ht p Hpr) as [Hb _].
  set (g' := recv_parent_g chs p (t_result (gh (par p))) (gh p)).
  set (gh' := <[p := g']> gh).
  assert (gh' 0 = gh 0) as H0 by (subst gh'; apply fn_lookup_insert_ne; lia).
  assert (∀ x, contributed gh' x ↔ contributed gh x) as Hcon.
  { intros x. unfold contributed. rewrite H0. subst gh'. moved x p; [|done]. simpl.
    split; [by intros [? _]|]. intros [_ ?]. lia. }
  assert (∀ x, t_flag (gh' x) = t_flag (gh x) ∧ t_wo (gh' x) = t_wo (gh x) ∧
    t_owed (gh' x) = t_owed (gh x) ∧ t_active (gh' x) = t_active (gh x)) as Hg
    by (intros x; subst gh'; by moved x p).
  split; [split|split; [|split]].
  - intros c Hc. pose proof (ti_edge _ _ _ _ _ Ht c Hc) as He.
    destruct (decide (c = p)) as [->|Hcp].
    + unfold TermSpec.edge. subst gh'. rewrite fn_lookup_insert, fn_lookup_insert_ne by done.
      rewrite HT', (HTo p (par p)), HU by congruence. left. simpl. auto 10.
    + assert (T' c (par c) = T c (par c)) as HTc.
      { apply HTo. intros [= -> Hcp']. pose proof (par_lt p Hp). pose proof (par_lt (par p) Hc).
        rewrite Hcp' in *. lia. }
      assert (T' (par c) c = T (par c) c) as HTd by (apply HTo; congruence).
      destruct (decide (par c = p)) as [Hpc|]; [|by apply edge_other with T].
      unfold TermSpec.edge in *. rewrite Hpc in *. subst gh'.
      rewrite fn_lookup_insert, fn_lookup_insert_ne by done. simpl. rewrite HTc, HTd.
      assert (c ∈ t_got (gh p)) as Hcg by (rewrite Hgot; by apply elem_of_all_children).
      assert (c ∈ chs p) as Hcc by (by apply chs_spec).
      destruct He as [?|[(v&?)|[He|[?|?]]]]; [naive_solver|naive_solver| |naive_solver|naive_solver].
      destruct He as (Hi & Hu & HTU & HTD & _ & _). do 3 right. left.
      split; [lia|]. split; [done|]. split; [done|]. split; [done|]. set_solver.
  - intros x Hx. subst gh'. moved x p; [done|]. by apply (ti_up _ _ _ _ _ Ht).
  - intros x Hx. subst gh'. moved x p; [|by apply (ti_down _ _ _ _ _ Ht)].
    simpl. split; [apply chs_nodup|done].
  - intros x c Hx. subst gh'. moved x p; [simpl; set_solver|]. by apply (ti_got _ _ _ _ _ Ht).
  - intros x Hx. destruct (Hg x) as (-> & _). subst gh'. moved x p; [|by apply (ti_bits _ _ _ _ _ Ht)].
    split; [done|]. simpl. by apply (ti_bits _ _ _ _ _ Ht), is_rank_par.
  - intros x Hx. rewrite H0. subst gh'. moved x p; [done|]. by apply (ti_res _ _ _ _ _ Ht).
  - intros a b. destruct (decide ((a, b) = (par p, p))) as [[= -> ->]|Hne]; [by rewrite HT'|].
    rewrite HTo by done. apply (ti_other _ _ _ _ _ Ht).
  - intros x Hx. subst gh'. moved x p; [done|]. by apply (ti_done _ _ _ _ _ Ht).
  - eapply work_inv_ext; [done| |done|done]. intros x. by destruct (Hg x) as (_ & -> & -> & _).
  - intros x Hx Hcx Ha. rewrite Hcon in Hcx. destruct (Hg x) as (_ & Hwx & _ & Hax). rewrite Hwx, Hax in Ha.
    destruct (Hs x Hx Hcx Ha) as [(y & Hy & Hcy & Hvy)|(d & Hd & Hvd)].
    + left. exists y. rewrite Hcon. by destruct (Hg y) as (-> & -> & _).
    + right. exists d. split; [done|].
      destruct (decide ((d, par d) = (par p, p))) as [[= -> Hdp]|Hne]; [|by rewrite HTo].
      pose proof (par_lt p Hp). pose proof (par_lt (par p) Hd). rewrite Hdp in *. lia.
  - intros Hr x Hx. rewrite H0 in Hr. destruct (Hg x) as (_ & -> & _ & ->). by apply Hf.
Qed.

(** ** Every answer of the network *)

Lemma inv_ext gh gh' T T' R R' Q Q' :
  inv gh T R Q → (∀ x, gh' x = gh x) → (∀ a b, T' a b = T a b) → (∀ a b, R' a b = R a b) →
  (∀ a b, Q' a b = Q a b) → inv gh' T' R' Q'.
Proof.
  intros (Ht & Hw & Hs & Hf) Hg HT HR HQ.
  assert (∀ x, same_tree (gh x) (gh' x)) as Hsame by (intros x; rewrite Hg; unfold same_tree; auto 10).
  split; [|split; [|split]].
  - eapply tree_inv_ext; [done|done| |done]. intros x Hx. rewrite Hg. by apply (ti_bits _ _ _ _ _ Ht).
  - eapply work_inv_ext; [done| |done|done]. intros x. by rewrite Hg.
  - intros x Hx Hc Ha. rewrite (contributed_ext gh) in Hc by done. rewrite Hg in Ha.
    apply (doomed_ext gh _ T); [done|done|intros y _ _; by rewrite Hg|]. by apply (Hs x).
  - intros Hr x Hx. rewrite Hg in *. by apply Hf.
Qed.

Abbreviation term_inv := (term_inv n par chs).

(** A message that is none of the three kinds. *)
Lemma neutral_msg gh ch p a b tag l :
  term_inv gh ch → tag ≠ CIRCLE_TAG_TERM → tag ≠ CIRCLE_TAG_WORK_REPLY →
  tag ≠ CIRCLE_TAG_WORK_RECEIPT → term_inv (<[p := gh p]> gh) (<[(a, b, tag) := l]> ch).
Proof.
  intros Hi H1 H2 H3. eapply inv_ext; [exact Hi|apply insert_same| | |];
    intros x y; by eapply other_tag.
Qed.

Lemma neutral_same gh ch p : term_inv gh ch → term_inv (<[p := gh p]> gh) ch.
Proof. intros Hi. eapply inv_ext; [exact Hi|apply insert_same|done..]. Qed.

Lemma term_send_step gh ch p dst m g' :
  is_rank p → term_inv gh ch → term_send par chs p (gh p) dst m g' →
  term_inv (<[p := g']> gh)
    (<[(p, dst, CIRCLE_TAG_TERM) := ch (p, dst, CIRCLE_TAG_TERM) ++ [m]]> ch).
Proof.
  intros Hp Hi Hs. destruct Hs as [Hpos -> Hm|rest Hd ->|rest -> Hc Hm].
  - eapply step_up; [unfold Network.is_rank in Hp; lia|exact Hi|exact Hm|apply fn_lookup_insert|..];
      intros; first [by apply other_ends|by eapply other_tag].
  - eapply step_down; [done|exact Hi|exact Hd|apply fn_lookup_insert|..];
      intros; first [by apply other_ends|by eapply other_tag].
  - eapply step_decide; [exact Hi|exact Hc|exact Hm|apply fn_lookup_insert|..];
      intros; first [by apply other_ends|by eapply other_tag].
Qed.

Lemma reply_step gh ch p dst m :
  is_rank p → term_inv gh ch → m ≠ Ints [] → (work_header m = true → t_active (gh p) = true) →
  term_inv (<[p := if work_header m then send_work_g (gh p) else gh p]> gh)
    (<[(p, dst, CIRCLE_TAG_WORK_REPLY) := ch (p, dst, CIRCLE_TAG_WORK_REPLY) ++ [m]]> ch).
Proof.
  intros Hp Hi Hm Hact. destruct (work_header m) eqn:Hh.
  - eapply step_send_work; [done|exact Hi|by apply Hact|exact Hm|apply fn_lookup_insert| | | |done];
      intros; first [by apply other_ends|by eapply other_tag].
  - eapply inv_ext; [|apply insert_same|done..].
    eapply (step_reply gh _ _ _ _ _ _ p dst); [exact Hi|intros; by eapply other_tag..| | |].
    + intros; by apply other_ends.
    + rewrite fn_lookup_insert, list.filter_app, list.filter_cons_False by congruence.
      by rewrite app_nil_r.
    + intros x. rewrite fn_lookup_insert, elem_of_app, list_elem_of_singleton. intros [Hx| ->]; [|done].
      destruct Hi as (_ & Hw & _). by apply (wi_reply _ _ _ _ Hw p dst).
Qed.

Lemma receipt_step gh ch p dst m rest :
  is_rank p → term_inv gh ch → t_owed (gh p) = dst :: rest →
  term_inv (<[p := send_receipt_g (gh p)]> gh)
    (<[(p, dst, CIRCLE_TAG_WORK_RECEIPT) := ch (p, dst, CIRCLE_TAG_WORK_RECEIPT) ++ [m]]> ch).
Proof.
  intros Hp Hi Ho. eapply step_send_receipt; [done|exact Hi|exact Ho|apply fn_lookup_insert|..];
    intros; first [by apply other_ends|by eapply other_tag].
Qed.

Lemma recv_reply_step gh ch p src m l :
  is_rank p → is_rank src → term_inv gh ch → ch (src, p, CIRCLE_TAG_WORK_REPLY) = m :: l →
  m ≠ Ints [] ∧ (t_result (gh p) = 1 → work_header m = false) ∧
  term_inv (<[p := if work_header m then recv_work_g src (gh p) else gh p]> gh)
    (<[(src, p, CIRCLE_TAG_WORK_REPLY) := l]> ch).
Proof.
  intros Hp Hsrc Hi Hch. pose proof Hi as (Ht & Hw & _ & Hf).
  assert (∀ x, x ∈ m :: l → x ≠ Ints []) as Hr.
  { intros x Hx. apply (wi_reply _ _ _ _ Hw src p). by rewrite Hch. }
  split; [apply Hr; by left|]. split.
  { intros Hres. eapply (no_transfer gh (λ a b, ch (a, b, CIRCLE_TAG_WORK_REPLY)) _ src p);
      [exact Hw|done|done| |rewrite Hch; by left].
    by apply (told_finished gh _ p Ht Hf Hp Hres). }
  destruct (work_header m) eqn:Hh.
  - eapply step_recv_work; [done|exact Hi|exact Hch|apply fn_lookup_insert| | | |done|done];
      intros; first [by apply other_ends|by eapply other_tag].
  - eapply inv_ext; [|apply insert_same|done..].
    eapply (step_reply gh _ _ _ _ _ _ src p); [exact Hi|intros; by eapply other_tag..| | |].
    + intros; by apply other_ends.
    + rewrite fn_lookup_insert, Hch. by rewrite list.filter_cons_False by congruence.
    + intros x. rewrite fn_lookup_insert. intros Hx. apply Hr. by right.
Qed.

Lemma recv_receipt_step gh ch p src m l :
  is_rank p → is_rank src → term_inv gh ch → ch (src, p, CIRCLE_TAG_WORK_RECEIPT) = m :: l →
  term_inv (<[p := recv_receipt_g (gh p)]> gh) (<[(src, p, CIRCLE_TAG_WORK_RECEIPT) := l]> ch).
Proof.
  intros Hp Hsrc Hi Hch.
  eapply (step_recv_receipt gh _ _ _ _ _ _ src p);
    [done|done|exact Hi|exact Hch|apply fn_lookup_insert|..];
    intros; first [by apply other_ends|by eapply other_tag].
Qed.

Lemma recv_term_step gh ch p src m l :
  is_rank p → term_inv gh ch → ch (src, p, CIRCLE_TAG_TERM) = m :: l → t_down (gh p) = [] →
  0 < p ∧ src = par p ∧ t_up (gh p) = true ∨ src ∈ chs p ∧ t_up (gh p) = false →
  ∃ v g', m = Ints [v] ∧ is_bit v ∧
    g' = (if t_up (gh p) then recv_parent_g chs p v (gh p) else recv_child_g src v (gh p)) ∧
    (t_up (gh p) = false → src ∉ t_got (gh p)) ∧
    term_inv (<[p := g']> gh) (<[(src, p, CIRCLE_TAG_TERM) := l]> ch).
Proof.
  intros Hp Hi Hch Hd [(Hpos & -> & Hup)|[Hsrc Hup]]; pose proof Hi as (Ht & _); rewrite Hup.
  - assert (0 < p < n) as Hpn by (unfold Network.is_rank in Hp; lia).
    destruct (recv_parent_msg _ _ _ _ _ Ht Hpn Hup Hch) as (-> & -> & _).
    exists (t_result (gh (par p))). eexists. split; [done|].
    split; [apply (ti_bits _ _ _ _ _ Ht), is_rank_par; lia|]. split; [done|]. split; [done|].
    eapply step_recv_parent; [done|exact Hi|done|done|exact Hch|apply fn_lookup_insert|..];
      intros; first [by apply other_ends|by eapply other_tag].
  - apply chs_spec in Hsrc as [Hs Hpar].
    destruct (recv_child_msg _ _ _ _ _ _ Ht Hs Hpar Hup Hch) as (v & -> & Hv & -> & Hg & _).
    exists v. eexists. split; [done|]. split; [done|]. split; [done|]. split; [done|].
    eapply step_recv_child; [done|exact Hi|exact Hs|done|done|exact Hch|apply fn_lookup_insert|..];
      intros; first [by apply other_ends|by eapply other_tag].
Qed.

(** Only children have sent to a process that has yet to contribute. *)
Lemma probe_term_child gh ch p s m l :
  is_rank p → term_inv gh ch → ch (s, p, CIRCLE_TAG_TERM) = m :: l → t_up (gh p) = false → s ∈ chs p.
Proof.
  intros Hp (Ht & _) Hch Hup.
  destruct (ti_other _ _ _ _ _ Ht s p) as [[Hs ->]|[Hpp ->]]; [congruence|by apply chs_spec|].
  destruct (edge_not_up _ _ _ Ht Hpp Hup) as (_ & _ & HD & _). congruence.
Qed.

(** Whatever the network answers to an allowed call is an answer the
    protocol promises, and keeps the invariant. *)
Theorem term_inv_step gh ch p o r ch' :
  is_rank p → term_inv gh ch → term_pre par chs p (gh p) o → net_answer n p ch o r ch' →
  ∃ g', term_post n par chs p (gh p) o r g' ∧ term_inv (<[p := g']> gh) ch'.
Proof.
  intros Hp Hi Hpre Ha.
  assert (∀ ch0, ch0 = ch → ∃ g', g' = gh p ∧ term_inv (<[p := g']> gh) ch0) as Hid.
  { intros ch0 ->. exists (gh p). split; [done|]. by apply neutral_same. }
  destruct o; try (by apply Hid); cbn in Hpre, Ha |- *.
  - destruct Ha as [-> _]. by apply Hid.
  - (* OIprobe *)
    destruct Ha as [-> Hr]. exists (gh p). split; [|by apply neutral_same].
    split; [done|]. intros Htag Hup s c ->. destruct Hr as (_ & _ & m & l & Hch & _).
    apply Z.eqb_eq in Htag. subst tag. by eapply probe_term_child.
  - (* ORecv *)
    destruct Ha as (Hsrc & l & Hch & ->).
    destruct (Z.eqb_spec tag CIRCLE_TAG_TERM) as [->|H1].
    { destruct Hpre as (Hd & _ & Hpre).
      destruct (recv_term_step _ _ _ _ _ _ Hp Hi Hch Hd Hpre) as (v & g' & -> & Hv & Hg & Hn & Hi').
      exists g'. split; [|done]. by exists v. }
    destruct (Z.eqb_spec tag CIRCLE_TAG_WORK_REPLY) as [->|H2].
    { destruct (recv_reply_step _ _ _ _ _ _ Hp Hsrc Hi Hch) as (Hm & Hh & Hi'). eexists. split; [|exact Hi']. done. }
    destruct (Z.eqb_spec tag CIRCLE_TAG_WORK_RECEIPT) as [->|H3].
    { eexists. split; [reflexivity|]. by eapply recv_receipt_step. }
    eexists. split; [reflexivity|]. by apply neutral_msg.
  - (* OSend *)
    subst ch'. destruct (Z.eqb_spec tag CIRCLE_TAG_TERM) as [->|H1].
    { destruct Hpre as [g' Hs]. exists g'. split; [done|]. by apply term_send_step. }
    apply orb_false_iff in Hpre as [H2%Z.eqb_neq H3%Z.eqb_neq].
    eexists. split; [reflexivity|]. by apply neutral_msg.
  - (* OIsend *)
    subst ch'. destruct (Z.eqb_spec tag CIRCLE_TAG_WORK_REPLY) as [->|H2].
    { eexists. split; [reflexivity|]. destruct Hpre. by apply reply_step. }
    destruct (Z.eqb_spec tag CIRCLE_TAG_WORK_RECEIPT) as [->|H3].
    { eexists. split; [reflexivity|]. destruct Hpre as [rest Ho]. by eapply receipt_step. }
    apply Z.eqb_neq in Hpre. eexists. split; [reflexivity|]. by apply neutral_msg.
  - (* OIssend *)
    subst ch'. apply orb_false_iff in Hpre as [[H2 H3]%orb_false_iff H1].
    apply Z.eqb_neq in H1, H2, H3. eexists. split; [reflexivity|]. by apply neutral_msg.
  - destruct Ha as [-> ->]. destruct (Hid ch eq_refl) as (g' & ? & ?). by exists g'.
  - destruct Ha as [-> ->]. destruct (Hid ch eq_refl) as (g' & ? & ?). by exists g'.
  - subst ch'. eexists. split; [reflexivity|]. by apply neutral_msg.
Qed.
End inv.
