(* ===== verification/WaitSpec.v ===== *)
(** * Why receives never deadlock

    The code of libcircle receives a message in three situations: MPI_Iprobe
    has just seen it; it is the text that follows the header of a transfer; or
    it is part of the final allreduce of the abort flags.  This file states
    that as a protocol and shows that ranks which keep to it never wait in
    MPI_Recv for each other in a circle.  It is about the states of a job, and
    assumes nothing about when sends complete. *)
From S2P Require Import Prelude CMonad Wire Tree Mpi Network Ranks TermSpec.

(** What a rank knows: a message it has seen and not taken; the rank whose
    text it needs; the rank it owes a text; the children whose flag it needs,
    whether it has passed its own on and has been told the result, and the
    children it has to tell. *)
Record pg : Type := PG {
  g_seen : option (Z * Z);
  g_due : option Z;
  g_owes : option Z;
  g_todo : list Z;
  g_up : bool;
  g_told : bool;
  g_down : list Z;
}.

Definition see (s : option (Z * Z)) (g : pg) : pg :=
  PG s (g_due g) (g_owes g) (g_todo g) (g_up g) (g_told g) (g_down g).
Definition need (s : option Z) (g : pg) : pg :=
  PG None s (g_owes g) (g_todo g) (g_up g) (g_told g) (g_down g).
Definition owe (d : option Z) (g : pg) : pg :=
  PG (g_seen g) (g_due g) d (g_todo g) (g_up g) (g_told g) (g_down g).
Definition heard (g : pg) : pg :=
  PG None (g_due g) (g_owes g) (tail (g_todo g)) (g_up g) (g_told g) (g_down g).
Definition reported_up (g : pg) : pg :=
  PG (g_seen g) (g_due g) (g_owes g) (g_todo g) true (g_told g) (g_down g).
Definition learnt (g : pg) : pg :=
  PG None (g_due g) (g_owes g) (g_todo g) (g_up g) true (g_down g).
Definition told_one (g : pg) : pg :=
  PG (g_seen g) (g_due g) (g_owes g) (g_todo g) (g_up g) (g_told g) (tail (g_down g)).

Lemma receive_or_not o : (∃ src tag k, o = ORecv src tag k) ∨ ∀ src tag k, o ≠ ORecv src tag k.
Proof. destruct o; try (by right). left. eauto. Qed.

(** ** A channel with headers and texts *)

(** Whether the next message is a text, after one more message. *)
Definition frame_step (mid : bool) (m : payload) : option bool :=
  match mid, m with
  | true, Bytes _ => Some false
  | false, Ints (x :: _) => Some (0 <? x)
  | _, _ => None
  end.

Fixpoint frames (mid : bool) (l : list payload) : option bool :=
  match l with
  | [] => Some mid
  | m :: l => match frame_step mid m with Some mid' => frames mid' l | None => None end
  end.

Lemma frames_app mid l m :
  frames mid (l ++ [m]) = match frames mid l with Some mid' => frame_step mid' m | None => None end.
Proof.
  revert mid. induction l as [|x l IH]; intros mid; simpl.
  - by destruct (frame_step mid m).
  - destruct (frame_step mid x); simpl; [apply IH|done].
Qed.

(** ** One message that passes from one rank to another *)

Definition handoff (sent : bool) (l : list payload) (awaited : Prop) : Prop :=
  (sent = false ∧ l = [] ∧ awaited) ∨ (sent = true ∧ (∃ m, l = [m]) ∧ awaited) ∨
  (sent = true ∧ l = [] ∧ ¬ awaited).

Lemma handoff_send l a m : handoff false l a → handoff true (l ++ [m]) a.
Proof. intros [(_ & -> & ?)|[[? _]|[? _]]]; [|done..]. right. left. eauto. Qed.

Lemma handoff_take s m l (a a' : Prop) : handoff s (m :: l) a → ¬ a' → handoff s l a'.
Proof. intros [(_ & ? & _)|[(-> & (m' & [= _ ->]) & _)|(_ & ? & _)]] Ha; [done| |done]. by right; right. Qed.

Lemma handoff_iff s l (a a' : Prop) : (a ↔ a') → handoff s l a → handoff s l a'.
Proof. unfold handoff. intros Ha. by rewrite Ha. Qed.

Section waits.
Context (n : Z) (par : Z → Z) (chs : Z → list Z) `{!IsTree n par chs}.

Abbreviation is_rank := (is_rank n).
Abbreviation ghosts := (Z → pg).
Abbreviation links := (Z → Z → list payload).

(** ** The protocol *)

Definition wait_pre (p : Z) (g : pg) (o : op) : Prop :=
  match o with
  | ORecv src tag _ => g_owes g = None ∧
      if tag =? CIRCLE_TAG_ABORT_REDUCE then
        (∃ rest, g_todo g = src :: rest ∧ g_up g = false) ∨
        (0 < p ∧ src = par p ∧ g_up g = true ∧ g_told g = false)
      else if tag =? CIRCLE_TAG_WORK_REPLY then
        (g_seen g = Some (src, tag) ∧ g_due g = None) ∨ g_due g = Some src
      else g_seen g = Some (src, tag)
  | OSend dst tag m => tag ≠ CIRCLE_TAG_WORK_REPLY ∧
      (tag = CIRCLE_TAG_ABORT_REDUCE → g_todo g = [] ∧
         ((0 < p ∧ dst = par p ∧ g_up g = false) ∨
          ((p = 0 ∨ g_up g = true) ∧ ∃ rest, g_down g = dst :: rest)))
  | OIsend dst tag m _ => tag ≠ CIRCLE_TAG_ABORT_REDUCE ∧
      (tag = CIRCLE_TAG_WORK_REPLY →
         match m with Ints (_ :: _) => g_owes g = None | Bytes _ => g_owes g = Some dst | _ => False end)
  | OIssend _ tag _ => tag ≠ CIRCLE_TAG_ABORT_REDUCE ∧ tag ≠ CIRCLE_TAG_WORK_REPLY
  | _ => True
  end.

Definition wait_post (p : Z) (g : pg) (o : op) : ans o → pg → Prop :=
  match o return ans o → pg → Prop with
  | ORand _ => λ r g', 0 ≤ fst r ∧ g' = g
  | OIprobe src tag => λ r g', g' = see (match r with Some (s, _) => Some (s, tag) | None => None end) g ∧
      ∀ s c, r = Some (s, c) → source_ok src s
  | ORecv src tag _ => λ m g', (tag = CIRCLE_TAG_WORK_REPLY → m ≠ Ints []) ∧ g' =
      if tag =? CIRCLE_TAG_ABORT_REDUCE then if g_up g then learnt g else heard g
      else if tag =? CIRCLE_TAG_WORK_REPLY then need (if work_header m then Some src else None) g
      else see None g
  | OSend dst tag _ => λ _ g', g' =
      if tag =? CIRCLE_TAG_ABORT_REDUCE
      then if bool_decide (p = 0) || g_up g then told_one g else reported_up g else g
  | OIsend dst tag m _ => λ _ g', g' =
      if tag =? CIRCLE_TAG_WORK_REPLY then owe (if work_header m then Some dst else None) g else g
  | OCommRank => λ r g', r = p ∧ g' = g
  | OCommSize => λ r g', r = n ∧ g' = g
  | _ => λ _ g', g' = g
  end.

(** A rank that has returned. *)
Definition done_waiting (p : Z) (g : pg) : Prop :=
  g_owes g = None ∧ g_todo g = [] ∧ g_down g = [] ∧ (0 < p → g_up g = true).

(** ** The invariant *)

Definition up_edge (gh : ghosts) (T : links) (c : Z) : Prop :=
  handoff (g_up (gh c)) (T c (par c)) (c ∈ g_todo (gh (par c))).
Definition down_edge (gh : ghosts) (T : links) (c : Z) : Prop :=
  handoff (bool_decide (c ∉ g_down (gh (par c)))) (T (par c) c) (g_told (gh c) = false).

Record lists_ok (p : Z) (g : pg) : Prop := ListsOk {
  lo_todo : NoDup (g_todo g) ∧ ∀ c, c ∈ g_todo g → c ∈ chs p;
  lo_down : NoDup (g_down g) ∧ ∀ c, c ∈ g_down g → c ∈ chs p;
}.

(** The final allreduce, on its tag. *)
Record hands_ok (gh : ghosts) (T : links) : Prop := HandsOk {
  ho_up : ∀ c, 0 < c < n → up_edge gh T c;
  ho_down : ∀ c, 0 < c < n → down_edge gh T c;
  ho_lists : ∀ p, is_rank p → lists_ok p (gh p);
}.

(** The transfers, on theirs. *)
Definition texts_ok (gh : ghosts) (T : links) : Prop :=
  (∀ p s, g_due (gh p) = Some s → is_rank s) ∧
  ∀ s p, frames (bool_decide (g_due (gh p) = Some s)) (T s p) = Some (bool_decide (g_owes (gh s) = Some p)).

(** What a rank has seen is there. *)
Definition seen_ok (gh : ghosts) (ch : channels) : Prop :=
  ∀ p s t, g_seen (gh p) = Some (s, t) → is_rank s ∧ ch (s, p, t) ≠ [].

Record wait_inv (gh : ghosts) (ch : channels) : Prop := WaitInv {
  wi_hands : hands_ok gh (λ a b, ch (a, b, CIRCLE_TAG_ABORT_REDUCE));
  wi_texts : texts_ok gh (λ a b, ch (a, b, CIRCLE_TAG_WORK_REPLY));
  wi_seen : seen_ok gh ch;
}.

(** ** Steps of the allreduce *)

(** A move that changes nothing the allreduce is about. *)
Definition same_hand (g g' : pg) : Prop :=
  g_todo g' = g_todo g ∧ g_up g' = g_up g ∧ g_told g' = g_told g ∧ g_down g' = g_down g.

Lemma hands_same gh T T' p g' :
  hands_ok gh T → same_hand (gh p) g' → (∀ a b, T' a b = T a b) → hands_ok (<[p := g']> gh) T'.
Proof.
  intros [Hu Hd Hl] (H1 & H2 & H3 & H4) HT.
  assert (∀ q, g_todo (<[p := g']> gh q) = g_todo (gh q) ∧ g_up (<[p := g']> gh q) = g_up (gh q) ∧
    g_told (<[p := g']> gh q) = g_told (gh q) ∧ g_down (<[p := g']> gh q) = g_down (gh q)) as Hq.
  { intros q. by moved q p. }
  split.
  - intros c Hc. unfold up_edge. destruct (Hq c) as (_ & -> & _), (Hq (par c)) as (-> & _). rewrite HT. by apply Hu.
  - intros c Hc. unfold down_edge. destruct (Hq c) as (_ & _ & -> & _), (Hq (par c)) as (_ & _ & _ & ->).
    rewrite HT. by apply Hd.
  - intros q Hr. destruct (Hl q Hr). destruct (Hq q) as (E1 & _ & _ & E4). split; by rewrite ?E1, ?E4.
Qed.

(** A part of the ghost state that the move leaves as it is. *)
Lemma part_same {B} (f : pg → B) (gh : ghosts) p g' x : f g' = f (gh p) → f (<[p := g']> gh x) = f (gh x).
Proof. intros Hf. by moved x p. Qed.

Lemma hands_heard gh T T' p c rest m l :
  hands_ok gh T → is_rank p → g_todo (gh p) = c :: rest → T c p = m :: l →
  T' c p = l → (∀ a b, (a, b) ≠ (c, p) → T' a b = T a b) → hands_ok (<[p := heard (gh p)]> gh) T'.
Proof.
  intros [Hu Hd Hl] Hp Htodo HT HT1 HT2. destruct (Hl p Hp) as [[Hnd Hsub] Hdn].
  destruct (child_facts p c) as (Hc & Hpar & Hlt); [apply Hsub; rewrite Htodo; by left|].
  rewrite Htodo in Hnd. apply NoDup_cons in Hnd as [Hnin Hnd]. split.
  - intros x Hx. pose proof (Hu x Hx) as He. pose proof (par_lt x Hx). unfold up_edge in *.
    destruct (decide (x = c)) as [->|Hxc].
    { rewrite Hpar, fn_lookup_insert, fn_lookup_insert_ne, HT1 by lia. rewrite Hpar, HT in He.
      eapply handoff_take; [exact He|]. cbn. by rewrite Htodo. }
    rewrite HT2, (part_same g_up) by first [done|congruence]. destruct (decide (par x = p)) as [Hxp|].
    + rewrite Hxp, fn_lookup_insert. rewrite Hxp in He.
      eapply handoff_iff, He. cbn. rewrite Htodo, elem_of_cons. naive_solver.
    + by rewrite fn_lookup_insert_ne.
  - intros x Hx. pose proof (Hd x Hx) as He. pose proof (par_lt x Hx). unfold down_edge in *.
    rewrite HT2 by (intros [=]; lia). by rewrite (part_same g_down), (part_same g_told).
  - intros q Hq. moved q p; [|by apply Hl]. split; [|done]. cbn. rewrite Htodo. split; [done|].
    intros x Hx. apply Hsub. rewrite Htodo. by right.
Qed.

Lemma hands_reported gh T T' p m :
  hands_ok gh T → 0 < p < n → g_up (gh p) = false →
  T' p (par p) = T p (par p) ++ [m] → (∀ a b, (a, b) ≠ (p, par p) → T' a b = T a b) →
  hands_ok (<[p := reported_up (gh p)]> gh) T'.
Proof.
  intros [Hu Hd Hl] Hp Hup HT1 HT2. pose proof (par_lt p Hp). split.
  - intros x Hx. pose proof (Hu x Hx) as He. pose proof (par_lt x Hx). unfold up_edge in *.
    destruct (decide (x = p)) as [->|Hxp].
    { rewrite fn_lookup_insert, (part_same g_todo), HT1 by done. rewrite Hup in He. by apply handoff_send. }
    by rewrite fn_lookup_insert_ne, (part_same g_todo), HT2 by first [done|congruence].
  - intros x Hx. pose proof (Hd x Hx) as He. pose proof (par_lt x Hx). unfold down_edge in *.
    rewrite HT2 by (intros [=]; lia). by rewrite (part_same g_down), (part_same g_told).
  - intros q Hq. moved q p; [|by apply Hl]. by destruct (Hl p Hq).
Qed.

Lemma hands_learnt gh T T' p m l :
  hands_ok gh T → 0 < p < n → T (par p) p = m :: l →
  T' (par p) p = l → (∀ a b, (a, b) ≠ (par p, p) → T' a b = T a b) → hands_ok (<[p := learnt (gh p)]> gh) T'.
Proof.
  intros [Hu Hd Hl] Hp HT HT1 HT2. pose proof (par_lt p Hp). split.
  - intros x Hx. pose proof (Hu x Hx) as He. pose proof (par_lt x Hx). unfold up_edge in *.
    rewrite HT2 by (intros [=]; lia). by rewrite (part_same g_up), (part_same g_todo).
  - intros x Hx. pose proof (Hd x Hx) as He. pose proof (par_lt x Hx). unfold down_edge in *.
    destruct (decide (x = p)) as [->|Hxp].
    { rewrite fn_lookup_insert, (part_same g_down), HT1 by done. rewrite HT in He. by eapply handoff_take. }
    by rewrite (part_same g_down), fn_lookup_insert_ne, HT2 by first [done|congruence].
  - intros q Hq. moved q p; [|by apply Hl]. by destruct (Hl p Hq).
Qed.

Lemma hands_told gh T T' p d rest m :
  hands_ok gh T → is_rank p → g_down (gh p) = d :: rest →
  T' p d = T p d ++ [m] → (∀ a b, (a, b) ≠ (p, d) → T' a b = T a b) →
  hands_ok (<[p := told_one (gh p)]> gh) T'.
Proof.
  intros [Hu Hd Hl] Hp Hdown HT1 HT2. destruct (Hl p Hp) as [Htd [Hnd Hsub]].
  destruct (child_facts p d) as (Hc & Hpar & Hlt); [apply Hsub; rewrite Hdown; by left|].
  rewrite Hdown in Hnd. apply NoDup_cons in Hnd as [Hnin Hnd]. split.
  - intros x Hx. pose proof (Hu x Hx) as He. pose proof (par_lt x Hx). unfold up_edge in *.
    rewrite HT2 by (intros [=]; lia). by rewrite (part_same g_up), (part_same g_todo).
  - intros x Hx. pose proof (Hd x Hx) as He. pose proof (par_lt x Hx). unfold down_edge in *.
    destruct (decide (x = d)) as [->|Hxd].
    { rewrite Hpar, fn_lookup_insert, (part_same g_told), HT1 by done. rewrite Hpar, Hdown in He.
      rewrite bool_decide_false in He by (intros Hn; apply Hn; by left). cbn. rewrite Hdown.
      rewrite bool_decide_true by done. by apply handoff_send. }
    rewrite HT2, (part_same g_told) by first [done|congruence]. destruct (decide (par x = p)) as [Hxp|].
    + rewrite Hxp, fn_lookup_insert. rewrite Hxp, Hdown in He. cbn. rewrite Hdown.
      cbn. erewrite bool_decide_ext; [exact He|]. rewrite elem_of_cons. naive_solver.
    + by rewrite fn_lookup_insert_ne.
  - intros q Hq. moved q p; [|by apply Hl]. split; [done|]. cbn. rewrite Hdown. split; [done|].
    intros x Hx. apply Hsub. rewrite Hdown. by right.
Qed.

(** ** Steps of the transfers *)

Lemma texts_same gh T T' p g' :
  texts_ok gh T → g_due g' = g_due (gh p) → g_owes g' = g_owes (gh p) → (∀ a b, T' a b = T a b) →
  texts_ok (<[p := g']> gh) T'.
Proof.
  intros [Hr Hf] H1 H2 HT. split.
  - intros q s. rewrite (part_same g_due) by done. apply Hr.
  - intros s q. rewrite (part_same g_due), (part_same g_owes), HT by done. apply Hf.
Qed.

Lemma texts_need gh T T' p src m l :
  texts_ok gh T → is_rank src → g_due (gh p) = None ∨ g_due (gh p) = Some src → T src p = m :: l →
  T' src p = l → (∀ a b, (a, b) ≠ (src, p) → T' a b = T a b) →
  texts_ok (<[p := need (if work_header m then Some src else None) (gh p)]> gh) T'.
Proof.
  intros [Hr Hf] Hs Hdue HT HT1 HT2. split.
  - intros q s. moved q p; [|apply Hr]. cbn. destruct (work_header m); [|done]. by intros [= <-].
  - intros s q. rewrite (part_same g_owes) by done. destruct (decide (q = p)) as [->|Hq].
    2: { rewrite fn_lookup_insert_ne, HT2 by congruence. apply Hf. }
    rewrite fn_lookup_insert. cbn. pose proof (Hf s p) as Hsp. destruct (decide (s = src)) as [->|Hne].
    + rewrite HT in Hsp. rewrite HT1. cbn in Hsp. destruct Hdue as [Hdue|Hdue]; rewrite Hdue in Hsp.
      * rewrite bool_decide_false in Hsp by done. destruct m as [|[|x ints]|]; try done. cbn [frame_step] in Hsp.
        rewrite <-Hsp. cbn [work_header]. by destruct (0 <? x); [rewrite bool_decide_true|rewrite bool_decide_false].
      * rewrite bool_decide_true in Hsp by done. destruct m; try done.
    + rewrite HT2 by congruence. rewrite <-Hsp. f_equal.
      rewrite !bool_decide_false; [done|destruct Hdue; congruence|destruct (work_header m); congruence].
Qed.

Lemma texts_owe gh T T' p d m b :
  texts_ok gh T →
  match m with Ints (_ :: _) => g_owes (gh p) = None | Bytes _ => g_owes (gh p) = Some d | _ => False end →
  T' p d = T p d ++ [m] → (∀ a b, (a, b) ≠ (p, d) → T' a b = T a b) → b = work_header m →
  texts_ok (<[p := owe (if b then Some d else None) (gh p)]> gh) T'.
Proof.
  intros [Hr Hf] Hm HT1 HT2 ->. split.
  - intros q s. rewrite (part_same g_due) by done. apply Hr.
  - intros s q. rewrite (part_same g_due) by done. destruct (decide (s = p)) as [->|Hs].
    2: { rewrite fn_lookup_insert_ne, HT2 by congruence. apply Hf. }
    rewrite fn_lookup_insert. cbn. pose proof (Hf p q) as Hpq. destruct (decide (q = d)) as [->|Hne].
    + rewrite HT1, frames_app, Hpq. destruct m as [|[|x ints]|]; try done; rewrite Hm.
      * rewrite bool_decide_true by done. cbn. by rewrite bool_decide_false.
      * rewrite bool_decide_false by done. cbn [frame_step work_header]. f_equal.
        by destruct (0 <? x); [rewrite bool_decide_true|rewrite bool_decide_false].
    + rewrite HT2, Hpq by congruence. f_equal. destruct m as [|[|x ints]|]; try done; rewrite Hm;
        rewrite !bool_decide_false; try done; try congruence; destruct (work_header _); congruence.
Qed.

(** ** Steps of the network *)

(** A rank forgets what it has seen, or has just seen it; messages of others
    only come. *)
Lemma seen_step gh ch ch' p g' :
  seen_ok gh ch → (∀ s q t, q ≠ p → ch (s, q, t) ≠ [] → ch' (s, q, t) ≠ []) →
  (∀ s t, g_seen g' = Some (s, t) → is_rank s ∧ ch' (s, p, t) ≠ []) → seen_ok (<[p := g']> gh) ch'.
Proof.
  intros Hs Hch Hg q s t. moved q p; [apply Hg|]. intros Hq%Hs. split; [apply Hq|]. by apply Hch, Hq.
Qed.

Lemma app_nonempty {A} (l : list A) x : l ++ [x] ≠ [].
Proof. by destruct l. Qed.

(** A call that leaves the ghost state as it is and the messages on the two
    tags as they are. *)
Lemma wait_idle gh ch ch' p :
  wait_inv gh ch → (∀ a b t, t = CIRCLE_TAG_ABORT_REDUCE ∨ t = CIRCLE_TAG_WORK_REPLY → ch' (a, b, t) = ch (a, b, t)) →
  (∀ c, ch c ≠ [] → ch' c ≠ []) → wait_inv (<[p := gh p]> gh) ch'.
Proof.
  intros [Hh Ht Hs] Hch Hne. split.
  - eapply hands_same; [exact Hh|done|]. intros a b. apply Hch. by left.
  - eapply texts_same; [exact Ht|done|done|]. intros a b. apply Hch. by right.
  - eapply seen_step; [exact Hs|intros; by apply Hne|]. intros s t H%Hs. split; [apply H|by apply Hne, H].
Qed.

Lemma wait_see gh ch p r :
  wait_inv gh ch → (∀ s t, r = Some (s, t) → is_rank s ∧ ch (s, p, t) ≠ []) →
  wait_inv (<[p := see r (gh p)]> gh) ch.
Proof.
  intros [Hh Ht Hs] Hr. split; [by eapply hands_same|by eapply texts_same|].
  eapply seen_step; [exact Hs|done|]. exact Hr.
Qed.

(** A message more on one channel. *)
Lemma more_messages (ch : channels) k m c : ch c ≠ [] → <[k := ch k ++ [m]]> ch c ≠ [].
Proof. moved c k; [intros _; apply app_nonempty|done]. Qed.

(** One message less on a channel of [p]. *)
Lemma others_keep (ch : channels) src p t l s q u :
  q ≠ p → ch (s, q, u) ≠ [] → <[(src, p, t) := l]> ch (s, q, u) ≠ [].
Proof. intros Hq. rewrite fn_lookup_insert_ne by congruence. done. Qed.

Lemma recv_step gh ch p src tag k m l :
  is_rank p → is_rank src → wait_inv gh ch → wait_pre p (gh p) (ORecv src tag k) → ch (src, p, tag) = m :: l →
  ∃ g', wait_post p (gh p) (ORecv src tag k) m g' ∧ wait_inv (<[p := g']> gh) (<[(src, p, tag) := l]> ch).
Proof.
  intros Hp Hsrc [Hh Ht Hs] [_ Hpre] Hch. eexists. split; [split; [|reflexivity]|].
  { intros -> ->. pose proof (proj2 Ht src p) as Hf. cbn beta in Hf. rewrite Hch in Hf. by destruct (bool_decide _). }
  set (ch' := <[(src, p, tag) := l]> ch).
  assert (∀ a b t, t ≠ tag → ch' (a, b, t) = ch (a, b, t)) as Hot by (intros; apply fn_lookup_insert_ne; congruence).
  assert (∀ a b, (a, b) ≠ (src, p) → ch' (a, b, tag) = ch (a, b, tag)) as Hoc by (intros; apply fn_lookup_insert_ne; congruence).
  assert (ch' (src, p, tag) = l) as Hl by apply fn_lookup_insert.
  cbn beta iota. destruct (Z.eqb_spec tag CIRCLE_TAG_ABORT_REDUCE) as [->|Ha].
  - assert (∀ g', g_due g' = g_due (gh p) → g_owes g' = g_owes (gh p) → g_seen g' = None →
      hands_ok (<[p := g']> gh) (λ a b, ch' (a, b, CIRCLE_TAG_ABORT_REDUCE)) → wait_inv (<[p := g']> gh) ch') as Hw.
    { intros g' H1 H2 H3 H4. split; [done|by eapply texts_same; [exact Ht|done|done|]; intros; apply Hot|].
      eapply seen_step; [exact Hs|intros; by apply others_keep|]. rewrite H3. done. }
    destruct Hpre as [(rest & Htodo & ->)|(H0 & -> & -> & _)]; apply Hw; try done.
    + by eapply hands_heard.
    + eapply hands_learnt; try done. unfold Network.is_rank in Hp. lia.
  - destruct (Z.eqb_spec tag CIRCLE_TAG_WORK_REPLY) as [->|Hw].
    + split.
      * eapply hands_same; [exact Hh|done|]. intros a b. by apply Hot.
      * eapply texts_need; try done. destruct Hpre as [[_ ?]|?]; [by left|by right].
      * eapply seen_step; [exact Hs|intros; by apply others_keep|done].
    + split.
      * eapply hands_same; [exact Hh|done|]. intros a b. by apply Hot.
      * eapply texts_same; [exact Ht|done|done|]. intros a b. by apply Hot.
      * eapply seen_step; [exact Hs|intros; by apply others_keep|done].
Qed.

Lemma wait_inv_step gh ch p o r ch' :
  is_rank p → wait_inv gh ch → wait_pre p (gh p) o → net_answer n p ch o r ch' →
  ∃ g', wait_post p (gh p) o r g' ∧ wait_inv (<[p := g']> gh) ch'.
Proof.
  intros Hp Hi Hpre Ha.
  assert (∀ ch0, ch0 = ch → ∃ g', g' = gh p ∧ wait_inv (<[p := g']> gh) ch0) as Hid.
  { intros ch0 ->. eexists. split; [done|]. by eapply wait_idle. }
  assert (∀ a b t m, t ≠ CIRCLE_TAG_ABORT_REDUCE → t ≠ CIRCLE_TAG_WORK_REPLY →
    wait_inv (<[p := gh p]> gh) (<[(a, b, t) := ch (a, b, t) ++ [m]]> ch)) as Hmore.
  { intros a b t m Hn1 Hn2. eapply wait_idle; [done| |apply more_messages].
    intros x y u [-> | ->]; apply fn_lookup_insert_ne; congruence. }
  destruct o; cbn in Ha; try (by apply Hid).
  - destruct Ha as [-> [Hr _]]. exists (gh p). split; [done|]. by eapply wait_idle.
  - destruct Ha as [-> Ha]. eexists. split; [split; [reflexivity|by intros s c ->; apply Ha]|]. apply wait_see; [done|].
    destruct r as [[s c]|]; [|done]. intros s' t [= <- <-]. destruct Ha as (Hs & _ & m & l & Hm & _).
    split; [done|]. by rewrite Hm.
  - destruct Ha as (Hsrc & l & Hch & ->). by eapply recv_step.
  - subst ch'. eexists. split; [reflexivity|]. destruct Hpre as [Hw Hpre]. cbn beta iota.
    destruct (Z.eqb_spec tag CIRCLE_TAG_ABORT_REDUCE) as [->|Ht]; [|by apply Hmore].
    destruct Hi as [Hh Htx Hs]. destruct (Hpre eq_refl) as [Htodo Hcase].
    assert (∀ a b, (a, b) ≠ (p, dst) → <[(p, dst, CIRCLE_TAG_ABORT_REDUCE) :=
      ch (p, dst, CIRCLE_TAG_ABORT_REDUCE) ++ [p0]]> ch (a, b, CIRCLE_TAG_ABORT_REDUCE) = ch (a, b, CIRCLE_TAG_ABORT_REDUCE)) as Hoc
      by (intros; apply fn_lookup_insert_ne; congruence).
    split.
    + destruct Hcase as [(H0 & -> & Hup)|(H0 & rest & Hdown)].
      * rewrite bool_decide_false, Hup by lia. cbn [orb]. eapply hands_reported; [exact Hh| |done| |exact Hoc].
        { unfold Network.is_rank in Hp. lia. } cbn beta. apply fn_lookup_insert.
      * assert (bool_decide (p = 0) || g_up (gh p) = true) as ->.
        { destruct H0 as [->|H0]; [done|]. by rewrite H0, orb_true_r. }
        eapply hands_told; [exact Hh|done|exact Hdown|cbn beta; apply fn_lookup_insert|exact Hoc].
    + eapply texts_same; [exact Htx|by case_match|by case_match|]. intros a b. cbn beta. by apply fn_lookup_insert_ne.
    + eapply seen_step; [exact Hs|intros; by apply more_messages|]. intros s t Hst.
      destruct (Hs p s t) as [? ?]; [by destruct (_ || _)|]. split; [done|by apply more_messages].
  - subst ch'. eexists. split; [reflexivity|]. destruct Hpre as [Hab Hpre]. cbn beta iota.
    destruct (Z.eqb_spec tag CIRCLE_TAG_WORK_REPLY) as [->|Ht]; [|by apply Hmore].
    destruct Hi as [Hh Htx Hs]. split.
    + eapply hands_same; [exact Hh|done|]. intros a b. cbn beta. by apply fn_lookup_insert_ne.
    + eapply texts_owe; [exact Htx|by apply Hpre|cbn beta; apply fn_lookup_insert| |done].
      intros a b Hab'. cbn beta. apply fn_lookup_insert_ne. congruence.
    + eapply seen_step; [exact Hs|intros; by apply more_messages|]. intros s t Hst.
      destruct (Hs p s t) as [? ?]; [done|]. split; [done|by apply more_messages].
  - subst ch'. destruct Hpre. eexists. split; [reflexivity|]. by apply Hmore.
  - destruct Ha as [-> ->]. eexists. split; [by split|]. by eapply wait_idle.
  - destruct Ha as [-> ->]. eexists. split; [by split|]. by eapply wait_idle.
  - subst ch'. eexists. split; [reflexivity|]. by apply Hmore.
Qed.

(** At the start nothing was sent. *)
Definition fresh_pg (p : Z) : pg := PG None None None (chs p) false false (chs p).

Lemma wait_inv_start : wait_inv fresh_pg (λ _, []).
Proof.
  split; [split|split|]; try done; unfold up_edge, down_edge; cbn.
  - intros c Hc. left. split; [done|]. split; [done|]. by apply chs_spec.
  - intros c Hc. left. rewrite bool_decide_false by (intros H; by apply H, chs_spec). done.
  - intros p Hp. by split; cbn; split; [apply chs_nodup|intros|apply chs_nodup|intros].
Qed.

(** ** What the invariant says about receives *)

Section receives.
Context {A B : Type}.

Abbreviation cfg := (config (A := A) (B := B)).
Abbreviation proc := (process (A := A) (B := B)).
Abbreviation proc_ok := (process_ok (A := A) (B := B) wait_pre wait_post (λ _ _, True) (λ _ _ _, True)
  (λ p _ g _, done_waiting p g) (λ _, True)).
Abbreviation ok := (network_ok (A := A) (B := B) n wait_pre wait_post wait_inv (λ _ _, True) (λ _ _ _, True)
  (λ p _ g _, done_waiting p g) (λ _, True)).

Definition blocked (c : cfg) (p : Z) : Prop :=
  ∃ src tag k, next_call (procs c p) = Some (ORecv src tag k) ∧ chans c (src, p, tag) = [].

Lemma next_call_pre p g x o : proc_ok p g x → next_call x = Some o → wait_pre p g o.
Proof. destruct x as [[]|? []]; try done; cbn; intros H [= <-]; apply H. Qed.

Lemma returned_done p g x : proc_ok p g x → returned_proc x → done_waiting p g.
Proof. destruct x as [[]|? []]; try done. intros [_ H] _. exact H. Qed.

Lemma receive_source gh ch p src tag k :
  wait_inv gh ch → is_rank p → wait_pre p (gh p) (ORecv src tag k) → is_rank src.
Proof.
  intros [[_ _ Hl] [Hr _] Hs] Hp [_ Hpre]. destruct (tag =? _).
  - destruct Hpre as [(rest & Htodo & _)|(H0 & -> & _)].
    + destruct (child_facts p src); [|unfold Network.is_rank; lia]. apply (lo_todo _ _ (Hl p Hp)).
      rewrite Htodo. by left.
    + apply is_rank_par. unfold Network.is_rank in Hp. lia.
  - destruct (tag =? _); [destruct Hpre as [[H _]|H]; [by eapply Hs|by eapply Hr]|by eapply Hs].
Qed.

Section circle.
Context (gh : ghosts) (c : cfg).
Context (Hi : wait_inv gh (chans c)).
Context (Hok : ∀ p, is_rank p → proc_ok p (gh p) (procs c p)).
Context (Hall : ∀ p, is_rank p → returned_proc (procs c p) ∨ blocked c p).

Lemma blocked_pre p :
  is_rank p → blocked c p →
  ∃ src tag k, wait_pre p (gh p) (ORecv src tag k) ∧ chans c (src, p, tag) = [].
Proof.
  intros Hp (src & tag & k & Hn & Hch). exists src, tag, k. split; [|done]. by eapply next_call_pre; [apply Hok|].
Qed.

(** A rank that is blocked or has returned owes no text. *)
Lemma nobody_owes p : is_rank p → g_owes (gh p) = None.
Proof.
  intros Hp. destruct (Hall p Hp) as [Hr|Hb]; [by eapply returned_done; [apply Hok|]|].
  destruct (blocked_pre p Hp Hb) as (src & tag & k & [H _] & _). exact H.
Qed.

(** So whoever is blocked waits in the final allreduce. *)
Lemma blocked_waits p :
  is_rank p → blocked c p →
  (∃ d rest, g_todo (gh p) = d :: rest ∧ g_up (gh p) = false ∧ chans c (d, p, CIRCLE_TAG_ABORT_REDUCE) = []) ∨
  (0 < p ∧ g_up (gh p) = true ∧ g_told (gh p) = false ∧ chans c (par p, p, CIRCLE_TAG_ABORT_REDUCE) = []).
Proof.
  intros Hp Hb. destruct (blocked_pre p Hp Hb) as (src & tag & k & [_ Hpre] & Hch).
  destruct (Z.eqb_spec tag CIRCLE_TAG_ABORT_REDUCE) as [->|_].
  { destruct Hpre as [(rest & ? & ?)|(? & -> & ? & ?)]; [left|by right]. by exists src, rest. }
  assert (g_seen (gh p) ≠ Some (src, tag)) as Hns by (intros [_ H]%(wi_seen _ _ Hi); done).
  destruct (Z.eqb_spec tag CIRCLE_TAG_WORK_REPLY) as [->|_]; [|done].
  destruct Hpre as [[? _]|Hdue]; [done|]. destruct (wi_texts _ _ Hi) as [Hr Hf].
  pose proof (Hf src p) as Hsp. cbn beta in Hsp. rewrite Hdue, Hch, bool_decide_true in Hsp by done. cbn in Hsp.
  rewrite nobody_owes in Hsp by (by eapply Hr). by rewrite bool_decide_false in Hsp.
Qed.

(** The ranks that wait for a child: the largest of them has none. *)
Lemma waits_for_parent p : is_rank p → blocked c p → g_up (gh p) = true.
Proof.
  revert p. assert (∀ m p, (Z.to_nat (n - p) < m)%nat → is_rank p → blocked c p → g_up (gh p) = true) as H;
    [|intros p; by apply (H (S (Z.to_nat (n - p)))); lia].
  induction m as [|m IH]; intros p Hm Hp Hb; [lia|].
  destruct (blocked_waits p Hp Hb) as [(d & rest & Hd & Hup & Hch)|(_ & Hup & _)]; [|done]. exfalso.
  destruct (child_facts p d) as (Hdn & Hpar & Hlt).
  { apply (ho_lists _ _ (wi_hands _ _ Hi) p Hp). rewrite Hd. by left. }
  assert (is_rank d) as Hdr by (unfold Network.is_rank; lia).
  pose proof (ho_up _ _ (wi_hands _ _ Hi) d Hdn) as He. unfold up_edge in He. rewrite Hpar, Hd, Hch in He.
  destruct He as [(Hud & _)|[(_ & (? & He) & _)|(_ & _ & He)]]; [|done|by destruct He; left].
  destruct (Hall d Hdr) as [Hr|Hb'].
  - destruct (returned_done _ _ _ (Hok d Hdr) Hr) as (_ & _ & _ & Hu). rewrite Hu in Hud by lia. done.
  - rewrite IH in Hud; [done| |done|done]. unfold Network.is_rank in *. lia.
Qed.

Lemma none_blocked p : is_rank p → ¬ blocked c p.
Proof.
  revert p. apply (rank_ind (λ p, ¬ blocked c p)).
  - intros Hb. destruct (blocked_waits 0 is_rank_0 Hb) as [(d & rest & _ & Hup & _)|[? _]]; [|lia].
    by rewrite (waits_for_parent 0 is_rank_0 Hb) in Hup.
  - intros p Hp IH Hb. assert (is_rank p) as Hr by (unfold Network.is_rank; lia).
    destruct (blocked_waits p Hr Hb) as [(d & rest & _ & Hup & _)|(_ & _ & Htold & Hch)].
    { by rewrite (waits_for_parent p Hr Hb) in Hup. }
    destruct (Hall (par p) (is_rank_par p Hp)) as [Hf|Hf]; [|done].
    destruct (returned_done _ _ _ (Hok _ (is_rank_par p Hp)) Hf) as (_ & _ & Hd & _).
    pose proof (ho_down _ _ (wi_hands _ _ Hi) p Hp) as He. unfold down_edge in He. rewrite Hch, Hd, Htold in He.
    rewrite bool_decide_true in He by apply not_elem_of_nil.
    destruct He as [[? _]|[(_ & (? & ?) & _)|(_ & _ & ?)]]; done.
Qed.
End circle.

(** A receive of any other message finds it. *)
Lemma receive_finds c p src tag k :
  ok c → is_rank p → next_call (procs c p) = Some (ORecv src tag k) →
  tag ≠ CIRCLE_TAG_WORK_REPLY → tag ≠ CIRCLE_TAG_ABORT_REDUCE → chans c (src, p, tag) ≠ [].
Proof.
  intros (gh & Hi & Hok) Hp Hn H1%Z.eqb_neq H2%Z.eqb_neq.
  destruct (next_call_pre p _ _ _ (Hok p Hp) Hn) as [_ Hpre]. rewrite H1, H2 in Hpre.
  by destruct (wi_seen _ _ Hi p src tag Hpre).
Qed.

(** A rank whose message is not there waits for one that has not returned. *)
Lemma sender_not_returned c p src tag k :
  ok c → is_rank p → next_call (procs c p) = Some (ORecv src tag k) → chans c (src, p, tag) = [] →
  ¬ returned_proc (procs c src).
Proof.
  intros (gh & Hi & Hok) Hp Hn Hch Hret.
  pose proof (next_call_pre p _ _ _ (Hok p Hp) Hn) as Hpre.
  pose proof (receive_source gh _ p src tag k Hi Hp Hpre) as Hsrc.
  destruct (returned_done _ _ _ (Hok src Hsrc) Hret) as (Ho & Ht & Hd & Hu). destruct Hpre as [_ Hpre].
  destruct (Z.eqb_spec tag CIRCLE_TAG_ABORT_REDUCE) as [->|_].
  { destruct Hpre as [(rest & Htodo & _)|(H0 & -> & _ & Htold)].
    - destruct (child_facts p src) as (Hdn & Hpar & _).
      { apply (ho_lists _ _ (wi_hands _ _ Hi) p Hp). rewrite Htodo. by left. }
      pose proof (ho_up _ _ (wi_hands _ _ Hi) src Hdn) as He. unfold up_edge in He.
      rewrite Hpar, Htodo, Hch, Hu in He by lia. destruct He as [(? & _)|[(_ & (? & ?) & _)|(_ & _ & He)]]; [done|done|].
      apply He. by left.
    - unfold Network.is_rank in Hp. pose proof (ho_down _ _ (wi_hands _ _ Hi) p ltac:(lia)) as He. unfold down_edge in He.
      rewrite Hch, Hd, Htold, bool_decide_true in He by apply not_elem_of_nil.
      destruct He as [[? _]|[(_ & (? & ?) & _)|(_ & _ & ?)]]; done. }
  assert (g_seen (gh p) ≠ Some (src, tag)) as Hns by (intros [_ H]%(wi_seen _ _ Hi); done).
  destruct (Z.eqb_spec tag CIRCLE_TAG_WORK_REPLY) as [->|_]; [|done].
  destruct Hpre as [[? _]|Hdue]; [done|]. destruct (wi_texts _ _ Hi) as [_ Hf].
  pose proof (Hf src p) as Hsp. cbn beta in Hsp. rewrite Hdue, Hch, bool_decide_true in Hsp by done. cbn in Hsp.
  rewrite Ho in Hsp. by rewrite bool_decide_false in Hsp.
Qed.

(** If every rank has returned or waits for a message, all have returned. *)
Lemma no_circle c :
  ok c → (∀ p, is_rank p → returned_proc (procs c p) ∨ blocked c p) → ∀ p, is_rank p → returned_proc (procs c p).
Proof.
  intros (gh & Hi & Hok) Hall p Hp. destruct (Hall p Hp) as [|Hb]; [done|].
  by destruct (none_blocked gh c Hi Hok Hall p Hp).
Qed.
End receives.
End waits.
