(* ===== verification/ReduceSum.v ===== *)
(** * The final reduction counts every rank once

    Every rank of a job runs CIRCLE_reduce_sync with its count: the header a
    rank sends to its parent carries the counts of its whole subtree, so the
    root ends with the sum of the counts of all ranks, whatever the order of
    the messages, the callbacks and the sizes of their data.

    As in an account, a count is written off by the rank that reports it and
    credited to the parent that takes the header; the user data that follows
    a header on the same channel is told from headers by its type. *)
From S2P Require Import Prelude CMonad Mem Wire Tree State Mpi Sends Network Ranks Barrier Proc Api Reduce Quiet.

(** The count a message reports; only headers do. *)
Definition is_header (m : payload) : bool := match m with Longs _ => true | _ => false end.
Definition reported_count (m : payload) : Z := match m with Longs [_; v; _] => v | _ => 0 end.
Definition header_of (v : Z) (m : payload) : Prop := ∃ a b, m = Longs [a; v; b].

Definition total_reported (l : list payload) : Z := foldr (λ m a, reported_count m + a) 0 l.

Lemma total_reported_app l m : total_reported (l ++ [m]) = total_reported l + reported_count m.
Proof. induction l as [|x l IH]; simpl; [lia|]. unfold total_reported in *. rewrite IH. lia. Qed.

Definition no_header (l : list payload) : Prop := ∀ m, m ∈ l → is_header m = false.

Lemma no_header_total l : no_header l → total_reported l = 0.
Proof.
  induction l as [|m l IH]; intros H; [done|]. simpl. rewrite IH by (intros x Hx; apply H; by right).
  pose proof (H m ltac:(by left)). destruct m; done.
Qed.

(** The ghost state of a rank: what it has counted and not reported, the
    children whose header is still missing, whether it has reported. *)
Record rg : Type := RG {
  s_val : Z;
  s_todo : list Z;
  s_up : bool;
}.

Definition credit (v : Z) (g : rg) : rg := RG (s_val g + v) (tail (s_todo g)) (s_up g).
Definition written_off (g : rg) : rg := RG 0 (s_todo g) true.

Section reduce.
Context (n : Z) (par : Z → Z) (chs : Z → list Z) `{!IsTree n par chs}.

Abbreviation is_rank := (is_rank n).
Abbreviation ghosts := (Z → rg).
Abbreviation links := (Z → Z → list payload).

Definition sum_pre (p : Z) (g : rg) (o : op) : Prop :=
  match o with
  | ORecv src tag _ => tag = CIRCLE_TAG_REDUCE → s_up g = false ∧ src ∈ chs p ∧
      ((∃ rest, s_todo g = src :: rest) ∨ src ∉ s_todo g)
  | OSend dst tag m => tag = CIRCLE_TAG_REDUCE → 0 < p ∧ dst = par p ∧
      if is_header m then s_todo g = [] ∧ s_up g = false ∧ header_of (s_val g) m else s_up g = true
  | OIsend _ tag _ _ | OIssend _ tag _ => tag ≠ CIRCLE_TAG_REDUCE
  | _ => True
  end.

Definition sum_post (p : Z) (g : rg) (o : op) : ans o → rg → Prop :=
  match o return ans o → rg → Prop with
  | ORecv src tag _ => λ m g',
      if tag =? CIRCLE_TAG_REDUCE then
        if bool_decide (head (s_todo g) = Some src) then ∃ v, header_of v m ∧ g' = credit v g
        else g' = g
      else g' = g
  | OSend _ tag m => λ _ g',
      g' = if (tag =? CIRCLE_TAG_REDUCE) && is_header m then written_off g else g
  | _ => λ _ g', g' = g
  end.

(** ** The invariant *)

(** The channel from [c] to its parent. *)
Definition edge (gh : ghosts) (T : links) (c : Z) : Prop :=
  (s_up (gh c) = false ∧ T c (par c) = [] ∧ c ∈ s_todo (gh (par c))) ∨
  (s_up (gh c) = true ∧ c ∈ s_todo (gh (par c)) ∧
     ∃ v m l, header_of v m ∧ T c (par c) = m :: l ∧ no_header l) ∨
  (s_up (gh c) = true ∧ c ∉ s_todo (gh (par c)) ∧ no_header (T c (par c))).

Record node (p : Z) (g : rg) : Prop := Node {
  nd_todo : NoDup (s_todo g) ∧ ∀ c, c ∈ s_todo g → c ∈ chs p;
  nd_up : s_up g = true → 0 < p ∧ s_todo g = [] ∧ s_val g = 0;
}.

(** The counts on their way from [c]. *)
Definition on_way (T : links) (c : Z) : Z := if decide (0 < c) then total_reported (T c (par c)) else 0.

Record sum_inv_on (total : Z) (gh : ghosts) (T : links) : Prop := SumInv {
  si_edge : ∀ c, 0 < c < n → edge gh T c;
  si_node : ∀ p, is_rank p → node p (gh p);
  si_sum : sum_ranks n (λ p, s_val (gh p)) + sum_ranks n (on_way T) = total;
}.

Definition sum_inv (total : Z) (gh : ghosts) (ch : channels) : Prop :=
  sum_inv_on total gh (λ a b, ch (a, b, CIRCLE_TAG_REDUCE)).

(** ** Steps *)

Lemma sum_val_upd (gh : ghosts) p g' :
  is_rank p → sum_ranks n (λ q, s_val (<[p := g']> gh q)) = sum_ranks n (λ q, s_val (gh q)) + (s_val g' - s_val (gh p)).
Proof.
  intros Hp. rewrite (sum_upd (λ q, s_val (gh q)) _ p Hp), fn_lookup_insert; [done|].
  intros q Hq. by rewrite fn_lookup_insert_ne.
Qed.

(** One edge changes. *)
Lemma on_way_upd (T T' : links) c :
  0 < c < n → (∀ a b, (a, b) ≠ (c, par c) → T' a b = T a b) →
  sum_ranks n (on_way T') = sum_ranks n (on_way T) + (total_reported (T' c (par c)) - total_reported (T c (par c))).
Proof.
  intros Hc HT. assert (is_rank c) as Hr by (unfold Network.is_rank; lia).
  rewrite (sum_upd (on_way T) (on_way T') c Hr).
  - unfold on_way. by rewrite !decide_True by lia.
  - intros q Hq. unfold on_way. case_decide; [|done]. rewrite HT; [done|]. congruence.
Qed.

Lemma sum_same total gh T p g' T' :
  sum_inv_on total gh T → g' = gh p → (∀ a b, T' a b = T a b) → sum_inv_on total (<[p := g']> gh) T'.
Proof.
  intros [He Hn Hs] -> HT.
  assert (∀ q, <[p := gh p]> gh q = gh q) as Hgh by (intros q; apply insert_same).
  split.
  - intros c Hc. unfold edge. rewrite !Hgh, HT. by apply He.
  - intros q Hq. rewrite Hgh. by apply Hn.
  - rewrite <-Hs. f_equal; apply sum_ext; intros q _; [by rewrite Hgh|].
    unfold on_way. by rewrite HT.
Qed.

Lemma step_header total gh T T' p c rest m l :
  sum_inv_on total gh T → is_rank p → s_up (gh p) = false → s_todo (gh p) = c :: rest →
  T c p = m :: l → T' c p = l → (∀ a b, (a, b) ≠ (c, p) → T' a b = T a b) →
  ∃ v, header_of v m ∧ sum_inv_on total (<[p := credit v (gh p)]> gh) T'.
Proof.
  intros [He Hn Hs] Hp Hup Htodo HT HT1 HT2. pose proof (Hn p Hp) as [[Hnd Hsub] _].
  destruct (child_facts p c) as (Hc & Hpar & Hlt); [apply Hsub; rewrite Htodo; by left|].
  rewrite Htodo in Hnd. apply NoDup_cons in Hnd as [Hnin Hnd].
  pose proof (He c Hc) as Hec. unfold edge in Hec. rewrite Hpar, Htodo, HT in Hec.
  destruct Hec as [(_ & ? & _)|[(Hcu & _ & v & m' & l' & Hv & [= <- <-] & Hl)|(_ & Hout & _)]];
    [done| |by destruct Hout; left].
  exists v. split; [done|]. split.
  - intros x Hx. destruct (decide (x = c)) as [->|Hxc].
    { right. right. rewrite Hpar, fn_lookup_insert, fn_lookup_insert_ne, HT1 by lia. cbn. by rewrite Htodo. }
    pose proof (He x Hx) as Hex. pose proof (par_lt x Hx). unfold edge in *. rewrite HT2 by congruence.
    moved x p; [rewrite fn_lookup_insert_ne by lia; exact Hex|].
    destruct (decide (par x = p)) as [Hpx|]; [|by rewrite fn_lookup_insert_ne].
    rewrite Hpx in *. rewrite fn_lookup_insert. cbn. rewrite Htodo in Hex |- *. rewrite elem_of_cons in Hex.
    destruct Hex as [(? & ? & [->|Hin])|[(? & [->|Hin] & ?)|(? & Hout & ?)]]; [done|by left|done|by right; left|].
    right. right. split; [done|]. split; [|done]. intros ?. apply Hout. by right.
  - intros q Hq. moved q p; [|by apply Hn]. split; cbn; [|by rewrite Hup].
    rewrite Htodo. cbn. split; [done|]. intros x Hx. apply Hsub. rewrite Htodo. by right.
  - rewrite sum_val_upd by done. rewrite (on_way_upd T T' c Hc) by (by rewrite Hpar).
    rewrite Hpar, HT, HT1. destruct Hv as (a & b & ->). cbn. unfold total_reported in *. lia.
Qed.

Lemma step_data total gh T T' p c m l :
  sum_inv_on total gh T → is_rank p → c ∈ chs p → c ∉ s_todo (gh p) →
  T c p = m :: l → T' c p = l → (∀ a b, (a, b) ≠ (c, p) → T' a b = T a b) → sum_inv_on total gh T'.
Proof.
  intros [He Hn Hs] Hp Hcp Hout HT HT1 HT2. destruct (child_facts p c Hcp) as (Hc & Hpar & Hlt).
  pose proof (He c Hc) as Hec. unfold edge in Hec. rewrite Hpar, HT in Hec.
  destruct Hec as [(_ & ? & _)|[(_ & ? & _)|(Hcu & _ & Hno)]]; [done|done|].
  assert (no_header l) as Hl by (intros x Hx; apply Hno; by right). split; [|done|].
  - intros x Hx. destruct (decide (x = c)) as [->|Hxc].
    { right. right. by rewrite Hpar, HT1. }
    pose proof (He x Hx) as Hex. unfold edge in *. by rewrite HT2 by congruence.
  - rewrite (on_way_upd T T' c Hc) by (by rewrite Hpar). rewrite Hpar, HT, HT1.
    rewrite !no_header_total by done. lia.
Qed.

Lemma step_report total gh T T' p m :
  sum_inv_on total gh T → 0 < p < n → s_todo (gh p) = [] → s_up (gh p) = false → header_of (s_val (gh p)) m →
  T' p (par p) = T p (par p) ++ [m] → (∀ a b, (a, b) ≠ (p, par p) → T' a b = T a b) →
  sum_inv_on total (<[p := written_off (gh p)]> gh) T'.
Proof.
  intros [He Hn Hs] Hp Htodo Hup Hm HT1 HT2. pose proof (par_lt p Hp).
  assert (is_rank p) as Hr by (unfold Network.is_rank; lia).
  pose proof (He p Hp) as Hep. unfold edge in Hep. rewrite Hup in Hep.
  destruct Hep as [(_ & HT & Hin)|[[? _]|[? _]]]; [|done|done]. split.
  - intros x Hx. destruct (decide (x = p)) as [->|Hxp].
    { right. left. rewrite fn_lookup_insert, fn_lookup_insert_ne, HT1, HT by lia. split; [done|]. split; [done|].
      exists (s_val (gh p)), m, []. split; [done|]. split; [done|]. intros y Hy. by apply elem_of_nil in Hy. }
    pose proof (He x Hx) as Hex. unfold edge in *. rewrite HT2 by congruence.
    rewrite fn_lookup_insert_ne by done. destruct (decide (par x = p)) as [Hpx|]; [|by rewrite fn_lookup_insert_ne].
    by rewrite Hpx, fn_lookup_insert in *.
  - intros q Hq. moved q p; [|by apply Hn]. pose proof (Hn p Hr) as [Hnd _]. split; cbn; [done|]. intros _. by split; [lia|].
  - rewrite sum_val_upd by done. rewrite (on_way_upd T T' p Hp) by done.
    rewrite HT1, total_reported_app. destruct Hm as (a & b & ->). cbn. lia.
Qed.

Lemma step_send_data total gh T T' p m :
  sum_inv_on total gh T → 0 < p < n → s_up (gh p) = true → is_header m = false →
  T' p (par p) = T p (par p) ++ [m] → (∀ a b, (a, b) ≠ (p, par p) → T' a b = T a b) → sum_inv_on total gh T'.
Proof.
  intros [He Hn Hs] Hp Hup Hm HT1 HT2.
  assert (∀ l, no_header l → no_header (l ++ [m])) as Happ.
  { intros l Hl x Hx. apply elem_of_app in Hx as [Hx|Hx%list_elem_of_singleton]; [by apply Hl|by subst]. }
  split; [|done|].
  - intros x Hx. destruct (decide (x = p)) as [->|Hxp].
    { pose proof (He p Hp) as Hep. unfold edge in *. rewrite HT1. rewrite Hup in *.
      destruct Hep as [[? _]|[(_ & Hin & v & m' & l & Hv & HT & Hl)|(_ & Hout & Hno)]]; [done|right; left|right; right].
      - split; [done|]. split; [done|]. exists v, m', (l ++ [m]). rewrite HT. auto.
      - auto. }
    pose proof (He x Hx) as Hex. unfold edge in *. by rewrite HT2 by congruence.
  - rewrite (on_way_upd T T' p Hp) by done. rewrite HT1, total_reported_app.
    assert (reported_count m = 0) as -> by (by destruct m). lia.
Qed.

Lemma sum_inv_step total gh ch p o r ch' :
  is_rank p → sum_inv total gh ch → sum_pre p (gh p) o → net_answer n p ch o r ch' →
  ∃ g', sum_post p (gh p) o r g' ∧ sum_inv total (<[p := g']> gh) ch'.
Proof.
  intros Hp Hi Hpre Ha.
  assert (∀ ch0, (∀ a b, ch0 (a, b, CIRCLE_TAG_REDUCE) = ch (a, b, CIRCLE_TAG_REDUCE)) →
    ∃ g', g' = gh p ∧ sum_inv total (<[p := g']> gh) ch0) as Hid.
  { intros ch0 H. exists (gh p). split; [done|]. by eapply sum_same. }
  assert (∀ a b tag l, tag ≠ CIRCLE_TAG_REDUCE → ∃ g', g' = gh p ∧
    sum_inv total (<[p := g']> gh) (<[(a, b, tag) := l]> ch)) as Hother.
  { intros a b tag l Htag. apply Hid. intros x y. apply fn_lookup_insert_ne. congruence. }
  destruct o; cbn in Hpre, Ha |- *; try (subst ch'; by apply Hid).
  - destruct Ha as [-> _]. by apply Hid.
  - destruct Ha as [-> _]. by apply Hid.
  - destruct Ha as (Hsrc & l & Hch & ->). destruct (Z.eqb_spec tag CIRCLE_TAG_REDUCE) as [->|]; [|by apply Hother].
    set (T' := λ a b, <[(src, p, CIRCLE_TAG_REDUCE) := l]> ch (a, b, CIRCLE_TAG_REDUCE)).
    assert (T' src p = l) as HT1 by apply fn_lookup_insert.
    assert (∀ a b, (a, b) ≠ (src, p) → T' a b = ch (a, b, CIRCLE_TAG_REDUCE)) as HT2.
    { intros a b Hab. apply fn_lookup_insert_ne. congruence. }
    destruct (Hpre eq_refl) as (Hup & Hsp & [(rest & Htodo)|Hout]).
    + rewrite bool_decide_true by (by rewrite Htodo).
      destruct (step_header total gh _ T' p src rest r l Hi Hp Hup Htodo Hch HT1 HT2) as (v & Hv & Hi').
      eexists. split; [by exists v|exact Hi'].
    + rewrite bool_decide_false.
      2: { intros Hh. apply Hout. by apply list.head_Some_elem_of. }
      exists (gh p). split; [done|]. eapply sum_same; [|done|done].
      by apply (step_data total gh (λ a b, ch (a, b, CIRCLE_TAG_REDUCE)) T' p src r l).
  - subst ch'. destruct (Z.eqb_spec tag CIRCLE_TAG_REDUCE) as [->|]; [|by apply Hother].
    destruct (Hpre eq_refl) as (Hp0 & -> & Hm).
    set (T' := λ a b, <[(p, par p, CIRCLE_TAG_REDUCE) := ch (p, par p, CIRCLE_TAG_REDUCE) ++ [p0]]> ch (a, b, CIRCLE_TAG_REDUCE)).
    assert (T' p (par p) = ch (p, par p, CIRCLE_TAG_REDUCE) ++ [p0]) as HT1 by apply fn_lookup_insert.
    assert (∀ a b, (a, b) ≠ (p, par p) → T' a b = ch (a, b, CIRCLE_TAG_REDUCE)) as HT2.
    { intros a b Hab. apply fn_lookup_insert_ne. congruence. }
    assert (0 < p < n) as Hpn by (unfold Network.is_rank in Hp; lia). eexists. split; [reflexivity|].
    destruct (is_header p0) eqn:Hh; cbn [andb].
    + destruct Hm as (Htodo & Hup & Hv). by eapply step_report.
    + eapply sum_same; [|done|done]. by apply (step_send_data total gh (λ a b, ch (a, b, CIRCLE_TAG_REDUCE)) T' p p0).
  - subst ch'. by apply Hother.
  - subst ch'. by apply Hother.
  - destruct Ha as [_ ->]. by apply Hid.
  - destruct Ha as [_ ->]. by apply Hid.
  - subst ch'. by apply Hother.
Qed.

(** When the root has heard all its children, everybody has reported and
    nothing is on its way. *)
Lemma all_reported total gh T p :
  sum_inv_on total gh T → s_todo (gh 0) = [] → is_rank p →
  s_todo (gh p) = [] ∧ (0 < p → s_up (gh p) = true ∧ no_header (T p (par p))).
Proof.
  intros Hi H0. revert p. apply rank_ind; [split; [done|lia]|].
  intros p Hp [IH _]. pose proof (si_edge _ _ _ Hi p Hp) as He. unfold edge in He. rewrite IH in He.
  destruct He as [(_ & _ & He)|[(_ & He & _)|(Hup & _ & Hno)]]; [by apply elem_of_nil in He..|].
  split; [|done]. by apply (si_node _ _ _ Hi p); [unfold Network.is_rank; lia|].
Qed.

Lemma root_total total gh T : sum_inv_on total gh T → s_todo (gh 0) = [] → s_val (gh 0) = total.
Proof.
  intros Hi H0. pose proof (si_sum _ _ _ Hi) as Hs.
  assert (sum_ranks n (on_way T) = 0) as Hw.
  { apply sum_zero. intros q Hq. unfold on_way. case_decide; [|done].
    apply no_header_total. by apply (all_reported total gh T q). }
  rewrite Hw in Hs. rewrite <-Hs.
  assert (sum_ranks n (λ q, s_val (gh q)) = sum_ranks n (λ q, if decide (q = 0) then s_val (gh 0) else 0)) as ->.
  { apply sum_ext. intros q Hq. case_decide as Hq0; [by subst|].
    assert (0 < q) as Hpos by (unfold Network.is_rank in Hq; lia).
    destruct (all_reported total gh T q Hi H0 Hq) as [_ Hr]. destruct (Hr Hpos) as [Hup _].
    by destruct (nd_up _ _ (si_node _ _ _ Hi q Hq) Hup) as (_ & _ & ->). }
  rewrite (sum_upd (λ _, 0) _ 0 is_rank_0) by (intros q Hq; by rewrite decide_False).
  rewrite (sum_zero (λ _, 0)) by done. rewrite decide_True by done. lia.
Qed.
End reduce.

(** ** The code keeps to the protocol *)

(** Calls that are not about reductions. *)
Definition off_reduce (o : op) : bool := negb (on_tag CIRCLE_TAG_REDUCE o).

#[export] Instance off_reduce_local : Local off_reduce.
Proof. split. by intros []. Qed.
#[export] Instance off_reduce_works : Works off_reduce.
Proof. by split. Qed.

Section code.
Context (n : Z) (par : Z → Z) (chs : Z → list Z) `{!IsTree n par chs}.
Context (p : Z) (Hp : is_rank n p) (t : CIRCLE_tree_state_st) (Ht : my_tree par chs p t).

Abbreviation safe u Q g := (wp (net_protocol (sum_pre par chs) (sum_post) p) u Q (λ _ _, True) g).

Lemma off_reduce_wp {A} (u : prog A) Φ (Q : rg → A → Prop) g :
  quiet off_reduce u Φ → (∀ a, Φ a → Q g a) → safe u Q g.
Proof.
  intros Hu HQ. induction u as [a|e|o k IH]; cbn in *; [auto|done|]. destruct Hu as [Ho Hk].
  unfold off_reduce in Ho. split.
  - destruct o; cbn in Ho |- *; try done; destruct (Z.eqb_spec tag CIRCLE_TAG_REDUCE); by intros.
  - intros r g' Hr. assert (g' = g) as ->; [|by apply IH].
    destruct o; cbn in Ho, Hr; try done; by destruct (tag =? CIRCLE_TAG_REDUCE).
Qed.

Lemma seq_quiet {A B} (u : prog A) (f : A → prog B) Φ (Q : rg → B → Prop) g :
  quiet off_reduce u Φ → (∀ a, Φ a → safe (f a) Q g) → safe (prog_bind f u) Q g.
Proof. intros Hu Hf. apply wp_seq. by eapply off_reduce_wp. Qed.

Lemma recv_header_wp c rest g :
  s_up g = false → s_todo g = c :: rest → c ∈ chs p →
  safe (recv_longs c CIRCLE_TAG_REDUCE) (λ g' x, g' = credit x.1.2 g) g.
Proof.
  intros Hup Htodo Hc. unfold recv_longs. apply wp_seq. split.
  { intros _. split; [done|]. split; [done|]. left. by exists rest. }
  intros m g'. cbn. rewrite bool_decide_true by (by rewrite Htodo). by intros (v & (a & b & ->) & ->).
Qed.

Lemma recv_data_wp c size g :
  s_up g = false → c ∈ chs p → c ∉ s_todo g → safe (recv_user_data c size) (λ g' _, g' = g) g.
Proof.
  intros Hup Hc Hout. unfold recv_user_data. cbn zeta. destruct (0 <? u64 size); [|done].
  eapply (seq_quiet _ _ (λ _, True)); [by split|]. intros inbuf _. apply wp_seq. split.
  { intros _. split; [done|]. split; [done|by right]. }
  intros m g'. cbn. rewrite bool_decide_false.
  2: { intros Hh. apply Hout. by apply list.head_Some_elem_of. }
  intros ->. destruct m as [l| |]; [|done..]. destruct (_ <? _); [done|].
  eapply off_reduce_wp with (Φ := λ _, True); [|done]. quiet_steps.
Qed.

Lemma sync_children_wp fuel m i r G g :
  s_todo g = drop i (chs p) → (length (chs p) = i + m)%nat → s_up g = false → reduce_buf1 r = s_val g →
  safe (reduce_sync_children fuel m (Z.of_nat i) t r G)
    (λ g' '(r', _), s_todo g' = [] ∧ s_up g' = false ∧ reduce_buf1 r' = s_val g') g.
Proof.
  revert i r G g. induction m as [|m IH]; intros i r G g Htodo Hl Hup Hv; cbn [reduce_sync_children].
  { rewrite drop_ge in Htodo by lia. done. }
  destruct (lookup_lt_is_Some_2 (chs p) i) as [c Hc]; [lia|].
  assert (c ∈ chs p) as Hin by (by eapply list_elem_of_lookup_2).
  rewrite (my_tree_child _ _ _ _ _ _ Ht Hc), bind_ret. rewrite (drop_S _ c) in Htodo by done.
  apply wp_seq. eapply wp_post, recv_header_wp; [|done..]. intros g' [[v0 v1] v2] ->. cbn [fst snd].
  assert (c ∉ drop (S i) (chs p)) as Hout.
  { pose proof (chs_nodup (n := n) p) as Hnd. rewrite <-(take_drop i (chs p)), (drop_S _ c) in Hnd by done.
    apply NoDup_app in Hnd as (_ & _ & Hnd). by apply NoDup_cons in Hnd as [? _]. }
  apply wp_seq. unfold i64. destruct (_ && _); [|done]. cbn [wp mret prog_mret].
  apply wp_seq. eapply wp_post, recv_data_wp; [|done|done|cbn; by rewrite Htodo].
  intros g' inbuf ->.
  eapply (seq_quiet _ _ (λ _, True)).
  { unfold call_reduce_op. destruct (reduce_op_cb _) as [f|]; [|done]. eapply quiet_mono; [|by apply quiet_user]. done. }
  intros G' _. eapply (seq_quiet _ _ (λ _, True)); [by apply quiet_free|]. intros _ _.
  replace (Z.of_nat i + 1) with (Z.of_nat (S i)) by lia.
  apply IH; [cbn; by rewrite Htodo|lia|done|cbn; by rewrite Hv].
Qed.

(** What the root has when it returns. *)
Definition root_done (g : rg) (x : reduce_st * globals) : Prop :=
  p = 0 → s_todo g = [] ∧ reduce_buf1 x.1 = s_val g.

Lemma reduce_sync_wp fuel count r G :
  safe (CIRCLE_reduce_sync fuel t count r G) root_done (RG count (chs p) false).
Proof.
  unfold CIRCLE_reduce_sync. cbn zeta.
  eapply (seq_quiet _ _ (λ _, True)).
  { unfold call_reduce_init. destruct (reduce_init_cb _); [|done]. eapply quiet_mono; [|by apply quiet_user]. done. }
  intros G1 _. rewrite (mt_children _ Ht), Nat2Z.id. apply wp_seq.
  eapply wp_post, (sync_children_wp fuel _ 0); [|done..].
  intros g [r1 G2] (Htodo & Hup & Hv). rewrite (mt_parent _ Ht). unfold is_rank in Hp. case_decide as H0.
  - rewrite Z.eqb_refl. cbn [negb]. eapply (seq_quiet _ _ (λ _, True)).
    { unfold call_reduce_fini. destruct (reduce_fini_cb _); [|done]. eapply quiet_mono; [|by apply quiet_user]. done. }
    intros G3 _. by intros _.
  - pose proof (par_lt p). rewrite (proj2 (Z.eqb_neq _ _)) by (unfold MPI_PROC_NULL; lia). cbn [negb].
    apply wp_seq. split.
    { intros _. cbn. split; [lia|]. split; [done|]. split; [done|]. split; [done|].
      eexists _, _. by rewrite Hv. }
    intros [] g' ->. cbn. apply wp_seq.
    eapply wp_post with (Q := λ (_ : rg) _, True); [by intros ? ? _ ?|].
    destruct (0 <? _); [|done]. unfold send_user_data.
    apply wp_seq. destruct (reduce_buf _) as [b|]; [|done]. cbn [deref wp].
    apply wp_seq. destruct (load_list b 0 _) as [l|]; [|done]. cbn [deref wp].
    split; [|done]. intros _. split; [lia|]. by split.
Qed.
End code.

(** ** All ranks together *)

Definition reduce_job (fuel : nat) (t : Z → CIRCLE_tree_state_st) (count : Z → Z) (r : Z → reduce_st)
    (G : Z → globals) : config (A := reduce_st * globals) (B := reduce_st * globals) :=
  Config (λ p, Main (CIRCLE_reduce_sync fuel (t p) (count p) (r p) (G p)) Ret) (λ _, []).

Section job.
Context (n : Z) (par : Z → Z) (chs : Z → list Z) `{!IsTree n par chs}.
Context (count : Z → Z).

Abbreviation ok := (network_ok n (sum_pre par chs) sum_post (sum_inv n par chs (sum_ranks n count))
  (λ _ _, True) root_done (λ _ _ _ _, True) (λ _, True)).

Definition start_count (p : Z) : rg := RG (count p) (chs p) false.

Lemma sum_start : sum_inv n par chs (sum_ranks n count) start_count (λ _, []).
Proof.
  split.
  - intros c Hc. left. split; [done|]. split; [done|]. change (c ∈ chs (par c)). by apply chs_spec.
  - intros p Hp. split; cbn; [|done]. split; [apply chs_nodup|done].
  - assert (sum_ranks n (on_way par (λ _ _, [])) = 0) as ->.
    { apply sum_zero. intros q _. unfold on_way. by case_decide. }
    rewrite Z.add_0_r. by apply sum_ext.
Qed.

Lemma root_done_step p g x o r g' :
  root_done p g x → sum_pre par chs p g o → sum_post p g o r g' → root_done p g' x.
Proof.
  intros Hx Hpre Hpost H0. destruct (Hx H0) as [Htodo Hv]. assert (g' = g) as ->; [|done].
  destruct o; cbn in Hpre, Hpost; try done; destruct (Z.eqb_spec tag CIRCLE_TAG_REDUCE) as [->|]; try done.
  - by rewrite Htodo in Hpost.
  - destruct (Hpre eq_refl) as [? _]. lia.
Qed.

Lemma reduce_job_ok fuel t r G c :
  (∀ p, is_rank n p → my_tree par chs p (t p)) → reachable n (reduce_job fuel t count r G) c → ok c.
Proof.
  intros Ht. apply network_sound; [|apply root_done_step|].
  - intros gh ch p o a ch'. by apply sum_inv_step.
  - exists start_count. split; [apply sum_start|]. intros p Hp. split; [done|].
    apply main_wp; [done|]. eapply wp_post, (reduce_sync_wp n par chs p Hp); [|by apply Ht]. done.
Qed.
End job.

(** C10 The final reduction counts everything once.  When all ranks run
    CIRCLE_reduce_sync, whatever their callbacks do and however the messages
    interleave, rank 0 ends with the sum of the counts of all ranks. *)
Theorem reduce_sync_total n k fuel t count r G c r' G' u :
  1 ≤ k → 0 < n → (∀ q, is_rank n q → tree_rep (t q) n k q) →
  reachable n (reduce_job fuel t count r G) c →
  procs c 0 = Drain (r', G') u →
  reduce_buf1 r' = sum_ranks n count.
Proof.
  intros Hk Hn Ht Hr Hd. pose proof (k_ary_tree n k Hk Hn) as Htree.
  destruct (reduce_job_ok n (tree_parent k) (tree_chs n k) count fuel t r G c) as (gh & Hi & Hok); [|done|].
  { intros q Hq. apply my_tree_rep; [apply Hq|by apply Ht]. }
  pose proof (Hok 0 is_rank_0) as Hx. rewrite Hd in Hx. destruct Hx as [Hx _].
  destruct (Hx eq_refl) as [Htodo Hv]. cbn in Hv. rewrite Hv. by eapply root_total.
Qed.

(** ** An example run: three ranks, each with a count and a byte of its own;
    the callback joins the bytes *)

Definition join_data (cur : user_data) (_ : Z) (inbuf : user_data) (_ : Z) : user :=
  match cur, inbuf with Some l, Some m => UReduce (l ++ m) UReturn | _, _ => UReturn end.
Definition sum_input : CIRCLE_input_st :=
  mk_input None None (Some (UReduce [Byte.x61] UReturn)) (Some join_data) (Some (λ _ _, UReturn))
    None 0 0 0 2 None.
Definition sum_trees (q : Z) : CIRCLE_tree_state_st := tree_of q 3 2.
Definition sum_counts (q : Z) : Z := 10 * q + 1.
Definition sum_job :=
  reduce_job 9 sum_trees sum_counts (λ _, mk_reduce_st 1 (double_of_int 0) (double_of_int 0) 0 0 0 0 0)
    (λ q, mk_globals sum_input 0 q 0 0).
Definition sum_end := exec_rounds 3 (λ _, false) 12 10 sum_job.
Definition total_seen (x : process (A := reduce_st * globals) (B := reduce_st * globals)) : option (Z * user_data) :=
  match x with
  | Drain a _ => let i := CIRCLE_INPUT_ST a.2 in Some (reduce_buf1 a.1, user_view (reduce_buf i) (reduce_buf_size i))
  | _ => None
  end.

Lemma sum_end_total : total_seen (procs sum_end 0) = Some (33, Some [Byte.x61; Byte.x61; Byte.x61]).
Proof. vm_compute. reflexivity. Qed.

Lemma reduce_sync_total_witness :
  ∃ r G u, procs sum_end 0 = Drain (r, G) u ∧ reduce_buf1 r = 33 ∧ reduce_buf1 r = sum_ranks 3 sum_counts.
Proof.
  pose proof sum_end_total as H.
  destruct (procs sum_end 0) as [|[r G] u] eqn:Hd; [done|]. cbn in H. injection H as H1 _.
  exists r, G, u. split; [done|]. split; [done|].
  apply (reduce_sync_total 3 2 9 sum_trees sum_counts
           (λ _, mk_reduce_st 1 (double_of_int 0) (double_of_int 0) 0 0 0 0 0)
           (λ q, mk_globals sum_input 0 q 0 0) sum_end r G u); [lia|lia| | |done].
  - intros q Hq. unfold is_rank in Hq. apply (tree_of_rep q 3 2); [done|lia| |decided]. unfold INT32_MAX. lia.
  - apply exec_rounds_reachable, rtc_refl.
Defined.
