(* ===== verification/Worker.v ===== *)
(** * The worker (CIRCLE_init_local_state, CIRCLE_finalize_local_state,
    CIRCLE_work_loop and CIRCLE_worker of src/libcircle/worker.c)

    [fuel] bounds the rounds of the loops that wait for other processes and
    the draws of CIRCLE_get_next_proc; a run that needs more of them stops
    with [NoFuel]. *)
From S2P Require Import Prelude CMonad Mem Heap Queue Checkpoint Wire Tree State Mpi Sends Transfer Barrier Term Abort Token Proc Api Reduce.
From Stdlib Require Import Floats.SpecFloat.

(** ** Initialisation

    The struct lives on the stack: what is not assigned keeps the arbitrary
    contents [st] it starts with. *)

Definition init_token (rank size : Z) (tk : token_st) : prog token_st :=
  src ← i32 (rank - 1 + size);
  src ← (if size =? 0 then Stop UB else mret (Z.rem src size));
  dest ← i32 (rank + 1 + size);
  mret (mk_token_st (if rank =? 0 then 1 else 0) WHITE BLACK src (Z.rem dest size) MPI_REQUEST_NULL).

(** calloc'd, so every cell is 0 *)
Definition init_offsets (str_count : Z) : prog offsets_st :=
  p ← call (OMalloc (u64 (u64 str_count * sizeof_int)));
  mret (mk_offsets_st str_count
          ((λ p, Block p str_count (blit ∅ 0 (replicate (Z.to_nat str_count) 0))) <$> p)).

Definition init_reduce (secs : Z) (now : double) (r : reduce_st) : reduce_st :=
  let secs := double_of_int secs in
  mk_reduce_st (if SFltb (S754_zero false) secs then 1 else 0) now secs 0
    (reduce_replies r) (reduce_buf0 r) (reduce_buf1 r) (reduce_buf2 r).

Fixpoint null_requests (n : nat) (i : Z) (b : option (block request)) : prog (option (block request)) :=
  match n with
  | O => mret b
  | S n => a ← deref b; a ← deref (store a i MPI_REQUEST_NULL); null_requests n (i + 1) (Some a)
  end.

Definition init_abort (t : CIRCLE_tree_state_st) : prog abort_st :=
  num_req ← (if negb (parent_rank t =? MPI_PROC_NULL) then i32 (children t + 1) else mret (children t));
  num_req ← i32 (num_req * 2);
  p ← call (OMalloc (u64 (num_req * sizeof_request)));
  req ← null_requests (Z.to_nat num_req) 0 ((λ p, Block p num_req ∅) <$> p);
  mret (mk_abort_st 0 0 num_req req).

Definition CIRCLE_init_local_state (fuel : nat) (g : globals) (st : CIRCLE_state_st)
    : prog CIRCLE_state_st :=
  rank ← call OCommRank;
  size ← call OCommSize;
  let st := set_st_size size (set_st_rank rank st) in
  tk ← init_token rank size (st_token st);
  let st := set_st_token tk st in
  qp ← the_queue g;
  o ← init_offsets (q_str_count qp);
  let st := set_st_offsets o st in
  p ← call (OMalloc (u64 (sizeof_int * u64 size)));
  let st := set_st_requestors ((λ p, Block p size ∅) <$> p) st in
  let st := set_st_seed (u32 rank) st in
  st ← CIRCLE_get_next_proc fuel st;
  let st := upd_request (λ r, set_work_request_req MPI_REQUEST_NULL (set_work_requested 0 r)) st in
  let st := set_st_send (mk_send_st 0 0 None None) st in
  let term_tree := if truth (Z.land (options (CIRCLE_INPUT_ST g)) CIRCLE_TERM_TREE) then 1 else 0 in
  t ← CIRCLE_tree_init rank size (tree_width (CIRCLE_INPUT_ST g));
  let st := set_st_tree t st in
  now ← call OWtime;
  let st := upd_reduce (init_reduce (reduce_period (CIRCLE_INPUT_ST g)) now) st in
  let st := set_st_barrier (mk_barrier_st 0 0 0) st in
  let st := set_st_term (mk_term_st term_tree 0 1 0 0) st in
  a ← init_abort t;
  let st := set_st_abort a st in
  mret (set_st_profile (mk_profile_st 0 0 0) st).

Definition CIRCLE_finalize_local_state (st : CIRCLE_state_st) : prog CIRCLE_state_st :=
  t ← CIRCLE_tree_free (st_tree st);
  sn ← CIRCLE_worksend_free (st_send st);
  _ ← CIRCLE_free (addr <$> abort_req (st_abort st));
  _ ← CIRCLE_free (addr <$> offsets_recv_buf (st_offsets st));
  _ ← CIRCLE_free (addr <$> st_requestors st);
  mret (set_st_tree t (set_st_send sn (set_st_requestors None
    (set_st_offsets (set_offsets_recv_buf None (st_offsets st))
       (upd_abort (set_abort_req None) st))))).

(** ** The parts of a round *)

(** CIRCLE_workreq_check on the process's own state. *)
Definition serve_requests (cleanup : Z) (g : globals) (st : CIRCLE_state_st)
    : prog (globals * CIRCLE_state_st) :=
  qp ← the_queue g;
  '(qp, st) ← CIRCLE_workreq_check (options (CIRCLE_INPUT_ST g)) (CIRCLE_ABORT_FLAG g) qp st cleanup;
  mret (put_queue qp g, st).

Definition reap_sends (st : CIRCLE_state_st) : prog CIRCLE_state_st :=
  sn ← CIRCLE_worksend_check (st_send st); mret (set_st_send sn st).

Definition check_abort (cleanup : Z) (g : globals) (st : CIRCLE_state_st)
    : prog (globals * CIRCLE_state_st) :=
  '(abort, a) ← CIRCLE_abort_check (CIRCLE_ABORT_FLAG g) (st_tree st) (st_abort st) cleanup;
  mret (set_abort_flag abort g, set_st_abort a st).

Definition check_reduce (fuel : nat) (cleanup : Z) (g : globals) (st : CIRCLE_state_st)
    : prog (globals * CIRCLE_state_st) :=
  if truth (reduce_enabled (st_reduce st)) then
    '(r, g) ← CIRCLE_reduce_check fuel (st_tree st) (local_objects_processed (st_profile st))
                cleanup (st_reduce st) g;
    mret (g, set_st_reduce r st)
  else mret (g, st).

Definition request_work (fuel : nat) (cleanup : Z) (g : globals) (st : CIRCLE_state_st)
    : prog (globals * CIRCLE_state_st) :=
  qp ← the_queue g;
  '(_, abort, qp, st) ← CIRCLE_request_work fuel (CIRCLE_ABORT_FLAG g) qp st cleanup;
  mret (set_abort_flag abort (put_queue qp g), st).

Definition check_termination (g : globals) (st : CIRCLE_state_st) : prog (Z * CIRCLE_state_st) :=
  if truth (term_tree_enabled (st_term st)) then
    '(status, s) ← CIRCLE_check_for_term_allreduce (st_tree st) (st_term st);
    mret (status, set_st_term s st)
  else
    '(status, tk) ← CIRCLE_check_for_term (CIRCLE_ABORT_FLAG g) (st_rank st) (st_size st) (st_token st);
    mret (status, set_st_token tk st).

(** ** The loops *)

(** One round of the main loop; [true] ends it. *)
Definition work_round (fuel : nat) (g : globals) (st : CIRCLE_state_st)
    : prog (bool * globals * CIRCLE_state_st) :=
  '(g, st) ← serve_requests 0 g st;
  st ← CIRCLE_workreceipt_check st;
  st ← reap_sends st;
  '(g, st) ← check_abort 0 g st;
  '(g, st) ← check_reduce fuel 0 g st;
  qp ← the_queue g;
  '(g, st) ← (if q_count qp =? 0 then request_work fuel 0 g st else mret (g, st));
  qp ← the_queue g;
  if (0 <? q_count qp) && negb (truth (CIRCLE_ABORT_FLAG g)) then
    g ← call_cb fuel (process_cb (CIRCLE_INPUT_ST g)) g;
    n ← i32 (local_objects_processed (st_profile st) + 1);
    mret (false, g, upd_profile (set_local_objects_processed n) st)
  else
    '(status, st) ← check_termination g st;
    mret (status =? TERMINATE, g, st).

Fixpoint work_rounds (n fuel : nat) (g : globals) (st : CIRCLE_state_st)
    : prog (globals * CIRCLE_state_st) :=
  match n with
  | O => Stop NoFuel
  | S n =>
      '(stop, g, st) ← work_round fuel g st;
      if stop : bool then mret (g, st) else work_rounds n fuel g st
  end.

(** Nothing of this process is outstanding. *)
Definition drained (st : CIRCLE_state_st) : bool :=
  negb (truth (work_requested (st_request st))) &&
  negb (truth (reduce_outstanding (st_reduce st))) &&
  negb (truth (abort_outstanding (st_abort st))) &&
  (send_count (st_send st) =? 0) &&
  bool_decide (work_request_req (st_request st) = MPI_REQUEST_NULL) &&
  bool_decide (token_send_req (st_token st) = MPI_REQUEST_NULL).

(** [MPI_Test(&token_send_req)] if a token is outstanding. *)
Definition test_token (tk : token_st) : prog token_st :=
  match token_send_req tk with
  | None => mret tk
  | Some _ => '(_, r) ← MPI_Test (token_send_req tk); mret (set_token_send_req r tk)
  end.

(** One round of the cleanup loop; [true] ends it. *)
Definition cleanup_round (fuel : nat) (g : globals) (st : CIRCLE_state_st)
    : prog (bool * globals * CIRCLE_state_st) :=
  let st := if drained st then upd_barrier CIRCLE_barrier_start st else st in
  '(done, b) ← CIRCLE_barrier_test (st_tree st) (st_barrier st);
  let st := set_st_barrier b st in
  if truth done then mret (true, g, st)
  else
    '(g, st) ← serve_requests 1 g st;
    st ← reap_sends st;
    '(g, st) ← check_reduce fuel 1 g st;
    '(g, st) ← request_work fuel 1 g st;
    '(g, st) ← check_abort 1 g st;
    if negb (truth (term_tree_enabled (st_term st))) then
      tk ← CIRCLE_token_check (CIRCLE_ABORT_FLAG g) (st_rank st) (st_size st) (st_token st);
      tk ← test_token tk;
      mret (false, g, set_st_token tk st)
    else mret (false, g, st).

Fixpoint cleanup_rounds (n fuel : nat) (g : globals) (st : CIRCLE_state_st)
    : prog (globals * CIRCLE_state_st) :=
  match n with
  | O => Stop NoFuel
  | S n =>
      '(stop, g, st) ← cleanup_round fuel g st;
      if stop : bool then mret (g, st) else cleanup_rounds n fuel g st
  end.

(** After the cleanup: outstanding sends, the last reduction and the agreement
    on the abort state. *)
Definition finish_sync (fuel : nat) (g : globals) (st : CIRCLE_state_st)
    : prog (globals * CIRCLE_state_st) :=
  '(req, sn) ← CIRCLE_worksend_wait (work_request_req (st_request st)) (st_send st);
  let st := upd_request (set_work_request_req req) (set_st_send sn st) in
  '(r, g) ← (if truth (reduce_enabled (st_reduce st)) then
               CIRCLE_reduce_sync fuel (st_tree st) (local_objects_processed (st_profile st))
                 (st_reduce st) g
             else mret (st_reduce st, g));
  let st := set_st_reduce r st in
  '(abort, a) ← CIRCLE_abort_reduce (CIRCLE_ABORT_FLAG g) (st_tree st) (st_abort st);
  mret (set_abort_flag abort g, set_st_abort a st).

(** Everything after the main loop. *)
Definition finish_loop (fuel : nat) (g : globals) (st : CIRCLE_state_st)
    : prog (globals * CIRCLE_state_st) :=
  '(g, st) ← cleanup_rounds fuel fuel g st;
  finish_sync fuel g st.

Definition CIRCLE_work_loop (fuel : nat) (g : globals) (st : CIRCLE_state_st)
    : prog (globals * CIRCLE_state_st) :=
  '(g, st) ← work_rounds fuel fuel g st;
  finish_loop fuel g st.

(** ** The whole worker *)

(** MPI_Gather of an int per rank into [&array[0]], which MPI writes on rank 0
    alone; the array is calloc'd, and not checked. *)
Definition summary_gather (rank v : Z) (array : ptr) : prog (list Z) :=
  _ ← (if rank =? 0 then _ ← deref array; mret tt else mret tt);
  call (OGather v).

(** The summary of a run at log level INFO: what rank 0 gathers and prints.
    The three arrays are freed in the opposite order. *)
Definition worker_summary (rank size : Z) (p : profile_st) : prog (list Z * list Z * list Z * Z) :=
  a ← call (OMalloc (u64 (u64 size * 4)));
  b ← call (OMalloc (u64 (u64 size * 4)));
  c ← call (OMalloc (u64 (u64 size * 4)));
  processed ← summary_gather rank (local_objects_processed p) a;
  requested ← summary_gather rank (local_work_requested p) b;
  no_work ← summary_gather rank (local_no_work_received p) c;
  total ← call (OReduceSum (local_objects_processed p));
  _ ← CIRCLE_free c;
  _ ← CIRCLE_free b;
  _ ← CIRCLE_free a;
  mret (processed, requested, no_work, total).

Definition CIRCLE_LOG_INFO : Z := 4.

(** [junk] is what the stack holds where the state struct is put. *)
Definition CIRCLE_worker (fuel : nat) (junk : CIRCLE_state_st) (g : globals) : prog (Z * globals) :=
  rank ← call OCommRank;
  size ← call OCommSize;
  st ← CIRCLE_init_local_state fuel g junk;
  g ← (if (rank =? 0) || truth (Z.land (options (CIRCLE_INPUT_ST g)) CIRCLE_CREATE_GLOBAL)
       then call_cb fuel (create_cb (CIRCLE_INPUT_ST g)) g else mret g);
  '(g, st) ← CIRCLE_work_loop fuel g st;
  g ← (if truth (CIRCLE_ABORT_FLAG g) then CIRCLE_checkpoint g else mret g);
  _ ← (if CIRCLE_LOG_INFO <=? CIRCLE_debug_level g then
         _ ← worker_summary rank size (st_profile st); mret tt
       else mret tt);
  _ ← CIRCLE_finalize_local_state st;
  mret (0, g).

(** CIRCLE_worker cut at the end of the main loop: up to there, and from
    there on. *)
Definition worker_main (fuel : nat) (junk : CIRCLE_state_st) (g : globals)
    : prog (Z * Z * globals * CIRCLE_state_st) :=
  rank ← call OCommRank;
  size ← call OCommSize;
  st ← CIRCLE_init_local_state fuel g junk;
  g ← (if (rank =? 0) || truth (Z.land (options (CIRCLE_INPUT_ST g)) CIRCLE_CREATE_GLOBAL)
       then call_cb fuel (create_cb (CIRCLE_INPUT_ST g)) g else mret g);
  '(g, st) ← work_rounds fuel fuel g st;
  mret (rank, size, g, st).

Definition worker_end (rank size : Z) (g : globals) (st : CIRCLE_state_st) : prog (Z * globals) :=
  g ← (if truth (CIRCLE_ABORT_FLAG g) then CIRCLE_checkpoint g else mret g);
  _ ← (if CIRCLE_LOG_INFO <=? CIRCLE_debug_level g then
         _ ← worker_summary rank size (st_profile st); mret tt
       else mret tt);
  _ ← CIRCLE_finalize_local_state st;
  mret (0, g).

Definition worker_rest (fuel : nat) (x : Z * Z * globals * CIRCLE_state_st) : prog (Z * globals) :=
  let '(rank, size, g, st) := x in
  '(g, st) ← finish_loop fuel g st;
  worker_end rank size g st.

Lemma worker_cut fuel junk g :
  CIRCLE_worker fuel junk g ≡ worker_main fuel junk g ≫= worker_rest fuel.
Proof.
  unfold CIRCLE_worker, worker_main, CIRCLE_work_loop, mbind, prog_mbind.
  constructor. intros rank. cbn [prog_bind]. constructor. intros size. cbn [prog_bind].
  rewrite bind_assoc. f_equiv. intros st. rewrite bind_assoc. f_equiv. intros g'.
  rewrite !bind_assoc. f_equiv. by intros [g1 st1].
Qed.
