(* ===== verification/QuietWorker.v ===== *)
(** * The worker keeps to a set of calls

    The lemmas of Quiet for the functions of work transfer, termination and
    the worker itself: which tags each of them talks on, and which parts of
    the worker's state it leaves alone. *)
From S2P Require Import Prelude CMonad Mem Heap Queue Stdio Checkpoint Wire Tree Split State Mpi Sends Transfer Barrier Term Abort Token Network Proc Api Reduce Quiet Worker.

(** ** Work transfer *)

Lemma load_nonneg {A} (b : block A) i x : load b i = Some x → 0 ≤ i.
Proof. unfold load, in_block. destruct (Z.leb_spec 0 i); [done|]. by intros. Qed.

(** Nothing below the bottom of the queue is read. *)
Lemma quiet_send_extent {K} `{!Local K} qp c e (Φ : Z * Z → Prop) :
  (∀ x, 0 ≤ q_count qp - c → Φ x) → quiet K (send_extent qp c e) Φ.
Proof.
  intros H. unfold send_extent. apply quiet_bind, quiet_i32.
  apply quiet_bind. destruct (q_strings qp) as [m|]; cbn [deref quiet mret prog_mret]; [|done].
  apply quiet_bind. destruct (load m (q_count qp - c)) as [s|] eqn:Hl; cbn [deref quiet mret prog_mret]; [|done].
  apply load_nonneg in Hl. quiet_steps; by apply H.
Qed.

(** Backing off leaves at least one item. *)
Lemma quiet_back_off {K} `{!Local K} fuel qp e c s l (Φ : Z * Z * Z → Prop) :
  1 ≤ c → 0 ≤ q_count qp - c → (∀ c' s' l', 1 ≤ c' → 0 ≤ q_count qp - c' → Φ (c', s', l')) →
  quiet K (back_off fuel qp e c s l) Φ.
Proof.
  intros Hc Hq H. revert c s l Hc Hq. induction fuel as [|fuel IH]; intros c s l Hc Hq; cbn [back_off].
  - destruct (_ && _); [done|]. by apply H.
  - destruct (_ <? _) eqn:?, (Z.ltb_spec 1 c); cbn [andb]; try (by apply H).
    cbn zeta. apply quiet_bind, quiet_send_extent. intros [s' l'] Hq'. apply IH; [|done].
    pose proof (Z.quot_div_nonneg c 10) as Hdiv.
    assert (c / 10 * 10 ≤ c) by (rewrite Z.mul_comm; by apply Z.mul_div_le).
    destruct (_ <=? _); [lia|]. rewrite Hdiv by lia. lia.
Qed.

Lemma quiet_workreq_loop {K} `{!Local K, !Talks K CIRCLE_TAG_WORK_REQUEST} m rc rq Φ : (∀ x, Φ x) → quiet K (workreq_loop m rc rq) Φ.
Proof.
  intros H. revert rc rq. induction m as [|m IH]; intros rc rq; cbn [workreq_loop]; [done|].
  apply quiet_bind. split; [quiet_call|]. intros [[rank ?]|]; cbn [quiet]; [|apply H].
  apply quiet_bind. split; [quiet_call|]. intros ?. cbn [quiet].
  destruct rq as [b|]; [|done]. cbn [deref mbind prog_mbind prog_bind].
  destruct (store b rc rank); [|done]. cbn [deref mbind prog_mbind prog_bind].
  apply quiet_bind, quiet_i32. apply IH.
Qed.

Lemma quiet_receive_offsets {K} `{!Local K} m i b s Φ : (∀ x, Φ x) → quiet K (receive_offsets m i b s) Φ.
Proof.
  intros H. revert i s. induction m as [|m IH]; intros i s; cbn [receive_offsets]; [apply H|].
  quiet_steps; apply IH.
Qed.


(** The communication tree and the barrier stay as they are. *)
Definition sync_frame (st st' : CIRCLE_state_st) : Prop :=
  st_tree st' = st_tree st ∧ st_barrier st' = st_barrier st.

#[export] Instance sync_frame_preorder : PreOrder sync_frame.
Proof. split; [by intros st|]. intros s1 s2 s3 [? ?] [? ?]. split; by etrans. Qed.

(** The place of the process and its part in the token ring stay, except that
    giving work away may turn the process black. *)
Definition ring_frame (st st' : CIRCLE_state_st) : Prop :=
  (st_token st' = st_token st ∨ st_token st' = set_token_proc BLACK (st_token st)) ∧
  (st_rank st' = st_rank st ∧ st_size st' = st_size st) ∧
  term_tree_enabled (st_term st') = term_tree_enabled (st_term st).

#[export] Instance ring_frame_preorder : PreOrder ring_frame.
Proof.
  split; [intros st; split; [by left|done]|].
  intros s1 s2 s3 (Ht & [? ?] & ?) (Ht' & [? ?] & ?). split; [|split; [split|]; by etrans].
  destruct Ht' as [Ht'|Ht'], Ht as [Ht|Ht]; rewrite Ht', Ht; [by left|by right|by right|by right].
Qed.

Definition work_frame (st st' : CIRCLE_state_st) : Prop := sync_frame st st' ∧ ring_frame st st'.

#[export] Instance work_frame_preorder : PreOrder work_frame.
Proof. split; [by intros st|]. intros s1 s2 s3 [? ?] [? ?]. split; by etrans. Qed.

(** An assignment to another part of the state. *)
Lemma work_frame_same st st' :
  st_tree st' = st_tree st → st_barrier st' = st_barrier st → st_token st' = st_token st →
  st_rank st' = st_rank st → st_size st' = st_size st →
  term_tree_enabled (st_term st') = term_tree_enabled (st_term st) → work_frame st st'.
Proof. intros. split; [by split|]. split; [by left|by split]. Qed.

(** Receiving and requesting leave more alone. *)
Definition recv_frame (st st' : CIRCLE_state_st) : Prop :=
  sync_frame st st' ∧ st_token st' = st_token st ∧ st_term st' = st_term st ∧
  st_rank st' = st_rank st ∧ st_size st' = st_size st.

Lemma recv_work st st' : recv_frame st st' → work_frame st st'.
Proof. intros ([? ?] & ? & Ht & ? & ?). apply work_frame_same; rewrite ?Ht; done. Qed.

(** The replies of a process whose abort flag is [abort]: a refusal, a header
    with a positive number of items, or the characters of the items. *)
Definition reply_ok (abort : Z) (m : payload) : bool :=
  match m with
  | Bytes _ => true
  | Ints [x] => (0 <? x) || (x =? if truth abort then PAYLOAD_ABORT else 0)
  | Ints (x :: _) => 0 <? x
  | _ => false
  end.

Class Replies (K : op → bool) (abort : Z) : Prop := MkReplies {
  replies_ok : ∀ dst m b, reply_ok abort m = true → K (OIsend dst CIRCLE_TAG_WORK_REPLY m b) = true;
}.
#[export] Hint Mode Replies ! - : typeclass_instances.
#[export] Instance talks_replies {K} `{!Talks K CIRCLE_TAG_WORK_REPLY} abort : Replies K abort.
Proof. split. intros. by apply (talks_ok (tag := CIRCLE_TAG_WORK_REPLY)). Qed.

(** A write behind the first cell. *)
Lemma store_cells {A} (b b' : block A) i (x y : A) :
  store b i y = Some b' → i ≠ 0 → cells b !! 0 = Some x → cells b' !! 0 = Some x.
Proof.
  unfold store, store_list. destruct (in_block _ _ _); [|done]. intros [= <-] Hi Hx. simpl.
  by rewrite lookup_insert_ne.
Qed.

(** The header of a transfer stays in front of the offsets. *)
Lemma quiet_send_offsets {K} `{!Local K} m i e s strings b x :
  0 ≤ i → cells b !! 0 = Some x →
  quiet K (send_offsets m i e s strings b) (λ b', cells b' !! 0 = Some x).
Proof.
  revert i e b. induction m as [|m IH]; intros i e b Hi Hx; cbn [send_offsets]; [done|].
  apply quiet_bind. destruct (load strings e) as [y|]; cbn; [|done].
  destruct (store b (2 + i) (to_i32 (u64 (y - s)))) as [b'|] eqn:Hs; cbn; [|done]. apply IH; [lia|].
  eapply store_cells; [exact Hs|lia|done].
Qed.

Lemma load_list_head {A} (b : block A) m x l :
  load_list b 0 m = Some l → 0 < m → cells b !! 0 = Some x → ∃ l', l = x :: l'.
Proof.
  unfold load_list. destruct (in_block _ _ _); [|done]. intros Hr Hm Hx.
  destruct (Z.to_nat m) as [|k] eqn:Hk; [lia|]. simpl in Hr. rewrite Hx in Hr.
  destruct (read_cells _ _ k); [|done]. injection Hr as <-. eauto.
Qed.

(** ** The messages of a transfer, in any protocol

    [quiet] is itself a protocol. *)
Definition quiet_protocol (K : op → bool) : protocol :=
  {| ghost := unit; pre _ o := K o = true; post _ _ _ _ := True |}.

Lemma quiet_protocol_wp {K A} (t : prog A) Φ :
  quiet K t Φ ↔ wp (quiet_protocol K) t (λ _, Φ) (λ _ _, True) tt.
Proof.
  induction t as [a|e|o k IH]; cbn; [done|done|]. split.
  - intros [Ho Hk]. split; [done|]. intros r [] _. by apply IH.
  - intros [Ho Hk]. split; [done|]. intros r. by apply IH, Hk.
Qed.

Lemma quiet_sub (K K' : op → bool) {A} (t : prog A) Φ :
  (∀ o, K o = true → K' o = true) → quiet K t Φ → quiet K' t Φ.
Proof. intros HK. induction t as [a|e|o k IH]; cbn; [done|done|]. intros [Ho Hk]. auto. Qed.

#[export] Instance local_op_local : Local local_op.
Proof. by split. Qed.

Section messages.
Context (P : protocol).
Abbreviation safe t Q g := (wp P t Q (λ _ _, True) g).
Context (local_safe : ∀ A (t : prog A) Φ (Q : ghost P → A → Prop) g,
  quiet local_op t Φ → (∀ a, Φ a → Q g a) → safe t Q g).

Lemma track_any sn r b (Q : ghost P → send_st → Prop) g :
  (∀ sn', Q g sn') → safe (CIRCLE_worksend_track sn r b) Q g.
Proof. intros H. eapply local_safe; [by apply (quiet_track _ _ _ (λ _, True))|auto]. Qed.

Lemma local_call_wp {A} o (k : ans o → prog A) (Q : ghost P → A → Prop) g :
  local_op o = true → (∀ r, safe (k r) Q g) → safe (prog_bind k (call o)) Q g.
Proof. intros Ho Hk. apply wp_seq. eapply (local_safe _ _ (λ _, True)); [by split|]. intros r _. apply Hk. Qed.

(** A refusal is one number. *)
Lemma send_no_work_message abort sn dest (Q : ghost P → send_st → Prop) g :
  (∀ b, safe (call (OIsend dest CIRCLE_TAG_WORK_REPLY (Ints [if truth abort then PAYLOAD_ABORT else 0]) b))
     (λ g' _, ∀ sn', Q g' sn') g) →
  safe (CIRCLE_send_no_work abort sn dest) Q g.
Proof.
  intros H. unfold CIRCLE_send_no_work. apply local_call_wp; [done|]. intros [b|]; [|done].
  change (safe (data ← deref (load_list (Block b 2 (<[1 := 0]>
    (<[0 := if truth abort then PAYLOAD_ABORT else 0]> (∅ : gmap Z Z)))) 0 1);
    req ← call (OIsend dest CIRCLE_TAG_WORK_REPLY (Ints data) (Some b));
    CIRCLE_worksend_track sn (Some req) (Some b)) Q g).
  change (load_list _ 0 1) with (Some [if truth abort then PAYLOAD_ABORT else 0]).
  cbn [deref mbind prog_mbind prog_bind]. apply wp_seq. eapply wp_post, H. intros g' r HQ. by apply track_any.
Qed.

(** A transfer is a header that starts with the number of items, and the
    characters. *)
Lemma send_items_messages qp sn dest count start bytes (R : ghost P → Prop) (Q : ghost P → send_st → Prop) g :
  1 ≤ count →
  (∀ l b, safe (call (OIsend dest CIRCLE_TAG_WORK_REPLY (Ints (count :: l)) b)) (λ g' _, R g') g) →
  (∀ l b g', R g' →
     safe (call (OIsend dest CIRCLE_TAG_WORK_REPLY (Bytes l) b)) (λ g'' _, ∀ sn', Q g'' sn') g') →
  safe (send_items qp sn dest count start bytes) Q g.
Proof.
  intros Hc H1 H2. unfold send_items.
  apply wp_seq. eapply local_safe; [by apply (quiet_i32 _ (λ x, x = 2 + count))|]. intros m ->.
  apply local_call_wp; [done|]. intros po. apply local_call_wp; [done|]. intros pb.
  destruct po as [po|], pb as [pb|]; [|done..].
  unfold store_list at 1, in_block at 1. cbn [cap addr cells].
  rewrite (proj2 (Z.leb_le 0 0)), (proj2 (Z.leb_le _ (2 + count))) by (simpl; lia).
  cbn [deref andb mbind prog_mbind prog_bind].
  set (b0 := Block _ _ _). assert (cells b0 !! 0 = Some count) as Hb0 by apply lookup_insert_eq.
  clearbody b0. apply wp_seq. eapply local_safe; [by apply (quiet_i32 _ (λ _, True))|]. intros start_elem _.
  destruct (q_strings qp) as [strings|]; [|done]. cbn [deref mbind prog_mbind prog_bind].
  apply wp_seq. eapply local_safe; [by apply quiet_send_offsets|]. intros b1 Hb1.
  destruct (q_base qp) as [base|]; [|done]. cbn [deref mbind prog_mbind prog_bind].
  destruct (load_list base start bytes) as [text|]; [|done]. cbn [deref mbind prog_mbind prog_bind].
  destruct (load_list b1 0 (2 + count)) as [data|] eqn:Hd; [|done]. cbn [deref mbind prog_mbind prog_bind].
  destruct (load_list_head _ _ _ _ Hd ltac:(lia) Hb1) as [l' ->].
  apply wp_seq. eapply wp_post, H1. intros g1 r HR. apply wp_seq, track_any. intros sn1.
  apply wp_seq. eapply wp_post, H2, HR. intros g2 r' HQ. by apply track_any.
Qed.
End messages.

(** Serving requests leaves alone what the process asks for itself, and the
    reductions. *)
Definition serve_frame (st st' : CIRCLE_state_st) : Prop :=
  work_frame st st' ∧ st_request st' = st_request st ∧ st_next_processor st' = st_next_processor st ∧
  st_reduce st' = st_reduce st.

#[export] Instance serve_frame_preorder : PreOrder serve_frame.
Proof.
  split; [by intros st|]. intros s1 s2 s3 (? & ? & ? & ?) (? & ? & ? & ?).
  split; [by etrans|]. repeat split; by etrans.
Qed.

(** ** Serving requests, in any protocol

    [I] is what the ghost state satisfies whenever no transfer is half sent. *)
Section serve.
Context (P : protocol) (I : ghost P → Prop) (abort : Z).
Abbreviation safe t Q g := (wp P t Q (λ _ _, True) g).
Context (local_safe : ∀ A (t : prog A) Φ (Q : ghost P → A → Prop) g,
  quiet local_op t Φ → (∀ a, Φ a → Q g a) → safe t Q g).
Context (none_safe : ∀ dest b g, I g →
  safe (call (OIsend dest CIRCLE_TAG_WORK_REPLY (Ints [if truth abort then PAYLOAD_ABORT else 0]) b)) (λ g' _, I g') g).
Context (items_safe : ∀ dest count l b g, I g → 1 ≤ count →
  safe (call (OIsend dest CIRCLE_TAG_WORK_REPLY (Ints (count :: l)) b))
    (λ g' _, ∀ l' b', safe (call (OIsend dest CIRCLE_TAG_WORK_REPLY (Bytes l') b')) (λ g'' _, I g'') g') g).
Context (loop_safe : ∀ m rc rq g, I g → safe (workreq_loop m rc rq) (λ g' _, I g') g).

Lemma local_seq {A B} (t : prog A) (f : A → prog B) Φ (Q : ghost P → B → Prop) g :
  quiet local_op t Φ → (∀ a, Φ a → safe (f a) Q g) → safe (prog_bind f t) Q g.
Proof. intros Ht Hf. apply wp_seq. by eapply local_safe. Qed.

Lemma send_no_work_keeps sn dest g : I g → safe (CIRCLE_send_no_work abort sn dest) (λ g' _, I g') g.
Proof.
  intros Hg. apply (send_no_work_message P local_safe). intros b. by eapply wp_post, none_safe; [auto|].
Qed.

Lemma send_items_keeps qp sn dest c s l g :
  1 ≤ c → I g → safe (send_items qp sn dest c s l) (λ g' _, I g') g.
Proof.
  intros Hc Hg. apply (send_items_messages P local_safe _ _ _ _ _ _
    (λ g', ∀ l' b', safe (call (OIsend dest CIRCLE_TAG_WORK_REPLY (Bytes l') b')) (λ g'' _, I g'') g')); [done|..].
  - intros l' b. by apply items_safe.
  - intros l' b g' Hg'. eapply wp_post, Hg'. auto.
Qed.

Lemma send_work_keeps qp st dest count g :
  I g → safe (CIRCLE_send_work abort qp st dest count) (λ g' '(_, _, st'), I g' ∧ serve_frame st st') g.
Proof.
  intros Hg. unfold CIRCLE_send_work. destruct (Z.leb_spec count 0).
  { apply wp_seq. eapply wp_post, send_no_work_keeps, Hg. intros g' sn Hg'. split; [done|by split; [apply work_frame_same|]]. }
  cbn zeta. set (st1 := if _ || _ then _ else _).
  assert (serve_frame st st1) as Hf.
  { subst st1. destruct (_ || _); [|done]. split; [|done]. split; [done|]. split; [by right|done]. }
  clearbody st1. eapply local_seq; [by apply (quiet_i32 _ (λ _, True))|]. intros e _.
  destruct (q_strings qp) as [strings|]; [|done]. cbn [deref mbind prog_mbind prog_bind].
  destruct (load strings e) as [end_offset|]; [|done]. cbn [deref mbind prog_mbind prog_bind].
  eapply local_seq; [by apply (quiet_send_extent _ _ _ (λ _, 0 ≤ q_count qp - count)); intros|]. intros [s l] Hq.
  eapply local_seq; [by apply (quiet_back_off _ _ _ _ _ _ (λ x, 1 ≤ x.1.1)); [lia|done|]|].
  intros [[c s'] l'] Hc. cbn in Hc. destruct (_ <? l').
  - apply wp_seq. eapply wp_post, send_no_work_keeps, Hg. intros g' sn Hg'. split; [done|].
    etrans; [exact Hf|by split; [apply work_frame_same|]].
  - apply wp_seq. eapply wp_post, send_items_keeps, Hg; [|done]. intros g' sn Hg'.
    eapply (local_safe _ _ (λ x, serve_frame st x.2)); [|intros [[rc qp'] st'] Hx; by split].
    quiet_steps.
Qed.

Lemma send_work_loop_keeps m i rq sz qp st g :
  I g → safe (send_work_loop m i abort rq sz qp st) (λ g' '(_, st'), I g' ∧ serve_frame st st') g.
Proof.
  revert i qp st g. induction m as [|m IH]; intros i qp st g Hg; cbn [send_work_loop]; [done|].
  destruct (load rq i) as [dest|]; [|done]. cbn [deref mbind prog_mbind prog_bind].
  destruct (load sz (i + 1)) as [count|]; [|done]. cbn [deref mbind prog_mbind prog_bind].
  apply wp_seq. eapply wp_post, send_work_keeps, Hg. intros g1 [[rc qp1] st1] [Hg1 Hf1].
  eapply wp_post, IH, Hg1. intros g2 [qp2 st2] [Hg2 Hf2]. split; [done|]. by etrans.
Qed.

Lemma send_to_many_keeps o qp st rq rc g :
  I g → safe (CIRCLE_send_work_to_many o abort qp st rq rc) (λ g' '(_, st'), I g' ∧ serve_frame st st') g.
Proof.
  intros Hg. unfold CIRCLE_send_work_to_many. destruct (rc <=? 0); [done|].
  eapply local_seq; [by apply (quiet_split _ _ _ _ (λ _, True))|]. intros [[sizes|] seed] _; [|done].
  cbn [deref mbind prog_mbind prog_bind]. apply wp_seq. eapply wp_post, send_work_loop_keeps, Hg.
  intros g' [qp' st'] [Hg' Hf]. eapply local_call_wp; [exact local_safe|done|]. intros []. split; [done|].
  etrans; [|exact Hf]. by split; [apply work_frame_same|].
Qed.

Lemma no_work_loop_keeps m i rq sn g : I g → safe (no_work_loop m i abort rq sn) (λ g' _, I g') g.
Proof.
  revert i sn g. induction m as [|m IH]; intros i sn g Hg; cbn [no_work_loop]; [done|].
  destruct (load rq i) as [dest|]; [|done]. cbn [deref mbind prog_mbind prog_bind].
  apply wp_seq. eapply wp_post, send_no_work_keeps, Hg. intros g' sn'. apply IH.
Qed.

Lemma workreq_check_keeps o qp st cleanup g :
  I g → safe (CIRCLE_workreq_check o abort qp st cleanup) (λ g' '(_, st'), I g' ∧ serve_frame st st') g.
Proof.
  intros Hg. unfold CIRCLE_workreq_check. apply wp_seq. eapply wp_post, loop_safe, Hg.
  clear g Hg. intros g [rc rq] Hg. cbn zeta.
  destruct (rc =? 0); [split; [done|by split; [apply work_frame_same|]]|].
  destruct rq as [rq|]; [|done]. cbn [deref mbind prog_mbind prog_bind].
  eapply local_seq; [by apply (quiet_i32 _ (λ _, True))|]. intros backlog _. destruct (_ || _).
  - apply wp_seq. eapply wp_post, no_work_loop_keeps, Hg. intros g' sn Hg'. split; [done|by split; [apply work_frame_same|]].
  - eapply wp_post, send_to_many_keeps, Hg. intros g' [qp' st'] [Hg' Hf]. split; [done|].
    etrans; [|exact Hf]. by split; [apply work_frame_same|].
Qed.
End serve.

Section serve_quiet.
Context {K : op → bool} `{!Local K} (abort : Z) `{!Replies K abort}.

Lemma local_quiet_wp A (t : prog A) Φ (Q : unit → A → Prop) g :
  quiet local_op t Φ → (∀ a, Φ a → Q g a) → wp (quiet_protocol K) t Q (λ _ _, True) g.
Proof.
  intros Ht HQ. destruct g. eapply wp_post, quiet_protocol_wp, quiet_sub, Ht; [|by apply local_ok].
  intros [] a. apply HQ.
Qed.

Lemma quiet_refusal dest b (g : unit) :
  wp (quiet_protocol K) (call (OIsend dest CIRCLE_TAG_WORK_REPLY (Ints [if truth abort then PAYLOAD_ABORT else 0]) b))
    (λ _ _, True) (λ _ _, True) g.
Proof. split; [|done]. apply (replies_ok (abort := abort)). cbn. by rewrite Z.eqb_refl, orb_true_r. Qed.

Lemma quiet_no_work_loop m i rq sn Φ : (∀ x, Φ x) → quiet K (no_work_loop m i abort rq sn) Φ.
Proof.
  intros H. apply quiet_protocol_wp.
  eapply wp_post, (no_work_loop_keeps (quiet_protocol K) (λ _, True)); [auto|exact local_quiet_wp| |done].
  intros dest b g _. apply quiet_refusal.
Qed.

Lemma quiet_workreq_check `{!Talks K CIRCLE_TAG_WORK_REQUEST} o qp st cleanup
    (Φ : CIRCLE_internal_queue_t * CIRCLE_state_st → Prop) :
  (∀ qp' st', work_frame st st' → Φ (qp', st')) → quiet K (CIRCLE_workreq_check o abort qp st cleanup) Φ.
Proof.
  intros H. apply quiet_protocol_wp.
  eapply wp_post, (workreq_check_keeps (quiet_protocol K) (λ _, True)); [|exact local_quiet_wp|..|done].
  - intros [] [qp' st'] [_ [Hf _]]. by apply H.
  - intros dest b g _. apply quiet_refusal.
  - intros dest count l b g _ Hc. split.
    + apply (replies_ok (abort := abort)). cbn. rewrite (proj2 (Z.ltb_lt 0 count)) by lia. by destruct l.
    + intros r g' _ l' b'. split; [|done]. by apply (replies_ok (abort := abort)).
  - intros m rc rq [] _. eapply quiet_protocol_wp. by apply quiet_workreq_loop.
Qed.
End serve_quiet.

Lemma quiet_receive_items {K} `{!Local K, !Takes K CIRCLE_TAG_WORK_REPLY, !Talks K CIRCLE_TAG_WORK_RECEIPT}
    qp st b source count (Φ : Z * CIRCLE_internal_queue_t * CIRCLE_state_st → Prop) :
  (∀ rc qp' st', recv_frame st st' → Φ (rc, qp', st')) → quiet K (receive_items qp st b source count) Φ.
Proof.
  intros H. unfold receive_items. apply quiet_bind. destruct (load b 1) as [chars|]; [|done]. cbn [deref quiet].
  cbn zeta. apply (quiet_seq _ _ _ _ (λ _, True)); [destruct (_ <? _); [by apply quiet_extend|done]|].
  intros [rc qp1] _. destruct (rc <? 0); [done|].
  apply (quiet_seq _ _ _ _ (λ _, True)); [unfold recv_chars; quiet_steps|]. intros base _.
  apply (quiet_seq _ _ _ _ (λ _, True)); [destruct (_ <? _); [by apply quiet_str_extend|done]|].
  intros [rc2 qp2] _. destruct (rc2 <? 0); [done|]. quiet_steps.
  apply quiet_receive_offsets. intros strings. quiet_steps.
  apply quiet_track. intros sn. by apply H.
Qed.

Section transfer.
Context {K : op → bool} `{!Local K, !Talks K CIRCLE_TAG_WORK_REQUEST, !Talks K CIRCLE_TAG_WORK_REPLY, !Talks K CIRCLE_TAG_WORK_RECEIPT}.

Lemma quiet_receipt_loop m t (Φ : term_st → Prop) :
  (∀ t', term_tree_enabled t' = term_tree_enabled t → Φ t') → quiet K (workreceipt_loop m t) Φ.
Proof.
  revert t. induction m as [|m IH]; intros t H; cbn [workreceipt_loop]; quiet_steps; try (by apply H).
  by apply IH.
Qed.

Lemma quiet_receipt_check st (Φ : CIRCLE_state_st → Prop) :
  (∀ t, term_tree_enabled t = term_tree_enabled (st_term st) → Φ (set_st_term t st)) →
  quiet K (CIRCLE_workreceipt_check st) Φ.
Proof. intros H. unfold CIRCLE_workreceipt_check. apply quiet_bind, quiet_receipt_loop. intros t Ht. by apply H. Qed.


Lemma quiet_work_receive abort qp st source size
    (Φ : Z * Z * CIRCLE_internal_queue_t * CIRCLE_state_st → Prop) :
  (∀ rc abort' qp' st', recv_frame st st' → (truth abort = true → truth abort' = true) → Φ (rc, abort', qp', st')) →
  quiet K (CIRCLE_work_receive abort qp st source size) Φ.
Proof.
  intros H. unfold CIRCLE_work_receive. destruct (size <=? 0); [done|].
  apply quiet_bind, quiet_extend_offsets. intros [rc o]. cbn zeta. destruct (rc <? 0); [done|].
  apply (quiet_seq _ _ _ _ (λ _, True)); [unfold recv_ints; quiet_steps|]. intros offs _.
  apply quiet_bind. destruct (load offs 0) as [items|]; [|done]. cbn [deref quiet].
  destruct (_ =? 0); [by apply H|]. destruct (_ =? PAYLOAD_ABORT); [by apply H|].
  destruct (items <? 0); [by apply H|]. apply quiet_bind, quiet_receive_items. intros rc' qp' st' Hf. by apply H.
Qed.

Lemma quiet_request_work fuel abort qp st cleanup
    (Φ : Z * Z * CIRCLE_internal_queue_t * CIRCLE_state_st → Prop) :
  (∀ rc abort' qp' st', recv_frame st st' → (truth abort = true → truth abort' = true) → Φ (rc, abort', qp', st')) →
  quiet K (CIRCLE_request_work fuel abort qp st cleanup) Φ.
Proof.
  intros H. unfold CIRCLE_request_work. apply quiet_bind, quiet_request_slot. intros [free rq]. cbn zeta.
  destruct (truth (work_requested rq)).
  - apply quiet_bind. split; [quiet_call|]. intros [[s size]|]; [|by apply H].
    apply quiet_bind, quiet_work_receive. intros rc ab qp' st' Hf Hab. by apply H.
  - destruct (_ && _); [|by apply H]. destruct (_ =? _); [by apply H|]. apply quiet_bind. split; [quiet_call|]. intros r.
    apply quiet_bind, quiet_next_proc. intros next seed. by apply H.
Qed.
(** In an abort all requests are refused. *)
Lemma quiet_workreq_abort o abort qp st cleanup (Φ : CIRCLE_internal_queue_t * CIRCLE_state_st → Prop) :
  truth abort = true → (∀ st', recv_frame st st' → Φ (qp, st')) →
  quiet K (CIRCLE_workreq_check o abort qp st cleanup) Φ.
Proof.
  intros Hab H. unfold CIRCLE_workreq_check. apply quiet_bind, quiet_workreq_loop. intros [rc rq]. cbn zeta.
  destruct (rc =? 0); [by apply H|]. destruct rq as [rq|]; [|done]. cbn [deref mbind prog_mbind prog_bind].
  apply quiet_bind, quiet_i32. rewrite Hab, !orb_true_r. cbn [orb].
  apply quiet_bind, (quiet_no_work_loop abort). intros sn. by apply H.
Qed.
End transfer.

(** ** Starting and stopping are quiet *)

(** The neighbours in the token ring, as the code computes them. *)
Definition ring_prev (n p : Z) : Z := Z.rem (p - 1 + n) n.
Definition ring_next (n p : Z) : Z := Z.rem (p + 1 + n) n.

Lemma quiet_init_token {K} `{!Local K} rank size tk (Φ : token_st → Prop) :
  Φ (mk_token_st (if rank =? 0 then 1 else 0) WHITE BLACK (ring_prev size rank) (ring_next size rank) MPI_REQUEST_NULL) →
  quiet K (init_token rank size tk) Φ.
Proof.
  intros H. unfold init_token. apply quiet_bind, quiet_i32. apply quiet_bind. destruct (size =? 0); [done|].
  cbn [quiet mret prog_mret]. by apply quiet_bind, quiet_i32.
Qed.

Lemma quiet_init_offsets {K} `{!Local K} c Φ : (∀ x, Φ x) → quiet K (init_offsets c) Φ.
Proof. intros H. unfold init_offsets. quiet_steps; apply H. Qed.

Lemma quiet_null_requests {K} `{!Local K} m i b Φ : (∀ x, Φ x) → quiet K (null_requests m i b) Φ.
Proof.
  intros H. revert i b. induction m as [|m IH]; intros i b; cbn [null_requests]; [apply H|].
  quiet_steps; apply IH.
Qed.

Lemma quiet_init_abort {K} `{!Local K} t Φ : (∀ x, Φ x) → quiet K (init_abort t) Φ.
Proof.
  intros H. unfold init_abort. quiet_steps; apply quiet_null_requests; intros ?; apply H.
Qed.

Lemma quiet_tree_init {K} `{!Local K} rank ranks k :
  0 ≤ rank < ranks → 1 ≤ k → rank * k + k ≤ INT32_MAX →
  quiet K (CIRCLE_tree_init rank ranks k) (λ t, tree_rep t ranks k rank).
Proof.
  intros Hr Hk Hm. destruct (tree_init_shape rank ranks k Hr Hk Hm) as (rest & -> & Hn & Hs).
  split; [quiet_call|]. intros [p|]; [by destruct (Hs p) as (t & -> & ? & _)|by rewrite Hn].
Qed.

(** What CIRCLE_init_local_state leaves on rank [p] of [n]. *)
Record fresh_state (n p : Z) (G : globals) (st : CIRCLE_state_st) : Prop := FreshState {
  fs_term : st_term st =
    mk_term_st (if truth (Z.land (options (CIRCLE_INPUT_ST G)) CIRCLE_TERM_TREE) then 1 else 0) 0 1 0 0;
  fs_barrier : st_barrier st = mk_barrier_st 0 0 0;
  fs_request : work_requested (st_request st) = 0;
  fs_token : st_token st = mk_token_st (if p =? 0 then 1 else 0) WHITE BLACK (ring_prev n p) (ring_next n p) MPI_REQUEST_NULL;
  fs_place : st_rank st = p ∧ st_size st = n;
  fs_tree : tree_rep (st_tree st) n (tree_width (CIRCLE_INPUT_ST G)) p;
}.

(** It asks for its rank and the number of ranks, and exchanges nothing. *)
Lemma init_shape {K} `{!Local K} fuel G st n p k :
  0 ≤ p < n → tree_width (CIRCLE_INPUT_ST G) = k → 1 ≤ k → p * k + k ≤ INT32_MAX →
  ∃ rest, CIRCLE_init_local_state fuel G st = Vis OCommRank (λ r, Vis OCommSize (λ s, rest r s)) ∧
    quiet K (rest p n) (fresh_state n p G).
Proof.
  intros Hp Hw Hk Hmax. eexists (λ r s, _). split; [reflexivity|]. cbn beta.
  apply quiet_bind, quiet_init_token. cbn zeta. apply quiet_bind.
  unfold the_queue. destruct (queue (CIRCLE_INPUT_ST G)) as [q|]; [|done]. cbn [deref quiet]. rewrite Hw.
  apply quiet_bind, quiet_init_offsets. intros o. apply quiet_bind. split; [quiet_call|]. intros rp. cbn [quiet].
  apply quiet_bind, quiet_next_proc. intros next seed. apply quiet_bind.
  eapply quiet_mono; [|apply (quiet_tree_init p n k); done].
  intros t Htr. apply quiet_bind. split; [quiet_call|]. intros now. cbn [quiet].
  apply quiet_bind, quiet_init_abort. intros a. by split; rewrite ?Hw.
Qed.

Lemma quiet_worker_summary {K} `{!Local K} rank size p Φ : (∀ x, Φ x) → quiet K (worker_summary rank size p) Φ.
Proof. intros H. unfold worker_summary, summary_gather, CIRCLE_free. quiet_steps; apply H. Qed.

Lemma quiet_finalize {K} `{!Local K} st Φ : (∀ x, Φ x) → quiet K (CIRCLE_finalize_local_state st) Φ.
Proof.
  intros H. unfold CIRCLE_finalize_local_state, CIRCLE_tree_free, CIRCLE_worksend_free, CIRCLE_free.
  quiet_steps; apply H.
Qed.


(** ** Termination detection *)

Lemma quiet_term_allreduce {K} `{!Local K, !Talks K CIRCLE_TAG_TERM} t s (Φ : Z * term_st → Prop) :
  (∀ status s', term_tree_enabled s' = term_tree_enabled s → Φ (status, s')) →
  quiet K (CIRCLE_check_for_term_allreduce t s) Φ.
Proof.
  intros H. unfold CIRCLE_check_for_term_allreduce.
  apply (quiet_seq _ _ _ _ (λ s', term_tree_enabled s' = term_tree_enabled s)).
  { clear H. generalize (Z.to_nat (children t - term_replies s)). intros m. revert s.
    induction m as [|m IH]; intros s; cbn [term_recv_children]; quiet_steps.
    apply quiet_recv_int. intros v. apply quiet_bind, quiet_i32.
    eapply quiet_mono; [|apply IH]. intros s' ->. by destruct (truth v). }
  intros s1 H1. destruct (0 <? _); [by apply H|].
  apply (quiet_seq _ _ _ _ (λ x, term_tree_enabled x.2 = term_tree_enabled s)); [unfold term_send_up; quiet_steps|].
  intros [r s2] H2. apply (quiet_seq _ _ _ _ (λ _, True)).
  { unfold term_complete. quiet_steps; by apply quiet_recv_int. }
  intros [[] r'] _; [|by apply H]. apply quiet_bind, quiet_send_children. intros _. by apply H.
Qed.

Lemma quiet_issend {K} `{!Local K, !Talks K CIRCLE_TAG_TOKEN} abort tk Φ :
  (∀ x, Φ x) → quiet K (CIRCLE_token_issend abort tk) Φ.
Proof. intros H. unfold CIRCLE_token_issend. quiet_steps; apply H. Qed.

Lemma quiet_check_for_term {K} `{!Local K, !Talks K CIRCLE_TAG_TOKEN} abort rank size tk Φ :
  (∀ x, Φ x) → quiet K (CIRCLE_check_for_term abort rank size tk) Φ.
Proof.
  intros H. unfold CIRCLE_check_for_term. destruct (_ =? TERMINATE); [apply H|].
  apply (quiet_seq _ _ _ _ (λ _, True)); [|intros tk' _; apply H].
  destruct (truth _); [|by apply quiet_token]. cbn zeta. by apply quiet_bind, quiet_issend.
Qed.

(** ** Rounds of the worker, for any user code *)

Section rounds.
Context {K : op → bool} `{!Local K, !Works K}.
Context `{!Talks K CIRCLE_TAG_WORK_REQUEST, !Talks K CIRCLE_TAG_WORK_REPLY, !Talks K CIRCLE_TAG_WORK_RECEIPT}.
Context `{!Talks K CIRCLE_TAG_REDUCE, !Talks K CIRCLE_TAG_TERM, !Talks K CIRCLE_TAG_TOKEN}.
Context `{!Talks K CIRCLE_TAG_ABORT_REQUEST, !Talks K CIRCLE_TAG_ABORT_REPLY}.

Lemma quiet_serve_sync cleanup G st (Φ : globals * CIRCLE_state_st → Prop) :
  (∀ G' st', work_frame st st' → Φ (G', st')) → quiet K (serve_requests cleanup G st) Φ.
Proof.
  intros H. unfold serve_requests, the_queue. quiet_steps.
  apply (quiet_workreq_check (CIRCLE_ABORT_FLAG G)). intros qp st' Hf. by apply H.
Qed.

Lemma quiet_request_sync fuel cleanup G st (Φ : globals * CIRCLE_state_st → Prop) :
  (∀ G' st', work_frame st st' → Φ (G', st')) → quiet K (request_work fuel cleanup G st) Φ.
Proof.
  intros H. unfold request_work, the_queue. quiet_steps.
  apply quiet_request_work. intros rc ab qp st' Hf _. by apply H, recv_work.
Qed.

Lemma quiet_reap_sync st (Φ : CIRCLE_state_st → Prop) :
  (∀ st', work_frame st st' → Φ st') → quiet K (reap_sends st) Φ.
Proof. intros H. unfold reap_sends. apply quiet_bind, quiet_check. intros sn. by apply H, work_frame_same. Qed.

Lemma quiet_abort_sync cleanup G st (Φ : globals * CIRCLE_state_st → Prop) :
  (∀ G' st', work_frame st st' → Φ (G', st')) → quiet K (check_abort cleanup G st) Φ.
Proof. intros H. unfold check_abort. apply quiet_bind, quiet_abort_check. intros ab a _. by apply H, work_frame_same. Qed.

Lemma quiet_reduce_sync_frame fuel cleanup G st (Φ : globals * CIRCLE_state_st → Prop) :
  (∀ G' st', work_frame st st' → Φ (G', st')) → quiet K (check_reduce fuel cleanup G st) Φ.
Proof.
  intros H. unfold check_reduce. destruct (truth _); [|apply H; reflexivity].
  apply (quiet_seq _ _ _ _ (λ _, True)); [|intros [r G'] _; by apply H, work_frame_same].
  eapply quiet_mono; [|by apply (quiet_reduce_check (λ _, True) keeps)]. done.
Qed.

Lemma quiet_termination G st (Φ : Z * CIRCLE_state_st → Prop) :
  (∀ status st', sync_frame st st' → Φ (status, st')) → quiet K (check_termination G st) Φ.
Proof.
  intros H. unfold check_termination. destruct (truth _).
  - apply quiet_bind, quiet_term_allreduce. intros status s _. by apply H.
  - apply quiet_bind, quiet_check_for_term. intros [status tk]. by apply H.
Qed.

Lemma quiet_round fuel G st (Φ : bool * globals * CIRCLE_state_st → Prop) :
  (∀ stop G' st', sync_frame st st' → Φ (stop, G', st')) → quiet K (work_round fuel G st) Φ.
Proof.
  intros H. unfold work_round.
  apply quiet_bind, quiet_serve_sync. intros G1 st1 H1.
  apply quiet_bind, quiet_receipt_check. intros t Ht. set (st2 := set_st_term t st1).
  assert (work_frame st1 st2) as H2 by (by apply work_frame_same).
  apply quiet_bind, quiet_reap_sync. intros st3 H3.
  apply quiet_bind, quiet_abort_sync. intros G4 st4 H4.
  apply quiet_bind, quiet_reduce_sync_frame. intros G5 st5 H5.
  assert (work_frame st st5) as H15 by (do 4 (etrans; [eassumption|]); done).
  unfold the_queue. apply quiet_bind. destruct (queue _) as [q|]; [|done]. cbn [deref quiet].
  apply (quiet_seq _ _ _ _ (λ x, work_frame st x.2)).
  { destruct (_ =? 0); [|done]. apply quiet_request_sync. intros G6 st6 H6. cbn. by etrans. }
  intros [G6 st6] H6. cbn in H6. apply quiet_bind. destruct (queue (CIRCLE_INPUT_ST G6)) as [q6|]; [|done]. cbn [deref quiet].
  destruct (_ && _).
  - apply (quiet_seq _ _ _ _ (λ _, True)).
    { unfold call_cb. quiet_steps. eapply quiet_mono; [|by apply quiet_user]. done. }
    intros G7 _. quiet_steps. apply H. exact (proj1 H6).
  - apply quiet_bind, quiet_termination. intros status st7 H7. apply H. etrans; [apply H6|done].
Qed.

Lemma quiet_rounds m fuel G st (Φ : globals * CIRCLE_state_st → Prop) :
  (∀ G' st', sync_frame st st' → Φ (G', st')) → quiet K (work_rounds m fuel G st) Φ.
Proof.
  revert G st. induction m as [|m IH]; intros G st H; cbn [work_rounds]; [done|].
  apply quiet_bind, quiet_round. intros [] G' st' Hf; [by apply H|]. apply IH.
  intros G'' st'' Hf'. apply H. by etrans.
Qed.
End rounds.

(** ** The end of the worker *)

Lemma quiet_finish_sync {K} `{!Local K, !Works K, !Talks K CIRCLE_TAG_REDUCE, !Talks K CIRCLE_TAG_ABORT_REDUCE}
    fuel G st (Φ : globals * CIRCLE_state_st → Prop) :
  (∀ x, Φ x) → quiet K (finish_sync fuel G st) Φ.
Proof.
  intros H. unfold finish_sync. apply quiet_bind, quiet_wait. intros [r sn]. cbn zeta.
  apply (quiet_seq _ _ _ _ (λ _, True)).
  { destruct (truth _); [|done]. eapply quiet_mono; [|by apply (quiet_reduce_sync (λ _, True) keeps)]. done. }
  intros [rd G'] _. apply quiet_bind, quiet_abort_reduce. intros [ab a]. apply H.
Qed.

Lemma quiet_worker_end {K} `{!Local K} rank size G st (Φ : Z * globals → Prop) :
  (∀ x, Φ x) → quiet K (worker_end rank size G st) Φ.
Proof.
  intros H. unfold worker_end.
  apply (quiet_seq _ _ _ _ (λ _, True)); [destruct (truth _); [by apply quiet_checkpoint|done]|]. intros G3 _.
  apply (quiet_seq _ _ _ _ (λ _, True)).
  { destruct (_ <=? _); [|done]. by apply quiet_bind, quiet_worker_summary. }
  intros _ _. apply quiet_bind, quiet_finalize. intros ?. apply H.
Qed.
