(* ===== verification/LocalState.v ===== *)
(** * The worker's state, from initialisation to release

    CIRCLE_init_local_state builds the state of a worker from four blocks -
    the children of its node of the tree, the buffer for offsets, the array
    of requesting ranks and the requests of the abort broadcast - and
    CIRCLE_finalize_local_state gives them back.  [state_ok] is what the
    initialisation establishes, field by field. *)
From S2P Require Import Prelude CMonad Mem Heap Queue Wire Tree State Mpi Sends Blocks Transfer TransferSpec Reduce Proc Worker.
From Stdlib Require Import Floats.SpecFloat.

(** ** A process that knows its place

    The calls of [mpi], and the rank and the size of the communicator. *)
Definition place_pre (g : view) (o : op) : Prop :=
  match o with OCommRank | OCommSize => True | _ => mpi_pre g o end.

Definition place_post (oom : bool) (n p : Z) (g : view) (o : op) : ans o → view → Prop :=
  match o return ans o → view → Prop with
  | OCommRank => λ r g', r = p ∧ g' = g
  | OCommSize => λ r g', r = n ∧ g' = g
  | o => mpi_post oom g o
  end.

Definition mpi_at (oom : bool) (n p : Z) : protocol := {|
  ghost := view;
  pre := place_pre;
  post := place_post oom n p;
|}.

Lemma wp_mpi_at oom n p {A} (t : prog A) Q E g :
  wp (mpi oom) t Q E g → wp (mpi_at oom n p) t Q E g.
Proof.
  revert g. induction t as [a|e|o k IH]; intros g; cbn [wp]; [done..|].
  intros [Hp Hk]. split; [by destruct o|]. intros r g' Hr. apply IH, Hk. by destruct o.
Qed.

Lemma place_rank_wp oom n p (Q : view → Z → Prop) E g :
  Q g p → wp (mpi_at oom n p) (call OCommRank) Q E g.
Proof. intros HQ. split; [done|]. by intros r g' [-> ->]. Qed.

Lemma place_size_wp oom n p (Q : view → Z → Prop) E g :
  Q g n → wp (mpi_at oom n p) (call OCommSize) Q E g.
Proof. intros HQ. split; [done|]. by intros r g' [-> ->]. Qed.

Lemma wtime_wp oom (Q : view → double → Prop) E g :
  (∀ now, Q g now) → wp (mpi oom) (call OWtime) Q E g.
Proof. intros HQ. split; [done|]. intros r g' Hg. cbn in Hg. subst. apply HQ. Qed.

(** ** Fresh blocks *)

(** [L] was allocated on the way from [g] to [g'], and nothing else has
    happened. *)
Definition fresh (L : list Z) (g g' : view) : Prop :=
  g' = set_live (list_to_set L ∪ v_live g) g ∧ NoDup L ∧ ∀ p, p ∈ L → p ∉ v_live g.

Lemma fresh_none g : fresh [] g g.
Proof. split; [destruct g; unfold set_live; cbn; by rewrite (left_id_L ∅ (∪))|]. split; [constructor|set_solver]. Qed.

Lemma fresh_malloc n L g g' (Q : view → ptr → Prop) E :
  fresh L g g' → (∀ p g2, fresh (p :: L) g g2 → Q g2 (Some p)) →
  wp (mpi false) (call (OMalloc n)) Q E g'.
Proof.
  intros (-> & Hn & Hd) HQ. cbn. split; [done|]. intros [p|] g2 (l & Hl & ->); cbn in Hl; [|by destruct Hl].
  destruct Hl as (Hp & -> & _). apply HQ. rewrite elem_of_union, elem_of_list_to_set in Hp. split; [|split].
  - unfold set_live. cbn. by rewrite (assoc_L (∪)).
  - apply NoDup_cons. tauto.
  - intros q [->|Hq]%elem_of_cons; [tauto|by apply Hd].
Qed.

#[export] Instance fresh_proper : Proper ((≡ₚ) ==> (=) ==> (=) ==> iff) fresh.
Proof. intros L L' HL g ? <- g' ? <-. unfold fresh. rewrite HL. by setoid_rewrite HL. Qed.

(** The invariant of the process's blocks takes fresh ones in. *)
Lemma fresh_process_mem g g' F qp c c' b sn l X :
  process_mem g F qp (mk_offsets_st c None) sn l → fresh (addr b :: X) g g' →
  process_mem g' (X ++ F) qp (mk_offsets_st c' (Some b)) sn l.
Proof.
  intros Hp (-> & Hn & Hd). pose proof Hp as [_ Ho Hnd Hu].
  assert (my_blocks (X ++ F) qp (mk_offsets_st c' (Some b)) sn ≡ₚ
          (addr b :: X) ++ my_blocks F qp (mk_offsets_st c None) sn) as Hb.
  { unfold my_blocks. cbn. solve_Permutation. }
  apply (process_mem_live g F qp (mk_offsets_st c None) sn l); [exact Hp| | |].
  - rewrite Hb. apply NoDup_app. split; [done|]. split; [|done]. intros p Hin Hin'. by apply (Hd p), Hu.
  - intros p. rewrite Hb, elem_of_app, elem_of_union, elem_of_list_to_set. intros [Hin|Hin].
    + split; [by left|]. intros Hf. apply (Hd p Hin). by apply (in_flight_live g l).
    + destruct (Hu p Hin). split; [by right|done].
  - intros p Hf. apply elem_of_union_r. by apply (in_flight_live g l).
Qed.

(** ** What the initialisation establishes *)

(** The edges of the tree at a node: its children and its parent. *)
Definition neighbours (t : CIRCLE_tree_state_st) : Z :=
  children t + (if parent_rank t =? MPI_PROC_NULL then 0 else 1).

(** The blocks the state holds besides the buffer for offsets and the
    arrays of the sends. *)
Definition state_blocks (st : CIRCLE_state_st) : list Z :=
  opt_block (abort_req (st_abort st)) ++ opt_block (child_ranks (st_tree st)) ++ opt_block (st_requestors st).

(** Another rank of the job, if there is one. *)
Definition other_rank (n p q : Z) : Prop :=
  if 1 <? n then 0 ≤ q < n ∧ q ≠ p else q = MPI_PROC_NULL.

Record abort_ok (t : CIRCLE_tree_state_st) (a : abort_st) : Prop := AbortOk {
  ao_idle : abort_state a = 0 ∧ abort_outstanding a = 0;
  ao_count : abort_num_req a = 2 * neighbours t;
  ao_requests : ∃ b, abort_req a = Some b ∧ cap b = abort_num_req a ∧
    ∀ i, 0 ≤ i < abort_num_req a → load b i = Some MPI_REQUEST_NULL;
}.

Record state_ok (n p k strings : Z) (input : CIRCLE_input_st) (st : CIRCLE_state_st) : Prop := StateOk {
  lo_place : st_rank st = p ∧ st_size st = n;
  lo_token : st_token st = mk_token_st (if p =? 0 then 1 else 0) WHITE BLACK
                             ((p - 1) mod n) ((p + 1) mod n) MPI_REQUEST_NULL;
  lo_offsets : offsets_count (st_offsets st) = strings ∧ offsets_ok (st_offsets st);
  lo_requestors : ∃ b, st_requestors st = Some b ∧ cap b = n;
  lo_next : other_rank n p (st_next_processor st);
  lo_request : work_requested (st_request st) = 0 ∧ work_request_req (st_request st) = MPI_REQUEST_NULL;
  lo_sends : st_send st = mk_send_st 0 0 None None;
  lo_tree : tree_rep (st_tree st) n k p;
  lo_reduce : reduce_outstanding (st_reduce st) = 0 ∧
    reduce_enabled (st_reduce st) =
      (if SFltb (S754_zero false) (double_of_int (reduce_period input)) then 1 else 0);
  lo_barrier : st_barrier st = mk_barrier_st 0 0 0;
  lo_term : st_term st =
    mk_term_st (if truth (Z.land (options input) CIRCLE_TERM_TREE) then 1 else 0) 0 1 0 0;
  lo_abort : abort_ok (st_tree st) (st_abort st);
  lo_profile : st_profile st = mk_profile_st 0 0 0;
}.

(** ** The steps *)

Lemma init_token_ok p n tk :
  0 ≤ p < n → 2 * n ≤ INT32_MAX →
  init_token p n tk = mret (mk_token_st (if p =? 0 then 1 else 0) WHITE BLACK
                              ((p - 1) mod n) ((p + 1) mod n) MPI_REQUEST_NULL).
Proof.
  intros Hp Hn. unfold init_token. rewrite (i32_ok (p - 1 + n)) by c_arith. cbn.
  rewrite (proj2 (Z.eqb_neq n 0)) by lia. cbn. rewrite (i32_ok (p + 1 + n)) by c_arith. cbn.
  rewrite !Z.rem_mod_nonneg by lia.
  rewrite <-(Z.mod_add (p - 1) 1 n), <-(Z.mod_add (p + 1) 1 n) by lia. by rewrite Z.mul_1_l.
Qed.

Lemma null_requests_ok m i b :
  0 ≤ i → i + Z.of_nat m ≤ cap b →
  ∃ b', null_requests m i (Some b) = mret (Some b') ∧ addr b' = addr b ∧ cap b' = cap b ∧
    ∀ j, cells b' !! j = if decide (i ≤ j < i + Z.of_nat m) then Some MPI_REQUEST_NULL else cells b !! j.
Proof.
  revert i b. induction m as [|m IH]; intros i b Hi Hm; cbn [null_requests].
  - exists b. repeat split. intros j. rewrite decide_False by lia. done.
  - cbn. unfold store. rewrite store_list_ok by (simpl; lia). cbn.
    destruct (IH (i + 1) (Block (addr b) (cap b) (<[i:=MPI_REQUEST_NULL]> (cells b)))) as (b' & -> & Ha & Hc & Hl);
      [lia|simpl; lia|].
    exists b'. repeat split; [done|done|]. intros j. rewrite Hl. simpl. rewrite lookup_insert.
    repeat case_decide; subst; try done; lia.
Qed.

Lemma init_abort_wp n k p t L g0 g :
  tree_rep t n k p → 0 ≤ p < n → 1 ≤ k → 2 * n ≤ INT32_MAX → fresh L g0 g →
  wp (mpi false) (init_abort t)
    (λ g' a, abort_ok t a ∧ ∃ b, abort_req a = Some b ∧ fresh (addr b :: L) g0 g')
    (λ _ _, False) g.
Proof.
  intros Ht Hp Hk Hn HL.
  assert (0 ≤ neighbours t ≤ n) as Hb.
  { destruct Ht as (_ & _ & Hpar & Hc & _). rewrite tree_children_length in Hc.
    unfold neighbours. rewrite Hc. unfold tree_child_count. destruct (_ =? _) eqn:He; [nia|].
    destruct (Z.eq_dec p 0); [|nia]. rewrite Hpar, decide_True in He by done. done. }
  unfold init_abort.
  assert ((if negb (parent_rank t =? MPI_PROC_NULL) then i32 (children t + 1) else mret (children t))
          = mret (neighbours t)) as ->.
  { unfold neighbours in *. destruct (_ =? _); cbn; [by rewrite Z.add_0_r|]. by rewrite i32_ok by c_arith. }
  unfold mbind, prog_mbind, mret, prog_mret. cbn [prog_bind].
  rewrite i32_ok by c_arith. cbn [prog_bind mret prog_mret].
  apply wp_seq, (fresh_malloc _ L g0); [done|]. intros q g2 Hf. cbn [fmap option_fmap option_map].
  destruct (null_requests_ok (Z.to_nat (neighbours t * 2)) 0 (Block q (neighbours t * 2) ∅))
    as (b & -> & Ha & Hcap & Hcells); [lia|cbn; lia|]. cbn in Ha, Hcap |- *.
  split; [split|]; cbn; [done|lia| |].
  - exists b. split; [done|]. split; [lia|]. intros i Hi. apply load_ok; [lia|].
    rewrite Hcells, decide_True by lia. done.
  - exists b. split; [done|]. by rewrite Ha.
Qed.

Lemma next_proc_wp fuel n p st g :
  st_rank st = p → st_size st = n → 0 ≤ p < n →
  wp (mpi false) (CIRCLE_get_next_proc fuel st)
    (λ g' st', g' = g ∧ ∃ next seed, st' = set_st_next_processor next (set_st_seed seed st) ∧ other_rank n p next)
    (λ _ e, e = NoFuel) g.
Proof.
  intros Hr Hs Hp. unfold CIRCLE_get_next_proc, other_rank. rewrite Hs, Hr.
  destruct (Z.ltb_spec 1 n) as [Hlt|Hge].
  - apply wp_seq. eapply wp_post; [|apply next_proc_loop_wp; lia].
    intros g' [next seed] (-> & ? & ?). cbn. split; [done|]. by exists next, seed.
  - cbn. split; [done|]. exists MPI_PROC_NULL, (st_seed st). by destruct st.
Qed.

Lemma tree_init_wp n k p L g0 g :
  0 ≤ p < n → 1 ≤ k → p * k + k ≤ INT32_MAX → fresh L g0 g →
  wp (mpi false) (CIRCLE_tree_init p n k)
    (λ g' t, tree_rep t n k p ∧ ∃ b, child_ranks t = Some b ∧ fresh (addr b :: L) g0 g')
    (λ _ _, False) g.
Proof.
  intros Hp Hk Hm HL. destruct (tree_init_shape p n k Hp Hk Hm) as (rest & -> & _ & Hs).
  apply (wp_bind _ (call _) rest), (fresh_malloc _ L g0); [done|]. intros q g2 Hf.
  destruct (Hs q) as (t & -> & Ht & Ha). cbn. split; [done|].
  destruct (child_ranks t) as [b|]; [|done]. exists b. injection Ha as ->. done.
Qed.

(** ** Initialisation *)

Lemma init_offsets_wp c L g0 g :
  0 ≤ c ≤ INT32_MAX → fresh L g0 g →
  wp (mpi false) (init_offsets c)
    (λ g' o, offsets_ok o ∧ ∃ b, o = mk_offsets_st c (Some b) ∧ fresh (addr b :: L) g0 g')
    (λ _ _, False) g.
Proof.
  intros Hc HL. unfold init_offsets. apply wp_seq, (fresh_malloc _ L g0); [done|].
  intros q g2 Hf. cbn. split; [by split|]. by eexists.
Qed.

Lemma init_wp fuel G st n p k qp g :
  0 ≤ p < n → 2 * n ≤ INT32_MAX → tree_width (CIRCLE_INPUT_ST G) = k → 1 ≤ k → p * k + k ≤ INT32_MAX →
  queue (CIRCLE_INPUT_ST G) = Some qp → 0 ≤ q_str_count qp ≤ INT32_MAX →
  wp (mpi_at false n p) (CIRCLE_init_local_state fuel G st)
    (λ g' st', state_ok n p k (q_str_count qp) (CIRCLE_INPUT_ST G) st' ∧
       ∃ b, offsets_recv_buf (st_offsets st') = Some b ∧ fresh (addr b :: state_blocks st') g g')
    (λ _ e, e = NoFuel) g.
Proof.
  intros Hp Hn Hw Hk Hmax Hq Hc. unfold CIRCLE_init_local_state.
  apply wp_seq, place_rank_wp, wp_seq, place_size_wp, wp_mpi_at. cbn zeta. apply wp_seq. rewrite init_token_ok by done. cbn [wp mret prog_mret].
  apply wp_seq. unfold the_queue. rewrite Hq. cbn [wp deref].
  pose proof (fresh_none g) as Hf0.
  apply wp_seq. eapply wp_mono; [| |exact (init_offsets_wp _ _ _ _ Hc Hf0)]; [|done].
  cbn beta. intros g1 o (Ho & bo & -> & Hf1).
  apply wp_seq, (fresh_malloc _ _ _ _ _ _ Hf1). intros rp g2 Hf2.
  apply wp_seq. eapply wp_mono; [| |apply (next_proc_wp fuel n p); done]; [|done].
  cbn beta. intros g3 st' (-> & next & seed & -> & Hnext).
  apply wp_seq. rewrite Hw. eapply wp_mono; [| |exact (tree_init_wp n k p _ _ _ Hp Hk Hmax Hf2)]; [|done].
  cbn beta. intros g4 t (Ht & bt & Hbt & Hf3).
  apply wp_seq, wtime_wp. intros now.
  apply wp_seq. eapply wp_mono; [| |exact (init_abort_wp n k p t _ _ _ Ht Hp Hk Hn Hf3)]; [|done].
  cbn beta. intros g5 a (Ha & ba & Hba & Hf4). cbn [wp mret prog_mret]. split.
  - split; cbn; try done. by eexists.
  - exists bo. split; [done|]. unfold state_blocks. cbn. rewrite Hba, Hbt. cbn.
    eapply fresh_proper; [|done|done|exact Hf4]. solve_Permutation.
Qed.

(** C19 CIRCLE_init_local_state establishes the state of a worker.  On rank p
    of n it records its place, its neighbours in the token ring, an empty
    table of sends, no outstanding request, another rank to ask first, its
    node of the communication tree and an idle barrier, termination and
    abort broadcast; every request handle of the abort broadcast is
    MPI_REQUEST_NULL.  Its four blocks are new, and together with the blocks
    the process had they are distinct and read by no pending request. *)
Theorem init_local_state_wf fuel G st n p k qp F g :
  0 ≤ p < n → 2 * n ≤ INT32_MAX → tree_width (CIRCLE_INPUT_ST G) = k → 1 ≤ k → p * k + k ≤ INT32_MAX →
  queue (CIRCLE_INPUT_ST G) = Some qp → 0 ≤ q_str_count qp ≤ INT32_MAX →
  process_mem g F qp (mk_offsets_st 0 None) (mk_send_st 0 0 None None) [] →
  wp (mpi_at false n p) (CIRCLE_init_local_state fuel G st)
    (λ g' st', state_ok n p k (q_str_count qp) (CIRCLE_INPUT_ST G) st' ∧
       process_mem g' (state_blocks st' ++ F) qp (st_offsets st') (st_send st') [] ∧
       same_messages g g')
    (λ _ e, e = NoFuel) g.
Proof.
  intros. eapply wp_post; [|apply (init_wp fuel G st n p k qp); done].
  intros g' st' (Hok & b & Hb & Hf). split; [done|]. split; [|by destruct Hf as (-> & _)].
  rewrite (lo_sends _ _ _ _ _ _ Hok). destruct (st_offsets st') as [c r]. cbn in Hb. subst r.
  by eapply fresh_process_mem.
Qed.

(** ** Release *)

(** Everything the state holds. *)
Definition worker_blocks (st : CIRCLE_state_st) : list Z :=
  opt_block (child_ranks (st_tree st)) ++ opt_block (send_reqs (st_send st)) ++
  opt_block (send_bufs (st_send st)) ++ opt_block (abort_req (st_abort st)) ++
  opt_block (offsets_recv_buf (st_offsets st)) ++ opt_block (st_requestors st).

(** Of [L], all that is to be released, [D] already was. *)
Definition freed (D : list Z) (g g' : view) : Prop := g' = set_live (v_live g ∖ list_to_set D) g.

Lemma freed_none g : freed [] g g.
Proof. destruct g. unfold freed, set_live. cbn. by rewrite difference_empty_L. Qed.

Lemma free_wp {A} oom (b : option (block A)) D R g g' (Q : view → ptr → Prop) E :
  freed D g g' → NoDup (D ++ opt_block b ++ R) → (∀ p, p ∈ opt_block b ++ R → usable g p) →
  (∀ g2, freed (D ++ opt_block b) g g2 → NoDup ((D ++ opt_block b) ++ R) → (∀ p, p ∈ R → usable g p) → Q g2 None) →
  wp (mpi oom) (CIRCLE_free (addr <$> b)) Q E g'.
Proof.
  intros -> Hn Hu HQ. rewrite (assoc_L (++)) in Hn. apply CIRCLE_free_wp.
  - destruct b as [b|]; cbn; [|done]. intros p [= <-]. destruct (Hu (addr b)) as [Hl Hf]; [by left|].
    split; [|done]. apply elem_of_difference. split; [done|]. rewrite elem_of_list_to_set. intros Hd.
    apply NoDup_app in Hn as (Hn & _ & _). apply NoDup_app in Hn as (_ & Hn & _).
    apply (Hn _ Hd). by left.
  - apply HQ; [|done|intros p Hp; apply Hu; rewrite elem_of_app; by right].
    destruct b as [b|]; cbn.
    + unfold freed, set_live. cbn. f_equal. rewrite list_to_set_app_L. cbn. set_solver.
    + by rewrite app_nil_r.
Qed.

Lemma tree_free_wp oom t D R g g' (Q : view → CIRCLE_tree_state_st → Prop) E :
  freed D g g' → NoDup (D ++ opt_block (child_ranks t) ++ R) →
  (∀ p, p ∈ opt_block (child_ranks t) ++ R → usable g p) →
  (∀ g2 t', child_ranks t' = None → freed (D ++ opt_block (child_ranks t)) g g2 →
     NoDup ((D ++ opt_block (child_ranks t)) ++ R) → (∀ p, p ∈ R → usable g p) → Q g2 t') →
  wp (mpi oom) (CIRCLE_tree_free t) Q E g'.
Proof.
  intros Hf Hn Hu HQ.
  assert (CIRCLE_tree_free t = (_ ← CIRCLE_free (addr <$> child_ranks t);
    mret (match child_ranks t with
          | Some _ => mkTree (t_rank t) (t_ranks t) (parent_rank t) (children t) None | None => t end))) as ->.
  { unfold CIRCLE_tree_free. by destruct (child_ranks t). }
  apply wp_seq, (free_wp oom _ D R g g'); [done..|]. intros g2 Hf2 Hn2 Hu2. cbn [wp mret prog_mret].
  apply HQ; [|done..]. by destruct (child_ranks t) eqn:?.
Qed.

Lemma finalize_wp oom st g (Q : view → CIRCLE_state_st → Prop) E :
  NoDup (worker_blocks st) → (∀ p, p ∈ worker_blocks st → usable g p) →
  (∀ g' st', freed (worker_blocks st) g g' → worker_blocks st' = [] →
     st_send st' = mk_send_st 0 0 None None → offsets_recv_buf (st_offsets st') = None → Q g' st') →
  wp (mpi oom) (CIRCLE_finalize_local_state st) Q E g.
Proof.
  intros Hn Hu HQ. unfold CIRCLE_finalize_local_state, CIRCLE_worksend_free. unfold worker_blocks in Hn, Hu.
  apply wp_seq. eapply (tree_free_wp oom _ [] _ g g); [apply freed_none|exact Hn|exact Hu|].
  intros g1 t' Ht Hf1 Hn1 Hu1. do 2 apply wp_seq.
  eapply (free_wp oom _ _ _ g _ _ _ Hf1 Hn1 Hu1). intros g2 Hf2 Hn2 Hu2. apply wp_seq.
  eapply (free_wp oom _ _ _ g _ _ _ Hf2 Hn2 Hu2). intros g3 Hf3 Hn3 Hu3. cbn [wp mret prog_mret]. apply wp_seq.
  eapply (free_wp oom _ _ _ g _ _ _ Hf3 Hn3 Hu3). intros g4 Hf4 Hn4 Hu4. apply wp_seq.
  eapply (free_wp oom _ _ _ g _ _ _ Hf4 Hn4 Hu4). intros g5 Hf5 Hn5 Hu5. apply wp_seq.
  rewrite <-(app_nil_r (opt_block (st_requestors st))) in Hn5, Hu5.
  eapply (free_wp oom _ _ _ g _ _ _ Hf5 Hn5 Hu5). intros g6 Hf6 _ _. cbn [wp mret prog_mret].
  apply HQ; [|unfold worker_blocks; cbn; by rewrite Ht|done|done].
  unfold worker_blocks. by rewrite <-!(assoc_L (++)) in Hf6.
Qed.

(** C20 CIRCLE_finalize_local_state gives every block of the state back, each
    exactly once and none while a request reads it, keeps what does not
    belong to the state, and leaves no pointer behind. *)
Theorem finalize_frees_all oom st F qp g :
  process_mem g (state_blocks st ++ F) qp (st_offsets st) (st_send st) [] →
  wp (mpi oom) (CIRCLE_finalize_local_state st)
    (λ g' st', g' = set_live (v_live g ∖ list_to_set (worker_blocks st)) g ∧
       process_mem g' F qp (st_offsets st') (st_send st') [] ∧ worker_blocks st' = [])
    (λ _ _, False) g.
Proof.
  intros Hp.
  assert (my_blocks (state_blocks st ++ F) qp (st_offsets st) (st_send st) ≡ₚ
          worker_blocks st ++ F ++ queue_owned qp) as Hperm.
  { unfold my_blocks, state_blocks, worker_blocks. solve_Permutation. }
  pose proof Hp as [_ Ho Hn Hu]. rewrite Hperm in Hn.
  assert (∀ p, p ∈ worker_blocks st ++ F ++ queue_owned qp → usable g p) as Hu'.
  { intros p. rewrite <-Hperm. apply Hu. }
  apply NoDup_app in Hn as (Hn & Hd & Hn').
  apply finalize_wp; [done|intros p Hin; apply Hu'; rewrite elem_of_app; by left|].
  intros g' st' -> Hnone Hsn Hoff. split; [done|]. split; [|done]. rewrite Hsn.
  assert (my_blocks F qp (st_offsets st') (mk_send_st 0 0 None None) = F ++ queue_owned qp) as Hb.
  { unfold my_blocks. rewrite Hoff. cbn. by rewrite app_nil_r. }
  split; [by split| |by rewrite Hb|].
  - destruct Ho as [Ho1 Ho2 Ho3 Ho4]. split; [done|done| |done]. intros r p Hr. cbn.
    apply elem_of_difference. split; [by apply (Ho3 r)|]. rewrite elem_of_list_to_set. intros Hin.
    destruct (Hu' p) as [_ Hf]; [rewrite elem_of_app; by left|]. apply Hf. by exists r.
  - intros p. rewrite Hb. intros Hin. destruct (Hu' p) as [Hl Hf]; [rewrite elem_of_app; by right|].
    split; [|done]. apply elem_of_difference. split; [done|]. rewrite elem_of_list_to_set.
    intros Hw. by apply (Hd p).
Qed.

(** C31 Initialisation and release are balanced: a state that is released as
    it was built leaves exactly the memory, requests and messages there were
    before. *)
Theorem init_finalize_balanced fuel G st n p k qp g :
  0 ≤ p < n → 2 * n ≤ INT32_MAX → tree_width (CIRCLE_INPUT_ST G) = k → 1 ≤ k → p * k + k ≤ INT32_MAX →
  queue (CIRCLE_INPUT_ST G) = Some qp → 0 ≤ q_str_count qp ≤ INT32_MAX →
  (∀ q, in_flight g q → q ∈ v_live g) →
  wp (mpi_at false n p) (CIRCLE_init_local_state fuel G st ≫= CIRCLE_finalize_local_state)
    (λ g' st', g' = g ∧ worker_blocks st' = []) (λ _ e, e = NoFuel) g.
Proof.
  intros. apply wp_bind. eapply wp_post; [|apply (init_wp fuel G st n p k qp); done].
  intros g1 st1 (Hok & b & Hb & Hf).
  assert (worker_blocks st1 ≡ₚ addr b :: state_blocks st1) as Hperm.
  { unfold worker_blocks, state_blocks. rewrite (lo_sends _ _ _ _ _ _ Hok), Hb. cbn. solve_Permutation. }
  rewrite <-Hperm in Hf. destruct Hf as (-> & Hn & Hd). apply wp_mpi_at, finalize_wp.
  - done.
  - intros q Hq. split; [by apply elem_of_union_l, elem_of_list_to_set|]. intros Hfl. apply (Hd q Hq). auto.
  - intros g2 st2 -> Hnone _ _. split; [|done]. destruct g as [live pe se inn]. unfold set_live. cbn in *.
    f_equal. set_solver.
Qed.

(** C32 Unlike the allocation for the tree, the one for the requests of the
    abort broadcast is not checked: when it fails on a process that has a
    neighbour in the tree, the loop that clears the requests writes through
    NULL. *)
Theorem init_abort_unchecked t limit next :
  0 < neighbours t → 2 * neighbours t ≤ INT32_MAX →
  limit < neighbours t * 2 * sizeof_request →
  run (bump limit) next (init_abort t) = (next, Stopped UB).
Proof.
  intros Hpos Hmax Hlimit. unfold init_abort, neighbours, sizeof_request in *.
  set (m := children t + _) in *.
  assert ((if negb (parent_rank t =? MPI_PROC_NULL) then i32 (children t + 1) else mret (children t))
          = mret m) as ->.
  { subst m. destruct (_ =? _); cbn; [by rewrite Z.add_0_r|]. by rewrite i32_ok by c_arith. }
  unfold mbind, prog_mbind, mret, prog_mret. cbn [prog_bind]. rewrite i32_ok by c_arith. cbn [prog_bind call run bump mret prog_mret].
  rewrite u64_small by c_arith. rewrite (proj2 (Z.leb_gt _ _)) by done. cbn [run].
  destruct (Z.to_nat (m * 2)) as [|j] eqn:Hj; [lia|]. done.
Qed.

(** ** An example: rank 1 of 3 *)

Definition small_queue : CIRCLE_internal_queue_t :=
  mkQueue 1 (Some (Block 2 64 ∅)) 64 0 (Some (Block 3 8 ∅)) 8 0.

Definition small_input : CIRCLE_input_st :=
  mk_input None None None None None None 0 0 CIRCLE_TERM_TREE 2 (Some small_queue).

Definition small_view : view := View {[1; 2; 3]} ∅ [] [].

Definition unset_state : CIRCLE_state_st :=
  mk_state 0 0 (mk_token_st 0 0 0 0 0 None) (mk_offsets_st 0 None) None 0 0 (mk_request_st 0 0 None)
    (mk_send_st 0 0 None None) (mkTree 0 0 0 0 None) (mk_reduce_st 0 (S754_zero false) (S754_zero false) 0 0 0 0 0)
    (mk_barrier_st 0 0 0) (mk_term_st 0 0 0 0 0) (mk_abort_st 0 0 0 None) (mk_profile_st 0 0 0).

Lemma not_in_flight live sent inn p : ¬ in_flight (View live ∅ sent inn) p.
Proof. by intros [r Hr]. Qed.

Lemma small_view_mem :
  process_mem small_view [] small_queue (mk_offsets_st 0 None) (mk_send_st 0 0 None None) [].
Proof.
  split.
  - by split.
  - split; [by intros ?? ?%elem_of_nil|constructor|by intros ?? ?|by intros ??? ?].
  - cbn. decided.
  - intros p Hp. split; [|apply not_in_flight]. cbn in Hp |- *. set_solver.
Qed.

Lemma init_local_state_wf_witness :
  wp (mpi_at false 3 1) (CIRCLE_init_local_state 5 (mk_globals small_input 0 1 0 0) unset_state)
    (λ g' st', state_ok 3 1 2 8 small_input st' ∧
       process_mem g' (state_blocks st' ++ []) small_queue (st_offsets st') (st_send st') [] ∧
       same_messages small_view g')
    (λ _ e, e = NoFuel) small_view.
Proof.
  apply (init_local_state_wf 5 (mk_globals small_input 0 1 0 0) unset_state 3 1 2 small_queue [] small_view);
    [decided|decided|done|decided|decided|done|decided|exact small_view_mem].
Defined.

(** The state of rank 1 of 3, with its blocks. *)
Definition built_state : CIRCLE_state_st :=
  set_st_offsets (mk_offsets_st 8 (Some (Block 4 8 ∅))) (set_st_requestors (Some (Block 5 3 ∅))
    (set_st_tree (mkTree 1 3 0 0 (Some (Block 6 2 ∅)))
       (upd_abort (set_abort_req (Some (Block 7 2 ∅))) unset_state))).

Definition built_view : view := View {[1; 2; 3; 4; 5; 6; 7]} ∅ [] [].

Lemma finalize_frees_all_witness :
  wp (mpi false) (CIRCLE_finalize_local_state built_state)
    (λ g' st', g' = set_live (v_live built_view ∖ list_to_set (worker_blocks built_state)) built_view ∧
       process_mem g' [] small_queue (st_offsets st') (st_send st') [] ∧ worker_blocks st' = [])
    (λ _ _, False) built_view.
Proof.
  apply (finalize_frees_all false built_state [] small_queue built_view). split.
  - by split.
  - split; [by intros ?? ?%elem_of_nil|constructor|by intros ?? ?|by intros ??? ?].
  - cbn. decided.
  - intros p Hp. split; [|apply not_in_flight]. cbn in Hp |- *. set_solver.
Defined.

Lemma init_finalize_balanced_witness :
  wp (mpi_at false 3 1)
    (CIRCLE_init_local_state 5 (mk_globals small_input 0 1 0 0) unset_state ≫= CIRCLE_finalize_local_state)
    (λ g' st', g' = small_view ∧ worker_blocks st' = []) (λ _ e, e = NoFuel) small_view.
Proof.
  apply (init_finalize_balanced 5 (mk_globals small_input 0 1 0 0) unset_state 3 1 2 small_queue small_view);
    [decided|decided|done|decided|decided|done|decided|].
  intros q Hq. by apply not_in_flight in Hq.
Defined.

Lemma init_abort_unchecked_witness :
  run (bump 0) 1 (init_abort (mkTree 1 3 0 0 (Some (Block 6 2 ∅)))) = (1, Stopped UB).
Proof. apply (init_abort_unchecked (mkTree 1 3 0 0 (Some (Block 6 2 ∅))) 0 1); decided. Defined.
