(* ===== verification/TermCode.v ===== *)
(** * The worker keeps to the termination protocol

    Every function of the worker, with the protocol of TermSpec as its
    environment: what it does to the ghost state, and that the ghost state
    and the fields of the worker's state go on to agree. *)
From S2P Require Import Prelude CMonad Mem Heap Queue Stdio Checkpoint Wire Tree Split State Mpi Sends Transfer Barrier Term Abort Token Network Ranks TermSpec TermInv Proc Api Reduce Quiet Worker QuietWorker.

(** ** Code that does not take part

    The calls that the protocol is not about; with [act], also work on
    items.  Code that keeps to them leaves the ghost state alone. *)

Definition free_tag (tag : Z) : bool :=
  negb ((tag =? CIRCLE_TAG_WORK_REPLY) || (tag =? CIRCLE_TAG_WORK_RECEIPT) || (tag =? CIRCLE_TAG_TERM)).

Definition term_calls (act : bool) (o : op) : bool :=
  match o with
  | OSend _ tag _ | OIsend _ tag _ _ | OIssend _ tag _ | ORecv _ tag _ => free_tag tag
  | OExternal k => act || negb (k =? WORK_CALL)
  | _ => true
  end.

#[export] Instance term_calls_local act : Local (term_calls act).
Proof. split. by intros []. Qed.
#[export] Instance term_calls_talks act tag : TCEq (free_tag tag) true → Talks (term_calls act) tag.
Proof. intros Ht%TCEq_eq. split. intros [] Ho; cbn in *; try done; apply Z.eqb_eq in Ho; by subst. Qed.
#[export] Instance term_calls_works : Works (term_calls true).
Proof. by split. Qed.
#[export] Instance term_calls_idles act : Idles (term_calls act).
Proof. split. intros n Hn. cbn. rewrite (proj2 (Z.eqb_neq _ _)) by done. by rewrite orb_true_r. Qed.

Section quiet_wp.
Context (n : Z) (par : Z → Z) (chs : Z → list Z).

Lemma quiet_pre act p g o :
  term_calls act o = true → (act = true → t_active g = true) → term_pre par chs p g o.
Proof.
  intros Ho Ha. destruct o; simpl in *; try done.
  - unfold free_tag in Ho. destruct (Z.eqb_spec tag CIRCLE_TAG_TERM); [|done]. subst. done.
  - unfold free_tag in Ho. destruct (tag =? CIRCLE_TAG_TERM), (tag =? CIRCLE_TAG_WORK_REPLY),
      (tag =? CIRCLE_TAG_WORK_RECEIPT); done.
  - unfold free_tag in Ho. destruct (tag =? CIRCLE_TAG_TERM), (tag =? CIRCLE_TAG_WORK_REPLY),
      (tag =? CIRCLE_TAG_WORK_RECEIPT); done.
  - unfold free_tag in Ho. destruct (tag =? CIRCLE_TAG_TERM), (tag =? CIRCLE_TAG_WORK_REPLY),
      (tag =? CIRCLE_TAG_WORK_RECEIPT); done.
  - intros ->. destruct act; [by apply Ha|done].
Qed.

Lemma quiet_post act p g o r g' :
  term_calls act o = true → term_post n par chs p g o r g' → g' = g.
Proof.
  intros Ho. destruct o; simpl in *; try done; unfold free_tag in Ho.
  - by intros [-> _].
  - destruct (tag =? CIRCLE_TAG_TERM), (tag =? CIRCLE_TAG_WORK_REPLY),
      (tag =? CIRCLE_TAG_WORK_RECEIPT); done.
  - destruct (tag =? CIRCLE_TAG_TERM), (tag =? CIRCLE_TAG_WORK_REPLY),
      (tag =? CIRCLE_TAG_WORK_RECEIPT); done.
  - destruct (tag =? CIRCLE_TAG_TERM), (tag =? CIRCLE_TAG_WORK_REPLY),
      (tag =? CIRCLE_TAG_WORK_RECEIPT); done.
  - by intros [_ ->].
  - by intros [_ ->].
Qed.

Lemma quiet_wp act p {A} (t : prog A) Φ g :
  quiet (term_calls act) t Φ → (act = true → t_active g = true) →
  wp (net_protocol (term_pre par chs) (term_post n par chs) p) t
    (λ g' a, g' = g ∧ Φ a) (λ _ _, True) g.
Proof.
  intros Ht Ha. induction t as [a|e|o k IH]; simpl in *; [done|done|].
  destruct Ht as [Ho Hk]. split; [by eapply quiet_pre|]. intros r g' Hr.
  apply quiet_post with (1 := Ho) in Hr. subst g'. by apply IH.
Qed.
End quiet_wp.

Section code.
Context (n : Z) (par : Z → Z) (chs : Z → list Z) `{!IsTree n par chs}.
Context (p : Z) (Hp : is_rank n p).

Abbreviation P := (net_protocol (term_pre par chs) (term_post n par chs) p).
Abbreviation safe t Q g := (wp P t Q (λ _ _, True) g).
Abbreviation my_tree := (my_tree par chs p).

(** The fields of the termination state against the ghost state. *)
Record term_rel (g : tg) (s : term_st) : Prop := TermRel {
  tr_wo : t_wo g = work_outstanding s;
  tr_wo_nonneg : 0 ≤ t_wo g;
  tr_flag : t_flag g = term_flag s;
  tr_bit : is_bit (t_flag g);
  tr_up : t_up g = truth (term_up s);
  tr_replies : term_replies s = Z.of_nat (size (t_got g));
  tr_got : t_got g ⊆ all_children chs p;
  tr_up_got : t_up g = true → t_got g = all_children chs p;
  tr_root : p = 0 → t_up g = false;
  tr_owed : t_owed g = [];
  tr_down : t_down g = [];
  tr_result : t_result g ≠ 1;
  tr_enabled : truth (term_tree_enabled s) = true;
}.

Lemma quiet_safe act {A} (t : prog A) Φ (Q : tg → A → Prop) g :
  quiet (term_calls act) t Φ → (act = true → t_active g = true) → (∀ a, Φ a → Q g a) → safe t Q g.
Proof.
  intros Ht Ha HQ. eapply wp_post; [|by eapply quiet_wp]. intros g' a [-> HΦ]. by apply HQ.
Qed.

Lemma i32_safe z (Q : tg → Z → Prop) g : Q g z → safe (i32 z) Q g.
Proof. intros H. unfold i32. by destruct (in_i32 z). Qed.

(** ** Sending work *)

Lemma local_safe A (t : prog A) Φ (Q : tg → A → Prop) g :
  quiet local_op t Φ → (∀ a, Φ a → Q g a) → safe t Q g.
Proof. intros Ht. eapply (quiet_safe false); [|done]. eapply quiet_sub, Ht. by apply local_ok. Qed.

Lemma send_no_work_safe abort sn dest g :
  safe (CIRCLE_send_no_work abort sn dest) (λ g' _, g' = g) g.
Proof.
  apply (send_no_work_message P local_safe). intros b. split; [split; [done|by destruct (truth abort)]|].
  intros r g' ->. by destruct (truth abort).
Qed.

Lemma send_items_safe qp sn dest count start bytes g :
  1 ≤ count → t_active g = true →
  safe (send_items qp sn dest count start bytes) (λ g' _, g' = send_work_g g) g.
Proof.
  intros Hc Ha. assert (0 <? count = true) as Hpos by (apply Z.ltb_lt; lia).
  apply (send_items_messages P local_safe _ _ _ _ _ _ (λ g', g' = send_work_g g)); [done|..].
  - intros l b. cbn. split; [split; [done|by intros _]|]. intros r g' ->. by rewrite Hpos.
  - intros l b g' ->. split; [done|]. by intros r g' ->.
Qed.

(** What the transfer functions keep. *)
Definition transfer_ok (g : tg) (st : CIRCLE_state_st) (g' : tg) (st' : CIRCLE_state_st) : Prop :=
  term_rel g' (st_term st') ∧ st_tree st' = st_tree st ∧ t_active g' = t_active g.

Lemma transfer_frame g st st' : term_rel g (st_term st) → frame st st' → transfer_ok g st g st'.
Proof. intros Hr [H1 H2]. split; [by rewrite H1|done]. Qed.

Lemma transfer_trans g st g1 st1 g2 st2 :
  transfer_ok g st g1 st1 → transfer_ok g1 st1 g2 st2 → transfer_ok g st g2 st2.
Proof. intros (_ & H1 & H2) (? & H3 & H4). split; [done|]. by rewrite H3, H4. Qed.

Lemma term_rel_send g s w :
  term_rel g s → w = work_outstanding s + 1 → term_rel (send_work_g g) (set_work_outstanding w s).
Proof. intros [] ->. split; simpl; try done; lia. Qed.

Lemma send_work_safe abort qp st dest count g :
  term_rel g (st_term st) → t_active g = true →
  safe (CIRCLE_send_work abort qp st dest count)
    (λ g' '(_, qp', st'), transfer_ok g st g' st' ∧ nonneg_to qp qp') g.
Proof.
  intros Hr Ha. unfold CIRCLE_send_work. destruct (Z.leb_spec count 0) as [|Hc].
  { apply wp_seq. eapply wp_post, send_no_work_safe. intros g' sn ->. split; [by apply transfer_frame|done]. }
  cbn zeta. set (st1 := if _ || _ then _ else st).
  assert (st_term st1 = st_term st ∧ st_tree st1 = st_tree st) as [H1 H2]
    by (subst st1; by destruct (_ || _)).
  apply wp_seq, i32_safe. destruct (q_strings qp) as [strings|]; [|done]. cbn [deref mbind prog_mbind prog_bind].
  destruct (load strings (q_count qp - 1)) as [e|]; [|done]. cbn [deref mbind prog_mbind prog_bind].
  apply wp_seq. eapply (quiet_safe false); [by apply (quiet_send_extent _ _ _ (λ _, 0 ≤ q_count qp - count)); intros|done|].
  intros [start len] Hq. apply wp_seq.
  eapply (quiet_safe false);
    [apply (quiet_back_off _ _ _ _ _ _ (λ x, 1 ≤ x.1.1 ∧ 0 ≤ q_count qp - x.1.1)); [lia|done|done]|done|].
  intros [[c s] l] [Hc' Hq']. cbn in Hc', Hq'. destruct (INT32_MAX <? l).
  { apply wp_seq. eapply wp_post, send_no_work_safe. intros g' sn ->.
    split; [|done]. split; [by rewrite <-H1 in Hr|]. split; [by rewrite <-H2|done]. }
  apply wp_seq. eapply wp_post, send_items_safe; [|done|done]. intros g' sn ->.
  apply wp_seq, i32_safe. apply wp_seq, i32_safe.
  split; [|by intros _]. split; [|split; [by rewrite <-H2|done]]. cbn [st_term upd_term set_st_term set_st_send].
  apply term_rel_send; [by rewrite H1|done].
Qed.

Lemma send_work_loop_safe m i abort rq sz qp st g :
  term_rel g (st_term st) → t_active g = true →
  safe (send_work_loop m i abort rq sz qp st)
    (λ g' '(qp', st'), transfer_ok g st g' st' ∧ nonneg_to qp qp') g.
Proof.
  revert i qp st g. induction m as [|m IH]; intros i qp st g Hr Ha; cbn [send_work_loop].
  { split; [by apply transfer_frame|done]. }
  destruct (load rq i) as [dest|]; [|done]. cbn [deref mbind prog_mbind prog_bind].
  destruct (load sz (i + 1)) as [c|]; [|done]. cbn [deref mbind prog_mbind prog_bind].
  apply wp_seq. eapply wp_post, send_work_safe; [|done|done].
  intros g1 [[rc qp1] st1] [Ht Hn]. pose proof Ht as (Hr1 & _ & Ha1).
  eapply wp_post, IH; [|done|congruence].
  intros g2 [qp2 st2] [Ht2 Hn2]. split; [by eapply transfer_trans|]. unfold nonneg_to in *. auto.
Qed.

Lemma send_to_many_safe o abort qp st rq rc g :
  term_rel g (st_term st) → t_active g = true →
  safe (CIRCLE_send_work_to_many o abort qp st rq rc)
    (λ g' '(qp', st'), transfer_ok g st g' st' ∧ nonneg_to qp qp') g.
Proof.
  intros Hr Ha. unfold CIRCLE_send_work_to_many. destruct (rc <=? 0); [done|].
  apply wp_seq. eapply (quiet_safe false); [by apply (quiet_split _ _ _ _ (λ _, True))|done|].
  intros [sizes seed] _. destruct sizes as [sizes|]; [|done]. cbn [deref mbind prog_mbind prog_bind].
  apply wp_seq. eapply wp_post, send_work_loop_safe; [|done|done].
  intros g' [qp' st'] Ht. cbn. split; [done|]. by intros [] ? ->.
Qed.

Lemma no_work_loop_safe m i abort rq sn g : safe (no_work_loop m i abort rq sn) (λ g' _, g' = g) g.
Proof.
  revert i sn. induction m as [|m IH]; intros i sn; cbn [no_work_loop]; [done|].
  destruct (load rq i) as [dest|]; [|done]. cbn [deref mbind prog_mbind prog_bind].
  apply wp_seq. eapply wp_post, send_no_work_safe. intros g' sn' ->. apply IH.
Qed.

(** Without work to give (or while cleaning up) the ghost state and the
    queue stay as they are. *)
Lemma workreq_check_safe o abort qp st cleanup g (Q : tg → CIRCLE_internal_queue_t * CIRCLE_state_st → Prop) :
  (∀ st', frame st st' → Q g (qp, st')) →
  (q_count qp ≠ 0 → truth cleanup = false → truth abort = false →
   (term_rel g (st_term st) ∧ t_active g = true) ∧
   ∀ g' qp' st', transfer_ok g st g' st' → nonneg_to qp qp' → Q g' (qp', st')) →
  safe (CIRCLE_workreq_check o abort qp st cleanup) Q g.
Proof.
  intros H1 H2. unfold CIRCLE_workreq_check. apply wp_seq.
  eapply (quiet_safe false); [by apply (quiet_workreq_loop _ _ _ (λ _, True))|done|].
  intros [rc rq] _. cbn zeta. destruct (rc =? 0); [by apply H1|].
  destruct rq as [rq|]; [|done]. cbn [deref mbind prog_mbind prog_bind].
  apply wp_seq, i32_safe.
  assert (safe (sn ← no_work_loop (Z.to_nat rc) 0 abort rq (st_send (set_st_requestors (Some rq) st));
    mret (qp, set_st_send sn (set_st_requestors (Some rq) st))) Q g) as Hno.
  { apply wp_seq. eapply wp_post, no_work_loop_safe. intros g' sn ->. by apply H1. }
  destruct (Z.eqb_spec (q_count qp) 0) as [|Hq]; [done|].
  destruct (truth cleanup); [done|]. destruct (truth abort); [done|]. cbn [orb].
  destruct (_ <=? _); [done|]. destruct H2 as [[Hr Ha] HQ]; [done..|].
  eapply wp_post, send_to_many_safe; [|done|done].
  intros g' [qp' st'] [Ht Hn]. by apply HQ.
Qed.

(** ** Receipts *)

Lemma receipt_loop_safe m s g :
  term_rel g s →
  safe (workreceipt_loop m s) (λ g' s', term_rel g' s' ∧ t_active g' = t_active g) g.
Proof.
  revert s g. induction m as [|m IH]; intros s g Hr; cbn [workreceipt_loop];
    (destruct (Z.ltb_spec 0 (work_outstanding s)); [|done]); [done|].
  cbn. split; [done|]. intros [[rank c]|] g' [-> _]; [|done].
  cbn. split; [done|]. intros msg g' ->. apply wp_seq, i32_safe.
  assert (term_rel (recv_receipt_g g) (set_term_flag 0 (set_work_outstanding (work_outstanding s - 1) s))) as Hr'.
  { destruct Hr. split; simpl; try done; [lia|lia|by left]. }
  eapply wp_post, IH; [|done]. by intros g' s' [? ->].
Qed.

Lemma receipt_check_safe st g :
  term_rel g (st_term st) →
  safe (CIRCLE_workreceipt_check st) (λ g' st', transfer_ok g st g' st') g.
Proof.
  intros Hr. unfold CIRCLE_workreceipt_check. apply wp_seq.
  eapply wp_post, receipt_loop_safe; [|done]. intros g' s' [? ?]. by split.
Qed.

(** ** Receiving work *)

Definition activate (g : tg) : tg :=
  TG true (t_wo g) (t_owed g) (t_flag g) (t_up g) (t_got g) (t_down g) (t_it g) (t_result g).

(** Either nothing came, or work did. *)
Definition received (abort : Z) (qp : CIRCLE_internal_queue_t) (st : CIRCLE_state_st) (g : tg)
    (g' : tg) (abort' : Z) (qp' : CIRCLE_internal_queue_t) (st' : CIRCLE_state_st) : Prop :=
  (g' = g ∧ q_count qp' = q_count qp ∨ g' = activate g ∧ t_result g ≠ 1 ∧ 0 ≤ q_count qp') ∧ frame st st' ∧
  (truth abort = true → truth abort' = true).

(** The data message and the receipt, for work from [source]. *)
Lemma receive_items_safe qp st b source count g :
  safe (receive_items qp st b source count)
    (λ g' '(_, qp', st'), g' = activate g ∧ q_count qp' = count ∧ frame st st') (recv_work_g source g).
Proof.
  unfold receive_items. destruct (load b 1) as [chars|]; [|done]. cbn [deref mbind prog_mbind prog_bind].
  apply wp_seq. eapply (quiet_safe false).
  { destruct (_ <? _); [by apply (quiet_extend _ _ (λ _, True))|done]. }
  { done. }
  intros [rc qp1] _. destruct (rc <? 0); [done|]. apply wp_seq. unfold recv_chars.
  cbn. split; [done|]. intros m g1 (_ & _ & ->). destruct m as [l|l|l]; [|done|done]. cbn [work_header].
  destruct (_ <? _); [done|]. destruct (q_base qp1) as [base|]; [|done]. cbn [deref mbind prog_mbind prog_bind].
  destruct (store_list base 0 l) as [base1|]; [|done]. cbn [deref mbind prog_mbind prog_bind wp].
  apply wp_seq. eapply (quiet_safe false).
  { destruct (_ <? _); [by apply (quiet_str_extend _ _ (λ _, True))|done]. }
  { done. }
  intros [rc2 qp2] _. destruct (rc2 <? 0); [done|].
  destruct (q_strings qp2) as [strings|]; [|done]. cbn [deref mbind prog_mbind prog_bind].
  apply wp_seq. eapply (quiet_safe false); [by apply (quiet_receive_offsets _ _ _ _ (λ _, True))|done|].
  intros str _. destruct (load str 0) as [f|]; [|done]. cbn [deref mbind prog_mbind prog_bind].
  destruct (negb (f =? 0)); [done|]. destruct (load str (count - 1)) as [e|]; [|done].
  cbn [deref mbind prog_mbind prog_bind]. destruct (q_base qp2) as [base2|]; [|done].
  cbn [deref mbind prog_mbind prog_bind]. destruct (load_cstr base2 e) as [s|]; [|done].
  cbn. split; [by eexists|]. intros r g2 ->. apply wp_seq.
  eapply (quiet_safe false); [by apply (quiet_track _ _ _ (λ _, True))|done|]. intros sn _. done.
Qed.

Lemma load_head (b b' : block Z) x l :
  store_list b 0 (x :: l) = Some b' → load b' 0 = Some x.
Proof.
  unfold store_list, in_block. destruct (_ && _) eqn:Hb; [|done]. intros [= <-].
  apply load_ok; simpl; [|by apply lookup_insert_eq].
  apply andb_true_iff in Hb as [_ Hb%Z.leb_le]. simpl in Hb. lia.
Qed.

Lemma work_receive_safe abort qp st source size g :
  safe (CIRCLE_work_receive abort qp st source size)
    (λ g' '(_, abort', qp', st'), received abort qp st g g' abort' qp' st') g.
Proof.
  unfold CIRCLE_work_receive. destruct (size <=? 0); [done|].
  apply wp_seq. eapply (quiet_safe false); [by apply (quiet_extend_offsets _ _ (λ _, True))|done|].
  intros [rc o] _. cbn zeta. destruct (rc <? 0); [done|]. apply wp_seq. unfold recv_ints.
  cbn. split; [done|]. intros m g1 (Hm & Hh & ->). destruct m as [l|l|l]; [done| |done].
  destruct (_ <? _); [done|]. destruct (offsets_recv_buf o) as [b|]; [|done].
  cbn [deref mbind prog_mbind prog_bind]. destruct (store_list b 0 l) as [b1|] eqn:Hs; [|done].
  cbn [deref wp]. destruct l as [|x l]; [done|]. rewrite (load_head _ _ _ _ Hs).
  cbn [deref mbind prog_mbind prog_bind work_header].
  destruct (Z.eqb_spec x 0) as [->|Hx0].
  { split; [by left|]. by split. }
  destruct (Z.eqb_spec x PAYLOAD_ABORT) as [->|_].
  { split; [by left|]. by split. }
  destruct (Z.ltb_spec x 0).
  { rewrite (proj2 (Z.ltb_ge 0 x)) by lia. split; [by left|]. by split. }
  cbn [work_header] in Hh. rewrite (proj2 (Z.ltb_lt 0 x)) in Hh |- * by lia. apply wp_seq.
  eapply wp_post, receive_items_safe. intros g2 [[rc2 qp2] st2] (-> & Hn & Hf).
  split; [right; split; [done|split; [naive_solver|lia]]|]. done.
Qed.

Lemma request_work_safe fuel abort qp st cleanup g :
  safe (CIRCLE_request_work fuel abort qp st cleanup)
    (λ g' '(_, abort', qp', st'), received abort qp st g g' abort' qp' st') g.
Proof.
  assert (∀ st', frame st st' → received abort qp st g g abort qp st') as Hsame.
  { intros st' Hf. split; [by left|]. by split. }
  unfold CIRCLE_request_work. apply wp_seq.
  eapply (quiet_safe false); [by apply (quiet_request_slot _ (λ _, True))|done|].
  intros [free rq] _. cbn zeta. destruct (truth (work_requested rq)).
  { cbn. split; [done|]. intros [[s c]|] g' [-> _]; [|by apply Hsame].
    apply wp_seq. eapply wp_post, work_receive_safe.
    intros g2 [[[rc a2] qp2] st2] (H1 & H2 & H3). split; [done|]. by split. }
  destruct (_ && _ && _); [|by apply Hsame].
  destruct (_ =? MPI_PROC_NULL); [by apply Hsame|].
  cbn. split; [done|]. intros r g' ->. apply wp_seq.
  eapply (quiet_safe false); [by apply (quiet_next_proc _ _ (frame st))|done|].
  intros st' Hf. by apply Hsame.
Qed.

Lemma term_rel_activate g s : term_rel g s → term_rel (activate g) s.
Proof. intros []. by split. Qed.

(** ** The allreduce *)

(** A process that still waits for replies has not contributed. *)
Lemma waiting_not_up g s : term_rel g s → term_replies s < Z.of_nat (length (chs p)) → t_up g = false.
Proof.
  intros Hr Hlt. destruct (t_up g) eqn:Hup; [|done].
  pose proof (tr_up_got _ _ Hr Hup) as Hg. pose proof (tr_replies _ _ Hr) as Hn.
  rewrite Hg, (size_all_children p) in Hn. lia.
Qed.

Lemma term_rel_child g s c v k :
  term_rel g s → is_bit v → c ∈ chs p → c ∉ t_got g → t_up g = false → k = term_replies s + 1 →
  term_rel (recv_child_g c v g) (set_term_replies k (set_term_flag (Z.land (term_flag s) v) s)).
Proof.
  intros [] Hv Hc Hn Hu ->. split; simpl; try done.
  - by rewrite tr_flag0.
  - by apply land_bits.
  - rewrite tr_replies0, size_union by set_solver. rewrite size_singleton. lia.
  - unfold all_children in *. set_solver.
  - congruence.
Qed.

(** [recv_int] of a message of the allreduce. *)
Lemma recv_int_safe src g (Q : tg → Z → Prop) :
  term_pre par chs p g (ORecv src CIRCLE_TAG_TERM 1) →
  (∀ v, is_bit v → (t_up g = false → src ∉ t_got g) →
     Q (if t_up g then recv_parent_g chs p v g else recv_child_g src v g) v) →
  safe (recv_int src CIRCLE_TAG_TERM) Q g.
Proof.
  intros Hpre HQ. unfold recv_int. apply wp_seq. split; [exact Hpre|].
  intros m g' (v & -> & Hv & -> & Hn). by apply HQ.
Qed.

Lemma recv_children_safe m t s g :
  my_tree t → term_rel g s →
  safe (term_recv_children m t s) (λ g' s', term_rel g' s' ∧ t_active g' = t_active g) g.
Proof.
  intros Ht. revert s g. induction m as [|m IH]; intros s g Hr; cbn [term_recv_children];
    destruct (Z.ltb_spec (term_replies s) (children t)) as [Hlt|]; [done|done| |done].
  rewrite (mt_children _ Ht) in Hlt. pose proof (waiting_not_up _ _ Hr Hlt) as Hup.
  apply wp_seq. split; [done|]. intros [[c k]|] g' [-> Hc]; [|done].
  specialize (Hc eq_refl Hup c k eq_refl). cbn [wp].
  apply wp_seq, recv_int_safe.
  { cbn. split; [apply Hr|]. split; [apply Hr|]. by right. }
  intros v Hv Hn. rewrite Hup. apply wp_seq, i32_safe.
  eapply wp_post, IH; [|apply term_rel_child; [done|done|done|by apply Hn|done|done]].
  by intros g' s' [? ->].
Qed.

(** Forwarding the result to the children from the i-th on. *)
Lemma send_down_safe m i t v g :
  my_tree t → t_result g = v → t_down g = drop i (chs p) → (length (chs p) = i + m)%nat →
  safe (send_children m (Z.of_nat i) CIRCLE_TAG_TERM (Ints [v]) t)
    (λ g' _, g' = TG (t_active g) (t_wo g) (t_owed g) (t_flag g) (t_up g) (t_got g) [] (t_it g) v) g.
Proof.
  intros Ht. revert i g. induction m as [|m IH]; intros i g Hres Hd Hl; cbn [send_children].
  { rewrite drop_ge in Hd by lia. destruct g; simpl in *. by subst. }
  destruct (mt_child _ Ht) as (b & Hb & Hch).
  destruct (lookup_lt_is_Some_2 (chs p) i) as [c Hc]; [lia|].
  unfold child. rewrite Hb. cbn [deref mbind prog_mbind prog_bind]. rewrite (Hch _ _ Hc).
  cbn [deref mbind prog_mbind prog_bind].
  rewrite (drop_S _ c) in Hd by done.
  assert (∀ g', term_send par chs p g c (Ints [v]) g' → g' = send_down_g g) as Hinv.
  { intros g' Hs. inversion Hs as [? ? (_ & _ & _ & Hdn & _)| |? ? ? (_ & _ & _ & Hdn & _)]; subst;
      [by rewrite Hd in Hdn|done|by rewrite Hd in Hdn]. }
  apply wp_seq. split.
  { cbn. eexists. eapply ts_down; [exact Hd|by subst v]. }
  intros [] g' ->%Hinv. cbn [wp].
  replace (Z.of_nat i + 1) with (Z.of_nat (S i)) by lia.
  eapply wp_post, IH; [|done| |lia]; [by intros g' [] ->|]. simpl. by rewrite Hd.
Qed.

(** What the allreduce comes to. *)
Definition allreduce_ok (g : tg) (g' : tg) (status : Z) (s' : term_st) : Prop :=
  (status = WHITE ∧ term_rel g' s' ∧ (t_active g' = true → t_active g = true)) ∨
  (status = TERMINATE ∧ t_result g' = 1 ∧ t_owed g' = []).

Lemma all_replies g s :
  term_rel g s → term_replies s = Z.of_nat (length (chs p)) → t_got g = all_children chs p.
Proof.
  intros Hr Hall. apply set_subseteq_size_eq; [apply Hr|].
  pose proof (tr_replies _ _ Hr). pose proof (size_all_children p). lia.
Qed.

Lemma may_contribute_rel g s :
  term_rel g s → term_replies s = Z.of_nat (length (chs p)) → t_up g = false → t_wo g = 0 →
  may_contribute chs p g (Ints [t_flag g]).
Proof.
  intros Hr Hall Hup Hwo. split; [done|]. split; [done|]. split; [by eapply all_replies|].
  split; [apply Hr|]. split; [apply Hr|]. split; [done|apply Hr].
Qed.

(** The root's decision and its forwarding. *)
Lemma decide_safe t g :
  p = 0 → chs p ≠ [] → my_tree t → may_contribute chs p g (Ints [t_flag g]) →
  safe (send_children (length (chs p)) 0 CIRCLE_TAG_TERM (Ints [t_flag g]) t)
    (λ g' _, g' = TG false (t_wo g) (t_owed g) 1 false ∅ [] (S (t_it g)) (t_flag g)) g.
Proof.
  intros Hp0 Hne Ht Hm. destruct (chs p) as [|d rest] eqn:Hc; [done|]. clear Hne.
  cbn [length send_children]. destruct (mt_child _ Ht) as (b & Hb & Hch).
  unfold child. rewrite Hb. cbn [deref mbind prog_mbind prog_bind].
  pose proof (Hch 0%nat d ltac:(by rewrite Hc)) as Hld. change (Z.of_nat 0) with 0 in Hld. rewrite Hld. cbn [deref mbind prog_mbind prog_bind].
  assert (∀ g', term_send par chs p g d (Ints [t_flag g]) g' → g' = decide_g chs p g) as Hinv.
  { destruct Hm as (_ & _ & _ & Hdn & _). intros g' Hs.
    inversion Hs as [| ? Hd|]; subst; [lia|by rewrite Hdn in Hd|done]. }
  apply wp_seq. split; [cbn; eexists; by eapply ts_decide|].
  intros [] g' ->%Hinv. cbn [wp].
  eapply wp_post, (send_down_safe (length rest) 1 t); [|done|done| |by rewrite Hc].
  - intros g' [] ->. done.
  - simpl. by rewrite Hc.
Qed.

Lemma root_safe t s g :
  p = 0 → chs p ≠ [] → my_tree t → term_rel g s → t_wo g = 0 →
  safe ('(result, s) ← term_send_up t s;
        '(complete, result) ← term_complete t s result;
        if complete : bool then
          _ ← send_children (Z.to_nat (children t)) 0 CIRCLE_TAG_TERM (Ints [result]) t;
          mret (if truth result then TERMINATE else WHITE, set_term_replies 0 (set_term_up 0 s))
        else mret (WHITE, s)) (λ g' '(status, s'), allreduce_ok g g' status s') g.
Proof.
  intros Hp0 Hne Ht Hr Hwo. pose proof (tr_root _ _ Hr Hp0) as Hup.
  pose proof (mt_parent _ Ht) as Hpar. rewrite decide_True in Hpar by done.
  unfold term_send_up. rewrite <-(tr_up _ _ Hr), Hup, (mt_children _ Ht), Hpar, Nat2Z.id. cbn [negb andb].
  destruct (Z.eqb_spec (term_replies s) (Z.of_nat (length (chs p)))) as [Hall|Hnall].
  2: { cbn [mbind prog_mbind prog_bind mret prog_mret]. unfold term_complete.
       rewrite <-(tr_up _ _ Hr), Hup. by left. }
  rewrite Z.eqb_refl. cbn [negb mbind prog_mbind prog_bind mret prog_mret].
  unfold term_complete. rewrite Hpar, Z.eqb_refl.
  change (truth (term_up (set_term_up 1 (set_term_flag 1 s)))) with true.
  cbn [negb mbind prog_mbind prog_bind mret prog_mret]. rewrite <-(tr_flag _ _ Hr).
  apply wp_seq. eapply wp_post, decide_safe; [|done|done|done|by eapply may_contribute_rel].
  intros g' [] ->. cbn [wp mret prog_mret].
  destruct (tr_bit _ _ Hr) as [Hf|Hf]; rewrite Hf; cbn [truth Z.eqb negb]; [left|right].
  - split; [done|]. split; [|done]. destruct Hr.
    split; simpl; try done; try (by right).
  - split; [done|]. split; [done|]. apply Hr.
Qed.

(** Another rank contributes to its parent. *)
Lemma send_up_safe t s g :
  p ≠ 0 → my_tree t → term_rel g s → t_wo g = 0 →
  safe (term_send_up t s)
    (λ g' '(result, s'), term_rel g' s' ∧ t_wo g' = 0 ∧ (t_active g' = true → t_active g = true)) g.
Proof.
  intros Hp0 Ht Hr Hwo. pose proof (mt_parent _ Ht) as Hpar. rewrite decide_False in Hpar by done.
  assert (0 < p < n) as Hpn by (unfold is_rank in Hp; lia).
  pose proof (par_lt (IsTree := _) p Hpn) as Hpl.
  unfold term_send_up. rewrite <-(tr_up _ _ Hr), (mt_children _ Ht), Hpar.
  destruct (t_up g) eqn:Hup; cbn [negb andb]; [done|].
  destruct (Z.eqb_spec (term_replies s) (Z.of_nat (length (chs p)))) as [Hall|Hnall]; [|done].
  rewrite (proj2 (Z.eqb_neq (par p) MPI_PROC_NULL)) by (unfold MPI_PROC_NULL; lia). cbn [negb].
  rewrite <-(tr_flag _ _ Hr).
  pose proof (may_contribute_rel _ _ Hr Hall Hup Hwo) as Hm.
  assert (∀ g', term_send par chs p g (par p) (Ints [t_flag g]) g' → g' = send_up_g g) as Hinv.
  { intros g' Hs. inversion Hs as [|? Hd|]; subst; [done| |lia].
    by rewrite (tr_down _ _ Hr) in Hd. }
  apply wp_seq, wp_seq. split; [cbn; eexists; by eapply ts_up; [lia| |]|].
  intros [] g' ->%Hinv. cbn [wp mret prog_mret].
  split; [|done]. pose proof (all_replies _ _ Hr Hall) as Hg. destruct Hr.
  split; simpl; try done; try (by right).
Qed.

Lemma nonroot_safe t s g :
  p ≠ 0 → my_tree t → term_rel g s → t_wo g = 0 →
  safe ('(result, s) ← term_send_up t s;
        '(complete, result) ← term_complete t s result;
        if complete : bool then
          _ ← send_children (Z.to_nat (children t)) 0 CIRCLE_TAG_TERM (Ints [result]) t;
          mret (if truth result then TERMINATE else WHITE, set_term_replies 0 (set_term_up 0 s))
        else mret (WHITE, s)) (λ g' '(status, s'), allreduce_ok g g' status s') g.
Proof.
  intros Hp0 Ht Hr Hwo. pose proof (mt_parent _ Ht) as Hpar. rewrite decide_False in Hpar by done.
  assert (0 < p < n) as Hpn by (unfold is_rank in Hp; lia).
  pose proof (par_lt (IsTree := _) p Hpn) as Hpl.
  apply wp_seq. eapply wp_post, send_up_safe; [|done..].
  intros g1 [result s1] (Hr1 & Hwo1 & Ha1). apply wp_seq.
  unfold term_complete. rewrite <-(tr_up _ _ Hr1), Hpar.
  rewrite (proj2 (Z.eqb_neq (par p) MPI_PROC_NULL)) by (unfold MPI_PROC_NULL; lia). cbn [negb].
  destruct (t_up g1) eqn:Hup; [|by left].
  apply wp_seq. split; [done|]. intros [m|] g' [-> _]; cbn [wp mret prog_mret]; [|by left].
  apply wp_seq, recv_int_safe.
  { cbn. split; [apply Hr1|]. split; [apply Hr1|]. left. split; [lia|done]. }
  intros v Hv _. rewrite Hup. cbn [wp mret prog_mret]. apply wp_seq.
  rewrite (mt_children _ Ht), Nat2Z.id.
  eapply wp_post, (send_down_safe (length (chs p)) 0 t); [|done|done|done|done].
  intros g2 [] ->. cbn [wp mret prog_mret].
  destruct Hv as [-> | ->]; cbn [truth Z.eqb negb]; [left|right].
  - split; [done|]. split; [|done]. destruct Hr1.
    split; simpl; try done; try (by right).
  - split; [done|]. split; [done|]. apply Hr1.
Qed.

Lemma check_term_safe t s g :
  (p = 0 → chs p ≠ []) → my_tree t → term_rel g s →
  safe (CIRCLE_check_for_term_allreduce t s) (λ g' '(status, s'), allreduce_ok g g' status s') g.
Proof.
  intros Hne Ht Hr. unfold CIRCLE_check_for_term_allreduce.
  apply wp_seq. eapply wp_post, recv_children_safe; [|done|done].
  intros g1 s1 [Hr1 Ha1]. destruct (Z.ltb_spec 0 (work_outstanding s1)) as [|Hw].
  { left. split; [done|]. split; [done|]. by rewrite Ha1. }
  assert (t_wo g1 = 0) as Hwo by (destruct Hr1; lia).
  assert (∀ Q : tg → Z * term_st → Prop,
    (∀ g' status s', allreduce_ok g1 g' status s' → Q g' (status, s')) →
    ∀ g' x, (let '(status, s') := x in allreduce_ok g1 g' status s') → Q g' x) as HQ
    by (intros Q H g' []; apply H).
  destruct (decide (p = 0)) as [Hp0|Hp0].
  - eapply wp_post, root_safe; [|done|by apply Hne|done|done|done].
    apply HQ. intros g' status s' [(? & ? & ?)|?]; [left|by right].
    split; [done|]. split; [done|]. rewrite <-Ha1. done.
  - eapply wp_post, nonroot_safe; [|done..].
    apply HQ. intros g' status s' [(? & ? & ?)|?]; [left|by right].
    split; [done|]. split; [done|]. rewrite <-Ha1. done.
Qed.

(** ** A round of the main loop *)

Record main_rel (g : tg) (G : globals) (st : CIRCLE_state_st) : Prop := MainRel {
  mr_term : term_rel g (st_term st);
  mr_tree : my_tree (st_tree st);
  mr_idle : t_active g = false → no_items G ∨ truth (CIRCLE_ABORT_FLAG G) = true;
  mr_callbacks : tame_callbacks G;
  mr_count : count_ok G;
}.

(** The process has learnt of the end, with nothing left to do. *)
Record exit_rel (g : tg) (G : globals) : Prop := ExitRel {
  er_result : t_result g = 1;
  er_idle : no_items G ∨ truth (CIRCLE_ABORT_FLAG G) = true;
  er_callbacks : tame_callbacks G;
}.

Lemma main_rel_calm g G G' st : main_rel g G st → calm G G' → main_rel g G' st.
Proof.
  intros [Hr Ht Hi Hc Hz] [Hn Hk]. split; [done|done| |by eapply keeps_tame|by apply Hk].
  intros Ha. destruct (Hi Ha); [left; auto|right; by apply Hk].
Qed.

Lemma main_rel_frame g G st st' : main_rel g G st → frame st st' → main_rel g G st'.
Proof. intros [] [H1 H2]. split; rewrite ?H1, ?H2; done. Qed.

Lemma serve_safe g G st :
  main_rel g G st →
  safe (serve_requests 0 G st) (λ g' '(G', st'), main_rel g' G' st') g.
Proof.
  intros Hm. unfold serve_requests, the_queue.
  destruct (queue (CIRCLE_INPUT_ST G)) as [qp|] eqn:Hq; [|done]. cbn [deref mbind prog_mbind prog_bind].
  apply wp_seq, workreq_check_safe.
  - intros st' Hf. cbn. apply (main_rel_calm _ G); [by eapply main_rel_frame|].
    split; [|split; [done|split; [|by split]]]; intros Hn q [= <-]; by apply Hn.
  - intros Hne _ Hab. assert (t_active g = true) as Ha.
    { destruct (t_active g) eqn:Ha; [done|]. destruct (mr_idle _ _ _ Hm Ha) as [Hn|]; [|congruence].
      by rewrite (Hn qp Hq) in Hne. }
    split; [split; [apply Hm|done]|]. intros g' qp' st' (Hr & Htr & Ha') Hn. cbn.
    split; [done|by rewrite Htr; apply Hm|congruence|apply Hm|].
    intros q [= <-]. by apply Hn, (mr_count _ _ _ Hm).
Qed.

Lemma request_safe fuel cleanup g G st :
  safe (request_work fuel cleanup G st)
    (λ g' '(G', st'), (g' = g ∧ calm G G' ∨ g' = activate g ∧ t_result g ≠ 1 ∧ keeps G G') ∧ frame st st') g.
Proof.
  unfold request_work, the_queue.
  destruct (queue (CIRCLE_INPUT_ST G)) as [qp|] eqn:Hq; [|done]. cbn [deref mbind prog_mbind prog_bind].
  apply wp_seq. eapply wp_post, request_work_safe.
  intros g' [[[rc abort'] qp'] st'] ([[-> Hn]|(-> & Hr & Hn)] & Hf & Hab); (split; [|done]).
  - left. split; [done|]. split; [|split; [done|split; [|by split]]];
      intros Hni q [= <-]; rewrite Hn; by apply Hni.
  - right. split; [done|]. split; [done|]. split; [done|]. split; [|by split]. by intros _ q [= <-].
Qed.

Lemma round_safe fuel g G st :
  (p = 0 → chs p ≠ []) → main_rel g G st →
  safe (work_round fuel G st)
    (λ g' '(stop, G', st'), if stop : bool then exit_rel g' G' else main_rel g' G' st') g.
Proof.
  intros Hne Hm. unfold work_round.
  apply wp_seq. eapply wp_post, serve_safe; [|done]. clear g G st Hm. intros g [G st] Hm.
  apply wp_seq. eapply wp_post, receipt_check_safe; [|apply Hm].
  intros g1 st1 (Hr1 & Ht1 & Ha1).
  assert (main_rel g1 G st1) as Hm1.
  { split; [done|by rewrite Ht1; apply Hm|rewrite Ha1; apply Hm|apply Hm|apply Hm]. }
  clear g st Hr1 Ht1 Ha1 Hm. apply wp_seq. unfold reap_sends. apply wp_seq.
  eapply (quiet_safe false); [by apply (quiet_check _ (λ _, True))|done|]. intros sn _. cbn [wp mret prog_mret].
  apply wp_seq. unfold check_abort. apply wp_seq.
  eapply (quiet_safe false).
  { apply (quiet_abort_check _ _ _ _ (λ x, truth (CIRCLE_ABORT_FLAG G) = true → truth x.1 = true)). intros ? ? Hx; exact Hx. }
  { done. }
  intros [abort a] Hab. cbn in Hab. cbn [wp mret prog_mret].
  set (G2 := set_abort_flag abort G). set (st2 := set_st_abort a (set_st_send sn st1)).
  assert (main_rel g1 G2 st2) as Hm2.
  { apply (main_rel_calm _ G); [by eapply main_rel_frame|].
    split; [done|]. split; [exact Hab|]. by repeat split. }
  clearbody G2 st2. clear G st1 sn a abort Hab Hm1. apply wp_seq. unfold check_reduce.
  eapply (wp_post P _ (λ g' '(G', st'), g' = g1 ∧ main_rel g1 G' st')).
  2: { destruct (truth (reduce_enabled (st_reduce st2))); [|done]. apply wp_seq.
       eapply (quiet_safe false); [apply (quiet_reduce_check tame_callbacks calm), Hm2|done|].
       intros [r G'] Hcalm. cbn in Hcalm. split; [done|].
       apply (main_rel_calm _ G2); [by eapply main_rel_frame|done]. }
  intros g' [G3 st3] [-> Hm3]. clear G2 st2 Hm2. unfold the_queue.
  destruct (queue (CIRCLE_INPUT_ST G3)) as [q3|] eqn:Hq3; [|done]. cbn [deref mbind prog_mbind prog_bind].
  apply wp_seq.
  eapply (wp_post P _ (λ g' '(G', st'), main_rel g' G' st')).
  2: { destruct (q_count q3 =? 0); [|done]. eapply wp_post, request_safe.
       intros g4 [G4 st4] [[[-> Hcalm]|(-> & _ & Hk)] Hf].
       - eapply main_rel_frame, Hf. by eapply main_rel_calm.
       - eapply main_rel_frame, Hf. destruct Hm3. split; [by apply term_rel_activate|done|done| |].
         + by eapply keeps_tame.
         + by apply Hk. }
  clear g1 G3 st3 Hm3 q3 Hq3. intros g1 [G1 st1] Hm1.
  destruct (queue (CIRCLE_INPUT_ST G1)) as [q|] eqn:Hq; [|done]. cbn [deref mbind prog_mbind prog_bind].
  destruct ((0 <? q_count q) && negb (truth (CIRCLE_ABORT_FLAG G1))) eqn:Hwork.
  - apply andb_true_iff in Hwork as [Hpos%Z.ltb_lt Hab%negb_true_iff].
    assert (t_active g1 = true) as Ha.
    { destruct (t_active g1) eqn:Ha; [done|]. destruct (mr_idle _ _ _ Hm1 Ha) as [Hn|]; [|congruence].
      rewrite (Hn q Hq) in Hpos. lia. }
    unfold call_cb. destruct (process_cb (CIRCLE_INPUT_ST G1)) as [u|]; [|done].
    cbn [deref mbind prog_mbind prog_bind].
    apply wp_seq. eapply (quiet_safe true); [apply quiet_user|done|]. intros G' Hk.
    apply wp_seq, i32_safe. cbn [wp mret prog_mret]. destruct Hm1.
    split; [done|done|congruence|by eapply keeps_tame|by apply Hk].
  - assert (no_items G1 ∨ truth (CIRCLE_ABORT_FLAG G1) = true) as Hidle.
    { apply andb_false_iff in Hwork as [Hpos%Z.ltb_ge|Hab%negb_false_iff]; [left|by right].
      intros q' Hq'. pose proof (mr_count _ _ _ Hm1 q' Hq'). simplify_eq. lia. }
    unfold check_termination. rewrite (tr_enabled _ _ (mr_term _ _ _ Hm1)).
    apply wp_seq, wp_seq. eapply wp_post, check_term_safe; [|done|apply Hm1|apply Hm1].
    intros g2 [status s'] [(-> & Hr & Ha)|(-> & Hr & Ho)]; cbn; destruct Hm1; split; try done.
Qed.

Lemma rounds_safe m fuel g G st :
  (p = 0 → chs p ≠ []) → main_rel g G st →
  safe (work_rounds m fuel G st) (λ g' '(G', _), exit_rel g' G') g.
Proof.
  intros Hne. revert g G st. induction m as [|m IH]; intros g G st Hm; cbn [work_rounds]; [done|].
  apply wp_seq. eapply wp_post, round_safe; [|done|done].
  intros g' [[[] G'] st'] H; [done|by apply IH].
Qed.

(** ** Cleaning up *)

(** Having learnt of the end, with nothing left to do, or with [abort]. *)
Record over_rel (abort : Prop) (g : tg) (G : globals) : Prop := OverRel {
  or_result : t_result g = 1;
  or_idle : no_items G ∨ abort;
  or_callbacks : tame_callbacks G;
}.

Lemma over_calm abort g G G' : over_rel abort g G → calm G G' → over_rel abort g G'.
Proof.
  intros [Hr Hi Hc] [Hn Hk]. split; [done| |by eapply keeps_tame]. destruct Hi; auto.
Qed.

Lemma cleanup_round_safe abort fuel g G st :
  over_rel abort g G →
  safe (cleanup_round fuel G st) (λ g' '(_, G', _), over_rel abort g' G') g.
Proof.
  intros Hc. unfold cleanup_round. cbn zeta. set (st0 := if drained st then _ else st). clearbody st0.
  apply wp_seq. eapply (quiet_safe false); [by apply (quiet_barrier _ _ (λ _, True))|done|].
  intros [done b] _. destruct (truth done); [by cbn|]. clear done.
  apply wp_seq. unfold serve_requests, the_queue.
  destruct (queue (CIRCLE_INPUT_ST G)) as [q|] eqn:Hq; [|done]. cbn [deref mbind prog_mbind prog_bind].
  apply wp_seq, workreq_check_safe; [|done]. intros st1 _. cbn [wp mret prog_mret].
  assert (over_rel abort g (put_queue q G)) as Hc1.
  { eapply over_calm; [done|]. split; [|split; [done|split; [|by split]]]; intros Hn q' [= <-]; by apply Hn. }
  set (G1 := put_queue q G) in *. clearbody G1. clear G Hc q Hq st0 b.
  apply wp_seq. unfold reap_sends. apply wp_seq.
  eapply (quiet_safe false); [by apply (quiet_check _ (λ _, True))|done|]. intros sn _. cbn [wp mret prog_mret].
  apply wp_seq. unfold check_reduce.
  eapply (wp_post P _ (λ g' '(G', st'), g' = g ∧ over_rel abort g G')).
  2: { destruct (truth _); [|done]. apply wp_seq.
       eapply (quiet_safe false); [apply (quiet_reduce_check tame_callbacks calm), Hc1|done|].
       intros [r G'] Hcalm. cbn in Hcalm. split; [done|]. by eapply over_calm. }
  intros g' [G2 st2] [-> Hc2]. apply wp_seq. eapply wp_post, request_safe.
  intros g2 [G3 st3] [Hk _].
  destruct Hk as [[-> Hk]|(_ & Hr & _)]; [|by destruct Hr; apply Hc2].
  assert (over_rel abort g G3) as Hc3 by (by eapply over_calm).
  apply wp_seq. unfold check_abort. apply wp_seq.
  eapply (quiet_safe false); [by apply (quiet_abort_check _ _ _ _ (λ _, True))|done|].
  intros [flag a] _. cbn [wp mret prog_mret].
  assert (over_rel abort g (set_abort_flag flag G3)) as Hc4 by (by destruct Hc3; split).
  destruct (negb _); [|done].
  apply wp_seq. eapply (quiet_safe false); [by apply (quiet_token _ _ _ _ (λ _, True))|done|].
  intros tk _. apply wp_seq. eapply (quiet_safe false).
  { unfold test_token. destruct (token_send_req tk); [|exact (I : (λ _, True) tk)].
    apply quiet_bind, quiet_MPI_Test. intros [f r]. exact I. }
  { done. }
  intros tk' _. done.
Qed.

Lemma cleanup_safe abort m fuel g G st :
  over_rel abort g G →
  safe (cleanup_rounds m fuel G st) (λ g' '(G', _), over_rel abort g' G') g.
Proof.
  revert g G st. induction m as [|m IH]; intros g G st Hc; cbn [cleanup_rounds]; [done|].
  apply wp_seq. eapply wp_post, cleanup_round_safe; [|done].
  intros g' [[[] G'] st'] Hc'; [done|by apply IH].
Qed.

Lemma finish_safe abort fuel g G st :
  over_rel abort g G → safe (finish_loop fuel G st) (λ g' '(G', _), over_rel abort g' G') g.
Proof.
  intros Hc. unfold finish_loop. apply wp_seq. eapply wp_post, cleanup_safe; [|done].
  clear g G st Hc. intros g [G st] Hc. apply wp_seq.
  eapply (quiet_safe false); [by apply (quiet_wait _ _ (λ _, True))|done|]. intros [r sn] _. cbn zeta.
  apply wp_seq. eapply (quiet_safe false).
  { instantiate (1 := λ x, calm G x.2). destruct (truth _); [|apply calm_refl].
    apply (quiet_reduce_sync tame_callbacks calm), Hc. }
  { done. }
  intros [rd G'] Hcalm. apply wp_seq.
  eapply (quiet_safe false); [by apply (quiet_abort_reduce _ _ _ (λ _, True))|done|]. intros [a b] _.
  cbn [wp mret prog_mret]. pose proof (over_calm _ _ _ _ Hc Hcalm) as Hc'. by destruct Hc'; split.
Qed.
End code.
