(* ===== verification/LedgerCode.v ===== *)
(** * The worker keeps its account

    Every function of the worker against the protocol of Ledger: at the
    points where control passes from one part to the next, the balance of the
    process is the worth of the items in its queue ([stocked]). *)
From S2P Require Import Prelude CMonad Mem Heap Queue Stdio Checkpoint Wire Tree Split State Mpi Sends Transfer TransferSpec Barrier Term Abort Token Network Ranks Proc Api Reduce Quiet Shelf Ledger Worker QuietWorker TermCode.

(** The items in the queue of a process. *)
Definition holds (G : globals) (stk : list (list byte)) : Prop :=
  match queue (CIRCLE_INPUT_ST G) with Some q => stocked q stk | None => stk = [] end.

(** An account when no transfer is under way. *)
Definition rest (v : Z) : account := Account v None None.

(** ** User code *)

(** Code that reports every item of the class [cls] that it puts in or takes
    out, right after the call that did, and reports nothing else.  It leaves
    checkpoints alone: they empty the queue into a file, or fill it from
    one. *)
Fixpoint announces (cls : list byte → bool) (u : user) : Prop :=
  match u with
  | UReturn => True
  | UExternal c k => c ≠ PUT_CALL ∧ c ≠ GOT_CALL ∧ ∀ v, announces cls (k v)
  | UEnqueue None k => announces cls (k (-1))
  | UEnqueue (Some s) k => short s ∧ announces cls (k (-1)) ∧
      if cls (cstr s) then match k 0 with UExternal c k' => c = PUT_CALL ∧ ∀ v, announces cls (k' v) | _ => False end
      else announces cls (k 0)
  | UDequeue _ k => announces cls (k (-1) None) ∧
      ∀ s, if cls s then match k 0 (Some s) with
                         | UExternal c k' => c = GOT_CALL ∧ ∀ v, announces cls (k' v) | _ => False end
           else announces cls (k 0 (Some s))
  | ULocalQueueSize k => ∀ n, announces cls (k n)
  | UCheckpoint _ | UReadRestarts _ => False
  | UReduce _ k | UAbort k | USetOptions _ k | USetTreeWidth _ k | USetReducePeriod _ k => announces cls k
  end.

(** Code that neither touches the queue nor reports. *)
Fixpoint aloof (u : user) : Prop :=
  match u with
  | UReturn => True
  | UExternal c k => c ≠ PUT_CALL ∧ c ≠ GOT_CALL ∧ ∀ v, aloof (k v)
  | UEnqueue _ _ | UDequeue _ _ | UCheckpoint _ | UReadRestarts _ => False
  | ULocalQueueSize k => ∀ n, aloof (k n)
  | UReduce _ k | UAbort k | USetOptions _ k | USetTreeWidth _ k | USetReducePeriod _ k => aloof k
  end.

Record reporting (cls : list byte → bool) (G : globals) : Prop := Reporting {
  rp_create : ∀ u, create_cb (CIRCLE_INPUT_ST G) = Some u → announces cls u;
  rp_process : ∀ u, process_cb (CIRCLE_INPUT_ST G) = Some u → announces cls u;
  rp_init : ∀ u, reduce_init_cb (CIRCLE_INPUT_ST G) = Some u → aloof u;
  rp_op : ∀ f a x b y, reduce_op_cb (CIRCLE_INPUT_ST G) = Some f → aloof (f a x b y);
  rp_fini : ∀ f a x, reduce_fini_cb (CIRCLE_INPUT_ST G) = Some f → aloof (f a x);
}.

(** The callbacks stay as they are, and with [led_keep] the queue does. *)
Definition same_users (G G' : globals) : Prop :=
  create_cb (CIRCLE_INPUT_ST G') = create_cb (CIRCLE_INPUT_ST G) ∧
  process_cb (CIRCLE_INPUT_ST G') = process_cb (CIRCLE_INPUT_ST G) ∧ same_callbacks G G'.
Definition led_keep (G G' : globals) : Prop :=
  queue (CIRCLE_INPUT_ST G') = queue (CIRCLE_INPUT_ST G) ∧ same_users G G'.

#[export] Instance same_users_preorder : PreOrder same_users.
Proof.
  split; [by intros G|]. intros G1 G2 G3 (? & ? & ? & ? & ?) (? & ? & ? & ? & ?).
  repeat split; etransitivity; eassumption.
Qed.
#[export] Instance led_keep_preorder : PreOrder led_keep.
Proof. split; [by intros G|]. intros G1 G2 G3 [? ?] [? ?]. split; by etrans. Qed.

Lemma reporting_same cls G G' : same_users G G' → reporting cls G → reporting cls G'.
Proof. intros (H1 & H2 & H3 & H4 & H5) []. by split; rewrite ?H1, ?H2, ?H3, ?H4, ?H5. Qed.

Lemma led_keep_holds G G' stk : led_keep G G' → holds G stk → holds G' stk.
Proof. intros [H _]. unfold holds. by rewrite H. Qed.

(** ** Calls that are not about the accounts *)

Definition account_tag (tag : Z) : bool := (tag =? LOG_TAG) || (tag =? CIRCLE_TAG_WORK_REPLY).

Definition off_ledger (o : op) : bool :=
  match o with
  | OSend _ tag _ | OIsend _ tag _ _ | OIssend _ tag _ | ORecv _ tag _ => negb (account_tag tag)
  | OExternal k => negb ((k =? PUT_CALL) || (k =? GOT_CALL))
  | _ => true
  end.

#[export] Instance off_ledger_local : Local off_ledger.
Proof. split. by intros []. Qed.
#[export] Instance off_ledger_talks tag : TCEq (account_tag tag) false → Talks off_ledger tag.
Proof.
  intros Ht%TCEq_eq. split. intros [] Ho; cbn in *; try done; apply Z.eqb_eq in Ho; subst; by rewrite Ht.
Qed.

Lemma quiet_aloof fuel u G : aloof u → quiet off_ledger (run_user fuel u G) (led_keep G).
Proof.
  revert G. induction u as [|c k IH|s k IH|room k IH|k IH|buf k IH|k IH|k IH|k IH|o k IH|w k IH|s k IH];
    intros G; cbn [run_user aloof]; try done.
  - intros (H1 & H2 & Hk). split; [|intros v; by apply IH]. cbn.
    by rewrite (proj2 (Z.eqb_neq _ _) H1), (proj2 (Z.eqb_neq _ _) H2).
  - intros Ha. unfold CIRCLE_local_queue_size, the_queue. destruct (queue _); [|done]. by apply IH.
  - intros Ha. apply (quiet_seq _ _ _ _ (led_keep G)).
    { unfold CIRCLE_reduce. apply quiet_bind, quiet_free. intros _. cbn zeta. quiet_steps; by repeat split. }
    intros G' HG. eapply quiet_mono; [|by apply IH]. intros G''. by etrans.
  - intros Ha. eapply quiet_mono; [|by apply IH]. intros G'. etrans; [|done]. by repeat split.
  - intros Ha. eapply quiet_mono; [|by apply IH]. intros G'. etrans; [|done]. by repeat split.
  - intros Ha. eapply quiet_mono; [|by apply IH]. intros G'. etrans; [|done]. by repeat split.
  - intros Ha. eapply quiet_mono; [|by apply IH]. intros G'. etrans; [|done]. by repeat split.
Qed.

#[export] Instance reporting_callbacks cls : Callbacks off_ledger (reporting cls) led_keep.
Proof.
  split; [apply _|intros G G' [_ HG]; by apply (reporting_same cls)|..].
  - intros fuel G u HG Hu. by apply quiet_aloof, (rp_init cls G).
  - intros fuel G f a x b y HG Hf. by apply quiet_aloof, (rp_op cls G).
  - intros fuel G f a x HG Hf. by apply quiet_aloof, (rp_fini cls G).
Qed.

Section code.
Context (n p : Z) (cls : list byte → bool).

Abbreviation P := (net_protocol (led_pre n cls) (led_post n cls) p).
Abbreviation safe t Q g := (wp P t Q (λ _ _, True) g).
Abbreviation worth := (worth cls).

Lemma off_ledger_wp {A} (t : prog A) Φ (Q : account → A → Prop) g :
  quiet off_ledger t Φ → (∀ a, Φ a → Q g a) → safe t Q g.
Proof.
  intros Ht HQ. induction t as [a|e|o k IH]; cbn in *; [auto|done|]. destruct Ht as [Ho Hk].
  assert (led_pre n cls p g o ∧ ∀ r g', led_post n cls p g o r g' → g' = g) as [Hpre Hpost].
  { destruct o; cbn in *; try done; try (by split; [|intros ? ? [_ ?]]); try (by split; [|intros ? ? [? _]]);
      (apply negb_true_iff, orb_false_iff in Ho as [H1 H2]; rewrite ?H2);
      try (apply Z.eqb_neq in H1; apply Z.eqb_neq in H2); try done.
    split; [done|]. intros r g'. by rewrite (proj2 (Z.eqb_neq _ _) H1). }
  split; [done|]. intros r g' Hr. rewrite (Hpost _ _ Hr). by apply IH.
Qed.

(** ** User code *)

(** After user code the account is that of the queue it leaves. *)
Definition settles (G : globals) (g' : account) (G' : globals) : Prop :=
  same_users G G' ∧ ∃ stk, holds G' stk ∧ g' = rest (worth stk).

Definition user_ok (fuel : nat) (u : user) : Prop := ∀ G stk,
  announces cls u → holds G stk → safe (run_user fuel u G) (settles G) (rest (worth stk)).

Lemma user_frame fuel u G G' stk :
  user_ok fuel u → announces cls u → holds G' stk → same_users G G' →
  safe (run_user fuel u G') (settles G) (rest (worth stk)).
Proof.
  intros Hu Ha Hg Hs. eapply wp_post, Hu; [|done..]. intros g' G2 (? & ?). split; [by etrans|done].
Qed.

Lemma user_safe fuel u :
  user_ok fuel u ∧ match u with UExternal _ k => ∀ v, user_ok fuel (k v) | _ => True end.
Proof.
  induction u as [|c k IH|s k IH|room k IH|k IH|buf k IH|k IH|k IH|k IH|o k IH|w k IH|s k IH];
    (split; [intros G stk; cbn [run_user announces]|try done]); try done.
  - intros _ Hst. split; [done|by exists stk].
  - intros (H1 & H2 & Hk) Hst. split; [by intros ?|]. intros v g'. cbn.
    rewrite (proj2 (Z.eqb_neq _ _) H1), (proj2 (Z.eqb_neq _ _) H2). intros ->. by apply (proj1 (IH v)).
  - intros v. apply IH.
  - intros Ha Hst. unfold CIRCLE_enqueue, the_queue. unfold holds in Hst.
    destruct (queue (CIRCLE_INPUT_ST G)) as [q|] eqn:Hq; [|done]. cbn [deref mbind prog_mbind prog_bind].
    apply wp_seq, wp_seq. eapply off_ledger_wp; [apply (quiet_push_stock q s stk Hst)|].
    { intros x ->. apply Ha. }
    intros [rc qp] [(x & -> & -> & Hst')|[-> Hst']]; cbn [wp mret prog_mret].
    + change (to_i8 0) with 0. destruct Ha as (_ & _ & Hyes). pose proof (worth_cons cls (cstr x) stk) as Hw.
      destruct (cls (cstr x)).
      * pose proof (proj2 (IH 0)) as IH0. destruct (k 0) as [|c k'| | | | | | | | | |]; try done.
        destruct Hyes as [-> Hk]. cbn [run_user]. split; [done|]. intros v g' ->. cbn.
        unfold moved_by. cbn. replace (Account _ None None) with (rest (worth (cstr x :: stk))) by (unfold rest; f_equal; lia).
        apply user_frame; [apply IH0|apply Hk|done|done].
      * replace (rest (worth stk)) with (rest (worth (cstr x :: stk))) by (f_equal; lia).
        apply user_frame; [apply IH|done..].
    + change (to_i8 (-1)) with (-1). apply user_frame; [apply IH|by destruct s; [apply Ha|]|done|done].
  - intros [Hno Hyes] Hst. unfold CIRCLE_dequeue. unfold holds in Hst.
    destruct (queue (CIRCLE_INPUT_ST G)) as [q|] eqn:Hq.
    2: { cbn. subst stk. apply user_frame; [apply IH|done|by unfold holds; cbn|done]. }
    apply wp_seq, wp_seq. eapply off_ledger_wp; [apply (quiet_pop_stock q room stk Hst)|].
    intros [[rc qp] s] [(-> & -> & ->)|(q' & x & rst & -> & -> & -> & -> & Hst')]; cbn [wp mret prog_mret].
    + change (to_i8 (-1)) with (-1). apply user_frame; [apply IH|done..].
    + change (to_i8 0) with 0. specialize (Hyes x). pose proof (worth_cons cls x rst) as Hw. pose proof (worth_nonneg cls rst).
      destruct (cls x).
      * pose proof (proj2 (IH 0 (Some x))) as IH0. destruct (k 0 (Some x)) as [|c k'| | | | | | | | | |]; try done.
        destruct Hyes as [-> Hk]. cbn [run_user]. split; [cbn; lia|]. intros v g' ->. cbn.
        unfold moved_by. cbn. replace (Account _ None None) with (rest (worth rst)) by (unfold rest; f_equal; lia).
        apply user_frame; [apply IH0|apply Hk|done|done].
      * replace (rest (worth (x :: rst))) with (rest (worth rst)) by (f_equal; lia).
        apply user_frame; [apply IH|done..].
  - intros Hk Hst. unfold CIRCLE_local_queue_size, the_queue. destruct (queue _) as [q|]; [|done]. by apply (proj1 (IH _)).
  - intros Hk Hst. apply wp_seq. eapply off_ledger_wp with (Φ := led_keep G).
    { unfold CIRCLE_reduce. apply quiet_bind, quiet_free. intros _. cbn zeta. quiet_steps; by repeat split. }
    intros G' HG. apply user_frame; [apply IH|done|by apply (led_keep_holds G)|apply HG].
  - intros Hk Hst. apply user_frame; [apply IH|done..|by repeat split].
  - intros Hk Hst. apply user_frame; [apply IH|done..|by repeat split].
  - intros Hk Hst. apply user_frame; [apply IH|done..|by repeat split].
  - intros Hk Hst. apply user_frame; [apply IH|done..|by repeat split].
Qed.

(** ** Sending work *)

Lemma i32_led z (Q : account → Z → Prop) g : Q g z → safe (i32 z) Q g.
Proof. intros H. unfold i32. by destruct (in_i32 z). Qed.

Lemma local_led A (t : prog A) Φ (Q : account → A → Prop) g :
  quiet local_op t Φ → (∀ a, Φ a → Q g a) → safe t Q g.
Proof. intros Ht. eapply off_ledger_wp. eapply quiet_sub, Ht. by apply local_ok. Qed.

Lemma send_no_work_led abort sn dest v :
  safe (CIRCLE_send_no_work abort sn dest) (λ g' _, g' = rest v) (rest v).
Proof.
  apply (send_no_work_message P local_led). intros b. split; [by split|]. intros r g'. cbn.
  intros -> _. by destruct (truth abort).
Qed.

(** The two messages of a transfer take the top of the queue along. *)
Lemma send_items_led qp sn dest count start len es :
  shelved (q_base qp) (q_strings qp) es (q_head qp) → q_count qp = Z.of_nat (length es) → 1 ≤ count →
  is_part es count start len → len ≤ INT32_MAX → is_rank n dest →
  safe (send_items qp sn dest count start len)
    (λ g' _, ∃ e1 e2, es = e1 ++ e2 ∧ count = Z.of_nat (length e1) ∧ g' = rest (worth e2.*2)) (rest (worth es.*2)).
Proof.
  intros Hsh Hc Hc1 (e1 & e2 & -> & Hcount & Hpart) Hmax Hd. unfold send_items.
  apply wp_seq. eapply local_led; [by apply (quiet_i32 _ (λ x, x = 2 + count))|]. intros m ->.
  apply (local_call_wp P local_led); [done|]. intros po. apply (local_call_wp P local_led); [done|]. intros pb.
  destruct po as [po|], pb as [pb|]; [|done..].
  rewrite store_list_ok by (cbn; lia). cbn [deref mbind prog_mbind prog_bind cap addr cells].
  apply wp_seq. eapply local_led; [by apply (quiet_i32 _ (λ x, x = q_count qp - count))|]. intros elem ->.
  destruct (q_strings qp) as [strings|]; [|done]. cbn [deref mbind prog_mbind prog_bind].
  apply wp_seq. eapply local_led; [apply quiet_send_offsets_read|]. intros b1 (xs & Hxs & Hb1).
  destruct (q_base qp) as [base|]; [|done]. cbn [deref mbind prog_mbind prog_bind].
  destruct (load_list base start len) as [text|] eqn:Htext; [|done]. cbn [deref mbind prog_mbind prog_bind].
  destruct (load_list b1 0 (2 + count)) as [data|] eqn:Hd1; [|done]. cbn [deref mbind prog_mbind prog_bind].
  rewrite length_app in Hc. assert (Z.to_nat count = length e1) as Hn by lia. rewrite Hn in Hxs.
  replace (q_count qp - count) with (Z.of_nat (length e2)) in Hxs by lia.
  assert (data = Z.of_nat (length e1) :: len :: map (λ x, to_i32 (u64 (x - start))) xs) as Hdata.
  { unfold load_list in Hd1. destruct (in_block _ _ _); [|done]. rewrite Hb1 in Hd1. rewrite <-Hcount. cbn [cells] in Hd1.
    pose proof (read_cells_length _ _ _ _ Hxs) as Hxl.
    pose proof (read_cells_blit_same ∅ 0 ([count; len] ++ map (λ x, to_i32 (u64 (x - start))) xs)) as Hr.
    rewrite blit_app in Hr. cbn [length app] in Hr. rewrite length_map, Hxl in Hr.
    replace (Z.to_nat (2 + count)) with (S (S (length e1))) in Hd1 by lia. 
    assert (Some data = Some (count :: len :: map (λ x, to_i32 (u64 (x - start))) xs)) as [= ->]; [|done].
    rewrite <-Hd1. exact Hr. }
  pose proof (pack_carries _ _ _ _ _ _ _ _ _ _ Hsh Hpart Hmax Htext Hxs Hdata) as Hca. subst data.
  apply wp_seq. split; [by split|]. intros r g' Hg. cbn in Hg.
  rewrite (proj2 (Z.ltb_lt 0 (Z.of_nat (length e1)))) in Hg by lia. rewrite ?Z.eqb_refl in Hg. subst g'.
  apply wp_seq, (track_any P local_led). intros sn1.
  rewrite fmap_app, worth_app. pose proof (worth_nonneg cls e2.*2).
  apply wp_seq. split.
  { split; [done|]. intros _. split; [done|]. eexists _, _. split; [done|]. split; [exact Hca|]. cbn. lia. }
  intros r' g' Hg. cbn in Hg. rewrite ?Z.eqb_refl in Hg. specialize (Hg _ _ eq_refl Hca). subst g'. apply (track_any P local_led). intros sn2.
  exists e1, e2. split; [done|]. split; [done|]. unfold rest. f_equal. lia.
Qed.

(** The part of the state that tells whether a request is under way. *)
Definition same_request (st st' : CIRCLE_state_st) : Prop := st_request st' = st_request st.

#[local] Instance same_request_preorder : PreOrder same_request.
Proof. split; [by intros ?|]. intros ? ? ? H1 H2. unfold same_request. by rewrite H2. Qed.

(** The account is that of the queue. *)
Definition kept (g : account) (qp : CIRCLE_internal_queue_t) : Prop := ∃ stk, stocked qp stk ∧ g = rest (worth stk).

(** Fewer items on top, nothing else changed. *)
Lemma stocked_drop qp e1 e2 n' :
  shelved (q_base qp) (q_strings qp) (e1 ++ e2) (q_head qp) → stocked qp (e1 ++ e2).*2 →
  n' = Z.of_nat (length e2) → stocked (with_count n' qp) e2.*2.
Proof.
  intros Hsh [_ _ Hb Hcap Hh] ->. apply shelved_app in Hsh as (top & Hsh & Hle).
  split; cbn; [|by rewrite length_fmap|done..]. exists e2. split; [done|]. by eapply shelved_sub.
Qed.

Lemma send_work_led abort qp st dest count g :
  kept g qp → is_rank n dest →
  safe (CIRCLE_send_work abort qp st dest count) (λ g' '(_, qp', st'), kept g' qp' ∧ same_request st st') g.
Proof.
  intros (stk & Hst & ->) Hd. unfold CIRCLE_send_work. destruct (Z.leb_spec count 0) as [|Hc].
  { apply wp_seq. eapply wp_post, send_no_work_led. intros g' sn ->. split; [by exists stk|done]. }
  cbn zeta. set (st1 := if _ || _ then _ else st).
  assert (st_request st1 = st_request st) as H1 by (subst st1; by destruct (_ || _)).
  apply wp_seq, i32_led. pose proof Hst as [(es & <- & Hsh) Hn _ _ Hh]. rewrite length_fmap in Hn.
  destruct (q_strings qp) as [strings|] eqn:Hqs; [|done]. cbn [deref mbind prog_mbind prog_bind].
  destruct (load strings (q_count qp - 1)) as [e|] eqn:Hl; [|done]. cbn [deref mbind prog_mbind prog_bind].
  assert (head es.*1 = Some e) as Htop.
  { apply load_peek in Hl as [Hl Hr]. destruct es as [|[o s] es']; [cbn in Hn; lia|].
    destruct Hsh as (_ & _ & Ham & _). cbn. f_equal. symmetry. eapply agrees_one; [exact Ham|]. cbn [length] in Hn.
    rewrite <-Hl. f_equal. lia. }
  rewrite <-Hqs in Hsh. apply wp_seq. eapply off_ledger_wp; [apply (quiet_send_extent_part qp es e); [done..|lia]|].
  intros [start len] Hpart. apply wp_seq.
  eapply off_ledger_wp; [apply (quiet_back_off_part qp es e); [done..|lia|done]|]. intros [[c s] l] [Hc' Hpart']. clear Hpart.
  destruct (Z.ltb_spec INT32_MAX l).
  { apply wp_seq. eapply wp_post, send_no_work_led. intros g' sn ->. split; [by exists es.*2|done]. }
  apply wp_seq. eapply wp_post, (send_items_led _ _ _ _ _ _ es); [|done..].
  intros g' sn (e1 & e2 & -> & -> & ->). apply wp_seq, i32_led, wp_seq, i32_led. split; [|done].
  exists e2.*2. split; [|done]. eapply stocked_drop; [done|done|]. rewrite Hn, length_app. lia.
Qed.

(** The first [rc] requestors are ranks. *)
Definition ranks_upto (rc : Z) (b : block Z) : Prop := ∀ i, 0 ≤ i < rc → ∃ x, load b i = Some x ∧ is_rank n x.

Lemma send_work_loop_led m i abort rc rq sz qp st g :
  kept g qp → 0 ≤ i → i + Z.of_nat m ≤ rc → ranks_upto rc rq →
  safe (send_work_loop m i abort rq sz qp st)
    (λ g' '(qp', st'), kept g' qp' ∧ same_request st st') g.
Proof.
  intros Hg Hi Hm Hrq. revert i qp st g Hg Hi Hm.
  induction m as [|m IH]; intros i qp st g Hg Hi Hm; cbn [send_work_loop]; [done|].
  destruct (Hrq i) as (dest & -> & Hd); [lia|]. cbn [deref mbind prog_mbind prog_bind].
  destruct (load sz (i + 1)) as [c|]; [|done]. cbn [deref mbind prog_mbind prog_bind].
  apply wp_seq. eapply wp_post, send_work_led; [|done..].
  intros g1 [[rc1 qp1] st1] (Hg1 & Hs1). eapply wp_post, IH; [|done|lia|lia].
  intros g2 [qp2 st2] (? & ?). split; [done|]. by etrans.
Qed.

Lemma send_to_many_led o abort qp st rq rc g :
  kept g qp → ranks_upto rc rq →
  safe (CIRCLE_send_work_to_many o abort qp st rq rc)
    (λ g' '(qp', st'), kept g' qp' ∧ same_request st st') g.
Proof.
  intros Hg Hrq. unfold CIRCLE_send_work_to_many. destruct (Z.leb_spec rc 0); [done|].
  apply wp_seq. eapply off_ledger_wp; [by apply (quiet_split _ _ _ _ (λ _, True))|].
  intros [sizes seed] _. destruct sizes as [sizes|]; [|done]. cbn [deref mbind prog_mbind prog_bind].
  apply wp_seq. eapply wp_post, (send_work_loop_led _ _ _ rc); [|done|done|lia|done].
  intros g' [qp' st'] Hs. split; [done|]. by intros [] ? ->.
Qed.

Lemma no_work_loop_led m i abort rq sn v : safe (no_work_loop m i abort rq sn) (λ g' _, g' = rest v) (rest v).
Proof.
  revert i sn. induction m as [|m IH]; intros i sn; cbn [no_work_loop]; [done|].
  destruct (load rq i) as [dest|]; [|done]. cbn [deref mbind prog_mbind prog_bind].
  apply wp_seq. eapply wp_post, send_no_work_led. intros g' sn' ->. apply IH.
Qed.

Lemma store_upto b b' rc x :
  0 ≤ rc → store b rc x = Some b' → ranks_upto rc b → is_rank n x → ranks_upto (rc + 1) b'.
Proof.
  intros Hrc Hs Hb Hx i Hi. unfold store, store_list, in_block in Hs. cbn [length] in Hs.
  destruct ((0 <=? rc) && (rc + Z.of_nat 1 <=? cap b)) eqn:Hcap; [|done]. injection Hs as <-. cbn [blit].
  apply andb_true_iff in Hcap as [_ Hcap%Z.leb_le].
  destruct (decide (i = rc)) as [->|Hne].
  - exists x. split; [|done]. apply load_ok; cbn; [lia|]. apply lookup_insert_eq.
  - destruct (Hb i) as (y & Hl & Hy); [lia|]. exists y. split; [|done]. revert Hl.
    unfold load, in_block. cbn. by rewrite lookup_insert_ne by lia.
Qed.

Lemma workreq_loop_led m rc rq g :
  0 ≤ rc → (∀ b, rq = Some b → ranks_upto rc b) →
  safe (workreq_loop m rc rq) (λ g' '(rc', rq'), g' = g ∧ ∀ b, rq' = Some b → ranks_upto rc' b) g.
Proof.
  revert rc rq. induction m as [|m IH]; intros rc rq Hrc Hrq; cbn [workreq_loop]; [done|].
  apply wp_seq. split; [done|]. intros [[rank c]|] g' [-> Hr]; cbn [wp]; [|done].
  apply wp_seq. split; [done|]. intros msg g' Hg'. change (g' = g) in Hg'. subst g'. cbn [wp].
  destruct rq as [b|]; [|done]. cbn [deref mbind prog_mbind prog_bind].
  destruct (store b rc rank) as [b'|] eqn:Hs; [|done]. cbn [deref mbind prog_mbind prog_bind].
  apply wp_seq, i32_led. apply IH; [lia|]. intros b2 [= <-].
  eapply store_upto; [done|exact Hs|by apply Hrq|by eapply Hr].
Qed.

Lemma workreq_check_led o abort qp st cleanup g :
  kept g qp →
  safe (CIRCLE_workreq_check o abort qp st cleanup)
    (λ g' '(qp', st'), kept g' qp' ∧ same_request st st' ∧
       (truth cleanup = true ∨ q_count qp = 0 → qp' = qp)) g.
Proof.
  intros Hg. unfold CIRCLE_workreq_check. apply wp_seq.
  eapply wp_post, workreq_loop_led; [|done|]; [|intros b _ i; lia].
  intros g' [rc rq] [-> Hrq]. cbn zeta. destruct (rc =? 0); [done|].
  destruct rq as [rq|]; [|done]. cbn [deref mbind prog_mbind prog_bind]. apply wp_seq, i32_led.
  destruct (_ || _ || _ || _) eqn:Hno.
  { destruct Hg as (stk & Hst & ->). apply wp_seq. eapply wp_post, no_work_loop_led.
    intros g' sn ->. split; [by exists stk|done]. }
  eapply wp_post, send_to_many_led; [|done|by apply Hrq].
  intros g' [qp' st'] (? & ?). split; [done|]. split; [done|].
  intros [Hcl|Hcl]; rewrite Hcl in Hno; [by rewrite orb_true_r in Hno|done].
Qed.
(** ** Receiving work *)

(** The account is right, and a request is under way only if the queue is
    empty. *)
Definition settled (g : account) (qp : CIRCLE_internal_queue_t) (rq : request_st) : Prop :=
  ∃ stk, stocked qp stk ∧ g = rest (worth stk) ∧ (truth (work_requested rq) = true → stk = []).

(** The text that belongs to the header [d] fills the empty queue. *)
Lemma receive_items_led qp st ob b source x d :
  stocked qp [] → store_list ob 0 (x :: d) = Some b → 0 < x →
  safe (receive_items qp st b source x)
    (λ g' '(_, qp', st'), kept g' qp' ∧ same_request st st') (Account 0 (Some (source, x :: d)) None).
Proof.
  intros Hst Hb Hx. unfold receive_items. destruct (load b 1) as [chars|]; [|done]. cbn [deref mbind prog_mbind prog_bind].
  apply wp_seq. eapply off_ledger_wp with (Φ := λ y, stocked y.2 []).
  { destruct (_ <? _); [|done]. eapply quiet_mono; [|by apply quiet_extend_stock]. by intros y [? _]. }
  intros [rc qp1] Hst1. cbn in Hst1. destruct (rc <? 0); [done|]. apply wp_seq. unfold recv_chars.
  apply wp_seq. split; [by split|]. intros m g1 (text & items & -> & Hca & ->). cbn [wp held owed].
  destruct (_ <? _); [done|]. destruct (q_base qp1) as [base|] eqn:Hbase; [|done].
  cbn [deref mbind prog_mbind prog_bind]. destruct (store_list base 0 text) as [base1|] eqn:Hst0; [|done].
  destruct (store_peek _ _ _ _ Hst0) as (Hcap1 & _). pose proof (sk_cap _ _ Hst1 base Hbase) as Hcap.
  cbn [deref mbind prog_mbind prog_bind wp]. set (qp2 := with_base (Some base1) qp1).
  assert (stocked qp2 []) as Hst2.
  { destruct Hst1 as [(es & Hes & Hsh) Hn Hbs _ Hh]. split; cbn; [|done|done| |done].
    - destruct es; [|done]. by exists [].
    - intros b' [= <-]. lia. }
  apply wp_seq. eapply off_ledger_wp with (Φ := λ y, stocked y.2 [] ∧ q_base y.2 = Some base1).
  { destruct (_ <? _); [|done]. eapply quiet_mono; [|by apply quiet_str_extend_stock]. by intros y (? & _ & ->). }
  intros [rc2 qp3] [Hst3 Hb3]. cbn in Hst3, Hb3. destruct (rc2 <? 0); [done|].
  destruct (q_strings qp3) as [strings|]; [|done]. cbn [deref mbind prog_mbind prog_bind].
  apply wp_seq. eapply off_ledger_wp; [apply quiet_receive_offsets_read|].
  intros str [Hstr _]. destruct (load str 0) as [f|]; [|done]. cbn [deref mbind prog_mbind prog_bind].
  destruct (negb (f =? 0)); [done|]. destruct (load str (x - 1)) as [e|] eqn:He; [|done].
  cbn [deref mbind prog_mbind prog_bind]. rewrite Hb3. cbn [deref mbind prog_mbind prog_bind].
  destruct (load_cstr base1 e) as [s|] eqn:Hs; [|done].
  assert (x = Z.of_nat (length items)) as Hxl by (destruct (ca_offsets _ _ _ Hca) as (? & [= -> _] & _); done).
  eapply off_ledger_wp with (Φ := λ y, stocked y.1.2 items ∧ same_request st y.2).
  - cbn. split; [done|]. intros r. apply quiet_bind, quiet_track. intros sn. cbn. split; [|done]. rewrite Hxl in *.
    eapply unpack_stock; [exact Hca|exact Hst0|exact Hb| |exact He|exact Hs|exact Hb3|apply Hst3|lia].
    intros j Hj. apply Hstr. lia.
  - intros [[rc' qp'] st'] [Hq Hr]. split; [|done]. by exists items.
Qed.

Lemma work_receive_led abort qp st source size :
  stocked qp [] →
  safe (CIRCLE_work_receive abort qp st source size)
    (λ g' '(_, _, qp', st'), kept g' qp' ∧ same_request st st') (rest 0).
Proof.
  intros Hst. unfold CIRCLE_work_receive. destruct (size <=? 0); [done|].
  apply wp_seq. eapply off_ledger_wp; [by apply (quiet_extend_offsets _ _ (λ _, True))|].
  intros [rc o] _. cbn zeta. destruct (rc <? 0); [done|]. apply wp_seq. unfold recv_ints.
  apply wp_seq. split; [by split|]. intros m g1 [(x & d & ->) ->]. cbn [wp held owed rest].
  destruct (_ <? _); [done|]. destruct (offsets_recv_buf o) as [b|]; [|done].
  cbn [deref mbind prog_mbind prog_bind]. destruct (store_list b 0 (x :: d)) as [b1|] eqn:Hs; [|done].
  cbn [deref wp]. rewrite (load_head _ _ _ _ Hs). cbn [deref mbind prog_mbind prog_bind header].
  assert (kept (rest 0) qp) as Hk by (by exists []).
  destruct (Z.eqb_spec x 0) as [->|Hx0]; [by split|]. destruct (Z.eqb_spec x PAYLOAD_ABORT) as [->|_]; [by split|].
  destruct (Z.ltb_spec x 0); [by rewrite (proj2 (Z.ltb_ge 0 x)) by lia|].
  rewrite (proj2 (Z.ltb_lt 0 x)) by lia. apply wp_seq. eapply wp_post, receive_items_led; [|done|exact Hs|lia].
  intros g2 [[rc2 qp2] st2] [Hq Hf]. by split.
Qed.

Lemma request_slot_led rq g :
  safe (test_request_slot rq) (λ g' '(_, rq'), g' = g ∧ work_requested rq' = work_requested rq) g.
Proof.
  eapply off_ledger_wp with (Φ := λ x, work_requested x.2 = work_requested rq); [|by intros [f rq']].
  unfold test_request_slot. destruct (work_request_req rq); [|done].
  by apply quiet_bind, quiet_MPI_Test; intros [f r].
Qed.

Lemma request_work_led fuel abort qp st cleanup g :
  settled g qp (st_request st) → (truth cleanup = false → q_count qp = 0) →
  safe (CIRCLE_request_work fuel abort qp st cleanup)
    (λ g' '(_, _, qp', st'), settled g' qp' (st_request st')) g.
Proof.
  intros (stk & Hst & -> & Hreq) Hmain. unfold CIRCLE_request_work. apply wp_seq.
  eapply wp_post, request_slot_led. intros g' [free rq] [-> Hrq]. cbn zeta. rewrite <-Hrq in Hreq.
  assert (∀ st', work_requested (st_request st') = work_requested rq → settled (rest (worth stk)) qp (st_request st')) as Hsame.
  { intros st' Hs. exists stk. rewrite Hs. auto. }
  destruct (truth (work_requested rq)) eqn:Hwr.
  - specialize (Hreq eq_refl). subst stk. apply wp_seq. split; [done|].
    intros [[s c]|] g' [-> _]; cbn [wp]; [|by apply Hsame].
    apply wp_seq. eapply wp_post, work_receive_led; [|done].
    intros g2 [[[rc a2] qp2] st2] [(stk2 & Hst2 & ->) _]. by exists stk2.
  - destruct (truth cleanup); cbn [negb andb]; [by apply Hsame|].
    destruct (negb (truth abort) && free); [|by apply Hsame].
    destruct (_ =? MPI_PROC_NULL); [by apply Hsame|].
    apply wp_seq. eapply off_ledger_wp with (Φ := λ _, True); [by split; [quiet_call|]|]. intros r _.
    cbn zeta. apply wp_seq. eapply off_ledger_wp.
    { apply (quiet_next_proc _ _ (λ _, True)). done. }
    intros st' _. exists stk. split; [done|]. split; [done|]. intros _. apply nil_length_inv.
    pose proof (sk_count _ _ Hst). specialize (Hmain eq_refl). lia.
Qed.

(** ** A round of the main loop *)

Definition led_rel (g : account) (G : globals) (st : CIRCLE_state_st) : Prop :=
  reporting cls G ∧ ∃ stk, holds G stk ∧ g = rest (worth stk) ∧
    (truth (work_requested (st_request st)) = true → stk = []).

Lemma led_rel_keep g G G' st st' :
  led_rel g G st → led_keep G G' → same_request st st' → led_rel g G' st'.
Proof.
  intros [Hu (stk & Hst & Hg & Hr)] HG Hs. unfold same_request in Hs. split; [by apply (reporting_same cls G); [apply HG|]|].
  exists stk. rewrite Hs. split; [by apply (led_keep_holds G)|done].
Qed.

Lemma serve_led cleanup g G st :
  led_rel g G st → safe (serve_requests cleanup G st) (λ g' '(G', st'), led_rel g' G' st') g.
Proof.
  intros [Hu (stk & Hst & -> & Hr)]. unfold serve_requests, the_queue, holds in *.
  destruct (queue (CIRCLE_INPUT_ST G)) as [qp|] eqn:Hq; [|done]. cbn [deref mbind prog_mbind prog_bind].
  apply wp_seq. eapply wp_post, workreq_check_led; [|by exists stk].
  intros g' [qp' st'] ((stk' & Hst' & ->) & Hs & Hsame). split; [by apply (reporting_same cls G)|].
  exists stk'. split; [done|]. split; [done|]. unfold same_request in Hs. rewrite Hs. intros ->%Hr.
  rewrite Hsame in Hst' by (right; apply Hst). apply nil_length_inv.
  pose proof (sk_count _ _ Hst). pose proof (sk_count _ _ Hst'). cbn in *. lia.
Qed.

Lemma request_led fuel cleanup g G st :
  led_rel g G st → (truth cleanup = false → ∀ q, queue (CIRCLE_INPUT_ST G) = Some q → q_count q = 0) →
  safe (request_work fuel cleanup G st) (λ g' '(G', st'), led_rel g' G' st') g.
Proof.
  intros [Hu (stk & Hst & -> & Hr)] Hmain. unfold request_work, the_queue, holds in *.
  destruct (queue (CIRCLE_INPUT_ST G)) as [qp|] eqn:Hq; [|done]. cbn [deref mbind prog_mbind prog_bind].
  apply wp_seq. eapply wp_post, request_work_led; [|by exists stk|by auto].
  intros g' [[[rc ab] qp'] st'] (stk' & ? & ? & ?). split; [by apply (reporting_same cls G)|]. by exists stk'.
Qed.
Lemma reap_led g G st : led_rel g G st → safe (reap_sends st) (λ g' st', led_rel g' G st') g.
Proof.
  intros Hl. unfold reap_sends. apply wp_seq. eapply off_ledger_wp; [by apply (quiet_check _ (λ _, True))|].
  intros sn _. by apply (led_rel_keep g G G st).
Qed.

Lemma abort_led cleanup g G st :
  led_rel g G st → safe (check_abort cleanup G st) (λ g' '(G', st'), led_rel g' G' st') g.
Proof.
  intros Hl. unfold check_abort. apply wp_seq. eapply off_ledger_wp; [by apply (quiet_abort_check _ _ _ _ (λ _, True))|].
  intros [ab a] _. by apply (led_rel_keep g G _ st).
Qed.

Lemma reduce_led fuel cleanup g G st :
  led_rel g G st → safe (check_reduce fuel cleanup G st) (λ g' '(G', st'), led_rel g' G' st') g.
Proof.
  intros Hl. unfold check_reduce. destruct (truth _); [|done]. apply wp_seq.
  eapply off_ledger_wp; [apply (quiet_reduce_check (reporting cls) led_keep), Hl|].
  intros [r G'] HG. by apply (led_rel_keep g G _ st).
Qed.

Lemma round_led fuel g G st :
  led_rel g G st → safe (work_round fuel G st) (λ g' '(_, G', st'), led_rel g' G' st') g.
Proof.
  intros Hl. unfold work_round.
  apply wp_seq. eapply wp_post, serve_led; [|exact Hl]. clear g G st Hl. intros g [G st] Hl.
  apply wp_seq. eapply off_ledger_wp with (Φ := same_request st).
  { unfold CIRCLE_workreceipt_check. by apply quiet_bind, quiet_receipt_loop. }
  intros st1 Hs. apply wp_seq. eapply wp_post, reap_led; [|by apply (led_rel_keep g G G st)].
  clear g st st1 Hl Hs. intros g st Hl.
  apply wp_seq. eapply wp_post, abort_led; [|exact Hl]. clear g G st Hl. intros g [G st] Hl.
  apply wp_seq. eapply wp_post, reduce_led; [|exact Hl]. clear g G st Hl. intros g [G st] Hl.
  unfold the_queue. destruct (queue (CIRCLE_INPUT_ST G)) as [q|] eqn:Hq; [|done].
  cbn [deref mbind prog_mbind prog_bind]. apply wp_seq.
  eapply wp_post with (Q := λ (g' : account) '(G', st'), led_rel g' G' st').
  2: { destruct (Z.eqb_spec (q_count q) 0); [|exact Hl]. apply request_led; [done|]. intros _ q'. rewrite Hq. by intros [= <-]. }
  clear g G st Hl q Hq. intros g [G st] Hl.
  destruct (queue (CIRCLE_INPUT_ST G)) as [q|] eqn:Hq; [|done]. cbn [deref mbind prog_mbind prog_bind].
  destruct ((0 <? q_count q) && _) eqn:Hwork.
  - apply andb_true_iff in Hwork as [Hpos%Z.ltb_lt _]. destruct Hl as [Hu (stk & Hst & -> & Hr)].
    unfold call_cb. destruct (process_cb (CIRCLE_INPUT_ST G)) as [u|] eqn:Hu'; [|done].
    cbn [deref mbind prog_mbind prog_bind].
    apply wp_seq. eapply wp_post, user_safe; [|by apply (rp_process cls G)|done].
    intros g' G' (HG' & stk' & Hst' & ->). apply wp_seq, i32_led. split; [by apply (reporting_same cls G)|].
    exists stk'. split; [done|]. split; [done|]. cbn. intros ->%Hr. unfold holds in Hst. rewrite Hq in Hst.
    apply sk_count in Hst. cbn in Hst. lia.
  - apply wp_seq. eapply off_ledger_wp with (Φ := λ x, same_request st x.2).
    2: { intros [status st'] Hs. by apply (led_rel_keep g G G st). }
    unfold check_termination. destruct (truth (term_tree_enabled _)).
    + apply quiet_bind, quiet_term_allreduce. by intros status s _.
    + apply quiet_bind, quiet_check_for_term. by intros [status tk].
Qed.
Lemma rounds_led m fuel g G st :
  led_rel g G st → safe (work_rounds m fuel G st) (λ g' '(G', st'), led_rel g' G' st') g.
Proof.
  revert g G st. induction m as [|m IH]; intros g G st Hl; cbn [work_rounds]; [done|].
  apply wp_seq. eapply wp_post, round_led; [|exact Hl]. intros g' [[[] G'] st'] Hl'; [done|by apply IH].
Qed.

(** ** After the main loop *)

Lemma cleanup_round_led fuel g G st :
  led_rel g G st → safe (cleanup_round fuel G st) (λ g' '(_, G', st'), led_rel g' G' st') g.
Proof.
  intros Hl. unfold cleanup_round. cbn zeta. set (st0 := if drained st then _ else st).
  assert (led_rel g G st0) as Hl0.
  { apply (led_rel_keep g G G st); [done|done|]. subst st0. by destruct (drained st). }
  clearbody st0. clear st Hl. apply wp_seq. eapply off_ledger_wp; [by apply (quiet_barrier _ _ (λ _, True))|].
  intros [done b] _. assert (led_rel g G (set_st_barrier b st0)) as Hl by (by apply (led_rel_keep g G G st0)).
  clear Hl0. generalize dependent (set_st_barrier b st0). clear st0. intros st Hl. cbn zeta.
  destruct (truth done); [exact Hl|]. clear done.
  apply wp_seq. eapply wp_post, serve_led; [|exact Hl]. clear g G st Hl. intros g [G st] Hl.
  apply wp_seq. eapply wp_post, reap_led; [|exact Hl]. clear g st Hl. intros g st Hl.
  apply wp_seq. eapply wp_post, reduce_led; [|exact Hl]. clear g G st Hl. intros g [G st] Hl.
  apply wp_seq. eapply wp_post, request_led; [|exact Hl|done]. clear g G st Hl. intros g [G st] Hl.
  apply wp_seq. eapply wp_post, abort_led; [|exact Hl]. clear g G st Hl. intros g [G st] Hl.
  destruct (negb _); [|exact Hl]. eapply off_ledger_wp with (Φ := λ x, x.1.2 = G ∧ same_request st x.2).
  - apply quiet_bind, quiet_token. intros tk. unfold test_token. quiet_steps.
  - intros [[stop G'] st'] [HG Hs]. cbn in HG. subst G'. by apply (led_rel_keep g G G st).
Qed.

Lemma cleanup_led m fuel g G st :
  led_rel g G st → safe (cleanup_rounds m fuel G st) (λ g' '(G', st'), led_rel g' G' st') g.
Proof.
  revert g G st. induction m as [|m IH]; intros g G st Hl; cbn [cleanup_rounds]; [done|].
  apply wp_seq. eapply wp_post, cleanup_round_led; [|exact Hl]. intros g' [[[] G'] st'] Hl'; [done|by apply IH].
Qed.

(** Without an abort, the account at the end is that of the queue. *)
Definition left_with (G : globals) (g : account) : Prop :=
  truth (CIRCLE_ABORT_FLAG G) = false → ∃ stk, holds G stk ∧ g = rest (worth stk).

Lemma rest_led fuel rank size g G st :
  led_rel g G st → safe (worker_rest fuel (rank, size, G, st)) (λ g' r, left_with r.2 g') g.
Proof.
  intros Hl. unfold worker_rest, finish_loop, mbind, prog_mbind.
  apply wp_seq, wp_seq. eapply wp_post, cleanup_led; [|exact Hl]. clear g G st Hl. intros g [G st] [Hu (stk & Hst & -> & _)].
  eapply off_ledger_wp with (Φ := λ x, holds x.1 stk).
  - apply quiet_bind, quiet_wait. intros [r sn]. cbn zeta.
    apply (quiet_seq _ _ _ _ (λ x, holds x.2 stk)).
    { destruct (truth _); [|done]. eapply quiet_mono; [|by apply (quiet_reduce_sync (reporting cls) led_keep)].
      intros x Hx. by apply (led_keep_holds G). }
    intros [rd G'] HG. cbn in HG. apply quiet_bind, quiet_abort_reduce. by intros [ab a].
  - intros [G1 st1] HG1. cbn in HG1.
    eapply off_ledger_wp with (Φ := λ r, truth (CIRCLE_ABORT_FLAG r.2) = false → holds r.2 stk).
    2: { intros r Hr Hab. exists stk. auto. }
    apply (quiet_seq _ _ _ _ (λ G2, truth (CIRCLE_ABORT_FLAG G2) = false → holds G2 stk)).
    { destruct (truth (CIRCLE_ABORT_FLAG G1)) eqn:Hab; [|by intros _].
      eapply quiet_mono; [|by apply (quiet_checkpoint G1 (calm G1))]. intros G2 (_ & Hk & _) Hab'.
      by rewrite (Hk Hab) in Hab'. }
    intros G2 H2. apply (quiet_seq _ _ _ _ (λ _, True)).
    { destruct (_ <=? _); [|done]. by apply quiet_bind, quiet_worker_summary. }
    intros _ _. by apply quiet_bind, quiet_finalize.
Qed.
End code.
