(* ===== verification/RingSpec.v ===== *)
(** * The token of the ring as an abstract protocol

    What one rank may do with the token of CIRCLE_check_for_term, on a ghost
    state per rank, and the invariant of all ranks: there is one token, either
    with a rank or in the channel from a rank to the next one; the ranks that
    know of the termination are 0 .. d-1, and from then on the token says
    TERMINATE and goes from rank d-1 to rank d. *)
From S2P Require Import Prelude CMonad Mpi Wire Network Ranks Worker QuietWorker.

(** The value of the token a rank has, whether it knows of the termination,
    and whether it has since gone on to something else. *)
Record tg : Type := TG {
  t_tok : option Z;
  t_done : bool;
  t_gone : bool;
}.

Definition token_value (v : Z) : Prop := v = WHITE ∨ v = BLACK ∨ v = TERMINATE.

(** The receipt of this token tells the rank to stop. *)
Definition decisive (p v : Z) : bool := ((p =? 0) && (v =? WHITE)) || (v =? TERMINATE).

Section ring.
Context (n : Z).

Abbreviation is_rank := (is_rank n).
Abbreviation ghosts := (Z → tg).
Abbreviation links := (Z → Z → list payload).
Abbreviation prev := (ring_prev n).
Abbreviation next := (ring_next n).

Definition elsewhere (g : tg) : tg := TG (t_tok g) (t_done g) (t_gone g || t_done g).

(** In the main loop: whoever knows of the termination only completes and
    passes on the token. *)
Definition in_loop (p : Z) (g : tg) : Prop := t_gone g = false.

Definition ring_pre (p : Z) (g : tg) (o : op) : Prop :=
  match o with
  | ORecv src tag _ => tag = CIRCLE_TAG_TOKEN → src = prev p ∧ t_done g = false
  | OSend _ tag _ | OIsend _ tag _ _ => tag ≠ CIRCLE_TAG_TOKEN
  | OIssend dst tag m => tag = CIRCLE_TAG_TOKEN → dst = next p ∧ t_tok g ≠ None ∧
      ∃ w, m = Ints [w] ∧ if t_done g then w = TERMINATE ∧ p < n - 1 else w = WHITE ∨ w = BLACK
  | _ => True
  end.

Definition ring_post (p : Z) (g : tg) (o : op) : ans o → tg → Prop :=
  match o return ans o → tg → Prop with
  | ORecv src tag _ => λ m g',
      if tag =? CIRCLE_TAG_TOKEN then
        t_tok g = None ∧ t_done g = false ∧
        ∃ v, m = Ints [v] ∧ token_value v ∧ g' = TG (Some v) (decisive p v) (t_gone g)
      else g' = elsewhere g
  | OIssend _ tag _ => λ _ g',
      if tag =? CIRCLE_TAG_TOKEN then g' = TG None (t_done g) (t_gone g) else g' = elsewhere g
  | OIprobe src tag => λ r g', g' = elsewhere g ∧
      (tag = CIRCLE_TAG_TOKEN → src = prev p → t_done g = true → r = None)
  | OWait _ => λ _ g', g' = g
  | OCommRank => λ r g', r = p ∧ g' = elsewhere g
  | OCommSize => λ r g', r = n ∧ g' = elsewhere g
  | _ => λ _ g', g' = elsewhere g
  end.

(** ** The invariant *)

Inductive spot : Type :=
  | Held (p v : Z)
  | Flying (p v : Z).

Definition nobody_has (gh : ghosts) : Prop := ∀ q, is_rank q → t_tok (gh q) = None.

Definition token_at (gh : ghosts) (T : links) (d : Z) (s : spot) : Prop :=
  match s with
  | Held p v => is_rank p ∧ t_tok (gh p) = Some v ∧ (∀ q, is_rank q → q ≠ p → t_tok (gh q) = None) ∧
      (∀ a b, T a b = []) ∧ (0 < d → p = d - 1)
  | Flying p v => is_rank p ∧ token_value v ∧ nobody_has gh ∧ T p (next p) = [Ints [v]] ∧
      (∀ a b, (a, b) ≠ (p, next p) → T a b = []) ∧
      (if decide (d = 0) then v ≠ TERMINATE else v = TERMINATE ∧ p = d - 1 ∧ d < n)
  end.

Definition ring_at (gh : ghosts) (T : links) (d : Z) (s : spot) : Prop :=
  0 ≤ d ≤ n ∧ (∀ q, is_rank q → t_done (gh q) = bool_decide (q < d)) ∧ token_at gh T d s.

Definition ring_inv (gh : ghosts) (ch : channels) : Prop :=
  ∃ d s, ring_at gh (λ a b, ch (a, b, CIRCLE_TAG_TOKEN)) d s.

(** ** The ring *)

Lemma ring_next_mod p : is_rank p → next p = (p + 1) mod n.
Proof.
  intros Hp. unfold is_rank in Hp. unfold ring_next. rewrite Z.rem_mod_nonneg by lia.
  rewrite <-(Z.mod_add (p + 1) 1 n) by lia. by rewrite Z.mul_1_l.
Qed.

Lemma ring_prev_mod p : is_rank p → prev p = (p - 1) mod n.
Proof.
  intros Hp. unfold is_rank in Hp. unfold ring_prev. rewrite Z.rem_mod_nonneg by lia.
  rewrite <-(Z.mod_add (p - 1) 1 n) by lia. by rewrite Z.mul_1_l.
Qed.

Lemma is_rank_next p : is_rank p → is_rank (next p).
Proof.
  intros Hp. rewrite ring_next_mod by done. unfold is_rank in *. apply Z.mod_pos_bound. lia.
Qed.

Lemma next_succ p : is_rank p → p < n - 1 → next p = p + 1.
Proof. intros Hp Hlt. rewrite ring_next_mod by done. unfold is_rank in Hp. apply Z.mod_small. lia. Qed.

Lemma next_prev p : is_rank p → next (prev p) = p.
Proof.
  intros Hp. assert (is_rank (prev p)) as Hq.
  { rewrite ring_prev_mod by done. unfold is_rank in *. apply Z.mod_pos_bound. lia. }
  rewrite ring_next_mod, ring_prev_mod by done. unfold is_rank in Hp.
  rewrite Z.add_mod_idemp_l by lia. replace (p - 1 + 1) with p by lia. apply Z.mod_small. lia.
Qed.

(** ** Steps *)

(** What does not touch the token leaves the invariant alone. *)
Lemma ring_at_ext gh gh' T T' d s :
  (∀ q, is_rank q → t_tok (gh' q) = t_tok (gh q) ∧ t_done (gh' q) = t_done (gh q)) →
  (∀ a b, T' a b = T a b) → ring_at gh T d s → ring_at gh' T' d s.
Proof.
  intros Hg HT (Hd & Hdone & Hs). split; [done|]. split.
  { intros q Hq. destruct (Hg q Hq) as [_ ->]. auto. }
  destruct s as [p v|p v]; cbn in *.
  - destruct Hs as (Hp & Hv & Ho & He & Hpos). split; [done|]. split; [by destruct (Hg p Hp) as [-> _]|].
    split; [|split; [|done]].
    + intros q Hq Hne. destruct (Hg q Hq) as [-> _]. auto.
    + intros a b. by rewrite HT.
  - destruct Hs as (Hp & Hv & Hn & Hf & He & Hpos). do 2 (split; [done|]). split; [|split; [|split; [|done]]].
    + intros q Hq. destruct (Hg q Hq) as [-> _]. auto.
    + by rewrite HT.
    + intros a b Hab. rewrite HT. auto.
Qed.

Lemma ring_same gh ch p g' :
  ring_inv gh ch → t_tok g' = t_tok (gh p) → t_done g' = t_done (gh p) → ring_inv (<[p := g']> gh) ch.
Proof.
  intros (d & s & Hi) Ht Hd. exists d, s. eapply ring_at_ext, Hi; [|done]. intros q _. by moved q p.
Qed.

Lemma ring_other gh ch p g' k l :
  ring_inv gh ch → t_tok g' = t_tok (gh p) → t_done g' = t_done (gh p) →
  (∀ a b, k ≠ (a, b, CIRCLE_TAG_TOKEN)) → ring_inv (<[p := g']> gh) (<[k := l]> ch).
Proof.
  intros (d & s & Hi) Ht Hd Hk. exists d, s. eapply ring_at_ext, Hi; [intros q _; by moved q p|].
  intros a b. cbn beta. apply fn_lookup_insert_ne. intros H. by apply (Hk a b).
Qed.

(** Where a message is, there is the token. *)
Lemma flying_at gh T d s a b m l :
  ring_at gh T d s → T a b = m :: l →
  ∃ v, s = Flying a v ∧ b = next a ∧ m = Ints [v] ∧ l = [].
Proof.
  intros (_ & _ & Hs) Hm. destruct s as [p v|p v].
  - destruct Hs as (_ & _ & _ & He & _). by rewrite He in Hm.
  - destruct Hs as (_ & _ & _ & Hf & He & _). destruct (decide ((a, b) = (p, next p))) as [[= -> ->]|Hne].
    + rewrite Hf in Hm. injection Hm as <- <-. by exists v.
    + by rewrite He in Hm.
Qed.

Lemma ring_send gh T d s p w :
  ring_at gh T d s → is_rank p → t_tok (gh p) ≠ None →
  (if t_done (gh p) then w = TERMINATE ∧ p < n - 1 else w = WHITE ∨ w = BLACK) →
  (∀ T', T' p (next p) = T p (next p) ++ [Ints [w]] → (∀ a b, (a, b) ≠ (p, next p) → T' a b = T a b) →
   ring_at (<[p := TG None (t_done (gh p)) (t_gone (gh p))]> gh) T' d (Flying p w)).
Proof.
  intros (Hd & Hdone & Hs) Hp Htok Hw T' HT1 HT2. destruct s as [p' v|p' v]; cbn in Hs.
  2: { destruct Hs as (_ & _ & Hn & _). by rewrite Hn in Htok. }
  destruct Hs as (Hp' & Hv & Ho & He & Hpos).
  assert (p' = p) as -> by (destruct (decide (p' = p)); [done|]; by rewrite Ho in Htok by auto).
  split; [done|]. split; [intros q Hq; specialize (Hdone q Hq); by moved q p|].
  cbn. split; [done|]. split; [|split; [|split; [|split]]].
  - unfold token_value. destruct (t_done (gh p)); naive_solver.
  - intros q Hq. moved q p; [done|]. by apply Ho.
  - by rewrite HT1, He.
  - intros a b Hab. by rewrite HT2, He.
  - rewrite Hdone in Hw by done. unfold is_rank in Hp. destruct (decide (d = 0)) as [Hz|Hz].
    + subst d. rewrite bool_decide_false in Hw by lia. by destruct Hw as [-> | ->].
    + assert (p = d - 1) as -> by (apply Hpos; lia). rewrite bool_decide_true in Hw by lia. split_and!; [tauto|done|lia].
Qed.

Lemma ring_recv gh T d s p src m l :
  ring_at gh T d s → is_rank p → src = prev p → T src p = m :: l →
  t_tok (gh p) = None ∧ t_done (gh p) = false ∧
  ∃ v, m = Ints [v] ∧ token_value v ∧
    ∀ T', T' src p = l → (∀ a b, (a, b) ≠ (src, p) → T' a b = T a b) →
      ∃ d', ring_at (<[p := TG (Some v) (decisive p v) (t_gone (gh p))]> gh) T' d' (Held p v).
Proof.
  intros Hi Hp Hsrc Hm. destruct (flying_at _ _ _ _ _ _ _ _ Hi Hm) as (v & -> & Hnext & -> & ->).
  destruct Hi as (Hd & Hdone & (Hsr & Hv & Hn & Hf & He & Hpos)). unfold is_rank in Hp, Hsr.
  assert (t_done (gh p) = false) as Hnot.
  { rewrite Hdone by done. apply bool_decide_false. case_decide; [lia|]. destruct Hpos as (_ & Hs & Hlt).
    rewrite next_succ in Hnext by (unfold is_rank; lia). lia. }
  split; [by apply Hn|]. split; [done|]. exists v. split; [done|]. split; [done|]. intros T' HT1 HT2.
  exists (if decisive p v then p + 1 else d).
  assert (decisive p v = true → d = p) as Hdec.
  { unfold decisive. rewrite orb_true_iff, andb_true_iff, !Z.eqb_eq. case_decide.
    - intros [[? _]|?]; [lia|done].
    - destruct Hpos as (-> & Hs & Hlt). rewrite next_succ in Hnext by (unfold is_rank; lia). lia. }
  assert (decisive p v = false → d = 0) as Hzero.
  { intros Hf'. case_decide; [done|]. destruct Hpos as (-> & _). unfold decisive in Hf'.
    by rewrite Z.eqb_refl, orb_true_r in Hf'. }
  split; [destruct (decisive p v); lia|]. split; [|split; [|split; [|split; [|split]]]].
  - intros q Hq. moved q p; cbn [t_done].
    + destruct (decisive p v); symmetry; [apply bool_decide_true|apply bool_decide_false]; [lia|].
      rewrite Hzero by done. lia.
    + rewrite Hdone by done. destruct (decisive p v); [|done]. rewrite Hdec by done.
      apply bool_decide_ext. lia.
  - done.
  - by rewrite fn_lookup_insert.
  - intros q Hq Hne. rewrite fn_lookup_insert_ne by done. by apply Hn.
  - intros a b. destruct (decide ((a, b) = (src, p))) as [[= -> ->]|Hne]; [done|]. rewrite HT2 by done.
    apply He. by rewrite <-Hnext.
  - destruct (decisive p v); [lia|]. rewrite Hzero by done. lia.
Qed.

Lemma ring_inv_step gh ch p o r ch' :
  is_rank p → ring_inv gh ch → ring_pre p (gh p) o → net_answer n p ch o r ch' →
  ∃ g', ring_post p (gh p) o r g' ∧ ring_inv (<[p := g']> gh) ch'.
Proof.
  intros Hp Hi Hpre Ha.
  assert (∀ ch0, ch0 = ch → ∃ g', g' = elsewhere (gh p) ∧ ring_inv (<[p := g']> gh) ch0) as Hid.
  { intros ch0 ->. eexists. split; [done|]. by apply ring_same. }
  destruct o; try (by apply Hid); cbn in Hpre, Ha |- *.
  - destruct Ha as [-> _]. by apply Hid.
  - destruct Ha as [-> Hr]. exists (elsewhere (gh p)). split; [|by apply ring_same]. split; [done|].
    intros -> -> Hdone. destruct r as [[s c]|]; [|done]. exfalso.
    destruct Hr as (Hs & [<-|Heq] & m & l & Hm & _).
    + destruct Hi as (d & s & Hi). destruct (ring_recv _ _ _ _ p _ m l Hi Hp eq_refl Hm) as (_ & Hf & _). congruence.
    + rewrite ring_prev_mod in Heq by done. unfold is_rank in Hp.
      pose proof (Z.mod_pos_bound (p - 1) n). unfold MPI_ANY_SOURCE in Heq. lia.
  - destruct Ha as (Hsrc & l & Hch & ->). destruct (Z.eqb_spec tag CIRCLE_TAG_TOKEN) as [->|].
    + destruct Hi as (d & s & Hi).
      destruct (ring_recv _ _ _ _ p _ r l Hi Hp (proj1 (Hpre eq_refl)) Hch) as (Htok & Hdone & v & -> & Hv & Hi').
      eexists. split; [split; [done|]; split; [done|]; by exists v|].
      destruct (Hi' (λ a b, <[(src, p, CIRCLE_TAG_TOKEN) := l]> ch (a, b, CIRCLE_TAG_TOKEN))) as (d' & Hd').
      * cbn beta. apply fn_lookup_insert.
      * intros a b Hab. cbn beta. apply fn_lookup_insert_ne. congruence.
      * by exists d', (Held p v).
    + eexists. split; [done|]. apply ring_other; [done..|]. congruence.
  - subst ch'. eexists. split; [done|]. apply ring_other; [done..|congruence].
  - subst ch'. eexists. split; [done|]. apply ring_other; [done..|congruence].
  - subst ch'. destruct (Z.eqb_spec tag CIRCLE_TAG_TOKEN) as [->|].
    + destruct (Hpre eq_refl) as (-> & Htok & w & -> & Hw). destruct Hi as (d & s & Hi).
      eexists. split; [done|]. exists d, (Flying p w). eapply ring_send; [done..| |].
      * cbn beta. apply fn_lookup_insert.
      * intros a b Hab. cbn beta. apply fn_lookup_insert_ne. congruence.
    + eexists. split; [done|]. apply ring_other; [done..|congruence].
  - eexists. split; [done|]. subst ch'. by apply ring_same.
  - destruct Ha as [-> ->]. destruct (Hid ch eq_refl) as (g' & ? & ?). by exists g'.
  - destruct Ha as [-> ->]. destruct (Hid ch eq_refl) as (g' & ? & ?). by exists g'.
  - subst ch'. eexists. split; [done|]. apply ring_other; [done..|]. by intros a b [=].
Qed.
End ring.
