(* ===== verification/TermSafe.v ===== *)
(** * Tree termination is safe

    The processes of a job of at least two ranks, each running
    CIRCLE_work_loop in tree mode and exchanging messages over the network:
    when any of them leaves its main loop, nobody has work any more and no
    work is under way.  The proof puts together the abstract invariant
    (TermInv) and the conformance of the code (TermCode). *)
From S2P Require Import Prelude CMonad Mem Heap Queue Wire Tree State Mpi Network Ranks TermSpec TermInv Sends Transfer Proc Api Reduce Quiet Worker QuietWorker TermCode.
From Stdlib Require Import Floats.SpecFloat.

(** What the user may ask for: tree termination, width [k], and reduce
    callbacks that leave the queue alone. *)
Record ready (k : Z) (G : globals) : Prop := Ready {
  rd_callbacks : tame_callbacks G;
  rd_count : count_ok G;
  rd_term : truth (Z.land (options (CIRCLE_INPUT_ST G)) CIRCLE_TERM_TREE) = true;
  rd_width : tree_width (CIRCLE_INPUT_ST G) = k;
}.

Abbreviation worker := (process (A := Z * Z * globals * CIRCLE_state_st) (B := Z * globals)).

(** CIRCLE_worker, with the end of its main loop marked ([worker_cut]). *)
Definition worker_process (fuel : nat) (junk : CIRCLE_state_st) (G : globals) : worker :=
  Main (worker_main fuel junk G) (worker_rest fuel).

(** All ranks call CIRCLE_worker; no message has been sent yet. *)
Definition job (fuel : nat) (junk : Z → CIRCLE_state_st) (G : Z → globals)
    : config (A := Z * Z * globals * CIRCLE_state_st) (B := Z * globals) :=
  Config (λ p, worker_process fuel (junk p) (G p)) (λ _, []).

(** About to work on an item. *)
Definition at_work (x : worker) : Prop :=
  match x with
  | Main (Vis (OExternal k) _) _ | Drain _ (Vis (OExternal k) _) => k = WORK_CALL
  | _ => False
  end.

(** The globals a process had when it left its main loop. *)
Definition left_globals (x : Z * Z * globals * CIRCLE_state_st) : globals := x.1.2.

Definition ghost0 : tg := TG true 0 [] 1 false ∅ [] 0 0.

Section safe.
Context (n k : Z) (Hk : 1 ≤ k) (Hn : 2 ≤ n).

#[local] Instance the_tree : IsTree n (tree_parent k) (tree_chs n k).
Proof. apply k_ary_tree; lia. Qed.

Abbreviation par := (tree_parent k).
Abbreviation chs := (tree_chs n k).

Definition left_loop (p : Z) (g : tg) (x : Z * Z * globals * CIRCLE_state_st) : Prop := exit_rel g (left_globals x).

(** A process that returns has nothing in its queue, unless it left the loop
    in an abort. *)
Definition returned (p : Z) (x : Z * Z * globals * CIRCLE_state_st) (g : tg) (r : Z * globals) : Prop :=
  no_items r.2 ∨ truth (CIRCLE_ABORT_FLAG (left_globals x)) = true.

Abbreviation ok := (network_ok n (term_pre par chs) (term_post n par chs) (term_inv n par chs) (λ _ _, True)
  left_loop returned (λ _, True)).

(** The result 1 stays. *)
Lemma left_loop_step p g x o r g' :
  left_loop p g x → term_pre par chs p g o → term_post n par chs p g o r g' → left_loop p g' x.
Proof.
  intros [Hr Hi Hc] Hpre Hpost. split; [|done|done].
  destruct o; cbn in Hpre, Hpost; try (by subst g'); try (by destruct Hpost as [-> _]).
  - destruct (tag =? CIRCLE_TAG_TERM); [by destruct Hpre as (_ & ? & _)|].
    destruct (tag =? CIRCLE_TAG_WORK_REPLY).
    { destruct Hpost as (_ & _ & ->). by destruct (work_header _). }
    destruct (tag =? CIRCLE_TAG_WORK_RECEIPT); by subst g'.
  - destruct (tag =? CIRCLE_TAG_TERM); [|by subst g'].
    destruct Hpost as [? ? (_ & _ & _ & _ & _ & _ & ?)| |? ? ? (_ & _ & _ & _ & _ & _ & ?)]; done.
  - destruct (tag =? CIRCLE_TAG_WORK_REPLY); [subst g'; by destruct (work_header _)|].
    destruct (tag =? CIRCLE_TAG_WORK_RECEIPT); by subst g'.
  - by destruct Hpost as [_ ->].
  - by destruct Hpost as [_ ->].
Qed.

(** ** Initialisation *)

Abbreviation safe p t Q g :=
  (wp (net_protocol (term_pre par chs) (term_post n par chs) p) t Q (λ _ _, True) g).

Lemma init_safe p fuel G st :
  is_rank n p → n * k ≤ INT32_MAX → ready k G →
  safe p (CIRCLE_init_local_state fuel G st) (λ g' st', g' = ghost0 ∧ main_rel par chs p g' G st') ghost0.
Proof.
  intros Hp Hmax [Hc Hz Ht Hw]. pose proof Hp as Hp'. unfold is_rank in Hp'.
  destruct (init_shape (K := term_calls false) fuel G st n p k) as (rest & -> & Hq); [done|done|done|nia|].
  split; [done|]. intros r g' [-> ->]. split; [done|]. intros s g' [-> ->].
  eapply (quiet_safe n par chs p false); [exact Hq|done|].
  intros st' [Ht' _ _ _ _ Htr]. rewrite Ht in Ht'. rewrite Hw in Htr. split; [done|].
  split; [|eapply my_tree_rep; [apply Hp|done]|done|done|done].
  rewrite Ht'. split; cbn; try done; by right.
Qed.

(** What follows the main loop makes no move and leaves the queue empty. *)
Lemma rest_safe p fuel x g :
  is_rank n p → exit_rel g (left_globals x) → safe p (worker_rest fuel x) (returned p x) g.
Proof.
  intros Hp [Hr Hi Hc]. destruct x as [[[rank size] G] st]. cbn in Hr, Hi, Hc.
  set (abort := truth (CIRCLE_ABORT_FLAG G) = true). unfold worker_rest, mbind, prog_mbind.
  apply wp_seq. eapply wp_post, (finish_safe n par chs p abort); [|by split]. intros g' [G' st'] Ho.
  eapply (quiet_safe n par chs p false _ (λ r, calm G' r.2)); [|done|].
  2: { intros r Hcalm. apply (over_calm _ _ _ _ Ho Hcalm). }
  apply (quiet_seq _ _ _ _ (calm G')).
  { destruct (truth (CIRCLE_ABORT_FLAG G')); [by apply quiet_checkpoint|apply calm_refl]. }
  intros G2 H2. apply (quiet_seq _ _ _ _ (λ _, True)).
  { destruct (_ <=? _); [|done]. by apply quiet_bind, quiet_worker_summary. }
  intros _ _. by apply quiet_bind, quiet_finalize.
Qed.

Lemma start_ok fuel junk G p :
  is_rank n p → n * k ≤ INT32_MAX → ready k G →
  process_ok (term_pre par chs) (term_post n par chs) (λ _ _, True) left_loop returned (λ _, True) p ghost0
    (worker_process fuel junk G).
Proof.
  intros Hp Hmax Hr. split; [done|]. apply main_wp; [done|]. unfold worker_main, mbind, prog_mbind.
  split; [done|]. intros r g' [-> ->]. split; [done|]. intros s g' [-> ->]. cbn [prog_bind].
  apply wp_seq. eapply wp_post, init_safe; [|done..]. intros g st [-> Hm].
  apply wp_seq. eapply wp_post with (Q := λ (g' : tg) G', g' = ghost0 ∧ main_rel par chs p ghost0 G' st).
  - intros g' G' [-> Hm']. apply wp_seq.
    eapply wp_post, (rounds_safe n par chs p Hp); [|intros ->; apply root_has_children; lia|exact Hm'].
    intros g1 [G1 st1] He. split; [exact He|]. by apply rest_safe.
  - destruct (_ || _); [|done]. unfold call_cb. destruct (create_cb _) as [u|]; [|done].
    cbn [deref mbind prog_mbind prog_bind].
    eapply (quiet_safe n par chs p true); [apply quiet_user|done|].
    intros G' Hk'. split; [done|]. destruct Hm. split; [done|done|done|by eapply keeps_tame|by apply Hk'].
Qed.

Lemma inv_start : term_inv n par chs (λ _, ghost0) (λ _, []).
Proof.
  split; [split|split; [split|split]]; cbn; try done.
  - intros c Hc. left. repeat split; set_solver.
  - intros p Hp. split; [constructor|]. set_solver.
  - intros p Hp. split; [by right|by left].
  - intros p Hp. assert (∀ l : list Z, foldr (λ _ a : Z, 0 + a) 0 l = 0) as Hz
      by (intros l; induction l; simpl; lia).
    unfold sum_ranks, transfers. cbn. by rewrite Hz.
  - intros p q m Hm. by apply elem_of_nil in Hm.
  - by intros p Hp [? _].
Qed.

Lemma inv_step gh ch p o r ch' :
  is_rank n p → term_inv n par chs gh ch → term_pre par chs p (gh p) o →
  net_answer n p ch o r ch' →
  ∃ g', term_post n par chs p (gh p) o r g' ∧ term_inv n par chs (<[p := g']> gh) ch'.
Proof. apply term_inv_step, the_tree. Qed.

Lemma job_stays_ok fuel junk G c :
  n * k ≤ INT32_MAX → (∀ p, is_rank n p → ready k (G p)) → reachable n (job fuel junk G) c → ok c.
Proof.
  intros Hmax Hf. apply network_sound; [apply inv_step|apply left_loop_step|].
  exists (λ _, ghost0). split; [apply inv_start|]. intros p Hp. by apply start_ok; auto.
Qed.

(** Who is about to call the work callback is active. *)
Lemma at_work_active gh c q :
  process_ok (term_pre par chs) (term_post n par chs) (λ _ _, True) left_loop returned (λ _, True) q (gh q) (procs c q) →
  at_work (procs c q) → t_active (gh q) = true.
Proof.
  destruct (procs c q) as [t after|x t]; destruct t as [| |o ?]; try done; destruct o; try done;
    cbn; [intros (_ & [Hpre _] & _)|intros (_ & Hpre & _)]; apply Hpre.
Qed.
End safe.

(** Once a process has left its main loop, nobody is active or waits for a
    receipt. *)
Lemma job_over n k fuel junk G c p x t :
  1 ≤ k → 2 ≤ n → n * k ≤ INT32_MAX → (∀ q, is_rank n q → ready k (G q)) →
  reachable n (job fuel junk G) c → is_rank n p → procs c p = Drain x t →
  ∃ gh, term_inv n (tree_parent k) (tree_chs n k) gh (chans c) ∧
    (∀ q, is_rank n q → process_ok (term_pre (tree_parent k) (tree_chs n k))
       (term_post n (tree_parent k) (tree_chs n k)) (λ _ _, True) left_loop returned (λ _, True) q
       (gh q) (procs c q)) ∧
    ∀ q, is_rank n q → t_active (gh q) = false ∧ t_wo (gh q) = 0.
Proof.
  intros Hk Hn Hmax Hf Hr Hp Hd. pose proof (the_tree n k Hk Hn) as Htree.
  destruct (job_stays_ok n k Hk Hn fuel junk G c Hmax Hf Hr) as (gh & Hi & Hok).
  exists gh. split; [exact Hi|]. split; [exact Hok|]. destruct Hi as (Ht & _ & _ & Hfin).
  pose proof (Hok p Hp) as Hx. rewrite Hd in Hx. destruct Hx as [[Hres _ _] _].
  exact (told_finished n _ _ gh _ p Ht Hfin Hp Hres).
Qed.

(** No work is on its way then. *)
Lemma nothing_under_way n k gh ch :
  term_inv n (tree_parent k) (tree_chs n k) gh ch → (∀ q, is_rank n q → t_wo (gh q) = 0) →
  ∀ a b m, is_rank n a → is_rank n b → m ∈ ch (a, b, CIRCLE_TAG_WORK_REPLY) → work_header m = false.
Proof.
  intros (_ & Hw & _) Hall a b m Ha Hb Hm.
  eapply no_transfer with (R := λ a b, ch (a, b, CIRCLE_TAG_WORK_REPLY));
    [exact Hw|exact Ha|exact Hb|apply Hall, Ha|exact Hm].
Qed.

(** C1 CIRCLE_worker with tree termination, on at least two ranks that
    exchange messages over the network, for every user program whose reduce
    callbacks do not touch the queue: once any process has left its main loop,
    no message with work is on its way and no process works on an item any
    more; every process that has left the loop did so with an empty queue or
    in an abort, and the same holds when it returns. *)
Theorem tree_termination_safe n k fuel junk G c p x t :
  1 ≤ k → 2 ≤ n → n * k ≤ INT32_MAX →
  (∀ q, is_rank n q → ready k (G q)) →
  reachable n (job fuel junk G) c →
  is_rank n p → procs c p = Drain x t →
  (∀ a b m, is_rank n a → is_rank n b →
    m ∈ chans c (a, b, CIRCLE_TAG_WORK_REPLY) → work_header m = false) ∧
  (∀ q, is_rank n q → ¬ at_work (procs c q)) ∧
  (∀ q y u, is_rank n q → procs c q = Drain y u →
    no_items (left_globals y) ∨ truth (CIRCLE_ABORT_FLAG (left_globals y)) = true) ∧
  (∀ q y rc G', is_rank n q → procs c q = Drain y (Ret (rc, G')) →
    no_items G' ∨ truth (CIRCLE_ABORT_FLAG (left_globals y)) = true).
Proof.
  intros Hk Hn Hmax Hf Hr Hp Hd.
  destruct (job_over n k fuel junk G c p x t Hk Hn Hmax Hf Hr Hp Hd) as (gh & Hi & Hok & Hall).
  split; [|split; [|split]].
  - apply (nothing_under_way n k gh _ Hi). intros q Hq. by apply Hall.
  - intros q Hq Ha. pose proof (at_work_active n k gh c q (Hok q Hq) Ha).
    destruct (Hall q Hq). congruence.
  - intros q y u Hq Hy. pose proof (Hok q Hq) as Hx. rewrite Hy in Hx. by destruct Hx as [[] _].
  - intros q y rc G' Hq Hy. pose proof (Hok q Hq) as Hx. rewrite Hy in Hx. by destruct Hx as [_ Hx].
Qed.

(** ** An example run

    Two ranks; the user's create callback puts in one item, the process
    callback takes it out and works on it. *)
Definition demo_input : CIRCLE_input_st :=
  mk_input (Some (UEnqueue (Some [Byte.x61]) (λ _, UReturn)))
    (Some (UDequeue (Some 4) (λ _ _, UExternal WORK_CALL (λ _, UReturn))))
    None None None None 0 0 (Z.lor CIRCLE_TERM_TREE CIRCLE_CREATE_GLOBAL) 2
    (Some (mkQueue 1 (Some (Block 1 4096 ∅)) 4096 0 (Some (Block 1 8 ∅)) 8 0)).

Definition demo_globals (p : Z) : globals := mk_globals demo_input 0 p 0 0.

Definition demo_junk (p : Z) : CIRCLE_state_st :=
  mk_state 0 0 (mk_token_st 0 0 0 0 0 None) (mk_offsets_st 0 None) None 0 0 (mk_request_st 0 0 None)
    (mk_send_st 0 0 None None) (mkTree 0 0 0 0 None) (mk_reduce_st 0 (S754_zero false) (S754_zero false) 0 0 0 0 0)
    (mk_barrier_st 0 0 0) (mk_term_st 0 0 0 0 0) (mk_abort_st 0 0 0 None) (mk_profile_st 0 0 0).

Definition demo_end := exec_rounds 2 (λ _, false) 30 10 (job 40 demo_junk demo_globals).

Definition has_left (x : worker) : bool := match x with Drain _ _ => true | Main _ _ => false end.

Lemma demo_ready p : ready 2 (demo_globals p).
Proof.
  split; [by repeat split|..]; [|done|done]. intros qp [= <-]. done.
Qed.

Lemma demo_reachable : reachable 2 (job 40 demo_junk demo_globals) demo_end.
Proof. unfold demo_end. apply exec_rounds_reachable, rtc_refl. Qed.

Lemma demo_leaves : ∃ x t, procs demo_end 0 = Drain x t.
Proof.
  assert (has_left (procs demo_end 0) = true) as Hl by (vm_compute; reflexivity).
  destruct (procs demo_end 0) as [t after|x t]; [done|by exists x, t].
Qed.

Lemma tree_termination_safe_witness :
  ∃ x t, procs demo_end 0 = Drain x t ∧
  (∀ a b m, is_rank 2 a → is_rank 2 b →
    m ∈ chans demo_end (a, b, CIRCLE_TAG_WORK_REPLY) → work_header m = false) ∧
  (∀ q, is_rank 2 q → ¬ at_work (procs demo_end q)) ∧
  (∀ q y u, is_rank 2 q → procs demo_end q = Drain y u →
    no_items (left_globals y) ∨ truth (CIRCLE_ABORT_FLAG (left_globals y)) = true) ∧
  (∀ q y rc G', is_rank 2 q → procs demo_end q = Drain y (Ret (rc, G')) →
    no_items G' ∨ truth (CIRCLE_ABORT_FLAG (left_globals y)) = true).
Proof.
  destruct demo_leaves as (x & t & Hd). exists x, t. split; [exact Hd|].
  apply (tree_termination_safe 2 2 40 demo_junk demo_globals demo_end 0 x t).
  - lia.
  - lia.
  - c_arith.
  - intros q _. apply demo_ready.
  - exact demo_reachable.
  - unfold is_rank. lia.
  - exact Hd.
Defined.
