(* ===== verification/NoAbort.v ===== *)
(** * Nobody aborts unless user code asks for it

    A job whose user code never calls CIRCLE_abort: no rank ever asks another
    one to abort, refuses work because of an abort, or contributes an abort
    to the final allreduce; so all abort flags stay down. *)
From S2P Require Import Prelude CMonad Mem Heap Queue Stdio Checkpoint Wire Tree Split State Mpi Sends Transfer Barrier Term Abort Token Network Ranks Proc Api Reduce Quiet Worker QuietWorker TermCode LedgerCode TermSafe.

(** ** User code *)

Fixpoint patient (u : user) : Prop :=
  match u with
  | UReturn => True
  | UAbort _ => False
  | UExternal _ k => ∀ v, patient (k v)
  | UEnqueue _ k => ∀ rc, patient (k rc)
  | UDequeue _ k => ∀ rc s, patient (k rc s)
  | ULocalQueueSize k => ∀ n, patient (k n)
  | UReduce _ k | UCheckpoint k | UReadRestarts k | USetOptions _ k | USetTreeWidth _ k
  | USetReducePeriod _ k => patient k
  end.

Record never_aborts (G : globals) : Prop := NeverAborts {
  na_create : ∀ u, create_cb (CIRCLE_INPUT_ST G) = Some u → patient u;
  na_process : ∀ u, process_cb (CIRCLE_INPUT_ST G) = Some u → patient u;
  na_init : ∀ u, reduce_init_cb (CIRCLE_INPUT_ST G) = Some u → patient u;
  na_op : ∀ f a x b y, reduce_op_cb (CIRCLE_INPUT_ST G) = Some f → patient (f a x b y);
  na_fini : ∀ f a x, reduce_fini_cb (CIRCLE_INPUT_ST G) = Some f → patient (f a x);
}.

(** The flag and the callbacks stay as they are. *)
Definition flag_keep (G G' : globals) : Prop :=
  CIRCLE_ABORT_FLAG G' = CIRCLE_ABORT_FLAG G ∧ same_users G G'.

#[export] Instance flag_keep_preorder : PreOrder flag_keep.
Proof. split; [by intros G|]. intros G1 G2 G3 [? ?] [? ?]. split; by etrans. Qed.

Record unaborted (G : globals) : Prop := Unaborted {
  un_flag : CIRCLE_ABORT_FLAG G = 0;
  un_users : never_aborts G;
}.

Lemma unaborted_keep G G' : flag_keep G G' → unaborted G → unaborted G'.
Proof.
  intros (Hf & H1 & H2 & H3 & H4 & H5) [H []]. split; [congruence|]. by split; rewrite ?H1, ?H2, ?H3, ?H4, ?H5.
Qed.

Lemma unaborted_queue G q : unaborted G → unaborted (put_queue q G).
Proof. apply unaborted_keep. by repeat split. Qed.

Lemma unaborted_flag G : unaborted G → unaborted (set_abort_flag 0 G).
Proof. intros HG. eapply unaborted_keep, HG. split; [symmetry; apply HG|by repeat split]. Qed.

(** ** The messages of such a job *)

(** Whether a message on this tag says that nobody has aborted. *)
Definition innocent (tag : Z) (m : payload) : bool :=
  if tag =? CIRCLE_TAG_ABORT_REQUEST then false
  else if tag =? CIRCLE_TAG_ABORT_REDUCE then match m with Ints [x] => x =? 0 | _ => false end
  else if tag =? CIRCLE_TAG_WORK_REPLY then match m with Ints [] => false | Ints (x :: _) => negb (x =? PAYLOAD_ABORT) | _ => true end
  else true.

(** The calls of a rank, sends that are innocent among them. *)
Definition innocent_call (o : op) : bool :=
  match o with
  | OSend _ tag m | OIsend _ tag m _ | OIssend _ tag m => innocent tag m
  | _ => true
  end.

(** The tags that may carry news of an abort. *)
Definition abort_tag (tag : Z) : bool :=
  (tag =? CIRCLE_TAG_ABORT_REQUEST) || (tag =? CIRCLE_TAG_ABORT_REDUCE) || (tag =? CIRCLE_TAG_WORK_REPLY).

Lemma innocent_tag tag m : abort_tag tag = false → innocent tag m = true.
Proof. unfold abort_tag, innocent. by intros [[-> ->]%orb_false_iff ->]%orb_false_iff. Qed.

#[export] Instance innocent_local : Local innocent_call.
Proof. split. by intros []. Qed.
#[export] Instance innocent_talks tag : TCEq (abort_tag tag) false → Talks innocent_call tag.
Proof.
  intros Ht%TCEq_eq. split. intros [] Ho; cbn in *; try done; apply Z.eqb_eq in Ho; subst; by apply innocent_tag.
Qed.
#[export] Instance innocent_takes tag : Takes innocent_call tag.
Proof. by split. Qed.
#[export] Instance innocent_works : Works innocent_call.
Proof. by split. Qed.

(** Without an abort the replies to work requests are innocent. *)
#[export] Instance innocent_replies : Replies innocent_call 0.
Proof.
  split. intros dst m b Hm. cbn. unfold innocent. cbn. destruct m as [l|[|x l]|]; [done|done| |done].
  apply negb_true_iff, Z.eqb_neq. intros ->. by destruct l.
Qed.

(** The rest of the user code, from globals that have changed. *)
Ltac then_rest IH := eapply quiet_mono; [|by apply IH]; intros ?; etrans; [|done]; by repeat split.

Lemma quiet_patient fuel u G : patient u → quiet innocent_call (run_user fuel u G) (flag_keep G).
Proof.
  revert G. induction u as [|n k IH|s k IH|room k IH|k IH|buf k IH|k IH|k IH|k IH|o k IH|w k IH|s k IH];
    intros G Hu; cbn [run_user patient] in *; try done.
  - split; [done|]. intros v. by apply IH.
  - unfold CIRCLE_enqueue, the_queue. destruct (queue (CIRCLE_INPUT_ST G)) as [q|]; [|done]. cbn.
    apply quiet_bind, quiet_bind, quiet_push. intros rc qp _. cbn.
    then_rest IH.
  - unfold CIRCLE_dequeue. apply quiet_bind, quiet_bind, quiet_pop. intros [[rc qp] s] _. cbn.
    then_rest IH.
  - unfold CIRCLE_local_queue_size, the_queue. destruct (queue (CIRCLE_INPUT_ST G)); [|done]. by apply IH.
  - apply (quiet_seq _ _ _ _ (flag_keep G)).
    { unfold CIRCLE_reduce. apply quiet_bind, quiet_free. intros _. cbn zeta. quiet_steps; by repeat split. }
    intros G' HG. eapply quiet_mono; [|by apply IH]. intros G''. by etrans.
  - unfold CIRCLE_checkpoint, _CIRCLE_checkpoint, the_queue.
    destruct (queue (CIRCLE_INPUT_ST G)) as [q|]; [|done]. cbn.
    apply quiet_bind, quiet_bind, quiet_bind, quiet_write. intros rc qp _ _. cbn.
    then_rest IH.
  - unfold CIRCLE_read_restarts, _CIRCLE_read_restarts.
    apply quiet_bind, quiet_bind, quiet_bind, quiet_read. intros rc qp _. cbn.
    then_rest IH.
  - then_rest IH.
  - then_rest IH.
  - then_rest IH.
Qed.

#[export] Instance patient_callbacks : Callbacks innocent_call unaborted flag_keep.
Proof.
  split; [apply _|intros G G'; apply unaborted_keep|..].
  - intros fuel G u HG Hu. by apply quiet_patient, (na_init G); [apply HG|].
  - intros fuel G f a x b y HG Hf. by apply quiet_patient, (na_op G); [apply HG|].
  - intros fuel G f a x HG Hf. by apply quiet_patient, (na_fini G); [apply HG|].
Qed.

(** ** The code keeps to them *)

Section code.
Context (n k : Z) (Hk : 1 ≤ k) (Hmax : n * k ≤ INT32_MAX).

Definition innocent_pre (p : Z) (g : unit) (o : op) : Prop := innocent_call o = true.

Definition innocent_post (p : Z) (g : unit) (o : op) : ans o → unit → Prop :=
  match o return ans o → unit → Prop with
  | ORecv _ tag _ => λ m _, innocent tag m = true
  | OIprobe _ tag => λ r _, tag = CIRCLE_TAG_ABORT_REQUEST → r = None
  | OCommRank => λ r _, r = p
  | OCommSize => λ r _, r = n
  | _ => λ _ _, True
  end.

Definition all_innocent (gh : Z → unit) (ch : channels) : Prop :=
  ∀ a b tag m, m ∈ ch (a, b, tag) → innocent tag m = true.

Lemma innocent_step gh ch p o r ch' :
  all_innocent gh ch → innocent_pre p (gh p) o → net_answer n p ch o r ch' →
  ∃ g', innocent_post p (gh p) o r g' ∧ all_innocent (<[p := g']> gh) ch'.
Proof.
  intros Hi Hpre Ha. exists tt.
  assert (∀ a b tag m, innocent tag m = true → all_innocent (<[p := tt]> gh) (<[(a, b, tag) := ch (a, b, tag) ++ [m]]> ch)) as Hsend.
  { intros a b tag m Hm a' b' tag' m'. destruct (decide ((a', b', tag') = (a, b, tag))) as [Heq|Hne].
    - injection Heq as -> -> ->. rewrite fn_lookup_insert, elem_of_app, list_elem_of_singleton. intros [?| ->]; [by eapply Hi|done].
    - rewrite fn_lookup_insert_ne by done. apply Hi. }
  destruct o; cbn in *; try (by subst); try (by subst; split; [|apply Hsend]); try (by destruct Ha as [-> ->]); try (by destruct Ha as [-> [_ _]]).
  - destruct Ha as [-> Ha]. split; [|done]. intros ->. destruct r as [[s c]|]; [|done].
    destruct Ha as (_ & _ & m & l & Hm & _). specialize (Hi s p CIRCLE_TAG_ABORT_REQUEST m). rewrite Hm in Hi.
    by discriminate Hi; left.
  - destruct Ha as (Hs & l & Hl & ->). split; [apply (Hi src p tag r); rewrite Hl; by left|].
    intros a' b' tag' m'. destruct (decide ((a', b', tag') = (src, p, tag))) as [Heq|Hne].
    + injection Heq as -> -> ->. rewrite fn_lookup_insert. intros Hm. apply (Hi src p tag m'). rewrite Hl. by right.
    + rewrite fn_lookup_insert_ne by done. apply Hi.
Qed.

Context (p : Z).

Abbreviation P := (net_protocol innocent_pre innocent_post p).
Abbreviation safe t Q g := (wp P t Q (λ _ _, True) g).

Lemma innocent_wp {A} (t : prog A) Φ g : quiet innocent_call t Φ → safe t (λ _, Φ) g.
Proof.
  revert g. induction t as [a|e|o c IH]; intros g; [done|done|]. intros [Ho Hc]. split; [done|].
  intros r g' _. by apply IH.
Qed.

Lemma innocent_seq {A B} (t : prog A) (f : A → prog B) Φ Q g :
  quiet innocent_call t Φ → (∀ a g, Φ a → safe (f a) Q g) → safe (prog_bind f t) Q g.
Proof. intros Ht Hf. apply wp_seq. eapply wp_post, innocent_wp, Ht. auto. Qed.

(** ** The final allreduce *)

Lemma reduce_int_wp src g : safe (recv_int src CIRCLE_TAG_ABORT_REDUCE) (λ _ v, v = 0) g.
Proof.
  unfold recv_int. apply wp_seq. split; [done|]. intros [|[|x [|? ?]]|] g' Hm; try done. by apply Z.eqb_eq.
Qed.

Lemma send_zero_wp m i t g : safe (send_children m i CIRCLE_TAG_ABORT_REDUCE (Ints [0]) t) (λ _ _, True) g.
Proof.
  revert i g. induction m as [|m IH]; intros i g; cbn [send_children]; [done|].
  eapply innocent_seq; [by apply (quiet_child _ _ (λ _, True))|]. intros c g1 _.
  apply wp_seq. split; [done|]. intros [] g2 _. apply IH.
Qed.

Lemma abort_reduce_zero t a g : safe (CIRCLE_abort_reduce 0 t a) (λ _ x, x.1 = 0) g.
Proof.
  unfold CIRCLE_abort_reduce. apply wp_seq. eapply wp_post with (Q := λ _ v, v = 0).
  - intros g1 v ->. apply wp_seq. eapply wp_post with (Q := λ _ v, v = 0).
    + intros g2 v ->. apply wp_seq. eapply wp_post, send_zero_wp. by intros.
    + destruct (negb _); [|done]. apply wp_seq. split; [done|]. intros [] g2 _. apply reduce_int_wp.
  - generalize (Z.to_nat (children t)), 0 at 1. intros m i. revert i g.
    induction m as [|m IH]; intros i g; cbn [abort_reduce_recv]; [done|].
    eapply innocent_seq; [by apply (quiet_child _ _ (λ _, True))|]. intros c g1 _.
    apply wp_seq. eapply wp_post, reduce_int_wp. intros g2 v ->. apply IH.
Qed.

(** ** Looking for aborts and for work *)

Lemma abort_check_zero t a cleanup g : safe (CIRCLE_abort_check 0 t a cleanup) (λ _ x, x.1 = 0) g.
Proof.
  unfold CIRCLE_abort_check. cbn [truth Z.eqb negb]. apply wp_seq. cbn [wp mret prog_mret].
  apply wp_seq. split; [done|]. intros r g1 Hr. cbn in Hr. rewrite Hr by done.
  apply innocent_wp. unfold MPI_Testall. quiet_steps.
Qed.

Lemma work_receive_zero qp st source size g :
  safe (CIRCLE_work_receive 0 qp st source size) (λ _ x, x.1.1.2 = 0) g.
Proof.
  unfold CIRCLE_work_receive. destruct (size <=? 0); [done|].
  eapply innocent_seq; [by apply (quiet_extend_offsets _ _ (λ _, True))|]. intros [rc o] g1 _. cbn zeta.
  destruct (rc <? 0); [done|]. apply wp_seq. unfold recv_ints. cbn. split; [done|]. intros m g2 Hm.
  destruct m as [l|l|l]; [done| |done]. destruct (_ <? _); [done|]. destruct (offsets_recv_buf o) as [b|]; [|done].
  cbn [deref mbind prog_mbind prog_bind]. destruct (store_list b 0 l) as [b1|] eqn:Hs; [|done]. cbn [deref wp].
  destruct l as [|x l]; [done|]. rewrite (load_head _ _ _ _ Hs). cbn [deref mbind prog_mbind prog_bind].
  destruct (x =? 0); [done|]. unfold innocent in Hm. cbn in Hm. apply negb_true_iff in Hm. rewrite Hm.
  destruct (x <? 0); [done|]. apply innocent_wp, quiet_bind, quiet_receive_items. done.
Qed.

Lemma request_work_zero fuel qp st cleanup g :
  safe (CIRCLE_request_work fuel 0 qp st cleanup) (λ _ x, x.1.1.2 = 0) g.
Proof.
  unfold CIRCLE_request_work. eapply innocent_seq; [by apply (quiet_request_slot _ (λ _, True))|].
  intros [free rq] g1 _. cbn zeta. destruct (truth (work_requested rq)).
  - apply wp_seq. split; [done|]. intros [[s c]|] g2 _; cbn [wp]; [|done].
    apply wp_seq. eapply wp_post, work_receive_zero. intros g3 [[[rc ab] qp'] st'] Hab. exact Hab.
  - apply innocent_wp. destruct (_ && _); [|done]. destruct (_ =? _); [done|].
    apply quiet_bind. split; [quiet_call|]. intros r. by apply quiet_bind, quiet_next_proc.
Qed.

(** ** Rounds of the worker *)

Lemma serve_wp cleanup G st g :
  unaborted G → safe (serve_requests cleanup G st) (λ _ x, unaborted x.1) g.
Proof.
  intros HG. unfold serve_requests, the_queue. destruct (queue _) as [qp|]; [|done].
  cbn [deref mbind prog_mbind prog_bind]. rewrite (un_flag G HG). apply innocent_wp.
  apply quiet_bind, (quiet_workreq_check 0). intros qp' st' _. by apply unaborted_queue.
Qed.

Lemma check_abort_wp cleanup G st g :
  unaborted G → safe (check_abort cleanup G st) (λ _ x, unaborted x.1) g.
Proof.
  intros HG. unfold check_abort. rewrite (un_flag G HG). apply wp_seq. eapply wp_post, abort_check_zero.
  intros g1 [ab a] Hab. cbn in Hab. subst ab. by apply unaborted_flag.
Qed.

Lemma request_wp fuel cleanup G st g :
  unaborted G → safe (request_work fuel cleanup G st) (λ _ x, unaborted x.1) g.
Proof.
  intros HG. unfold request_work, the_queue. destruct (queue _) as [qp|]; [|done].
  cbn [deref mbind prog_mbind prog_bind]. rewrite (un_flag G HG). apply wp_seq.
  eapply wp_post, request_work_zero. intros g1 [[[rc ab] qp'] st'] Hab. cbn in Hab. subst ab.
  by apply unaborted_flag, unaborted_queue.
Qed.

Lemma quiet_reduce_unaborted fuel cleanup G st :
  unaborted G → quiet innocent_call (check_reduce fuel cleanup G st) (λ x, unaborted x.1).
Proof.
  intros HG. unfold check_reduce. destruct (truth _); [|done].
  apply (quiet_seq _ _ _ _ (λ x, flag_keep G x.2)); [by apply (quiet_reduce_check unaborted flag_keep)|].
  intros [r G'] HG'. by eapply unaborted_keep.
Qed.

Lemma quiet_call_cb fuel cb G :
  unaborted G → (∀ u, cb = Some u → patient u) → quiet innocent_call (call_cb fuel cb G) unaborted.
Proof.
  intros HG Hcb. unfold call_cb. destruct cb as [u|]; [|done].
  eapply quiet_mono; [|by apply quiet_patient, Hcb]. intros G' HG'. by eapply unaborted_keep.
Qed.

Lemma round_wp fuel G st g : unaborted G → safe (work_round fuel G st) (λ _ x, unaborted x.1.2) g.
Proof.
  intros HG. unfold work_round.
  apply wp_seq. eapply wp_post, serve_wp, HG. clear g G st HG. intros g [G st] HG. cbn in HG.
  eapply innocent_seq; [by apply (quiet_receipt_check _ (λ _, True))|]. intros st1 g1 _.
  eapply innocent_seq; [by apply (quiet_reap_sync _ (λ _, True))|]. intros st2 g2 _.
  apply wp_seq. eapply wp_post, check_abort_wp, HG. clear. intros g [G st] HG. cbn in HG.
  eapply innocent_seq; [by apply quiet_reduce_unaborted|]. clear g G st HG. intros [G st] g HG. cbn in HG.
  unfold the_queue. destruct (queue (CIRCLE_INPUT_ST G)) as [q|]; [|done].
  cbn [deref mbind prog_mbind prog_bind]. apply wp_seq. eapply wp_post with (Q := λ _ x, unaborted x.1).
  2: { destruct (_ =? 0); [by apply request_wp|done]. }
  clear g G st HG q. intros g [G st] HG. cbn in HG.
  destruct (queue (CIRCLE_INPUT_ST G)) as [q|]; [|done]. cbn [deref mbind prog_mbind prog_bind].
  apply innocent_wp. destruct (_ && _).
  - apply (quiet_seq _ _ _ _ unaborted); [apply quiet_call_cb; [done|apply HG]|].
    intros G' HG'. by apply quiet_bind, quiet_i32.
  - by apply quiet_bind, quiet_termination.
Qed.

Lemma rounds_wp m fuel G st g : unaborted G → safe (work_rounds m fuel G st) (λ _ x, unaborted x.1) g.
Proof.
  revert g G st. induction m as [|m IH]; intros g G st HG; cbn [work_rounds]; [done|].
  apply wp_seq. eapply wp_post, round_wp, HG. intros g' [[[] G'] st'] HG'; [done|by apply IH].
Qed.

Lemma cleanup_round_wp fuel G st g : unaborted G → safe (cleanup_round fuel G st) (λ _ x, unaborted x.1.2) g.
Proof.
  intros HG. unfold cleanup_round. cbn zeta. generalize (if drained st then upd_barrier CIRCLE_barrier_start st else st).
  clear st. intros st. eapply innocent_seq; [by apply (quiet_barrier _ _ (λ _, True))|]. intros [done b] g1 _.
  destruct (truth done); [exact HG|]. clear done.
  apply wp_seq. eapply wp_post, serve_wp, HG. clear. intros g [G st] HG. cbn in HG.
  eapply innocent_seq; [by apply (quiet_reap_sync _ (λ _, True))|]. intros st1 g1 _.
  eapply innocent_seq; [by apply quiet_reduce_unaborted|]. clear. intros [G st] g HG. cbn in HG.
  apply wp_seq. eapply wp_post, request_wp, HG. clear. intros g [G st] HG. cbn in HG.
  apply wp_seq. eapply wp_post, check_abort_wp, HG. clear. intros g [G st] HG. cbn in HG.
  destruct (negb _); [|exact HG]. apply innocent_wp, quiet_bind, quiet_token. intros tk.
  unfold test_token. quiet_steps.
Qed.

Lemma cleanup_wp m fuel G st g : unaborted G → safe (cleanup_rounds m fuel G st) (λ _ x, unaborted x.1) g.
Proof.
  revert g G st. induction m as [|m IH]; intros g G st HG; cbn [cleanup_rounds]; [done|].
  apply wp_seq. eapply wp_post, cleanup_round_wp, HG. intros g' [[[] G'] st'] HG'; [done|by apply IH].
Qed.

(** ** The whole worker *)

Lemma finish_sync_wp fuel G st g : unaborted G → safe (finish_sync fuel G st) (λ _ x, unaborted x.1) g.
Proof.
  intros HG. unfold finish_sync. eapply innocent_seq; [by apply (quiet_wait _ _ (λ _, True))|].
  intros [r sn] g1 _. cbn zeta. eapply (innocent_seq _ _ (λ x, unaborted x.2)).
  { destruct (truth _); [|exact HG]. eapply quiet_mono; [|by apply (quiet_reduce_sync unaborted flag_keep)].
    intros x Hx. eapply unaborted_keep, HG. exact Hx. }
  intros [rd G'] g2 HG'. cbn in HG'. rewrite (un_flag G' HG'). apply wp_seq. eapply wp_post, abort_reduce_zero.
  intros g3 [ab a] Hab. cbn in Hab. subst ab. by apply unaborted_flag.
Qed.

Lemma rest_wp fuel rank size G st g :
  unaborted G → safe (worker_rest fuel (rank, size, G, st)) (λ _ r, CIRCLE_ABORT_FLAG r.2 = 0) g.
Proof.
  intros HG. unfold worker_rest, finish_loop, mbind, prog_mbind.
  apply wp_seq, wp_seq. eapply wp_post, cleanup_wp, HG. clear. intros g [G st] HG. cbn in HG.
  eapply wp_post, finish_sync_wp, HG. clear. intros g [G st] HG. cbn in HG. unfold worker_end.
  rewrite (un_flag G HG). cbn [truth Z.eqb negb mbind prog_mbind prog_bind mret prog_mret].
  apply innocent_wp, (quiet_seq _ _ _ _ (λ _, True)).
  { destruct (_ <=? _); [|done]. by apply quiet_bind, quiet_worker_summary. }
  intros _ _. apply quiet_bind, quiet_finalize. intros ?. apply HG.
Qed.

Lemma worker_wp fuel junk G :
  is_rank n p → tree_width (CIRCLE_INPUT_ST G) = k → unaborted G →
  process_ok innocent_pre innocent_post (λ _ _, True) (λ _ _ x, CIRCLE_ABORT_FLAG (left_globals x) = 0)
    (λ _ _ _ r, CIRCLE_ABORT_FLAG r.2 = 0) (λ _, True) p tt (worker_process fuel junk G).
Proof.
  intros Hp Hw HG. split; [done|]. apply main_wp; [done|]. unfold worker_main, mbind, prog_mbind.
  pose proof Hp as Hp'. unfold is_rank in Hp'.
  destruct (init_shape (K := innocent_call) fuel G junk n p k) as (rest & -> & Hq); [done|done|done|nia|].
  do 4 (split; [done|intros ? ? ->]). cbn [prog_bind].
  eapply innocent_seq; [exact Hq|]. intros st g1 _. eapply (innocent_seq _ _ unaborted).
  { destruct (_ || _); [|exact HG]. apply quiet_call_cb; [done|apply HG]. }
  intros G1 g2 HG1. apply wp_seq. eapply wp_post, rounds_wp, HG1. intros g3 [G2 st2] HG2.
  split; [apply HG2|]. by apply rest_wp.
Qed.
End code.

Section job.
Context (n k : Z) (Hk : 1 ≤ k) (Hmax : n * k ≤ INT32_MAX).

Lemma job_innocent fuel junk G c :
  (∀ p, is_rank n p → tree_width (CIRCLE_INPUT_ST (G p)) = k ∧ unaborted (G p)) →
  reachable n (job fuel junk G) c →
  network_ok n innocent_pre (innocent_post n) all_innocent (λ _ _, True)
    (λ _ _ x, CIRCLE_ABORT_FLAG (left_globals x) = 0) (λ _ _ _ r, CIRCLE_ABORT_FLAG r.2 = 0) (λ _, True) c.
Proof.
  intros HG. apply network_sound; [|done|].
  - intros gh ch p o r ch' _. apply innocent_step.
  - exists (λ _, tt). split; [by intros a b tag m Hm%elem_of_nil|]. intros p Hp.
    apply (worker_wp n k Hk Hmax); [done|by apply HG..].
Qed.
End job.

(** C9 An abort is never made up.  In a job whose abort flags are down at the
    start and whose user code never calls CIRCLE_abort, with either way of
    detecting termination, no rank leaves its main loop or returns with its
    abort flag up, and no message tells of an abort: nobody asks another rank
    to abort, refuses work because of one, or contributes one to the final
    allreduce. *)
Theorem no_spurious_abort n k fuel junk G c :
  1 ≤ k → n * k ≤ INT32_MAX →
  (∀ q, is_rank n q → tree_width (CIRCLE_INPUT_ST (G q)) = k) →
  (∀ q, is_rank n q → CIRCLE_ABORT_FLAG (G q) = 0 ∧ never_aborts (G q)) →
  reachable n (job fuel junk G) c →
  (∀ q x t, is_rank n q → procs c q = Drain x t →
     CIRCLE_ABORT_FLAG (left_globals x) = 0 ∧ ∀ r, t = Ret r → CIRCLE_ABORT_FLAG r.2 = 0) ∧
  (∀ a b, chans c (a, b, CIRCLE_TAG_ABORT_REQUEST) = []) ∧
  (∀ a b x l, Ints (x :: l) ∈ chans c (a, b, CIRCLE_TAG_WORK_REPLY) → x ≠ PAYLOAD_ABORT) ∧
  (∀ a b m, m ∈ chans c (a, b, CIRCLE_TAG_ABORT_REDUCE) → m = Ints [0]).
Proof.
  intros Hk Hmax Hw HG Hr.
  destruct (job_innocent n k Hk Hmax fuel junk G c) as (gh & Hi & Hok); [|done|].
  { intros p Hp. split; [by apply Hw|]. by split; apply HG. }
  split; [|split; [|split]].
  - intros q x t Hq Hd. pose proof (Hok q Hq) as Hx. rewrite Hd in Hx. destruct Hx as [Hx Ht].
    split; [done|]. by intros r ->.
  - intros a b. destruct (chans c (a, b, CIRCLE_TAG_ABORT_REQUEST)) as [|m l] eqn:Hch; [done|].
    pose proof (Hi a b CIRCLE_TAG_ABORT_REQUEST m) as Hm. rewrite Hch in Hm. by discriminate Hm; left.
  - intros a b x l Hm%Hi ->. done.
  - intros a b m Hm%Hi. unfold innocent in Hm. cbn in Hm. destruct m as [|[|x [|]]|]; try done.
    by apply Z.eqb_eq in Hm as ->.
Qed.

(** ** The job of two ranks again *)

Lemma demo_patient p : CIRCLE_ABORT_FLAG (demo_globals p) = 0 ∧ never_aborts (demo_globals p).
Proof.
  split; [done|]. split; try done.
  - by intros u [= <-].
  - by intros u [= <-].
Qed.

Lemma no_spurious_abort_witness :
  (∀ q x t, is_rank 2 q → procs demo_end q = Drain x t →
     CIRCLE_ABORT_FLAG (left_globals x) = 0 ∧ ∀ r, t = Ret r → CIRCLE_ABORT_FLAG r.2 = 0) ∧
  (∀ a b, chans demo_end (a, b, CIRCLE_TAG_ABORT_REQUEST) = []) ∧
  (∀ a b x l, Ints (x :: l) ∈ chans demo_end (a, b, CIRCLE_TAG_WORK_REPLY) → x ≠ PAYLOAD_ABORT) ∧
  (∀ a b m, m ∈ chans demo_end (a, b, CIRCLE_TAG_ABORT_REDUCE) → m = Ints [0]).
Proof.
  apply (no_spurious_abort 2 2 40 demo_junk demo_globals demo_end).
  - lia.
  - c_arith.
  - done.
  - intros q _. apply demo_patient.
  - exact demo_reachable.
Defined.
