(* ===== verification/WaitCode.v ===== *)
(** * The worker waits only for what comes

    Every function of the worker against the protocol of WaitSpec, for jobs
    without reductions: each message is seen before it is received, a text
    follows its header, and the final allreduce runs down and up the tree. *)
From S2P Require Import Prelude CMonad Mem Heap Queue Stdio Checkpoint Wire Tree Split State Mpi Sends Transfer Barrier Term Abort Token Network Ranks TermSpec WaitSpec Proc Api Reduce Quiet Worker QuietWorker TermCode.
From Stdlib Require Import Floats.SpecFloat.

(** Calls that the protocol always allows and that teach it nothing. *)
Definition free_call (o : op) : bool :=
  match o with
  | OSend _ tag _ | OIsend _ tag _ _ | OIssend _ tag _ =>
      negb ((tag =? CIRCLE_TAG_ABORT_REDUCE) || (tag =? CIRCLE_TAG_WORK_REPLY))
  | ORecv _ _ _ | OIprobe _ _ => false
  | _ => true
  end.

#[export] Instance free_local : Local free_call.
Proof. split. by intros []. Qed.
#[export] Instance free_works : Works free_call.
Proof. by split. Qed.

Lemma quiet_send_all {K} `{!Local K} m i tag l t (Φ : unit → Prop) :
  (∀ c, K (OSend c tag l) = true) → Φ tt → quiet K (send_children m i tag l t) Φ.
Proof.
  intros HK H. revert i. induction m as [|m IH]; intros i; cbn [send_children]; [done|].
  apply quiet_bind, quiet_child. intros c. split; [apply HK|]. intros []. apply IH.
Qed.

Section code.
Context (n : Z) (par : Z → Z) (chs : Z → list Z) `{!IsTree n par chs}.
Context (p : Z) (Hp : is_rank n p).

Abbreviation P := (net_protocol (wait_pre par) (wait_post n) p).
Abbreviation safe t Q g := (wp P t Q (λ _ _, True) g).

(** Nothing is under way, apart from a message that was seen. *)
Definition at_ease (g : pg) : Prop :=
  g_owes g = None ∧ g_due g = None ∧ g_todo g = chs p ∧ g_up g = false ∧ g_told g = false ∧ g_down g = chs p.

Lemma free_calls {A} (t : prog A) Φ (Q : pg → A → Prop) g :
  quiet free_call t Φ → (∀ a, Φ a → Q g a) → safe t Q g.
Proof.
  intros Ht HQ. induction t as [a|e|o c IH]; cbn in *; [auto|done|]. destruct Ht as [Ho Hc].
  assert (wait_pre par p g o ∧ ∀ r g', wait_post n p g o r g' → g' = g) as [Hpre Hpost].
  { destruct o; cbn in *; try done; try (by split; [|intros ? ? [_ ->]]); try (by split; [|intros ? ? ->]);
      apply negb_true_iff, orb_false_iff in Ho as [H1 H2]; rewrite ?H1, ?H2;
      apply Z.eqb_neq in H1; apply Z.eqb_neq in H2; done. }
  split; [done|]. intros r g' Hr. rewrite (Hpost _ _ Hr). by apply IH.
Qed.

Lemma local_wait A (t : prog A) Φ (Q : pg → A → Prop) g :
  quiet local_op t Φ → (∀ a, Φ a → Q g a) → safe t Q g.
Proof. intros Ht. eapply free_calls, quiet_sub, Ht. by apply local_ok. Qed.

Lemma free_seq {A B} (t : prog A) (f : A → prog B) Φ (Q : pg → B → Prop) g :
  quiet free_call t Φ → (∀ a, Φ a → safe (f a) Q g) → safe (prog_bind f t) Q g.
Proof. intros Ht Hf. apply wp_seq. by eapply free_calls. Qed.

(** Look for a message. *)
Lemma probe_wp {A} src tag (f : option (Z * Z) → prog A) Q g :
  at_ease g → (∀ g', at_ease g' → safe (f None) Q g') →
  (∀ s c g', at_ease g' → g_seen g' = Some (s, tag) → source_ok src s → safe (f (Some (s, c))) Q g') →
  safe (prog_bind f (call (OIprobe src tag))) Q g.
Proof.
  intros Hg H0 H1. apply wp_seq. split; [done|]. intros [[s c]|] g' [-> Hs]; [|by apply H0].
  apply H1; [done|done|]. by eapply Hs.
Qed.

(** Take one that was seen. *)
Lemma take_wp {A} src tag k (f : payload → prog A) Q g :
  tag ≠ CIRCLE_TAG_ABORT_REDUCE → tag ≠ CIRCLE_TAG_WORK_REPLY → at_ease g → g_seen g = Some (src, tag) →
  (∀ m g', at_ease g' → safe (f m) Q g') → safe (prog_bind f (call (ORecv src tag k))) Q g.
Proof.
  intros H1%Z.eqb_neq H2%Z.eqb_neq Hg Hs Hf. apply wp_seq. cbn. rewrite H1, H2.
  split; [split; [apply Hg|done]|]. intros m g' [_ ->]. by apply Hf.
Qed.

Lemma take_int_wp {A} src tag (f : Z → prog A) Q g :
  tag ≠ CIRCLE_TAG_ABORT_REDUCE → tag ≠ CIRCLE_TAG_WORK_REPLY → at_ease g → g_seen g = Some (src, tag) →
  (∀ v g', at_ease g' → safe (f v) Q g') → safe (prog_bind f (recv_int src tag)) Q g.
Proof.
  intros H1 H2 Hg Hs Hf. apply wp_seq. unfold recv_int. apply take_wp; [done..|].
  intros [|[|v [|]]|] g' Hg'; try done. by apply Hf.
Qed.

(** ** Barrier, termination, aborts *)

Context (t : CIRCLE_tree_state_st) (Ht : my_tree par chs p t).

(** The parent is not MPI_ANY_SOURCE. *)
Lemma parent_source s : source_ok (parent_rank t) s → s = parent_rank t.
Proof.
  intros [->|Hs]; [done|]. exfalso. rewrite (mt_parent _ Ht) in Hs. unfold is_rank in Hp.
  case_decide; [done|]. pose proof (par_lt p). unfold MPI_ANY_SOURCE in Hs. lia.
Qed.

Lemma barrier_ease b g : at_ease g → safe (CIRCLE_barrier_test t b) (λ g' _, at_ease g') g.
Proof.
  intros Hg. unfold CIRCLE_barrier_test. destruct (negb _); [done|].
  apply wp_seq. eapply wp_post with (Q := λ g' _, at_ease g').
  2: { unfold barrier_recv_child. destruct (_ <? _); [|done]. apply probe_wp; [done|done|].
       intros s c g1 Hg1 Hs _. apply take_wp; [done|done|done|done|]. intros m g2 Hg2.
       eapply free_seq; [by apply (quiet_i32 _ (λ _, True))|]. done. }
  clear g b Hg. intros g b Hg. eapply (free_seq _ _ (λ _, True)).
  { unfold barrier_send_up. quiet_steps. }
  intros b1 _. apply wp_seq. eapply wp_post with (Q := λ g' _, at_ease g').
  2: { unfold barrier_complete. destruct (truth _); [|done]. destruct (negb _); [|done]. apply probe_wp; [done|done|].
       intros s c g1 Hg1 Hs ->%parent_source. apply take_wp; done. }
  clear g Hg. intros g [] Hg; [|done]. by eapply free_seq; [by apply (quiet_send_all _ _ _ _ _ (λ _, True))|].
Qed.

Lemma term_recv_ease m s g : at_ease g → safe (term_recv_children m t s) (λ g' _, at_ease g') g.
Proof.
  revert s g. induction m as [|m IH]; intros s g Hg; cbn [term_recv_children]; (destruct (_ <? _); [|done]); [done|].
  apply probe_wp; [done|done|]. intros c k g1 Hg1 Hs _. apply take_int_wp; [done|done|done|done|].
  intros v g2 Hg2. eapply free_seq; [by apply (quiet_i32 _ (λ _, True))|]. intros x _. by apply IH.
Qed.

Lemma term_ease s g : at_ease g → safe (CIRCLE_check_for_term_allreduce t s) (λ g' _, at_ease g') g.
Proof.
  intros Hg. unfold CIRCLE_check_for_term_allreduce. apply wp_seq. eapply wp_post, term_recv_ease, Hg.
  clear g s Hg. intros g s Hg. destruct (0 <? _); [done|].
  eapply (free_seq _ _ (λ _, True)); [unfold term_send_up; quiet_steps|]. intros [r s1] _.
  apply wp_seq. eapply wp_post with (Q := λ g' _, at_ease g').
  2: { unfold term_complete. destruct (truth _); [|done]. destruct (negb _); [|done]. apply probe_wp; [done|done|].
       intros s' c g1 Hg1 Hs ->%parent_source. apply take_int_wp; done. }
  clear g Hg. intros g [[] r'] Hg; [|done]. by eapply free_seq; [by apply (quiet_send_all _ _ _ _ _ (λ _, True))|].
Qed.

Lemma abort_check_ease abort a cleanup g : at_ease g → safe (CIRCLE_abort_check abort t a cleanup) (λ g' _, at_ease g') g.
Proof.
  intros Hg. assert (∀ a, quiet free_call (CIRCLE_abort_start t a cleanup) (λ _, True)) as Hstart.
  { clear. intros a. unfold CIRCLE_abort_start. destruct (truth _); [done|]. cbn zeta. destruct (truth _); [done|].
    apply (quiet_seq _ _ _ _ (λ _, True)); [unfold abort_post; quiet_steps|]. intros [k reqs] _.
    apply (quiet_seq _ _ _ _ (λ _, True)); [|by intros [? ?] _]. generalize (Z.to_nat (children t)), 0, k, reqs.
    intros m. induction m as [|m IH]; intros i k' reqs'; cbn [abort_post_children]; [done|].
    apply quiet_bind, quiet_child. intros c. apply (quiet_seq _ _ _ _ (λ _, True)); [unfold abort_post; quiet_steps|].
    intros ? _. apply IH. }
  unfold CIRCLE_abort_check. eapply (free_seq _ _ (λ _, True)).
  { destruct (truth abort); [|done]. by eapply quiet_seq; [apply Hstart|]. }
  intros [ab a1] _. apply probe_wp; [done|..].
  - intros g1 Hg1. eapply (free_seq _ _ (λ _, True)); [done|]. intros [ab2 a2] _.
    eapply (free_calls _ (λ _, True)); [unfold MPI_Testall; quiet_steps|done].
  - intros s c g1 Hg1 Hs _. apply wp_seq. apply take_wp; [done|done|done|done|]. intros m g2 Hg2.
    eapply (free_calls _ (λ _, True)).
    { apply quiet_bind. split; [done|]. intros []. by eapply quiet_seq; [apply Hstart|]. }
    intros [ab2 a2] _. eapply (free_calls _ (λ _, True)); [unfold MPI_Testall; quiet_steps|done].
Qed.

(** ** The token ring *)

Definition same_src (tk tk' : token_st) : Prop := token_src tk' = token_src tk.

#[local] Instance same_src_preorder : PreOrder same_src.
Proof. split; [by intros ?|]. intros ? ? ? H1 H2. unfold same_src in *. congruence. Qed.

Lemma quiet_issend_src abort tk : quiet free_call (CIRCLE_token_issend abort tk) (same_src tk).
Proof. unfold CIRCLE_token_issend. quiet_steps. Qed.

Lemma token_check_ease abort rank size tk g :
  at_ease g → token_src tk ≠ MPI_ANY_SOURCE →
  safe (CIRCLE_token_check abort rank size tk) (λ g' tk', at_ease g' ∧ same_src tk tk') g.
Proof.
  intros Hg Hsrc. unfold CIRCLE_token_check. apply probe_wp; [done|done|]. intros s c g1 Hg1 Hs [<-|?]; [|done].
  unfold CIRCLE_token_recv. cbn zeta. apply take_int_wp; [done|done|done|done|]. intros token g2 Hg2.
  eapply free_calls; [|intros tk' Htk; split; [done|exact Htk]].
  apply (quiet_seq _ _ _ _ (same_src tk)); [unfold wait_token; quiet_steps|]. intros tk1 H1.
  set (tk2 := if _ && _ then _ else _). assert (same_src tk tk2) as H2 by (subst tk2; by destruct (_ && _)).
  destruct (_ || _); [|exact H2]. apply quiet_bind, quiet_i32. apply (quiet_seq _ _ _ _ (same_src tk)); [|done].
  destruct (rank <? _); [|exact H2]. eapply quiet_mono; [|apply quiet_issend_src]. intros tk3 H3. by etrans.
Qed.

Lemma check_for_term_ease abort rank size tk g :
  at_ease g → token_src tk ≠ MPI_ANY_SOURCE →
  safe (CIRCLE_check_for_term abort rank size tk) (λ g' x, at_ease g' ∧ same_src tk x.2) g.
Proof.
  intros Hg Hsrc. unfold CIRCLE_check_for_term. destruct (_ =? TERMINATE); [done|].
  apply wp_seq. eapply wp_post with (Q := λ g' tk', at_ease g' ∧ same_src tk tk'); [done|].
  destruct (truth _); [|by apply token_check_ease]. cbn zeta.
  eapply free_calls; [|intros tk' Htk; split; [done|exact Htk]].
  set (tk1 := if _ =? 0 then _ else _). assert (same_src tk tk1) as H1.
  { subst tk1. destruct (_ =? 0); [done|]. by destruct (_ =? BLACK). }
  apply (quiet_seq _ _ _ _ (same_src tk)); [|done].
  eapply quiet_mono; [|apply quiet_issend_src]. intros tk2 H2. by etrans.
Qed.

(** ** Requests and receipts *)

Lemma receipt_loop_ease m s g : at_ease g → safe (workreceipt_loop m s) (λ g' _, at_ease g') g.
Proof.
  revert s g. induction m as [|m IH]; intros s g Hg; cbn [workreceipt_loop]; (destruct (_ <? _); [|done]); [done|].
  apply probe_wp; [done|done|]. intros c k g1 Hg1 Hs _. apply take_wp; [done|done|done|done|].
  intros v g2 Hg2. eapply free_seq; [by apply (quiet_i32 _ (λ _, True))|]. intros x _. by apply IH.
Qed.

Lemma receipt_check_ease st g :
  at_ease g → safe (CIRCLE_workreceipt_check st) (λ g' st', at_ease g' ∧ ∃ s, st' = set_st_term s st) g.
Proof.
  intros Hg. unfold CIRCLE_workreceipt_check. apply wp_seq. eapply wp_post, receipt_loop_ease, Hg.
  intros g1 s Hg1. split; [done|]. by exists s.
Qed.

Lemma workreq_loop_ease m rc rq g : at_ease g → safe (workreq_loop m rc rq) (λ g' _, at_ease g') g.
Proof.
  revert rc rq g. induction m as [|m IH]; intros rc rq g Hg; cbn [workreq_loop]; [done|].
  apply probe_wp; [done|done|]. intros c k g1 Hg1 Hs _. apply take_wp; [done|done|done|done|].
  intros v g2 Hg2. destruct rq as [b|]; [|done]. cbn [deref mbind prog_mbind prog_bind].
  destruct (store b rc c) as [b'|]; [|done]. cbn [deref mbind prog_mbind prog_bind].
  eapply free_seq; [by apply (quiet_i32 _ (λ _, True))|]. intros x _. by apply IH.
Qed.

Lemma refusal_ease abort dest b g :
  at_ease g →
  safe (call (OIsend dest CIRCLE_TAG_WORK_REPLY (Ints [if truth abort then PAYLOAD_ABORT else 0]) b)) (λ g' _, at_ease g') g.
Proof.
  intros Hg. split; [by split; [|intros _; apply Hg]|]. intros r g' ->.
  assert (work_header (Ints [if truth abort then PAYLOAD_ABORT else 0]) = false) as -> by (by destruct (truth abort)).
  destruct Hg as (? & ? & ? & ? & ? & ?). by repeat split.
Qed.

(** Between the header and the text the process owes the text. *)
Lemma transfer_ease dest count l b g :
  at_ease g → 1 ≤ count →
  safe (call (OIsend dest CIRCLE_TAG_WORK_REPLY (Ints (count :: l)) b))
    (λ g' _, ∀ l' b', safe (call (OIsend dest CIRCLE_TAG_WORK_REPLY (Bytes l') b')) (λ g'' _, at_ease g'') g') g.
Proof.
  intros (Ho & Hg) Hc. split; [by split|]. intros r g' ->. cbn [work_header].
  rewrite (proj2 (Z.ltb_lt 0 count)) by lia. intros l' b'. split; [by split|]. intros r' g' ->. by split.
Qed.

Lemma workreq_check_ease o abort qp st cleanup g :
  at_ease g → safe (CIRCLE_workreq_check o abort qp st cleanup) (λ g' '(_, st'), at_ease g' ∧ serve_frame st st') g.
Proof.
  apply (workreq_check_keeps P at_ease abort); [exact local_wait|apply refusal_ease|apply transfer_ease|
    apply workreq_loop_ease].
Qed.

(** ** Asking for work *)

(** What the rest of the worker relies on: no source is MPI_ANY_SOURCE, and
    there are no reductions. *)
Record asks_ranks (st : CIRCLE_state_st) : Prop := AsksRanks {
  ak_token : token_src (st_token st) ≠ MPI_ANY_SOURCE;
  ak_next : st_next_processor st ≠ MPI_ANY_SOURCE;
  ak_request : truth (work_requested (st_request st)) = true → work_requested_rank (st_request st) ≠ MPI_ANY_SOURCE;
  ak_reduce : truth (reduce_enabled (st_reduce st)) = false;
}.

Lemma asks_serve st st' : serve_frame st st' → asks_ranks st → asks_ranks st'.
Proof.
  intros ((_ & Htk & _) & H1 & H2 & H3) []. split; rewrite ?H1, ?H2, ?H3; [|done..].
  by destruct Htk as [-> | ->].
Qed.

(** The text that follows a header. *)
Lemma receive_items_ease qp st b source count g :
  at_ease g →
  safe (receive_items qp st b source count) (λ g' '(_, _, st'), at_ease g' ∧ serve_frame st st') (need (Some source) g).
Proof.
  intros Hg. unfold receive_items. destruct (load b 1) as [chars|]; [|done]. cbn [deref mbind prog_mbind prog_bind].
  eapply free_seq.
  { destruct (_ <? _); [by apply (quiet_extend _ _ (λ _, True))|done]. }
  intros [rc qp1] _. destruct (rc <? 0); [done|]. apply wp_seq. unfold recv_chars.
  cbn. split; [split; [apply Hg|by right]|]. intros m g1 [_ ->]. destruct m as [l|l|l]; [|done|done].
  destruct (_ <? _); [done|]. destruct (q_base qp1) as [base|]; [|done].
  cbn [deref mbind prog_mbind prog_bind]. destruct (store_list base 0 l) as [base1|]; [|done]. cbn [deref wp].
  eapply free_calls with (Φ := λ x, serve_frame st x.2).
  - apply (quiet_seq _ _ _ _ (λ _, True)); [destruct (_ <? _); [by apply quiet_str_extend|done]|].
    intros [rc2 qp2] _. destruct (rc2 <? 0); [done|]. quiet_steps.
    apply quiet_receive_offsets. intros strings. quiet_steps. split; [done|]. intros r.
    apply quiet_bind, quiet_track. intros sn. by split; [apply work_frame_same|].
  - intros [[rc' qp'] st'] Hf. split; [|done]. cbn. by destruct Hg as (? & ? & ?).
Qed.

Lemma work_receive_ease abort qp st source size g :
  at_ease g → g_seen g = Some (source, CIRCLE_TAG_WORK_REPLY) →
  safe (CIRCLE_work_receive abort qp st source size) (λ g' '(_, _, _, st'), at_ease g' ∧ serve_frame st st') g.
Proof.
  intros Hg Hs. unfold CIRCLE_work_receive. destruct (size <=? 0); [done|].
  eapply free_seq; [by apply (quiet_extend_offsets _ _ (λ _, True))|]. intros [rc o] _. cbn zeta.
  destruct (rc <? 0); [done|]. apply wp_seq. unfold recv_ints.
  split; [split; [apply Hg|left; split; [done|apply Hg]]|]. intros m g1 [Hm Hg1].
  assert (g1 = need (if work_header m then Some source else None) g) as -> by exact Hg1. clear Hg1.
  destruct m as [l|[|x l]|l]; [done|by destruct Hm| |done]. cbn -[Z.ltb at_ease serve_frame].
  destruct (size <? _); [done|]. destruct (offsets_recv_buf o) as [b|]; [|done].
  cbn [deref mbind prog_mbind prog_bind]. destruct (store_list b 0 (x :: l)) as [b1|] eqn:Hst; [|done]. cbn [deref wp].
  rewrite (load_head _ _ _ _ Hst). cbn [deref mbind prog_mbind prog_bind].
  assert (at_ease (need None g)) as Hg' by (destruct Hg as (? & ? & ? & ? & ? & ?); by repeat split).
  assert (∀ y z, serve_frame st (set_st_offsets y (set_st_offsets z st))) as Hf by (intros; by split; [apply work_frame_same|]).
  destruct (Z.eqb_spec x 0) as [->|]; [split; [exact Hg'|by split; [apply work_frame_same|]]|]. destruct (Z.eqb_spec x PAYLOAD_ABORT) as [->|]; [by split|].
  destruct (Z.ltb_spec x 0); [by rewrite (proj2 (Z.ltb_ge 0 x)) by lia; split|].
  rewrite (proj2 (Z.ltb_lt 0 x)) by lia. apply wp_seq. eapply wp_post, receive_items_ease, Hg.
  intros g2 [[rc2 qp2] st2] [Hg2 Hf2]. split; [done|]. by etrans.
Qed.

Lemma next_proc_ease fuel st g :
  at_ease g →
  safe (CIRCLE_get_next_proc fuel st)
    (λ g' st', at_ease g' ∧ ∃ next seed, next ≠ MPI_ANY_SOURCE ∧ st' = set_st_next_processor next (set_st_seed seed st)) g.
Proof.
  intros Hg. unfold CIRCLE_get_next_proc. destruct (Z.ltb_spec 1 (st_size st)).
  2: { split; [done|]. exists MPI_PROC_NULL, (st_seed st). split; [done|]. by destruct st. }
  apply wp_seq. eapply wp_post with (Q := λ g' x, at_ease g' ∧ 0 ≤ x.1).
  { intros g' [next seed] [Hg' Hpos]. split; [done|]. exists next, seed. split; [|done]. cbn in Hpos.
    unfold MPI_ANY_SOURCE. lia. }
  generalize (st_seed st). induction fuel as [|fuel IH]; intros seed; cbn [next_proc_loop]; [done|].
  apply wp_seq. split; [done|]. intros [v s'] g' [Hv ->]. cbn. destruct (_ =? _); [apply IH|].
  split; [done|]. cbn. apply Z.rem_nonneg; [lia|exact Hv].
Qed.

Lemma request_work_ease fuel abort qp st cleanup g :
  at_ease g → asks_ranks st →
  safe (CIRCLE_request_work fuel abort qp st cleanup)
    (λ g' '(_, _, _, st'), at_ease g' ∧ work_frame st st' ∧ asks_ranks st') g.
Proof.
  intros Hg [H1 H2 H3 H4]. unfold CIRCLE_request_work.
  eapply (free_seq _ _ (λ x, work_requested x.2 = work_requested (st_request st) ∧
    work_requested_rank x.2 = work_requested_rank (st_request st))).
  { unfold test_request_slot. destruct (work_request_req _); [|done].
    by apply quiet_bind, quiet_MPI_Test; intros [f r]. }
  intros [free rq] [Hr1 Hr2]. cbn in Hr1, Hr2. cbn zeta. rewrite <-Hr1, <-Hr2 in H3.
  assert (∀ s, work_frame s (set_st_request rq s)) as Hrq by (intros; by apply work_frame_same).
  destruct (truth (work_requested rq)) eqn:Hreq.
  - apply probe_wp; [done|..].
    + intros g1 Hg1. split; [done|]. split; [done|]. split; [done|done|by intros _; apply H3|done].
    + intros s c g1 Hg1 Hs [<-|Hany]; [|by destruct H3].
      apply wp_seq. eapply wp_post, work_receive_ease; [|done|done].
      intros g2 [[[rc ab] qp2] st2] [Hg2 Hf]. split; [done|]. split.
      * etrans; [apply Hrq|]. etrans; [apply Hf|by apply work_frame_same].
      * destruct (asks_serve _ _ Hf) as [? ? ? ?]; [by split; [..|intros _; apply H3|]|]. by split.
  - destruct (_ && _); [|split; [done|]; split; [done|]; by split; [..|intros H; cbn in H; congruence|]].
    destruct (_ =? MPI_PROC_NULL); [split; [done|]; split; [done|]; by split; [..|intros H; cbn in H; congruence|]|].
    cbn zeta. eapply (free_seq _ _ (λ _, True)); [by split|]. intros r _.
    apply wp_seq. eapply wp_post, next_proc_ease; [|done].
    intros g1 st1 [Hg1 (next & seed & Hnx & ->)]. split; [done|].
    split; [by apply work_frame_same|]. by split.
Qed.

(** ** The final allreduce *)

Lemma reduce_int_ease src (Q : pg → Z → Prop) g :
  wait_pre par p g (ORecv src CIRCLE_TAG_ABORT_REDUCE 1) →
  (∀ v, Q (if g_up g then learnt g else heard g) v) → safe (recv_int src CIRCLE_TAG_ABORT_REDUCE) Q g.
Proof.
  intros Hpre HQ. unfold recv_int. apply wp_seq. split; [exact Hpre|].
  intros [|[|v [|]]|] g' [_ ->]; try done. apply HQ.
Qed.

Lemma hear_children m i flag g :
  g_todo g = drop i (chs p) → (length (chs p) = i + m)%nat → g_up g = false → g_owes g = None →
  safe (abort_reduce_recv m (Z.of_nat i) flag t)
    (λ g' _, g_todo g' = [] ∧ g_up g' = false ∧ g_owes g' = None ∧ g_told g' = g_told g ∧ g_down g' = g_down g) g.
Proof.
  revert i flag g. induction m as [|m IH]; intros i flag g Hd Hl Hup Ho; cbn [abort_reduce_recv].
  { rewrite drop_ge in Hd by lia. done. }
  destruct (lookup_lt_is_Some_2 (chs p) i) as [c Hc]; [lia|].
  rewrite (my_tree_child _ _ _ _ _ _ Ht Hc), bind_ret. rewrite (drop_S _ c) in Hd by done.
  apply wp_seq, reduce_int_ease.
  { split; [done|]. left. by exists (drop (S i) (chs p)). }
  intros v. rewrite Hup. replace (Z.of_nat i + 1) with (Z.of_nat (S i)) by lia.
  apply (IH (S i) _ (heard g)); [cbn; by rewrite Hd|lia|done|done].
Qed.

Lemma tell_children m i l g :
  g_down g = drop i (chs p) → (length (chs p) = i + m)%nat → g_todo g = [] → (p = 0 ∨ g_up g = true) →
  g_owes g = None →
  safe (send_children m (Z.of_nat i) CIRCLE_TAG_ABORT_REDUCE l t) (λ g' _, done_waiting p g') g.
Proof.
  revert i g. induction m as [|m IH]; intros i g Hd Hl Htd Hup Ho; cbn [send_children].
  { rewrite drop_ge in Hd by lia. split; [done|]. split; [done|]. split; [done|]. destruct Hup; [lia|done]. }
  destruct (lookup_lt_is_Some_2 (chs p) i) as [c Hc]; [lia|].
  rewrite (my_tree_child _ _ _ _ _ _ Ht Hc), bind_ret. rewrite (drop_S _ c) in Hd by done.
  split.
  { split; [done|]. intros _. split; [done|]. right. split; [done|]. by exists (drop (S i) (chs p)). }
  intros [] g' ->. cbn [wp prog_bind call].
  assert (bool_decide (p = 0) || g_up g = true) as ->.
  { destruct Hup as [Hup| ->]; [by rewrite bool_decide_true|apply orb_true_r]. }
  replace (Z.of_nat i + 1) with (Z.of_nat (S i)) by lia.
  apply (IH (S i) (told_one g)); [cbn; by rewrite Hd|lia|done..].
Qed.

Lemma abort_reduce_ease abort a g : at_ease g → safe (CIRCLE_abort_reduce abort t a) (λ g' _, done_waiting p g') g.
Proof.
  intros (Ho & _ & Htd & Hup & Htold & Hdn). unfold CIRCLE_abort_reduce.
  rewrite (mt_parent _ Ht), (mt_children _ Ht), Nat2Z.id. apply wp_seq.
  eapply wp_post, (hear_children _ 0); [|done..].
  clear Ho Htd Hup. intros g1 flag (Htd & Hup & Ho & Htold' & Hdn'). apply wp_seq.
  eapply wp_post with (Q := λ (g' : pg) _,
    g_todo g' = [] ∧ (p = 0 ∨ g_up g' = true) ∧ g_owes g' = None ∧ g_down g' = chs p).
  { intros g2 flag2 (Htd2 & Hup2 & Ho2 & Hdn2). apply wp_seq.
    eapply wp_post, (tell_children _ 0); [|done..]. by intros g3 [] H3. }
  unfold is_rank in Hp. case_decide as H0.
  - rewrite Z.eqb_refl. cbn [negb]. split; [done|]. split; [by left|]. split; [done|congruence].
  - pose proof (par_lt p). rewrite (proj2 (Z.eqb_neq _ _)) by (unfold MPI_PROC_NULL; lia). cbn [negb]. split.
    { split; [done|]. intros _. split; [done|]. left. split; [lia|done]. }
    intros [] g2 ->. cbn [prog_bind call]. rewrite bool_decide_false, Hup, Z.eqb_refl by done. cbn [orb].
    apply reduce_int_ease.
    + split; [done|]. right. split; [lia|]. split; [done|]. split; [done|]. cbn. congruence.
    + intros v. cbn. split; [done|]. split; [by right|]. split; [done|congruence].
Qed.
End code.

(** ** Rounds of the worker *)

Section rounds.
Context (n : Z) (par : Z → Z) (chs : Z → list Z) `{!IsTree n par chs}.
Context (p : Z) (Hp : is_rank n p).

Abbreviation safe t Q g := (wp (net_protocol (wait_pre par) (wait_post n) p) t Q (λ _ _, True) g).
Abbreviation at_ease := (at_ease chs p).

Record wait_rel (st : CIRCLE_state_st) : Prop := WaitRel {
  wr_tree : my_tree par chs p (st_tree st);
  wr_asks : asks_ranks st;
}.

Lemma wait_rel_work st st' : work_frame st st' → asks_ranks st' → wait_rel st → wait_rel st'.
Proof. intros [[Ht _] _] Ha [H1 _]. split; [by rewrite Ht|done]. Qed.

(** An assignment to a part of the state nobody waits on. *)
Lemma wait_rel_same st st' :
  st_tree st' = st_tree st → token_src (st_token st') = token_src (st_token st) →
  st_next_processor st' = st_next_processor st → st_request st' = st_request st → st_reduce st' = st_reduce st →
  wait_rel st → wait_rel st'.
Proof.
  intros H1 H3 H4 H5 H6 [? []]. split; [by rewrite H1|].
  split; by rewrite ?H3, ?H4, ?H5, ?H6.
Qed.

Lemma serve_ease cleanup G st g :
  at_ease g → wait_rel st → safe (serve_requests cleanup G st) (λ g' '(_, st'), at_ease g' ∧ wait_rel st') g.
Proof.
  intros Hg Hw. unfold serve_requests, the_queue. destruct (queue _) as [qp|]; [|done].
  cbn [deref mbind prog_mbind prog_bind]. apply wp_seq. eapply wp_post, workreq_check_ease, Hg.
  intros g' [qp' st'] [Hg' Hf]. split; [done|]. eapply wait_rel_work; [apply Hf|by eapply asks_serve, Hw|done].
Qed.

Lemma reap_ease st g :
  at_ease g → wait_rel st → safe (reap_sends st) (λ g' st', at_ease g' ∧ wait_rel st') g.
Proof.
  intros Hg Hw. unfold reap_sends. eapply free_seq; [by apply (quiet_check _ (λ _, True))|].
  intros sn _. split; [done|]. by eapply wait_rel_same, Hw.
Qed.

Lemma check_abort_ease cleanup G st g :
  at_ease g → wait_rel st → safe (check_abort cleanup G st) (λ g' '(_, st'), at_ease g' ∧ wait_rel st') g.
Proof.
  intros Hg Hw. unfold check_abort. apply wp_seq. eapply wp_post, abort_check_ease, Hg.
  intros g' [ab a] Hg'. split; [done|]. by eapply wait_rel_same, Hw.
Qed.

Lemma no_reduction fuel cleanup G st : wait_rel st → check_reduce fuel cleanup G st = mret (G, st).
Proof. intros Hw. unfold check_reduce. by rewrite (ak_reduce _ (wr_asks _ Hw)). Qed.

Lemma request_ease fuel cleanup G st g :
  at_ease g → wait_rel st → safe (request_work fuel cleanup G st) (λ g' '(_, st'), at_ease g' ∧ wait_rel st') g.
Proof.
  intros Hg Hw. unfold request_work, the_queue. destruct (queue _) as [qp|]; [|done].
  cbn [deref mbind prog_mbind prog_bind]. apply wp_seq. eapply wp_post, request_work_ease; [|done|apply Hw].
  intros g' [[[rc ab] qp'] st'] (Hg' & Hf & Ha). split; [done|]. by eapply wait_rel_work.
Qed.

Lemma termination_ease G st g :
  at_ease g → wait_rel st → safe (check_termination G st) (λ g' '(_, st'), at_ease g' ∧ wait_rel st') g.
Proof.
  intros Hg Hw. unfold check_termination. destruct (truth _); apply wp_seq.
  - eapply wp_post, (term_ease n par chs p Hp _ (wr_tree _ Hw)), Hg. intros g' [status s] Hg'. split; [done|]. by eapply wait_rel_same, Hw.
  - eapply wp_post, (check_for_term_ease n par chs p); [|done|apply Hw]. intros g' [status tk] [Hg' Hs]. split; [done|].
    by eapply wait_rel_same, Hw.
Qed.

Lemma round_ease fuel G st g :
  at_ease g → wait_rel st → safe (work_round fuel G st) (λ g' '(_, _, st'), at_ease g' ∧ wait_rel st') g.
Proof.
  intros Hg Hw. unfold work_round.
  apply wp_seq. eapply wp_post, serve_ease; [|done..]. clear g G st Hg Hw. intros g [G st] [Hg Hw].
  apply wp_seq. eapply wp_post, receipt_check_ease, Hg. clear g Hg. intros g st1 [Hg [s ->]].
  assert (wait_rel (set_st_term s st)) as Hw1 by (by eapply wait_rel_same, Hw).
  apply wp_seq. eapply wp_post, reap_ease; [|done..]. clear g st Hg Hw Hw1. intros g st [Hg Hw].
  apply wp_seq. eapply wp_post, check_abort_ease; [|done..]. clear g G st Hg Hw. intros g [G st] [Hg Hw].
  rewrite (no_reduction _ _ _ _ Hw), bind_ret. unfold the_queue.
  destruct (queue (CIRCLE_INPUT_ST G)) as [q|]; [|done]. cbn [deref mbind prog_mbind prog_bind].
  apply wp_seq. eapply wp_post with (Q := λ g' '(_, st'), at_ease g' ∧ wait_rel st').
  2: { destruct (_ =? 0); [by apply request_ease|done]. }
  clear g G st q Hg Hw. intros g [G st] [Hg Hw].
  destruct (queue (CIRCLE_INPUT_ST G)) as [q|]; [|done]. cbn [deref mbind prog_mbind prog_bind].
  destruct (_ && _).
  - eapply free_seq with (Φ := λ _, True).
    { unfold call_cb. destruct (process_cb _) as [u|]; [|done].
      eapply quiet_mono; [|by apply quiet_user]. done. }
    intros G' _. eapply free_seq; [by apply (quiet_i32 _ (λ _, True))|]. intros x _. split; [done|].
    by eapply wait_rel_same, Hw.
  - apply wp_seq. eapply wp_post, termination_ease; [intros g' [status st'] H; exact H|done..].
Qed.

Lemma rounds_ease m fuel G st g :
  at_ease g → wait_rel st → safe (work_rounds m fuel G st) (λ g' '(_, st'), at_ease g' ∧ wait_rel st') g.
Proof.
  revert g G st. induction m as [|m IH]; intros g G st Hg Hw; cbn [work_rounds]; [done|].
  apply wp_seq. eapply wp_post, round_ease; [|done..]. intros g' [[[] G'] st'] [Hg' Hw']; [done|by apply IH].
Qed.

(** ** After the main loop *)

Lemma cleanup_round_ease fuel G st g :
  at_ease g → wait_rel st → safe (cleanup_round fuel G st) (λ g' '(_, _, st'), at_ease g' ∧ wait_rel st') g.
Proof.
  intros Hg Hw. unfold cleanup_round. cbn zeta. set (st0 := if drained st then _ else st).
  assert (wait_rel st0) as Hw0 by (subst st0; destruct (drained st); [by eapply wait_rel_same, Hw|done]).
  clearbody st0. clear st Hw. apply wp_seq. eapply wp_post, (barrier_ease n par chs p Hp _ (wr_tree _ Hw0)), Hg.
  clear g Hg. intros g [done b] Hg. assert (wait_rel (set_st_barrier b st0)) as Hw by (by eapply wait_rel_same, Hw0).
  clear Hw0. generalize dependent (set_st_barrier b st0). clear st0. intros st Hw. cbn zeta.
  destruct (truth done); [done|]. clear done.
  apply wp_seq. eapply wp_post, serve_ease; [|done..]. clear g G st Hg Hw. intros g [G st] [Hg Hw].
  apply wp_seq. eapply wp_post, reap_ease; [|done..]. clear g st Hg Hw. intros g st [Hg Hw].
  rewrite (no_reduction _ _ _ _ Hw), bind_ret.
  apply wp_seq. eapply wp_post, request_ease; [|done..]. clear g G st Hg Hw. intros g [G st] [Hg Hw].
  apply wp_seq. eapply wp_post, check_abort_ease; [|done..]. clear g G st Hg Hw. intros g [G st] [Hg Hw].
  destruct (negb _); [|done]. apply wp_seq. eapply wp_post, (token_check_ease n par chs p); [|done|apply Hw].
  clear g Hg. intros g tk [Hg Hs].
  eapply (free_calls n par p) with (Φ := λ x, wait_rel x.2); [|by intros [[stop G'] st'] Hw'].
  unfold test_token. destruct (token_send_req tk); cbn [quiet].
  - apply quiet_bind, quiet_bind, quiet_MPI_Test. intros [f r]. by eapply wait_rel_same, Hw.
  - by eapply wait_rel_same, Hw.
Qed.

Lemma cleanup_ease m fuel G st g :
  at_ease g → wait_rel st → safe (cleanup_rounds m fuel G st) (λ g' '(_, st'), at_ease g' ∧ wait_rel st') g.
Proof.
  revert g G st. induction m as [|m IH]; intros g G st Hg Hw; cbn [cleanup_rounds]; [done|].
  apply wp_seq. eapply wp_post, cleanup_round_ease; [|done..].
  intros g' [[[] G'] st'] [Hg' Hw']; [done|by apply IH].
Qed.

Lemma rest_ease fuel rank size G st g :
  at_ease g → wait_rel st → safe (worker_rest fuel (rank, size, G, st)) (λ g' _, done_waiting p g') g.
Proof.
  intros Hg Hw. unfold worker_rest, finish_loop, mbind, prog_mbind.
  apply wp_seq, wp_seq. eapply wp_post, cleanup_ease; [|done..]. clear g G st Hg Hw. intros g [G st] [Hg Hw].
  unfold finish_sync. eapply free_seq; [by apply (quiet_wait _ _ (λ _, True))|]. intros [r sn] _. cbn zeta.
  pose proof (ak_reduce _ (wr_asks _ Hw)) as Hred.
  change (truth (reduce_enabled (st_reduce (upd_request (set_work_request_req r) (set_st_send sn st)))))
    with (truth (reduce_enabled (st_reduce st))).
  rewrite Hred, bind_ret. apply wp_seq. eapply wp_post, (abort_reduce_ease n par chs p Hp _ (wr_tree _ Hw)), Hg.
  intros g1 [ab a] Hdone. cbn [wp mret prog_mret].
  eapply (free_calls n par p) with (Φ := λ _, True); [|by intros].
  by apply quiet_worker_end.
Qed.

(** ** The start *)

(** No reductions were asked for. *)
Definition no_reductions (G : globals) : Prop :=
  SFltb (S754_zero false) (double_of_int (reduce_period (CIRCLE_INPUT_ST G))) = false.

Lemma ring_prev_source : ring_prev n p ≠ MPI_ANY_SOURCE.
Proof.
  unfold is_rank in Hp. pose proof (Z.rem_nonneg (p - 1 + n) n). unfold ring_prev, MPI_ANY_SOURCE. lia.
Qed.

Lemma init_ease k fuel G junk g :
  (∀ t, tree_rep t n k p → my_tree par chs p t) → tree_width (CIRCLE_INPUT_ST G) = k → 1 ≤ k →
  p * k + k ≤ INT32_MAX → no_reductions G → at_ease g →
  safe (CIRCLE_init_local_state fuel G junk) (λ g' st, at_ease g' ∧ wait_rel st) g.
Proof.
  intros Htree Hw Hk Hmax Hr Hg. unfold CIRCLE_init_local_state, the_queue, mbind, prog_mbind.
  split; [done|]. intros r g1 [-> ->]. split; [done|]. intros s g1 [-> ->]. cbn [prog_bind].
  eapply (free_seq n par p); [by apply (quiet_init_token _ _ _ (λ tk, token_src tk = ring_prev n p))|]. intros tk Htk.
  destruct (queue _) as [q|]; [|done]. cbn [deref prog_bind].
  eapply (free_seq n par p); [by apply (quiet_init_offsets _ (λ _, True))|]. intros o _.
  split; [done|]. intros rp g1 ->. cbn [prog_bind].
  apply wp_seq. eapply wp_post, next_proc_ease, Hg. cbn beta. clear g Hg.
  intros g st [Hg (next & seed & Hnext & ->)].
  eapply (free_seq n par p); [by rewrite Hw; apply quiet_tree_init|]. intros t Ht. cbn beta.
  split; [done|]. intros now g1 ->. cbn [prog_bind].
  eapply (free_calls n par p) with (Φ := wait_rel); [|done].
  apply quiet_bind, quiet_init_abort. intros a. split; [by apply Htree|]. split; cbn.
  - rewrite Htk. apply ring_prev_source.
  - done.
  - done.
  - unfold no_reductions in Hr. by rewrite Hr.
Qed.
End rounds.
