(* ===== verification/AbortAgree.v ===== *)
(** * All ranks agree on an abort

    Every rank of a job runs CIRCLE_abort_reduce: the protocol of one
    process in the allreduce, the invariant of all, and the theorem that
    every rank ends with the bitwise or of all flags. *)
From S2P Require Import Prelude CMonad Mem Wire Tree State Mpi Network Ranks Barrier Term Abort.

(** The ghost state of a process: the flag so far, the children whose flag is
    still missing, whether its own went to the parent, the result it was told,
    the children that still have to be told. *)
Record ar : Type := AR {
  r_val : Z;
  r_todo : list Z;
  r_up : bool;
  r_res : option Z;
  r_down : list Z;
}.

Section agree.
Context (n : Z) (par : Z → Z) (chs : Z → list Z) `{!IsTree n par chs}.
Context (flags : Z → Z).

Abbreviation is_rank := (is_rank n).
Abbreviation ghosts := (Z → ar).
Abbreviation links := (Z → Z → list payload).

Definition take_g (v : Z) (g : ar) : ar :=
  AR (Z.lor (r_val g) v) (tail (r_todo g)) (r_up g) (r_res g) (r_down g).
Definition up_g (g : ar) : ar := AR (r_val g) (r_todo g) true (r_res g) (r_down g).
Definition learn_g (v : Z) (g : ar) : ar := AR (r_val g) (r_todo g) (r_up g) (Some v) (r_down g).
Definition tell_g (g : ar) : ar := AR (r_val g) (r_todo g) (r_up g) (r_res g) (tail (r_down g)).

(** The result as far as process [p] knows it. *)
Definition known (p : Z) (g : ar) : option Z :=
  if decide (p = 0) then match r_todo g with [] => Some (r_val g) | _ => None end else r_res g.

Definition ar_pre (p : Z) (g : ar) (o : op) : Prop :=
  match o with
  | ORecv src tag _ => tag = CIRCLE_TAG_ABORT_REDUCE ∧
      ((∃ rest, r_todo g = src :: rest ∧ r_up g = false) ∨
       (0 < p ∧ src = par p ∧ r_up g = true ∧ r_res g = None))
  | OSend dst tag m => tag = CIRCLE_TAG_ABORT_REDUCE ∧
      ((0 < p ∧ dst = par p ∧ r_todo g = [] ∧ r_up g = false ∧ m = Ints [r_val g]) ∨
       (∃ v rest, (p = 0 ∨ r_up g = true) ∧ r_down g = dst :: rest ∧ known p g = Some v ∧ m = Ints [v]))
  | _ => False
  end.

Definition ar_post (p : Z) (g : ar) (o : op) : ans o → ar → Prop :=
  match o return ans o → ar → Prop with
  | ORecv _ _ _ => λ m g', ∃ v, m = Ints [v] ∧ g' = if r_up g then learn_g v g else take_g v g
  | OSend _ _ _ => λ _ g', g' = if bool_decide (p = 0) || r_up g then tell_g g else up_g g
  | _ => λ _ _, False
  end.

(** ** The invariant *)

(** [x] has taken in [y]. *)
Definition absorbs (x y : Z) : Prop := Z.lor x y = x.

Definition all_flags : Z := foldr (λ q a, Z.lor (flags q) a) 0 (seqZ 0 n).

Definition up_edge (gh : ghosts) (T : links) (c : Z) : Prop :=
  let p := par c in
  (r_up (gh c) = false ∧ T c p = [] ∧ c ∈ r_todo (gh p)) ∨
  (r_up (gh c) = true ∧ T c p = [Ints [r_val (gh c)]] ∧ c ∈ r_todo (gh p)) ∨
  (r_up (gh c) = true ∧ T c p = [] ∧ c ∉ r_todo (gh p) ∧ absorbs (r_val (gh p)) (r_val (gh c))).

Definition down_edge (gh : ghosts) (T : links) (c : Z) : Prop :=
  let p := par c in
  (r_res (gh c) = None ∧ T p c = [] ∧ c ∈ r_down (gh p)) ∨
  (∃ v, r_res (gh c) = None ∧ T p c = [Ints [v]] ∧ c ∉ r_down (gh p) ∧ known p (gh p) = Some v) ∨
  (∃ v, r_res (gh c) = Some v ∧ T p c = [] ∧ c ∉ r_down (gh p) ∧ known p (gh p) = Some v).

Record node (p : Z) (g : ar) : Prop := Node {
  nd_todo : NoDup (r_todo g) ∧ ∀ c, c ∈ r_todo g → c ∈ chs p;
  nd_down : NoDup (r_down g) ∧ ∀ c, c ∈ r_down g → c ∈ chs p;
  nd_up : r_up g = true → 0 < p ∧ r_todo g = [];
  nd_res : r_up g = false → r_res g = None;
  nd_own : absorbs (r_val g) (flags p);
  nd_all : absorbs all_flags (r_val g);
}.

Record ar_inv_on (gh : ghosts) (T : links) : Prop := ArInv {
  ai_up : ∀ c, 0 < c < n → up_edge gh T c;
  ai_down : ∀ c, 0 < c < n → down_edge gh T c;
  ai_node : ∀ p, is_rank p → node p (gh p);
}.

Definition ar_inv (gh : ghosts) (ch : channels) : Prop :=
  ar_inv_on gh (λ a b, ch (a, b, CIRCLE_TAG_ABORT_REDUCE)).

(** ** Steps *)

Lemma absorbs_refl x : absorbs x x.
Proof. apply Z.lor_diag. Qed.
Lemma absorbs_l x y z : absorbs x z → absorbs (Z.lor x y) z.
Proof. unfold absorbs. intros H. by rewrite <-Z.lor_assoc, (Z.lor_comm y), Z.lor_assoc, H. Qed.
Lemma absorbs_r x y : absorbs (Z.lor x y) y.
Proof. unfold absorbs. by rewrite <-Z.lor_assoc, Z.lor_diag. Qed.
Lemma absorbs_lor x y z : absorbs x y → absorbs x z → absorbs x (Z.lor y z).
Proof. unfold absorbs. intros Hy Hz. by rewrite Z.lor_assoc, Hy. Qed.
Lemma absorbs_trans x y z : absorbs x y → absorbs y z → absorbs x z.
Proof. unfold absorbs. intros Hx Hy. rewrite <-Hx at 1. by rewrite <-Z.lor_assoc, Hy. Qed.
Lemma absorbs_antisym x y : absorbs x y → absorbs y x → x = y.
Proof. unfold absorbs. intros Hx Hy. rewrite <-Hx. by rewrite Z.lor_comm, Hy. Qed.

(** Only the edges at [p] change when [p] moves. *)
Lemma inv_move gh p g' (T T' : links) :
  ar_inv_on gh T → is_rank p → node p g' →
  (∀ x, 0 < x < n → x ≠ p → par x ≠ p → T' x (par x) = T x (par x) ∧ T' (par x) x = T (par x) x) →
  (0 < p → up_edge (<[p := g']> gh) T' p ∧ down_edge (<[p := g']> gh) T' p) →
  (∀ x, x ∈ chs p → up_edge (<[p := g']> gh) T' x ∧ down_edge (<[p := g']> gh) T' x) →
  ar_inv_on (<[p := g']> gh) T'.
Proof.
  intros Hi Hp Hnode HT Hself Hch.
  assert (∀ x, 0 < x < n → up_edge (<[p := g']> gh) T' x ∧ down_edge (<[p := g']> gh) T' x) as He.
  { intros x Hx. destruct (decide (x = p)) as [->|Hne]; [apply Hself; lia|].
    destruct (decide (par x = p)) as [Hpar|Hpar].
    { apply Hch, chs_spec. done. }
    destruct (HT x Hx Hne Hpar) as [H1 H2]. unfold up_edge, down_edge.
    rewrite !fn_lookup_insert_ne, H1, H2 by done. split; [by apply ai_up|by apply ai_down]. }
  split; [intros x Hx; apply He, Hx|intros x Hx; apply He, Hx|].
  intros x Hx. moved x p; [done|]. by apply ai_node with (T := T).
Qed.

(** The parts of an edge that a move of [p] leaves as they are. *)
Lemma own_up_same gh T T' p g' :
  0 < p < n → up_edge gh T p → r_up g' = r_up (gh p) → (r_up g' = true → r_val g' = r_val (gh p)) →
  T' p (par p) = T p (par p) → up_edge (<[p := g']> gh) T' p.
Proof.
  intros Hp He Hup Hv HT. pose proof (par_lt p Hp). unfold up_edge in *.
  rewrite fn_lookup_insert, fn_lookup_insert_ne, HT, Hup by lia.
  destruct He as [?|[(Hu&?&?)|(Hu&?&?&?)]]; [by left|right; left|right; right];
    rewrite Hu in *; rewrite Hv by congruence; done.
Qed.

Lemma own_down_same gh T T' p g' :
  0 < p < n → down_edge gh T p → r_res g' = r_res (gh p) → T' (par p) p = T (par p) p →
  down_edge (<[p := g']> gh) T' p.
Proof.
  intros Hp He Hr HT. pose proof (par_lt p Hp). unfold down_edge in *.
  by rewrite fn_lookup_insert, fn_lookup_insert_ne, HT, Hr by lia.
Qed.

Lemma child_up_same gh T T' p x g' :
  x ∈ chs p → up_edge gh T x → (x ∈ r_todo g' ↔ x ∈ r_todo (gh p)) →
  absorbs (r_val g') (r_val (gh p)) → T' x p = T x p → up_edge (<[p := g']> gh) T' x.
Proof.
  intros Hx He Hd Ha HT. destruct (child_facts p x Hx) as (Hxn & Hxp & Hxl). unfold up_edge in *.
  rewrite Hxp in *. rewrite fn_lookup_insert, fn_lookup_insert_ne, HT, Hd by lia.
  destruct He as [?|[?|(?&?&?&?)]]; [by left|by right; left|right; right].
  eauto using absorbs_trans.
Qed.

Lemma child_down_same gh T T' p x g' :
  x ∈ chs p → down_edge gh T x → (x ∈ r_down g' ↔ x ∈ r_down (gh p)) →
  known p (gh p) = None ∨ known p g' = known p (gh p) → T' p x = T p x →
  down_edge (<[p := g']> gh) T' x.
Proof.
  intros Hx He Hd Hk HT. destruct (child_facts p x Hx) as (Hxn & Hxp & Hxl). unfold down_edge in *.
  rewrite Hxp in *. rewrite fn_lookup_insert, fn_lookup_insert_ne, HT, Hd by lia.
  destruct He as [?|[(v&?&?&?&Hv)|(v&?&?&?&Hv)]]; [by left|right; left|right; right];
    exists v; (destruct Hk as [Hk|Hk]; [congruence|by rewrite Hk, Hd]).
Qed.

Lemma ar_step_take gh T T' p c rest m l :
  ar_inv_on gh T → is_rank p → r_todo (gh p) = c :: rest → r_up (gh p) = false → T c p = m :: l →
  T' c p = l → (∀ a b, (a, b) ≠ (c, p) → T' a b = T a b) →
  ∃ v, m = Ints [v] ∧ ar_inv_on (<[p := take_g v (gh p)]> gh) T'.
Proof.
  intros Hi Hp Hd Hup HT HT' HTo. pose proof (ai_node _ _ Hi p Hp) as [[Hnd Hsub] Hdn Hnu Hnr Hown Hall].
  destruct (child_facts p c) as (Hc & Hpar & Hlt); [apply Hsub; rewrite Hd; left|].
  rewrite Hd in Hnd. apply NoDup_cons in Hnd as [Hnin Hnd].
  pose proof (ai_up _ _ Hi c Hc) as Hu. unfold up_edge in Hu. rewrite Hpar in Hu.
  destruct Hu as [(_&Hu&_)|[(Hcu&Hu&_)|(_&Hu&_)]]; [congruence| |congruence].
  rewrite HT in Hu. injection Hu as -> ->. exists (r_val (gh c)). split; [done|].
  apply (inv_move _ _ _ T); [done|done| | | |].
  - split; simpl; rewrite ?Hd; simpl; [|done| |done| |].
    + split; [done|]. intros x Hx. apply Hsub. rewrite Hd. by right.
    + rewrite Hup. done.
    + by apply absorbs_l.
    + apply absorbs_lor; [done|]. apply (ai_node _ _ Hi c). unfold Network.is_rank. lia.
  - intros x Hx Hne Hne'. split; apply HTo; intros [=]; congruence.
  - intros Hp0. destruct Hp as [_ Hpn]. pose proof (par_lt p). split.
    + apply (own_up_same _ T); [lia|by apply ai_up| |simpl; congruence|]; [done|].
      apply HTo. intros [=]. lia.
    + apply (own_down_same _ T); [lia|by apply ai_down|done|]. apply HTo. intros [=]. lia.
  - intros x Hx. destruct (child_facts p x Hx) as (Hxn & Hxp & Hxl). split.
    + destruct (decide (x = c)) as [->|Hxc].
      * right. right. rewrite Hxp, fn_lookup_insert, fn_lookup_insert_ne, HT' by lia. simpl. rewrite Hd.
        auto using absorbs_r.
      * apply (child_up_same _ T); [done|by apply ai_up| | |by apply HTo; congruence]; simpl.
        { rewrite Hd, elem_of_cons. naive_solver. }
        apply absorbs_l, absorbs_refl.
    + apply (child_down_same _ T); [done|by apply ai_down|done| |apply HTo; intros [=]; lia].
      left. unfold known. rewrite Hd, (Hnr Hup). by case_decide.
Qed.

Lemma ar_step_up gh T T' p :
  ar_inv_on gh T → 0 < p < n → r_todo (gh p) = [] → r_up (gh p) = false →
  T' p (par p) = T p (par p) ++ [Ints [r_val (gh p)]] →
  (∀ a b, (a, b) ≠ (p, par p) → T' a b = T a b) →
  ar_inv_on (<[p := up_g (gh p)]> gh) T'.
Proof.
  intros Hi Hp Hd Hup HT' HTo. pose proof (par_lt p Hp).
  pose proof (ai_node _ _ Hi p ltac:(unfold Network.is_rank; lia)) as [Hnd Hdn Hnu Hnr Hown Hall].
  apply (inv_move _ _ _ T); [done|unfold Network.is_rank; lia| | | |].
  - split; simpl; try done. by intros _; split; [lia|].
  - intros x Hx Hne Hne'. split; apply HTo; intros [=]; congruence.
  - intros _. split.
    + pose proof (ai_up _ _ Hi p Hp) as Hu. unfold up_edge in *.
      rewrite fn_lookup_insert, fn_lookup_insert_ne, HT' by lia. simpl.
      destruct Hu as [(_ & -> & ?)|[[? _]|[? _]]]; [by right; left|congruence..].
    + apply (own_down_same _ T); [lia|by apply ai_down|done|]. apply HTo. intros [=]; lia.
  - intros x Hx. destruct (child_facts p x Hx) as (Hxn & Hxp & Hxl). split.
    + apply (child_up_same _ T); [done|by apply ai_up|done|apply absorbs_refl|]. apply HTo. intros [=]; lia.
    + apply (child_down_same _ T); [done|by apply ai_down|done| |apply HTo; intros [=]; lia].
      right. unfold known. by rewrite !decide_False by lia.
Qed.

Lemma ar_step_learn gh T T' p m l :
  ar_inv_on gh T → 0 < p < n → r_up (gh p) = true → r_res (gh p) = None → T (par p) p = m :: l →
  T' (par p) p = l → (∀ a b, (a, b) ≠ (par p, p) → T' a b = T a b) →
  ∃ v, m = Ints [v] ∧ ar_inv_on (<[p := learn_g v (gh p)]> gh) T'.
Proof.
  intros Hi Hp Hup Hr HT HT' HTo. pose proof (par_lt p Hp).
  pose proof (ai_node _ _ Hi p ltac:(unfold Network.is_rank; lia)) as [Hnd Hdn Hnu Hnr Hown Hall].
  pose proof (ai_down _ _ Hi p Hp) as Hu. unfold down_edge in Hu.
  destruct Hu as [(_&Hu&_)|[(v&_&Hu&Hnin&Hk)|(v&Hu&_)]]; [congruence| |congruence].
  rewrite HT in Hu. injection Hu as -> ->. exists v. split; [done|].
  apply (inv_move _ _ _ T); [done|unfold Network.is_rank; lia| | | |].
  - split; try done. simpl. congruence.
  - intros x Hx Hne Hne'. split; apply HTo; intros [=]; congruence.
  - intros _. split.
    + apply (own_up_same _ T); [lia|by apply ai_up|done|done|]. apply HTo. intros [=]; lia.
    + unfold down_edge. right. right. exists v.
      by rewrite fn_lookup_insert, fn_lookup_insert_ne, HT' by lia.
  - intros x Hx. destruct (child_facts p x Hx) as (Hxn & Hxp & Hxl). split.
    + apply (child_up_same _ T); [done|by apply ai_up|done|apply absorbs_refl|]. apply HTo. intros [=]; lia.
    + apply (child_down_same _ T); [done|by apply ai_down|done| |apply HTo; intros [=]; lia].
      left. unfold known. by rewrite !decide_False by lia.
Qed.

Lemma ar_step_tell gh T T' p d rest v :
  ar_inv_on gh T → is_rank p → r_down (gh p) = d :: rest → known p (gh p) = Some v →
  T' p d = T p d ++ [Ints [v]] → (∀ a b, (a, b) ≠ (p, d) → T' a b = T a b) →
  ar_inv_on (<[p := tell_g (gh p)]> gh) T'.
Proof.
  intros Hi Hp Hd Hk HT' HTo.
  pose proof (ai_node _ _ Hi p Hp) as [Hnd [Hdn Hsub] Hnu Hnr Hown Hall].
  destruct (child_facts p d) as (Hc & Hpar & Hlt); [apply Hsub; rewrite Hd; left|].
  rewrite Hd in Hdn. apply NoDup_cons in Hdn as [Hnin Hdn].
  apply (inv_move _ _ _ T); [done|done| | | |].
  - split; try done. simpl. rewrite Hd. simpl. split; [done|]. intros x Hx. apply Hsub. rewrite Hd. by right.
  - intros x Hx Hne Hne'. split; apply HTo; intros [=]; congruence.
  - intros Hp0. destruct Hp as [_ Hpn]. pose proof (par_lt p). split.
    + apply (own_up_same _ T); [lia|by apply ai_up|done|done|]. apply HTo. intros [=]; lia.
    + apply (own_down_same _ T); [lia|by apply ai_down|done|]. apply HTo. intros [=]; lia.
  - intros x Hx. destruct (child_facts p x Hx) as (Hxn & Hxp & Hxl). split.
    + apply (child_up_same _ T); [done|by apply ai_up|done|apply absorbs_refl|]. apply HTo. intros [=]; lia.
    + destruct (decide (x = d)) as [->|Hxd].
      * pose proof (ai_down _ _ Hi d Hxn) as Hu. unfold down_edge in *. rewrite Hxp in *.
        rewrite fn_lookup_insert, fn_lookup_insert_ne, HT' by lia. simpl. rewrite Hd in *. simpl.
        destruct Hu as [(? & -> & _)|[(?&_&_&Hn&_)|(?&_&_&Hn&_)]]; [|by destruct Hn; left..].
        right. left. exists v. done.
      * apply (child_down_same _ T); [done|by apply ai_down| |by right|apply HTo; congruence].
        simpl. rewrite Hd, elem_of_cons. naive_solver.
Qed.

Lemma ar_inv_step gh ch p o r ch' :
  is_rank p → ar_inv gh ch → ar_pre p (gh p) o → net_answer n p ch o r ch' →
  ∃ g', ar_post p (gh p) o r g' ∧ ar_inv (<[p := g']> gh) ch'.
Proof.
  intros Hp Hi Hpre Ha. destruct o; try done; cbn in Hpre, Ha |- *.
  - destruct Ha as (Hsrc & l & Hch & ->), Hpre as [-> [(rest & Hd & Hup)|(Hp0 & -> & Hup & Hr)]]; rewrite Hup.
    + destruct (ar_step_take gh _ (λ a b, <[(src, p, CIRCLE_TAG_ABORT_REDUCE) := l]> ch (a, b, CIRCLE_TAG_ABORT_REDUCE))
        p src rest r l Hi Hp Hd Hup Hch) as (v & -> & Hi').
      { apply fn_lookup_insert. }
      { intros a b Hne. apply fn_lookup_insert_ne. congruence. }
      eexists. split; [by exists v|exact Hi'].
    + destruct (ar_step_learn gh _ (λ a b, <[(par p, p, CIRCLE_TAG_ABORT_REDUCE) := l]> ch (a, b, CIRCLE_TAG_ABORT_REDUCE))
        p r l Hi ltac:(unfold Network.is_rank in *; lia) Hup Hr Hch) as (v & -> & Hi').
      { apply fn_lookup_insert. }
      { intros a b Hne. apply fn_lookup_insert_ne. congruence. }
      eexists. split; [by exists v|exact Hi'].
  - subst ch'. eexists. split; [reflexivity|].
    destruct Hpre as [-> [(Hp0 & -> & Hd & Hup & ->)|(v & rest & Hup & Hd & Hk & ->)]].
    + rewrite bool_decide_false, Hup by lia. simpl.
      eapply (ar_step_up gh (λ a b, ch (a, b, CIRCLE_TAG_ABORT_REDUCE)));
        [exact Hi|unfold Network.is_rank in *; lia|done|done|apply fn_lookup_insert|].
      intros a b Hne. apply fn_lookup_insert_ne. congruence.
    + assert (bool_decide (p = 0) || r_up (gh p) = true) as ->.
      { destruct Hup as [Hup| ->]; [by rewrite bool_decide_true|apply orb_true_r]. }
      eapply (ar_step_tell gh (λ a b, ch (a, b, CIRCLE_TAG_ABORT_REDUCE)));
        [exact Hi|done|exact Hd|exact Hk|apply fn_lookup_insert|].
      intros a b Hne. apply fn_lookup_insert_ne. congruence.
Qed.

(** ** The result *)

Lemma absorbs_fold x l :
  (∀ q, q ∈ l → absorbs x (flags q)) → absorbs x (foldr (λ q a, Z.lor (flags q) a) 0 l).
Proof.
  induction l as [|q l IH]; intros H; [apply Z.lor_0_r|]. simpl.
  apply absorbs_lor; [apply H; by left|apply IH; intros; apply H; by right].
Qed.

Lemma fold_absorbs l p :
  p ∈ l → absorbs (foldr (λ q a, Z.lor (flags q) a) 0 l) (flags p).
Proof.
  induction l as [|q l IH]; intros H; [by apply elem_of_nil in H|]. simpl.
  apply elem_of_cons in H as [->|H]; [apply absorbs_l, absorbs_refl|].
  rewrite Z.lor_comm. by apply absorbs_l, IH.
Qed.

(** When the root has heard all its children, it has heard everybody. *)
Lemma all_taken gh T p :
  ar_inv_on gh T → r_todo (gh 0) = [] → is_rank p →
  r_todo (gh p) = [] ∧ absorbs (r_val (gh 0)) (r_val (gh p)).
Proof.
  intros Hi H0. revert p. apply rank_ind; [split; [done|apply absorbs_refl]|].
  intros p Hp [IHd IHa]. pose proof (ai_up _ _ Hi p Hp) as He. unfold up_edge in He. rewrite IHd in He.
  destruct He as [(_&_&He)|[(_&_&He)|(Hup&_&_&Ha)]]; [by apply elem_of_nil in He..|].
  split; [|by eapply absorbs_trans].
  apply (ai_node _ _ Hi p); [unfold Network.is_rank; lia|done].
Qed.

Lemma root_all gh T :
  ar_inv_on gh T → r_todo (gh 0) = [] → r_val (gh 0) = all_flags.
Proof.
  intros Hi H0. apply absorbs_antisym; [|apply (ai_node _ _ Hi), is_rank_0].
  apply absorbs_fold. intros q Hq%elem_of_seqZ. assert (is_rank q) as Hr by (unfold Network.is_rank; lia).
  eapply absorbs_trans; [by apply (all_taken gh T)|]. by apply (ai_node _ _ Hi).
Qed.

Lemma known_all gh T p v :
  ar_inv_on gh T → is_rank p → known p (gh p) = Some v → v = all_flags.
Proof.
  intros Hi Hp. revert v. revert p Hp. apply (rank_ind (λ p, ∀ v, known p (gh p) = Some v → v = all_flags)).
  - intros v. unfold known. rewrite decide_True by done. destruct (r_todo (gh 0)) eqn:Hd; [|done].
    intros [= <-]. by eapply root_all.
  - intros p Hp IH v. unfold known at 1. rewrite decide_False by lia. intros Hv.
    pose proof (ai_down _ _ Hi p Hp) as He. unfold down_edge in He. rewrite Hv in He.
    destruct He as [[? _]|[(?&?&_)|(w&[= <-]&_&_&Hk)]]; [done|done|]. by apply IH.
Qed.

(** ** The code keeps to the protocol *)

Definition start_g (p : Z) : ar := AR (flags p) (chs p) false None (chs p).

(** A process that has returned. *)
Definition agreed (p : Z) (g : ar) (x : Z * abort_st) : Prop :=
  ∃ v, known p g = Some v ∧ r_up g = negb (bool_decide (p = 0)) ∧ r_down g = [] ∧
    x.1 = to_i8 v ∧ abort_state x.2 = v.

Section process.
Context (p : Z) (Hp : is_rank p) (t : CIRCLE_tree_state_st) (Ht : my_tree par chs p t).

Abbreviation P := (net_protocol ar_pre ar_post p).
Abbreviation safe u Q g := (wp P u Q (λ _ _, False) g).

Lemma recv_int_wp src (Q : ar → Z → Prop) g :
  ar_pre p g (ORecv src CIRCLE_TAG_ABORT_REDUCE 1) →
  (∀ v, Q (if r_up g then learn_g v g else take_g v g) v) →
  safe (recv_int src CIRCLE_TAG_ABORT_REDUCE) Q g.
Proof. intros Hpre HQ. split; [exact Hpre|]. intros m g' (v & -> & ->). apply HQ. Qed.

Lemma recv_children_wp m i g :
  r_todo g = drop i (chs p) → (length (chs p) = i + m)%nat → r_up g = false →
  safe (abort_reduce_recv m (Z.of_nat i) (r_val g) t)
    (λ g' v, v = r_val g' ∧ r_todo g' = [] ∧ r_up g' = false ∧ r_res g' = r_res g ∧ r_down g' = r_down g) g.
Proof.
  revert i g. induction m as [|m IH]; intros i g Hd Hl Hup; cbn [abort_reduce_recv].
  { rewrite drop_ge in Hd by lia. done. }
  destruct (lookup_lt_is_Some_2 (chs p) i) as [c Hc]; [lia|].
  rewrite (my_tree_child _ _ _ _ _ _ Ht Hc), bind_ret. rewrite (drop_S _ c) in Hd by done.
  apply wp_seq, recv_int_wp.
  { split; [done|]. left. by exists (drop (S i) (chs p)). }
  intros v. rewrite Hup. replace (Z.of_nat i + 1) with (Z.of_nat (S i)) by lia.
  apply (IH (S i) (take_g v g)); [simpl; by rewrite Hd|lia|done].
Qed.

Lemma tell_children_wp m i v g :
  r_down g = drop i (chs p) → (length (chs p) = i + m)%nat → known p g = Some v →
  (p = 0 ∨ r_up g = true) →
  safe (send_children m (Z.of_nat i) CIRCLE_TAG_ABORT_REDUCE (Ints [v]) t)
    (λ g' _, known p g' = Some v ∧ r_up g' = r_up g ∧ r_down g' = []) g.
Proof.
  revert i g. induction m as [|m IH]; intros i g Hd Hl Hk Hup; cbn [send_children].
  { rewrite drop_ge in Hd by lia. done. }
  destruct (lookup_lt_is_Some_2 (chs p) i) as [c Hc]; [lia|].
  rewrite (my_tree_child _ _ _ _ _ _ Ht Hc), bind_ret. rewrite (drop_S _ c) in Hd by done.
  split.
  { split; [done|]. right. by exists v, (drop (S i) (chs p)). }
  intros [] g' ->. cbn [wp prog_bind call].
  assert (bool_decide (p = 0) || r_up g = true) as ->.
  { destruct Hup as [Hup| ->]; [by rewrite bool_decide_true|apply orb_true_r]. }
  replace (Z.of_nat i + 1) with (Z.of_nat (S i)) by lia.
  apply (IH (S i) (tell_g g)); [simpl; by rewrite Hd|lia|exact Hk|exact Hup].
Qed.

Lemma abort_reduce_wp a :
  safe (CIRCLE_abort_reduce (flags p) t a) (agreed p) (start_g p).
Proof.
  unfold CIRCLE_abort_reduce. rewrite (mt_parent _ Ht), (mt_children _ Ht), Nat2Z.id. apply wp_seq.
  eapply wp_post, (recv_children_wp _ 0 (start_g p)); [|done..].
  intros g v (-> & Hd & Hup & Hr & Hdn). cbn [start_g r_res r_down] in Hr, Hdn. apply wp_seq.
  eapply wp_post with (Q := λ (g' : ar) v',
    known p g' = Some v' ∧ r_up g' = negb (bool_decide (p = 0)) ∧ r_down g' = chs p).
  - clear g Hd Hup Hr Hdn. intros g v (Hk & Hup & Hdn). apply wp_seq.
    eapply wp_post, (tell_children_wp _ 0); [|done..|].
    + intros g' [] (Hk' & Hup' & Hdn'). exists v. by rewrite Hup', Hup.
    + rewrite Hup. destruct (decide (p = 0)); [by left|right]. by rewrite bool_decide_false.
  - unfold Network.is_rank in Hp. case_decide as H0.
    + rewrite Z.eqb_refl. cbn. unfold known. rewrite decide_True, Hd, bool_decide_true by done. by rewrite Hup.
    + rewrite (proj2 (Z.eqb_neq _ _)) by (pose proof (par_lt p); unfold MPI_PROC_NULL; lia).
      rewrite bool_decide_false by done. cbn [negb]. split.
      { split; [done|]. left. split; [lia|]. done. }
      intros [] g' ->. cbn [prog_bind call]. rewrite bool_decide_false, Hup by done. cbn [orb].
      apply recv_int_wp.
      { split; [done|]. right. split; [lia|]. done. }
      intros v. cbn. unfold known. by rewrite decide_False.
Qed.
End process.

(** Who has returned calls nothing any more. *)
Lemma agreed_no_call p g x o : agreed p g x → ar_pre p g o → False.
Proof.
  intros (v & Hk & Hup & Hd & _) Hpre. unfold known in Hk. destruct o; try done; cbn in Hpre.
  - destruct Hpre as [_ [(rest & Ht & Hu)|(H0 & _ & _ & Hr)]].
    + rewrite Hu in Hup. rewrite Ht in Hk. destruct (decide (p = 0)); [done|].
      by rewrite bool_decide_false in Hup.
    + rewrite decide_False in Hk by lia. congruence.
  - destruct Hpre as [_ [(H0 & _ & _ & Hu & _)|(? & ? & _ & Hd' & _)]]; [|congruence].
    by rewrite Hu, bool_decide_false in Hup by lia.
Qed.

Lemma agreed_step p g x o r g' :
  agreed p g x → ar_pre p g o → ar_post p g o r g' → agreed p g' x.
Proof. intros Hx Hpre _. by destruct (agreed_no_call p g x o). Qed.

(** ** All ranks together *)

Abbreviation proc := (process (A := Z * abort_st) (B := Z * abort_st)).
Abbreviation cfg := (config (A := Z * abort_st) (B := Z * abort_st)).

Definition abort_job (t : Z → CIRCLE_tree_state_st) (a : Z → abort_st) : cfg :=
  Config (λ p, Main (CIRCLE_abort_reduce (flags p) (t p) (a p)) Ret) (λ _, []).

Abbreviation ok :=
  (network_ok n ar_pre ar_post ar_inv (λ _ _, True) agreed (λ _ _ _ _, True) (λ _, False)).

Lemma start_inv : ar_inv (start_g) (λ _, []).
Proof.
  split; unfold up_edge, down_edge, start_g; cbn.
  - intros c Hc. left. split; [done|]. split; [done|]. by apply chs_spec.
  - intros c Hc. left. split; [done|]. split; [done|]. by apply chs_spec.
  - intros p Hp. split; cbn; [split; [apply chs_nodup|done]..|done|done|apply absorbs_refl|].
    apply fold_absorbs, elem_of_seqZ. unfold Network.is_rank in Hp. lia.
Qed.

Lemma abort_job_ok t a c :
  (∀ p, is_rank p → my_tree par chs p (t p)) → reachable n (abort_job t a) c → ok c.
Proof.
  intros Ht. apply network_sound; [apply ar_inv_step|apply agreed_step|].
  exists start_g. split; [apply start_inv|]. intros p Hp. split; [done|].
  apply main_wp; [done|]. eapply wp_post, abort_reduce_wp; [|done|by apply Ht]. by intros g x Hx.
Qed.

Lemma never_fails (c : cfg) p : ok c → is_rank p → ¬ failed_proc (procs c p).
Proof.
  intros (gh & _ & Hok) Hp Hf. pose proof (Hok p Hp) as H.
  destruct (procs c p) as [[| |] ?|? [| |]]; try done; by destruct H.
Qed.
End agree.

(** C7 Every rank leaves CIRCLE_abort_reduce with the same flag, the bitwise
    or of the flags all ranks entered it with, whatever the order of the
    messages. *)
Theorem abort_reduce_agrees n k flags t a c p abort a' u :
  1 ≤ k → 0 < n → (∀ q, is_rank n q → tree_rep (t q) n k q) →
  reachable n (abort_job flags t a) c →
  is_rank n p → procs c p = Drain (abort, a') u →
  abort = to_i8 (all_flags n flags) ∧ abort_state a' = all_flags n flags.
Proof.
  intros Hk Hn Ht Hr Hp Hd. pose proof (k_ary_tree n k Hk Hn) as Htree.
  destruct (abort_job_ok n (tree_parent k) (tree_chs n k) flags t a c) as (gh & Hi & Hok); [|done|].
  { intros q Hq. apply my_tree_rep; [apply Hq|by apply Ht]. }
  pose proof (Hok p Hp) as Hx. rewrite Hd in Hx. destruct Hx as [(v & Hv & _ & _ & Hab & Hst) _]. cbn in Hab, Hst.
  by rewrite Hab, Hst, (known_all _ _ _ _ gh _ p v Hi Hp Hv).
Qed.

(** ** An example run: three ranks, rank 1 has seen an abort *)

Definition demo_flags (q : Z) : Z := if q =? 1 then 1 else 0.
Definition demo_trees (q : Z) : CIRCLE_tree_state_st := tree_of q 3 2.
Definition demo_abort_job := abort_job demo_flags demo_trees (λ _, mk_abort_st 0 0 0 None).
Definition demo_abort_end := exec_rounds 3 (λ _, false) 10 10 demo_abort_job.

Lemma demo_trees_rep q : is_rank 3 q → tree_rep (demo_trees q) 3 2 q.
Proof.
  unfold is_rank. intros Hq. unfold demo_trees. apply (tree_of_rep q 3 2); [done|lia| |decided].
  unfold INT32_MAX. lia.
Qed.

Lemma demo_abort_reachable : reachable 3 demo_abort_job demo_abort_end.
Proof. unfold demo_abort_end. apply exec_rounds_reachable, rtc_refl. Qed.

Lemma demo_abort_two :
  procs demo_abort_end 2 = Drain (1, mk_abort_st 1 0 0 None) (Ret (1, mk_abort_st 1 0 0 None)).
Proof. vm_compute. reflexivity. Qed.

Lemma abort_reduce_agrees_witness :
  1 = to_i8 (all_flags 3 demo_flags) ∧ 1 = all_flags 3 demo_flags.
Proof.
  apply (abort_reduce_agrees 3 2 demo_flags demo_trees (λ _, mk_abort_st 0 0 0 None) demo_abort_end 2
           1 (mk_abort_st 1 0 0 None) (Ret (1, mk_abort_st 1 0 0 None))).
  - lia.
  - lia.
  - exact demo_trees_rep.
  - exact demo_abort_reachable.
  - unfold is_rank. lia.
  - exact demo_abort_two.
Defined.
