(* ===== verification/AbortEnds.v ===== *)
(** * The abort allreduce ends

    Every rank runs CIRCLE_abort_reduce, whose sends are blocking: a parent
    waits for its children, a child for its parent, and each of them may also
    have to wait until its message is received.  Whatever MPI chooses, the ranks
    never wait for each other in a circle, and the number of their steps is
    bounded by the size of the tree. *)
From S2P Require Import Prelude CMonad Mem Wire Tree State Mpi Network SendModes Ranks Barrier Term Abort AbortAgree.

(** ** How many calls a program makes *)

Fixpoint within {A} (m : nat) (t : prog A) {struct t} : Prop :=
  match t with
  | Vis o k => match m with O => False | S m => ∀ r, within m (k r) end
  | _ => True
  end.

Lemma within_more {A} a b (t : prog A) : within b t → within (a + b) t.
Proof.
  revert b. induction t as [x|e|o k IH]; intros b; [done..|]. cbn. destruct b as [|b]; [done|].
  rewrite Nat.add_succ_r. auto.
Qed.

Lemma within_bind {A B} a b (t : prog A) (f : A → prog B) :
  within a t → (∀ x, within b (f x)) → within (a + b) (t ≫= f).
Proof.
  intros Ht Hf. revert a Ht. induction t as [x|e|o k IH]; intros a Ht; cbn; [by apply within_more|done|].
  destruct a as [|a]; [done|]. intros r. by apply IH.
Qed.

Lemma within_bind0 {A B} b (t : prog A) (f : A → prog B) :
  within 0 t → (∀ x, within b (f x)) → within b (t ≫= f).
Proof. apply (within_bind 0). Qed.

Lemma within_bind1 {A B} b (t : prog A) (f : A → prog B) :
  within 1 t → (∀ x, within b (f x)) → within (S b) (t ≫= f).
Proof. apply (within_bind 1). Qed.

Lemma within_recv_int src tag : within 1 (recv_int src tag).
Proof. intros [|[|v [|]]|]; done. Qed.

Lemma within_child t i : within 0 (child t i).
Proof. unfold child. destruct (child_ranks t) as [b|]; [cbn; by destruct (load b i)|done]. Qed.

Lemma within_abort_recv m i flag t : within m (abort_reduce_recv m i flag t).
Proof.
  revert i flag. induction m as [|m IH]; intros i flag; [done|]. cbn [abort_reduce_recv].
  apply within_bind0; [apply within_child|]. intros c.
  apply within_bind1; [apply within_recv_int|]. intros v. apply IH.
Qed.

Lemma within_send_children m i tag p t : within m (send_children m i tag p t).
Proof.
  revert i. induction m as [|m IH]; intros i; [done|]. cbn [send_children].
  apply within_bind0; [apply within_child|]. intros c r. apply IH.
Qed.

Lemma within_abort_reduce flag t a :
  within (2 * Z.to_nat (children t) + 2) (CIRCLE_abort_reduce flag t a).
Proof.
  replace (2 * Z.to_nat (children t) + 2)%nat with (Z.to_nat (children t) + (2 + (Z.to_nat (children t) + 0)))%nat by lia.
  apply within_bind; [apply within_abort_recv|]. intros flag1.
  apply within_bind; [destruct (negb _); [|done]; intros r; apply within_recv_int|].
  intros flag2. apply within_bind; [apply within_send_children|]. done.
Qed.

(** ** The steps that are left *)

Section steps.
Context {A B : Type} (n : Z).

Definition steps_left (m : nat) (x : process (A := A) (B := B)) : Prop :=
  match x with
  | Main t after => ∃ a b, m = (a + S b)%nat ∧ within a t ∧ ∀ x, within b (after x)
  | Drain _ t => within m t
  end.

Lemma one_step_less m c p c' :
  net_move n c p c' → steps_left m (procs c p) → ∃ m', m = S m' ∧ steps_left m' (procs c' p).
Proof.
  intros [o k after r ch' Hpr _|x after Hpr|o k x r ch' Hpr _]; rewrite Hpr; cbn; rewrite fn_lookup_insert; cbn.
  - intros (a & b & -> & Ht & Ha). destruct a as [|a]; [done|]. exists (a + S b)%nat. split; [done|]. by exists a, b.
  - intros (a & b & -> & _ & Ha). exists (a + b)%nat. split; [lia|]. apply within_more, Ha.
  - destruct m as [|m]; [done|]. intros Ht. by exists m.
Qed.

(** A bound for each rank bounds every run. *)
Lemma run_bounded m s s' (left : Z → Z) :
  nsteps (send_step n) m s s' →
  (∀ q, is_rank n q → 0 ≤ left q ∧ steps_left (Z.to_nat (left q)) (procs (net s) q)) →
  Z.of_nat m ≤ sum_ranks n left.
Proof.
  intros Hs. revert left. induction Hs as [s|m s s1 s' Hs _ IH]; intros left Hl.
  - apply sum_nonneg. intros q Hq. by apply Hl.
  - destruct Hs as [p c' h Hp _ Hm _]. cbn in IH. destruct (Hl p Hp) as [Hpos Hleft].
    destruct (one_step_less _ _ _ _ Hm Hleft) as (m' & Hm' & Hleft').
    destruct (net_move_inv _ _ _ _ Hm) as [Hothers _].
    specialize (IH (<[p := left p - 1]> left)).
    rewrite (sum_upd left _ p Hp) in IH by (intros; by apply fn_lookup_insert_ne).
    rewrite fn_lookup_insert in IH. enough (Z.of_nat m ≤ sum_ranks n left + (left p - 1 - left p)) by lia.
    apply IH. intros q Hq. moved q p.
    + split; [lia|]. replace (Z.to_nat (left p - 1)) with m' by lia. done.
    + rewrite Hothers by done. by apply Hl.
Qed.
End steps.

(** ** No circle of waiting ranks *)

Section ends.
Context (n : Z) (par : Z → Z) (chs : Z → list Z) `{!IsTree n par chs}.
Context (flags : Z → Z).

Abbreviation is_rank := (is_rank n).
Abbreviation ghosts := (Z → ar).
Abbreviation proc := (process (A := Z * abort_st) (B := Z * abort_st)).
Abbreviation state := (sconfig (A := Z * abort_st) (B := Z * abort_st)).
Abbreviation proc_ok := (process_ok (A := Z * abort_st) (B := Z * abort_st) (ar_pre par) ar_post (λ _ _, True)
  agreed (λ _ _ _ _, True) (λ _, False)).
Abbreviation ok := (network_ok (A := Z * abort_st) (B := Z * abort_st) n (ar_pre par) ar_post
  (ar_inv n par chs flags) (λ _ _, True) agreed (λ _ _ _ _, True) (λ _, False)).

(** MPI_Irecv is not used, and who may wait in MPI_Send sent its flag to its
    parent or the result to a child. *)
Record sends_ok (s : state) : Prop := SendsOk {
  sk_net : ok (net s);
  sk_posted : ∀ k, posted s k = O;
  sk_held : ∀ p k, is_rank p → held s p = Some k →
    ∃ dst, k = (p, dst, CIRCLE_TAG_ABORT_REDUCE) ∧ ((0 < p ∧ dst = par p) ∨ dst ∈ chs p);
}.

Lemma next_call_ar p g x o : proc_ok p g x → next_call x = Some o → ar_pre par p g o.
Proof. destruct x as [[]|? []]; try done; cbn; intros H [= <-]; apply H. Qed.

Lemma sends_ok_step s s' : sends_ok s → send_step n s s' → sends_ok s'.
Proof.
  intros [Hok Hpost Hheld] Hs. pose proof (send_step_net _ _ _ Hs) as Hn.
  assert (ok (net s')) as Hok'.
  { eapply network_ok_step; [apply ar_inv_step, _|apply agreed_step|exact Hok|exact Hn]. }
  destruct Hs as [p c' h Hp _ Hm Hh]. destruct Hok as (gh & Hi & Hpr).
  destruct (next_call (procs (net s) p)) as [o|] eqn:Ho.
  - pose proof (next_call_ar _ _ _ _ (Hpr p Hp) Ho) as Hpre. split; [done|by destruct o|].
    intros q k Hq. cbn. moved q p; [|by apply Hheld]. destruct Hh as [-> | ->]; [done|].
    destruct o; try done. intros [= <-]. destruct Hpre as [-> Hd]. exists dst. split; [done|].
    destruct Hd as [(? & ? & _)|(v & rest & _ & Hd & _)]; [by left|right].
    apply (nd_down _ _ _ _ _ (ai_node _ _ _ _ _ _ Hi p Hp)). rewrite Hd. by left.
  - split; [done|done|]. intros q k Hq. cbn. moved q p; [|by apply Hheld]. by destruct Hh as [-> | ->].
Qed.

(** What keeps a rank from taking a step. *)
Inductive stuck (gh : ghosts) (T : Z → Z → list payload) (p : Z) : Prop :=
  | waits_up : 0 < p → T p (par p) ≠ [] → stuck gh T p
  | waits_down d : d ∈ chs p → T p d ≠ [] → stuck gh T p
  | needs_child c : c ∈ chs p → c ∈ r_todo (gh p) → r_up (gh p) = false → T c p = [] → stuck gh T p
  | needs_parent : 0 < p → r_up (gh p) = true → r_res (gh p) = None → T (par p) p = [] → stuck gh T p.

Definition done_g (p : Z) (g : ar) : Prop :=
  is_Some (known p g) ∧ r_up g = negb (bool_decide (p = 0)) ∧ r_down g = [].

Section circle.
Context (gh : ghosts) (T : Z → Z → list payload) (Hi : ar_inv_on n par chs flags gh T).
Context (Hall : ∀ p, is_rank p → done_g p (gh p) ∨ stuck gh T p).

Lemma up_sent c : 0 < c < n → T c (par c) ≠ [] → r_up (gh c) = true ∧ c ∈ r_todo (gh (par c)).
Proof. intros Hc HT. by destruct (ai_up _ _ _ _ _ _ Hi c Hc) as [(_ & ? & _)|[(? & _ & ?)|(_ & ? & _)]]. Qed.

Lemma known_todo p : is_rank p → is_Some (known p (gh p)) → r_todo (gh p) = [].
Proof.
  intros Hp [v Hv]. destruct (ai_node _ _ _ _ _ _ Hi p Hp) as [_ _ Hup Hres _ _]. unfold known in Hv.
  case_decide; [by destruct (r_todo (gh p))|]. apply Hup. destruct (r_up (gh p)); [done|].
  by rewrite Hres in Hv.
Qed.

Lemma known_up c : 0 < c < n → is_Some (known c (gh c)) → r_up (gh c) = true ∧ is_Some (r_res (gh c)).
Proof.
  intros Hc [v Hv]. unfold known in Hv. rewrite decide_False in Hv by lia. split; [|by exists v].
  destruct (ai_node _ _ _ _ _ _ Hi c ltac:(unfold Network.is_rank; lia)) as [_ _ _ Hres _ _].
  destruct (r_up (gh c)); [done|]. by rewrite Hres in Hv.
Qed.

Lemma down_sent p d : d ∈ chs p → T p d ≠ [] → r_res (gh d) = None ∧ is_Some (known p (gh p)).
Proof.
  intros Hd HT. destruct (child_facts p d Hd) as (Hdn & <- & _).
  by destruct (ai_down _ _ _ _ _ _ Hi d Hdn) as [(_ & ? & _)|[(v & ? & _ & _ & ?)|(v & _ & ? & _)]].
Qed.

Lemma up_todo p : is_rank p → r_up (gh p) = true → r_todo (gh p) = [].
Proof. intros Hp Hup. by apply (nd_up _ _ _ _ _ (ai_node _ _ _ _ _ _ Hi p Hp)). Qed.

(** Nobody waits for a child: the largest rank that does would be wrong. *)
Lemma no_needs_child p c :
  is_rank p → c ∈ chs p → c ∈ r_todo (gh p) → T c p = [] → False.
Proof.
  remember (Z.to_nat (n - p)) as m eqn:Hm. revert p c Hm.
  induction m as [m IH] using lt_wf_ind. intros p c -> Hp Hc Htodo HT.
  destruct (child_facts p c Hc) as (Hcn & Hpar & Hlt).
  assert (r_up (gh c) = false) as Hup.
  { destruct (ai_up _ _ _ _ _ _ Hi c Hcn) as [(? & _)|[(_ & HT' & _)|(_ & _ & Hn & _)]]; [done| |];
      rewrite Hpar in *; [congruence|done]. }
  assert (is_rank c) as Hcr by (unfold Network.is_rank; lia).
  destruct (Hall c Hcr) as [(Hk & _)|[_ Hs|d Hd Hs|d Hd Htd _ Hs|_ Hu _ _]].
  - destruct (known_up c Hcn Hk). congruence.
  - destruct (up_sent c Hcn Hs). congruence.
  - destruct (down_sent c d Hd Hs) as [_ Hk]. destruct (known_up c Hcn Hk). congruence.
  - eapply (IH (Z.to_nat (n - c))); [|reflexivity|exact Hcr|exact Hd|exact Htd|exact Hs].
    unfold Network.is_rank in Hp. lia.
  - congruence.
Qed.

Lemma no_waits_up c : 0 < c < n → T c (par c) = [].
Proof.
  intros Hc. destruct (decide (T c (par c) = [])) as [|Hs]; [done|exfalso].
  destruct (up_sent c Hc Hs) as [_ Htd]. pose proof (is_rank_par c Hc) as Hq.
  assert (r_todo (gh (par c)) = [] → False) as Hno by (intros He; rewrite He in Htd; by apply elem_of_nil in Htd).
  destruct (Hall _ Hq) as [(Hk & _)|[H0 Hs'|d Hd Hs'|d Hd Htd' _ Hs'|_ Hu _ _]].
  - by apply Hno, known_todo.
  - unfold Network.is_rank in Hq. destruct (up_sent (par c) ltac:(lia) Hs') as [Hu _]. by apply Hno, up_todo.
  - destruct (down_sent _ _ Hd Hs') as [_ Hk]. by apply Hno, known_todo.
  - by eapply no_needs_child.
  - by apply Hno, up_todo.
Qed.

Lemma no_waits_down p d : d ∈ chs p → T p d = [].
Proof.
  intros Hd. destruct (decide (T p d = [])) as [|Hs]; [done|exfalso].
  destruct (child_facts p d Hd) as (Hdn & Hpar & _). destruct (down_sent p d Hd Hs) as [Hres _].
  assert (is_rank d) as Hdr by (unfold Network.is_rank; lia).
  assert (is_Some (known d (gh d)) → False) as Hno by (intros Hk; destruct (known_up d Hdn Hk) as [_ [v Hv]]; congruence).
  destruct (Hall d Hdr) as [(Hk & _)|[_ Hs'|e He Hs'|e He Htd _ Hs'|_ _ _ Hs']].
  - by apply Hno.
  - by rewrite no_waits_up in Hs'.
  - by apply Hno, (down_sent d e).
  - by eapply no_needs_child.
  - by rewrite Hpar in Hs'.
Qed.

Lemma all_done p : is_rank p → done_g p (gh p).
Proof.
  revert p. apply (rank_ind (λ p, done_g p (gh p))).
  - destruct (Hall 0 is_rank_0) as [|[? _|d Hd Hs|d Hd Htd _ Hs|? _ _ _]]; [done|lia| |exfalso|lia].
    + by rewrite no_waits_down in Hs.
    + by eapply no_needs_child, Hs; [apply is_rank_0|..].
  - intros p Hp (_ & _ & Hdown). assert (is_rank p) as Hr by (unfold Network.is_rank; lia).
    destruct (Hall p Hr) as [|[_ Hs|d Hd Hs|d Hd Htd _ Hs|_ _ Hres Hs]]; [done|exfalso..].
    + by rewrite no_waits_up in Hs.
    + by rewrite no_waits_down in Hs.
    + by eapply no_needs_child.
    + destruct (ai_down _ _ _ _ _ _ Hi p Hp) as [(_ & _ & He)|[(v & _ & He & _)|(v & He & _)]]; [|congruence..].
      rewrite Hdown in He. by apply elem_of_nil in He.
Qed.
End circle.

(** ** The ranks of a job *)

Lemma returned_told gh p x : proc_ok p (gh p) x → returned_proc x → done_g p (gh p).
Proof.
  destruct x as [[]|? []]; try done. intros [(v & Hk & Hup & Hd & _) _] _.
  split; [by exists v|]. by split.
Qed.

Lemma rank_moves s gh p :
  sends_ok s → ar_inv n par chs flags gh (chans (net s)) → is_rank p → proc_ok p (gh p) (procs (net s) p) →
  returned_proc (procs (net s) p) ∨ stuck gh (λ a b, chans (net s) (a, b, CIRCLE_TAG_ABORT_REDUCE)) p ∨
  ∃ s', send_step n s s'.
Proof.
  intros [_ Hpost Hheld] Hi Hp Hok. destruct (waiting s p) eqn:Hw.
  { right. left. unfold waiting in Hw. destruct (held s p) as [k|] eqn:Hk; [|done].
    apply bool_decide_eq_true in Hw. rewrite Hpost in Hw.
    destruct (Hheld p k Hp Hk) as (dst & -> & [[H0 ->]|Hd]).
    - apply waits_up; [done|]. intros He. rewrite He in Hw. cbn in Hw. lia.
    - apply (waits_down _ _ _ dst); [done|]. intros He. rewrite He in Hw. cbn in Hw. lia. }
  destruct (next_call (procs (net s) p)) as [o|] eqn:Ho.
  2: { destruct (procs (net s) p) as [[x| |] after|x [| |]] eqn:Hpr; try done;
         [|by destruct Hok|by left|by destruct Hok].
       right. right. eexists. econstructor; [done|done|by eapply step_leave|by left]. }
  pose proof (next_call_ar _ _ _ _ Hok Ho) as Hpre. right.
  destruct o; try done; [|right; by eapply (send_answered n s p (OSend dst tag p0) tt)].
  destruct (chans (net s) (src, p, tag)) as [|m l] eqn:Hch.
  - left. destruct Hpre as [-> [(rest & Htd & Hup)|(H0 & -> & Hup & Hres)]].
    + apply (needs_child _ _ _ src); [|rewrite Htd; by left|done|done].
      apply (nd_todo _ _ _ _ _ (ai_node _ _ _ _ _ _ Hi p Hp)). rewrite Htd. by left.
    + by apply needs_parent.
  - right. eapply send_answered; [done|done|exact Ho|]. split; [|by exists l].
    change (is_rank src). destruct Hpre as [-> [(rest & Htd & Hup)|(H0 & -> & Hup & Hres)]].
    + destruct (child_facts p src); [|unfold Network.is_rank; lia].
      apply (nd_todo _ _ _ _ _ (ai_node _ _ _ _ _ _ Hi p Hp)). rewrite Htd. by left.
    + apply is_rank_par. unfold Network.is_rank in Hp. lia.
Qed.

Lemma ranks_move s :
  sends_ok s → (∀ p, is_rank p → returned_proc (procs (net s) p)) ∨ ∃ s', send_step n s s'.
Proof.
  intros Hs. destruct (sk_net s Hs) as (gh & Hi & Hok).
  set (T a b := chans (net s) (a, b, CIRCLE_TAG_ABORT_REDUCE)).
  assert (∀ l, Forall is_rank l →
    Forall (λ p, returned_proc (procs (net s) p) ∨ stuck gh T p) l ∨ ∃ s', send_step n s s') as Hl.
  { induction 1 as [|p l Hp _ [IH|IH]]; [by left| |by right].
    destruct (rank_moves s gh p Hs Hi Hp (Hok p Hp)) as [H|[H|H]]; [left; constructor; auto..|by right]. }
  destruct (Hl (seqZ 0 n)) as [H|H]; [|left|by right].
  { apply Forall_forall. intros p ?%elem_of_seqZ. unfold Network.is_rank. lia. }
  assert (∀ p, is_rank p → returned_proc (procs (net s) p) ∨ stuck gh T p) as Hall.
  { intros p Hp. rewrite Forall_forall in H. apply H, elem_of_seqZ. unfold Network.is_rank in Hp. lia. }
  assert (∀ p, is_rank p → done_g p (gh p) ∨ stuck gh T p) as Hall'.
  { intros p Hp. destruct (Hall p Hp); [left; by eapply returned_told; [apply Hok|]|by right]. }
  intros p Hp. destruct (Hall p Hp) as [|Hst]; [done|exfalso].
  pose proof (all_done gh T Hi Hall') as Hdone. destruct (Hdone p Hp) as (Hk & Hup & _).
  destruct Hst as [H0 Hs'|d Hd Hs'|c Hc Htd _ Hs'|H0 _ Hres _].
  - unfold Network.is_rank in Hp. by rewrite (no_waits_up gh T Hi Hall' p ltac:(lia)) in Hs'.
  - by rewrite (no_waits_down gh T Hi Hall' p d Hd) in Hs'.
  - by eapply (no_needs_child gh T Hi Hall').
  - unfold Network.is_rank in Hp. destruct (known_up gh T Hi p ltac:(lia) Hk) as [_ [v Hv]]. congruence.
Qed.

Lemma abort_job_sends t a s :
  (∀ p, is_rank p → my_tree par chs p (t p)) →
  send_reachable n (at_start (abort_job flags t a)) s → sends_ok s.
Proof.
  intros Ht Hs. assert (sends_ok (at_start (abort_job flags t a))) as H0.
  { split; [|done|done]. apply (abort_job_ok n par chs flags t a); [done|apply rtc_refl]. }
  revert H0. induction Hs as [|s1 s2 s3 Hs _ IH]; [done|]. intros H0. by eapply IH, sends_ok_step.
Qed.
End ends.

(** C8 CIRCLE_abort_reduce ends on all ranks, although its sends and receives
    are blocking and whatever MPI makes of each MPI_Send, which may return at
    once or wait until the message is received: as long as some rank has not
    returned, a rank can take a step; and a rank with c children takes at most
    2 c + 3 steps.  So every run that is continued as long as possible ends
    after at most 5 n steps with all ranks returned. *)
Theorem abort_reduce_terminates n k flags t a m s :
  1 ≤ k → 0 < n → (∀ q, is_rank n q → tree_rep (t q) n k q) →
  nsteps (send_step n) m (at_start (abort_job flags t a)) s →
  Z.of_nat m ≤ sum_ranks n (λ q, 2 * children (t q) + 3) ∧
  ((∀ q, is_rank n q → ∃ x y, procs (net s) q = Drain x (Ret y)) ∨ ∃ s', send_step n s s').
Proof.
  intros Hk Hn Ht Hm. pose proof (k_ary_tree n k Hk Hn) as Htree.
  assert (∀ q, is_rank n q → my_tree (tree_parent k) (tree_chs n k) q (t q)) as Ht'
    by (intros q Hq; apply my_tree_rep; [apply Hq|by apply Ht]).
  split.
  - eapply run_bounded; [exact Hm|]. intros q Hq. cbn. pose proof (mt_children _ (Ht' q Hq)) as Hc.
    split; [lia|]. exists (2 * Z.to_nat (children (t q)) + 2)%nat, O.
    split; [lia|]. split; [apply within_abort_reduce|done].
  - destruct (ranks_move n (tree_parent k) (tree_chs n k) flags s) as [H|H]; [|left|by right].
    + apply (abort_job_sends n (tree_parent k) (tree_chs n k) flags t a); [exact Ht'|]. by eapply rtc_nsteps_2.
    + intros q Hq. pose proof (H q Hq) as Hr. destruct (procs (net s) q) as [|x [y| |]]; [done|by exists x, y|done..].
Qed.

(** ** An example: three ranks, and every send waits

    Rank 1 has sent its flag and waits; rank 2 has not started. *)
Definition demo_run := send_run 3 (λ _, false) (λ _, true) [1] (at_start demo_abort_job).
Definition demo_waiting := default (at_start demo_abort_job) demo_run.

Lemma demo_waiting_steps : nsteps (send_step 3) 1 (at_start demo_abort_job) demo_waiting.
Proof.
  assert (match demo_run with Some _ => true | None => false end = true) as Hrun by (vm_compute; reflexivity).
  unfold demo_waiting. destruct demo_run as [s|] eqn:Hs; [|done].
  eapply (send_run_steps 3 (λ _, false) (λ _, true) [1]); [|exact Hs].
  repeat constructor; done || lia.
Qed.

Lemma demo_waits : waiting demo_waiting 1 = true.
Proof. vm_compute. reflexivity. Qed.

Lemma abort_reduce_terminates_witness :
  1 ≤ sum_ranks 3 (λ q, 2 * children (demo_trees q) + 3) ∧
  ((∀ q, is_rank 3 q → ∃ x y, procs (net demo_waiting) q = Drain x (Ret y)) ∨ ∃ s', send_step 3 demo_waiting s').
Proof.
  apply (abort_reduce_terminates 3 2 demo_flags demo_trees (λ _, mk_abort_st 0 0 0 None) 1).
  - lia.
  - lia.
  - exact demo_trees_rep.
  - exact demo_waiting_steps.
Defined.
