(* ===== verification/BarrierSafe.v ===== *)
(** * The cleanup barrier separates

    No process returns from CIRCLE_worker while another one is still in its
    main loop: the barrier of the cleanup phase as a protocol of each process
    over the tree, its invariant, and the conformance of the worker.  The
    result does not depend on how termination was detected, on aborts or on
    what the user's callbacks do. *)
From S2P Require Import Prelude CMonad Mem Queue Wire Tree State Mpi Sends Barrier Network Proc Api Reduce Quiet Ranks Worker QuietWorker TermCode TermSafe.

(** The ghost state of a process: the children whose message has been
    received, whether its own went to the parent, whether it was released. *)
Record bg : Type := BG {
  b_got : gset Z;
  b_up : bool;
  b_rel : bool;
}.

Section barrier.
Context (n : Z) (par : Z → Z) (chs : Z → list Z) `{!IsTree n par chs}.

Abbreviation is_rank := (is_rank n).
Abbreviation ghosts := (Z → bg).
Abbreviation links := (Z → Z → list payload).

Abbreviation all_children := (all_children chs).

Definition got_g (c : Z) (g : bg) : bg := BG ({[c]} ∪ b_got g) (b_up g) (b_rel g).
Definition up_g (g : bg) : bg := BG (b_got g) true (b_rel g).
Definition rel_g (g : bg) : bg := BG (b_got g) (b_up g) true.

(** The process may go on: the root once it has heard all its children. *)
Definition passed (p : Z) (g : bg) : Prop := if decide (p = 0) then b_got g = all_children 0 else b_rel g = true.

(** In the main loop. *)
Definition busy (p : Z) (g : bg) : Prop := b_got g = ∅ ∧ b_up g = false.

Definition bar_pre (p : Z) (g : bg) (o : op) : Prop :=
  match o with
  | ORecv src tag _ => tag = CIRCLE_TAG_BARRIER →
      (src ∈ chs p ∧ src ∉ b_got g ∧ b_up g = false) ∨ (0 < p ∧ src = par p ∧ b_up g = true)
  | OSend dst tag m => tag = CIRCLE_TAG_BARRIER →
      (0 < p ∧ dst = par p ∧ b_got g = all_children p ∧ b_up g = false) ∨ (dst ∈ chs p ∧ passed p g)
  | OIsend _ tag _ _ | OIssend _ tag _ => tag ≠ CIRCLE_TAG_BARRIER
  | _ => True
  end.

Definition bar_post (p : Z) (g : bg) (o : op) : ans o → bg → Prop :=
  match o return ans o → bg → Prop with
  | ORecv src tag _ => λ _ g',
      if tag =? CIRCLE_TAG_BARRIER then g' = if b_up g then rel_g g else got_g src g else g' = g
  | OSend dst tag _ => λ _ g',
      if tag =? CIRCLE_TAG_BARRIER then
        g' = if bool_decide (dst = par p) && negb (bool_decide (p = 0)) then up_g g else g
      else g' = g
  | OIprobe src tag => λ r g', g' = g ∧
      (tag = CIRCLE_TAG_BARRIER → b_up g = false → ∀ s c, r = Some (s, c) → s ∈ chs p ∧ s ∉ b_got g)
  | OCommRank => λ r g', r = p ∧ g' = g
  | OCommSize => λ r g', r = n ∧ g' = g
  | _ => λ _ g', g' = g
  end.

(** ** The invariant *)

(** The edge of [c] to its parent. *)
Definition up_edge (gh : ghosts) (T : links) (c : Z) : Prop :=
  (b_up (gh c) = false ∧ T c (par c) = [] ∧ c ∉ b_got (gh (par c))) ∨
  (∃ m, b_up (gh c) = true ∧ T c (par c) = [m] ∧ c ∉ b_got (gh (par c))) ∨
  (b_up (gh c) = true ∧ T c (par c) = [] ∧ c ∈ b_got (gh (par c))).

Record bar_inv_on (gh : ghosts) (T : links) : Prop := BarInv {
  bi_up : ∀ c, 0 < c < n → up_edge gh T c;
  bi_down : ∀ c, 0 < c < n → T (par c) c ≠ [] ∨ b_rel (gh c) = true → passed (par c) (gh (par c));
  bi_got : ∀ p, is_rank p → b_got (gh p) ⊆ all_children p;
  bi_all : ∀ p, is_rank p → b_up (gh p) = true → b_got (gh p) = all_children p;
  bi_rel : ∀ p, is_rank p → b_rel (gh p) = true → b_up (gh p) = true;
  bi_root : b_up (gh 0) = false;
  bi_other : ∀ a b, T a b ≠ [] → (0 < a < n ∧ b = par a) ∨ (0 < b < n ∧ a = par b);
}.

Definition bar_inv (gh : ghosts) (ch : channels) : Prop :=
  bar_inv_on gh (λ a b, ch (a, b, CIRCLE_TAG_BARRIER)).

(** Once anybody but the root has passed, everybody has entered. *)
Lemma passed_root gh T p :
  bar_inv_on gh T → is_rank p → passed p (gh p) → b_got (gh 0) = all_children 0.
Proof.
  intros Hi Hp. revert p Hp. apply (rank_ind (λ p, passed p (gh p) → b_got (gh 0) = all_children 0)).
  - unfold passed. by rewrite decide_True.
  - intros p Hp IH Hpass. apply IH, (bi_down gh T Hi p Hp). right.
    unfold passed in Hpass. by rewrite decide_False in Hpass by lia.
Qed.

Lemma all_entered gh T p :
  bar_inv_on gh T → b_got (gh 0) = all_children 0 → 0 < p < n → b_up (gh p) = true.
Proof.
  intros Hi H0 Hp.
  assert (∀ q, is_rank q → b_got (gh q) = all_children q) as Hall.
  { apply rank_ind; [done|]. intros q Hq IH. apply (bi_all gh T Hi q); [unfold Network.is_rank; lia|].
    destruct (bi_up gh T Hi q Hq) as [(_ & _ & Hn)|[(m & ? & _)|(? & _)]]; [|done|done].
    rewrite IH in Hn. destruct Hn. by apply elem_of_all_children. }
  destruct (bi_up gh T Hi p Hp) as [(_ & _ & Hn)|[(m & ? & _)|(? & _)]]; [|done|done].
  rewrite Hall in Hn by (by apply is_rank_par). destruct Hn. by apply elem_of_all_children.
Qed.

Lemma nobody_busy gh T p q :
  bar_inv_on gh T → is_rank p → passed p (gh p) → is_rank q → q ≠ p → ¬ busy q (gh q).
Proof.
  intros Hi Hp Hpass Hq Hne [Hg Hu]. pose proof (passed_root gh T p Hi Hp Hpass) as H0.
  destruct (decide (q = 0)) as [->|Hq0].
  - assert (1 ∈ all_children 0) as H1; [|by rewrite <-H0, Hg in H1; apply elem_of_empty in H1].
    unfold Network.is_rank in Hp. apply elem_of_all_children. split; [lia|]. pose proof (par_lt 1). lia.
  - unfold Network.is_rank in Hq. rewrite (all_entered gh T q Hi H0) in Hu by lia. done.
Qed.
(** ** Steps *)

Lemma bar_inv_ext gh gh' T T' :
  bar_inv_on gh T → (∀ x, gh' x = gh x) → (∀ a b, T' a b = T a b) → bar_inv_on gh' T'.
Proof.
  intros [Hu Hd Hg Ha Hr H0 Ho] He HT. split; [intros c|intros c|intros p|intros p|intros p| |intros a b];
    unfold up_edge in *; rewrite ?He, ?HT; auto.
Qed.

(** Only the edges at [p] change when [p] moves, and nothing is taken back. *)
Lemma bar_move gh p g' (T T' : links) :
  bar_inv_on gh T → is_rank p →
  b_got g' ⊆ all_children p → (b_up g' = true → b_got g' = all_children p) →
  (b_rel g' = true → b_up g' = true) → (p = 0 → b_up g' = false) →
  (passed p (gh p) → passed p g') →
  (∀ x, 0 < x < n → x ≠ p → par x ≠ p → T' x (par x) = T x (par x)) →
  (0 < p → up_edge (<[p := g']> gh) T' p) →
  (0 < p → T' (par p) p ≠ [] ∨ b_rel g' = true → passed (par p) (gh (par p))) →
  (∀ x, x ∈ chs p → up_edge (<[p := g']> gh) T' x) →
  (∀ x, 0 < x < n → x ≠ p → T' (par x) x ≠ [] → T (par x) x ≠ [] ∨ par x = p ∧ passed p g') →
  (∀ a b, T' a b ≠ [] → T a b ≠ [] ∨ (0 < a < n ∧ b = par a) ∨ (0 < b < n ∧ a = par b)) →
  bar_inv_on (<[p := g']> gh) T'.
Proof.
  intros Hi Hp Hgot Hall Hrel Hroot Hpass HT Hup Hdown Hch HD Ho.
  pose proof Hi as [Iu Id Ig Ia Ir I0 Io]. split.
  - intros x Hx. destruct (decide (x = p)) as [->|Hne]; [apply Hup; lia|].
    destruct (decide (par x = p)) as [Hpar|Hpar]; [by apply Hch, chs_spec|].
    unfold up_edge. rewrite !fn_lookup_insert_ne, HT by done. by apply Iu.
  - intros x Hx Hor. destruct (decide (x = p)) as [->|Hne].
    { rewrite fn_lookup_insert in Hor. pose proof (par_lt p Hx).
      rewrite fn_lookup_insert_ne by lia. apply Hdown; [lia|done]. }
    rewrite fn_lookup_insert_ne in Hor by done.
    assert (T (par x) x ≠ [] ∨ b_rel (gh x) = true → passed (par x) (<[p := g']> gh (par x))) as Hold.
    { intros H%(Id x Hx). destruct (decide (par x = p)) as [Hpar|].
      { rewrite Hpar in *. rewrite fn_lookup_insert. auto. }
      by rewrite fn_lookup_insert_ne. }
    destruct Hor as [Hor|Hor]; [|by apply Hold; right].
    destruct (HD x Hx Hne Hor) as [|[-> ?]]; [by apply Hold; left|by rewrite fn_lookup_insert].
  - intros x Hx. moved x p; auto.
  - intros x Hx. moved x p; auto.
  - intros x Hx. moved x p; auto.
  - destruct (decide (p = 0)) as [->|]; [rewrite fn_lookup_insert|rewrite fn_lookup_insert_ne]; auto.
  - intros a b Hab. destruct (Ho a b Hab); auto.
Qed.

Lemma got_mono p c g : passed p g → c ∈ all_children p → passed p (got_g c g).
Proof. unfold passed. case_decide as H; [|done]. subst p. simpl. intros -> ?. set_solver. Qed.

Lemma bar_take gh T T' p c m l :
  bar_inv_on gh T → is_rank p → c ∈ chs p → b_up (gh p) = false → T c p = m :: l → T' c p = l →
  (∀ a b, (a, b) ≠ (c, p) → T' a b = T a b) → bar_inv_on (<[p := got_g c (gh p)]> gh) T'.
Proof.
  intros Hi Hp Hcp Hup HT HT' HTo. destruct (child_facts p c Hcp) as (Hc & Hpar & Hlt).
  assert (c ∈ all_children p) as Hca by (by apply elem_of_all_children).
  pose proof (bi_up _ _ Hi c Hc) as He. unfold up_edge in He. rewrite Hpar, HT in He.
  destruct He as [(_ & [=] & _)|[(m' & Hcu & [= <- ->] & Hn)|(_ & [=] & _)]].
  assert (p ≠ c) as Hpc by lia.
  assert (∀ x, 0 < x < n → T' (par x) x = T (par x) x) as HTd.
  { intros x Hx. apply HTo. intros [= H1 ->]. pose proof (par_lt p Hx). lia. }
  apply (bar_move _ _ _ T); simpl; try done.
  - pose proof (bi_got _ _ Hi p Hp). set_solver.
  - congruence.
  - intros H. by rewrite (bi_rel _ _ Hi p Hp H) in Hup.
  - intros H. by apply got_mono.
  - intros x Hx Hne Hne'. apply HTo. congruence.
  - intros Hp0. pose proof (par_lt p). unfold Network.is_rank in Hp. unfold up_edge.
    rewrite fn_lookup_insert, fn_lookup_insert_ne, HTo by (first [lia|congruence]). simpl. apply (bi_up _ _ Hi p). lia.
  - intros Hp0. unfold Network.is_rank in Hp. rewrite HTd by lia. apply (bi_down _ _ Hi p). lia.
  - intros x Hx. destruct (child_facts p x Hx) as (Hxn & Hxp & Hxl). unfold up_edge. rewrite Hxp.
    rewrite fn_lookup_insert, fn_lookup_insert_ne by lia. simpl.
    destruct (decide (x = c)) as [->|Hxc]; [right; right; set_solver|].
    rewrite HTo by congruence. pose proof (bi_up _ _ Hi x Hxn) as He. unfold up_edge in He. rewrite Hxp in He. set_solver.
  - intros x Hx _. rewrite HTd by done. by left.
  - intros a b Hab. left. destruct (decide ((a, b) = (c, p))) as [[= -> ->]|]; [by rewrite HT|by rewrite <-HTo].
Qed.

Lemma bar_up gh T T' p m :
  bar_inv_on gh T → 0 < p < n → b_got (gh p) = all_children p → b_up (gh p) = false →
  T' p (par p) = T p (par p) ++ [m] → (∀ a b, (a, b) ≠ (p, par p) → T' a b = T a b) →
  bar_inv_on (<[p := up_g (gh p)]> gh) T'.
Proof.
  intros Hi Hp Hall Hup HT' HTo. pose proof (par_lt p Hp).
  assert (∀ x, 0 < x < n → T' (par x) x = T (par x) x) as HTd.
  { intros x Hx. apply HTo. intros [= H1 H2]. pose proof (par_lt x Hx). lia. }
  apply (bar_move _ _ _ T); simpl; try done.
  - unfold Network.is_rank. lia.
  - by rewrite Hall.
  - lia.
  - intros x Hx Hne Hne'. apply HTo. congruence.
  - intros _. pose proof (bi_up _ _ Hi p Hp) as He. unfold up_edge in *.
    rewrite fn_lookup_insert, fn_lookup_insert_ne, HT' by lia. simpl. right. left. exists m.
    destruct He as [(_ & -> & ?)|[(? & ? & _)|(? & _)]]; [done|congruence..].
  - intros _. rewrite HTd by done. by apply (bi_down _ _ Hi p).
  - intros x Hx. destruct (child_facts p x Hx) as (Hxn & Hxp & Hxl). unfold up_edge. rewrite Hxp.
    rewrite fn_lookup_insert, fn_lookup_insert_ne, HTo by (first [lia|intros [=]; lia]).
    pose proof (bi_up _ _ Hi x Hxn) as He. unfold up_edge in He. by rewrite Hxp in He.
  - intros x Hx _. rewrite HTd by done. by left.
  - intros a b Hab. destruct (decide ((a, b) = (p, par p))) as [[= -> ->]|]; [by right; left|left; by rewrite <-HTo].
Qed.

Lemma bar_down gh T T' p d :
  bar_inv_on gh T → is_rank p → d ∈ chs p → passed p (gh p) →
  (∀ a b, (a, b) ≠ (p, d) → T' a b = T a b) → bar_inv_on (<[p := gh p]> gh) T'.
Proof.
  intros Hi Hp Hd Hpass HTo. destruct (child_facts p d Hd) as (Hdn & Hpar & Hlt).
  assert (∀ x, 0 < x < n → T' x (par x) = T x (par x)) as HTu.
  { intros x Hx. apply HTo. intros [= -> H2]. pose proof (par_lt p Hx). lia. }
  assert (∀ x, 0 < x < n → up_edge (<[p := gh p]> gh) T' x) as Hue.
  { intros x Hx. unfold up_edge. rewrite !insert_same, HTu by done. by apply (bi_up _ _ Hi). }
  apply (bar_move _ _ _ T); try done.
  - by apply (bi_got _ _ Hi).
  - by apply (bi_all _ _ Hi).
  - by apply (bi_rel _ _ Hi).
  - intros ->. apply (bi_root _ _ Hi).
  - intros x Hx _ _. by apply HTu.
  - intros Hp0. apply Hue. unfold Network.is_rank in Hp. lia.
  - intros Hp0. unfold Network.is_rank in Hp. rewrite HTo by (intros [=]; lia). apply (bi_down _ _ Hi p). lia.
  - intros x Hx. apply Hue. by destruct (child_facts p x Hx).
  - intros x Hx Hne Hx'. destruct (decide (x = d)) as [->|]; [by right|left]. by rewrite <-HTo by congruence.
  - intros a b Hab. destruct (decide ((a, b) = (p, d))) as [[= -> ->]|]; [by right; right|left; by rewrite <-HTo].
Qed.

Lemma bar_release gh T T' p m l :
  bar_inv_on gh T → 0 < p < n → b_up (gh p) = true → T (par p) p = m :: l →
  T' (par p) p = l → (∀ a b, (a, b) ≠ (par p, p) → T' a b = T a b) →
  bar_inv_on (<[p := rel_g (gh p)]> gh) T'.
Proof.
  intros Hi Hp Hup HT HT' HTo. pose proof (par_lt p Hp).
  assert (is_rank p) as Hr by (unfold Network.is_rank; lia).
  assert (∀ x, 0 < x < n → T' x (par x) = T x (par x)) as HTu.
  { intros x Hx. apply HTo. intros [= H1 H2]. pose proof (par_lt x Hx). lia. }
  assert (∀ x, 0 < x < n → up_edge (<[p := rel_g (gh p)]> gh) T' x) as Hue.
  { assert (∀ y, b_up (<[p := rel_g (gh p)]> gh y) = b_up (gh y)) as Hu by (intros y; by moved y p).
    assert (∀ y, b_got (<[p := rel_g (gh p)]> gh y) = b_got (gh y)) as Hg by (intros y; by moved y p).
    intros x Hx. unfold up_edge. rewrite Hu, Hg, HTu by done. by apply (bi_up _ _ Hi). }
  apply (bar_move _ _ _ T); simpl; try done.
  - by apply (bi_got _ _ Hi).
  - by apply (bi_all _ _ Hi).
  - lia.
  - unfold passed. by case_decide.
  - intros x Hx _ _. by apply HTu.
  - intros _. by apply Hue.
  - intros _ _. apply (bi_down _ _ Hi p Hp). left. by rewrite HT.
  - intros x Hx. apply Hue. by destruct (child_facts p x Hx).
  - intros x Hx Hne Hx'. left. rewrite <-HTo; [done|]. intros [=]. done.
  - intros a b Hab. left. destruct (decide ((a, b) = (par p, p))) as [[= -> ->]|]; [by rewrite HT|by rewrite <-HTo].
Qed.
(** A message of another kind. *)
Lemma bar_neutral gh ch p a b tag l :
  bar_inv gh ch → tag ≠ CIRCLE_TAG_BARRIER → bar_inv (<[p := gh p]> gh) (<[(a, b, tag) := l]> ch).
Proof.
  intros Hi Ht. eapply bar_inv_ext; [exact Hi|intros; by apply insert_same|]. intros x y. by eapply other_tag.
Qed.

Lemma bar_same gh ch p : bar_inv gh ch → bar_inv (<[p := gh p]> gh) ch.
Proof. intros Hi. eapply bar_inv_ext; [exact Hi|intros; by apply insert_same|done]. Qed.

(** Only children have sent to a process that has not finished its part. *)
Lemma probe_child gh ch p s m l :
  is_rank p → bar_inv gh ch → ch (s, p, CIRCLE_TAG_BARRIER) = m :: l → b_up (gh p) = false →
  s ∈ chs p ∧ s ∉ b_got (gh p).
Proof.
  intros Hp Hi Hch Hup. destruct (bi_other _ _ Hi s p) as [[Hs ->]|[Hpp ->]]; [congruence| |].
  - split; [by apply chs_spec|]. pose proof (bi_up _ _ Hi s Hs) as He. unfold up_edge in He. rewrite Hch in He.
    destruct He as [(_ & [=] & _)|[(? & _ & _ & ?)|(_ & [=] & _)]]. done.
  - assert (passed (par p) (gh (par p))) as Hpass by (apply (bi_down _ _ Hi p Hpp); left; by rewrite Hch).
    rewrite (all_entered gh _ p Hi) in Hup by (done || by apply (passed_root _ _ _ Hi (is_rank_par p Hpp))). done.
Qed.

Lemma bar_inv_step gh ch p o r ch' :
  is_rank p → bar_inv gh ch → bar_pre p (gh p) o → net_answer n p ch o r ch' →
  ∃ g', bar_post p (gh p) o r g' ∧ bar_inv (<[p := g']> gh) ch'.
Proof.
  intros Hp Hi Hpre Ha.
  assert (∀ ch0, ch0 = ch → ∃ g', g' = gh p ∧ bar_inv (<[p := g']> gh) ch0) as Hid.
  { intros ch0 ->. exists (gh p). split; [done|]. by apply bar_same. }
  destruct o; try (by apply Hid); cbn in Hpre, Ha |- *.
  - destruct Ha as [-> _]. by apply Hid.
  - destruct Ha as [-> Hr]. exists (gh p). split; [|by apply bar_same]. split; [done|].
    intros -> Hup s c ->. destruct Hr as (_ & _ & m & l & Hch & _). by eapply probe_child.
  - destruct Ha as (_ & l & Hch & ->).
    destruct (Z.eqb_spec tag CIRCLE_TAG_BARRIER) as [->|]; (eexists; split; [reflexivity|]); [|by apply bar_neutral].
    destruct (Hpre eq_refl) as [(Hsrc & _ & Hup)|(Hp0 & -> & Hup)]; rewrite Hup.
    + eapply bar_take; [exact Hi|done|done|done|exact Hch|apply fn_lookup_insert|apply other_ends].
    + eapply bar_release; [exact Hi| |done|exact Hch|apply fn_lookup_insert|apply other_ends].
      unfold Network.is_rank in Hp. lia.
  - subst ch'.
    destruct (Z.eqb_spec tag CIRCLE_TAG_BARRIER) as [->|]; (eexists; split; [reflexivity|]); [|by apply bar_neutral].
    destruct (Hpre eq_refl) as [(Hp0 & -> & Hall & Hup)|(Hdst & Hpass)].
    + rewrite bool_decide_true, bool_decide_false by lia. cbn [andb negb].
      eapply bar_up; [exact Hi| |done|done|apply fn_lookup_insert|apply other_ends].
      unfold Network.is_rank in Hp. lia.
    + destruct (child_facts p dst Hdst) as (Hd & Hpar & Hlt).
      assert (bool_decide (dst = par p) && negb (bool_decide (p = 0)) = false) as ->.
      { destruct (decide (p = 0)) as [->|]; [by rewrite andb_false_r|].
        unfold Network.is_rank in Hp. pose proof (par_lt p). rewrite bool_decide_false; [done|lia]. }
      eapply bar_down; [exact Hi|done|exact Hdst|done|apply other_ends].
  - subst ch'. eexists. split; [reflexivity|]. by apply bar_neutral.
  - subst ch'. eexists. split; [reflexivity|]. by apply bar_neutral.
  - destruct Ha as [-> ->]. destruct (Hid ch eq_refl) as (g' & ? & ?). by exists g'.
  - destruct Ha as [-> ->]. destruct (Hid ch eq_refl) as (g' & ? & ?). by exists g'.
  - subst ch'. eexists. split; [reflexivity|]. by apply bar_neutral.
Qed.
End barrier.

(** ** The code keeps to the protocol *)

(** Calls that are not about the barrier. *)
Definition off_barrier (o : op) : bool := negb (on_tag CIRCLE_TAG_BARRIER o).

#[export] Instance off_barrier_local : Local off_barrier.
Proof. split. by intros []. Qed.
#[export] Instance off_barrier_talks tag : TCEq (tag =? CIRCLE_TAG_BARRIER) false → Talks off_barrier tag.
Proof.
  intros Ht%TCEq_eq. split. unfold off_barrier.
  intros [] Ho; cbn in *; try done; apply Z.eqb_eq in Ho; subst; by rewrite Ht.
Qed.
#[export] Instance off_barrier_works : Works off_barrier.
Proof. by split. Qed.

Section code.
Context (n : Z) (par : Z → Z) (chs : Z → list Z) `{!IsTree n par chs}.
Context (p : Z) (Hp : is_rank n p).

Abbreviation P := (net_protocol (bar_pre par chs) (bar_post n par chs) p).
Abbreviation safe t Q g := (wp P t Q (λ _ _, True) g).
Abbreviation my_tree := (my_tree par chs p).

Lemma off_barrier_pre g o : off_barrier o = true → bar_pre par chs p g o.
Proof.
  unfold off_barrier. destruct o; cbn; try done; destruct (Z.eqb_spec tag CIRCLE_TAG_BARRIER); by intros.
Qed.

Lemma off_barrier_post g o r g' : off_barrier o = true → bar_post n par chs p g o r g' → g' = g.
Proof.
  unfold off_barrier. destruct o; cbn; try (by intros _ ->); try (by intros _ [-> _]); try (by intros _ [_ ->]);
    destruct (tag =? CIRCLE_TAG_BARRIER); by intros.
Qed.

(** Whatever is not about the barrier leaves the ghost state alone. *)
Lemma off_barrier_wp {A} (t : prog A) Φ (Q : bg → A → Prop) g :
  quiet off_barrier t Φ → (∀ a, Φ a → Q g a) → safe t Q g.
Proof.
  intros Ht HQ. induction t as [a|e|o k IH]; cbn in *; [auto|done|].
  destruct Ht as [Ho Hk]. split; [by apply off_barrier_pre|].
  intros r g' Hr. rewrite (off_barrier_post _ _ _ _ Ho Hr). by apply IH.
Qed.

Lemma off_barrier_main {A} (t : prog A) Φ (Q : bg → A → Prop) g :
  busy p g → quiet off_barrier t Φ → (∀ a, Φ a → Q g a) →
  wp (main_protocol (bar_pre par chs) (bar_post n par chs) busy p) t Q (λ _ _, True) g.
Proof.
  intros Hb Ht HQ. induction t as [a|e|o k IH]; cbn in *; [auto|done|].
  destruct Ht as [Ho Hk]. split; [split; [by apply off_barrier_pre|]|]; intros r g' Hr;
    rewrite (off_barrier_post _ _ _ _ Ho Hr); [done|by apply IH].
Qed.

(** The fields of the barrier's state against the ghost state. *)
Record bar_rel (g : bg) (b : barrier_st) : Prop := BarRel {
  br_replies : barrier_replies b = Z.of_nat (size (b_got g));
  br_got : b_got g ⊆ all_children chs p;
  br_up : b_up g = truth (barrier_up b) && negb (bool_decide (p = 0));
  br_all : truth (barrier_up b) = true → b_got g = all_children chs p;
}.

Lemma bar_rel_waiting g b : bar_rel g b → barrier_replies b < Z.of_nat (length (chs p)) → b_up g = false.
Proof.
  intros [Hr _ Hu Ha] Hlt. rewrite Hu. destruct (truth _); [|done].
  rewrite Ha, size_all_children in Hr by done. lia.
Qed.

Lemma bar_rel_all g b :
  bar_rel g b → barrier_replies b = Z.of_nat (length (chs p)) → b_got g = all_children chs p.
Proof.
  intros [Hr Hg _ _] Hall. apply set_subseteq_size_eq; [done|]. pose proof (size_all_children p). lia.
Qed.

Lemma bar_recv_child_safe t b g :
  my_tree t → bar_rel g b → safe (barrier_recv_child t b) bar_rel g.
Proof.
  intros Ht Hb. unfold barrier_recv_child. rewrite (mt_children _ Ht).
  destruct (Z.ltb_spec (barrier_replies b) (Z.of_nat (length (chs p)))) as [Hlt|]; [|done].
  pose proof (bar_rel_waiting g b Hb Hlt) as Hup. apply wp_seq. split; [done|]. intros r g' [-> Hr].
  destruct r as [[c x]|]; [|done]. destruct (Hr eq_refl Hup c x eq_refl) as [Hc Hn]. cbn [wp].
  apply wp_seq. split; [intros _; left; done|]. intros m g' Hg'. cbn in Hg'. rewrite Z.eqb_refl, Hup in Hg'. subst g'.
  cbn [wp]. apply wp_seq. unfold i32. destruct (in_i32 _); [|done]. cbn.
  destruct Hb as [Hre Hg Hu Ha]. split; cbn; [|set_solver|done|].
  - rewrite Hre, size_union, size_singleton by set_solver. lia.
  - intros H%Ha. unfold all_children in *. set_solver.
Qed.

Lemma bar_send_up_safe t b g : my_tree t → bar_rel g b → safe (barrier_send_up t b) bar_rel g.
Proof.
  intros Ht Hb. unfold barrier_send_up. rewrite (mt_children _ Ht), (mt_parent _ Ht).
  destruct (truth (barrier_up b)) eqn:Hub; [done|]. cbn [negb andb].
  destruct (Z.eqb_spec (barrier_replies b) (Z.of_nat (length (chs p)))) as [Hall|]; [|done].
  pose proof (bar_rel_all g b Hb Hall) as Hg. unfold is_rank in Hp. apply wp_seq. case_decide as H0.
  - rewrite Z.eqb_refl. cbn. destruct Hb as [Hre Hgo Hu Ha]. split; [done|done| |done].
    rewrite Hu, Hub. cbn. by rewrite bool_decide_true.
  - rewrite (proj2 (Z.eqb_neq _ _)) by (pose proof (par_lt p); unfold MPI_PROC_NULL; lia). cbn [negb].
    assert (b_up g = false) as Hup by (by rewrite (br_up _ _ Hb), Hub).
    split; [intros _; left; split; [lia|done]|]. intros [] g'. cbn.
    rewrite Z.eqb_refl, bool_decide_true, bool_decide_false by done. cbn. intros ->.
    destruct Hb as [Hre Hgo Hu Ha]. split; cbn; [done|done| |done]. by rewrite bool_decide_false.
Qed.

Lemma bar_complete_safe t b g :
  my_tree t → bar_rel g b →
  safe (barrier_complete t b) (λ g' (done : bool), if done then passed chs p g' else g' = g) g.
Proof.
  intros Ht Hb. unfold barrier_complete. rewrite (mt_parent _ Ht).
  destruct (truth (barrier_up b)) eqn:Hub; [|done]. unfold is_rank in Hp. unfold passed. case_decide as H0.
  - rewrite Z.eqb_refl. cbn. by rewrite (br_all _ _ Hb Hub), H0.
  - rewrite (proj2 (Z.eqb_neq _ _)) by (pose proof (par_lt p); unfold MPI_PROC_NULL; lia). cbn [negb].
    assert (b_up g = true) as Hup.
    { rewrite (br_up _ _ Hb), Hub, bool_decide_false by done. done. }
    apply wp_seq. split; [done|]. intros r g' [-> _]. destruct r as [[s c]|]; [|done].
    split; [intros _; right; split; [lia|done]|]. intros m g'. cbn. rewrite Z.eqb_refl, Hup. by intros ->.
Qed.

Lemma bar_release_safe m i t g :
  my_tree t → passed chs p g → (length (chs p) = i + m)%nat →
  safe (send_children m (Z.of_nat i) CIRCLE_TAG_BARRIER (Bytes []) t) (λ g' _, g' = g) g.
Proof.
  intros Ht Hpass. revert i. induction m as [|m IH]; intros i Hl; cbn [send_children]; [done|].
  destruct (lookup_lt_is_Some_2 (chs p) i) as [c Hc]; [lia|].
  rewrite (my_tree_child _ _ _ _ _ _ Ht Hc), bind_ret.
  assert (c ∈ chs p) as Hin by (by eapply list_elem_of_lookup_2). destruct (child_facts p c Hin) as (Hcn & Hpar & Hlt).
  apply wp_seq. split; [intros _; by right|]. intros [] g'. cbn. rewrite Z.eqb_refl.
  assert (bool_decide (c = par p) && negb (bool_decide (p = 0)) = false) as ->.
  { destruct (decide (p = 0)) as [H0|]; [by rewrite (bool_decide_true (p = 0)), andb_false_r|].
    unfold is_rank in Hp. pose proof (par_lt p). rewrite bool_decide_false; [done|lia]. }
  intros ->. replace (Z.of_nat i + 1) with (Z.of_nat (S i)) by lia. apply IH. lia.
Qed.

Lemma barrier_test_safe t b g :
  my_tree t → bar_rel g b →
  safe (CIRCLE_barrier_test t b)
    (λ g' '(done, b'), if truth done then passed chs p g' else bar_rel g' b') g.
Proof.
  intros Ht Hb. unfold CIRCLE_barrier_test. destruct (negb _); [done|].
  apply wp_seq. eapply wp_post, bar_recv_child_safe; [|done..]. clear g b Hb. intros g b Hb.
  apply wp_seq. eapply wp_post, bar_send_up_safe; [|done..]. clear g b Hb. intros g b Hb.
  apply wp_seq. eapply wp_post, bar_complete_safe; [|done..]. intros g' [] Hg; cbn in Hg; [|by rewrite Hg].
  apply wp_seq. rewrite (mt_children _ Ht), Nat2Z.id.
  eapply wp_post, (bar_release_safe _ 0); [|done..]. by intros g'' [] ->.
Qed.
(** ** The cleanup loop *)

Definition clean_rel (g : bg) (st : CIRCLE_state_st) : Prop := my_tree (st_tree st) ∧ bar_rel g (st_barrier st).

Lemma clean_rel_frame g st st' : clean_rel g st → sync_frame st st' → clean_rel g st'.
Proof. intros [Ht Hb] [H1 H2]. unfold clean_rel. by rewrite H1, H2. Qed.

Lemma bar_cleanup_round_safe fuel g G st :
  clean_rel g st →
  safe (cleanup_round fuel G st)
    (λ g' '(stop, _, st'), if stop : bool then passed chs p g' else clean_rel g' st') g.
Proof.
  intros [Ht Hb]. unfold cleanup_round. cbn zeta.
  set (st0 := if drained st then _ else st).
  assert (my_tree (st_tree st0)) as Ht0 by (subst st0; by destruct (drained st)).
  assert (bar_rel g (st_barrier st0)) as Hb0 by (subst st0; destruct (drained st); [by destruct Hb; split|done]).
  clearbody st0. clear st Ht Hb.
  apply wp_seq. eapply wp_post, barrier_test_safe; [|done|done]. intros g' [done b] Hd. cbn beta iota zeta.
  destruct (truth done); [exact Hd|]. clear g Hb0.
  eapply off_barrier_wp with (Φ := λ x, sync_frame (set_st_barrier b st0) x.2 ∧ x.1.1 = false).
  2: { intros [[stop G'] st'] [Hf Hs]. cbn in Hs. subst stop. eapply clean_rel_frame, Hf. done. }
  apply quiet_bind, quiet_serve_sync. intros G1 st1 H1.
  apply quiet_bind, quiet_reap_sync. intros st2 H2.
  apply quiet_bind, quiet_reduce_sync_frame. intros G3 st3 H3.
  apply quiet_bind, quiet_request_sync. intros G4 st4 H4.
  apply quiet_bind, quiet_abort_sync. intros G5 st5 H5.
  assert (work_frame (set_st_barrier b st0) st5) as [H15 _] by (do 4 (etrans; [eassumption|]); done).
  destruct (negb _); [|done]. apply quiet_bind, quiet_token. intros tk. unfold test_token. quiet_steps.
Qed.

Lemma bar_cleanup_safe m fuel g G st :
  clean_rel g st → safe (cleanup_rounds m fuel G st) (λ g' _, passed chs p g') g.
Proof.
  revert g G st. induction m as [|m IH]; intros g G st Hc; cbn [cleanup_rounds]; [done|].
  apply wp_seq. eapply wp_post, bar_cleanup_round_safe; [|done].
  intros g' [[[] G'] st'] Hc'; [done|by apply IH].
Qed.

Lemma bar_rest_safe fuel g x :
  clean_rel g x.2 → safe (worker_rest fuel x) (λ g' _, passed chs p g') g.
Proof.
  destruct x as [[[rank size] G] st]. intros Hc. unfold worker_rest, finish_loop, mbind, prog_mbind.
  apply wp_seq, wp_seq. eapply wp_post, bar_cleanup_safe; [|exact Hc].
  intros g' [G1 st1] Hpass.
  eapply off_barrier_wp with (Φ := λ _, True); [by apply quiet_finish_sync|intros [G2 st2] _].
  eapply off_barrier_wp with (Φ := λ _, True); [by apply quiet_worker_end|done].
Qed.
End code.

(** ** All ranks together *)

Definition bg0 : bg := BG ∅ false false.

Section job.
Context (n k : Z) (Hk : 1 ≤ k) (Hn : 0 < n) (Hmax : n * k ≤ INT32_MAX).

#[local] Instance barrier_tree : IsTree n (tree_parent k) (tree_chs n k).
Proof. by apply k_ary_tree. Qed.

Abbreviation par := (tree_parent k).
Abbreviation chs := (tree_chs n k).
Abbreviation ok := (network_ok n (bar_pre par chs) (bar_post n par chs) (bar_inv n par chs) busy
  (λ _ _ _, True) (λ p _ g _, passed chs p g) (λ _, True)).

Lemma bar_start_inv : bar_inv n par chs (λ _, bg0) (λ _, []).
Proof.
  split; cbn; try done.
  - intros c Hc. left. set_solver.
  - intros c Hc. by intros [|].
Qed.

Lemma bar_start_ok p fuel junk G :
  is_rank n p → tree_width (CIRCLE_INPUT_ST G) = k →
  process_ok (bar_pre par chs) (bar_post n par chs) busy (λ _ _ _, True) (λ p _ g _, passed chs p g)
    (λ _, True) p bg0 (worker_process fuel junk G).
Proof.
  intros Hp Hw. split; [done|]. unfold worker_main, mbind, prog_mbind. pose proof Hp as Hp'. unfold is_rank in Hp'.
  destruct (init_shape (K := off_barrier) fuel G junk n p k) as (rest & -> & Hq); [done|done|done|nia|].
  do 4 (split; [split; [done|by intros r g' [_ ->]]|intros r g' [-> ->]]). cbn [prog_bind].
  eapply (off_barrier_main n par chs p) with (Φ := λ x, clean_rel par chs p bg0 x.2); [done| |].
  2: { intros x Hx. split; [done|]. by apply (bar_rest_safe n par chs p Hp). }
  eapply quiet_seq; [exact Hq|]. intros st [_ Hb _ _ _ Ht]. rewrite Hw in Ht.
  apply (quiet_seq _ _ _ _ (λ _, True)).
  { destruct (_ || _); [|done]. unfold call_cb. destruct (create_cb _) as [u|]; [|done].
    eapply quiet_mono; [|by apply quiet_user]. done. }
  intros G1 _. apply quiet_bind, quiet_rounds. intros G2 st2 [Ht2 Hb2]. cbn. split.
  - rewrite Ht2. apply my_tree_rep; [lia|done].
  - rewrite Hb2, Hb. split; cbn; [by rewrite size_empty|set_solver|done|done].
Qed.

Lemma bar_job_stays_ok fuel junk G c :
  (∀ p, is_rank n p → tree_width (CIRCLE_INPUT_ST (G p)) = k) → reachable n (job fuel junk G) c → ok c.
Proof.
  intros HG. apply network_sound; [|done|].
  - intros gh ch p o r ch'. apply bar_inv_step, barrier_tree.
  - exists (λ _, bg0). split; [apply bar_start_inv|]. intros p Hp. apply bar_start_ok; auto.
Qed.
End job.

(** When one process has returned, all have left their main loops. *)
Lemma all_have_left n k fuel junk G c p x r :
  1 ≤ k → 0 < n → n * k ≤ INT32_MAX →
  (∀ q, is_rank n q → tree_width (CIRCLE_INPUT_ST (G q)) = k) →
  reachable n (job fuel junk G) c →
  is_rank n p → procs c p = Drain x (Ret r) →
  ∀ q, is_rank n q → ∃ y u, procs c q = Drain y u.
Proof.
  intros Hk Hn Hmax HG Hr Hp Hd q Hq.
  destruct (bar_job_stays_ok n k Hk Hn Hmax fuel junk G c HG Hr) as (gh & Hi & Hok).
  destruct (decide (q = p)) as [->|Hne]; [by eauto|].
  pose proof (Hok p Hp) as Hx. rewrite Hd in Hx. destruct Hx as [_ Hpass].
  pose proof (Hok q Hq) as Hy. destruct (procs c q) as [t after|y u]; [|by eauto]. destruct Hy as [Hb _].
  pose proof (barrier_tree n k Hk Hn) as Htree.
  by destruct (nobody_busy _ _ _ gh _ p q Hi Hp Hpass Hq Hne).
Qed.

(** C5 No process returns from CIRCLE_worker while another one is still in its
    main loop, whatever the users of the ranks do, whichever way termination
    is detected and whether the job is aborted or not. *)
Theorem barrier_separates n k fuel junk G c p x r :
  1 ≤ k → 0 < n → n * k ≤ INT32_MAX →
  (∀ q, is_rank n q → tree_width (CIRCLE_INPUT_ST (G q)) = k) →
  reachable n (job fuel junk G) c →
  is_rank n p → procs c p = Drain x (Ret r) →
  ∀ q, is_rank n q → ∃ y u, procs c q = Drain y u.
Proof. intros Hk Hn Hmax HG Hr. by apply (all_have_left n k fuel junk G). Qed.

(** ** An example run: the job of TermSafe, to the end *)

Definition has_returned (x : worker) : bool := match x with Drain _ (Ret _) => true | _ => false end.

Lemma demo_returns : ∃ x r, procs demo_end 0 = Drain x (Ret r).
Proof.
  assert (has_returned (procs demo_end 0) = true) as Hl by (vm_compute; reflexivity).
  destruct (procs demo_end 0) as [t after|x [r| |]]; [done|by exists x, r|done..].
Qed.

Lemma barrier_separates_witness :
  (∃ x r, procs demo_end 0 = Drain x (Ret r)) ∧ ∀ q, is_rank 2 q → ∃ y u, procs demo_end q = Drain y u.
Proof.
  destruct demo_returns as (x & r & Hd). split; [by exists x, r|].
  apply (barrier_separates 2 2 40 demo_junk demo_globals demo_end 0 x r).
  - lia.
  - lia.
  - c_arith.
  - intros q _. reflexivity.
  - exact demo_reachable.
  - unfold is_rank. lia.
  - exact Hd.
Defined.
