(* ===== verification/Conserve.v ===== *)
(** * No item is lost, made up or handed out twice

    The accounts of Ledger for a whole job, for any class of strings - all of
    them, say, or a single one.  However the messages of the ranks interleave,
    user code never takes more items of the class out of the queues than were
    put in; and when all ranks have returned from a run with tree termination
    and without an abort, every item of the class that was put in has been
    taken out, once.  So balancing work among the ranks hands out the strings
    that were put in, each of them as often as it was put in. *)
From S2P Require Import Prelude CMonad Mem Heap Queue Wire Tree State Mpi Network Ranks TermSpec TermInv Sends Transfer Proc Api Reduce Quiet Shelf Ledger Worker QuietWorker TermCode LedgerCode TermSafe NoAbort.

(** What the ranks start from: user code that reports the items of the class,
    and a queue with the items [stk]. *)
Record accounted (cls : list byte → bool) (k : Z) (G : globals) (stk : list (list byte)) : Prop := Accounted {
  ac_users : reporting cls G;
  ac_queue : ∃ qp, queue (CIRCLE_INPUT_ST G) = Some qp ∧ queue_rep qp stk;
  ac_width : tree_width (CIRCLE_INPUT_ST G) = k;
}.

Lemma accounted_holds cls k G stk : accounted cls k G stk → holds G stk.
Proof. intros [_ (qp & Hq & Hr) _]. unfold holds. rewrite Hq. by apply queue_rep_stocked. Qed.

(** A process that returns without an abort has in its queue what it is
    accountable for. *)
Definition balanced (cls : list byte → bool) (p : Z) (x : Z * Z * globals * CIRCLE_state_st) (g : account)
    (r : Z * globals) : Prop := left_with cls r.2 g.

Section job.
Context (n k : Z) (Hk : 1 ≤ k) (Hmax : n * k ≤ INT32_MAX) (cls : list byte → bool).

Abbreviation job_ok total := (network_ok n (led_pre n cls) (led_post n cls) (led_inv n cls total) (λ _ _, True)
  (λ _ _ _, True) (balanced cls) (λ _, True)).

Lemma worker_led p fuel junk G stk :
  is_rank n p → accounted cls k G stk →
  process_ok (led_pre n cls) (led_post n cls) (λ _ _, True) (λ _ _ _, True) (balanced cls) (λ _, True) p
    (rest (worth cls stk)) (worker_process fuel junk G).
Proof.
  intros Hp Hac. pose proof (accounted_holds _ _ _ _ Hac) as Hst. destruct Hac as [Hu _ Hw].
  split; [done|]. apply main_wp; [done|]. unfold worker_main, mbind, prog_mbind.
  pose proof Hp as Hp'. unfold is_rank in Hp'.
  destruct (init_shape (K := off_ledger) fuel G junk n p k) as (after & -> & Hinit); [done|done|done|nia|].
  do 4 (split; [done|intros r g' [-> ->]]). cbn [prog_bind].
  apply wp_seq. eapply off_ledger_wp; [exact Hinit|]. intros st [_ _ Hreq _ _ _].
  apply wp_seq. eapply wp_post with (Q := settles cls G).
  - intros g G1 (Hs & stk1 & Hst1 & ->). apply wp_seq. eapply wp_post, rounds_led.
    + intros g' [G2 st2] Hl. split; [done|]. by apply rest_led.
    + split; [by apply (reporting_same cls G)|]. exists stk1. by rewrite Hreq.
  - destruct (_ || _); [|split; [done|by exists stk]]. unfold call_cb. destruct (create_cb _) as [u|] eqn:Hc; [|done].
    cbn [deref mbind prog_mbind prog_bind]. apply user_safe; [by apply (rp_create cls G)|done].
Qed.

Lemma accounts_start (stk : Z → list (list byte)) :
  led_inv n cls (sum_ranks n (λ p, worth cls (stk p))) (λ p, rest (worth cls (stk p))) (λ _, []).
Proof.
  split; [|intros p _; apply worth_nonneg]. exists (λ _ _, 0). split; [|intros a b; constructor].
  assert (flights n (λ _ _, 0) = 0) as -> by (apply sum_zero; intros a _; by apply sum_zero).
  rewrite (sum_zero (reported (λ _, []))) by done. cbn. lia.
Qed.

Lemma job_accounts fuel junk G stk c :
  (∀ p, is_rank n p → accounted cls k (G p) (stk p)) → reachable n (job fuel junk G) c →
  job_ok (sum_ranks n (λ p, worth cls (stk p))) c.
Proof.
  intros HG. apply network_sound; [|done|].
  - intros gh ch p o r ch'. apply led_inv_step.
  - exists (λ p, rest (worth cls (stk p))). split; [apply accounts_start|].
    intros p Hp. by apply worker_led; auto.
Qed.
End job.

(** C4 Items are never made up or handed out twice.  In every run of a job,
    with either way of detecting termination and also when it is aborted, and
    for every class of strings: user code has taken out of the queues at most
    as many items of the class as were in the queues at the start or were put
    in since.  (For the class of one string: a string comes out at most as
    often as it went in.) *)
Theorem items_never_duplicated cls n k fuel junk G stk c :
  1 ≤ k → n * k ≤ INT32_MAX → (∀ q, is_rank n q → accounted cls k (G q) (stk q)) →
  reachable n (job fuel junk G) c →
  sum_ranks n (calls_made GOT_CALL (chans c)) ≤
  sum_ranks n (λ q, worth cls (stk q)) + sum_ranks n (calls_made PUT_CALL (chans c)).
Proof.
  intros Hk Hmax HG Hr. destruct (job_accounts n k Hk Hmax cls fuel junk G stk c HG Hr) as (gh & [(F & Hs & Hw) Hpos] & _).
  pose proof (sum_nonneg (λ p, held (gh p)) Hpos).
  assert (0 ≤ flights n F) by (apply sum_nonneg; intros a _; apply sum_nonneg; intros b _; by eapply way_nonneg).
  unfold reported in Hs. rewrite sum_sub in Hs. lia.
Qed.

(** Without a header, nothing is on its way. *)
Lemma way_no_header cls l h v : way cls None l h v → (∀ m, m ∈ l → work_header m = false) → v = 0.
Proof.
  remember (None : option (list Z)) as e eqn:He. intros H Hno. induction H as [|x d l h v Hx _ IH|x d l h v Hx _ _|]; try done.
  - apply IH; [done|]. intros m Hm. apply Hno. by right.
  - specialize (Hno _ ltac:(by left)). cbn in Hno. apply Z.ltb_ge in Hno. lia.
Qed.

(** A run without an abort, whether or not user code could have asked for one. *)
Lemma all_items_taken cls n k fuel junk G stk c :
  1 ≤ k → 2 ≤ n → n * k ≤ INT32_MAX →
  (∀ q, is_rank n q → accounted cls k (G q) (stk q)) → (∀ q, is_rank n q → ready k (G q)) →
  reachable n (job fuel junk G) c →
  (∀ q, is_rank n q → ∃ x r, procs c q = Drain x (Ret r) ∧
     truth (CIRCLE_ABORT_FLAG (left_globals x)) = false ∧ truth (CIRCLE_ABORT_FLAG r.2) = false) →
  sum_ranks n (calls_made GOT_CALL (chans c)) =
  sum_ranks n (λ q, worth cls (stk q)) + sum_ranks n (calls_made PUT_CALL (chans c)).
Proof.
  intros Hk Hn Hmax HG Hready Hr Hend.
  destruct (job_accounts n k Hk Hmax cls fuel junk G stk c HG Hr) as (gh & [(F & Hs & Hw) _] & Hok).
  destruct (Hend 0) as (x0 & r0 & Hd0 & _); [unfold is_rank; lia|].
  destruct (job_over n k fuel junk G c 0 x0 (Ret r0) Hk Hn Hmax Hready Hr ltac:(unfold is_rank; lia) Hd0)
    as (gt & Hi & Hokt & Hall).
  assert (∀ q, is_rank n q → gh q = rest 0) as Hz.
  { intros q Hq. destruct (Hend q Hq) as (x & r & Hd & Hx & Hr2).
    pose proof (Hok q Hq) as H1. pose proof (Hokt q Hq) as H2. rewrite Hd in H1, H2.
    destruct H1 as [_ Hbal]. destruct H2 as [_ [Hno|Hab]]; [|congruence].
    destruct (Hbal Hr2) as (s & Hst & ->). unfold holds, no_items in *.
    destruct (queue _) as [qp|]; [|by subst s]. assert (s = []) as ->; [|done]. apply nil_length_inv.
    pose proof (sk_count _ _ Hst) as Hc. pose proof (Hno _ eq_refl). lia. }
  assert (flights n F = 0) as Hf.
  { apply sum_zero. intros a Ha. apply sum_zero. intros b Hb. pose proof (Hw a b) as Hab. rewrite !Hz in Hab by done.
    eapply way_no_header; [exact Hab|]. intros m Hm.
    apply (nothing_under_way n k gt (chans c) Hi (λ q Hq, proj2 (Hall q Hq)) a b m Ha Hb Hm). }
  assert (sum_ranks n (λ q, held (gh q)) = 0) as Hh by (apply sum_zero; intros q Hq; by rewrite Hz).
  unfold reported in Hs. rewrite sum_sub in Hs. lia.
Qed.

(** C2 With tree termination every item is handed out exactly once, and
    unchanged.  When all ranks have returned from CIRCLE_worker, and user code
    never called CIRCLE_abort, it has taken out of the queues, for every class
    of strings, exactly as many items of the class as were in them at the
    start or were put in since: transfers between the ranks neither lose an
    item nor make one up nor alter one, and no rank stops early. *)
Theorem every_item_handed_out_once cls n k fuel junk G stk c :
  1 ≤ k → 2 ≤ n → n * k ≤ INT32_MAX →
  (∀ q, is_rank n q → accounted cls k (G q) (stk q)) → (∀ q, is_rank n q → ready k (G q)) →
  (∀ q, is_rank n q → CIRCLE_ABORT_FLAG (G q) = 0 ∧ never_aborts (G q)) →
  reachable n (job fuel junk G) c →
  (∀ q, is_rank n q → ∃ x r, procs c q = Drain x (Ret r)) →
  sum_ranks n (calls_made GOT_CALL (chans c)) =
  sum_ranks n (λ q, worth cls (stk q)) + sum_ranks n (calls_made PUT_CALL (chans c)).
Proof.
  intros Hk Hn Hmax HG Hready Hna Hr Hend. apply (all_items_taken cls n k fuel junk G stk c); [done..|].
  destruct (job_innocent n k Hk Hmax fuel junk G c) as (gh & _ & Hok); [|done|].
  { intros q Hq. split; [by apply Hready|]. by split; apply Hna. }
  intros q Hq. destruct (Hend q Hq) as (x & r & Hd). exists x, r. split; [done|].
  pose proof (Hok q Hq) as Hx. rewrite Hd in Hx. destruct Hx as [Hleft Hret]. cbn in Hret.
  by rewrite Hleft, Hret.
Qed.

(** ** An example run: rank 0 creates four items, "a" twice and "b" twice;
    both ranks work, and report the items "a" *)

Definition is_a (s : list byte) : bool := bool_decide (s = [Byte.x61]).

Definition put_item (s : list byte) (after : user) : user :=
  UEnqueue (Some s) (λ rc, if (rc =? 0) && is_a s then UExternal PUT_CALL (λ _, after) else after).
Definition take_item (after : user) : user :=
  UDequeue (Some 4) (λ rc s, if (rc =? 0) && default false (is_a <$> s) then UExternal GOT_CALL (λ _, after) else after).

Definition put_items (l : list (list byte)) : user := foldr put_item UReturn l.

Definition four_items : CIRCLE_input_st :=
  mk_input (Some (put_items [[Byte.x61]; [Byte.x62]; [Byte.x61]; [Byte.x62]]))
    (Some (take_item (UExternal WORK_CALL (λ _, UReturn))))
    None None None None 0 0 (Z.lor CIRCLE_TERM_TREE CIRCLE_SPLIT_EQUAL) 2
    (Some (mkQueue 1 (Some (Block 1 4096 ∅)) 4096 0 (Some (Block 1 8 ∅)) 8 0)).

Definition four_job := job 60 demo_junk (λ p, mk_globals four_items 0 p 0 0).
Definition four_end := exec_rounds 2 (λ _, false) 60 10 four_job.
Definition has_returned (x : worker) : bool := match x with Drain _ (Ret _) => true | _ => false end.

Lemma has_returned_spec x : has_returned x = true → ∃ y r, x = Drain y (Ret r).
Proof. destruct x as [t after|y [r| |]]; try done. by exists y, r. Qed.

Lemma four_accounted p : accounted is_a 2 (mk_globals four_items 0 p 0 0) [].
Proof.
  split; [split| |]; try done.
  - intros u [= <-]. by repeat split.
  - intros u [= <-]. cbn [announces take_item]. split; [done|]. intros s. cbn.
    destruct (is_a s) eqn:Hs; by repeat split.
  - eexists. split; [done|]. eexists _, _. by split; cbn; try done; intros; lia.
Qed.

Lemma four_ready p : ready 2 (mk_globals four_items 0 p 0 0).
Proof. split; [by repeat split| |done|done]. by intros qp [= <-]. Qed.

Lemma four_reachable : reachable 2 four_job four_end.
Proof. unfold four_end. apply exec_rounds_reachable, rtc_refl. Qed.

Lemma four_patient p : CIRCLE_ABORT_FLAG (mk_globals four_items 0 p 0 0) = 0 ∧ never_aborts (mk_globals four_items 0 p 0 0).
Proof.
  split; [done|]. split; try done.
  - intros u [= <-]. cbn. intros rc. repeat case_match; repeat (intros ?; repeat case_match); done.
  - intros u [= <-]. cbn. intros rc s. case_match; done.
Qed.

(** "a" was put in twice and taken out twice. *)
Lemma four_counted :
  sum_ranks 2 (calls_made PUT_CALL (chans four_end)) = 2 ∧ sum_ranks 2 (calls_made GOT_CALL (chans four_end)) = 2.
Proof. vm_compute. done. Qed.

Lemma items_never_duplicated_witness :
  sum_ranks 2 (calls_made GOT_CALL (chans four_end)) ≤
  sum_ranks 2 (λ q, worth is_a []) + sum_ranks 2 (calls_made PUT_CALL (chans four_end)).
Proof.
  apply (items_never_duplicated is_a 2 2 60 demo_junk (λ p, mk_globals four_items 0 p 0 0) (λ _, []) four_end).
  - lia.
  - c_arith.
  - intros q _. apply four_accounted.
  - exact four_reachable.
Defined.

Lemma every_item_handed_out_once_witness :
  sum_ranks 2 (calls_made GOT_CALL (chans four_end)) =
  sum_ranks 2 (λ q, worth is_a []) + sum_ranks 2 (calls_made PUT_CALL (chans four_end)).
Proof.
  apply (every_item_handed_out_once is_a 2 2 60 demo_junk (λ p, mk_globals four_items 0 p 0 0) (λ _, []) four_end).
  - lia.
  - lia.
  - c_arith.
  - intros q _. apply four_accounted.
  - intros q _. apply four_ready.
  - intros q _. apply four_patient.
  - exact four_reachable.
  - intros q Hq. apply has_returned_spec. unfold is_rank in Hq.
    destruct (decide (q = 0)) as [->|]; [vm_compute; reflexivity|].
    replace q with 1 by lia. vm_compute. reflexivity.
Defined.
