(* ===== verification/RingSafe.v ===== *)
(** * The token ring tells all ranks, in order

    The worker keeps to the protocol of RingSpec: it has the token when
    [token_is_local] says so, and knows of the termination when its
    [token_proc] is TERMINATE.  So there is one token in a job, whatever the
    users of the ranks do; and when one rank has left its main loop because
    of the ring, all lower ranks have left theirs or are about to. *)
From S2P Require Import Prelude CMonad Mem Queue Wire Tree State Mpi Sends Transfer Barrier Term Abort Token Network Ranks Proc Api Reduce Quiet Worker QuietWorker RingSpec TermSafe.
From Stdlib Require Import Floats.SpecFloat.

(** Calls that do not exchange the token. *)
Definition off_ring (o : op) : bool := negb (on_tag CIRCLE_TAG_TOKEN o).

#[export] Instance off_ring_local : Local off_ring.
Proof. split. by intros []. Qed.
#[export] Instance off_ring_talks tag : TCEq (tag =? CIRCLE_TAG_TOKEN) false → Talks off_ring tag.
Proof.
  intros Ht%TCEq_eq. split. unfold off_ring.
  intros [] Ho; cbn in *; try done; apply Z.eqb_eq in Ho; subst; by rewrite Ht.
Qed.
#[export] Instance off_ring_works : Works off_ring.
Proof. by split. Qed.

(** What is left of a main loop that has been told to end. *)
Definition winding_up (o : op) : bool :=
  match o with OWait _ => true | OIssend _ tag _ => tag =? CIRCLE_TAG_TOKEN | _ => false end.

Section code.
Context (n p : Z) (Hp : is_rank n p).

Abbreviation safe t Q g :=
  (wp (main_protocol (ring_pre n) (ring_post n) in_loop p) t Q (λ _ _, True) g).
Abbreviation safe_after t Q g := (wp (net_protocol (ring_pre n) (ring_post n) p) t Q (λ _ _, True) g).

Lemma off_ring_pre g o : off_ring o = true → ring_pre n p g o.
Proof.
  unfold off_ring. destruct o; cbn; try done; destruct (Z.eqb_spec tag CIRCLE_TAG_TOKEN); by intros.
Qed.

Lemma off_ring_post g o r g' :
  off_ring o = true → ring_post n p g o r g' → g' = g ∨ g' = elsewhere g.
Proof.
  unfold off_ring. destruct o; cbn; try (by intros _ ->; auto); try (by intros _ [-> _]; auto);
    try (by intros _ [_ ->]; auto); destruct (tag =? CIRCLE_TAG_TOKEN); try done; by intros _ ->; auto.
Qed.

(** Before the decision other calls leave the ghost state alone. *)
Lemma off_ring_main {A} (t : prog A) Φ (Q : tg → A → Prop) g :
  t_done g = false → t_gone g = false → quiet off_ring t Φ → (∀ a, Φ a → Q g a) → safe t Q g.
Proof.
  intros Hd Hg Ht HQ. assert (elsewhere g = g) as He by (destruct g; cbn in *; by subst).
  induction t as [a|e|o k IH]; cbn in *; [auto|done|]. destruct Ht as [Ho Hk].
  split; [split; [by apply off_ring_pre|]|]; intros r g' [-> | ->]%off_ring_post; rewrite ?He; auto.
Qed.

(** Later on they leave the knowledge of the termination alone. *)
Lemma off_ring_after {A} (t : prog A) Φ (Q : tg → A → Prop) g :
  quiet off_ring t Φ → (∀ g' a, t_done g' = t_done g → Φ a → Q g' a) → safe_after t Q g.
Proof.
  intros Ht HQ. revert g HQ. induction t as [a|e|o k IH]; intros g HQ; cbn in *; [auto|done|].
  destruct Ht as [Ho Hk]. split; [by apply off_ring_pre|].
  intros r g' [-> | ->]%off_ring_post; [|..|done]; apply IH; auto.
Qed.

(** ** The token *)

(** Before the termination is known. *)
Record tok_rel (g : tg) (tk : token_st) : Prop := TokRel {
  tr_src : token_src tk = ring_prev n p;
  tr_dest : token_dest tk = ring_next n p;
  tr_open : t_done g = false ∧ t_gone g = false;
  tr_proc : token_proc tk ≠ TERMINATE;
  tr_local : truth (token_is_local tk) = bool_decide (is_Some (t_tok g));
  tr_buf : is_Some (t_tok g) → token_buf tk = WHITE ∨ token_buf tk = BLACK;
}.

Lemma issend_open abort g tk :
  tok_rel g tk → is_Some (t_tok g) →
  safe (CIRCLE_token_issend abort tk)
    (λ g' tk', tok_rel g' (set_token_proc WHITE tk')) g.
Proof.
  intros [Hs Hd [Hdn Hgn] Hpr Hl Hb] Htok. unfold CIRCLE_token_issend. destruct (truth abort).
  { cbn. by split. }
  apply wp_seq. split.
  - split; [intros _; split; [done|]; split; [by destruct Htok as [v ->]|]|].
    + exists (token_buf tk). rewrite Hdn. auto.
    + intros r g'. cbn. by intros ->.
  - intros r g'. cbn. intros ->. split; cbn; done.
Qed.

Lemma check_local abort tk g :
  tok_rel g tk → truth (token_is_local tk) = true →
  safe (let tk := if p =? 0 then set_token_buf WHITE tk
                  else if token_proc tk =? BLACK then set_token_buf BLACK tk else tk in
        tk ← CIRCLE_token_issend abort tk;
        mret (set_token_proc WHITE tk)) (λ g' tk', tok_rel g' tk') g.
Proof.
  intros Hr Hloc. pose proof Hr as [Hs Hd [Hdn Hgn] Hpr Hl Hb]. rewrite Hloc in Hl.
  symmetry in Hl. apply bool_decide_eq_true in Hl. cbn zeta. apply wp_seq.
  eapply wp_post; [|apply issend_open; [|done]]; [by intros g' tk' H|].
  destruct (p =? 0); [|destruct (token_proc tk =? BLACK)]; split; cbn; auto;
    rewrite Hloc; symmetry; by apply bool_decide_eq_true.
Qed.

(** The rank is told to stop: it knows, and only passes the token on. *)
Definition told (g : tg) (tk : token_st) : Prop :=
  t_done g = true ∧ t_gone g = false ∧ token_src tk = ring_prev n p.

Lemma wait_token_keeps tk (Q : tg → token_st → Prop) g :
  t_gone g = false → (∀ r, Q g (set_token_send_req r tk)) → safe (wait_token tk) Q g.
Proof.
  intros Hg HQ. unfold wait_token. destruct (token_send_req tk) as [r|] eqn:Hr; cbn.
  - split; [by split; [done|intros ? ? ->]|]. intros [] g' ->. apply HQ.
  - pose proof (HQ None) as H. destruct tk; cbn in *. by subst.
Qed.

Lemma pass_on abort g tk :
  told g tk → t_tok g ≠ None → token_dest tk = ring_next n p → token_buf tk = TERMINATE →
  safe (if p <? n - 1 then CIRCLE_token_issend abort tk else mret tk) (λ g' tk', told g' tk') g.
Proof.
  intros (Hdn & Hgn & Hsrc) Htok Hd Hb. destruct (Z.ltb_spec p (n - 1)); [|by split].
  unfold CIRCLE_token_issend. destruct (truth abort); [by split|].
  apply wp_seq. rewrite Hd, Hb. split.
  - split; [intros _; split; [done|]; split; [done|]; exists TERMINATE; rewrite Hdn; auto|].
    by intros r g' ->.
  - by intros r g' ->.
Qed.

Lemma token_recv_safe abort tk g :
  tok_rel g tk →
  safe (CIRCLE_token_recv abort p n tk)
    (λ g' tk', if token_proc tk' =? TERMINATE then told g' tk' else tok_rel g' tk') g.
Proof.
  intros [Hs Hd [Hdn Hgn] Hpr Hl Hb]. unfold CIRCLE_token_recv, recv_int. rewrite Hs. cbn zeta.
  apply wp_seq, wp_seq.
  split; [split; [done|]|]; intros m g' (Htok & _ & v & -> & Hv & ->); [done|].
  cbn [wp mret prog_mret]. apply wp_seq. apply wait_token_keeps; [done|]. intros rq. cbn [wp].
  change ((p =? 0) && (v =? WHITE) || (v =? TERMINATE)) with (decisive p v). rewrite Hgn.
  set (tk1 := if _ && _ then _ else _).
  assert (tok_rel (TG (Some v) false false) tk1 ∨ v = TERMINATE) as Hr1.
  { destruct (decide (v = TERMINATE)) as [|Hne]; [by right|left].
    subst tk1. destruct (_ && _); split; cbn; try done; unfold token_value in Hv; naive_solver. }
  assert (token_src tk1 = ring_prev n p ∧ token_dest tk1 = ring_next n p) as [Hs1 Hd1]
    by (subst tk1; by destruct (_ && _)).
  clearbody tk1. destruct (decisive p v) eqn:Hdec.
  - apply wp_seq. unfold i32. destruct (in_i32 (n - 1)); [|done]. cbn [wp]. apply wp_seq.
    eapply wp_post; [|apply pass_on; done]. by intros g' tk' Ht.
  - cbn [wp mret prog_mret]. destruct Hr1 as [Hr1| ->].
    + by rewrite (proj2 (Z.eqb_neq _ _) (tr_proc _ _ Hr1)).
    + unfold decisive in Hdec. by rewrite Z.eqb_refl, orb_true_r in Hdec.
Qed.

Lemma token_check_safe abort tk g :
  tok_rel g tk →
  safe (CIRCLE_token_check abort p n tk)
    (λ g' tk', if token_proc tk' =? TERMINATE then told g' tk' else tok_rel g' tk') g.
Proof.
  intros Hr. unfold CIRCLE_token_check. pose proof Hr as [Hs Hd [Hdn Hgn] Hpr Hl Hb].
  assert (elsewhere g = g) as He by (destruct g; cbn in *; by subst).
  apply wp_seq. split; [split; [done|]|]; intros m g' [-> _]; rewrite He; [done|].
  destruct m; [by apply token_recv_safe|]. cbn. by rewrite (proj2 (Z.eqb_neq _ _) Hpr).
Qed.

Lemma check_for_term_safe abort tk g :
  tok_rel g tk →
  safe (CIRCLE_check_for_term abort p n tk)
    (λ g' '(status, tk'), if status =? TERMINATE then told g' tk' else tok_rel g' tk') g.
Proof.
  intros Hr. unfold CIRCLE_check_for_term. rewrite (proj2 (Z.eqb_neq _ _) (tr_proc _ _ Hr)).
  apply wp_seq. destruct (truth (token_is_local tk)) eqn:Hloc.
  - eapply wp_post; [|by apply check_local]. intros g' tk' Hr'. cbn.
    by rewrite (proj2 (Z.eqb_neq _ _) (tr_proc _ _ Hr')).
  - eapply wp_post; [|by apply token_check_safe]. by intros g' tk' Ht.
Qed.

(** ** The main loop *)

Record ring_rel (g : tg) (st : CIRCLE_state_st) : Prop := RingRel {
  rr_place : st_rank st = p ∧ st_size st = n;
  rr_token : tok_rel g (st_token st);
}.

Lemma ring_rel_frame g st st' : ring_rel g st → ring_frame st st' → ring_rel g st'.
Proof.
  intros [[Hp' Hn] [Hs Hd Ho Hpr Hl Hb]] (Htk & [Hp2 Hn2] & _). split; [by rewrite Hp2, Hn2|].
  destruct Htk as [-> | ->]; by split.
Qed.

Abbreviation tree_mode st := (truth (term_tree_enabled (st_term st))).

(** What a round, or the whole loop, leaves. *)
Definition round_rel (st0 : CIRCLE_state_st) (stop : bool) (g : tg) (st : CIRCLE_state_st) : Prop :=
  tree_mode st = tree_mode st0 ∧
  if stop && negb (tree_mode st0) then told g (st_token st) else ring_rel g st.

Lemma termination_safe G st g :
  ring_rel g st →
  safe (check_termination G st) (λ g' '(status, st'), round_rel st (status =? TERMINATE) g' st') g.
Proof.
  intros Hr. unfold check_termination, round_rel. destruct (tree_mode st) eqn:Hm.
  - pose proof (tr_open _ _ (rr_token _ _ Hr)) as [Hdn Hgn].
    apply wp_seq. eapply off_ring_main; [done..| |].
    + apply quiet_term_allreduce with (Φ := λ x, term_tree_enabled x.2 = term_tree_enabled (st_term st)).
      by intros status s'.
    + intros [status s] Hs. cbn in Hs |- *. rewrite Hs, andb_false_r. split; [done|]. destruct Hr. by split.
  - destruct Hr as [[Hrank Hsize] Htok]. apply wp_seq. rewrite Hrank, Hsize.
    eapply wp_post; [|by apply check_for_term_safe]. intros g' [status tk] Hst. cbn. rewrite andb_true_r.
    split; [done|]. destruct (status =? TERMINATE); [done|by split].
Qed.

Lemma seq_open {A B} (t : prog A) (f : A → prog B) Φ (Q : tg → B → Prop) g st :
  ring_rel g st → quiet off_ring t Φ → (∀ a, Φ a → safe (f a) Q g) → safe (prog_bind f t) Q g.
Proof.
  intros Hr Ht Hf. pose proof (tr_open _ _ (rr_token _ _ Hr)) as [Hdn Hgn].
  apply wp_seq. by eapply off_ring_main.
Qed.

Lemma round_rel_frame st0 stop g st : ring_rel g st0 → work_frame st0 st → stop = false → round_rel st0 stop g st.
Proof.
  intros Hr [_ Hf] ->. split; [destruct Hf as (_ & _ & Hm); by rewrite Hm|]. by eapply ring_rel_frame.
Qed.

Lemma ring_round_safe fuel G st g :
  ring_rel g st → safe (work_round fuel G st) (λ g' '(stop, _, st'), round_rel st stop g' st') g.
Proof.
  intros Hr. unfold work_round.
  eapply (seq_open _ _ (λ x, work_frame st x.2)); [done|by apply quiet_serve_sync|]. intros [G1 st1] H1. cbn in H1.
  eapply (seq_open _ _ (λ x, work_frame st x)); [done| |].
  { apply quiet_receipt_check. intros t Ht. etrans; [exact H1|by apply work_frame_same]. }
  clear st1 H1. intros st1 H1.
  eapply (seq_open _ _ (λ x, work_frame st x)); [done|apply quiet_reap_sync; intros; by etrans|].
  clear st1 H1. intros st1 H1.
  eapply (seq_open _ _ (λ x, work_frame st x.2)); [done|apply quiet_abort_sync; intros; by etrans|].
  clear G1 st1 H1. intros [G1 st1] H1. cbn in H1.
  eapply (seq_open _ _ (λ x, work_frame st x.2)); [done|apply quiet_reduce_sync_frame; intros; by etrans|].
  clear G1 st1 H1. intros [G1 st1] H1. cbn in H1.
  unfold the_queue. apply wp_seq. destruct (queue (CIRCLE_INPUT_ST G1)) as [q|]; [|done]. cbn [wp deref].
  eapply (seq_open _ _ (λ x, work_frame st x.2)); [done| |].
  { destruct (_ =? 0); [apply quiet_request_sync; intros; by etrans|done]. }
  clear G1 st1 H1. intros [G1 st1] H1. cbn in H1.
  apply wp_seq. destruct (queue (CIRCLE_INPUT_ST G1)) as [q1|]; [|done]. cbn [wp deref].
  destruct (_ && _).
  - eapply (seq_open _ _ (λ _, True)); [done| |intros G2 _].
    { unfold call_cb. quiet_steps. eapply quiet_mono; [|by apply quiet_user]. done. }
    apply wp_seq. unfold i32. destruct (in_i32 _); [|done]. apply round_rel_frame; [done| |done].
    etrans; [exact H1|by apply work_frame_same].
  - apply wp_seq. eapply wp_post; [|apply termination_safe; eapply ring_rel_frame; [exact Hr|apply H1]].
    intros g' [status st'] [Hm Hs]. cbn. destruct H1 as [_ (_ & _ & Hm1)]. unfold round_rel.
    by rewrite Hm, <-Hm1.
Qed.

Lemma ring_rounds_safe m fuel G st g :
  ring_rel g st → safe (work_rounds m fuel G st) (λ g' '(_, st'), round_rel st true g' st') g.
Proof.
  revert G st g. induction m as [|m IH]; intros G st g Hr; cbn [work_rounds]; [done|].
  apply wp_seq. eapply wp_post, ring_round_safe; [|done]. intros g' [[[] G'] st'] [Hm Hs]; [by split|].
  eapply wp_post; [|by apply IH]. intros g2 [G2 st2] [Hm2 Hs2]. cbn beta. unfold round_rel. by rewrite <-Hm, Hm2.
Qed.

(** ** After the main loop *)

(** Any other call shows that the rank has gone on. *)
Lemma goes_elsewhere g o :
  winding_up o = false → ring_pre n p g o → t_done g = true → ∃ r, ring_post n p g o r (elsewhere g).
Proof.
  intros Hw Hpre Hd. destruct o; cbn in Hw, Hpre |- *; try done;
    try first [by exists None | by exists tt | by exists 0 | by exists true | by exists (0, 0) | by exists p
      | by exists n | by exists [] | by exists (S754_zero false) | by exists (0, true)].
  - destruct (Z.eqb_spec tag CIRCLE_TAG_TOKEN) as [->|]; [|by exists (Bytes [])].
    destruct (Hpre eq_refl). congruence.
  - rewrite Hw. by exists 0.
Qed.

(** Whoever knows of the termination and is in its main loop is about to
    leave it. *)
Lemma told_winds_up {A} (t : prog A) Q g :
  t_done g = true → t_gone g = false → safe t Q g → quiet winding_up t (λ _, True).
Proof.
  revert g. induction t as [a|e|o k IH]; intros g Hd Hg Ht; [done|done|].
  destruct Ht as [[Hpre Hloop] Hk]. destruct (winding_up o) eqn:Hw.
  - split; [done|]. intros r. destruct o; cbn in Hw; try done; cbn in Hpre, Hk.
    + rewrite Hw in Hk. eapply IH; [..|by apply Hk]; done.
    + eapply IH; [..|by apply Hk]; done.
  - destruct (goes_elsewhere g o Hw Hpre Hd) as [r Hr]. specialize (Hloop r _ Hr).
    unfold in_loop, elsewhere in Hloop. cbn in Hloop. by rewrite Hd, orb_true_r in Hloop.
Qed.

(** A rank that left because of the ring has been told, and finds no token. *)
Definition left_rel (g : tg) (st : CIRCLE_state_st) : Prop :=
  tree_mode st = true ∨ (t_done g = true ∧ token_src (st_token st) = ring_prev n p).

Lemma left_rel_frame g g' st st' :
  left_rel g st → t_done g' = t_done g → work_frame st st' → left_rel g' st'.
Proof.
  unfold left_rel. intros Hl Hd [_ (Htk & _ & Hm)]. rewrite Hm, Hd. destruct Hl as [|[? ?]]; [by left|right].
  split; [done|]. by destruct Htk as [-> | ->].
Qed.

Lemma seq_after {A B} (t : prog A) (f : A → prog B) Φ (Q : tg → B → Prop) g :
  quiet off_ring t Φ → (∀ g' a, t_done g' = t_done g → Φ a → safe_after (f a) Q g') →
  safe_after (prog_bind f t) Q g.
Proof. intros Ht Hf. apply wp_seq. by eapply off_ring_after. Qed.

Lemma token_check_after abort rank size tk g (Q : tg → token_st → Prop) :
  t_done g = true → token_src tk = ring_prev n p → (∀ g', t_done g' = true → Q g' tk) →
  safe_after (CIRCLE_token_check abort rank size tk) Q g.
Proof.
  intros Hd Hs HQ. unfold CIRCLE_token_check. apply wp_seq. split; [done|].
  intros m g' [-> Hm]. rewrite (Hm eq_refl Hs Hd). by apply HQ.
Qed.

Lemma cleanup_round_after fuel G st g :
  left_rel g st → safe_after (cleanup_round fuel G st) (λ g' '(_, _, st'), left_rel g' st') g.
Proof.
  intros Hl. unfold cleanup_round. cbn zeta.
  set (st0 := if drained st then _ else st).
  assert (left_rel g st0) as Hl0 by (subst st0; by destruct (drained st)). clearbody st0. clear st Hl.
  eapply (seq_after _ _ (λ _, True)); [by apply quiet_barrier|]. intros g1 [done b] Hg1 _.
  destruct (truth done); [cbn; unfold left_rel in *; cbn; by rewrite Hg1|].
  set (st := set_st_barrier b st0).
  assert (left_rel g1 st) as Hl by (unfold left_rel in *; cbn; by rewrite Hg1).
  clearbody st. clear dependent g. clear st0. rename g1 into g.
  eapply (seq_after _ _ (λ x, work_frame st x.2)).
  { by apply quiet_serve_sync. }
  intros g1 [G1 st1] Hg1 H1. cbn in H1.
  eapply (seq_after _ _ (λ x, work_frame st x)).
  { apply quiet_reap_sync. intros. by etrans. }
  clear st1 H1. intros g2 st1 Hg2 H1.
  eapply (seq_after _ _ (λ x, work_frame st x.2)).
  { apply quiet_reduce_sync_frame. intros. by etrans. }
  clear G1 st1 H1. intros g3 [G1 st1] Hg3 H1. cbn in H1.
  eapply (seq_after _ _ (λ x, work_frame st x.2)).
  { apply quiet_request_sync. intros. by etrans. }
  clear G1 st1 H1. intros g4 [G1 st1] Hg4 H1. cbn in H1.
  eapply (seq_after _ _ (λ x, work_frame st x.2)).
  { apply quiet_abort_sync. intros. by etrans. }
  clear G1 st1 H1. intros g5 [G1 st1] Hg5 H1. cbn in H1.
  assert (left_rel g5 st1) as Hl1 by (apply (left_rel_frame g g5 st); congruence).
  destruct (tree_mode st1) eqn:Hm; cbn [negb]; [exact Hl1|].
  destruct Hl1 as [?|[Hdone Hsrc]]; [congruence|].
  apply wp_seq, token_check_after; [done|done|]. intros g6 Hd6.
  eapply (seq_after _ _ (λ tk, token_src tk = ring_prev n p)).
  { unfold test_token, MPI_Test. quiet_steps. }
  intros g7 tk Hg7 Htk. right. cbn. by rewrite Hg7.
Qed.

Lemma cleanup_rounds_after m fuel G st g :
  left_rel g st → safe_after (cleanup_rounds m fuel G st) (λ _ _, True) g.
Proof.
  revert G st g. induction m as [|m IH]; intros G st g Hl; cbn [cleanup_rounds]; [done|].
  apply wp_seq. eapply wp_post, cleanup_round_after; [|done].
  intros g' [[[] G'] st'] Hl'; [done|by apply IH].
Qed.

Lemma ring_rest_after fuel g x : left_rel g x.2 → safe_after (worker_rest fuel x) (λ _ _, True) g.
Proof.
  destruct x as [[[rank size] G] st]. intros Hl. unfold worker_rest, finish_loop, mbind, prog_mbind.
  apply wp_seq, wp_seq. eapply wp_post, cleanup_rounds_after; [|exact Hl]. intros g' [G1 st1] _.
  eapply off_ring_after with (Φ := λ _, True); [by apply quiet_finish_sync|]. intros g2 [G2 st2] _ _.
  eapply off_ring_after with (Φ := λ _, True); [by apply quiet_worker_end|done].
Qed.
End code.

(** ** All ranks together *)

(** At the start rank 0 has the token. *)
Definition first_token (p : Z) : tg := TG (if p =? 0 then Some BLACK else None) false false.

Definition ring_mode (G : globals) : Prop := truth (Z.land (options (CIRCLE_INPUT_ST G)) CIRCLE_TERM_TREE) = false.

Section job.
Context (n k : Z) (Hk : 1 ≤ k) (Hn : 0 < n) (Hmax : n * k ≤ INT32_MAX).
Context (G : Z → globals) (HG : ∀ p, is_rank n p → tree_width (CIRCLE_INPUT_ST (G p)) = k).

Definition leave_told (p : Z) (g : tg) (x : Z * Z * globals * CIRCLE_state_st) : Prop :=
  ring_mode (G p) → t_done g = true.

Abbreviation ok := (network_ok n (ring_pre n) (ring_post n) (ring_inv n) in_loop leave_told
  (λ _ _ _ _, True) (λ _, True)).

Lemma ring_start : ring_inv n first_token (λ _, []).
Proof.
  exists 0, (Held 0 BLACK). split; [lia|]. split.
  { intros q Hq. symmetry. apply bool_decide_false. unfold is_rank in Hq. lia. }
  split; [unfold is_rank; lia|]. split; [done|]. split; [|split; [done|lia]].
  intros q _ Hne. cbn. by rewrite (proj2 (Z.eqb_neq _ _) Hne).
Qed.

Lemma ring_start_ok p fuel junk :
  is_rank n p →
  process_ok (ring_pre n) (ring_post n) in_loop leave_told (λ _ _ _ _, True) (λ _, True) p (first_token p)
    (worker_process fuel junk (G p)).
Proof.
  intros Hp. split; [done|]. unfold worker_main, mbind, prog_mbind. pose proof Hp as Hp'. unfold is_rank in Hp'.
  destruct (init_shape (K := off_ring) fuel (G p) junk n p k) as (rest & -> & Hq); [done|by apply HG|done|nia|].
  do 4 (split; [split; [done|by intros r g' [_ ->]]|intros r g' [-> ->]]). cbn [prog_bind].
  change (elsewhere _) with (first_token p).
  apply wp_seq. eapply (off_ring_main n p); [done|done|exact Hq|]. intros st [Hterm _ _ Htok Hplace _].
  assert (ring_rel n p (first_token p) st) as Hr.
  { split; [done|]. rewrite Htok. split; cbn; try done; destruct (p =? 0); auto. }
  eapply (seq_open n p _ _ (λ _, True)); [done| |].
  { destruct (_ || _); [|done]. unfold call_cb. destruct (create_cb _) as [u|]; [|done].
    eapply quiet_mono; [|by apply quiet_user]. done. }
  intros G1 _. apply wp_seq. eapply wp_post, (ring_rounds_safe n p); [|done].
  intros g [G2 st2] [Hm Hs]. cbn beta iota. rewrite Hterm in Hm, Hs. cbn in Hm, Hs. split.
  - intros Hring. unfold ring_mode in Hring. rewrite Hring in Hs. apply Hs.
  - apply (ring_rest_after n p). unfold left_rel. cbn. rewrite Hm.
    destruct (truth (Z.land _ _)); [by left|right]. cbn in Hs. by destruct Hs as (? & _ & ?).
Qed.

Lemma ring_job_stays_ok fuel junk c : reachable n (job fuel junk G) c → ok c.
Proof.
  apply network_sound.
  - intros gh ch p o r ch'. apply ring_inv_step.
  - intros p g x o r g' Hl _ Hpost Hring. specialize (Hl Hring).
    destruct o; cbn in Hpost; repeat match goal with
      | H : (if ?b then _ else _) |- _ => destruct b
      | H : _ ∧ _ |- _ => destruct H end; subst; try done; congruence.
  - exists first_token. split; [apply ring_start|]. intros p Hp. by apply ring_start_ok.
Qed.
End job.

(** C12 There is one token.  In every run of a job, with either way of
    detecting termination, whatever the users of the ranks do and also in an
    abort, at most one message of the token ring is on its way; it goes from
    a rank to the next one of the ring and carries one of the three values. *)
Theorem one_token n k fuel junk G c :
  1 ≤ k → 0 < n → n * k ≤ INT32_MAX →
  (∀ q, is_rank n q → tree_width (CIRCLE_INPUT_ST (G q)) = k) →
  reachable n (job fuel junk G) c →
  (∀ a b, chans c (a, b, CIRCLE_TAG_TOKEN) = []) ∨
  ∃ a v, is_rank n a ∧ token_value v ∧ chans c (a, ring_next n a, CIRCLE_TAG_TOKEN) = [Ints [v]] ∧
    ∀ x y, (x, y) ≠ (a, ring_next n a) → chans c (x, y, CIRCLE_TAG_TOKEN) = [].
Proof.
  intros Hk Hn Hmax HG Hr.
  destruct (ring_job_stays_ok n k Hk Hn Hmax G HG fuel junk c Hr) as (gh & (d & [a v|a v] & _ & _ & Hs) & _).
  - left. apply Hs.
  - right. exists a, v. destruct Hs as (? & ? & _ & ? & ? & _). done.
Qed.

(** C11 The ring tells all ranks, in order.  When a rank under ring termination
    has left its main loop, every lower rank has left its own or will do so
    without looking for another message; and a token that is on its way says
    TERMINATE and goes to the next rank that does not know yet: this rank and
    all higher ones under ring termination are still in their main loops. *)
Theorem ring_ends_in_order n k fuel junk G c p x t :
  1 ≤ k → 0 < n → n * k ≤ INT32_MAX →
  (∀ q, is_rank n q → tree_width (CIRCLE_INPUT_ST (G q)) = k) →
  reachable n (job fuel junk G) c →
  is_rank n p → ring_mode (G p) → procs c p = Drain x t →
  (∀ q, is_rank n q → q < p →
     (∃ y u, procs c q = Drain y u) ∨ ∃ u after, procs c q = Main u after ∧ quiet winding_up u (λ _, True)) ∧
  (∀ a b m l, chans c (a, b, CIRCLE_TAG_TOKEN) = m :: l →
     m = Ints [TERMINATE] ∧ b = a + 1 ∧ p < b ∧
     ∀ q, is_rank n q → b ≤ q → ring_mode (G q) → ∃ u after, procs c q = Main u after).
Proof.
  intros Hk Hn Hmax HG Hr Hp Hring Hd.
  destruct (ring_job_stays_ok n k Hk Hn Hmax G HG fuel junk c Hr) as (gh & (d & s & Hi) & Hok).
  pose proof Hi as (Hdn & Hdone & Hs).
  pose proof (Hok p Hp) as Hx. rewrite Hd in Hx. destruct Hx as [Hx _]. specialize (Hx Hring).
  rewrite Hdone in Hx by done. apply bool_decide_eq_true in Hx. split.
  - intros q Hq Hlt. pose proof (Hok q Hq) as Hy. destruct (procs c q) as [u after|y u]; [right|left; by eauto].
    exists u, after. split; [done|]. destruct Hy as [Hloop Hu].
    eapply (told_winds_up n q); [|exact Hloop|exact Hu]. rewrite Hdone by done. apply bool_decide_true. lia.
  - intros a b m l Hm. destruct (flying_at n _ _ _ _ _ _ _ _ Hi Hm) as (v & -> & -> & -> & ->).
    destruct Hs as (Ha & _ & _ & _ & _ & Hv). rewrite decide_False in Hv by (unfold is_rank in Hp; lia).
    destruct Hv as (-> & -> & Hlt). rewrite next_succ by (done || lia). split; [done|]. split; [done|]. split; [lia|].
    intros q Hq Hle Hrq. pose proof (Hok q Hq) as Hy. destruct (procs c q) as [u after|y u]; [by eauto|].
    destruct Hy as [Hy _]. specialize (Hy Hrq). rewrite Hdone in Hy by done. apply bool_decide_eq_true in Hy. lia.
Qed.

(** ** An example run: three ranks without work; rank 0 has been told and has
    left, the token is on its way to rank 1 *)

Definition ring_input : CIRCLE_input_st :=
  mk_input (Some UReturn) (Some UReturn) None None None None 0 0 CIRCLE_DEFAULT_FLAGS 2
    (Some (mkQueue 1 (Some (Block 1 4096 ∅)) 4096 0 (Some (Block 1 8 ∅)) 8 0)).
Definition ring_globals (p : Z) : globals := mk_globals ring_input 0 p 0 0.
Definition ring_job := job 40 demo_junk ring_globals.
Definition ring_end := exec 3 (λ _, false) 0 (exec_rounds 3 (λ _, false) 8 7 ring_job).

Lemma ring_reachable : reachable 3 ring_job ring_end.
Proof. apply exec_reachable; [unfold is_rank; lia|]. apply exec_rounds_reachable, rtc_refl. Qed.

Lemma ring_left : ∃ x t, procs ring_end 0 = Drain x t.
Proof.
  assert ((if procs ring_end 0 is Drain _ _ then true else false) = true) as Hl by (vm_compute; reflexivity).
  destruct (procs ring_end 0) as [t after|x t]; [done|by exists x, t].
Qed.

Lemma ring_token : chans ring_end (0, 1, CIRCLE_TAG_TOKEN) = [Ints [TERMINATE]].
Proof. vm_compute. reflexivity. Qed.

Lemma one_token_witness :
  chans ring_end (0, 1, CIRCLE_TAG_TOKEN) = [Ints [TERMINATE]] ∧
  ((∀ a b, chans ring_end (a, b, CIRCLE_TAG_TOKEN) = []) ∨
   ∃ a v, is_rank 3 a ∧ token_value v ∧ chans ring_end (a, ring_next 3 a, CIRCLE_TAG_TOKEN) = [Ints [v]] ∧
     ∀ x y, (x, y) ≠ (a, ring_next 3 a) → chans ring_end (x, y, CIRCLE_TAG_TOKEN) = []).
Proof.
  split; [exact ring_token|].
  apply (one_token 3 2 40 demo_junk ring_globals ring_end); [lia|lia|c_arith|done|exact ring_reachable].
Defined.

Lemma ring_ends_in_order_witness :
  chans ring_end (0, 1, CIRCLE_TAG_TOKEN) = [Ints [TERMINATE]] ∧ ∃ x t, procs ring_end 0 = Drain x t ∧
  (∀ q, is_rank 3 q → q < 0 →
     (∃ y u, procs ring_end q = Drain y u) ∨
     ∃ u after, procs ring_end q = Main u after ∧ quiet winding_up u (λ _, True)) ∧
  (∀ a b m l, chans ring_end (a, b, CIRCLE_TAG_TOKEN) = m :: l →
     m = Ints [TERMINATE] ∧ b = a + 1 ∧ 0 < b ∧
     ∀ q, is_rank 3 q → b ≤ q → ring_mode (ring_globals q) → ∃ u after, procs ring_end q = Main u after).
Proof.
  split; [exact ring_token|]. destruct ring_left as (x & t & Hd). exists x, t. split; [exact Hd|].
  apply (ring_ends_in_order 3 2 40 demo_junk ring_globals ring_end 0 x t);
    [lia|lia|c_arith|done|exact ring_reachable|unfold is_rank; lia|reflexivity|exact Hd].
Defined.
