(* ===== verification/TokenHang.v ===== *)
(** * An abort under ring termination never ends

    CIRCLE_token_issend does nothing once the abort flag is up, and a process
    that has the token does not look for another one.  So the process that
    has the token when it learns of an abort keeps it, and keeps going round
    its main loop; the cleanup barrier then holds all others. *)
From S2P Require Import Prelude CMonad Mem Heap Queue Wire Tree State Mpi Network Ranks Sends Transfer Barrier Term Abort Token Proc Api Reduce Quiet Worker QuietWorker TermCode TermSafe BarrierSafe.

(** Any call may be made. *)
Definition any_call (o : op) : bool := true.

#[export] Instance any_call_local : Local any_call.
Proof. by split. Qed.
#[export] Instance any_call_talks tag : Talks any_call tag.
Proof. by split. Qed.
#[export] Instance any_call_works : Works any_call.
Proof. by split. Qed.

(** In an abort, with the token. *)
Record holds_token (G : globals) (st : CIRCLE_state_st) : Prop := HoldsToken {
  ht_abort : truth (CIRCLE_ABORT_FLAG G) = true;
  ht_local : truth (token_is_local (st_token st)) = true;
  ht_proc : token_proc (st_token st) ≠ TERMINATE;
  ht_ring : truth (term_tree_enabled (st_term st)) = false;
}.

Lemma holds_frame G G' st st' :
  holds_token G st → (truth (CIRCLE_ABORT_FLAG G) = true → truth (CIRCLE_ABORT_FLAG G') = true) →
  st_token st' = st_token st → term_tree_enabled (st_term st') = term_tree_enabled (st_term st) →
  holds_token G' st'.
Proof. intros [] HG H1 H2. split; rewrite ?H1, ?H2; auto. Qed.

Lemma abort_round_goes_on fuel G st :
  holds_token G st →
  quiet any_call (work_round fuel G st) (λ '(stop, G', st'), stop = false ∧ holds_token G' st').
Proof.
  intros Hh. unfold work_round. apply (quiet_seq _ _ _ _ (λ x, holds_token x.1 x.2)).
  { unfold serve_requests, the_queue. quiet_steps. apply quiet_workreq_abort; [apply Hh|].
    intros st' (_ & H1 & H2 & _). apply (holds_frame G _ st); [done|done|done|by cbn; rewrite H2]. }
  intros [G1 st1] H1. cbn in H1. clear G st Hh. apply quiet_bind, quiet_receipt_check. intros t Ht.
  assert (holds_token G1 (set_st_term t st1)) as H2 by (by apply (holds_frame G1 _ st1)).
  generalize dependent (set_st_term t st1). clear st1 H1 t Ht. intros st1 H1.
  unfold reap_sends. apply quiet_bind, quiet_bind, quiet_check. intros sn. cbn [quiet mret prog_mret].
  unfold check_abort. apply quiet_bind, quiet_bind, quiet_abort_check. intros ab a Hab. cbn [quiet mret prog_mret].
  assert (holds_token (set_abort_flag ab G1) (set_st_abort a (set_st_send sn st1))) as H2 by (by apply (holds_frame G1 _ st1)).
  generalize dependent (set_st_abort a (set_st_send sn st1)). generalize (set_abort_flag ab G1). clear.
  intros G st H. apply (quiet_seq _ _ _ _ (λ x, holds_token x.1 x.2)).
  { unfold check_reduce. destruct (truth (reduce_enabled _)); [|exact H].
    apply (quiet_seq _ _ _ _ (λ x, keeps G x.2)); [by apply (quiet_reduce_check (λ _, True) keeps)|].
    intros [r G'] HG. apply (holds_frame G _ st); [done|apply HG|done|done]. }
  intros [G1 st1] H1. cbn in H1. clear G st H. unfold the_queue. apply quiet_bind.
  destruct (queue (CIRCLE_INPUT_ST G1)) as [q|]; [|done]. cbn [deref quiet].
  apply (quiet_seq _ _ _ _ (λ x, holds_token x.1 x.2)).
  { destruct (_ =? 0); [|exact H1]. unfold request_work, the_queue. quiet_steps.
    apply quiet_request_work. intros rc ab qp st' (_ & H2 & H3 & _) Hab.
    apply (holds_frame G1 _ st1); [done|exact Hab|done|by cbn; rewrite H3]. }
  intros [G2 st2] H2. cbn in H2. clear G1 st1 H1 q. apply quiet_bind.
  destruct (queue (CIRCLE_INPUT_ST G2)) as [q|]; [|done]. cbn [deref quiet]. destruct H2 as [Ha Hl Hp Hr].
  rewrite Ha, andb_false_r. unfold check_termination. rewrite Hr. apply quiet_bind, quiet_bind.
  unfold CIRCLE_check_for_term. rewrite (proj2 (Z.eqb_neq _ _) Hp), Hl.
  unfold CIRCLE_token_issend. rewrite Ha. cbn [mbind prog_mbind prog_bind mret prog_mret quiet].
  split; [done|]. split; [done| |done|done]. cbn. by destruct (st_rank st2 =? 0), (token_proc (st_token st2) =? BLACK).
Qed.

Lemma abort_rounds_go_on m fuel G st :
  holds_token G st → quiet any_call (work_rounds m fuel G st) (λ _, False).
Proof.
  revert G st. induction m as [|m IH]; intros G st Hh; cbn [work_rounds]; [done|].
  eapply quiet_seq; [by apply abort_round_goes_on|]. intros [[stop G'] st'] [-> Hh']. by apply IH.
Qed.

(** ** A job that is aborted at the start *)

Section job.
Context (n k : Z) (Hk : 1 ≤ k) (Hmax : n * k ≤ INT32_MAX).

(** A process is asked for nothing and told its rank and the number of ranks. *)
Definition rank_post (p : Z) (g : unit) (o : op) : ans o → unit → Prop :=
  match o return ans o → unit → Prop with
  | OCommRank => λ r _, r = p
  | OCommSize => λ r _, r = n
  | _ => λ _ _, True
  end.

Abbreviation safe p t Q := (wp (main_protocol (λ _ _ _, True) rank_post (λ _ _, True) p) t Q (λ _ _, True) tt).

Lemma any_call_wp p {A} (t : prog A) Φ : quiet any_call t Φ → safe p t (λ _, Φ).
Proof.
  intros Ht. induction t as [a|e|o c IH]; [done|done|]. destruct Ht as [_ Hc].
  split; [done|]. intros r [] _. by apply IH.
Qed.

Lemma any_prog_wp {A} p (t : prog A) : wp (net_protocol (λ _ _ _, True) rank_post p) t (λ _ _, True) (λ _ _, True) tt.
Proof. induction t as [a|e|o c IH]; [done|done|]. split; [done|]. intros r [] _. apply IH. Qed.

Lemma worker_keeps_token fuel junk G p :
  is_rank n p → tree_width (CIRCLE_INPUT_ST G) = k →
  (p = 0 → truth (Z.land (options (CIRCLE_INPUT_ST G)) CIRCLE_TERM_TREE) = false ∧ truth (CIRCLE_ABORT_FLAG G) = true) →
  safe p (worker_main fuel junk G) (λ _ _, p ≠ 0).
Proof.
  intros Hp Hw Hab. unfold worker_main, mbind, prog_mbind. pose proof Hp as Hp'. unfold is_rank in Hp'.
  destruct (init_shape (K := any_call) fuel G junk n p k) as (rest & -> & Hq); [done|done|done|nia|].
  do 4 (split; [done|intros r [] ->]). cbn [prog_bind]. apply any_call_wp.
  eapply quiet_seq; [exact Hq|]. intros st [Ht _ _ Htok _ _].
  apply (quiet_seq _ _ _ _ (keeps G)).
  { destruct (_ || _); [|apply keeps_refl]. unfold call_cb. destruct (create_cb _) as [u|]; [|done].
    by apply quiet_user. }
  intros G1 HG. destruct (decide (p = 0)) as [->|Hne].
  - apply (quiet_seq _ _ _ _ (λ _, False)); [|by intros []]. destruct (Hab eq_refl) as [Hring Hflag].
    apply abort_rounds_go_on. split; [by apply HG|by rewrite Htok|by rewrite Htok|by rewrite Ht, Hring].
  - by apply quiet_bind, quiet_rounds.
Qed.

Lemma job_keeps_token fuel junk G c :
  (∀ p, is_rank n p → tree_width (CIRCLE_INPUT_ST (G p)) = k) →
  truth (Z.land (options (CIRCLE_INPUT_ST (G 0))) CIRCLE_TERM_TREE) = false → truth (CIRCLE_ABORT_FLAG (G 0)) = true →
  reachable n (job fuel junk G) c →
  network_ok n (λ _ _ _, True) rank_post (λ _ _, True) (λ _ _, True) (λ p _ _, p ≠ 0) (λ _ _ _ _, True) (λ _, True) c.
Proof.
  intros HG Hring Hflag. apply network_sound; [|done|].
  - intros gh ch p o r ch' _ _ _ Ha. exists tt. split; [|done]. destruct o; try done; by destruct Ha.
  - exists (λ _, tt). split; [done|]. intros p Hp. split; [done|].
    eapply wp_post, worker_keeps_token; [|done|by apply HG|by intros ->].
    intros [] x Hx. split; [done|]. apply any_prog_wp.
Qed.
End job.

(** C14 An abort is never carried out under ring termination, the default: if
    the abort flag of rank 0 is up when it enters its main loop, rank 0 never
    leaves this loop, whatever the ranks do, and so no rank ever returns from
    CIRCLE_worker. *)
Theorem ring_abort_never_ends n k fuel junk G c :
  1 ≤ k → 0 < n → n * k ≤ INT32_MAX →
  (∀ q, is_rank n q → tree_width (CIRCLE_INPUT_ST (G q)) = k) →
  truth (Z.land (options (CIRCLE_INPUT_ST (G 0))) CIRCLE_TERM_TREE) = false →
  truth (CIRCLE_ABORT_FLAG (G 0)) = true →
  reachable n (job fuel junk G) c →
  (∀ x t, procs c 0 ≠ Drain x t) ∧ ∀ p x r, is_rank n p → procs c p ≠ Drain x (Ret r).
Proof.
  intros Hk Hn Hmax HG Hring Hflag Hr.
  destruct (job_keeps_token n k Hk Hmax fuel junk G c HG Hring Hflag Hr) as (gh & _ & Hok).
  assert (is_rank n 0) as H0 by (unfold is_rank; lia).
  assert (∀ x t, procs c 0 ≠ Drain x t) as Hzero.
  { intros x t Hd. pose proof (Hok 0 H0) as Hx. rewrite Hd in Hx. by destruct Hx. }
  split; [exact Hzero|]. intros p x r Hp Hd.
  destruct (all_have_left n k fuel junk G c p x r Hk Hn Hmax HG Hr Hp Hd 0 H0) as (y & u & Hy).
  by apply (Hzero y u).
Qed.

(** ** An example run: two ranks, rank 0 aborts before CIRCLE_begin *)

Definition ring_options : CIRCLE_input_st :=
  mk_input (Some UReturn) (Some UReturn) None None None None 0 0 CIRCLE_DEFAULT_FLAGS 2
    (Some (mkQueue 1 (Some (Block 1 4096 ∅)) 4096 0 (Some (Block 1 8 ∅)) 8 0)).
Definition aborted_ring (p : Z) : globals := mk_globals ring_options (if p =? 0 then 1 else 0) p 0 0.
Definition aborted_end := exec_rounds 2 (λ _, false) 20 10 (job 100 demo_junk aborted_ring).

Lemma ring_abort_never_ends_witness :
  (∀ x t, procs aborted_end 0 ≠ Drain x t) ∧ ∀ p x r, is_rank 2 p → procs aborted_end p ≠ Drain x (Ret r).
Proof.
  apply (ring_abort_never_ends 2 2 100 demo_junk aborted_ring aborted_end).
  - lia.
  - lia.
  - c_arith.
  - intros q _. reflexivity.
  - reflexivity.
  - reflexivity.
  - unfold aborted_end. apply exec_rounds_reachable, rtc_refl.
Defined.
