(* ===== verification/TokenUnsafe.v ===== *)
(** * The token ring can end with work under way

    Without CIRCLE_TERM_TREE the ring of CIRCLE_check_for_term decides.  It
    takes into account that work moved to a lower rank, not that a transfer
    may still be on its way to a higher one when the token passes: MPI orders
    the messages of one pair of processes, not those of different pairs.  The
    run below has rank 0 send an item to rank 2 and, when it is idle, the
    token to rank 1; the token overtakes the item. *)
From S2P Require Import Prelude CMonad Mem Queue Wire State Mpi Network TermSpec Proc Quiet Worker TermSafe.

Fixpoint enqueue_times (n : nat) : user :=
  match n with O => UReturn | S n => UEnqueue (Some [Byte.x61]) (λ _, enqueue_times n) end.

(** Processing an item takes a while. *)
Fixpoint work_for (n : nat) : user :=
  match n with O => UReturn | S n => UExternal WORK_CALL (λ _, work_for n) end.

(** Rank 0 creates four items; equal splitting, token termination. *)
Definition ring_input : CIRCLE_input_st :=
  mk_input (Some (enqueue_times 4)) (Some (UDequeue (Some 4) (λ _ _, work_for 10)))
    None None None None 0 0 CIRCLE_SPLIT_EQUAL 2
    (Some (mkQueue 1 (Some (Block 1 4096 ∅)) 4096 0 (Some (Block 1 8 ∅)) 8 0)).

Definition ring_job := job 200 demo_junk (λ p, mk_globals ring_input 0 p 0 0).

(** What rank 0 sends to rank 2 arrives late. *)
Definition late_reply (c : channel) : bool := bool_decide (c = (0, 2, CIRCLE_TAG_WORK_REPLY)).

Definition ring_loops_end := exec_rounds 3 late_reply 400 1 ring_job.
Definition ring_end := exec_rounds 3 (λ _, false) 30 60 ring_loops_end.

(** The items left in the queue of a process that returned from
    CIRCLE_worker and knows of no abort. *)
Definition left_over (x : worker) : option Z :=
  match x with
  | Drain _ (Ret (_, G)) =>
      if truth (CIRCLE_ABORT_FLAG G) then None else q_count <$> queue (CIRCLE_INPUT_ST G)
  | _ => None
  end.

(** C13 With the token ring, work can be lost: three ranks can all return
    from CIRCLE_worker, without an abort, with an item left in the queue of
    rank 2 that nobody has worked on. *)
Theorem token_termination_loses_work :
  ∃ c, reachable 3 ring_job c ∧
    left_over (procs c 0) = Some 0 ∧ left_over (procs c 1) = Some 0 ∧ left_over (procs c 2) = Some 1.
Proof.
  exists ring_end. split.
  - unfold ring_end, ring_loops_end. apply exec_rounds_reachable, exec_rounds_reachable, rtc_refl.
  - repeat split; vm_compute; reflexivity.
Qed.
