(* ===== verification/Own.v ===== *)
(** * Ownership of blocks and requests

    [tidy] is the contract of the allocator and of MPI's requests, with
    nothing assumed about the messages of other processes, files or user
    code: whatever these answer, a block may be given back, reallocated or
    sent only while it is allocated and no request reads it, and a request may
    be tested or waited for only while it is pending.

    Assertions over it are the propositions of a linear separation logic: an
    [mProp] describes the blocks and the pending requests that a piece of the
    state owns.  [wpi t Φ]: with what is owned now, [t] keeps to the contract
    and leaves what [Φ] describes.  Nothing owned is lost, except what a
    failed allocation loses, so owning nothing at the end means that all is
    freed. *)
From iris.proofmode Require Import proofmode.
From S2P Require Import Prelude CMonad Mem Heap Mpi.

(** ** The contract *)

(** The calls of the C library's and of MPI's contract ([Mpi]); messages are
    not among them. *)
Definition mem_op (o : op) : bool :=
  match o with
  | OMalloc _ | ORealloc _ _ | OFree _ | OPagesize | ORand _
  | OIsend _ _ _ _ | OIssend _ _ _ | OIrecv _ _
  | OTest _ | OTestall _ | OWait _ | OWaitall _ => true
  | _ => false
  end.

(** Of the other answers only one matters: a rank is not negative, so
    CIRCLE_init's result tells whether it failed. *)
Definition sane_answer (o : op) : ans o → Prop :=
  match o return ans o → Prop with OCommRank => λ rank, 0 ≤ rank | _ => λ _, True end.

Definition tidy (oom : bool) : protocol := {|
  ghost := view;
  pre := λ g o, if mem_op o then mpi_pre g o else True;
  post := λ g o r g', if mem_op o then mpi_post oom g o r g' else g' = g ∧ sane_answer o r;
|}.

(** A block, or a request with the buffer it reads. *)
Definition resource : Type := Z + Z.
Definition resources : Type := gmap resource ptr.
Definition a_block (p : Z) : resource := inl p.
Definition a_request (r : Z) : resource := inr r.

(** What is owned is allocated and pending; without failures of the
    allocator, what is allocated is owned or read by an owned request. *)
Record tidied (oom : bool) (g : view) (h : resources) : Prop := Tidied {
  td_block : ∀ p x, h !! a_block p = Some x → usable g p;
  td_request : ∀ r b, h !! a_request r = Some b → v_pending g !! r = Some b;
  td_flight : ∀ r p, v_pending g !! r = Some (Some p) → p ∈ v_live g;
  td_unique : ∀ r r' p, v_pending g !! r = Some (Some p) → v_pending g !! r' = Some (Some p) → r = r';
  td_all : oom = false → ∀ p, p ∈ v_live g →
    is_Some (h !! a_block p) ∨ ∃ r, h !! a_request r = Some (Some p);
}.

(** ** The logic *)

Record mProp : Type := MProp { owned_by : resources → Prop }.

Section logic.
Implicit Types (P Q : mProp) (h : resources).

Inductive mProp_entails P Q : Prop :=
  | mProp_entails_intro : (∀ h, owned_by P h → owned_by Q h) → mProp_entails P Q.
Inductive mProp_equiv P Q : Prop :=
  | mProp_equiv_intro : (∀ h, owned_by P h ↔ owned_by Q h) → mProp_equiv P Q.
#[local] Instance mProp_equiv_inst : Equiv mProp := mProp_equiv.
#[local] Instance mProp_equivalence : Equivalence (≡@{mProp}).
Proof.
  split.
  - by split.
  - intros P Q [H]. split. intros h. by rw H.
  - intros P Q R [H1] [H2]. split. intros h. by rw H1 H2.
Qed.
Canonical Structure mPropO : ofe := discreteO mProp.

Definition m_emp : mProp := MProp (λ h, h = ∅).
Definition m_pure (φ : Prop) : mProp := MProp (λ _, φ).
Definition m_and P Q : mProp := MProp (λ h, owned_by P h ∧ owned_by Q h).
Definition m_or P Q : mProp := MProp (λ h, owned_by P h ∨ owned_by Q h).
Definition m_impl P Q : mProp := MProp (λ h, owned_by P h → owned_by Q h).
Definition m_forall A (Ψ : A → mProp) : mProp := MProp (λ h, ∀ a, owned_by (Ψ a) h).
Definition m_exist A (Ψ : A → mProp) : mProp := MProp (λ h, ∃ a, owned_by (Ψ a) h).
Definition m_sep P Q : mProp :=
  MProp (λ h, ∃ h1 h2, h = h1 ∪ h2 ∧ h1 ##ₘ h2 ∧ owned_by P h1 ∧ owned_by Q h2).
Definition m_wand P Q : mProp :=
  MProp (λ h, ∀ h1, h ##ₘ h1 → owned_by P h1 → owned_by Q (h ∪ h1)).
Definition m_persistently P : mProp := m_pure (mProp_entails m_emp P).
Definition m_later P : mProp := P.

Lemma m_sep_comm P Q : mProp_entails (m_sep P Q) (m_sep Q P).
Proof.
  split. intros h (h1 & h2 & -> & Hd & HP & HQ). exists h2, h1.
  split; [by apply map_union_comm|done].
Qed.

Lemma m_sep_assoc P Q R : mProp_entails (m_sep (m_sep P Q) R) (m_sep P (m_sep Q R)).
Proof.
  split. intros h (h12 & h3 & -> & Hd & (h1 & h2 & -> & Hd' & HP & HQ) & HR).
  apply map_disjoint_union_l in Hd as [Hd1 Hd2]. exists h1, (h2 ∪ h3).
  split; [by rw (assoc_L (∪))|]. split; [by apply map_disjoint_union_r|].
  split; [done|]. by exists h2, h3.
Qed.

Lemma m_bi_mixin :
  BiMixin mProp_entails m_emp m_pure m_and m_or m_impl m_forall m_exist m_sep m_wand.
Proof.
  split.
  - split; [by split|]. intros P Q R [H1] [H2]. split. auto.
  - intros P Q. split; [intros [H]; split; split; intros h; by apply H|].
    intros [[H1] [H2]]. split. intros h. split; auto.
  - intros n φ ψ Hφ. split. intros h. apply Hφ.
  - intros n P P' [HP] Q Q' [HQ]. split. intros h. cbn. by rw HP HQ.
  - intros n P P' [HP] Q Q' [HQ]. split. intros h. cbn. by rw HP HQ.
  - intros n P P' [HP] Q Q' [HQ]. split. intros h. cbn. by rw HP HQ.
  - intros A n Φ Ψ H. split. intros h. cbn. split; intros Ha a; by apply (H a).
  - intros A n Φ Ψ H. split. intros h. cbn. split; intros [a Ha]; exists a; by apply (H a).
  - intros n P P' [HP] Q Q' [HQ]. split. intros h. cbn. by setoid_rewrite HP; setoid_rewrite HQ.
  - intros n P P' [HP] Q Q' [HQ]. split. intros h. cbn. by setoid_rewrite HP; setoid_rewrite HQ.
  - intros φ P Hφ. by split.
  - intros φ P H. split. intros h Hφ. destruct (H Hφ) as [H']. by apply H'.
  - intros P Q. split. by intros h [].
  - intros P Q. split. by intros h [].
  - intros P Q R [HQ] [HR]. split. intros h HP. split; auto.
  - intros P Q. split. intros h HP. by left.
  - intros P Q. split. intros h HP. by right.
  - intros P Q R [HP] [HQ]. split. intros h [?|?]; auto.
  - intros P Q R [H]. split. intros h HP HQ. by apply H.
  - intros P Q R [H]. split. intros h [HP HQ]. by apply H.
  - intros A P Ψ H. split. intros h HP a. destruct (H a) as [Ha]. by apply Ha.
  - intros A Ψ a. split. intros h Ha. apply Ha.
  - intros A Ψ a. split. intros h Ha. by exists a.
  - intros A Φ Q H. split. intros h [a Ha]. destruct (H a) as [Ha']. by apply Ha'.
  - intros P P' Q Q' [HP] [HQ]. split. intros h (h1 & h2 & ? & ? & ? & ?). exists h1, h2. auto.
  - intros P. split. intros h HP. exists ∅, h. rw map_empty_union.
    split; [done|]. split; [apply map_disjoint_empty_l|done].
  - intros P. split. intros h (h1 & h2 & -> & Hd & -> & HP). by rw map_empty_union.
  - apply m_sep_comm.
  - apply m_sep_assoc.
  - intros P Q R [H]. split. intros h HP h1 Hd HQ. apply H. by exists h, h1.
  - intros P Q R [H]. split. intros h (h1 & h2 & -> & Hd & HP & HQ). by apply H.
Qed.

Lemma m_persistently_mixin :
  BiPersistentlyMixin mProp_entails m_emp m_and m_exist m_sep m_persistently.
Proof.
  eapply bi_persistently_mixin_discrete, m_bi_mixin; [done| |done].
  intros A Φ [H]. destruct (H ∅ eq_refl) as [a Ha]. exists a. split. by intros h ->.
Qed.

Lemma m_later_mixin :
  BiLaterMixin mProp_entails m_pure m_or m_impl m_forall m_exist m_sep m_persistently m_later.
Proof. eapply bi_later_mixin_id, m_bi_mixin; done. Qed.
End logic.

Canonical Structure mPropI : bi := {|
  bi_ofe_mixin := ofe_mixin_of mProp;
  bi_bi_mixin := m_bi_mixin;
  bi_bi_persistently_mixin := m_persistently_mixin;
  bi_bi_later_mixin := m_later_mixin |}.

Lemma entails_at (P Q : mProp) : (∀ h, owned_by P h → owned_by Q h) → P ⊢ Q.
Proof. by split. Qed.

Lemma at_entails (P Q : mProp) h : (P ⊢ Q) → owned_by P h → owned_by Q h.
Proof. intros [H]. apply H. Qed.

(** ** What is owned *)

Definition blk (p : Z) : mProp := MProp (λ h, h = {[ a_block p := None ]}).
Definition req (r : Z) (b : ptr) : mProp := MProp (λ h, h = {[ a_request r := b ]}).

(** A pointer that may be NULL, a handle that may be null (of a request that
    reads no buffer). *)
Definition opt_blk (p : ptr) : mProp := match p with Some p => blk p | None => emp end%I.
Definition opt_req (r : option Z) : mProp := match r with Some r => req r None | None => emp end%I.

Section tidied.
Context (oom : bool).
Implicit Types (g : view) (h : resources).

Lemma tidied_fresh g h p :
  tidied oom g h → p ∉ v_live g → tidied oom (set_live ({[p]} ∪ v_live g) g) (<[a_block p := None]> h).
Proof.
  intros [Hb Hr Hf Hu Ha] Hp. split; cbn; [| |set_solver|done|].
  - intros q x Hq. rw lookup_insert_Some in Hq. destruct Hq as [[[= <-] _]|[_ Hq]].
    + split; [cbn; set_solver|]. intros [r Hpr]. by apply Hp, (Hf r).
    + destruct (Hb q x Hq). split; [cbn; set_solver|done].
  - intros r b Hq. rw lookup_insert_ne in Hq; [by apply Hr|done].
  - intros Ho q [->%elem_of_singleton|Hq]%elem_of_union.
    + left. rw lookup_insert_eq. done.
    + destruct (decide (q = p)) as [->|Hne]; [by destruct Hp|].
      destruct (Ha Ho q Hq) as [Hq'|[r Hr']]; [left|right; exists r].
      * rw lookup_insert_ne; [done|]. intros [= ->]. done.
      * rw lookup_insert_ne; done.
Qed.

Lemma tidied_free g h p :
  tidied oom g h → is_Some (h !! a_block p) →
  tidied oom (set_live (v_live g ∖ {[p]}) g) (delete (a_block p) h).
Proof.
  intros [Hb Hr Hf Hu Ha] [x Hp]. destruct (Hb p x Hp) as [_ Hnf]. split; cbn; [| | |done|].
  - intros q y [Hne Hq]%lookup_delete_Some. destruct (Hb q y Hq).
    split; [cbn|done]. apply elem_of_difference. split; [done|].
    intros ->%elem_of_singleton. done.
  - intros r b Hq. rw lookup_delete_ne in Hq; [by apply Hr|done].
  - intros r q Hq. apply elem_of_difference. split; [by eapply Hf|].
    intros ->%elem_of_singleton. apply Hnf. by exists r.
  - intros Ho q [Hq Hne]%elem_of_difference. rw elem_of_singleton in Hne.
    destruct (Ha Ho q Hq) as [Hq'|[r Hr']]; [left|right; exists r];
      rw lookup_delete_ne; try done. intros [= ->]. done.
Qed.

Lemma tidied_post g h r b m :
  tidied oom g h → v_pending g !! r = None →
  (∀ p, b = Some p → is_Some (h !! a_block p)) →
  tidied oom (post_request r b (log_sent m g))
    (<[a_request r := b]> (match b with Some p => delete (a_block p) h | None => h end)).
Proof.
  intros [Hb Hr Hf Hu Ha] Hn Hp. split; cbn.
  - intros q x Hq. rw lookup_insert_ne in Hq; [|done].
    assert (h !! a_block q = Some x ∧ b ≠ Some q) as [Hq' Hne].
    { destruct b as [p|]; [|done]. apply lookup_delete_Some in Hq as [Hne Hq]. split; [done|].
      intros [= ->]. done. }
    destruct (Hb q x Hq') as [Hl Hnf]. split; [done|]. intros [r' Hr']. cbn in Hr'.
    apply lookup_insert_Some in Hr' as [[_ ?]|[_ Hr']]; [done|]. apply Hnf. by exists r'.
  - intros r' b' [[[= <-] <-]|[Hne Hq]]%lookup_insert_Some; [apply lookup_insert_eq|].
    assert (h !! a_request r' = Some b') as Hq'.
    { destruct b as [p|]; [|done]. by apply lookup_delete_Some in Hq as [_ Hq]. }
    rw lookup_insert_ne; [by apply Hr|]. intros ->. by rw (Hr r' b') in Hn.
  - intros r' p [[_ ->]|[_ Hq]]%lookup_insert_Some; [|by eapply Hf].
    destruct (Hp p eq_refl) as [x Hx]. by destruct (Hb p x Hx).
  - intros r1 r2 p [[<- H1]|[_ H1]]%lookup_insert_Some [[<- H2]|[_ H2]]%lookup_insert_Some;
      [done|exfalso|exfalso|by eapply Hu]; subst b.
    + destruct (Hp p eq_refl) as [x Hx]. destruct (Hb p x Hx) as [_ Hnf]. apply Hnf. by exists r2.
    + destruct (Hp p eq_refl) as [x Hx]. destruct (Hb p x Hx) as [_ Hnf]. apply Hnf. by exists r1.
  - intros Ho q Hq. destruct (decide (b = Some q)) as [->|Hne].
    { right. exists r. by rw lookup_insert_eq. }
    destruct (Ha Ho q Hq) as [Hq'|[r' Hr']]; [left|right; exists r'].
    + rw lookup_insert_ne; [|done]. destruct b as [p|]; [|done].
      rw lookup_delete_ne; [done|]. intros [= ->]. done.
    + rw lookup_insert_ne.
      * destruct b as [p|]; [|done]. by rw lookup_delete_ne.
      * intros [= ->]. apply Hr in Hr'. by rw Hr' in Hn.
Qed.

(** A request is complete: its buffer is the process's again. *)
Lemma tidied_complete g h r b :
  tidied oom g h → h !! a_request r = Some b →
  tidied oom (drop_request r g)
    (match b with Some p => <[a_block p := None]> (delete (a_request r) h)
                | None => delete (a_request r) h end).
Proof.
  intros [Hb Hr Hf Hu Ha] Hp. pose proof (Hr r b Hp) as Hpr. split; cbn.
  - intros q x Hq. assert (b = Some q ∨ h !! a_block q = Some x) as Hq'.
    { destruct b as [p|]; [apply lookup_insert_Some in Hq as [[[= ->] _]|[_ Hq]]|]; [by left|right..];
        by apply lookup_delete_Some in Hq as [_ Hq]. }
    destruct Hq' as [->|Hq'].
    + split; [by eapply Hf|]. intros [r' Hr']. cbn in Hr'.
      apply lookup_delete_Some in Hr' as [Hne Hr']. by apply Hne, (Hu r r' q).
    + destruct (Hb q x Hq') as [Hl Hnf]. split; [done|].
      intros [r' Hr']. cbn in Hr'. apply lookup_delete_Some in Hr' as [_ Hr']. apply Hnf. by exists r'.
  - intros r' b' Hq. assert (r ≠ r' ∧ h !! a_request r' = Some b') as [Hne Hq'].
    { destruct b as [p|]; [rw lookup_insert_ne in Hq; [|done]|];
        apply lookup_delete_Some in Hq as [Hne Hq]; split; try done; by intros ->. }
    rw lookup_delete_ne; [by apply Hr|done].
  - intros r' p [_ Hq]%lookup_delete_Some. by eapply Hf.
  - intros r1 r2 p [_ H1]%lookup_delete_Some [_ H2]%lookup_delete_Some. by eapply Hu.
  - intros Ho q Hq. destruct (decide (b = Some q)) as [->|Hne].
    { left. by rw lookup_insert_eq. }
    destruct (Ha Ho q Hq) as [Hq'|[r' Hr']]; [left|right; exists r'].
    + destruct b as [p|]; [rw lookup_insert_ne; [|by intros [= ->]]|]; by rw lookup_delete_ne.
    + assert (r ≠ r') as Hne' by (intros <-; rw Hp in Hr'; by injection Hr').
      destruct b as [p|]; [rw lookup_insert_ne; [|done]|]; rw lookup_delete_ne; try done; by intros [= ->].
Qed.

(** A request without a buffer may be forgotten. *)
Lemma tidied_forget g h r :
  tidied oom g h → h !! a_request r = Some None → tidied oom g (delete (a_request r) h).
Proof.
  intros [Hb Hr Hf Hu Ha] Hp. split; [| |done|done|].
  - intros q x [_ Hq]%lookup_delete_Some. by eapply Hb.
  - intros r' b [_ Hq]%lookup_delete_Some. by apply Hr.
  - intros Ho q Hq. destruct (Ha Ho q Hq) as [Hq'|[r' Hr']]; [left|right; exists r'].
    + by rw lookup_delete_ne.
    + rw lookup_delete_ne; [done|]. intros [= ->]. by rw Hp in Hr'.
Qed.

(** When allocations may fail, a block may be lost. *)
Lemma tidied_lose g h p : oom = true → tidied oom g h → tidied oom g (delete (a_block p) h).
Proof.
  intros Ho [Hb Hr Hf Hu Ha]. split; [| |done|done|by rw Ho].
  - intros q x [_ Hq]%lookup_delete_Some. by eapply Hb.
  - intros r' b [_ Hq]%lookup_delete_Some. by apply Hr.
Qed.
End tidied.

(** ** Programs *)

Section wpi.
Context (oom : bool).

(** What is owned besides ([hf]) is left alone, also by a program that stops. *)
Definition intact (hf : resources) (g : view) (e : stop) : Prop :=
  ∃ h, h ##ₘ hf ∧ tidied oom g (h ∪ hf).

Definition wpi {A} (t : prog A) (Φ : A → mProp) : mProp := MProp (λ h, ∀ hf g,
  h ##ₘ hf → tidied oom g (h ∪ hf) →
  wp (tidy oom) t
    (λ g' a, ∃ h', h' ##ₘ hf ∧ tidied oom g' (h' ∪ hf) ∧ owned_by (Φ a) h') (intact hf) g).

Lemma wpi_ret {A} (a : A) (Φ : A → mProp) : Φ a ⊢ wpi (mret a) Φ.
Proof. apply entails_at. intros h HΦ hf g Hd Ht. by exists h. Qed.

Lemma wpi_stop {A} e (Φ : A → mProp) P : P ⊢ wpi (Stop e) Φ.
Proof. apply entails_at. intros h HP hf g Hd Ht. by exists h. Qed.

Lemma wpi_bind {A B} (t : prog A) (f : A → prog B) Φ :
  wpi t (λ a, wpi (f a) Φ) ⊢ wpi (t ≫= f) Φ.
Proof.
  apply entails_at. intros h H hf g Hd Ht. apply wp_bind. eapply wp_post, H; [|done..].
  intros g' a (h' & Hd' & Ht' & Ha). by apply Ha.
Qed.

Lemma wpi_wand {A} (t : prog A) (Φ Ψ : A → mProp) :
  wpi t Φ -∗ (∀ a, Φ a -∗ Ψ a) -∗ wpi t Ψ.
Proof.
  apply bi.entails_wand, bi.wand_intro_r.
  apply entails_at. intros h (h1 & h2 & -> & Hd12 & Ht & HW) hf g Hd Hg.
  apply map_disjoint_union_l in Hd as [Hd1 Hd2].
  assert (∀ g' h', h' ##ₘ h2 ∪ hf → tidied oom g' (h' ∪ (h2 ∪ hf)) →
    h' ##ₘ h2 ∧ h2 ∪ h' ##ₘ hf ∧ tidied oom g' (h2 ∪ h' ∪ hf)) as Hback.
  { intros g' h' [Hd' Hd'']%map_disjoint_union_r Hg'. split; [done|].
    split; [by apply map_disjoint_union_l|]. rw map_union_comm in Hg'; [|by apply map_disjoint_union_r].
    rw -(assoc_L (∪)) (map_union_comm h' hf); [|done]. by rw (assoc_L (∪)). }
  eapply wp_mono, (Ht (h2 ∪ hf)).
  - intros g' a (h' & Hd' & Hg' & Ha). destruct (Hback g' h' Hd' Hg') as (Hd3 & Hd4 & Hg4).
    exists (h2 ∪ h'). split; [done|]. split; [done|]. by apply HW.
  - intros g' e (h' & Hd' & Hg'). destruct (Hback g' h' Hd' Hg') as (_ & ? & ?). by exists (h2 ∪ h').
  - by apply map_disjoint_union_r.
  - by rw (assoc_L (∪)).
Qed.

(** A call: what it takes from its caller, what it gives back. *)
Lemma wpi_call o (P : mProp) (R Φ : ans o → mProp) :
  (∀ g h hf, owned_by P h → h ##ₘ hf → tidied oom g (h ∪ hf) →
     pre (tidy oom) g o ∧ ∀ r g', post (tidy oom) g o r g' →
       ∃ h', owned_by (R r) h' ∧ h' ##ₘ hf ∧ tidied oom g' (h' ∪ hf)) →
  P ∗ (∀ r, R r -∗ Φ r) ⊢ wpi (call o) Φ.
Proof.
  intros Ho. apply entails_at. intros h (h1 & h2 & -> & Hd12 & HP & HW) hf g Hd Hg.
  apply map_disjoint_union_l in Hd as [Hd1 Hd2].
  destruct (Ho g h1 (h2 ∪ hf)) as [Hpre Hpost];
    [done|by apply map_disjoint_union_r|by rw (assoc_L (∪))|].
  split; [done|]. intros r g' Hr. destruct (Hpost r g' Hr) as (h' & HR & Hd' & Hg').
  apply map_disjoint_union_r in Hd' as [Hd' Hd'']. exists (h2 ∪ h').
  split; [by apply map_disjoint_union_l|]. split; [|by apply HW].
  by rw (map_union_comm h2 h') // -(assoc_L (∪)).
Qed.

(** Calls that do not concern the memory. *)
Definition no_mem (o : op) : bool :=
  match o with OPagesize | ORand _ => true | _ => negb (mem_op o) end.

Lemma wpi_silent o (Φ : ans o → mProp) : no_mem o = true → (∀ r, Φ r) ⊢ wpi (call o) Φ.
Proof.
  intros Ho. apply entails_at. intros h H hf g Hd Hg.
  assert (pre (tidy oom) g o ∧ ∀ r g', post (tidy oom) g o r g' → g' = g) as [Hpre Hpost].
  { destruct o; try done; cbn; (split; [done|]); intros r g'; try by intros [-> _].
    all: intros (l & [-> _] & ->); by destruct g. }
  split; [done|]. intros r g' Hr. rw (Hpost r g' Hr). exists h. split; [done|].
  split; [done|]. apply H.
Qed.

Lemma wpi_rank (Φ : Z → mProp) : (∀ rank, ⌜0 ≤ rank⌝ → Φ rank) ⊢ wpi (call OCommRank) Φ.
Proof.
  apply entails_at. intros h H hf g Hd Hg. split; [done|]. intros r g' [-> Hr].
  exists h. split; [done|]. split; [done|]. by apply H.
Qed.

Lemma wpi_malloc n (Φ : ptr → mProp) : (∀ p, opt_blk p -∗ Φ p) ⊢ wpi (call (OMalloc n)) Φ.
Proof.
  rw -(wpi_call (OMalloc n) emp%I opt_blk Φ); [by rw left_id|].
  intros g h hf -> Hd Hg. rw left_id_L in Hg. split; [done|].
  intros [p|] g' (l & Hl & ->); cbn in Hl.
  - destruct Hl as (Hp & -> & _). exists {[a_block p := None]}. split; [done|].
    rw -insert_union_singleton_l. split; [|by apply tidied_fresh].
    apply map_disjoint_singleton_l. destruct (hf !! a_block p) as [x|] eqn:Hx; [|done].
    by destruct (td_block _ _ _ Hg p x Hx).
  - destruct Hl as [_ ->]. exists ∅. rw left_id_L. split; [done|].
    split; [apply map_disjoint_empty_l|]. by destruct g.
Qed.

Lemma wpi_free p (Φ : unit → mProp) : blk p ∗ Φ tt ⊢ wpi (call (OFree p)) Φ.
Proof.
  rw -(wpi_call (OFree p) (blk p) (λ _, emp)%I Φ).
  { f_equiv. apply bi.forall_intro. intros []. by rw left_id. }
  intros g h hf -> Hd%map_disjoint_singleton_l Hg. rw -insert_union_singleton_l in Hg.
  split; [by apply (td_block _ _ _ Hg p None), lookup_insert_eq|]. intros [] g' (l & -> & ->).
  exists ∅. rw left_id_L. split; [done|]. split; [apply map_disjoint_empty_l|].
  apply (tidied_free _ _ _ p) in Hg; [|by rw lookup_insert_eq].
  by rw delete_insert_id in Hg.
Qed.
Lemma wpi_realloc old n (Φ : ptr → mProp) :
  opt_blk old ∗ (∀ p, opt_blk p -∗ Φ p) ⊢ wpi (call (ORealloc old n)) Φ.
Proof.
  apply (wpi_call (ORealloc old n) (opt_blk old) opt_blk). intros g h hf Hh Hd Hg. split.
  { destruct old as [q|]; [|done]. rw Hh in Hg. apply (td_block _ _ _ Hg q None).
    by rw -insert_union_singleton_l lookup_insert_eq. }
  assert (tidied oom (set_live (without old (v_live g)) g) hf ∨ old = None ∧ tidied oom g hf) as Hg1.
  { destruct old as [q|]; [left|right; split; [done|]]; rw Hh in Hg; [|by rw left_id_L in Hg].
    rw Hh in Hd. apply map_disjoint_singleton_l in Hd. rw -insert_union_singleton_l in Hg.
    apply (tidied_free _ _ _ q) in Hg; [|by rw lookup_insert_eq]. by rw delete_insert_id in Hg. }
  intros [p|] g' (l & Hl & ->); cbn in Hl.
  - destruct Hl as (Hp & -> & _). exists {[a_block p := None]}. split; [done|].
    assert (tidied oom (set_live (without old (v_live g)) g) hf) as Hg2.
    { destruct Hg1 as [?|[-> ?]]; [done|]. by destruct g. }
    rw -insert_union_singleton_l. split; [|by apply (tidied_fresh _ _ _ p) in Hg2].
    apply map_disjoint_singleton_l. destruct (hf !! a_block p) as [x|] eqn:Hx; [|done].
    by destruct (td_block _ _ _ Hg2 p x Hx).
  - destruct Hl as [Hoom ->]. exists ∅. rw left_id_L. split; [done|]. split; [apply map_disjoint_empty_l|].
    assert (set_live (v_live g) g = g) as -> by (by destruct g).
    destruct old as [q|]; [|by destruct Hg1 as [Hg1|[_ Hg1]]; destruct g].
    rw Hh in Hd. apply map_disjoint_singleton_l in Hd. rw Hh -insert_union_singleton_l in Hg.
    apply (tidied_lose _ _ _ q) in Hg; [|done]. by rw delete_insert_id in Hg.
Qed.

Lemma wpi_isend dst tag data b (Φ : Z → mProp) :
  opt_blk b ∗ (∀ r, req r b -∗ Φ r) ⊢ wpi (call (OIsend dst tag data b)) Φ.
Proof.
  apply (wpi_call (OIsend dst tag data b) (opt_blk b) (λ r, req r b)). intros g h hf Hh Hd Hg.
  assert (∀ p, b = Some p → is_Some ((h ∪ hf) !! a_block p)) as Hb.
  { intros p ->. rw Hh -insert_union_singleton_l lookup_insert_eq. by exists None. }
  split.
  { destruct b as [p|]; [|done]. destruct (Hb p eq_refl) as [x Hx]. by apply (td_block _ _ _ Hg p x). }
  intros r g' [Hr ->]. exists {[a_request r := b]}. split; [done|].
  assert (match b with Some p => delete (a_block p) (h ∪ hf) | None => h ∪ hf end = hf) as Hhf.
  { destruct b as [p|]; rw Hh; [|by rw left_id_L]. rw Hh in Hd. apply map_disjoint_singleton_l in Hd.
    rw -insert_union_singleton_l. by apply delete_insert_id. }
  split.
  - apply map_disjoint_singleton_l. destruct (hf !! a_request r) as [x|] eqn:Hx; [|done].
    apply (lookup_union_Some_r h) in Hx; [|done]. apply (td_request _ _ _ Hg) in Hx. by rw Hr in Hx.
  - rw -insert_union_singleton_l -{1}Hhf. by apply tidied_post.
Qed.

(** Other calls that start a request without a buffer. *)
Lemma post_bare g hf r m :
  tidied oom g hf → v_pending g !! r = None →
  let g' := post_request r None (log_sent m g) in
  ({[a_request r := None]} : resources) ##ₘ hf ∧ tidied oom g' ({[a_request r := None]} ∪ hf).
Proof.
  intros Hg Hr. split.
  - apply map_disjoint_singleton_l. destruct (hf !! a_request r) as [x|] eqn:Hx; [|done].
    apply (td_request _ _ _ Hg) in Hx. by rw Hr in Hx.
  - rw -insert_union_singleton_l. by apply (tidied_post _ _ _ r None).
Qed.

Lemma wpi_issend dst tag data (Φ : Z → mProp) :
  (∀ r, req r None -∗ Φ r) ⊢ wpi (call (OIssend dst tag data)) Φ.
Proof.
  rw -(wpi_call (OIssend dst tag data) emp%I (λ r, req r None)); [by rw left_id|].
  intros g h hf -> _ Hg. rw left_id_L in Hg. split; [done|]. intros r g' [Hr ->].
  exists {[a_request r := None]}. split; [done|]. by apply post_bare.
Qed.

Lemma wpi_irecv src tag (Φ : Z → mProp) :
  (∀ r, req r None -∗ Φ r) ⊢ wpi (call (OIrecv src tag)) Φ.
Proof.
  rw -(wpi_call (OIrecv src tag) emp%I (λ r, req r None)); [by rw left_id|].
  intros g h hf -> _ Hg. rw left_id_L in Hg. split; [done|]. intros r g' [Hr ->].
  exists {[a_request r := None]}. split; [done|].
  destruct (post_bare g hf r (Msg 0 0 (Bytes [])) Hg Hr) as [Hd Hg']. split; [done|].
  by destruct Hg'.
Qed.

Lemma complete_bare g h hf r :
  owned_by (req r None) h → h ##ₘ hf → tidied oom g (h ∪ hf) → tidied oom (drop_request r g) hf.
Proof.
  intros -> Hd%map_disjoint_singleton_l Hg. rw -insert_union_singleton_l in Hg.
  apply (tidied_complete _ _ _ r None) in Hg; [|by apply lookup_insert_eq].
  by rw delete_insert_id in Hg.
Qed.

Lemma wpi_test r (Φ : bool → mProp) :
  req r None ∗ (∀ f : bool, (if f then emp else req r None) -∗ Φ f) ⊢ wpi (call (OTest r)) Φ.
Proof.
  apply (wpi_call (OTest r) (req r None) (λ f : bool, if f then emp else req r None)%I). intros g h hf Hh Hd Hg. split.
  { exists None. apply (td_request _ _ _ Hg). by rw Hh -insert_union_singleton_l lookup_insert_eq. }
  intros [] g' ->; [exists ∅|exists h]; [|done].
  rw left_id_L. split; [done|]. split; [apply map_disjoint_empty_l|]. by eapply complete_bare.
Qed.

Lemma wpi_wait r (Φ : unit → mProp) : req r None ∗ Φ tt ⊢ wpi (call (OWait r)) Φ.
Proof.
  rw -(wpi_call (OWait r) (req r None) (λ _, emp)%I Φ).
  { f_equiv. apply bi.forall_intro. intros []. by rw left_id. }
  intros g h hf Hh Hd Hg. split.
  { exists None. apply (td_request _ _ _ Hg). by rw Hh -insert_union_singleton_l lookup_insert_eq. }
  intros [] g' ->. exists ∅. rw left_id_L. split; [done|]. split; [apply map_disjoint_empty_l|].
  by eapply complete_bare.
Qed.

(** A request without a buffer may be overwritten. *)
Lemma wpi_forget {A} r (t : prog A) Φ : opt_req r ∗ wpi t Φ ⊢ wpi t Φ.
Proof.
  destruct r as [r|]; cbn; [|by rw left_id].
  apply entails_at. intros h (h1 & h2 & -> & Hd12 & Hh1 & Ht) hf g Hd Hg.
  apply map_disjoint_union_l in Hd as [Hd1 Hd2]. apply Ht; [done|].
  rw Hh1 in Hd1. rw Hh1 in Hd12. rw Hh1 -(assoc_L (∪)) -insert_union_singleton_l in Hg.
  apply map_disjoint_singleton_l in Hd1, Hd12.
  apply (tidied_forget _ _ _ r) in Hg; [|by apply lookup_insert_eq].
  by rw delete_insert_id in Hg; [|apply lookup_union_None].
Qed.
End wpi.
