(* ===== verification/OwnSends.v ===== *)
(** * Ownership of the outstanding sends

    The arrays of CIRCLE_worksend_* own themselves, the requests in their
    slots and, through the requests, the buffers. *)
From iris.proofmode Require Import proofmode.
From S2P Require Import Prelude CMonad Mem Heap Mpi Wire Tree State Sends Stdio Proc Api Network Quiet Transfer QuietWorker Own.

(** ** Steps through a body *)

Section steps.
Context (oom : bool).

Lemma wpi_i32 z (Φ : Z → mProp) : Φ z ⊢ wpi oom (i32 z) Φ.
Proof. unfold i32. destruct (in_i32 z); [apply wpi_ret|apply wpi_stop]. Qed.

Lemma wpi_deref {A} (o : option A) (Φ : A → mProp) :
  (∀ a, ⌜o = Some a⌝ → Φ a) ⊢ wpi oom (deref o) Φ.
Proof.
  destruct o as [a|]; [|apply wpi_stop]. cbn. rw -wpi_ret. iIntros "H". by iApply "H".
Qed.

Lemma wpi_CIRCLE_free p (Φ : ptr → mProp) : opt_blk p ∗ Φ None ⊢ wpi oom (CIRCLE_free p) Φ.
Proof.
  destruct p as [p|]; iIntros "[Hp HΦ]"; [|by iApply wpi_ret].
  iApply wpi_bind. iApply (wpi_free with "[$Hp HΦ]"). by iApply wpi_ret.
Qed.

Lemma wpi_MPI_Test r (Φ : bool * request → mProp) :
  opt_req r ∗ (∀ f r', opt_req r' -∗ Φ (f, r')) ⊢ wpi oom (MPI_Test r) Φ.
Proof.
  destruct r as [r|]; iIntros "[Hr HΦ]"; [|iApply wpi_ret; by iApply ("HΦ" $! _ None)].
  iApply wpi_bind. iApply (wpi_test with "[$Hr HΦ]"). iIntros (f) "Hr". iApply wpi_ret.
  destruct f; [iApply ("HΦ" $! _ None)|iApply ("HΦ" $! _ (Some r))]; done.
Qed.

(** Code that keeps to MPI and makes only local calls keeps to the contract. *)
Lemma quiet_tidy {A} (t : prog A) Φ (Q : view → A → Prop) E g :
  quiet local_op t Φ → wp (mpi oom) t Q E g → wp (tidy oom) t Q E g.
Proof.
  revert g. induction t as [a|e|o k IH]; intros g; cbn; [done..|].
  intros [Ho Hk] [Hp Hw].
  assert (pre (tidy oom) g o ∧ ∀ r g', post (tidy oom) g o r g' → mpi_post oom g o r g') as [Hp' Hpost].
  { destruct o; try done; cbn; (split; [done|]); try done. by intros r g1 [-> _]. }
  split; [done|]. intros r g' Hr. apply (IH r); [done|]. by apply Hw, Hpost.
Qed.
End steps.

(** [t] uses up [P] and gives [Q] of its result. *)
Notation "'⟨⟨' P '⟩⟩' t '⟨⟨' Q '⟩⟩'" := (∀ Φ, P%I ∗ (∀ a, Q%function a -∗ Φ a) ⊢ wpi _ t Φ)
  (at level 0, P, t, Q at level 200, format "⟨⟨  P  ⟩⟩  t  ⟨⟨  Q  ⟩⟩") : stdpp_scope.

(** ** The arrays of the sends *)

(** Slots [0 ..] hold the sends [l]. *)
Record slots (sn : send_st) (l : list (Z * ptr)) : Prop := Slots {
  sl_count : send_count sn = Z.of_nat (length l);
  sl_capacity : send_count sn ≤ send_capacity sn ≤ INT32_MAX;
  sl_cells :
    match send_reqs sn, send_bufs sn with
    | Some br, Some bb =>
        (cap br = send_capacity sn ∧ cap bb = send_capacity sn) ∧
        ∀ i r b, l !! i = Some (r, b) →
          cells br !! Z.of_nat i = Some (Some r) ∧ cells bb !! Z.of_nat i = Some b
    | None, None => send_capacity sn = 0
    | _, _ => False
    end;
}.

Definition arrays (sn : send_st) : mProp :=
  (opt_blk (addr <$> send_reqs sn) ∗ opt_blk (addr <$> send_bufs sn))%I.
Definition requests (l : list (Z * ptr)) : mProp := ([∗ list] x ∈ l, req x.1 x.2)%I.
Definition own_sends (sn : send_st) : mProp := (∃ l, ⌜slots sn l⌝ ∧ (arrays sn ∗ requests l))%I.

Lemma sends_arrays_slots g sn l : sends_arrays g sn l → slots sn l.
Proof.
  intros [Hc Hcap Hcells]. split; [done|done|].
  destruct (send_reqs sn), (send_bufs sn); try done. by destruct Hcells as (? & _ & ?).
Qed.

Lemma owned_requests l h :
  owned_by (requests l) h →
  NoDup l.*1 ∧ ∀ k b, h !! k = Some b ↔ ∃ r, k = a_request r ∧ (r, b) ∈ l.
Proof.
  revert h. induction l as [|[r b] l IH]; intros h Hh.
  - rw Hh. split; [constructor|]. intros k b. rw lookup_empty. split; [done|].
    intros (r & _ & Hr). by apply not_elem_of_nil in Hr.
  - destruct Hh as (h1 & h2 & -> & Hd & Hh1 & Hh2). destruct (IH h2 Hh2) as [Hn Hk].
    rw Hh1 in Hd. rw Hh1. cbn in Hd. apply map_disjoint_singleton_l in Hd. split.
    + cbn. apply NoDup_cons. split; [|done]. intros ([r' b'] & -> & Hin)%list_elem_of_fmap.
      cbn in Hd. assert (h2 !! a_request r' = Some b') as Hs by (apply Hk; by exists r'). by rw Hd in Hs.
    + intros k b'. rw -insert_union_singleton_l lookup_insert_Some Hk. cbn. split.
      * intros [[<- <-]|[_ (r' & -> & Hr')]]; [exists r|exists r']; (split; [done|]); [by left|by right].
      * intros (r' & -> & [[= -> ->]|Hin]%elem_of_cons); [by left|]. right. split; [|by exists r'].
        intros [= ->]. assert (h2 !! a_request r' = Some b') as Hs by (apply Hk; by exists r'). by rw Hd in Hs.
Qed.

Lemma owned_arrays sn h :
  owned_by (arrays sn) h →
  (∀ p, array_block sn p → ∃ x, h !! a_block p = Some x) ∧
  (∀ p q, addr <$> send_reqs sn = Some p → addr <$> send_bufs sn = Some q → p ≠ q).
Proof.
  intros (h1 & h2 & -> & Hd & H1 & H2). unfold array_block. split.
  - intros p [Hp|Hp]; exists None.
    + rw Hp in H1. apply lookup_union_Some_l. by rw H1 lookup_singleton_eq.
    + rw Hp in H2. apply lookup_union_Some_r; [done|]. by rw H2 lookup_singleton_eq.
  - intros p q Hp Hq ->. rw Hp in H1. rw Hq in H2. rw H1 H2 in Hd.
    apply map_disjoint_singleton_l in Hd. by rw lookup_singleton_eq in Hd.
Qed.

(** What is owned is what the lemmas of [Sends] ask for. *)
Lemma own_sends_view oom g sn l ha hr hf :
  slots sn l → owned_by (arrays sn) ha → owned_by (requests l) hr →
  ha ##ₘ hr → tidied oom g (ha ∪ hr ∪ hf) → sends_arrays g sn l ∧ sends_owned g l.
Proof.
  intros [Hc Hcap Hcells] [Ha Hne]%owned_arrays [Hn Hr]%owned_requests Hd Hg.
  assert (∀ p, array_block sn p → usable g p) as Hu.
  { intros p [x Hx]%Ha. apply (td_block _ _ _ Hg p x).
    by do 2 apply lookup_union_Some_l. }
  split.
  - split; [done|done|]. unfold array_block in *.
    destruct (send_reqs sn) as [br|], (send_bufs sn) as [bb|]; try done; cbn in *.
    destruct Hcells as (? & ?). split; [done|]. split; [|done].
    split; [by apply Hne|]. split; apply Hu; by [left|right].
  - split; [|done|apply (td_flight _ _ _ Hg)|apply (td_unique _ _ _ Hg)].
    intros r b Hin. apply (td_request _ _ _ Hg). apply lookup_union_Some_l, lookup_union_Some_r; [done|].
    apply Hr. by exists r.
Qed.

(** Completed sends leave nothing behind. *)
Lemma tidied_sent oom g h r b :
  tidied oom g (<[a_request r := b]> h) → h !! a_request r = None →
  tidied oom (complete_sends [(r, b)] g) h.
Proof.
  intros Hg Hr. pose proof (td_request _ _ _ Hg r b ltac:(apply lookup_insert_eq)) as Hpr.
  pose proof Hg as Hc. apply (tidied_complete _ _ _ r b) in Hc; [|apply lookup_insert_eq].
  rw delete_insert_id in Hc; [|done]. destruct b as [p|]; [|done].
  apply (tidied_free _ _ _ p) in Hc; [|by rw lookup_insert_eq].
  rw delete_insert_id in Hc; [done|]. destruct (h !! a_block p) as [x|] eqn:Hx; [|done].
  destruct (td_block _ _ _ Hg p x) as [_ Hn]; [by rw lookup_insert_ne|]. destruct Hn. by exists r.
Qed.

Lemma tidied_all_sent oom l g h hf :
  owned_by (requests l) h → h ##ₘ hf → tidied oom g (h ∪ hf) → tidied oom (complete_sends l g) hf.
Proof.
  revert g h. induction l as [|[r b] l IH]; intros g h Hh Hd Hg.
  - rw Hh left_id_L in Hg. done.
  - destruct Hh as (h1 & h2 & -> & Hd12 & Hh1 & Hh2). rw Hh1 in Hd12. rw Hh1 in Hd. rw Hh1 in Hg.
    cbn in Hd12, Hd, Hg.
    apply map_disjoint_union_l in Hd as [Hd1 Hd2]. apply map_disjoint_singleton_l in Hd1, Hd12.
    rw -(assoc_L (∪)) -insert_union_singleton_l in Hg. apply tidied_sent in Hg; [|by apply lookup_union_None].
    replace (complete_sends ((r, b) :: l) g) with (complete_sends l (complete_sends [(r, b)] g)) by (by destruct b).
    by apply (IH _ h2).
Qed.

Section sends.
Context (oom : bool).

(** Some sends are complete, the others and the arrays are as before. *)
Lemma sends_completed sn sn' l fin rest g ha hr hf :
  same_arrays sn sn' → l ≡ₚ fin ++ rest →
  owned_by (arrays sn) ha → owned_by (requests l) hr → ha ##ₘ hr → ha ∪ hr ##ₘ hf →
  tidied oom g (ha ∪ hr ∪ hf) →
  ∃ h', h' ##ₘ hf ∧ tidied oom (complete_sends fin g) (h' ∪ hf) ∧ owned_by (arrays sn' ∗ requests rest)%I h'.
Proof.
  intros [Hs1 Hs2] Hl Ha Hr Hd12 [Hd1 Hd2]%map_disjoint_union_l Hg.
  assert (requests l ⊢ requests fin ∗ requests rest) as He.
  { unfold requests. by rw Hl big_sepL_app. }
  destruct (at_entails _ _ _ He Hr) as (h1 & h2 & -> & Hd & H1 & H2).
  apply map_disjoint_union_l in Hd2 as [Hd3 Hd4]. apply map_disjoint_union_r in Hd12 as [Hd5 Hd6].
  exists (ha ∪ h2). split; [by apply map_disjoint_union_l|]. split.
  - apply (tidied_all_sent _ _ _ _ _ H1).
    + by repeat (apply map_disjoint_union_r; split).
    + rw (assoc_L (∪)) (assoc_L (∪)) (map_union_comm h1 ha); [|done]. by rw (assoc_L (∪)) in Hg.
  - assert (arrays sn' = arrays sn) as Has by (by unfold arrays; rw Hs1 Hs2).
    exists ha, h2. by rw Has.
Qed.

Lemma check_own sn : own_sends sn ⊢ wpi oom (CIRCLE_worksend_check sn) own_sends.
Proof.
  apply entails_at. intros h (l & Hs & ha & hr & -> & Hd12 & Ha & Hr) hf g Hd Hg.
  destruct (own_sends_view oom g sn l ha hr hf) as [Hsa Hso]; [done..|].
  eapply quiet_tidy; [by apply (quiet_check _ (λ _, True))|].
  eapply wp_mono, check_wp; [|done..].
  intros g' sn' (fin & rest & Hl & -> & Hsa' & _ & Hsame).
  destruct (sends_completed sn sn' l fin rest g ha hr hf) as (h' & ? & ? & ?); [done..|].
  exists h'. split; [done|]. split; [done|]. exists rest. split; [by eapply sends_arrays_slots|done].
Qed.

Lemma wait_own sn r :
  own_sends sn ∗ opt_req r ⊢ wpi oom (CIRCLE_worksend_wait r sn) (λ x, ⌜x.1 = None⌝ ∧ arrays x.2)%I.
Proof.
  apply entails_at. intros h (h1 & h2 & -> & Hd12 & (l & Hs & ha & hr & -> & Hd34 & Ha & Hr) & Hh2) hf g Hd Hg.
  apply map_disjoint_union_l in Hd as [Hd1 Hd2]. apply map_disjoint_union_l in Hd12 as [Hd5 Hd6].
  apply map_disjoint_union_l in Hd1 as [Hd7 Hd8].
  destruct (own_sends_view oom g sn l ha hr (h2 ∪ hf)) as [Hsa Hso]; [done..|by rw (assoc_L (∪))|].
  eapply quiet_tidy; [by apply (quiet_wait _ _ (λ _, True))|].
  set (g1 := match r with Some r => drop_request r g | None => g end).
  assert (tidied oom g1 (ha ∪ hr ∪ hf)) as Hg1.
  { destruct r as [r|]; rw Hh2 in Hg; [|by rw right_id_L in Hg].
    apply (complete_bare oom _ _ _ _ (eq_refl : owned_by (req r None) _)).
    - rw Hh2 in Hd2. rw Hh2 in Hd5. rw Hh2 in Hd6. by repeat (apply map_disjoint_union_r; split).
    - rw (assoc_L (∪)) (map_union_comm _ (ha ∪ hr)) //.
      rw Hh2 in Hd5. rw Hh2 in Hd6. by apply map_disjoint_union_r. }
  eapply wp_mono, wait_wp; [|done|done|done|].
  - intros g' [r' sn'] (-> & Hsame & Hsa' & ->).
    destruct (sends_completed sn sn' l l [] g1 ha hr hf) as (h' & ? & ? & ?);
      [done|by rw right_id_L|done..|by apply map_disjoint_union_l|done|].
    exists h'. split; [done|]. split; [done|]. split; [done|].
    eapply at_entails; [|done]. unfold requests. cbn. by rw right_id.
  - intros r0 ->. cbn in Hh2. rw Hh2 in Hg.
    assert ((ha ∪ hr ∪ {[a_request r0 := None]} ∪ hf) !! a_request r0 = Some None) as Hlk.
    { apply lookup_union_Some_l, lookup_union_Some_r; [|apply lookup_singleton_eq].
      rw Hh2 in Hd5. rw Hh2 in Hd6. by apply map_disjoint_union_l. }
    split; [exists None; by apply (td_request _ _ _ Hg)|].
    intros ([r1 b] & -> & Hin)%list_elem_of_fmap. destruct (owned_requests _ _ Hr) as [_ Hk].
    assert (hr !! a_request r1 = Some b) as Hb by (apply Hk; by exists r1).
    rw Hh2 in Hd6. apply map_disjoint_singleton_r in Hd6. by rw Hd6 in Hb.
Qed.

(** Growing copies the slots. *)
Lemma slots_grow sn l capacity pr pb :
  slots sn l → send_count sn < capacity ≤ INT32_MAX →
  slots (mk_send_st (send_count sn) capacity (Some (regrow (send_reqs sn) pr capacity))
           (Some (regrow (send_bufs sn) pb capacity))) l.
Proof.
  intros [Hc Hcap Hcells] Hn. split; cbn; [done|lia|]. split; [done|]. intros i r b Hi.
  destruct (send_reqs sn), (send_bufs sn); cbn; try done; [by apply Hcells|].
  apply lookup_lt_Some in Hi. lia.
Qed.

Lemma slots_snoc sn l br bb r b br' bb' :
  slots sn l → send_reqs sn = Some br → send_bufs sn = Some bb →
  store br (send_count sn) (Some r) = Some br' → store bb (send_count sn) b = Some bb' →
  send_count sn + 1 ≤ INT32_MAX →
  slots (mk_send_st (send_count sn + 1) (send_capacity sn) (Some br') (Some bb')) (l ++ [(r, b)]) ∧
  addr br' = addr br ∧ addr bb' = addr bb.
Proof.
  intros [Hc Hcap Hcells] Hbr Hbb. rw Hbr Hbb in Hcells. destruct Hcells as [[Hc1 Hc2] Hcells].
  unfold store, store_list, in_block. cbn [length]. destruct (_ && _) eqn:Hb1; [|done]. intros [= <-].
  destruct (_ && (_ <=? cap bb)) eqn:Hb2; [|done]. intros [= <-] Hmax. split; [|done].
  apply andb_prop in Hb1 as [_ Hb1%Z.leb_le].
  split; cbn; [rw length_app; cbn; lia|lia|]. split; [done|].
  intros i r' b' [Hi|[Hge Hi]]%lookup_app_Some.
  - apply lookup_lt_Some in Hi as Hlt. rw !lookup_insert_ne; [|lia..]. by apply Hcells.
  - apply list_lookup_singleton_Some in Hi as [Hi [= <- <-]].
    assert (Z.of_nat i = send_count sn) as -> by lia. by rw !lookup_insert_eq.
Qed.

Lemma track_own sn r b :
  own_sends sn ∗ req r b ⊢ wpi oom (CIRCLE_worksend_track sn (Some r) b) own_sends.
Proof.
  iIntros "[(%l & %Hs & [Hr Hb] & Hl) Hreq]". unfold CIRCLE_worksend_track. iApply wpi_bind.
  iApply (wpi_wand _ _ (λ sn', ⌜slots sn' l⌝ ∧ arrays sn')%I with "[Hr Hb]").
  { case_match; [|iApply wpi_ret; by iFrame].
    iApply wpi_bind. iApply (wpi_wand _ _ (λ c, ⌜send_count sn < c ≤ INT32_MAX⌝ ∧ emp)%I).
    - pose proof (sl_capacity _ _ Hs). case_match; [|iApply wpi_ret; iSplit; [iPureIntro; c_arith|done]].
      unfold i32. case_match eqn:Hi; [|iStopProof; apply wpi_stop].
      iApply wpi_ret. iSplit; [|done]. iPureIntro. apply in_i32_iff in Hi. lia.
    - iIntros (c) "[%Hc _]". iApply wpi_bind. iApply (wpi_realloc with "[$Hr Hb]"). iIntros (pr) "Hr".
      iApply wpi_bind. iApply (wpi_realloc with "[$Hb Hr]"). iIntros (pb) "Hb".
      destruct pr as [pr|], pb as [pb|]; [|iStopProof; apply wpi_stop..].
      iApply wpi_ret. iSplit; [iPureIntro; by apply slots_grow|]. unfold arrays. cbn. iFrame. }
  iIntros (sn1) "[%Hs1 [Hr Hb]]".
  iApply wpi_bind. iApply wpi_deref. iIntros (br Hbr).
  iApply wpi_bind. iApply wpi_deref. iIntros (bb Hbb).
  iApply wpi_bind. iApply wpi_deref. iIntros (br' Hbr').
  iApply wpi_bind. iApply wpi_deref. iIntros (bb' Hbb').
  iApply wpi_bind. unfold i32. case_match eqn:Hi; [|iStopProof; apply wpi_stop].
  iApply wpi_ret. iApply wpi_ret. apply in_i32_iff in Hi.
  destruct (slots_snoc sn1 l br bb r b br' bb') as (Hs2 & Ha1 & Ha2); [done..|lia|].
  iExists (l ++ [(r, b)]). iSplit; [done|]. unfold arrays, requests. cbn.
  rw Hbr Hbb Ha1 Ha2 big_sepL_snoc. iFrame.
Qed.
End sends.
