(* ===== verification/OwnQueue.v ===== *)
(** * Ownership of the queue, the globals and what user code does to them *)
From iris.proofmode Require Import proofmode.
From S2P Require Import Prelude CMonad Mem Heap Queue Stdio Checkpoint Wire Tree State Mpi Sends Proc Api Network Quiet Own OwnSends.

(** ** Code that does not concern the memory *)

Lemma calm_wpi oom {A} (t : prog A) (Φ : A → Prop) (Ψ : A → mProp) :
  quiet no_mem t Φ → (∀ a, ⌜Φ a⌝ → Ψ a) ⊢ wpi oom t Ψ.
Proof.
  induction t as [a|e|o k IH]; intros Ht; [|apply wpi_stop|].
  - rw -wpi_ret. iIntros "H". by iApply "H".
  - destruct Ht as [Ho Hk]. iIntros "H". iApply (wpi_bind _ (call o) k).
    iApply wpi_silent; [done|]. iIntros (r). iApply (IH r (Hk r) with "H").
Qed.

Lemma quiet_deref K {A} (o : option A) (Φ : A → Prop) :
  (∀ a, o = Some a → Φ a) → quiet K (deref o) Φ.
Proof. destruct o; cbn; auto. Qed.

(** Steps through a body; calls that concern the memory are left. *)
Ltac own_step :=
  cbn beta iota zeta delta [fst snd];
  lazymatch goal with
  | |- environments.envs_entails _ (wpi _ ?t _) =>
      lazymatch t with
      | mbind _ _ => iApply wpi_bind
      | mret _ => iApply wpi_ret
      | Stop _ => iStopProof; apply wpi_stop
      | call _ => iApply wpi_silent; [reflexivity|iIntros (?)]
      | deref _ => iApply wpi_deref; iIntros (? ?)
      | i32 _ => iApply wpi_i32
      | (if ?b then _ else _) => destruct b
      | (match ?x with _ => _ end) => destruct x
      end
  end.
Ltac own_steps := repeat own_step; cbn beta iota zeta.

(** A part of a body by its lemma. *)
Tactic Notation "own_with" open_constr(lem) constr(H) :=
  iApply (wpi_wand with H); [by iApply lem|].

Lemma store_list_addr {A} (b b' : block A) i l : store_list b i l = Some b' → addr b' = addr b.
Proof. unfold store_list. destruct (in_block _ _ _); [by intros [= <-]|done]. Qed.

Lemma store_addr {A} (b b' : block A) i x : store b i x = Some b' → addr b' = addr b.
Proof. apply store_list_addr. Qed.

(** A store leaves the array where it is. *)
Ltac own_addrs := cbn; repeat match goal with
  | H : store_list _ _ _ = Some _ |- _ => apply store_list_addr in H
  | H : store _ _ _ = Some _ |- _ => apply store_addr in H
  | H : ?x = Some ?b |- context [addr <$> ?x] => rw H
  | H : addr ?b' = addr ?b |- context [addr ?b'] => rw H
  end; cbn.

Section queue.
Context (oom : bool).

(** ** The queue *)

Definition own_queue (qp : CIRCLE_internal_queue_t) : mProp :=
  (blk (q_addr qp) ∗ opt_blk (addr <$> q_base qp) ∗ opt_blk (addr <$> q_strings qp))%I.
Definition own_handle (qp : option CIRCLE_internal_queue_t) : mProp :=
  match qp with Some qp => own_queue qp | None => emp%I end.

Lemma calm_grow_str fuel c n : quiet no_mem (grow_str_count fuel c n) (λ _, True).
Proof. revert c. induction fuel as [|fuel IH]; intros c; cbn [grow_str_count]; quiet_steps. Qed.

Lemma calm_grow_bytes fuel c n : quiet no_mem (grow_bytes fuel c n) (λ _, True).
Proof. revert c. induction fuel as [|fuel IH]; intros c; cbn [grow_bytes]; quiet_steps. Qed.

Lemma str_extend_own qp n :
  own_queue qp ⊢ wpi oom (CIRCLE_internal_queue_str_extend qp n) (λ x, own_queue x.2).
Proof.
  iIntros "(Ha & Hb & Hs)". unfold CIRCLE_internal_queue_str_extend. iApply wpi_bind.
  iApply (calm_wpi _ _ (λ _, True)); [apply calm_grow_str|].
  iIntros (c _). iApply wpi_bind. iApply (wpi_realloc with "[$Hs Ha Hb]"). iIntros (p) "Hs".
  iApply wpi_ret. unfold own_queue. cbn. iFrame. by destruct p.
Qed.

Lemma extend_own qp n :
  own_queue qp ⊢ wpi oom (CIRCLE_internal_queue_extend qp n) (λ x, own_queue x.2).
Proof.
  iIntros "(Ha & Hb & Hs)". unfold CIRCLE_internal_queue_extend. iApply wpi_bind.
  iApply (calm_wpi _ _ (λ _, True)); [apply calm_grow_bytes|].
  iIntros (c _). iApply wpi_bind. iApply (wpi_realloc with "[$Hb Ha Hs]"). iIntros (p) "Hb".
  destruct p as [p|]; iApply wpi_ret; unfold own_queue; cbn; iFrame.
Qed.

Lemma push_own qp str :
  own_queue qp ⊢ wpi oom (CIRCLE_internal_queue_push qp str) (λ x, own_queue x.2).
Proof.
  iIntros "Hq". unfold CIRCLE_internal_queue_push. destruct str as [str|]; [|by iApply wpi_ret].
  cbn zeta. own_step; [by iApply wpi_ret|]. own_step; [by iApply wpi_ret|].
  iApply wpi_bind. own_step. iApply wpi_bind.
  iApply (wpi_wand _ _ (λ x, own_queue x.2) with "[Hq]").
  { own_step; [by iApply str_extend_own|by iApply wpi_ret]. }
  clear qp. iIntros ([rc qp]) "Hq". cbn. own_step; [by iApply wpi_ret|].
  iApply wpi_bind. iApply (wpi_wand _ _ (λ x, own_queue x.2) with "[Hq]").
  { own_step; [by iApply extend_own|by iApply wpi_ret]. }
  clear rc qp. iIntros ([rc qp]) "(Ha & Hb & Hs)". cbn. own_step; [iApply wpi_ret; by iFrame|].
  own_steps. unfold own_queue. own_addrs. iFrame.
Qed.
Lemma pop_own qp room :
  own_queue qp ⊢ wpi oom (CIRCLE_internal_queue_pop (Some qp) room)
    (λ x, ∃ qp', ⌜x.1.2 = Some qp'⌝ ∧ own_queue qp')%I.
Proof.
  iIntros "Hq". unfold CIRCLE_internal_queue_pop. own_steps; iExists _;
    (iSplit; [by iPureIntro|]); iExact "Hq".
Qed.

Lemma read_loop_own fuel qp h : own_queue qp ⊢ wpi oom (queue_read_loop fuel qp h) own_queue.
Proof.
  revert qp. induction fuel as [|fuel IH]; intros qp; cbn [queue_read_loop]; [apply wpi_stop|].
  iIntros "Hq". own_step. own_step. own_step; [|by iApply wpi_ret]. cbn zeta. own_step; [|by iApply IH].
  own_step. own_with push_own "[Hq]". iIntros ([rc qp']) "Hq". by iApply IH.
Qed.

Lemma read_own fuel qp rank :
  own_handle qp ⊢ wpi oom (CIRCLE_internal_queue_read fuel qp rank) (λ x, own_handle x.2).
Proof.
  iIntros "Hq". unfold CIRCLE_internal_queue_read. own_step; [|by iApply wpi_ret].
  own_step. own_step. own_step; [|by iApply wpi_ret].
  own_step. own_with read_loop_own "[Hq]". iIntros (q') "Hq". by own_steps.
Qed.

Lemma write_loop_own fuel qp h :
  own_queue qp ⊢ wpi oom (queue_write_loop fuel qp h) (λ x, own_queue x.2).
Proof.
  revert qp. induction fuel as [|fuel IH]; intros qp; cbn [queue_write_loop].
  { iIntros "Hq". own_step; [iStopProof; apply wpi_stop|by iApply wpi_ret]. }
  iIntros "Hq". own_step; [|by iApply wpi_ret]. own_step.
  own_with pop_own "[Hq]". iIntros ([[rc o] str]) "(%q & %Ho & Hq)". cbn in Ho. subst o.
  cbn beta iota zeta. cbn [default].
  own_step; [by iApply wpi_ret|]. own_step. own_step. own_step; [by iApply wpi_ret|]. by iApply IH.
Qed.

Lemma write_own qp rank :
  own_queue qp ⊢ wpi oom (CIRCLE_internal_queue_write qp rank) (λ x, own_queue x.2).
Proof.
  iIntros "Hq". unfold CIRCLE_internal_queue_write. own_step; [by iApply wpi_ret|].
  own_step. own_step. own_step; [|by iApply wpi_ret].
  own_step. own_with write_loop_own "[Hq]". iIntros ([rc q]) "Hq". own_steps; iExact "Hq".
Qed.

Lemma free_opt_own p : opt_blk p ⊢ wpi oom (free_opt p) (λ _, emp)%I.
Proof.
  iIntros "Hp". destruct p as [p|]; [|by iApply wpi_ret].
  iApply (wpi_free with "[$Hp]"). done.
Qed.

Lemma queue_free_own qp : own_handle qp ⊢ wpi oom (CIRCLE_internal_queue_free qp) (λ _, emp)%I.
Proof.
  destruct qp as [q|]; [|by iIntros "_"; iApply wpi_ret]. iIntros "(Ha & Hb & Hs)".
  unfold CIRCLE_internal_queue_free. own_step.
  own_with free_opt_own "[Hs]". iIntros ([]) "_". own_step. own_with free_opt_own "[Hb]". iIntros ([]) "_".
  own_step. iApply (wpi_free with "[$Ha]"). by iApply wpi_ret.
Qed.

Lemma queue_init_own : ⊢ wpi oom CIRCLE_internal_queue_init own_handle.
Proof.
  iStartProof. unfold CIRCLE_internal_queue_init. own_step. iApply wpi_malloc. iIntros (p) "Ha".
  own_step. destruct p as [p|]; [|iStopProof; apply wpi_stop]. iApply wpi_ret. unfold queue_init_fields. cbn zeta.
  own_step. iApply wpi_malloc. iIntros (pb) "Hb". own_step. iApply wpi_malloc. iIntros (ps) "Hs".
  destruct pb as [pb|], ps as [ps|]; [iApply wpi_ret; by iFrame|..]; own_step;
    (iApply (wpi_wand with "[Ha Hb Hs]"); [by iApply queue_free_own; iFrame|]); iIntros (?) "_"; by iApply wpi_ret.
Qed.

(** ** The globals and the API *)

Definition own_globals (g : globals) : mProp :=
  (own_handle (queue (CIRCLE_INPUT_ST g)) ∗ opt_blk (addr <$> reduce_buf (CIRCLE_INPUT_ST g)))%I.

Lemma the_queue_own {A} g (f : CIRCLE_internal_queue_t → prog A) (Φ : A → mProp) :
  (∀ q, ⌜queue (CIRCLE_INPUT_ST g) = Some q⌝ → wpi oom (f q) Φ) ⊢ wpi oom (q ← the_queue g; f q) Φ.
Proof. rw -wpi_bind -wpi_deref. done. Qed.

Lemma enqueue_own s g : own_globals g ⊢ wpi oom (CIRCLE_enqueue s g) (λ x, own_globals x.2).
Proof.
  iIntros "[Hq Hr]". iApply the_queue_own. iIntros (q Hq). rw Hq.
  own_step. own_with push_own "[Hq]". iIntros ([rc q']) "Hq". iApply wpi_ret. iFrame.
Qed.

Lemma dequeue_own room g : own_globals g ⊢ wpi oom (CIRCLE_dequeue room g) (λ x, own_globals x.1.2).
Proof.
  iIntros "[Hq Hr]". unfold CIRCLE_dequeue. own_step. destruct (queue _) as [q|].
  - own_with pop_own "[Hq]". iIntros ([[rc o] s]) "(%q' & %Ho & Hq)". cbn in Ho. subst o.
    iApply wpi_ret. iFrame.
  - iApply wpi_ret. iApply wpi_ret. unfold own_globals. iFrame.
Qed.

Lemma checkpoint_own g : own_globals g ⊢ wpi oom (CIRCLE_checkpoint g) own_globals.
Proof.
  iIntros "[Hq Hr]". unfold CIRCLE_checkpoint. own_step. iApply the_queue_own. iIntros (q Hq). rw Hq.
  own_step. own_with write_own "[Hq]". iIntros ([rc q']) "Hq". iApply wpi_ret. iApply wpi_ret. iFrame.
Qed.

Lemma read_restarts_own fuel g : own_globals g ⊢ wpi oom (CIRCLE_read_restarts fuel g) own_globals.
Proof.
  iIntros "[Hq Hr]". unfold CIRCLE_read_restarts. own_step. unfold _CIRCLE_read_restarts. own_step.
  own_with read_own "[Hq]". iIntros ([rc q']) "Hq". iApply wpi_ret. iApply wpi_ret. iFrame.
Qed.

Lemma reduce_api_own buf g : own_globals g ⊢ wpi oom (CIRCLE_reduce buf g) own_globals.
Proof.
  iIntros "[Hq Hr]". unfold CIRCLE_reduce. own_step. iApply (wpi_CIRCLE_free with "[$Hr Hq]").
  own_step; [|iApply wpi_ret; by iFrame]. own_step. iApply wpi_malloc. iIntros (p) "Hp".
  destruct p as [p|]; [|iApply wpi_ret; by iFrame]. own_steps. unfold own_globals. own_addrs. iFrame.
Qed.

Lemma user_own fuel u g : own_globals g ⊢ wpi oom (run_user fuel u g) own_globals.
Proof.
  revert g. induction u as [|n k IH|s k IH|room k IH|k IH|buf k IH|k IH|k IH|k IH|o k IH|w k IH|s k IH];
    intros g; iIntros "H"; cbn [run_user].
  - by iApply wpi_ret.
  - own_step. own_step. by iApply IH.
  - own_step. own_with enqueue_own "[H]". iIntros ([rc g']) "H". by iApply IH.
  - own_step. own_with dequeue_own "[H]". iIntros ([[rc g'] s]) "H". by iApply IH.
  - own_step. iApply the_queue_own. iIntros (q Hq). iApply wpi_ret. by iApply IH.
  - own_step. own_with reduce_api_own "[H]". iIntros (g') "H". by iApply IH.
  - by iApply IH.
  - own_step. own_with checkpoint_own "[H]". iIntros (g') "H". by iApply IH.
  - own_step. own_with read_restarts_own "[H]". iIntros (g') "H". by iApply IH.
  - by iApply IH.
  - by iApply IH.
  - by iApply IH.
Qed.

Lemma call_cb_own fuel cb g : own_globals g ⊢ wpi oom (call_cb fuel cb g) own_globals.
Proof. iIntros "H". unfold call_cb. own_step. own_step. by iApply user_own. Qed.
End queue.
