(* ===== verification/OwnTransfer.v ===== *)
(** * Ownership in the work transfer, the tree, the token and the abort *)
From iris.proofmode Require Import proofmode.
From S2P Require Import Prelude CMonad Mem Heap Queue Stdio Checkpoint Wire Tree Split State Mpi Sends Transfer Barrier Term Abort Token Proc Api Network Quiet Own OwnSends OwnQueue.

Section transfer.
Context (oom : bool).

(** ** The tree *)

Definition own_tree (t : CIRCLE_tree_state_st) : mProp := opt_blk (addr <$> child_ranks t).

Lemma calm_fill n i f b :
  quiet no_mem (fill n i f b) (λ b', addr <$> b' = addr <$> b).
Proof.
  revert i b. induction n as [|n IH]; intros i b; cbn [fill]; [done|].
  apply quiet_bind, quiet_deref. intros b0 ->. apply quiet_bind, quiet_deref. intros b' Hs.
  eapply quiet_mono; [|apply IH]. intros b2 ->. cbn. by rw (store_addr _ _ _ _ Hs).
Qed.

Lemma calm_spread b i r c : quiet no_mem (spread_counts b i r c) (λ b', addr <$> b' = addr <$> b).
Proof.
  unfold spread_counts. apply quiet_bind. eapply (quiet_mono _ _ (λ _, True)); [|by quiet_steps].
  intros base _. apply quiet_bind, quiet_i32. apply quiet_bind, quiet_i32. cbn zeta.
  eapply quiet_seq; [apply calm_fill|]. intros b' <-. apply calm_fill.
Qed.

Lemma tree_init_own rank ranks k : ⊢ wpi oom (CIRCLE_tree_init rank ranks k) own_tree.
Proof.
  iStartProof. unfold CIRCLE_tree_init. own_step.
  iApply (wpi_wand _ _ (λ b : option (block Z), opt_blk (addr <$> b))).
  { own_step; [|by iApply wpi_ret]. own_step. iApply wpi_malloc. iIntros (p) "Hp".
    destruct p; [|iStopProof; apply wpi_stop]. iApply wpi_ret. done. }
  iIntros (b) "Hb". own_step. iApply calm_wpi; [apply calm_fill|]. iIntros (b' <-). own_step.
  iApply (calm_wpi _ _ (λ _, True)); [quiet_steps|]. iIntros (par _). own_steps; [|done].
  iApply calm_wpi; [apply calm_fill|]. iIntros (b2 <-). by iApply wpi_ret.
Qed.

Lemma tree_free_own t : own_tree t ⊢ wpi oom (CIRCLE_tree_free t) (λ _, emp)%I.
Proof.
  unfold CIRCLE_tree_free, own_tree. iIntros "H". destruct (child_ranks t) as [b|]; [|by iApply wpi_ret].
  own_step. iApply (wpi_free with "[$H]"). by iApply wpi_ret.
Qed.

(** ** The answers to requests *)

Lemma send_no_work_own abort sn dest :
  own_sends sn ⊢ wpi oom (CIRCLE_send_no_work abort sn dest) own_sends.
Proof.
  iIntros "H". unfold CIRCLE_send_no_work. own_step. iApply wpi_malloc. iIntros (p) "Hp".
  destruct p as [p|]; [|iStopProof; apply wpi_stop]. do 7 own_step.
  iApply (wpi_isend with "[$Hp H]"). iIntros (r) "Hr". iApply track_own. iFrame.
Qed.

Lemma no_work_loop_own n i abort rs sn :
  own_sends sn ⊢ wpi oom (no_work_loop n i abort rs sn) own_sends.
Proof.
  revert i sn. induction n as [|n IH]; intros i sn; cbn [no_work_loop]; [apply wpi_ret|].
  iIntros "H". do 3 own_step. own_with send_no_work_own "[H]". iIntros (sn') "H". by iApply IH.
Qed.

Lemma calm_extent qp c e : quiet no_mem (send_extent qp c e) (λ _, True).
Proof. unfold send_extent. quiet_steps. Qed.

Lemma calm_back_off fuel qp e c s l : quiet no_mem (back_off fuel qp e c s l) (λ _, True).
Proof.
  revert c s l. induction fuel as [|fuel IH]; intros c s l; cbn [back_off]; (destruct (_ && _); [|done]); [done|].
  cbn zeta. eapply quiet_seq; [apply calm_extent|]. intros [s' l'] _. apply IH.
Qed.

Lemma calm_send_offsets n i e s m b : quiet no_mem (send_offsets n i e s m b) (λ b', addr b' = addr b).
Proof.
  revert i e b. induction n as [|n IH]; intros i e b; cbn [send_offsets]; [done|].
  apply quiet_bind, quiet_deref. intros x _. apply quiet_bind, quiet_deref. intros b' Hs.
  eapply quiet_mono; [|apply IH]. intros b2 ->. by apply store_addr in Hs.
Qed.

Lemma send_items_own qp sn dest c s l :
  own_sends sn ⊢ wpi oom (send_items qp sn dest c s l) own_sends.
Proof.
  iIntros "H". unfold send_items. do 3 own_step. iApply wpi_malloc. iIntros (po) "Ho".
  own_step. iApply wpi_malloc. iIntros (pb) "Hb".
  destruct po as [po|], pb as [pb|]; [|iStopProof; apply wpi_stop..].
  do 6 own_step. own_step. iApply (calm_wpi _ _ (λ _, True)); [eapply quiet_mono, calm_send_offsets; done|].
  iIntros (ob _). do 7 own_step. iApply (wpi_isend with "[$Ho H Hb]"). iIntros (r) "Hr". own_step.
  iApply (wpi_wand with "[H Hr]"); [iApply track_own; iFrame|]. iIntros (sn') "H". own_step.
  iApply (wpi_isend with "[$Hb H]"). iIntros (r') "Hr". iApply track_own. iFrame.
Qed.

(** ** The state of a worker *)

(** An array of requests, for the abort broadcast. *)
Definition own_requests (reqs : option (block request)) : mProp :=
  match reqs with
  | Some b => blk (addr b) ∗ [∗ map] r ∈ cells b, opt_req r
  | None => emp
  end%I.
Definition own_abort (a : abort_st) : mProp := own_requests (abort_req a).

(** All but the outstanding sends. *)
Definition own_rest (st : CIRCLE_state_st) : mProp :=
  (opt_blk (addr <$> offsets_recv_buf (st_offsets st)) ∗ opt_blk (addr <$> st_requestors st) ∗
   own_tree (st_tree st) ∗ own_abort (st_abort st) ∗
   opt_req (work_request_req (st_request st)) ∗ opt_req (token_send_req (st_token st)))%I.
Definition own_state (st : CIRCLE_state_st) : mProp := (own_rest st ∗ own_sends (st_send st))%I.
Definition own_work (qp : CIRCLE_internal_queue_t) (st : CIRCLE_state_st) : mProp :=
  (own_queue qp ∗ own_state st)%I.

Lemma own_rest_eq st st' :
  st_offsets st' = st_offsets st → st_requestors st' = st_requestors st →
  st_tree st' = st_tree st → st_abort st' = st_abort st → st_request st' = st_request st →
  token_send_req (st_token st') = token_send_req (st_token st) → own_rest st ⊢ own_rest st'.
Proof. intros H1 H2 H3 H4 H5 H6. unfold own_rest. by rw H1 H2 H3 H4 H5 H6. Qed.

Lemma set_send_own sn st : own_rest st ∗ own_sends sn ⊢ own_state (set_st_send sn st).
Proof. done. Qed.

Lemma send_work_own abort qp st dest c :
  own_work qp st ⊢ wpi oom (CIRCLE_send_work abort qp st dest c) (λ x, own_work x.1.2 x.2).
Proof.
  iIntros "(Hq & Hst)". unfold CIRCLE_send_work. destruct (c <=? 0).
  { iDestruct "Hst" as "[Hst Hs]". own_step. own_with send_no_work_own "[Hs]". iIntros (sn) "Hs".
    iApply wpi_ret. iFrame. }
  cbn zeta. set (st1 := if _ || _ then upd_token (set_token_proc BLACK) st else st).
  assert (own_state st ⊢ own_state st1) as He by (subst st1; by case_match).
  iDestruct (He with "Hst") as "[Hst Hs]". clearbody st1. clear He st.
  do 7 own_step. iApply (calm_wpi _ _ (λ _, True)); [apply calm_extent|]. iIntros ([s l] _). own_step.
  iApply (calm_wpi _ _ (λ _, True)); [apply calm_back_off|]. iIntros ([[c' s'] l'] _). own_step.
  - own_step. own_with send_no_work_own "[Hs]". iIntros (sn) "Hs".
    iApply wpi_ret. iFrame.
  - own_step. own_with send_items_own "[Hs]". iIntros (sn) "Hs".
    do 5 own_step. iSplitL "Hq"; [iExact "Hq"|]. iApply (set_send_own with "[$Hst $Hs]").
Qed.

Lemma send_work_loop_own n i abort rs sizes qp st :
  own_work qp st ⊢ wpi oom (send_work_loop n i abort rs sizes qp st) (λ x, own_work x.1 x.2).
Proof.
  revert i qp st. induction n as [|n IH]; intros i qp st; cbn [send_work_loop];
    [by iIntros "H"; iApply wpi_ret|].
  iIntros "H". do 5 own_step. own_with send_work_own "[H]". iIntros ([[rc qp'] st']) "H". by iApply IH.
Qed.

(** The array of the sizes. *)
Lemma split_own o seed q r :
  ⊢ wpi oom (split_sizes o seed q r) (λ x, opt_blk (addr <$> x.1)).
Proof.
  iStartProof. unfold split_sizes. do 3 own_step. iApply wpi_malloc. iIntros (p) "Hp".
  destruct p as [p|]; [|iStopProof; apply wpi_stop]. cbn zeta. own_step.
  - own_step. iApply calm_wpi; [apply calm_spread|]. iIntros (b Hb). iApply wpi_ret. cbn. by rw Hb.
  - own_step. own_step. own_step. own_step. iApply (calm_wpi _ _ (λ _, True)); [quiet_steps|]. iIntros (x _).
    do 4 own_step. own_step. iApply calm_wpi; [apply calm_fill|]. iIntros (b Hb). own_step.
    iApply calm_wpi; [apply calm_spread|]. iIntros (b2 Hb2). iApply wpi_ret. cbn [fst]. by rw Hb2 Hb.
Qed.

Lemma send_to_many_own o abort qp st rs n :
  own_work qp st ⊢ wpi oom (CIRCLE_send_work_to_many o abort qp st rs n) (λ x, own_work x.1 x.2).
Proof.
  iIntros "H". unfold CIRCLE_send_work_to_many. own_step; [iStopProof; apply wpi_stop|]. own_step.
  iApply (wpi_wand with "[]"); [iApply split_own|]. iIntros ([b seed]) "Hb". cbn [fst].
  own_step. own_step. own_step.
  iApply (wpi_wand with "[H]"); [by iApply (send_work_loop_own _ _ _ _ _ _ (set_st_seed seed st))|].
  iIntros ([qp' st']) "H". rw H. own_step. iApply (wpi_free with "[$Hb H]"). by iApply wpi_ret.
Qed.

(** ** Servicing requests and receipts *)

Lemma calm_workreq_loop n rc b :
  quiet no_mem (workreq_loop n rc b) (λ x, addr <$> x.2 = addr <$> b).
Proof.
  revert rc b. induction n as [|n IH]; intros rc b; cbn [workreq_loop]; [done|].
  apply quiet_bind. split; [done|]. intros [[rank ?]|]; [|done].
  apply quiet_bind. split; [done|]. intros ?. cbn [quiet].
  apply quiet_bind, quiet_deref. intros b0 ->. apply quiet_bind, quiet_deref. intros b' Hs.
  apply quiet_bind, quiet_i32. eapply quiet_mono; [|apply IH]. intros x ->. cbn. by rw (store_addr _ _ _ _ Hs).
Qed.

Lemma workreq_check_own o abort qp st cleanup :
  own_work qp st ⊢ wpi oom (CIRCLE_workreq_check o abort qp st cleanup) (λ x, own_work x.1 x.2).
Proof.
  iIntros "H". unfold CIRCLE_workreq_check. own_step. iApply calm_wpi; [apply calm_workreq_loop|].
  iIntros ([rc b] Hb). cbn [snd] in Hb. set (st1 := set_st_requestors b st).
  assert (own_work qp st ⊢ own_work qp st1) as He.
  { unfold own_work, own_state, own_rest. cbn. by rw Hb. }
  iDestruct (He with "H") as "H". clearbody st1. clear He Hb st. own_step; [by iApply wpi_ret|].
  do 5 own_step.
  - iDestruct "H" as "(Hq & Hst & Hs)". own_step.
    iApply (wpi_wand with "[Hs]"); [by iApply no_work_loop_own|]. iIntros (sn) "Hs". iApply wpi_ret. iFrame.
  - by iApply send_to_many_own.
Qed.

Lemma calm_receipts n t : quiet no_mem (workreceipt_loop n t) (λ _, True).
Proof.
  revert t. induction n as [|n IH]; intros t; cbn [workreceipt_loop]; quiet_steps.
Qed.

Lemma receipt_check_own st : own_state st ⊢ wpi oom (CIRCLE_workreceipt_check st) own_state.
Proof.
  iIntros "H". unfold CIRCLE_workreceipt_check. own_step.
  iApply (calm_wpi _ _ (λ _, True)); [apply calm_receipts|]. iIntros (t _). by iApply wpi_ret.
Qed.

(** ** Receiving *)

Definition own_offsets (o : offsets_st) : mProp := opt_blk (addr <$> offsets_recv_buf o).

Lemma extend_offsets_own o n :
  own_offsets o ⊢ wpi oom (CIRCLE_extend_offsets o n) (λ x, own_offsets x.2).
Proof.
  iIntros "H". unfold CIRCLE_extend_offsets. cbn zeta. own_step; [by iApply wpi_ret|]. own_step.
  iApply (calm_wpi _ _ (λ _, True)); [apply calm_grow_str|]. iIntros (c _). own_step.
  iApply (wpi_realloc with "[$H]"). iIntros (p) "H". iApply wpi_ret. unfold own_offsets. cbn. by destruct p.
Qed.

Lemma calm_recv_ints b c src tag : quiet no_mem (recv_ints b c src tag) (λ b', Some (addr b') = addr <$> b).
Proof.
  unfold recv_ints. apply quiet_bind. split; [done|]. intros [l|l|l]; try done. cbn.
  destruct (_ <? _); [done|]. destruct b as [b|]; [|done]. cbn.
  destruct (store_list b 0 l) as [b'|] eqn:Hs; [|done]. cbn. by rw (store_list_addr _ _ _ _ Hs).
Qed.

Lemma calm_recv_chars b c src tag : quiet no_mem (recv_chars b c src tag) (λ b', Some (addr b') = addr <$> b).
Proof.
  unfold recv_chars. apply quiet_bind. split; [done|]. intros [l|l|l]; try done. cbn.
  destruct (_ <? _); [done|]. destruct b as [b|]; [|done]. cbn.
  destruct (store_list b 0 l) as [b'|] eqn:Hs; [|done]. cbn. by rw (store_list_addr _ _ _ _ Hs).
Qed.

Lemma calm_receive_offsets n i o b : quiet no_mem (receive_offsets n i o b) (λ b', addr b' = addr b).
Proof.
  revert i b. induction n as [|n IH]; intros i b; cbn [receive_offsets]; [done|].
  apply quiet_bind, quiet_deref. intros x _. apply quiet_bind, quiet_deref. intros b' Hs.
  eapply quiet_mono; [|apply IH]. intros b2 ->. by apply store_addr in Hs.
Qed.

Lemma receive_items_own qp st o src n :
  own_work qp st ⊢ wpi oom (receive_items qp st o src n) (λ x, own_work x.1.2 x.2).
Proof.
  iIntros "(Hq & Hst & Hs)". unfold receive_items. do 3 own_step. cbn zeta.
  iApply (wpi_wand _ _ (λ x, own_queue x.2) with "[Hq]").
  { own_step; [by iApply extend_own|by iApply wpi_ret]. }
  clear qp. iIntros ([rc qp]) "(Ha & Hb & Hm)". own_step; [iStopProof; apply wpi_stop|]. own_step.
  iApply calm_wpi; [apply calm_recv_chars|]. iIntros (b Hb). cbn [snd]. rw -Hb.
  iAssert (own_queue (with_base (Some b) qp)) with "[$Ha $Hb $Hm]" as "Hq".
  cbn beta. set (qp1 := with_base (Some b) qp). clearbody qp1. clear qp Hb b. cbn zeta. own_step.
  iApply (wpi_wand _ _ (λ x, own_queue x.2) with "[Hq]").
  { own_step; [by iApply str_extend_own|by iApply wpi_ret]. }
  iIntros ([rc2 qp]) "(Ha & Hb & Hm)". cbn [snd]. own_step; [iStopProof; apply wpi_stop|]. do 3 own_step.
  iApply calm_wpi; [apply calm_receive_offsets|]. iIntros (m Hm). rw H0.
  do 3 own_step; [iStopProof; apply wpi_stop|]. do 7 own_step.
  iApply (wpi_isend _ _ _ _ None). iSplitR; [done|]. iIntros (r) "Hr". own_step.
  iApply (wpi_wand with "[Hs Hr]"); [iApply track_own; iFrame|]. iIntros (sn) "Hs".
  iApply wpi_ret. unfold own_work, own_queue, own_state. cbn. rw Hm. iFrame.
Qed.

Lemma work_receive_own abort qp st src size :
  own_work qp st ⊢ wpi oom (CIRCLE_work_receive abort qp st src size) (λ x, own_work x.1.2 x.2).
Proof.
  iIntros "(Hq & Hst & Hs)". unfold CIRCLE_work_receive. own_step; [iStopProof; apply wpi_stop|]. own_step.
  iDestruct "Hst" as "(Ho & Hst)".
  iApply (wpi_wand with "[Ho]"); [by iApply extend_offsets_own|]. iIntros ([rc o]) "Ho". cbn zeta.
  own_step; [iStopProof; apply wpi_stop|]. own_step.
  iApply calm_wpi; [apply calm_recv_ints|]. iIntros (b Hb). unfold own_offsets. cbn [snd]. rw -Hb.
  set (st1 := set_st_offsets (mk_offsets_st (offsets_count o) (Some b)) (set_st_offsets o st)).
  iAssert (own_work qp st1) with "[$Hq $Ho $Hst $Hs]" as "H". clearbody st1. clear Hb o st rc.
  own_step. own_step. own_step; [by iApply wpi_ret|]. own_step; [by iApply wpi_ret|].
  own_step; [by iApply wpi_ret|]. own_step.
  iApply (wpi_wand with "[H]"); [by iApply receive_items_own|]. iIntros ([[rc qp'] st']) "H". by iApply wpi_ret.
Qed.

(** ** Requesting *)

Lemma calm_next_proc fuel size rank seed : quiet no_mem (next_proc_loop fuel size rank seed) (λ _, True).
Proof.
  revert seed. induction fuel as [|fuel IH]; intros seed; cbn [next_proc_loop]; [done|].
  apply quiet_bind. split; [done|]. intros [v s]. cbn. destruct (_ =? _); [apply IH|done].
Qed.

Lemma next_proc_own fuel st : own_state st ⊢ wpi oom (CIRCLE_get_next_proc fuel st) own_state.
Proof.
  iIntros "H". unfold CIRCLE_get_next_proc. own_step; [|by iApply wpi_ret]. own_step.
  iApply (calm_wpi _ _ (λ _, True)); [apply calm_next_proc|]. iIntros ([next seed] _). by iApply wpi_ret.
Qed.

Lemma request_slot_own rq :
  opt_req (work_request_req rq) ⊢
  wpi oom (test_request_slot rq) (λ x, opt_req (work_request_req x.2)).
Proof.
  iIntros "H". unfold test_request_slot. destruct (work_request_req rq) as [r|] eqn:Hr.
  - own_step. iApply (wpi_MPI_Test with "[$H]"). iIntros (f r') "H". by iApply wpi_ret.
  - iApply wpi_ret. cbn. by rw Hr.
Qed.

Lemma request_work_own fuel abort qp st cleanup :
  own_work qp st ⊢ wpi oom (CIRCLE_request_work fuel abort qp st cleanup) (λ x, own_work x.1.2 x.2).
Proof.
  iIntros "(Hq & (Ho & Hr & Ht & Ha & Hw & Htk) & Hs)". unfold CIRCLE_request_work. own_step.
  iApply (wpi_wand with "[Hw]"); [by iApply request_slot_own|]. iIntros ([free rq]) "Hw". cbn [snd].
  set (st1 := set_st_request rq st). cbn zeta.
  iAssert (own_work qp st1) with "[$Hq $Ho $Hr $Ht $Ha $Hw $Htk $Hs]" as "H".
  change rq with (st_request st1). clearbody st1. clear st rq. own_step.
  - own_step. own_step. own_step; [|by iApply wpi_ret]. own_step. own_step.
    iApply (wpi_wand with "[H]"); [by iApply work_receive_own|]. iIntros ([[[rc ab] qp'] st']) "H". by iApply wpi_ret.
  - own_step; [|by iApply wpi_ret]. own_step; [by iApply wpi_ret|]. own_step.
    iApply (wpi_isend _ _ _ _ None). iSplitR; [done|]. iIntros (r) "Hreq".
    iDestruct "H" as "(Hq & (Ho & Hr & Ht & Ha & Hw & Htk) & Hs)". iApply (wpi_forget with "[$Hw Hq Ho Hr Ht Ha Htk Hs Hreq]").
    own_step.
    iApply (wpi_wand with "[Ho Hr Ht Ha Htk Hs Hreq]"); [iApply next_proc_own; iFrame|].
    iIntros (st') "H". iApply wpi_ret. iFrame.
Qed.
End transfer.
