(* ===== verification/OwnWorker.v ===== *)
(** * Ownership in the token, the abort, the reductions and the worker *)
From iris.proofmode Require Import proofmode.
From S2P Require Import Prelude CMonad Mem Heap Queue Stdio Checkpoint Wire Tree Split State Mpi Sends Transfer Barrier Term Abort Token Proc Api Reduce Network Quiet Worker Own OwnSends OwnQueue OwnTransfer.
From Stdlib Require Import Floats.SpecFloat.

(** ** Arrays of requests *)

(** Reading a range of a map takes its cells out; writing puts others in. *)
Lemma cells_range {A} (Φ : A → mProp) m off n l :
  read_cells m off n = Some l →
  ([∗ map] x ∈ m, Φ x) ⊢ ([∗ list] x ∈ l, Φ x) ∗
    (∀ l', ⌜length l' = length l⌝ → ([∗ list] x ∈ l', Φ x) -∗ [∗ map] x ∈ blit m off l', Φ x).
Proof.
  revert m off l. induction n as [|n IH]; intros m off l; cbn [read_cells].
  - intros [= <-]. iIntros "H". iSplitR; [done|]. iIntros (l' ->%nil_length_inv) "_". done.
  - destruct (m !! off) as [x|] eqn:Hx; [|done].
    destruct (read_cells m (off + 1) n) as [l1|] eqn:Hr; [|done]. intros [= <-].
    rw (big_sepM_delete _ _ off x) //. iIntros "[Hx H]".
    iDestruct (IH (delete off m) (off + 1) l1 with "H") as "[Hl Hw]".
    { rw -Hr. apply read_cells_ext. intros i Hi. by rw lookup_delete_ne; [|lia]. }
    iFrame. iIntros ([|x' l'] [= Hl']) "[Hx Hl]". iDestruct ("Hw" $! l' Hl' with "Hl") as "H". cbn [blit].
    assert (blit (delete off m) (off + 1) l' = delete off (blit m (off + 1) l')) as ->.
    { apply map_eq. intros i. destruct (decide (i = off)) as [->|Hne].
      - rw lookup_delete_eq blit_lookup decide_False; [by rw lookup_delete_eq|lia].
      - rw lookup_delete_ne // !blit_lookup lookup_delete_ne //. }
    rw -(insert_delete_eq (blit m (off + 1) l')) big_sepM_insert; [iFrame|by rw lookup_delete_eq].
Qed.

Lemma blit_same {A} (m : gmap Z A) off n l : read_cells m off n = Some l → blit m off l = m.
Proof.
  intros Hr. apply map_eq. intros i. rw blit_lookup. case_decide as Hi; [|done].
  pose proof (read_cells_length _ _ _ _ Hr). rw -(read_cells_lookup m off n l (Z.to_nat (i - off))) //; [f_equal|]; lia.
Qed.

Section worker.
Context (oom : bool).

(** A request is stored; the one it replaces is lost. *)
Lemma store_request (b b' : block request) k x :
  store b k x = Some b' →
  own_requests (Some b) ∗ opt_req x ⊢ ∃ old, opt_req old ∗ own_requests (Some b').
Proof.
  intros Hs. unfold store, store_list in Hs. destruct (in_block _ _ _); [|done]. injection Hs as <-. cbn.
  iIntros "([Ha Hc] & Hx)". destruct (cells b !! k) as [old|] eqn:Hk; [iExists old|iExists None].
  - iDestruct (big_sepM_insert_acc with "Hc") as "[$ Hc]"; [done|]. iFrame. by iApply "Hc".
  - rw big_sepM_insert //. iFrame.
Qed.

(** MPI_Testall completes all requests or none. *)
Lemma drop_all_own rs g h hf :
  owned_by ([∗ list] r ∈ rs, opt_req r)%I h → h ##ₘ hf → tidied oom g (h ∪ hf) →
  pending_all g rs ∧ tidied oom (drop_all rs g) hf.
Proof.
  revert g h. induction rs as [|r rs IH]; intros g h Hh Hd Hg.
  - rw Hh left_id_L in Hg. split; [|done]. intros r Hr. by apply not_elem_of_nil in Hr.
  - destruct Hh as (h1 & h2 & -> & Hd12 & H1 & H2).
    apply map_disjoint_union_l in Hd as [Hd1 Hd2]. rw -(assoc_L (∪)) in Hg.
    destruct r as [r|]; cbn [drop_all].
    + assert (tidied oom (drop_request r g) (h2 ∪ hf)) as Hg1.
      { apply (complete_bare oom g h1); [done|by apply map_disjoint_union_r|done]. }
      destruct (IH _ h2 H2 Hd2 Hg1) as [Hp Hg2]. split; [|done].
      intros r' [[= ->]|Hr']%elem_of_cons.
      * exists None. apply (td_request _ _ _ Hg). rw H1 -insert_union_singleton_l. apply lookup_insert_eq.
      * destruct (Hp r' Hr') as [b Hb]. cbn in Hb. apply lookup_delete_Some in Hb as [_ Hb]. by exists b.
    + rw H1 left_id_L in Hg. destruct (IH _ h2 H2 Hd2 Hg) as [Hp Hg2]. split; [|done].
      intros r' [?|Hr']%elem_of_cons; [done|by apply Hp].
Qed.

Lemma wpi_testall rs (Φ : bool → mProp) :
  ([∗ list] r ∈ rs, opt_req r) ∗ (∀ f : bool, (if f then emp else [∗ list] r ∈ rs, opt_req r) -∗ Φ f) ⊢
  wpi oom (call (OTestall rs)) Φ.
Proof.
  apply (wpi_call oom (OTestall rs) ([∗ list] r ∈ rs, opt_req r)%I
    (λ f : bool, if f then emp else [∗ list] r ∈ rs, opt_req r)%I).
  intros g h hf Hh Hd Hg. destruct (drop_all_own rs g h hf Hh Hd Hg) as [Hp Hg'].
  split; [done|]. intros [] g' ->; [exists ∅|exists h]; [|done].
  rw left_id_L. split; [done|]. split; [apply map_disjoint_empty_l|done].
Qed.

Lemma testall_own n reqs :
  own_requests reqs ⊢ wpi oom (MPI_Testall n reqs) (λ x, own_requests x.2).
Proof.
  iIntros "H". unfold MPI_Testall. do 2 own_step. own_step. iApply wpi_deref. iIntros (rs Hrs).
  rw H. unfold load_list in Hrs. destruct (in_block _ _ _); [|done].
  iDestruct "H" as "[Ha Hc]". iDestruct (cells_range _ _ _ _ _ Hrs with "Hc") as "[Hl Hc]".
  own_step. iApply (wpi_testall with "[$Hl Ha Hc]"). iIntros (f) "Hl". destruct f.
  - own_step. iApply wpi_deref. iIntros (b' Hb'). unfold store_list in Hb'. destruct (in_block _ _ _); [|done].
    injection Hb' as <-. iApply wpi_ret. cbn. iFrame. iApply ("Hc" with "[%] [Hl]"); [by rw length_map|].
    clear Hrs. iStopProof. induction rs as [|r rs IH]; cbn; [done|]. by rw left_id.
  - iApply wpi_ret. cbn. iFrame. rw -{2}(blit_same _ _ _ _ Hrs). by iApply ("Hc" with "[%]").
Qed.

(** ** The abort broadcast *)

Lemma abort_post_own peer k reqs :
  own_requests reqs ⊢ wpi oom (abort_post peer k reqs) own_requests.
Proof.
  iIntros "H". unfold abort_post. own_step. iApply wpi_irecv. iIntros (r) "Hr". own_step. own_step. rw H.
  own_step. iApply wpi_deref. iIntros (b' Hb).
  iDestruct (store_request _ _ _ _ Hb with "[$H $Hr]") as (old) "[Ho H]".
  iApply (wpi_forget with "[$Ho H]"). own_step. iApply (wpi_isend _ _ _ _ None). iSplitR; [done|].
  iIntros (r') "Hr". own_step. iApply wpi_deref. iIntros (b2 Hb2).
  iDestruct (store_request _ _ _ (Some r') Hb2 with "[$H $Hr]") as (old2) "[Ho H]".
  iApply (wpi_forget with "[$Ho H]"). by iApply wpi_ret.
Qed.

Lemma abort_post_children_own n i k t reqs :
  own_requests reqs ⊢ wpi oom (abort_post_children n i k t reqs) (λ x, own_requests x.2).
Proof.
  revert i k reqs. induction n as [|n IH]; intros i k reqs; cbn [abort_post_children].
  { iIntros "H". by iApply wpi_ret. }
  iIntros "H". own_step. unfold child. do 3 own_step. own_step.
  iApply (wpi_wand with "[H]"); [by iApply abort_post_own|]. iIntros (r) "H". by iApply IH.
Qed.

Lemma abort_start_own t a cleanup : own_abort a ⊢ wpi oom (CIRCLE_abort_start t a cleanup) own_abort.
Proof.
  iIntros "H". unfold CIRCLE_abort_start. own_step; [by iApply wpi_ret|]. own_step; [by iApply wpi_ret|].
  own_step. iApply (wpi_wand _ _ (λ x, own_requests x.2) with "[H]").
  { own_step; [|by iApply wpi_ret]. own_step.
    iApply (wpi_wand with "[H]"); [by iApply abort_post_own|]. iIntros (r) "H". by iApply wpi_ret. }
  iIntros ([k reqs]) "H". own_step.
  iApply (wpi_wand with "[H]"); [by iApply abort_post_children_own|]. iIntros ([k' r']) "H".
  iApply wpi_ret. cbn zeta. by destruct (0 <? k').
Qed.

Lemma abort_check_own abort t a cleanup :
  own_abort a ⊢ wpi oom (CIRCLE_abort_check abort t a cleanup) (λ x, own_abort x.2).
Proof.
  iIntros "H". unfold CIRCLE_abort_check. own_step. iApply (wpi_wand _ _ (λ x, own_abort x.2) with "[H]").
  { own_step; [|by iApply wpi_ret]. own_step.
    iApply (wpi_wand with "[H]"); [by iApply abort_start_own|]. iIntros (a') "H". by iApply wpi_ret. }
  clear a. iIntros ([ab a]) "H". own_step. own_step. own_step.
  iApply (wpi_wand _ _ (λ x, own_abort x.2) with "[H]").
  { own_step; [|by iApply wpi_ret]. own_step. do 4 own_step. own_step.
    iApply (wpi_wand with "[H]"); [by iApply abort_start_own|]. iIntros (a') "H". by iApply wpi_ret. }
  clear ab a. iIntros ([ab a]) "H". own_step; [|by iApply wpi_ret]. own_step.
  iApply (wpi_wand with "[H]"); [by iApply testall_own|]. iIntros ([f reqs]) "H". iApply wpi_ret. by destruct f.
Qed.

(** ** The token *)

Definition own_token (tk : token_st) : mProp := opt_req (token_send_req tk).

Lemma issend_own abort tk : own_token tk ⊢ wpi oom (CIRCLE_token_issend abort tk) own_token.
Proof.
  iIntros "H". unfold CIRCLE_token_issend. own_step; [by iApply wpi_ret|]. iApply (wpi_forget with "[$H]").
  own_step. iApply wpi_issend. iIntros (r) "H". by iApply wpi_ret.
Qed.

Lemma token_recv_own abort rank size tk :
  own_token tk ⊢ wpi oom (CIRCLE_token_recv abort rank size tk) own_token.
Proof.
  iIntros "H". unfold CIRCLE_token_recv. own_step. iApply (calm_wpi _ _ (λ _, True)).
  { unfold recv_int. quiet_steps. }
  iIntros (token _). own_step.
  iApply (wpi_wand _ _ (λ tk', own_token tk') with "[H]").
  { unfold wait_token. unfold own_token. cbn [set_token_is_local token_send_req].
    destruct (token_send_req tk) as [r|] eqn:Hr; [|iApply wpi_ret; cbn; by rw Hr].
    own_step. iApply (wpi_wait with "[$H]"). by iApply wpi_ret. }
  clear tk. iIntros (tk) "H". cbn zeta.
  assert (∀ b : bool, own_token (if b then set_token_proc WHITE (set_token_buf token tk) else set_token_buf token tk)
          = own_token tk) as He by (by intros []).
  specialize (He ((token_proc (set_token_buf token tk) =? BLACK) && (token =? BLACK))).
  iEval (rw -He) in "H". set (tk1 := if _ : bool then set_token_proc WHITE _ else _). clearbody tk1. clear He.
  own_step; [|by iApply wpi_ret]. do 2 own_step. own_step.
  iApply (wpi_wand _ _ own_token with "[H]").
  { own_step; [by iApply issend_own|by iApply wpi_ret]. }
  iIntros (tk2) "H". by iApply wpi_ret.
Qed.

Lemma token_check_own abort rank size tk :
  own_token tk ⊢ wpi oom (CIRCLE_token_check abort rank size tk) own_token.
Proof.
  iIntros "H". unfold CIRCLE_token_check. own_step. own_step.
  own_step; [by iApply token_recv_own|by iApply wpi_ret].
Qed.

Lemma check_for_term_own abort rank size tk :
  own_token tk ⊢ wpi oom (CIRCLE_check_for_term abort rank size tk) (λ x, own_token x.2).
Proof.
  iIntros "H". unfold CIRCLE_check_for_term. own_step; [by iApply wpi_ret|]. own_step.
  iApply (wpi_wand _ _ own_token with "[H]"); [|iIntros (tk') "H"; by iApply wpi_ret].
  own_step; [|by iApply token_check_own]. own_step.
  iApply (wpi_wand _ _ own_token with "[H]"); [|iIntros (tk') "H"; by iApply wpi_ret].
  iApply issend_own. destruct (rank =? 0); [done|]. by destruct (token_proc tk =? BLACK).
Qed.

Lemma test_token_own tk : own_token tk ⊢ wpi oom (test_token tk) own_token.
Proof.
  unfold test_token, own_token. iIntros "H". destruct (token_send_req tk) as [r|] eqn:Hr.
  - own_step. iApply (wpi_MPI_Test with "[$H]"). iIntros (f r') "H". by iApply wpi_ret.
  - iApply wpi_ret. by rw Hr.
Qed.

(** ** Messages on the tree *)

Lemma calm_send_children n i tag p t : quiet no_mem (send_children n i tag p t) (λ _, True).
Proof. revert i. induction n as [|n IH]; intros i; cbn [send_children]; unfold child; quiet_steps. Qed.

Lemma calm_barrier t b : quiet no_mem (CIRCLE_barrier_test t b) (λ _, True).
Proof.
  unfold CIRCLE_barrier_test, barrier_recv_child, barrier_send_up, barrier_complete. quiet_steps.
  all: eapply quiet_mono, calm_send_children; done.
Qed.

Lemma calm_term_recv n t s : quiet no_mem (term_recv_children n t s) (λ _, True).
Proof.
  revert s. induction n as [|n IH]; intros s; cbn [term_recv_children]; unfold recv_int; quiet_steps.
Qed.

Lemma calm_term t s : quiet no_mem (CIRCLE_check_for_term_allreduce t s) (λ _, True).
Proof.
  unfold CIRCLE_check_for_term_allreduce. eapply quiet_seq; [apply calm_term_recv|]. intros s' _.
  unfold term_send_up, term_complete, recv_int. quiet_steps.
  all: eapply quiet_mono, calm_send_children; done.
Qed.

Lemma calm_abort_reduce abort t a :
  quiet no_mem (CIRCLE_abort_reduce abort t a) (λ x, abort_req x.2 = abort_req a).
Proof.
  unfold CIRCLE_abort_reduce. eapply (quiet_seq _ _ _ _ (λ _, True)).
  { generalize (Z.to_nat (children t)) 0 abort. intros n.
    induction n as [|n IH]; intros i flag; cbn [abort_reduce_recv]; unfold recv_int, child; quiet_steps. }
  intros flag _. eapply (quiet_seq _ _ _ _ (λ _, True)); [unfold recv_int; quiet_steps|]. intros flag' _.
  eapply quiet_seq; [apply calm_send_children|]. by intros.
Qed.

(** ** Reductions *)

Lemma recv_user_data_own src n : ⊢ wpi oom (recv_user_data src n) (λ b, opt_blk (addr <$> b)).
Proof.
  iStartProof. unfold recv_user_data. own_step; [|by iApply wpi_ret]. own_step. iApply wpi_malloc.
  iIntros (p) "Hp". own_step. own_step. own_step; [|iStopProof; apply wpi_stop..].
  own_step; [iStopProof; apply wpi_stop|]. own_step. own_step. own_step. own_step. iApply wpi_ret.
  cbn. by rw H (store_list_addr _ _ _ _ H0).
Qed.

Lemma reduce_init_own fuel g : own_globals g ⊢ wpi oom (call_reduce_init fuel g) own_globals.
Proof. unfold call_reduce_init. iIntros "H". own_step; [by iApply user_own|by iApply wpi_ret]. Qed.

Lemma reduce_op_own fuel b n g : own_globals g ⊢ wpi oom (call_reduce_op fuel b n g) own_globals.
Proof. unfold call_reduce_op. iIntros "H". own_step; [by iApply user_own|by iApply wpi_ret]. Qed.

Lemma reduce_fini_own fuel g : own_globals g ⊢ wpi oom (call_reduce_fini fuel g) own_globals.
Proof. unfold call_reduce_fini. iIntros "H". own_step; [by iApply user_own|by iApply wpi_ret]. Qed.

Lemma calm_recv_longs src tag : quiet no_mem (recv_longs src tag) (λ _, True).
Proof. unfold recv_longs. quiet_steps. Qed.

Lemma calm_i64 z : quiet no_mem (i64 z) (λ _, True).
Proof. unfold i64. quiet_steps. Qed.

Lemma calm_send_user_data dst n g : quiet no_mem (send_user_data dst n g) (λ _, True).
Proof. unfold send_user_data. quiet_steps. Qed.

(** Data of a child, while the callback sees it. *)
Lemma use_data_own {A} fuel (c n : Z) g (t : option (block byte) → globals → prog A) (use : bool) (Φ : A → mProp) :
  own_globals g ∗ (∀ b g', own_globals g' -∗ wpi oom (t b g') Φ) ⊢
  wpi oom (inbuf ← recv_user_data c n;
           g ← (if use then call_reduce_op fuel inbuf n g else mret g);
           _ ← CIRCLE_free (addr <$> inbuf);
           t inbuf g) Φ.
Proof.
  iIntros "[H Ht]". own_step. iApply (wpi_wand with "[]"); [iApply recv_user_data_own|]. iIntros (b) "Hb". own_step.
  iApply (wpi_wand _ _ own_globals with "[H]").
  { own_step; [by iApply reduce_op_own|by iApply wpi_ret]. }
  iIntros (g') "H". own_step. iApply (wpi_CIRCLE_free with "[$Hb H Ht]"). by iApply "Ht".
Qed.

Lemma reduce_child_own fuel c r g :
  own_globals g ⊢ wpi oom (reduce_child_msg fuel c r g) (λ x, own_globals x.2).
Proof.
  iIntros "H". unfold reduce_child_msg. own_step.
  iApply (calm_wpi _ _ (λ _, True)); [apply calm_recv_longs|]. iIntros ([[v0 v1] v2] _). own_step. own_step.
  own_step; [by iApply wpi_ret|]. own_step.
  iApply (calm_wpi _ _ (λ _, True)); [apply calm_i64|]. iIntros (total _). cbn zeta.
  iApply (use_data_own with "[$H]"). iIntros (b g') "H". by iApply wpi_ret.
Qed.

Lemma reduce_children_own fuel n i t r g :
  own_globals g ⊢ wpi oom (reduce_children fuel n i t r g) (λ x, own_globals x.2).
Proof.
  revert i r g. induction n as [|n IH]; intros i r g; iIntros "H"; cbn [reduce_children]; [by iApply wpi_ret|].
  own_step. unfold child. do 3 own_step. own_step. own_step. own_step.
  iApply (wpi_wand _ _ (λ x, own_globals x.2) with "[H]").
  { own_step; [by iApply reduce_child_own|by iApply wpi_ret]. }
  iIntros ([r' g']) "H". by iApply IH.
Qed.

Lemma reduce_finish_own fuel t c r g :
  own_globals g ⊢ wpi oom (reduce_finish fuel t c r g) (λ x, own_globals x.2).
Proof.
  iIntros "H". unfold reduce_finish. own_step.
  iApply (calm_wpi _ _ (λ _, True)); [apply calm_i64|]. iIntros (total _). cbn zeta. own_step.
  - own_step. unfold send_longs. own_step. own_step.
    iApply (calm_wpi _ _ (λ _, True)).
    { case_match; [eapply quiet_mono, calm_send_user_data; done|done]. }
    iIntros (u _). by iApply wpi_ret.
  - own_step. iApply (wpi_wand _ _ own_globals with "[H]").
    { own_step; [by iApply reduce_fini_own|by iApply wpi_ret]. }
    iIntros (g') "H". by iApply wpi_ret.
Qed.

Lemma calm_reduce_due t r cleanup now : quiet no_mem (reduce_due t r cleanup now) (λ _, True).
Proof. unfold reduce_due. quiet_steps. Qed.

Lemma reduce_check_own fuel t c cleanup r g :
  own_globals g ⊢ wpi oom (CIRCLE_reduce_check fuel t c cleanup r g) (λ x, own_globals x.2).
Proof.
  iIntros "H". unfold CIRCLE_reduce_check. own_step.
  - own_step. iApply (wpi_wand with "[H]"); [by iApply reduce_children_own|]. iIntros ([r' g']) "H".
    own_step; [by iApply reduce_finish_own|by iApply wpi_ret].
  - own_step. own_step. own_step. iApply (calm_wpi _ _ (λ _, True)); [apply calm_reduce_due|]. iIntros (start _).
    own_step; [own_step; [|by iApply wpi_ret]|own_step; [|by iApply wpi_ret]].
    + unfold send_longs. own_step. own_step. by iApply wpi_ret.
    + unfold reduce_start. own_step. iApply (wpi_wand with "[H]"); [by iApply reduce_init_own|].
      iIntros (g') "H". own_step. iApply (calm_wpi _ _ (λ _, True)); [apply calm_send_children|].
      iIntros (u _). by iApply wpi_ret.
Qed.

Lemma sync_children_own fuel n i t r g :
  own_globals g ⊢ wpi oom (reduce_sync_children fuel n i t r g) (λ x, own_globals x.2).
Proof.
  revert i r g. induction n as [|n IH]; intros i r g; iIntros "H"; cbn [reduce_sync_children]; [by iApply wpi_ret|].
  own_step. unfold child. do 3 own_step. own_step.
  iApply (calm_wpi _ _ (λ _, True)); [apply calm_recv_longs|]. iIntros ([[v0 v1] v2] _). own_step.
  iApply (calm_wpi _ _ (λ _, True)); [apply calm_i64|]. iIntros (total _).
  iApply (use_data_own fuel _ _ _ _ true with "[$H]"). iIntros (b g') "H". by iApply IH.
Qed.

Lemma reduce_sync_own fuel t c r g :
  own_globals g ⊢ wpi oom (CIRCLE_reduce_sync fuel t c r g) (λ x, own_globals x.2).
Proof.
  iIntros "H". unfold CIRCLE_reduce_sync. own_step.
  iApply (wpi_wand with "[H]"); [by iApply reduce_init_own|]. iIntros (g') "H". own_step.
  iApply (wpi_wand with "[H]"); [by iApply sync_children_own|]. iIntros ([r' g2]) "H". own_step.
  - own_step. unfold send_longs. own_step. own_step. iApply (calm_wpi _ _ (λ _, True)).
    { case_match; [eapply quiet_mono, calm_send_user_data; done|done]. }
    iIntros (u _). by iApply wpi_ret.
  - own_step. iApply (wpi_wand with "[H]"); [by iApply reduce_fini_own|]. iIntros (g3) "H". by iApply wpi_ret.
Qed.

(** ** The parts of a round *)

Definition own_all (g : globals) (st : CIRCLE_state_st) : mProp := (own_globals g ∗ own_state st)%I.

(** The queue is taken out of the globals and put back. *)
Lemma borrow_queue {A} g st (t : CIRCLE_internal_queue_t → prog A) (Φ : A → mProp) :
  own_all g st ∗
  (∀ q, own_work q st ∗ (∀ q' st', own_work q' st' -∗ own_all (put_queue q' g) st') -∗ wpi oom (t q) Φ) ⊢
  wpi oom (q ← the_queue g; t q) Φ.
Proof.
  iIntros "[[[Hq Hr] Hst] H]". iApply the_queue_own. iIntros (q Hq). rw Hq.
  iApply "H". iFrame. iIntros (q' st') "[Hq Hst]". iFrame.
Qed.

Lemma serve_own cleanup g st :
  own_all g st ⊢ wpi oom (serve_requests cleanup g st) (λ x, own_all x.1 x.2).
Proof.
  iIntros "H". iApply (borrow_queue with "[$H]"). iIntros (q) "[H Hback]". own_step.
  iApply (wpi_wand with "[H]"); [by iApply workreq_check_own|]. iIntros ([q' st']) "H".
  iApply wpi_ret. by iApply "Hback".
Qed.

Lemma request_own fuel cleanup g st :
  own_all g st ⊢ wpi oom (request_work fuel cleanup g st) (λ x, own_all x.1 x.2).
Proof.
  iIntros "H". iApply (borrow_queue with "[$H]"). iIntros (q) "[H Hback]". own_step.
  iApply (wpi_wand with "[H]"); [by iApply request_work_own|]. iIntros ([[[rc ab] q'] st']) "H".
  iApply wpi_ret. iDestruct ("Hback" with "H") as "[Hg Hst]". iFrame.
Qed.

Lemma reap_own st : own_state st ⊢ wpi oom (reap_sends st) own_state.
Proof.
  iIntros "[Hst Hs]". unfold reap_sends. own_step.
  iApply (wpi_wand with "[Hs]"); [by iApply check_own|]. iIntros (sn) "Hs". iApply wpi_ret. iFrame.
Qed.

Lemma check_abort_own cleanup g st :
  own_all g st ⊢ wpi oom (check_abort cleanup g st) (λ x, own_all x.1 x.2).
Proof.
  iIntros "(Hg & (Ho & Hr & Ht & Ha & Hw) & Hs)". unfold check_abort. own_step.
  iApply (wpi_wand with "[Ha]"); [by iApply abort_check_own|]. iIntros ([ab a]) "Ha". iApply wpi_ret.
  iFrame.
Qed.

Lemma check_reduce_own fuel cleanup g st :
  own_all g st ⊢ wpi oom (check_reduce fuel cleanup g st) (λ x, own_all x.1 x.2).
Proof.
  iIntros "[Hg Hst]". unfold check_reduce. own_step; [|iApply wpi_ret; iFrame]. own_step.
  iApply (wpi_wand with "[Hg]"); [by iApply reduce_check_own|]. iIntros ([r g']) "Hg". iApply wpi_ret. iFrame.
Qed.

Lemma termination_own g st :
  own_state st ⊢ wpi oom (check_termination g st) (λ x, own_state x.2).
Proof.
  iIntros "H". unfold check_termination. own_step.
  - own_step. iApply (calm_wpi _ _ (λ _, True)); [apply calm_term|]. iIntros ([status s] _). by iApply wpi_ret.
  - iDestruct "H" as "[(Ho & Hr & Ht & Ha & Hw & Htk) Hs]". own_step.
    iApply (wpi_wand with "[Htk]"); [by iApply check_for_term_own|]. iIntros ([status tk]) "Htk".
    iApply wpi_ret. iFrame.
Qed.

(** ** The loops *)

Lemma work_round_own fuel g st :
  own_all g st ⊢ wpi oom (work_round fuel g st) (λ x, own_all x.1.2 x.2).
Proof.
  iIntros "H". unfold work_round. own_step.
  iApply (wpi_wand with "[H]"); [by iApply serve_own|]. clear g st. iIntros ([g st]) "[Hg Hst]". own_step.
  iApply (wpi_wand with "[Hst]"); [by iApply receipt_check_own|]. clear st. iIntros (st) "Hst". own_step.
  iApply (wpi_wand with "[Hst]"); [by iApply reap_own|]. clear st. iIntros (st) "Hst". own_step.
  iApply (wpi_wand with "[Hg Hst]"); [iApply check_abort_own; iFrame|]. clear g st. iIntros ([g st]) "H". own_step.
  iApply (wpi_wand with "[H]"); [by iApply check_reduce_own|]. clear g st. iIntros ([g st]) "H".
  cbn beta iota. iApply the_queue_own. iIntros (q _). own_step.
  iApply (wpi_wand _ _ (λ x, own_all x.1 x.2) with "[H]").
  { own_step; [by iApply request_own|by iApply wpi_ret]. }
  clear g st q. iIntros ([g st]) "[Hg Hst]". cbn beta iota. iApply the_queue_own. iIntros (q _).
  own_step; own_step.
  - iApply (wpi_wand with "[Hg]"); [by iApply call_cb_own|]. iIntros (g') "Hg". own_steps. iFrame.
  - iApply (wpi_wand with "[Hst]"); [by iApply termination_own|]. iIntros ([status st']) "Hst". iApply wpi_ret. iFrame.
Qed.

Lemma work_rounds_own n fuel g st :
  own_all g st ⊢ wpi oom (work_rounds n fuel g st) (λ x, own_all x.1 x.2).
Proof.
  revert g st. induction n as [|n IH]; intros g st; cbn [work_rounds]; [apply wpi_stop|].
  iIntros "H". own_step. iApply (wpi_wand with "[H]"); [by iApply work_round_own|].
  iIntros ([[s g'] st']) "H". own_step; [by iApply wpi_ret|by iApply IH].
Qed.

Lemma cleanup_round_own fuel g st :
  own_all g st ⊢ wpi oom (cleanup_round fuel g st) (λ x, own_all x.1.2 x.2).
Proof.
  iIntros "H". unfold cleanup_round. cbn zeta.
  set (st1 := if drained st then upd_barrier CIRCLE_barrier_start st else st).
  assert (own_all g st ⊢ own_all g st1) as He by (subst st1; by case_match).
  iDestruct (He with "H") as "[Hg Hst]". clearbody st1. clear He st. own_step.
  iApply (calm_wpi _ _ (λ _, True)); [apply calm_barrier|]. iIntros ([fin b] _). cbn zeta.
  iAssert (own_all g (set_st_barrier b st1)) with "[$Hg $Hst]" as "H".
  set (st := set_st_barrier b st1). clearbody st. clear st1.
  own_step; [by iApply wpi_ret|]. own_step.
  iApply (wpi_wand with "[H]"); [by iApply serve_own|]. clear g st. iIntros ([g st]) "[Hg Hst]". own_step.
  iApply (wpi_wand with "[Hst]"); [by iApply reap_own|]. clear st. iIntros (st) "Hst". own_step.
  iApply (wpi_wand with "[Hg Hst]"); [iApply check_reduce_own; iFrame|]. clear g st. iIntros ([g st]) "H". own_step.
  iApply (wpi_wand with "[H]"); [by iApply request_own|]. clear g st. iIntros ([g st]) "H". own_step.
  iApply (wpi_wand with "[H]"); [by iApply check_abort_own|]. clear g st.
  iIntros ([g st]) "(Hg & (Ho & Hr & Ht & Ha & Hw & Htk) & Hs)".
  own_step; [|iApply wpi_ret; iFrame]. own_step.
  iApply (wpi_wand with "[Htk]"); [by iApply token_check_own|]. iIntros (tk) "Htk". own_step.
  iApply (wpi_wand with "[Htk]"); [by iApply test_token_own|]. clear tk. iIntros (tk) "Htk". iApply wpi_ret. iFrame.
Qed.

Lemma cleanup_rounds_own n fuel g st :
  own_all g st ⊢ wpi oom (cleanup_rounds n fuel g st) (λ x, own_all x.1 x.2).
Proof.
  revert g st. induction n as [|n IH]; intros g st; cbn [cleanup_rounds]; [apply wpi_stop|].
  iIntros "H". own_step. iApply (wpi_wand with "[H]"); [by iApply cleanup_round_own|].
  iIntros ([[s g'] st']) "H". own_step; [by iApply wpi_ret|by iApply IH].
Qed.

(** Nothing is left of the sends but their arrays. *)
Definition own_done (g : globals) (st : CIRCLE_state_st) : mProp :=
  (own_globals g ∗ own_rest st ∗ arrays (st_send st))%I.

Lemma finish_sync_own fuel g st :
  own_all g st ⊢ wpi oom (finish_sync fuel g st) (λ x, own_done x.1 x.2).
Proof.
  iIntros "(Hg & (Ho & Hr & Ht & Ha & Hw & Htk) & Hs)". unfold finish_sync. own_step.
  iApply (wpi_wand with "[Hs Hw]"); [iApply wait_own; iFrame|]. iIntros ([req sn]) "[%Hreq Hs]".
  cbn [fst snd] in Hreq. subst req. own_step. iApply (wpi_wand _ _ (λ x, own_globals x.2) with "[Hg]").
  { own_step; [by iApply reduce_sync_own|by iApply wpi_ret]. }
  iIntros ([r g']) "Hg". own_step. iApply calm_wpi; [apply calm_abort_reduce|]. iIntros ([ab a] Ha).
  cbn [snd] in Ha. iApply wpi_ret. unfold own_done, own_rest, own_abort. cbn. rw Ha. iFrame.
Qed.

(** ** Starting and ending *)

Lemma calm_init_token rank size tk :
  quiet no_mem (init_token rank size tk) (λ tk', token_send_req tk' = None).
Proof. unfold init_token. quiet_steps. Qed.

Lemma calm_get_next_proc fuel st :
  quiet no_mem (CIRCLE_get_next_proc fuel st)
    (λ st', ∃ next seed, st' = set_st_next_processor next (set_st_seed seed st)).
Proof.
  unfold CIRCLE_get_next_proc. destruct (1 <? _).
  - eapply quiet_seq; [apply calm_next_proc|]. intros [next seed] _. by exists next, seed.
  - exists MPI_PROC_NULL, (st_seed st). by destruct st.
Qed.

Lemma init_offsets_own n : ⊢ wpi oom (init_offsets n) own_offsets.
Proof.
  iStartProof. unfold init_offsets. own_step. iApply wpi_malloc. iIntros (p) "Hp". iApply wpi_ret.
  unfold own_offsets. cbn. by destruct p.
Qed.

Lemma null_requests_own n i b : own_requests b ⊢ wpi oom (null_requests n i b) own_requests.
Proof.
  revert i b. induction n as [|n IH]; intros i b; iIntros "H"; cbn [null_requests]; [by iApply wpi_ret|].
  do 2 own_step. rw H. own_step. iApply wpi_deref. iIntros (b' Hb).
  iDestruct (store_request _ _ _ None Hb with "[$H]") as (old) "[Ho H]".
  iApply (wpi_forget with "[$Ho H]"). by iApply IH.
Qed.

Lemma init_abort_own t : ⊢ wpi oom (init_abort t) own_abort.
Proof.
  iStartProof. unfold init_abort. own_step. iApply (calm_wpi _ _ (λ _, True)); [quiet_steps|]. iIntros (n _).
  do 2 own_step. own_step. iApply wpi_malloc. iIntros (p) "Hp". own_step.
  iApply (wpi_wand with "[Hp]"); [iApply null_requests_own|iIntros (reqs) "H"; by iApply wpi_ret].
  destruct p as [p|]; [|done]. cbn. iFrame. by rw big_sepM_empty.
Qed.

Lemma init_own fuel g st :
  own_globals g ⊢ wpi oom (CIRCLE_init_local_state fuel g st) (own_all g).
Proof.
  iIntros "Hg". unfold CIRCLE_init_local_state. do 4 own_step. own_step.
  iApply calm_wpi; [apply calm_init_token|]. iIntros (tk Htk). cbn zeta.
  iApply the_queue_own. iIntros (q _). own_step.
  iApply (wpi_wand with "[]"); [iApply init_offsets_own|]. iIntros (o) "Ho". own_step.
  iApply wpi_malloc. iIntros (p) "Hp". own_step.
  iApply calm_wpi; [apply calm_get_next_proc|]. iIntros (st1 (next & seed & ->)). cbn zeta. own_step.
  iApply (wpi_wand with "[]"); [iApply tree_init_own|]. iIntros (t) "Ht". do 2 own_step. cbn zeta. own_step.
  iApply (wpi_wand with "[]"); [iApply init_abort_own|]. iIntros (a) "Ha". iApply wpi_ret.
  unfold own_all, own_state, own_rest. cbn. rw Htk. iFrame.
  iSplitL "Hp"; [iSplitL; [by destruct p|done]|]. iExists [].
  iSplit; [iPureIntro; split; cbn; [done|c_arith|done]|]. unfold arrays, requests. cbn. by rw !left_id.
Qed.

Lemma forget_all {A} (m : gmap Z request) (t : prog A) (Φ : A → mProp) :
  ([∗ map] r ∈ m, opt_req r) ∗ wpi oom t Φ ⊢ wpi oom t Φ.
Proof.
  induction m as [|i r m Hi IH] using map_ind; [by rw big_sepM_empty left_id|].
  rw big_sepM_insert //. iIntros "[[Hr Hm] Ht]". iApply (wpi_forget with "[$Hr Hm Ht]"). iApply IH. iFrame.
Qed.

Lemma finalize_own g st :
  own_done g st ⊢ wpi oom (CIRCLE_finalize_local_state st) (λ _, own_globals g).
Proof.
  iIntros "(Hg & (Ho & Hr & Ht & Ha & Hw & Htk) & Hs1 & Hs2)". unfold CIRCLE_finalize_local_state.
  iApply (wpi_forget with "[$Hw Hg Ho Hr Ht Ha Htk Hs1 Hs2]").
  iApply (wpi_forget with "[$Htk Hg Ho Hr Ht Ha Hs1 Hs2]").
  own_step. iApply (wpi_wand with "[Ht]"); [by iApply tree_free_own|]. iIntros (t) "_". own_step.
  unfold CIRCLE_worksend_free. own_step. iApply (wpi_CIRCLE_free with "[$Hs1 Hg Ho Hr Ha Hs2]").
  own_step. iApply (wpi_CIRCLE_free with "[$Hs2 Hg Ho Hr Ha]"). iApply wpi_ret.
  own_step. unfold own_abort. destruct (abort_req (st_abort st)) as [b|]; cbn [own_requests].
  - iDestruct "Ha" as "[Ha Hc]". iApply (forget_all with "[$Hc Hg Ho Hr Ha]").
    iApply (wpi_CIRCLE_free _ (Some (addr b)) with "[$Ha Hg Ho Hr]").
    own_step. iApply (wpi_CIRCLE_free with "[$Ho Hg Hr]"). own_step. iApply (wpi_CIRCLE_free with "[$Hr Hg]").
    by iApply wpi_ret.
  - iApply (wpi_CIRCLE_free _ None). iSplitR; [done|].
    own_step. iApply (wpi_CIRCLE_free with "[$Ho Hg Hr]"). own_step. iApply (wpi_CIRCLE_free with "[$Hr Hg]").
    by iApply wpi_ret.
Qed.

Lemma gather_own rank v a : ⊢ wpi oom (summary_gather rank v a) (λ _, emp)%I.
Proof.
  iStartProof. unfold summary_gather. iApply (calm_wpi _ _ (λ _, True)); [quiet_steps|].
  by iIntros (x _).
Qed.

Lemma summary_own rank size p : ⊢ wpi oom (worker_summary rank size p) (λ _, emp)%I.
Proof.
  iStartProof. unfold worker_summary. own_step. iApply wpi_malloc. iIntros (a) "Ha".
  own_step. iApply wpi_malloc. iIntros (b) "Hb". own_step. iApply wpi_malloc. iIntros (c) "Hc".
  do 3 (own_step; iApply (wpi_wand with "[]"); [iApply gather_own|]; iIntros (?) "_").
  do 2 own_step. own_step. iApply (wpi_CIRCLE_free with "[$Hc Ha Hb]"). own_step.
  iApply (wpi_CIRCLE_free with "[$Hb Ha]"). own_step. iApply (wpi_CIRCLE_free with "[$Ha]"). by iApply wpi_ret.
Qed.

Lemma worker_own fuel junk g :
  own_globals g ⊢ wpi oom (CIRCLE_worker fuel junk g) (λ x, own_globals x.2).
Proof.
  iIntros "H". unfold CIRCLE_worker. do 5 own_step.
  iApply (wpi_wand with "[H]"); [by iApply init_own|]. iIntros (st) "[Hg Hst]". own_step.
  iApply (wpi_wand _ _ own_globals with "[Hg]").
  { own_step; [by iApply call_cb_own|by iApply wpi_ret]. }
  clear g. iIntros (g) "Hg". own_step. unfold CIRCLE_work_loop. own_step.
  iApply (wpi_wand with "[Hg Hst]"); [iApply work_rounds_own; iFrame|]. clear g st. iIntros ([g st]) "H".
  unfold finish_loop. own_step.
  iApply (wpi_wand with "[H]"); [by iApply cleanup_rounds_own|]. clear g st. iIntros ([g st]) "H". cbn beta iota.
  iApply (wpi_wand with "[H]"); [by iApply finish_sync_own|]. clear g st. iIntros ([g st]) "(Hg & Hst)". own_step.
  iApply (wpi_wand _ _ own_globals with "[Hg]").
  { own_step; [by iApply checkpoint_own|by iApply wpi_ret]. }
  clear g. iIntros (g) "Hg". own_step. iApply (wpi_wand _ _ (λ _, emp)%I with "[]").
  { own_step; [|by iApply wpi_ret]. own_step. iApply (wpi_wand with "[]"); [iApply summary_own|].
    iIntros (?) "_". by iApply wpi_ret. }
  iIntros (u) "_". own_step.
  iApply (wpi_wand with "[Hg Hst]"); [iApply finalize_own; iFrame|]. iIntros (?) "H". by iApply wpi_ret.
Qed.
End worker.
