(* ===== verification/Lib.v ===== *)
(** * Starting and stopping the library (CIRCLE_init, CIRCLE_begin and
    CIRCLE_finalize of src/libcircle/lib.c, the MPI error handler of
    src/libcircle/worker.c) *)
From S2P Require Import Prelude CMonad Mem Heap Queue Checkpoint Wire Tree State Mpi Sends Proc Api Worker.

(** The settings before any API call changes them. *)
Definition default_input (user_options : Z) (queue : option CIRCLE_internal_queue_t) : CIRCLE_input_st :=
  mk_input None None None None None None 0 0 user_options 64 queue.

(** Returns the rank, or -1 for a failure. *)
Definition CIRCLE_init (user_options : Z) (g : globals) : prog (Z * globals) :=
  let g := set_debug_level CIRCLE_LOG_INFO g in
  let g := upd_input (λ i, default_input user_options (queue i)) g in
  let g := set_must_finalize 0 g in
  '(rc, mpi_initialized) ← call OMpiInitialized;
  if negb (rc =? MPI_SUCCESS) then mret (-1, g)
  else
    '(ok, g) ← (if mpi_initialized : bool then mret (true, g)
                else
                  rc ← call OMpiInit;
                  if negb (rc =? MPI_SUCCESS) then mret (false, g)
                  else mret (true, set_must_finalize 1 g));
    if ok : bool then
      _ ← call OCommDup;
      rank ← call OCommRank;
      let g := set_global_rank rank g in
      qp ← CIRCLE_internal_queue_init;
      let g := upd_input (set_queue qp) g in
      match qp with
      | None => mret (-1, g)
      | Some _ => mret (rank, g)
      end
    else mret (-1, g).

Definition CIRCLE_begin (fuel : nat) (junk : CIRCLE_state_st) (g : globals) : prog globals :=
  '(_, g) ← CIRCLE_worker fuel junk g; mret g.

Definition CIRCLE_finalize (g : globals) : prog globals :=
  _ ← CIRCLE_internal_queue_free (queue (CIRCLE_INPUT_ST g));
  _ ← CIRCLE_free (addr <$> reduce_buf (CIRCLE_INPUT_ST g));
  let g := upd_input (set_reduce_buf None) g in
  _ ← call OCommFree;
  _ ← (if truth (CIRCLE_must_finalize_mpi g) then call OMpiFinalize else mret tt);
  mret g.

(** Registered with MPI: checkpoint what is left and exit. *)
Definition CIRCLE_MPI_error_handler {A} (g : globals) : prog A :=
  _ ← CIRCLE_checkpoint g; Stop (Exit 1).
