(* ===== verification/MemSafe.v ===== *)
(** * The heap and the requests in a whole session

    A session is what a user of the library writes: initialise, register
    callbacks and set options, run the workers, finalise.  It never gives back
    a block twice, never frees, reallocates or sends a block that MPI reads,
    never tests or waits for a request that is not pending, and frees all it
    allocated, whatever other processes, files and user code answer.  This is
    about the calls a session makes up to its end or to the point where it
    stops; accesses to the cells of a block are checked where they happen
    ([Mem]), and one that is out of range is a stop. *)
From iris.proofmode Require Import proofmode.
From S2P Require Import Prelude CMonad Mem Heap Queue Mpi Sends Stdio Checkpoint Wire Tree State Proc Api Network Quiet Worker Ranks TermSpec TermInv TermSafe Lib Own OwnSends OwnQueue OwnTransfer OwnWorker.

(** ** CIRCLE_init and CIRCLE_finalize *)

Section session.
Context (oom : bool).

Lemma circle_init_own o g :
  queue (CIRCLE_INPUT_ST g) = None →
  ⊢ wpi oom (CIRCLE_init o g) (λ x, if x.1 <? 0 then emp else own_globals x.2)%I.
Proof.
  intros Hq. iStartProof. unfold CIRCLE_init. do 3 own_step. own_step; [by iApply wpi_ret|].
  own_step. iApply (calm_wpi _ _ (λ x, reduce_buf (CIRCLE_INPUT_ST x.2) = None)); [by quiet_steps|].
  iIntros ([ok g1] Hr1). cbn [snd] in Hr1. own_step; [|by iApply wpi_ret].
  do 3 own_step. iApply wpi_rank. iIntros (rank Hrank). own_step.
  iApply (wpi_wand with "[]"); [iApply queue_init_own|]. iIntros (qp) "Hqp".
  own_step; iApply wpi_ret; [|done]. cbn [fst snd]. rw (proj2 (Z.ltb_ge rank 0)) //.
  unfold own_globals. cbn. rw Hr1. by iFrame.
Qed.

Lemma circle_finalize_own g : own_globals g ⊢ wpi oom (CIRCLE_finalize g) (λ _, emp)%I.
Proof.
  iIntros "[Hq Hr]". unfold CIRCLE_finalize. own_step.
  iApply (wpi_wand with "[Hq]"); [by iApply queue_free_own|]. iIntros (rc) "_". own_step.
  iApply (wpi_CIRCLE_free with "[$Hr]"). do 2 own_step. own_step.
  iApply (calm_wpi _ _ (λ _, True)); [quiet_steps|]. iIntros (u _). by iApply wpi_ret.
Qed.
End session.

(** ** A session *)

(** The callbacks a user registers. *)
Record callbacks : Type := mk_callbacks {
  cb_create : option user;
  cb_process : option user;
  cb_reduce_init : option user;
  cb_reduce_op : option (user_data → Z → user_data → Z → user);
  cb_reduce_fini : option (user_data → Z → user);
}.

Definition register (c : callbacks) (g : globals) : globals :=
  CIRCLE_cb_reduce_fini (cb_reduce_fini c) (CIRCLE_cb_reduce_op (cb_reduce_op c)
    (CIRCLE_cb_reduce_init (cb_reduce_init c) (CIRCLE_cb_process (cb_process c)
      (CIRCLE_cb_create (cb_create c) g)))).

(** The file-scope variables as a program starts with them. *)
Definition static_globals : globals :=
  mk_globals (mk_input None None None None None None 0 0 0 0 None) 0 0 0 0.

(** [setup] is what the user calls between initialisation and start. *)
Definition session (fuel : nat) (user_options : Z) (c : callbacks) (setup : user)
    (junk : CIRCLE_state_st) : prog globals :=
  '(rank, g) ← CIRCLE_init user_options static_globals;
  if rank <? 0 then mret g
  else
    g ← run_user fuel setup (register c g);
    g ← CIRCLE_begin fuel junk g;
    CIRCLE_finalize g.

Lemma register_own c g : own_globals g ⊢ own_globals (register c g).
Proof.
  unfold register, CIRCLE_cb_process. by destruct (create_cb (CIRCLE_INPUT_ST (CIRCLE_cb_create (cb_create c) g))).
Qed.

Lemma session_own oom fuel o c setup junk :
  ⊢ wpi oom (session fuel o c setup junk) (λ _, emp)%I.
Proof.
  iStartProof. unfold session. own_step.
  iApply (wpi_wand with "[]"); [by iApply circle_init_own|]. iIntros ([rank g]) "Hg". cbn [fst snd].
  destruct (rank <? 0); cbn beta iota; [by iApply wpi_ret|]. iDestruct (register_own c with "Hg") as "Hg".
  own_step. iApply (wpi_wand with "[Hg]"); [by iApply user_own|]. clear g. iIntros (g) "Hg". own_step.
  unfold CIRCLE_begin. own_step. iApply (wpi_wand with "[Hg]"); [by iApply worker_own|].
  iIntros ([rc g']) "Hg". iApply wpi_ret. by iApply circle_finalize_own.
Qed.

(** ** The memory of the rest of the program *)

Definition buffers (g : view) : gset Z := list_to_set (omap snd (map_to_list (v_pending g))).

Lemma elem_of_buffers g p : p ∈ buffers g ↔ ∃ r, v_pending g !! r = Some (Some p).
Proof.
  unfold buffers. rw elem_of_list_to_set list_elem_of_omap. split.
  - intros ([r b] & Hin%elem_of_map_to_list & Hb). cbn in Hb. subst b. by exists r.
  - intros [r Hr]. exists (r, Some p). split; [by apply elem_of_map_to_list|done].
Qed.

(** Everything there is: the blocks no request reads, and the requests. *)
Definition everything (g : view) : resources :=
  kmap a_block (gset_to_gmap None (v_live g ∖ buffers g)) ∪ kmap a_request (v_pending g).

#[local] Instance a_block_inj : Inj (=) (=) a_block.
Proof. by intros p q [= ->]. Qed.
#[local] Instance a_request_inj : Inj (=) (=) a_request.
Proof. by intros p q [= ->]. Qed.

Lemma everything_block g p x :
  everything g !! a_block p = Some x ↔ (p ∈ v_live g ∧ ¬ in_flight g p) ∧ x = None.
Proof.
  unfold everything. rw lookup_union_l.
  - rw lookup_kmap lookup_gset_to_gmap_Some elem_of_difference elem_of_buffers. naive_solver.
  - apply lookup_kmap_None; [apply _|]. by intros r [=].
Qed.

Lemma everything_request g r b : everything g !! a_request r = Some b ↔ v_pending g !! r = Some b.
Proof.
  unfold everything. rw lookup_union_r; [by rw lookup_kmap|].
  apply lookup_kmap_None; [apply _|]. by intros p [=].
Qed.

(** What holds in every program: a request reads a block that is allocated,
    and no two requests read the same one. *)
Record orderly (g : view) : Prop := Orderly {
  od_flight : ∀ r p, v_pending g !! r = Some (Some p) → p ∈ v_live g;
  od_unique : ∀ r r' p, v_pending g !! r = Some (Some p) → v_pending g !! r' = Some (Some p) → r = r';
}.

Lemma everything_tidied oom g : orderly g → tidied oom g (everything g).
Proof.
  intros [Hf Hu]. split; [| |done|done|].
  - intros p x [Hp _]%everything_block. apply Hp.
  - intros r b. by rw everything_request.
  - intros _ p Hp. destruct (decide (p ∈ buffers g)) as [Hb|Hb]; rewrite ->elem_of_buffers in Hb.
    + destruct Hb as [r Hr]. right. exists r. by apply everything_request.
    + left. exists None. by apply everything_block.
Qed.

(** What the rest of the program has is left alone: its blocks are allocated
    and nothing reads them, its requests are pending. *)
Definition spared (g g' : view) : Prop :=
  (∀ p, usable g p → usable g' p) ∧ ∀ r b, v_pending g !! r = Some b → v_pending g' !! r = Some b.

Lemma everything_spared oom g g' h : h ##ₘ everything g → tidied oom g' (h ∪ everything g) → spared g g'.
Proof.
  intros Hd Hg'. split.
  - intros p Hp. apply (td_block _ _ _ Hg' p None), lookup_union_Some_r; [done|]. by apply everything_block.
  - intros r b Hr. apply (td_request _ _ _ Hg'), lookup_union_Some_r; [done|]. by apply everything_request.
Qed.

(** C6 The heap and request discipline of a process that initialises the
    library, registers any callbacks, calls the API, runs the workers and
    finalises, whatever the other processes, files and user code answer.  It
    frees or reallocates only blocks that are allocated and that no request
    reads, sends only such blocks, tests and waits for only requests that are
    pending; and the blocks and requests of the rest of the program are still
    allocated and pending when it ends, and also if it stops.  At the end, if
    no allocation failed, no other block is left.
    A process that stops makes no further claim: the stop may be an access
    outside of an array ([requestors_overrun] shows one that misbehaving
    peers can provoke). *)
Theorem session_heap_discipline oom fuel user_options c setup junk g :
  orderly g →
  wp (tidy oom) (session fuel user_options c setup junk)
    (λ g' _, spared g g' ∧ (oom = false → v_live g' ⊆ v_live g))
    (λ g' _, spared g g') g.
Proof.
  intros Ho. pose proof (everything_tidied oom g Ho) as Ht.
  pose proof (at_entails _ _ ∅ (session_own oom fuel user_options c setup junk) eq_refl) as Hw.
  eapply wp_mono, (Hw (everything g)); [| |apply map_disjoint_empty_l|by rw left_id_L].
  - intros g' s (h & Hd & Hg' & ->). split; [by eapply everything_spared|]. rw left_id_L in Hg'.
    intros Hoom p Hp. destruct (td_all _ _ _ Hg' Hoom p Hp) as [[x Hx]|[r Hr]].
    + apply everything_block in Hx. apply Hx.
    + apply everything_request in Hr. by apply (od_flight g Ho r).
  - intros g' e (h & Hd & Hg'). by eapply everything_spared.
Qed.

(** ** A program with a request of its own under way, and a block for it *)

Definition busy_view : view := View {[7; 8]} {[3 := Some 7]} [] [].

Lemma busy_orderly : orderly busy_view.
Proof.
  split; cbn.
  - intros r p. rw lookup_singleton_Some. intros [_ [= <-]]. set_solver.
  - intros r r' p. rw !lookup_singleton_Some. by intros [<- _] [<- _].
Qed.

(** [create] puts an item in, [process] takes one out and gives data to the
    reduction. *)
Definition demo_callbacks : callbacks :=
  mk_callbacks (Some (UEnqueue (Some [Byte.x61]) (λ _, UReturn)))
    (Some (UDequeue (Some 4096) (λ _ _, UReduce [Byte.x62] UReturn))) None None None.

Lemma session_heap_discipline_witness :
  orderly busy_view ∧
  wp (tidy false) (session 20 0 demo_callbacks (USetOptions CIRCLE_TERM_TREE UReturn) (demo_junk 0))
    (λ g' _, spared busy_view g' ∧ (false = false → v_live g' ⊆ {[7; 8]}))
    (λ g' _, spared busy_view g') busy_view.
Proof.
  split; [exact busy_orderly|].
  exact (session_heap_discipline false 20 0 demo_callbacks (USetOptions CIRCLE_TERM_TREE UReturn) (demo_junk 0)
           busy_view busy_orderly).
Defined.
